(* ===== verification/_CoqProject ===== *)
-Q . S2P
Prelude.v
CString.v
Hash.v
Memory.v
Cache.v
CacheInv.v
CacheOps.v
CacheProps.v
CacheUpdate.v
CacheNegative.v
CacheMap.v
Alarm.v
StateQueue.v
StateInv.v
StateProps.v
StateClaims.v
Macros.v
MacrosProps.v
CatPath.v
Args.v
Lexer.v
LexerProps.v
Options.v
AmdExpand.v
AmdExpandProps.v
MapType.v
Selectors.v
Replicated.v
ReplicatedProbe.v
ReplicatedProps.v
ReplicatedPrune.v
Location.v
MountNfs.v
MountNfsProps.v
MatchKey.v
Base64.v
Nsswitch.v
ConfigNames.v
ConfigRead.v
ConfigGet.v
ConfigProps.v
ConfigUpdate.v
ConfigLine.v
ConfigFile.v
ConfigTable.v
MntTable.v
MntProps.v
MntOps.v
MntExt.v
MntClaims.v
Trees.v
HostExports.v
MntExpire.v
Offsets.v
OffsetClaims.v
Master.v
MasterEntries.v
MasterProps.v
MasterUpdate.v
MasterInv.v
MasterClaims.v
MasterSources.v
MemOk.v
SunExpand.v
SunParse.v
SunEntry.v
SunRound.v
SunSingle.v
FileRead.v
FileLookup.v
FileProps.v
FileMap.v
FileFind.v
Lookup.v
LookupProps.v
LookupPrune.v
LookupClaims.v
AmdParse.v
AmdSafe.v
AmdProps.v
