(* ===== verification/Prelude.v ===== *)
(** * Verification of the autofs automounter

    autofs is a daemon that mounts file systems when they are first used and
    unmounts them when they are not used any more. This library models the core
    of its C code under src/ as functions of Rocq and proves what makes these
    parts correct.

    ** The program and its parts

    The daemon reads the master map and creates a mount point
    ([struct autofs_point]) for each of its entries. A request of the kernel for a
    name below a mount point makes the daemon look the key up in the maps of the
    mount point; what the maps say is kept in the map entry cache (lib/cache.c).
    A map entry is taken apart by a parser (modules/parse_sun.c and
    modules/parse_amd.c) with the functions of lib/parse_subs.c, its variables are
    replaced with those of lib/macros.c, and a mount module runs the mount
    program. Each mount point has a state (daemon/state.c): requests to expire,
    to prune, to re-read the map or to shut down are tasks of a queue, which a
    handler thread starts one at a time for each mount point in worker threads.
    The alarm thread (lib/alarm.c) asks for an expire of a mount point from time
    to time.

    ** Files

    - this file: the automation of the development (the hint databases [autofs] and
      [autofs_rw], the tactics [break], [boolify] and [mread]), integers of fixed
      width, the monad [M] of operations on a state with an allocator, the
      assertions [reads] and [triple] about it, and lemmas on lists;
    - CString: C strings and what is used of <string.h> and <ctype.h>;
    - Hash: include/hash.h, [hash], [hash_32] and [hash_64] with their wrap-around;
    - Cache: lib/cache.c, the structures [mapent], [mapent_cache] and [stack] of
      include/automount.h and every function on them. The entries are in a store
      indexed by address and linked by [me_next], as in memory. CacheInv has the
      invariant [wf] and the lookups, CacheOps the effect of every update on the
      lists of the buckets, CacheProps, CacheUpdate and CacheNegative the theorems
      about lookup and insertion, deletion, enumeration and the inode index,
      updates, saved entries and the negative cache. CacheMap states what a client
      of the cache of one map source needs of it as the class [Implements], proves
      that the cache is an instance, and derives what holds for runs of operations
      and for the reading of a map from the class alone;
    - Alarm: lib/alarm.c, the ordered list of alarms, the functions that add and
      delete alarms, the rounds of the alarm thread, and their interleavings;
    - StateQueue: daemon/state.c, the state machine, the task queue, the handler
      thread and the start and the end of the worker threads. StateInv has the
      invariant and the passes of the handler, StateProps the step relation
      [st_step] and the reachable states, StateClaims the theorems;
    - Macros: lib/macros.c and the standard and amd variables of lib/mounts.c
      ([addstdenv] to [remove_std_amd_vars]); MacrosProps the theorems;
    - CatPath: lib/cat_path.c on its buffer, cell by cell;
    - Args: lib/args.c, vectors whose cells can be uninitialised;
    - Lexer and LexerProps: [skipspace] to [starts_with_null_opt] of
      lib/parse_subs.c;
    - Options: [hasopt] and [merge_options] of lib/parse_subs.c;
    - AmdExpand and AmdExpandProps: [expandamdent], [expand_selectors], [next_arg]
      and [construct_argv] of lib/parse_subs.c, on Macros and Args;
    - MapType: [parse_map_type_info] of lib/parse_subs.c;
    - Selectors: the selector table, [get_proximity], [get_network_proximity] and
      [in_network] of lib/parse_subs.c;
    - MatchKey: [match_cached_key] of lib/parse_subs.c, on the cache;
    - Memory: a store of objects linked by pointers, with a class for the place of the
      store in a state and one for the link of an object, and the lemmas on linked
      lists that the components below share; MemOk: computations that leave an
      allocator without failures so;
    - Replicated: modules/replicated.c on the RPC calls of lib/rpc_subs.c, the probes of
      the hosts and [prune_host_list]. ReplicatedProbe, ReplicatedProps and
      ReplicatedPrune have the theorems; Location is [parse_location] on its buffer;
    - MountNfs and MountNfsProps: [mount_mount] of modules/mount_nfs.c, on Replicated and
      Location;
    - Base64: modules/base64.c; Nsswitch: lib/nsswitch.c and the actions of
      lib/nss_parse.y;
    - ConfigNames (names, defaults, the table of options), ConfigRead (the files) and
      ConfigGet (the accessors): lib/defaults.c. ConfigProps, ConfigUpdate, ConfigLine,
      ConfigFile and ConfigTable have the theorems;
    - MntTable: the tables of mounts and external mounts of lib/mounts.c. MntProps has
      the invariant, MntOps that each operation keeps it, MntExt the external mounts,
      MntClaims the step relation and the theorem;
    - Trees: the binary trees of lib/mounts.c, as functions of the class [TreeOps] (for
      [struct tree_ops]). Its instances are in HostExports (modules/lookup_hosts.c),
      MntExpire (the list of mounts to expire) and Offsets (the offsets of a
      multi-mount, with the functions of modules/parse_sun.c and lib/mounts.c on them;
      OffsetClaims has the theorems);
    - Master and MasterEntries: daemon/master.c, the entries of the master map, their
      sources and instances with their caches. MasterProps and MasterUpdate follow what
      is freed with a source, MasterInv has the invariant, MasterClaims and
      MasterSources the theorems;
    - SunExpand, SunParse and SunEntry: modules/parse_sun.c, from the expansion of
      variables over the multi-mounts to [parse_mount], on Macros, Options, Lexer and
      Offsets. SunRound and SunSingle have the theorems;
    - FileRead and FileLookup: modules/lookup_file.c, the reader of map files and the
      reading of, and the lookups in, maps and the master map, on Master, Cache and
      MatchKey. FileProps, FileMap and FileFind have the theorems;
    - Lookup: daemon/lookup.c, which reads the maps of a mount point from their sources,
      looks keys up in them and prunes them, on Master, Cache and Nsswitch; the lookup
      modules are the record [lookup_ops]. LookupProps and LookupPrune follow the
      pruning of a cache, LookupClaims has the theorems;
    - AmdParse: modules/parse_amd.c, the selectors, defaults and options of the locations
      of an amd map entry and the mounts of every type, on Macros, AmdExpand, Options,
      Cache and MntTable. The grammar of the entries is an argument, the mounts are
      requests with answers that are part of the state. AmdSafe has the rules for runs
      on the tables of mounts and AmdProps the theorems.

    ** How the code is modelled

    An operation that changes a structure is a computation of the monad [M]: it is
    given the state and an allocator, the list of the outcomes of the calls of
    [malloc], [strdup] and [pthread_create] to come, so that a theorem for every
    allocator covers every failure. The result [None] stands for leaving the
    program: a pointer that is not valid, an access outside of a buffer, a cell
    that has not been written, or a loop that does not end. That an operation
    returns, and is defined, is therefore part of every theorem that gives its
    result. A function on strings is a function on lists of characters; where the
    code works in a buffer of limited size, the size is part of the definition.
    Functions that run with a mutex held are atomic steps; StateProps and Alarm
    interleave these steps in any order. Answers of the kernel, of the network and
    of the configuration are arguments.

    ** Bounds

    Loops that are not structural have fuel, and running out of it is [None]. A
    walk along a bucket has as much as the store has entries ([chain_fuel]), which
    is enough on a well formed cache since a bucket has no entry twice. A pass of
    the queue handler has (n + 1) * (n + 1) rounds for n tasks ([pass_fuel]): it goes
    back to the start at most once for each task that has a pending one, and
    StateInv proves that it suffices. Loops over a string have the length of the
    string, since each round consumes a character. The polls of [st_wait_task] are
    counted by its argument, and five for each second are proved to be enough. The
    rounds of the alarm thread at one time are bounded by the number of alarms. A walk
    along a list of objects in a store has as much fuel as the store has objects, which
    is enough on the lists that the invariants describe; a loop over a file has its
    length, since each round reads a character, and [read_one_total] and
    [read_config_refines] prove that it suffices.

    ** What the theorems show

    - Cache: for a map source with keys that are not absolute the cache refines a
      finite map in every run of its operations, and of several lines of a key the
      first one counts; lookups return the first entry of the key in the order of the map,
      insertion, deletion and update change the entries of one key and no other,
      and all of them keep the table well formed; the enumeration visits each
      entry once; an entry is found through the inode index; a failed lookup is
      remembered until its timeout and then forgotten. A second entry for a key
      cuts off the bucket behind the entries of the key
      ([cache_add_loses_entry]), and [cache_lookup_key_next] does not return from
      inside of a multi-mount ([cache_lookup_key_next_diverges]).
    - State machine: in every interleaving a mount point has at most one task and
      one worker thread, every operation returns, requests are queued without
      duplicates, and the end of an expire thread leads to the state of a table.
      Pending requests behind the first one are lost when a task ends
      ([promotion_keeps_only_first], [shutdown_request_lost]).
    - Alarms: the list is ordered in every interleaving, exactly the due alarms
      fire, deleted ones do not, and no wake-up is lost.
    - Variables: tables are maps from names to values, definitions and removals
      touch one name, predefined variables are never changed; the environment of
      programs agrees with the lookup; removing the standard variables undoes
      adding them.
    - Strings: joined paths fit their buffer and are cut where they do not;
      [expand_selectors] writes as many characters as it has counted; quoting,
      splitting into words, chunks, options and map types are specified as round
      trips or by the strings they accept. Where the code leaves its buffers, a
      theorem shows an input that does.
    - Network: an address is local exactly when an interface has it; the selector
      table implements lookup by name.
    - Replicated servers: for every behaviour of the network [prune_host_list] returns,
      leaves the hosts ordered, frees exactly those it drops, and the version it chooses
      is supported by no fewer of the closest hosts than any other; the list that
      [parse_location] makes is well formed and the mount of an NFS file system frees it
      on every path.
    - Configuration: the table of options refines a map from names to lists of values,
      and reading the files is a fold over their settings; the files are read within the
      buffers of lines; a setting that is written is the setting that is read.
    - Mount tables: in every run of the operations the references are counted and no
      mount is freed that a list, the table or a holder still has; the external mounts
      refine a map from paths to counts.
    - Trees: the order of an expire is inner mounts first; a walk of the offsets of a
      multi-mount visits all of them once and the deletion removes all of them.
    - Master map: the references to sources, caches and entries stay valid while the
      entries that are gone are dropped; the sources of an entry are a table of their
      types, formats and arguments.
    - Sun maps: the expansion writes as many characters as it has counted; a multi-mount
      is added to the cache as it is written; an entry of locations is one mount of its
      locations with the merged options; the key is found again in the location.
    - File maps: a map file is read to its end for every content; the cache of a source
      has after reading what the lines of the file say, the first of two lines for a key
      counting; a lookup of a key that is not valid in the cache reads the file again,
      and the mount that follows is the one of the entry found.
    - Maps of a mount point: after a read and a prune a browsable map is as its file;
      pruning refines a function on the table of a cache; the sources are asked in their
      order until one has the key; a key that is not found is refused until the negative
      timeout. The prune of one instance of a source can drop the valid entry of another
      one ([prune_drops_valid]).
    - amd maps: an entry leaves the tables of mounts sound and unlocked whatever its
      locations are and whichever mounts fail, and no amd mount behind when nothing could
      be mounted; the options of a location are completed from the defaults and the
      variables. Only the first selector of a location is evaluated
      ([only_first_selector]), and a failed host map can leave its amd mount
      ([failed_host_leaves_mount]).

    ** What is not modelled

    The grammar of amd map entries (modules/amd_parse.y and amd_tok.l) is an input of
    parser generators. The other lookup modules (programs, directories, LDAP with SASL,
    NIS, NIS+, Hesiod, SSS) and the other mount modules are calls of libraries, of
    programs and of directory services. daemon/automount.c,
    daemon/direct.c, daemon/indirect.c, daemon/spawn.c, lib/dev-ioctl-lib.c and the
    remaining part of lib/mounts.c (the mount table of the kernel, the unmount and
    remount of file systems) are calls of the kernel. The headers of intrusive lists, the
    programs under fedfs/, the logging and the locks themselves are left out. *)

From stdpp Require Export prelude gmap strings list.
From Stdlib Require Export ZArith Lia.

Open Scope Z_scope.

(** ** The proof automation of the development *)

Create HintDb autofs.
Create Rewrite HintDb autofs_rw.

(** Case analysis on every [match]/[if] scrutinee of the goal or context. *)
Ltac break_step :=
  match goal with
  | |- context [match ?x with _ => _ end] => destruct x eqn:?
  | H : context [match ?x with _ => _ end] |- _ => destruct x eqn:?
  end.

Ltac break := repeat (break_step; simplify_eq/=).

(** Turn boolean tests of the code into propositions. *)
Ltac boolify :=
  repeat match goal with
  | H : andb _ _ = true |- _ => apply andb_true_iff in H; destruct H
  | H : orb _ _ = false |- _ => apply orb_false_iff in H; destruct H
  | H : negb _ = true |- _ => apply negb_true_iff in H
  | H : negb _ = false |- _ => apply negb_false_iff in H
  | H : (_ <? _) = true |- _ => apply Z.ltb_lt in H
  | H : (_ <? _) = false |- _ => apply Z.ltb_ge in H
  | H : (_ <=? _) = true |- _ => apply Z.leb_le in H
  | H : (_ <=? _) = false |- _ => apply Z.leb_gt in H
  | H : (_ =? _) = true |- _ => apply Z.eqb_eq in H
  | H : (_ =? _) = false |- _ => apply Z.eqb_neq in H
  | H : bool_decide _ = true |- _ => apply bool_decide_eq_true in H
  | H : bool_decide _ = false |- _ => apply bool_decide_eq_false in H
  end.

(** ** Fixed-width unsigned integers *)

Definition u32 (x : Z) : Z := x mod 2 ^ 32.
Definition u64 (x : Z) : Z := x mod 2 ^ 64.

Lemma u32_range x : 0 <= u32 x < 2 ^ 32.
Proof. apply Z.mod_pos_bound. lia. Qed.

Lemma u64_range x : 0 <= u64 x < 2 ^ 64.
Proof. apply Z.mod_pos_bound. lia. Qed.

Lemma u32_small x : 0 <= x < 2 ^ 32 -> u32 x = x.
Proof. apply Z.mod_small. Qed.

#[export] Hint Resolve u32_range u64_range : autofs.

(** ** A state monad with an allocator and partiality

    Operations of the C code that mutate shared structures are functions of
    type [M S A]: they take the component's state and an allocator, and either
    get stuck ([None]: a dangling pointer is dereferenced or a loop does not
    terminate) or return a value, the new state and the rest of the allocator.
    The allocator is the list of the outcomes of the calls of [malloc] and
    [strdup] to come; past its end every allocation succeeds. *)

Definition alloc : Type := list bool.

Definition M (S A : Type) : Type := S -> alloc -> option (A * S * alloc).

#[global] Instance M_ret S : MRet (M S) := fun A x s m => Some (x, s, m).

#[global] Instance M_bind S : MBind (M S) := fun A B f c s m =>
  match c s m with
  | Some (x, s', m') => f x s' m'
  | None => None
  end.

Definition get_state {S} : M S S := fun s m => Some (s, s, m).
Definition put_state {S} (s : S) : M S unit := fun _ m => Some ((), s, m).
Definition modify {S} (f : S -> S) : M S unit := fun s m => Some ((), f s, m).
Definition stuck {S A} : M S A := fun _ _ => None.

(** One call of the allocator: [true] when it returns memory. *)
Definition malloc {S} : M S bool := fun s m =>
  match m with
  | [] => Some (true, s, [])
  | b :: m' => Some (b, s, m')
  end.

(** A pointer that is dereferenced must be valid. *)
Definition from_option_M {S A} (o : option A) : M S A := fun s m =>
  match o with
  | Some x => Some (x, s, m)
  | None => None
  end.

Lemma bind_ret_l {S A B} (x : A) (f : A -> M S B) s m : (mret x ≫= f) s m = f x s m.
Proof. reflexivity. Qed.

Lemma bind_some {S A B} (c : M S A) (f : A -> M S B) s m x s' m' :
  c s m = Some (x, s', m') -> (c ≫= f) s m = f x s' m'.
Proof. intros H. unfold mbind, M_bind. by rewrite H. Qed.

Lemma bind_bind {S A B C} (e : M S A) (f : A -> M S B) (c : B -> M S C) s al :
  (x ← e; y ← f x; c y) s al = (y ← (x ← e; f x); c y) s al.
Proof. unfold mbind, M_bind. by destruct (e s al) as [[[] ]|]. Qed.

Lemma bind_bind3 {S A A' B C} (e : M S A) (e' : A -> M S A') (f : A -> A' -> M S B) (c : B -> M S C) s al :
  (x ← e; y ← e' x; z ← f x y; c z) s al = (z ← (x ← e; y ← e' x; f x y); c z) s al.
Proof.
  unfold mbind, M_bind. destruct (e s al) as [[[x s1] al1]|]; [|done]. by destruct (e' x s1 al1) as [[[] ]|].
Qed.

Lemma bind_bind4 {S A A' A'' B C} (e : M S A) (e' : M S A') (e'' : M S A'') (f : A'' -> M S B) (c : B -> M S C) s al :
  (_ ← e; _ ← e'; y ← e''; z ← f y; c z) s al = (z ← (_ ← e; _ ← e'; y ← e''; f y); c z) s al.
Proof.
  unfold mbind, M_bind. destruct (e s al) as [[[x s1] al1]|]; [|done].
  destruct (e' s1 al1) as [[[y s2] al2]|]; [|done]. by destruct (e'' s2 al2) as [[[] ]|].
Qed.

Lemma bind_from_some {S A B} (x : A) (k : A -> M S B) s al : (from_option_M (Some x) ≫= k) s al = k x s al.
Proof. done. Qed.

Lemma bind_ext {S A B} (c : M S A) (f g : A -> M S B) s m :
  (forall x s' m', f x s' m' = g x s' m') -> (c ≫= f) s m = (c ≫= g) s m.
Proof. intros H. unfold mbind, M_bind. destruct (c s m) as [[[x s'] m']|]; [apply H|done]. Qed.

(** A computation that only reads. *)
Definition reads {S A} (c : M S A) (s : S) (x : A) : Prop := forall m, c s m = Some (x, s, m).

Lemma reads_bind {S A B} (c : M S A) (f : A -> M S B) s x m :
  reads c s x -> (c ≫= f) s m = f x s m.
Proof. intros H. apply bind_some, H. Qed.

Lemma reads_ret {S A} (x : A) (s : S) : reads (mret x) s x.
Proof. done. Qed.

#[export] Hint Resolve reads_ret : autofs.

(** Run the first operation of a sequence that only reads. *)
Ltac mread := erewrite reads_bind by eauto with autofs.

Lemma reads_get {S} (s : S) : reads get_state s s.
Proof. done. Qed.

Lemma bind_modify {S B} (f : S -> S) (k : unit -> M S B) s m :
  (modify f ≫= k) s m = k () (f s) m.
Proof. done. Qed.

(** An allocation fails without effect or succeeds. *)
Lemma bind_malloc {S B} (k : bool -> M S B) s m :
  exists b m', (malloc ≫= k) s m = k b s m' /\ (m = [] -> b = true /\ m' = []).
Proof. destruct m as [|b m]; [exists true, []|exists b, m]; done. Qed.

#[export] Hint Resolve reads_get : autofs.

(** ** Total correctness

    [triple P c Q]: from a state that satisfies [P] the operation [c] returns,
    whatever the allocator does, with a result and a state that satisfy [Q]. *)
Definition triple {S A} (P : S -> Prop) (c : M S A) (Q : A -> S -> Prop) : Prop :=
  forall s m, P s -> exists x s' m', c s m = Some (x, s', m') /\ Q x s'.

Lemma triple_ret {S A} (P : S -> Prop) (x : A) (Q : A -> S -> Prop) :
  (forall s, P s -> Q x s) -> triple P (mret x) Q.
Proof. intros H s m Hs. exists x, s, m. eauto. Qed.

Lemma triple_bind {S A B} (P : S -> Prop) (c : M S A) (Q : A -> S -> Prop)
    (f : A -> M S B) (R : B -> S -> Prop) :
  triple P c Q -> (forall x, triple (Q x) (f x) R) -> triple P (c ≫= f) R.
Proof.
  intros Hc Hf s m Hs. destruct (Hc s m Hs) as (x & s' & m' & Hrun & HQ).
  rewrite (bind_some _ _ _ _ _ _ _ Hrun). by apply Hf.
Qed.

Lemma triple_get {S B} (P : S -> Prop) (f : S -> M S B) (R : B -> S -> Prop) :
  (forall x, P x -> triple (fun s => s = x) (f x) R) -> triple P (get_state ≫= f) R.
Proof. intros H s m Hs. rewrite (reads_bind _ _ _ _ _ (reads_get s)). by apply (H s Hs). Qed.

Lemma triple_modify {S} (P : S -> Prop) (g : S -> S) (Q : unit -> S -> Prop) :
  (forall s, P s -> Q () (g s)) -> triple P (modify g) Q.
Proof. intros H s m Hs. exists (), (g s), m. eauto. Qed.

Lemma triple_malloc {S} (P : S -> Prop) : triple P malloc (fun _ => P).
Proof. intros s [|b m] Hs; do 3 eexists; (split; [reflexivity|done]). Qed.

Lemma triple_conseq {S A} (P P' : S -> Prop) (c : M S A) (Q Q' : A -> S -> Prop) :
  triple P' c Q' -> (forall s, P s -> P' s) -> (forall x s, Q' x s -> Q x s) -> triple P c Q.
Proof.
  intros Hc HP HQ s m Hs. destruct (Hc s m (HP _ Hs)) as (x & s' & m' & Hrun & H). eauto 6.
Qed.

Lemma triple_pure {S A} (P : S -> Prop) (phi : Prop) (c : M S A) (Q : A -> S -> Prop) :
  (phi -> triple P c Q) -> triple (fun s => phi /\ P s) c Q.
Proof. intros H s m [Hphi Hs]. by apply H. Qed.

(** ** Lists *)

(** The elements of a list up to the first that satisfies a test, and the rest. *)
Fixpoint split_at {A} (p : A -> bool) (l : list A) : list A * list A :=
  match l with
  | [] => ([], [])
  | x :: l' => if p x then ([], l) else let '(a, b) := split_at p l' in (x :: a, b)
  end.

Lemma split_at_app {A} (p : A -> bool) l : fst (split_at p l) ++ snd (split_at p l) = l.
Proof. induction l as [|x l IH]; [done|]. simpl. destruct (p x); [done|].
  destruct (split_at p l). simpl in *. congruence. Qed.

Lemma split_at_before {A} (p : A -> bool) l : Forall (fun x => p x = false) (split_at p l).1.
Proof.
  induction l as [|x l IH]; simpl; [constructor|]. destruct (p x) eqn:E; [constructor|].
  destruct (split_at p l). by constructor.
Qed.

Lemma split_at_head {A} (p : A -> bool) l x : head (split_at p l).2 = Some x -> p x = true.
Proof.
  induction l as [|y l IH]; simpl; [done|]. destruct (p y) eqn:E; [by intros [= <-]|].
  by destruct (split_at p l).
Qed.

Lemma filter_none {A} (P : A -> Prop) `{!forall x, Decision (P x)} (l : list A) :
  (forall x, x ∈ l -> ~ P x) -> filter P l = [].
Proof.
  induction l as [|x l IH]; intros Hl; [done|]. rewrite filter_cons_False by (apply Hl; set_solver).
  apply IH. set_solver.
Qed.

Lemma filter_all {A} (P : A -> Prop) `{!forall x, Decision (P x)} (l : list A) :
  (forall x, x ∈ l -> P x) -> filter P l = l.
Proof.
  induction l as [|x l IH]; intros Hl; [done|]. rewrite filter_cons_True by (apply Hl; set_solver).
  f_equal. apply IH. set_solver.
Qed.

Lemma filter_ext_in {A} (P Q : A -> Prop) `{!forall x, Decision (P x)} `{!forall x, Decision (Q x)}
    (l : list A) :
  (forall x, x ∈ l -> P x <-> Q x) -> filter P l = filter Q l.
Proof.
  induction l as [|x l IH]; intros Hl; [done|]. rewrite !filter_cons.
  rewrite IH by set_solver. pose proof (Hl x ltac:(set_solver)).
  case_decide; case_decide; tauto.
Qed.

Lemma elem_of_concat {A} (ls : list (list A)) x : x ∈ concat ls <-> exists l, l ∈ ls /\ x ∈ l.
Proof.
  rewrite list_elem_of_In, in_concat.
  split; intros (l & H1 & H2); exists l; by rewrite !list_elem_of_In in *.
Qed.

Lemma last_cons_default {A} (x y : A) l : default x (last (y :: l)) = default y (last l).
Proof.
  destruct l as [|z l]; [done|]. change (last (y :: z :: l)) with (last (z :: l)).
  destruct (last (z :: l)) eqn:E; [done|]. by apply last_None in E.
Qed.

Lemma Forall_filter {A} (P Q : A -> Prop) `{!forall x, Decision (P x)} (l : list A) :
  Forall Q l -> Forall Q (filter P l).
Proof.
  rewrite !Forall_forall. intros Hl x [_ Hx]%list_elem_of_filter. auto.
Qed.
