(* ===== verification/CString.v ===== *)
(** * C strings

    A C string is the list of its characters before the terminating NUL; the
    functions below model what the source uses of <string.h> and <ctype.h>. *)

From S2P Require Import Prelude.
From Stdlib Require Export Ascii.

Abbreviation cstring := (list ascii).

(** String literals of the C source. *)
Definition str (s : string) : cstring := String.list_ascii_of_string s.

Definition NUL : ascii := Ascii.zero.
Definition QUOTE : ascii := "034"%char.
Definition SQUOTE : ascii := "039"%char.
Definition BACKSLASH : ascii := "\"%char.
Definition NEWLINE : ascii := "010"%char.

(** [*s] for a pointer into a string: the NUL at its end. *)
Definition hd_char (s : cstring) : ascii := default NUL (head s).

(** Characters as [unsigned char] and as the signed [char] of x86-64. *)
Definition uchar (c : ascii) : Z := Z.of_N (N_of_ascii c).
Definition schar (c : ascii) : Z := if uchar c <? 128 then uchar c else uchar c - 256.

Definition strlen (s : cstring) : Z := Z.of_nat (length s).

(** [strcmp (s, t) == 0]. *)
Definition streq (s t : cstring) : bool := bool_decide (s = t).

(** [strncmp (s, t, n) == 0]: the first [n] characters agree, or both strings
    end together before that. *)
Definition strneq (s t : cstring) (n : nat) : bool := bool_decide (take n s = take n t).

(** [strchr]: the rest of the string from the first occurrence of [c]. *)
Fixpoint strchr (s : cstring) (c : ascii) : option cstring :=
  match s with
  | [] => None
  | x :: s' => if decide (x = c) then Some s else strchr s' c
  end.

(** [strrchr]: the rest of the string from the last occurrence of [c]. *)
Fixpoint strrchr (s : cstring) (c : ascii) : option cstring :=
  match s with
  | [] => None
  | x :: s' =>
      match strrchr s' c with
      | Some t => Some t
      | None => if decide (x = c) then Some s else None
      end
  end.

(** The string up to, and not including, the first occurrence of [c]. *)
Fixpoint before (s : cstring) (c : ascii) : cstring :=
  match s with
  | [] => []
  | x :: s' => if decide (x = c) then [] else x :: before s' c
  end.

(** [strstr]: the rest of the string from the first occurrence of [t], with the
    characters skipped before it. *)
Fixpoint strstr (s t : cstring) : option (cstring * cstring) :=
  if strneq s t (length t) then Some ([], s)
  else match s with
       | [] => None
       | x :: s' =>
           match strstr s' t with
           | Some (pre, r) => Some (x :: pre, r)
           | None => None
           end
       end.

Definition isalpha (c : ascii) : bool :=
  ((65 <=? uchar c) && (uchar c <=? 90)) || ((97 <=? uchar c) && (uchar c <=? 122)).
Definition isspace (c : ascii) : bool :=
  bool_decide (uchar c = 32) || ((9 <=? uchar c) && (uchar c <=? 13)).
Definition isblank (c : ascii) : bool :=
  bool_decide (uchar c = 32) || bool_decide (uchar c = 9).
Definition isdigit (c : ascii) : bool := (48 <=? uchar c) && (uchar c <=? 57).

Notation "a =a b" := (bool_decide (@eq ascii a%char b%char)) (at level 70).

(** [strcasecmp (s, t) == 0] for ASCII. *)
Definition tolower (c : ascii) : ascii :=
  if (65 <=? uchar c) && (uchar c <=? 90) then ascii_of_N (Z.to_N (uchar c + 32)) else c.

Definition strcaseeq (s t : cstring) : bool := bool_decide (tolower <$> s = tolower <$> t).

(** [atol] and [atoi]: the digits behind blanks and a sign, at the width of a
    [long] and cut to an [int]. *)
Fixpoint digits (s : cstring) (acc : Z) : Z :=
  match s with
  | c :: s' => if isdigit c then digits s' (10 * acc + (uchar c - 48)) else acc
  | [] => acc
  end.

Fixpoint skip_isspace (s : cstring) : cstring :=
  match s with
  | c :: s' => if isspace c then skip_isspace s' else s
  | [] => []
  end.

Definition atol (s : cstring) : Z :=
  let s := skip_isspace s in
  let clamp x := Z.max (- 2 ^ 63) (Z.min (2 ^ 63 - 1) x) in
  let v := match s with
           | c :: s' => if c =a "-" then - digits s' 0 else if c =a "+" then digits s' 0 else digits s 0
           | [] => 0
           end in
  clamp v.

Definition atoi (s : cstring) : Z := (atol s + 2 ^ 31) mod 2 ^ 32 - 2 ^ 31.

(** The string at a position of a buffer. *)
Definition cstr_at (buf : list ascii) (i : nat) : cstring := before (drop i buf) NUL.

(** The position of the first character that satisfies a test. *)
Fixpoint find_pos (p : ascii -> bool) (s : cstring) : option nat :=
  match s with
  | [] => None
  | c :: s' => if p c then Some O else S <$> find_pos p s'
  end.

(** ** Facts *)

Lemma strlen_nonneg s : 0 <= strlen s.
Proof. unfold strlen. lia. Qed.

Lemma strlen_app s t : strlen (s ++ t) = strlen s + strlen t.
Proof. unfold strlen. rewrite length_app. lia. Qed.

Lemma streq_true s t : streq s t = true <-> s = t.
Proof. apply bool_decide_eq_true. Qed.

Lemma streq_false s t : streq s t = false <-> s <> t.
Proof. apply bool_decide_eq_false. Qed.

Lemma streq_refl s : streq s s = true.
Proof. by apply streq_true. Qed.

Lemma streq_spec s t : reflect (s = t) (streq s t).
Proof. apply bool_decide_reflect. Qed.

Lemma strneq_true s t n : strneq s t n = true <-> take n s = take n t.
Proof. apply bool_decide_eq_true. Qed.

Lemma strchr_Some s c t :
  strchr s c = Some t -> exists p, s = p ++ t /\ c ∉ p /\ head t = Some c.
Proof.
  induction s as [|x s IH] in t |- *; simpl; [done|].
  destruct (decide (x = c)) as [->|Hne]; intros H.
  - simplify_eq. exists []. set_solver.
  - destruct (IH _ H) as (p & -> & Hp & Ht). exists (x :: p). set_solver.
Qed.

Lemma strchr_None s c : strchr s c = None <-> c ∉ s.
Proof.
  induction s as [|x s IH]; simpl; [set_solver|].
  destruct (decide (x = c)) as [->|Hne]; [set_solver|]. rewrite IH. set_solver.
Qed.

Lemma strrchr_Some s c t :
  strrchr s c = Some t -> exists p, s = p ++ t /\ head t = Some c /\ c ∉ tail t.
Proof.
  induction s as [|x s IH] in t |- *; simpl; [done|].
  destruct (strrchr s c) as [t'|] eqn:E; intros H; simplify_eq.
  - destruct (IH _ eq_refl) as (p & -> & ? & ?). by exists (x :: p).
  - destruct (decide (x = c)) as [->|]; simplify_eq. exists []. repeat split; try done.
    simpl. clear IH. induction s as [|y s IH]; [set_solver|]. simpl in E.
    destruct (strrchr s c); [done|]. destruct (decide (y = c)); [done|].
    specialize (IH eq_refl). set_solver.
Qed.

Lemma before_app s c t : c ∉ s -> before (s ++ c :: t) c = s.
Proof.
  induction s as [|x s IH]; simpl; intros H.
  - by destruct (decide (c = c)).
  - destruct (decide (x = c)); [set_solver|]. rewrite IH; [done|set_solver].
Qed.

Lemma before_notin s c : c ∉ before s c.
Proof.
  induction s as [|x s IH]; simpl; [set_solver|].
  destruct (decide (x = c)); set_solver.
Qed.

Lemma strstr_Some s t pre r :
  strstr s t = Some (pre, r) -> s = pre ++ r /\ take (length t) r = t.
Proof.
  induction s as [|x s IH] in pre, r |- *; simpl;
    destruct (strneq _ t (length t)) eqn:E; intros H; simplify_eq;
    try (apply strneq_true in E; rewrite E, take_ge by done; done).
  destruct (strstr s t) as [[pre' r']|] eqn:E2; simplify_eq.
  destruct (IH _ _ eq_refl) as [-> ?]. done.
Qed.

#[export] Hint Resolve strlen_nonneg streq_refl : autofs.
#[export] Hint Rewrite strlen_app : autofs_rw.

(** *** Strings in a buffer *)

Lemma before_lookup s c i x : before s c !! i = Some x -> s !! i = Some x.
Proof.
  revert i. induction s as [|y s IH]; intros i; simpl; [done|]. destruct (decide (y = c)); [done|].
  destruct i; simpl; [done|]. apply IH.
Qed.

Lemma before_length s c i : s !! i = Some c -> (length (before s c) <= i)%nat.
Proof.
  revert i. induction s as [|y s IH]; intros i; simpl; [done|]. destruct (decide (y = c)); simpl; [lia|].
  destruct i; simpl; [congruence|]. intros H%IH. lia.
Qed.

Lemma cstr_lookup buf p i c : cstr_at buf p !! i = Some c -> buf !! (p + i)%nat = Some c.
Proof. unfold cstr_at. intros H%before_lookup. by rewrite lookup_drop in H. Qed.

Lemma find_pos_Some P s d : find_pos P s = Some d -> exists c, s !! d = Some c /\ P c = true.
Proof.
  revert d. induction s as [|x s IH]; intros d; simpl; [done|]. destruct (P x) eqn:E.
  - intros [= <-]. by exists x.
  - destruct (find_pos P s) as [d'|]; simpl; [|done]. intros [= <-]. by apply IH.
Qed.

Lemma cstr_middle a b c : NUL ∉ b -> cstr_at (a ++ b ++ NUL :: c) (length a) = b.
Proof. intros H. unfold cstr_at. rewrite drop_app_length. by apply before_app. Qed.

Lemma find_pos_app P s c t :
  Forall (fun x => P x = false) s -> P c = true -> find_pos P (s ++ c :: t) = Some (length s).
Proof.
  induction s as [|x s IH]; intros Hs Hc; simpl; [by rewrite Hc|]. inversion Hs as [|? ? Hx Hs']; subst.
  rewrite Hx. by rewrite IH.
Qed.
