(* ===== verification/Hash.v ===== *)
(** * The hash functions of include/hash.h

    [hash] is the string hash of the map entry cache, the selector table and
    the configuration table; [hash_32] and [hash_64] are the multiplicative
    hashes of the mount tables. All arithmetic is modulo [2 ^ 32]
    ([u_int32_t]) or [2 ^ 64] ([uint64_t]). *)

From S2P Require Import Prelude CString.

(** One round of the loop of [hash]. *)
Definition hash_round (hashval : Z) (c : ascii) : Z :=
  let hashval := u32 (hashval + uchar c) in
  let hashval := u32 (hashval + u32 (Z.shiftl hashval 10)) in
  Z.lxor hashval (Z.shiftr hashval 6).

(** The loop of [hash]. *)
Definition hash_loop (hashval : Z) (key : cstring) : Z := foldl hash_round hashval key.

(** The final mixing of [hash], before the reduction modulo the table size. *)
Definition hash_final (hashval : Z) : Z :=
  let hashval := u32 (hashval + u32 (Z.shiftl hashval 3)) in
  let hashval := Z.lxor hashval (Z.shiftr hashval 11) in
  u32 (hashval + u32 (Z.shiftl hashval 15)).

Definition hash (key : cstring) (size : Z) : Z :=
  hash_final (hash_loop 0 key) mod size.

Definition GOLDEN_RATIO_32 : Z := 0x61C88647.
Definition GOLDEN_RATIO_64 : Z := 0x61C8864680B583EB.

Definition __hash_32 (val : Z) : Z := u32 (val * GOLDEN_RATIO_32).
Definition hash_32 (val bits : Z) : Z := Z.shiftr (__hash_32 val) (32 - bits).

(** [hash_64] on a 64-bit machine; its result is a [uint32_t]. *)
Definition hash_64 (val bits : Z) : Z :=
  u32 (Z.shiftr (u64 (val * GOLDEN_RATIO_64)) (64 - bits)).

(** ** Ranges *)

Lemma uchar_range c : 0 <= uchar c < 256.
Proof. unfold uchar. pose proof (N_ascii_bounded c). lia. Qed.

Lemma uchar_inj c d : uchar c = uchar d -> c = d.
Proof.
  unfold uchar. intros H%N2Z.inj.
  by rewrite <- (ascii_N_embedding c), H, ascii_N_embedding.
Qed.

Lemma u32_testbit x n : 0 <= x < 2 ^ 32 -> 32 <= n -> Z.testbit x n = false.
Proof.
  intros Hx Hn. rewrite <- (Z.mod_small x (2 ^ 32)) by lia.
  rewrite Z.mod_pow2_bits_high; lia.
Qed.

Lemma xorshift_range h k : 0 <= k -> 0 <= h < 2 ^ 32 -> 0 <= Z.lxor h (Z.shiftr h k) < 2 ^ 32.
Proof.
  intros Hk Hh.
  assert (0 <= Z.lxor h (Z.shiftr h k)) as Hnn.
  { apply Z.lxor_nonneg. pose proof (Z.shiftr_nonneg h k). lia. }
  split; [done|].
  destruct (Z.eq_dec (Z.lxor h (Z.shiftr h k)) 0) as [->|Hne]; [lia|].
  apply Z.log2_lt_pow2; [lia|].
  pose proof (Z.log2_lxor h (Z.shiftr h k)) as Hl.
  pose proof (Z.shiftr_nonneg h k) as [_ Hs].
  assert (0 <= Z.shiftr h k <= h) as Hle.
  { split; [by apply Hs; lia|]. rewrite Z.shiftr_div_pow2 by done.
    apply Z.div_le_upper_bound; [lia|]. pose proof (Z.pow_pos_nonneg 2 k). nia. }
  assert (Z.log2 h < 32) by (destruct (Z.eq_dec h 0) as [->|]; [simpl; lia|];
    apply Z.log2_lt_pow2; lia).
  pose proof (Z.log2_le_mono (Z.shiftr h k) h). lia.
Qed.

Lemma hash_round_range h c : 0 <= hash_round h c < 2 ^ 32.
Proof. unfold hash_round. apply xorshift_range; auto with autofs. lia. Qed.

Lemma hash_loop_range h s : 0 <= h < 2 ^ 32 -> 0 <= hash_loop h s < 2 ^ 32.
Proof.
  unfold hash_loop. revert h. induction s as [|c s IH]; simpl; intros h Hh; [done|].
  apply IH, hash_round_range.
Qed.

Lemma hash_final_range h : 0 <= hash_final h < 2 ^ 32.
Proof. apply u32_range. Qed.

Lemma hash_range key size : 0 < size -> 0 <= hash key size < size.
Proof. intros. by apply Z.mod_pos_bound. Qed.

#[export] Hint Resolve hash_range hash_round_range hash_loop_range hash_final_range : autofs.

(** ** Every mixing step is invertible *)

(** Adding a left shift is multiplying by an odd constant, invertible modulo
    [2 ^ 32]: [inv] is the inverse. *)
Lemma addshift_inj k inv x y :
  0 <= k -> ((1 + 2 ^ k) * inv) mod 2 ^ 32 = 1 ->
  0 <= x < 2 ^ 32 -> 0 <= y < 2 ^ 32 ->
  u32 (x + u32 (Z.shiftl x k)) = u32 (y + u32 (Z.shiftl y k)) -> x = y.
Proof.
  intros Hk Hinv Hx Hy. unfold u32. rewrite !Zplus_mod_idemp_r, !Z.shiftl_mul_pow2 by done.
  replace (x + x * 2 ^ k) with (x * (1 + 2 ^ k)) by ring.
  replace (y + y * 2 ^ k) with (y * (1 + 2 ^ k)) by ring.
  intros Heq. rewrite <- (Z.mod_small x (2 ^ 32)), <- (Z.mod_small y (2 ^ 32)) by lia.
  assert (forall z, z mod 2 ^ 32 = ((z * (1 + 2 ^ k)) mod 2 ^ 32 * inv) mod 2 ^ 32) as Hz.
  { intros z. rewrite Zmult_mod_idemp_l, <- Z.mul_assoc, <- Zmult_mod_idemp_r, Hinv.
    f_equal. ring. }
  rewrite (Hz x), (Hz y), Heq. done.
Qed.

(** A xor with a right shift is invertible. *)
Lemma xorshift_inj k x y :
  0 < k -> 0 <= x -> 0 <= y ->
  Z.lxor x (Z.shiftr x k) = Z.lxor y (Z.shiftr y k) -> x = y.
Proof.
  intros Hk Hx Hy Heq. apply Z.lxor_eq.
  set (z := Z.lxor x y). assert (0 <= z) as Hz by (apply Z.lxor_nonneg; lia).
  assert (z = Z.shiftr z k) as Hfix.
  { unfold z. rewrite Z.shiftr_lxor. apply Z.lxor_eq.
    transitivity (Z.lxor (Z.lxor x (Z.shiftr x k)) (Z.lxor y (Z.shiftr y k))).
    - apply Z.bits_inj'. intros n Hn. rewrite !Z.lxor_spec.
      destruct (Z.testbit x n), (Z.testbit y n), (Z.testbit (Z.shiftr x k) n),
        (Z.testbit (Z.shiftr y k) n); done.
    - rewrite Heq. apply Z.lxor_nilpotent. }
  rewrite Z.shiftr_div_pow2 in Hfix by lia.
  destruct (Z.eq_dec z 0) as [|Hne]; [done|].
  assert (z / 2 ^ k < z) by (apply Z.div_lt; [lia|]; apply Z.pow_gt_1; lia). lia.
Qed.

Lemma hash_round_inj_state c x y :
  0 <= x < 2 ^ 32 -> 0 <= y < 2 ^ 32 -> hash_round x c = hash_round y c -> x = y.
Proof.
  intros Hx Hy. unfold hash_round. intros H%xorshift_inj; [|lia|apply u32_range..].
  apply (addshift_inj 10 3222273025) in H; [|done|done|apply u32_range..].
  unfold u32 in H. pose proof (uchar_range c).
  assert ((x - y) mod 2 ^ 32 = 0) as Hd.
  { replace (x - y) with (x + uchar c - (y + uchar c)) by ring.
    by rewrite Zminus_mod, H, Z.sub_diag. }
  apply Z.mod_divide in Hd as [q Hq]; [|lia]. nia.
Qed.

Lemma hash_round_inj_char h c d :
  0 <= h < 2 ^ 32 -> hash_round h c = hash_round h d -> c = d.
Proof.
  intros Hh. unfold hash_round. intros H%xorshift_inj; [|lia|apply u32_range..].
  apply (addshift_inj 10 3222273025) in H; [|done|done|apply u32_range..].
  apply uchar_inj. unfold u32 in H.
  pose proof (uchar_range c). pose proof (uchar_range d).
  assert ((uchar c - uchar d) mod 2 ^ 32 = 0) as Hd.
  { replace (uchar c - uchar d) with (h + uchar c - (h + uchar d)) by ring.
    by rewrite Zminus_mod, H, Z.sub_diag. }
  apply Z.mod_divide in Hd as [q Hq]; [|lia]. nia.
Qed.

Lemma hash_loop_inj s x y :
  0 <= x < 2 ^ 32 -> 0 <= y < 2 ^ 32 -> hash_loop x s = hash_loop y s -> x = y.
Proof.
  unfold hash_loop. revert x y. induction s as [|c s IH]; simpl; intros x y Hx Hy H; [done|].
  apply IH in H; auto with autofs. by eapply hash_round_inj_state.
Qed.

Lemma hash_final_inj x y :
  0 <= x < 2 ^ 32 -> 0 <= y < 2 ^ 32 -> hash_final x = hash_final y -> x = y.
Proof.
  intros Hx Hy. unfold hash_final.
  intros H%(addshift_inj 15 1073709057); [|done|done|apply xorshift_range; auto with autofs; lia..].
  apply xorshift_inj in H; [|lia|apply u32_range..].
  by apply (addshift_inj 3 954437177) in H.
Qed.

Lemma shiftr_bound x n k : 0 <= k <= n -> 0 <= x < 2 ^ n -> 0 <= Z.shiftr x (n - k) < 2 ^ k.
Proof.
  intros Hk Hx. rewrite Z.shiftr_div_pow2 by lia.
  assert (2 ^ n = 2 ^ (n - k) * 2 ^ k) as Hp by (rewrite <- Z.pow_add_r by lia; f_equal; lia).
  pose proof (Z.pow_pos_nonneg 2 (n - k)). split; [apply Z.div_pos; lia|]. apply Z.div_lt_upper_bound; lia.
Qed.

Lemma hash_loop_app h s t : hash_loop h (s ++ t) = hash_loop (hash_loop h s) t.
Proof. apply foldl_app. Qed.

(** The hash of a string is a valid index of a table of the given size, the
    multiplicative hashes fit the number of bits asked for, and two strings that
    differ in one character never have the same hash before it is reduced to the
    size of the table. *)
Theorem hash_spec p c d s size val bits :
  0 < size -> 0 <= bits <= 32 -> c <> d ->
  0 <= hash (p ++ c :: s) size < size /\
  0 <= hash_32 val bits < 2 ^ bits /\ 0 <= hash_64 val bits < 2 ^ bits /\
  hash_final (hash_loop 0 (p ++ c :: s)) <> hash_final (hash_loop 0 (p ++ d :: s)).
Proof.
  intros Hsize Hbits Hne. pose proof (shiftr_bound (u64 (val * GOLDEN_RATIO_64)) 64 bits) as H64.
  pose proof (u64_range (val * GOLDEN_RATIO_64)).
  assert (2 ^ bits <= 2 ^ 32) by (apply Z.pow_le_mono_r; lia).
  split_and!; try (by apply hash_range).
  1,2: apply (shiftr_bound _ 32 bits); [lia|apply u32_range].
  1,2: unfold hash_64; rewrite u32_small by lia; apply H64; lia.
  assert (forall t, 0 <= hash_loop 0 t < 2 ^ 32) as Hr by (intros t; apply hash_loop_range; lia).
  intros Heq. apply hash_final_inj in Heq; [|apply Hr..]. rewrite !hash_loop_app in Heq.
  apply (hash_loop_inj s (hash_round (hash_loop 0 p) c) (hash_round (hash_loop 0 p) d)) in Heq;
    [|apply hash_round_range..].
  by apply hash_round_inj_char in Heq.
Qed.

Lemma hash_spec_witness :
  hash_final (hash_loop 0 (str "auto.home")) <> hash_final (hash_loop 0 (str "auto.hoMe")).
Proof.
  apply (hash_spec (str "auto.ho") "m"%char "M"%char (str "e") 1024 0 8); [lia|lia|done].
Defined.
