(* ===== verification/Memory.v ===== *)
(** * A store of objects, and linked lists in it

    Components whose structures are allocated one by one and linked by pointers
    keep them in a store indexed by address. The class [HasHeap] says where a
    state keeps the store of a type of objects, the class [Node] which field of
    an object is its link to the next one; the operations and the lemmas on lists
    of objects are for any instance. *)

From S2P Require Import Prelude.

Abbreviation ptr := (option positive).

(** ** The operations *)

Class HasHeap (S A : Type) := {
  heap : S -> gmap positive A;
  put_heap : gmap positive A -> S -> S;
  heap_put : forall h s, heap (put_heap h s) = h;
  put_put : forall h h' s, put_heap h (put_heap h' s) = put_heap h s
}.

Section Operations.
Context {S A : Type} {HH : HasHeap S A}.

(** [*p]; a pointer that does not point to a live object is an error. *)
Definition load (p : positive) : M S A := fun s m =>
  match heap s !! p with
  | Some x => Some (x, s, m)
  | None => None
  end.

(** [p->field = ...]. *)
Definition update (p : positive) (f : A -> A) : M S unit := fun s m =>
  match heap s !! p with
  | Some x => Some ((), put_heap (<[p := f x]> (heap s)) s, m)
  | None => None
  end.

(** The memory that [malloc] has returned: an address not in use. *)
Definition new_obj (x : A) : M S positive := fun s m =>
  let a := fresh (dom (heap s)) in Some (a, put_heap (<[a := x]> (heap s)) s, m).

(** [free]; an object that is not live must not be freed. *)
Definition free_obj (p : positive) : M S unit := fun s m =>
  match heap s !! p with
  | Some _ => Some ((), put_heap (delete p (heap s)) s, m)
  | None => None
  end.

(** No list of live objects is longer than the store. *)
Definition heap_fuel : M S nat := fun s m => Some (size (heap s), s, m).

Lemma load_reads s p x : heap s !! p = Some x -> reads (load p) s x.
Proof. intros H m. unfold load. by rewrite H. Qed.

Lemma bind_load {B} (k : A -> M S B) s m p x :
  heap s !! p = Some x -> (load p ≫= k) s m = k x s m.
Proof. intros H. by apply reads_bind, load_reads. Qed.

Lemma update_run s m p x f :
  heap s !! p = Some x -> update p f s m = Some ((), put_heap (<[p := f x]> (heap s)) s, m).
Proof. intros H. unfold update. by rewrite H. Qed.

Lemma bind_update {B} (k : unit -> M S B) s m p x f :
  heap s !! p = Some x -> (update p f ≫= k) s m = k () (put_heap (<[p := f x]> (heap s)) s) m.
Proof. intros H. by apply bind_some, update_run. Qed.

Lemma bind_new_obj {B} (k : positive -> M S B) s m x :
  (new_obj x ≫= k) s m
  = k (fresh (dom (heap s))) (put_heap (<[fresh (dom (heap s)) := x]> (heap s)) s) m.
Proof. reflexivity. Qed.

Lemma free_obj_run s m p x :
  heap s !! p = Some x -> free_obj p s m = Some ((), put_heap (delete p (heap s)) s, m).
Proof. intros H. unfold free_obj. by rewrite H. Qed.

Lemma bind_free_obj {B} (k : unit -> M S B) s m p x :
  heap s !! p = Some x -> (free_obj p ≫= k) s m = k () (put_heap (delete p (heap s)) s) m.
Proof. intros H. by eapply bind_some, free_obj_run. Qed.

Lemma bind_heap_fuel {B} (k : nat -> M S B) s m :
  (heap_fuel ≫= k) s m = k (size (heap s)) s m.
Proof. reflexivity. Qed.

Lemma heap_fresh s : heap s !! fresh (dom (heap s)) = None.
Proof. apply not_elem_of_dom, is_fresh. Qed.

End Operations.

#[export] Hint Resolve load_reads : autofs.
#[export] Hint Rewrite @heap_put @put_put : autofs_rw.

(** ** Linked lists *)

Class Node (A : Type) := {
  link : A -> ptr;
  set_link : ptr -> A -> A;
  link_set : forall p x, link (set_link p x) = p;
  set_link_same : forall x, set_link (link x) x = x;
  set_link_twice : forall p q x, set_link p (set_link q x) = set_link p x
}.

#[export] Hint Rewrite @link_set @set_link_twice : autofs_rw.

Section Lists.
Context {A : Type} {NA : Node A}.
Implicit Types (h : gmap positive A) (l : list positive) (p q : ptr).

(** The objects from [p] on along the links are [l], and the last of them points
    to [q]. *)
Fixpoint lseg h p l q : Prop :=
  match l with
  | [] => p = q
  | a :: l' => p = Some a /\ exists x, h !! a = Some x /\ lseg h (link x) l' q
  end.

Definition chain h p l : Prop := lseg h p l None.

Lemma lseg_app h p l1 l2 q :
  lseg h p (l1 ++ l2) q <-> exists r, lseg h p l1 r /\ lseg h r l2 q.
Proof.
  induction l1 as [|a l1 IH] in p |- *; simpl.
  - split; [eauto|]. by intros (r & -> & H).
  - split.
    + intros [-> (x & Hx & (r & H1 & H2)%IH)]. eauto 8.
    + intros (r & [-> (x & Hx & H1)] & H2). split; [done|]. exists x. rewrite IH. eauto.
Qed.

Lemma chain_fun h p l l' : chain h p l -> chain h p l' -> l = l'.
Proof.
  unfold chain. induction l as [|a l IH] in p, l' |- *; intros Hl Hl'; simpl in *.
  - subst. destruct l'; [done|]. by destruct Hl' as [? _].
  - destruct Hl as [-> (x & Ha & Hl)]. destruct l' as [|b l']; simpl in *; [done|].
    destruct Hl' as [[= <-] (x' & Ha' & Hl')]. simplify_eq. f_equal. eauto.
Qed.

Lemma chain_NoDup h p l : chain h p l -> NoDup l.
Proof.
  induction l as [|a l IH] in p |- *; intros H; [constructor|].
  destruct H as [-> (x & Ha & Hl)]. constructor; [|by eauto].
  intros (l1 & l2 & ->)%list_elem_of_split.
  assert (chain h (Some a) (a :: l2)) as H2.
  { apply lseg_app in Hl as (r & _ & H2). pose proof H2 as H3. by destruct H2 as [-> _]. }
  assert (chain h (Some a) (a :: l1 ++ a :: l2)) as H1 by (unfold chain in *; simpl; eauto).
  pose proof (chain_fun _ _ _ _ H1 H2) as E%(f_equal length).
  simpl in E. rewrite length_app in E. simpl in E. lia.
Qed.

Lemma lseg_live h p l q a : lseg h p l q -> a ∈ l -> is_Some (h !! a).
Proof.
  induction l as [|b l IH] in p |- *; intros H Ha; [set_solver|].
  destruct H as [_ (x & Hb & Hl)]. apply elem_of_cons in Ha as [->|Ha]; eauto.
Qed.

Lemma chain_length h p l : chain h p l -> (length l <= size h)%nat.
Proof.
  intros H. pose proof (chain_NoDup _ _ _ H) as Hnd.
  rewrite <- (size_list_to_set (C := gset positive) l), <- size_dom by done.
  apply subseteq_size. intros a Ha%elem_of_list_to_set. apply elem_of_dom.
  by eapply lseg_live.
Qed.

(** Only the links of the objects of the list matter. *)
Lemma lseg_ext h h' p l q :
  (forall a, a ∈ l -> link <$> h !! a = link <$> h' !! a) -> lseg h p l q -> lseg h' p l q.
Proof.
  induction l as [|a l IH] in p |- *; intros Hext; simpl; [done|].
  intros [-> (x & Ha & Hl)]. split; [done|].
  specialize (Hext a ltac:(set_solver)) as Hn. rewrite Ha in Hn. simpl in Hn.
  destruct (h' !! a) as [x'|] eqn:Ha'; [|done]. exists x'. split; [done|].
  injection Hn as <-. apply IH; [|done]. intros b Hb. apply Hext. set_solver.
Qed.

Lemma lseg_insert h p l q a x : a ∉ l -> lseg h p l q -> lseg (<[a := x]> h) p l q.
Proof. intros Ha. apply lseg_ext. intros b Hb. rewrite lookup_insert_ne; [done|set_solver]. Qed.

Lemma lseg_delete h p l q a : a ∉ l -> lseg h p l q -> lseg (delete a h) p l q.
Proof. intros Ha. apply lseg_ext. intros b Hb. rewrite lookup_delete_ne; [done|set_solver]. Qed.

Lemma lseg_update h p l q a x x' :
  h !! a = Some x -> link x' = link x -> lseg h p l q -> lseg (<[a := x']> h) p l q.
Proof.
  intros Ha Hn. apply lseg_ext. intros b Hb. destruct (decide (a = b)) as [->|].
  - rewrite lookup_insert_eq, Ha. simpl. by rewrite Hn.
  - by rewrite lookup_insert_ne.
Qed.

Lemma chain_None h l : chain h None l <-> l = [].
Proof. destruct l; [done|]. split; [by intros [? _]|done]. Qed.

(** The last object of a segment points to what follows it; redirecting its link
    replaces what follows. *)
Lemma lseg_redirect h p l a q q' x :
  NoDup (l ++ [a]) -> lseg h p (l ++ [a]) q -> h !! a = Some x ->
  lseg (<[a := set_link q' x]> h) p (l ++ [a]) q'.
Proof.
  intros Hnd H Ha. apply lseg_app in H as (r & Hl & [-> (x' & Hx' & Hq)]).
  apply NoDup_app in Hnd as (_ & Hnotin & _).
  apply lseg_app. exists (Some a). split; [apply lseg_insert; [|done]; set_solver|].
  simpl. split; [done|]. exists (set_link q' x). rewrite lookup_insert_eq. by rewrite link_set.
Qed.

(** Two stores agree but for the links. *)
Definition same_but_links h h' : Prop :=
  forall a, set_link None <$> h !! a = set_link None <$> h' !! a.

#[export] Instance same_but_links_equiv : Equivalence same_but_links.
Proof.
  split; [done|by intros h h' H a|]. intros h1 h2 h3 H12 H23 a. by rewrite H12, H23.
Qed.

Lemma same_but_links_insert h a x p :
  h !! a = Some x -> same_but_links h (<[a := set_link p x]> h).
Proof.
  intros Ha b. destruct (decide (a = b)) as [->|].
  - rewrite lookup_insert_eq, Ha. simpl. by rewrite set_link_twice.
  - by rewrite lookup_insert_ne.
Qed.

Lemma same_but_links_dom h h' : same_but_links h h' -> dom h = dom h'.
Proof.
  intros H. apply set_eq. intros a. rewrite !elem_of_dom. specialize (H a).
  destruct (h !! a), (h' !! a); simplify_eq/=; split; intros [? ?]; eauto; done.
Qed.

Lemma same_but_links_lookup h h' a (x : A) :
  same_but_links h h' -> h !! a = Some x ->
  exists x', h' !! a = Some x' /\ set_link None x' = set_link None x.
Proof.
  intros H Ha. specialize (H a). rewrite Ha in H. simpl in H.
  destruct (h' !! a) as [x'|]; simplify_eq/=. eauto.
Qed.

End Lists.

(** ** Walks *)

Section Walk.
Context {S A : Type} {HH : HasHeap S A} {NA : Node A}.

(** [while (this) { if (stop) break; last = this; this = this->next; }]. *)
Fixpoint seek (fuel : nat) (stop : positive -> A -> bool) (last this : ptr) : M S (ptr * ptr) :=
  match this with
  | None => mret (last, this)
  | Some a =>
      x ← load a;
      if stop a x then mret (last, this)
      else match fuel with
           | O => stuck
           | Datatypes.S fuel => seek fuel stop (Some a) (link x)
           end
  end.

(** The walk in the view: the objects passed over, and the rest. *)
Definition stops (h : gmap positive A) (stop : positive -> A -> bool) (a : positive) : bool :=
  match h !! a with
  | Some x => stop a x
  | None => false
  end.

Lemma seek_reads fuel stop s last p l :
  chain (heap s) p l -> (length l <= fuel)%nat ->
  reads (seek fuel stop last p) s
    (match list.last (split_at (stops (heap s) stop) l).1 with Some a => Some a | None => last end,
     head (split_at (stops (heap s) stop) l).2).
Proof.
  induction l as [|a l IH] in fuel, last, p |- *; intros Hl Hf m.
  - inversion Hl. by destruct fuel.
  - destruct Hl as [-> (x & Ha & Hl)]. destruct fuel as [|fuel]; simpl in Hf; [lia|]. simpl.
    unfold stops at 1 3. rewrite Ha, (bind_load _ _ _ _ x) by done.
    destruct (stop a x); [done|].
    rewrite (IH fuel (Some a) (link x) Hl) by lia.
    destruct (split_at _ l) as [l1 l2]. cbn. destruct l1 as [|b l1]; [done|].
    change (list.last (a :: b :: l1)) with (list.last (b :: l1)).
    destruct (list.last (b :: l1)) eqn:E; [done|]. by apply last_None in E.
Qed.

(** The first stretch of a list up to an object that stops the walk, as a segment. *)
Lemma chain_split (h : gmap positive A) stop p l :
  chain h p l ->
  lseg h p (split_at stop l).1 (head (split_at stop l).2) /\ chain h (head (split_at stop l).2) (split_at stop l).2.
Proof.
  intros H. rewrite <- (split_at_app stop l) in H. apply lseg_app in H as (r & H1 & H2).
  assert (r = head (split_at stop l).2) as ->; [|done].
  destruct (split_at stop l).2; [by inversion H2|by destruct H2 as [-> _]].
Qed.

End Walk.
