(* ===== verification/Cache.v ===== *)
(** * The map entry cache (lib/cache.c)

    [struct mapent] records live in a store [mc_heap] indexed by address; the
    hash table holds the head address of each bucket and the entries of a bucket
    are linked by [me_next], as in the C code. The inode index is an array of
    doubly linked lists, held here as lists of addresses. Operations are
    computations of the monad [M mapent_cache]: getting stuck is a dangling
    pointer, an out of range bucket or a loop that does not end. *)

From S2P Require Import Prelude CString Hash.

Abbreviation addr := positive.

(** ** Data *)

Definition CHE_FAIL : Z := 0x0.
Definition CHE_OK : Z := 0x1.
Definition CHE_UPDATED : Z := 0x2.
Definition CHE_DUPLICATE : Z := 0x20.
Definition CHE_UNAVAIL : Z := 0x40.

Definition NULL_MAP_HASHSIZE : Z := 64.

Definition LKP_WILD : Z := 0x100.
Definition LKP_NORMAL : Z := 0x1000.

(** An element of the stack of saved map entries: its [mapent] and [age]. *)
Record stack := Stack { s_mapent : option cstring; s_age : Z }.

(** [struct mapent]. A pointer to the [tree_node] embedded in an entry is the
    address of that entry; [me_source] identifies the [struct map_source]. *)
Record mapent := Mapent {
  me_next : option addr;
  me_source : addr;
  me_mm_root : option addr;
  me_mm_parent : option addr;
  me_key : cstring;
  me_len : Z;
  me_mapent : option cstring;
  me_stack : list stack;
  me_age : Z;
  me_status : Z;
  me_flags : Z;
  me_ioctlfd : Z;
  me_dev : Z;
  me_ino : Z
}.

Definition set_next (me : mapent) (n : option addr) : mapent :=
  Mapent n (me_source me) (me_mm_root me) (me_mm_parent me) (me_key me) (me_len me)
    (me_mapent me) (me_stack me) (me_age me) (me_status me) (me_flags me) (me_ioctlfd me)
    (me_dev me) (me_ino me).

Definition set_mapent (me : mapent) (e : option cstring) : mapent :=
  Mapent (me_next me) (me_source me) (me_mm_root me) (me_mm_parent me) (me_key me) (me_len me)
    e (me_stack me) (me_age me) (me_status me) (me_flags me) (me_ioctlfd me)
    (me_dev me) (me_ino me).

Definition set_stack (me : mapent) (s : list stack) : mapent :=
  Mapent (me_next me) (me_source me) (me_mm_root me) (me_mm_parent me) (me_key me) (me_len me)
    (me_mapent me) s (me_age me) (me_status me) (me_flags me) (me_ioctlfd me)
    (me_dev me) (me_ino me).

Definition set_age (me : mapent) (t : Z) : mapent :=
  Mapent (me_next me) (me_source me) (me_mm_root me) (me_mm_parent me) (me_key me) (me_len me)
    (me_mapent me) (me_stack me) t (me_status me) (me_flags me) (me_ioctlfd me)
    (me_dev me) (me_ino me).

Definition set_status (me : mapent) (t : Z) : mapent :=
  Mapent (me_next me) (me_source me) (me_mm_root me) (me_mm_parent me) (me_key me) (me_len me)
    (me_mapent me) (me_stack me) (me_age me) t (me_flags me) (me_ioctlfd me)
    (me_dev me) (me_ino me).

Definition set_ioctlfd (me : mapent) (fd : Z) : mapent :=
  Mapent (me_next me) (me_source me) (me_mm_root me) (me_mm_parent me) (me_key me) (me_len me)
    (me_mapent me) (me_stack me) (me_age me) (me_status me) (me_flags me) fd
    (me_dev me) (me_ino me).

(** [IS_MM] and [IS_MM_ROOT]; the latter needs the address of the entry. *)
Definition IS_MM (me : mapent) : bool := bool_decide (is_Some (me_mm_root me)).
Definition IS_MM_ROOT (a : addr) (me : mapent) : bool := bool_decide (me_mm_root me = Some a).

(** [struct mapent_cache]. *)
Record mapent_cache := MC {
  mc_size : Z;
  mc_hash : list (option addr);
  mc_ino_index : list (list addr);
  mc_heap : gmap addr mapent
}.

Definition with_heap (h : gmap addr mapent) (mc : mapent_cache) : mapent_cache :=
  MC (mc_size mc) (mc_hash mc) (mc_ino_index mc) h.
Definition with_hash (t : list (option addr)) (mc : mapent_cache) : mapent_cache :=
  MC (mc_size mc) t (mc_ino_index mc) (mc_heap mc).
Definition with_ino (t : list (list addr)) (mc : mapent_cache) : mapent_cache :=
  MC (mc_size mc) (mc_hash mc) t (mc_heap mc).

(** ** Memory accesses *)

Abbreviation CM := (M mapent_cache).

Definition deref (p : addr) : CM mapent := fun mc m =>
  match mc_heap mc !! p with
  | Some me => Some (me, mc, m)
  | None => None
  end.

Definition store (p : addr) (f : mapent -> mapent) : CM unit := fun mc m =>
  match mc_heap mc !! p with
  | Some me => Some ((), with_heap (<[p := f me]> (mc_heap mc)) mc, m)
  | None => None
  end.

(** [mc->hash[i]], stuck out of range. *)
Definition bucket (i : Z) : CM (option addr) := fun mc m =>
  match mc_hash mc !! Z.to_nat i with
  | Some p => Some (p, mc, m)
  | None => None
  end.

Definition set_bucket (i : Z) (p : option addr) : CM unit :=
  modify (fun mc => with_hash (<[Z.to_nat i := p]> (mc_hash mc)) mc).

(** The memory of a new entry: an address not in use. *)
Definition new_entry (me : mapent) : CM addr := fun mc m =>
  let a := fresh (dom (mc_heap mc)) in
  Some (a, with_heap (<[a := me]> (mc_heap mc)) mc, m).

Definition free_entry (a : addr) : CM unit :=
  modify (fun mc => with_heap (delete a (mc_heap mc)) mc).

(** [list_del] and [list_del_init] of an entry's [ino_index] link: it leaves
    the list it is on, if any. *)
Definition ino_list_del (a : addr) : CM unit :=
  modify (fun mc => with_ino (filter (fun b => b <> a) <$> mc_ino_index mc) mc).

(** The length bound of a walk along [me_next]: no list of live entries is
    longer than the store. *)
Definition chain_fuel : CM nat := fun mc m => Some (S (size (mc_heap mc)), mc, m).

(** Walk a bucket from [p] until the test holds of an entry. *)
Fixpoint find_chain (fuel : nat) (test : addr -> mapent -> bool) (p : option addr) :
  CM (option addr) :=
  match p with
  | None => mret None
  | Some a =>
      match fuel with
      | O => stuck
      | S fuel' =>
          me ← deref a;
          if test a me then mret (Some a) else find_chain fuel' test (me_next me)
      end
  end.

(** ** Saved map entries *)

Definition cache_push_mapent (a : addr) (mapent : option cstring) : CM Z :=
  me ← deref a;
  match me_mapent me with
  | None => mret CHE_FAIL
  | Some old =>
      ok ← (match mapent with None => mret true | Some _ => malloc end);
      if negb ok then mret CHE_FAIL
      else
        ok ← malloc;
        if negb ok then mret CHE_FAIL
        else
          store a (fun me =>
            set_stack (set_mapent me mapent) (Stack (Some old) (me_age me) :: me_stack me));;
          mret CHE_OK
  end.

Definition cache_pop_mapent (a : addr) : CM Z :=
  me ← deref a;
  match me_stack me with
  | Stack (Some mapent) age :: rest =>
      store a (fun me => set_stack me rest);;
      if age <? me_age me then mret CHE_OK
      else store a (fun me => set_mapent me (Some mapent));; mret CHE_OK
  | _ => mret CHE_FAIL
  end.

(** ** Creation and release *)

(** The allocation of a cache of a given size, common to [cache_init] and
    [cache_init_null_cache]: [None] when one of the three allocations fails. *)
Definition cache_alloc (size : Z) (m : alloc) : option mapent_cache * alloc :=
  let take_one (m : alloc) := match m with [] => (true, []) | b :: m' => (b, m') end in
  let '(b, m) := take_one m in
  if negb b then (None, m)
  else let '(b, m) := take_one m in
  if negb b then (None, m)
  else let '(b, m) := take_one m in
  if negb b then (None, m)
  else (Some (MC size (replicate (Z.to_nat size) None) (replicate (Z.to_nat size) []) ∅), m).

Definition cache_init_null_cache (m : alloc) : option mapent_cache * alloc :=
  cache_alloc NULL_MAP_HASHSIZE m.

(** Free the entries of a bucket: the pointer to the next entry is read before
    the entry is freed. *)
Fixpoint free_chain (fuel : nat) (p : option addr) : CM unit :=
  match p with
  | None => mret ()
  | Some a =>
      match fuel with
      | O => stuck
      | S fuel' => me ← deref a; free_entry a;; free_chain fuel' (me_next me)
      end
  end.

(** The loop over the buckets of [cache_clean_null_cache]. *)
Fixpoint clean_buckets (n : nat) (i : Z) : CM unit :=
  match n with
  | O => mret ()
  | S n' =>
      p ← bucket i;
      fuel ← chain_fuel;
      match p with
      | None => clean_buckets n' (i + 1)
      | Some _ => free_chain fuel p;; set_bucket i None;; clean_buckets n' (i + 1)
      end
  end.

Definition cache_clean_null_cache : CM unit :=
  mc ← get_state; clean_buckets (Z.to_nat (mc_size mc)) 0.

(** The loop over the buckets of [cache_release]: the table itself is freed
    after it, so the bucket heads are left as they are. *)
Fixpoint release_buckets (n : nat) (i : Z) : CM unit :=
  match n with
  | O => mret ()
  | S n' =>
      p ← bucket i;
      fuel ← chain_fuel;
      free_chain fuel p;;
      release_buckets n' (i + 1)
  end.

(** [cache_release] and [cache_release_null_cache] up to the freeing of the
    table: the store that remains holds what was not freed. *)
Definition cache_release : CM (gmap addr mapent) :=
  mc ← get_state;
  release_buckets (Z.to_nat (mc_size mc)) 0;;
  mc ← get_state;
  mret (mc_heap mc).

(** [cache_init]: a cache the map source already has is released first. [size]
    is the configured hash table size. *)
Definition cache_init (map_mc : option mapent_cache) (size : Z) (m : alloc) :
  option (option mapent_cache * alloc) :=
  match map_mc with
  | Some old =>
      match cache_release old m with
      | Some (_, _, m) => Some (cache_alloc size m)
      | None => None
      end
  | None => Some (cache_alloc size m)
  end.

(** ** The inode index *)

Definition ino_hash (dev ino size : Z) : Z := u32 (dev + ino) mod size.

Definition cache_set_ino_index (a : addr) : CM Z :=
  me ← deref a;
  mc ← get_state;
  let ino_index := ino_hash (me_dev me) (me_ino me) (mc_size mc) in
  ino_list_del a;;
  modify (fun mc => with_ino (alter (cons a) (Z.to_nat ino_index) (mc_ino_index mc)) mc);;
  mret 1.

(** The walk over one list of the inode index. *)
Fixpoint find_ino (l : list addr) (dev ino : Z) : CM (option addr) :=
  match l with
  | [] => mret None
  | a :: l' =>
      me ← deref a;
      if negb (me_dev me =? dev) || negb (me_ino me =? ino) then find_ino l' dev ino
      else mret (Some a)
  end.

Definition cache_lookup_ino (dev ino : Z) : CM (option addr) :=
  mc ← get_state;
  l ← from_option_M (mc_ino_index mc !! Z.to_nat (ino_hash dev ino (mc_size mc)));
  find_ino l dev ino.

(** ** Lookup *)

(** Multi mount entries are not primary, their root is. *)
Definition primary (a : addr) (me : mapent) : bool := negb (IS_MM me && negb (IS_MM_ROOT a me)).

(** The first entry that satisfies a test in the [n] buckets from [i] on. *)
Fixpoint find_buckets (n : nat) (i : Z) (test : addr -> mapent -> bool) : CM (option addr) :=
  match n with
  | O => mret None
  | S n' =>
      p ← bucket i;
      fuel ← chain_fuel;
      r ← find_chain fuel test p;
      match r with
      | Some a => mret (Some a)
      | None => find_buckets n' (i + 1) test
      end
  end.

Definition cache_lookup_first : CM (option addr) :=
  mc ← get_state; find_buckets (Z.to_nat (mc_size mc)) 0 primary.

Definition cache_lookup_next (me : option addr) : CM (option addr) :=
  match me with
  | None => mret None
  | Some a =>
      me ← deref a;
      fuel ← chain_fuel;
      this ← find_chain fuel primary (me_next me);
      match this with
      | Some b => mret (Some b)
      | None =>
          mc ← get_state;
          let hashval := u32 (hash (me_key me) (mc_size mc) + 1) in
          if hashval <? mc_size mc
          then find_buckets (Z.to_nat (mc_size mc - hashval)) hashval primary
          else mret None
      end
  end.

(** The loop of [cache_lookup_key_next]: [mm] is the test
    [IS_MM(me) && !IS_MM_ROOT(me)] on the entry [me] the search starts from, and
    its [continue] does not advance [next]. *)
Fixpoint key_next_loop (fuel : nat) (mm : bool) (key : cstring) (next : option addr) :
  CM (option addr) :=
  match next with
  | None => mret None
  | Some a =>
      match fuel with
      | O => stuck
      | S fuel' =>
          if mm then key_next_loop fuel' mm key next
          else
            nme ← deref a;
            if streq key (me_key nme) then mret (Some a)
            else key_next_loop fuel' mm key (me_next nme)
      end
  end.

Definition cache_lookup_key_next (me : option addr) : CM (option addr) :=
  match me with
  | None => mret None
  | Some a =>
      me ← deref a;
      fuel ← chain_fuel;
      key_next_loop fuel (IS_MM me && negb (IS_MM_ROOT a me)) (me_key me) (me_next me)
  end.

(** The test of the walks that look for a key. *)
Definition has_key (key : cstring) (_ : addr) (me : mapent) : bool := streq key (me_key me).

Definition find_key (key : cstring) : CM (option addr) :=
  mc ← get_state;
  p ← bucket (hash key (mc_size mc));
  fuel ← chain_fuel;
  find_chain fuel (has_key key) p.

Definition cache_lookup_distinct (key : option cstring) : CM (option addr) :=
  match key with
  | None => mret None
  | Some key => find_key key
  end.

Definition STAR : cstring := str "*".

Definition cache_lookup (key : option cstring) : CM (option addr) :=
  match key with
  | None => mret None
  | Some key =>
      r ← find_key key;
      match r with
      | Some a => mret (Some a)
      | None =>
          first ← cache_lookup_first;
          match first with
          | None => mret None
          | Some f =>
              me ← deref f;
              if hd_char (me_key me) =a "/" then mret None else find_key STAR
          end
      end
  end.

(** The test of [__cache_partial_match]. *)
Definition partial_test (prefix : cstring) (type : Z) (_ : addr) (me : mapent) : bool :=
  let len := length prefix in
  let key_at i := default NUL (me_key me !! i) in
  if (len <? length (me_key me))%nat && strneq prefix (me_key me) len && (key_at len =a "/")
  then
    if type =? LKP_NORMAL then true
    else (type =? LKP_WILD) && negb (key_at len =a NUL) && (key_at (S len) =a "*")
  else false.

Definition __cache_partial_match (prefix : cstring) (type : Z) : CM (option addr) :=
  mc ← get_state; find_buckets (Z.to_nat (mc_size mc)) 0 (partial_test prefix type).

Definition cache_partial_match (prefix : cstring) : CM (option addr) :=
  __cache_partial_match prefix LKP_NORMAL.

Definition cache_partial_match_wild (prefix : cstring) : CM (option addr) :=
  __cache_partial_match prefix LKP_WILD.

Definition cache_enumerate (me : option addr) : CM (option addr) :=
  match me with
  | None => cache_lookup_first
  | Some a => cache_lookup_next (Some a)
  end.

(** ** Updates *)

(** The entry [cache_add] builds. *)
Definition new_mapent (ms : addr) (key : cstring) (ent : option cstring) (age : Z) : mapent :=
  Mapent None ms None None key (strlen key) ent [] age 0 0 (-1) (2 ^ 64 - 1) (2 ^ 64 - 1).

(** The loop of [cache_add] that finds the last entry of a key. *)
Fixpoint last_of_key (fuel : nat) (existing : addr) : CM addr :=
  match fuel with
  | O => stuck
  | S fuel' =>
      next ← cache_lookup_key_next (Some existing);
      match next with
      | None => mret existing
      | Some n => last_of_key fuel' n
      end
  end.

(** The second part of [cache_add]: link the new entry into its bucket, in front
    for a new key and behind the last entry of a known one. *)
Definition cache_link (me : addr) (hashval : Z) (key : cstring) : CM Z :=
  existing ← cache_lookup_distinct (Some key);
  match existing with
  | None =>
      head ← bucket hashval;
      store me (fun e => set_next e head);;
      set_bucket hashval (Some me);;
      mret CHE_OK
  | Some e =>
      fuel ← chain_fuel;
      last ← last_of_key fuel e;
      store last (fun e => set_next e (Some me));;
      mret CHE_OK
  end.

Definition cache_add (ms : addr) (key : cstring) (mapent : option cstring) (age : Z) : CM Z :=
  mc ← get_state;
  let hashval := hash key (mc_size mc) in
  ok ← malloc;
  if negb ok then mret CHE_FAIL else
  ok ← malloc;
  if negb ok then mret CHE_FAIL else
  ok ← (match mapent with Some _ => malloc | None => mret true end);
  if negb ok then mret CHE_FAIL else
  me ← new_entry (new_mapent ms key mapent age);
  cache_link me hashval key.

(** The loop of [cache_update] over the entries of a key until the one of the
    map source [ms]. *)
Fixpoint find_source (fuel : nat) (ms : addr) (me : option addr) : CM (option addr) :=
  match me with
  | None => mret None
  | Some a =>
      match fuel with
      | O => stuck
      | S fuel' =>
          e ← deref a;
          if bool_decide (me_source e <> ms)
          then n ← cache_lookup_key_next (Some a); find_source fuel' ms n
          else mret (Some a)
      end
  end.

Definition cache_update (ms : addr) (key : cstring) (mapent : option cstring) (age : Z) : CM Z :=
  me ← cache_lookup (Some key);
  fuel ← chain_fuel;
  me ← find_source fuel ms me;
  add ← (match me with
         | None => mret true
         | Some a => e ← deref a; mret (streq (me_key e) STAR && negb (streq key STAR))
         end);
  match me, add : bool with
  | Some a, false =>
      e ← deref a;
      if me_age e =? age then mret CHE_OK
      else
        match mapent with
        | None =>
            store a (fun e => set_age (set_mapent e None) age);;
            mret CHE_OK
        | Some new =>
            if match me_mapent e with None => true | Some old => negb (streq old new) end
            then
              ok ← malloc;
              if negb ok then mret CHE_FAIL
              else store a (fun e => set_age (set_mapent e (Some new)) age);; mret CHE_UPDATED
            else store a (fun e => set_age e age);; mret CHE_OK
        end
  | _, _ =>
      ret ← cache_add ms key mapent age;
      if ret =? 0 then mret CHE_FAIL else mret CHE_UPDATED
  end.

Definition cache_update_offset (mkey key mapent : cstring) (age : Z) : CM Z :=
  owner ← cache_lookup_distinct (Some mkey);
  match owner with
  | None => mret CHE_FAIL
  | Some o =>
      me ← cache_lookup_distinct (Some key);
      dup ← (match me with
             | None => mret false
             | Some a =>
                 e ← deref a;
                 mret ((me_age e =? age) && (bool_decide (a = o) || streq (me_key e) key))
             end);
      match me, dup : bool with
      | Some a, true =>
          ok ← malloc;
          (if (ok : bool) then store a (fun e => set_mapent e (Some mapent)) else mret ());;
          mret CHE_DUPLICATE
      | _, _ =>
          oe ← deref o;
          ret ← cache_update (me_source oe) key (Some mapent) age;
          if ret =? CHE_FAIL then mret CHE_FAIL else mret ret
      end
  end.

(** The walk of [cache_delete] along the bucket behind its first entry: [pred]
    is the entry before. The result is [CHE_FAIL] when a matching multi-mount
    entry stops the walk. *)
Fixpoint delete_walk (fuel : nat) (key : cstring) (me : addr) : CM Z :=
  match fuel with
  | O => stuck
  | S fuel' =>
      pred ← deref me;
      match me_next pred with
      | None => mret CHE_OK
      | Some a =>
          e ← deref a;
          if streq key (me_key e) then
            if IS_MM e then mret CHE_FAIL
            else
              store me (fun p => set_next p (me_next e));;
              ino_list_del a;;
              free_entry a;;
              delete_walk fuel' key me
          else delete_walk fuel' key a
      end
  end.

Definition cache_delete (key : cstring) : CM Z :=
  mc ← get_state;
  let hashval := hash key (mc_size mc) in
  head ← bucket hashval;
  match head with
  | None => mret CHE_OK
  | Some me =>
      fuel ← chain_fuel;
      ret ← delete_walk fuel key me;
      if ret =? CHE_FAIL then mret CHE_FAIL
      else
        e ← deref me;
        if streq key (me_key e) then
          if IS_MM e then mret CHE_FAIL
          else
            set_bucket hashval (me_next e);;
            ino_list_del me;;
            free_entry me;;
            mret CHE_OK
        else mret CHE_OK
  end.

(** ** Negative entries *)

(** [cache_lookup_negative] drops its lock before it takes the write lock:
    [env] is what other threads do to the cache in between. *)
Definition cache_lookup_negative (now : Z) (env : CM unit) (me : addr) (key : cstring) : CM Z :=
  e ← deref me;
  if now <=? me_status e then mret CHE_UNAVAIL
  else
    match me_mapent e with
    | Some _ => mret CHE_OK
    | None =>
        env;;
        sme ← cache_lookup_distinct (Some key);
        match sme with
        | None => mret CHE_OK
        | Some a =>
            se ← deref a;
            match me_mapent se with
            | Some _ => mret CHE_OK
            | None =>
                r ← cache_pop_mapent a;
                (if r =? CHE_FAIL then _ ← cache_delete key; mret () else mret ());;
                mret CHE_OK
            end
        end
    end.

Definition cache_update_negative (now : Z) (ms : addr) (key : cstring) (timeout : Z) : CM unit :=
  if (strlen key =? 1) && (hd_char key =a "*") then mret ()
  else
    me ← cache_lookup_distinct (Some key);
    rv ← (match me with
          | Some a => cache_push_mapent a None
          | None => cache_update ms key None now
          end);
    if rv =? CHE_FAIL then mret ()
    else
      me ← cache_lookup_distinct (Some key);
      match me with
      | Some a => store a (fun e => set_status e (now + timeout))
      | None => mret ()
      end.

(** ** The nesting point of an offset *)

(** The inner loop [while ( *tail != '/') tail--]: the part of the string before
    the last slash; stuck when there is none, as the C code runs off the buffer. *)
Definition cut_last_slash (s : cstring) : option cstring :=
  match strrchr s "/"%char with
  | Some t => Some (take (length s - length t) s)
  | None => None
  end.

Fixpoint offset_parent_loop (fuel : nat) (parent : cstring) : CM (option addr) :=
  match fuel with
  | O => stuck
  | S fuel' =>
      match cut_last_slash parent with
      | None => stuck
      | Some parent' =>
          if (length parent' <=? 1)%nat then mret None
          else
            me ← cache_lookup_distinct (Some parent');
            match me with
            | Some a => mret (Some a)
            | None => offset_parent_loop fuel' parent'
            end
      end
  end.

Definition cache_get_offset_parent (key : cstring) : CM (option addr) :=
  match last key with
  | None => stuck
  | Some c =>
      if c =a "/" then mret None
      else
        ok ← malloc;
        if negb ok then stuck else offset_parent_loop (length key) key
  end.
