(* ===== verification/CacheInv.v ===== *)
(** * The invariant of the map entry cache and the correctness of lookups

    A cache is well formed when every bucket is a finite list of live entries,
    the lists are disjoint and every entry is in the bucket of its key. The
    lists [cs] of the addresses of the buckets are the abstract view of the
    table. Every lookup terminates on a well formed cache, changes nothing, and
    is a search of the flattened view. *)

From S2P Require Import Prelude CString Hash Cache.

(** ** Chains *)

(** The entries from [p] on along [me_next] are [l]. *)
Fixpoint chain (h : gmap addr mapent) (p : option addr) (l : list addr) : Prop :=
  match l with
  | [] => p = None
  | a :: l' => p = Some a /\ exists me, h !! a = Some me /\ chain h (me_next me) l'
  end.

(** ** The abstract view *)

Record wf (mc : mapent_cache) (cs : list (list addr)) : Prop := Wf {
  wf_size : 0 < mc_size mc <= 2 ^ 32 - 1;
  wf_len : length cs = Z.to_nat (mc_size mc);
  wf_ino_len : length (mc_ino_index mc) = Z.to_nat (mc_size mc);
  wf_chains : Forall2 (chain (mc_heap mc)) (mc_hash mc) cs;
  wf_nodup : NoDup (concat cs);
  wf_keys : forall i c a me, cs !! i = Some c -> a ∈ c -> mc_heap mc !! a = Some me ->
              hash (me_key me) (mc_size mc) = Z.of_nat i;
  wf_ino : forall l a, l ∈ mc_ino_index mc -> a ∈ l -> is_Some (mc_heap mc !! a)
}.

(** The test at an address. *)
Definition sat (h : gmap addr mapent) (test : addr -> mapent -> bool) (a : addr) : bool :=
  match h !! a with
  | Some me => test a me
  | None => false
  end.

(** The first address of a list that satisfies the test. *)
Fixpoint ffind (h : gmap addr mapent) (test : addr -> mapent -> bool) (l : list addr) :
  option addr :=
  match l with
  | [] => None
  | a :: l' => if sat h test a then Some a else ffind h test l'
  end.

(** The bucket of a key in the view. *)
Definition key_index (mc : mapent_cache) (key : cstring) : nat :=
  Z.to_nat (hash key (mc_size mc)).

(** The addresses of the entries of a key, in lookup order. *)
Definition entries (mc : mapent_cache) (cs : list (list addr)) (key : cstring) : list addr :=
  filter (fun a => sat (mc_heap mc) (has_key key) a = true) (concat cs).

(** ** Lemmas on chains *)

Lemma cache_chain_fun h p l l' : chain h p l -> chain h p l' -> l = l'.
Proof.
  revert p l'. induction l as [|a l IH]; intros p l' Hl Hl'; simpl in *.
  - subst. destruct l' as [|b l']; [done|]. by destruct Hl' as [? _].
  - destruct Hl as [-> (me & Ha & Hl)]. destruct l' as [|b l']; simpl in *; [done|].
    destruct Hl' as [[= <-] (me' & Ha' & Hl')]. simplify_eq. f_equal. eauto.
Qed.

Lemma chain_drop h p l1 a l2 : chain h p (l1 ++ a :: l2) -> chain h (Some a) (a :: l2).
Proof.
  revert p. induction l1 as [|b l1 IH]; intros p; simpl.
  - by intros [-> H].
  - intros [_ (me & _ & H)]. by eapply IH.
Qed.

Lemma cache_chain_NoDup h p l : chain h p l -> NoDup l.
Proof.
  intros H. revert p H. induction l as [|a l IH]; intros p H; [constructor|].
  destruct H as [-> (me & Ha & Hl)]. constructor; [|by eauto].
  intros (l1 & l2 & ->)%list_elem_of_split.
  assert (chain h (Some a) (a :: l1 ++ a :: l2)) as H1 by (simpl; eauto).
  pose proof (cache_chain_fun _ _ _ _ H1 (chain_drop _ _ _ _ _ Hl)) as E%(f_equal length).
  simpl in E. rewrite length_app in E. simpl in E. lia.
Qed.

Lemma chain_live h p l a : chain h p l -> a ∈ l -> is_Some (h !! a).
Proof.
  revert p. induction l as [|b l IH]; intros p H Ha; [set_solver|].
  destruct H as [_ (me & Hb & Hl)]. apply elem_of_cons in Ha as [->|Ha]; eauto.
Qed.

Lemma cache_chain_length h p l : chain h p l -> (length l <= size h)%nat.
Proof.
  intros H. pose proof (cache_chain_NoDup _ _ _ H) as Hnd.
  rewrite <- (size_list_to_set (C := gset addr) l), <- size_dom by done.
  apply subseteq_size. intros a Ha%elem_of_list_to_set. apply elem_of_dom.
  by eapply chain_live.
Qed.

(** Only the [me_next] fields of the entries of the chain matter. *)
Lemma chain_ext h h' p l :
  (forall a, a ∈ l -> me_next <$> h !! a = me_next <$> h' !! a) -> chain h p l -> chain h' p l.
Proof.
  revert p. induction l as [|a l IH]; intros p Hext; simpl; [done|].
  intros [-> (me & Ha & Hl)]. split; [done|].
  specialize (Hext a ltac:(set_solver)) as Hn. rewrite Ha in Hn. simpl in Hn.
  destruct (h' !! a) as [me'|] eqn:Ha'; [|done]. exists me'. split; [done|].
  injection Hn as <-. apply IH; [|done]. intros b Hb. apply Hext. set_solver.
Qed.

Lemma chain_insert_fresh h p l a me : a ∉ l -> chain h p l -> chain (<[a := me]> h) p l.
Proof.
  intros Ha. apply chain_ext. intros b Hb. rewrite lookup_insert_ne; [done|set_solver].
Qed.

Lemma chain_delete h p l a : a ∉ l -> chain h p l -> chain (delete a h) p l.
Proof.
  intros Ha. apply chain_ext. intros b Hb. rewrite lookup_delete_ne; [done|set_solver].
Qed.

Lemma chain_update h p l a me me' :
  h !! a = Some me -> me_next me' = me_next me -> chain h p l -> chain (<[a := me']> h) p l.
Proof.
  intros Ha Hn. apply chain_ext. intros b Hb. destruct (decide (a = b)) as [->|].
  - rewrite lookup_insert_eq, Ha. simpl. by rewrite Hn.
  - by rewrite lookup_insert_ne.
Qed.

(** Redirecting the [me_next] of an entry replaces what follows it. *)
Lemma chain_splice h p l1 a l2 me me' l3 :
  chain h p (l1 ++ a :: l2) -> h !! a = Some me ->
  chain (<[a := me']> h) (me_next me') l3 ->
  chain (<[a := me']> h) p (l1 ++ a :: l3).
Proof.
  intros H Ha H3. pose proof (cache_chain_NoDup _ _ _ H) as Hnd.
  revert p H. induction l1 as [|b l1 IH]; intros p H; simpl in *.
  - destruct H as [-> _]. split; [done|]. exists me'. by rewrite lookup_insert_eq.
  - destruct H as [-> (mb & Hb & Hl)]. apply NoDup_cons in Hnd as [Hnotin Hnd].
    split; [done|]. exists mb. rewrite lookup_insert_ne by set_solver. split; [done|].
    by apply IH.
Qed.

(** ** The searches of the code *)

Lemma find_chain_reads mc test fuel p l :
  chain (mc_heap mc) p l -> (length l <= fuel)%nat ->
  reads (find_chain fuel test p) mc (ffind (mc_heap mc) test l).
Proof.
  revert fuel p. induction l as [|a l IH]; intros fuel p Hl Hf m; simpl in *.
  - subst. by destruct fuel.
  - destruct Hl as [-> (me & Ha & Hl)]. destruct fuel as [|fuel]; [lia|]. simpl.
    unfold mbind, M_bind, deref, sat. rewrite Ha. destruct (test a me); [done|].
    apply IH; [done|lia].
Qed.

Lemma find_chain_fuel mc test p l m :
  chain (mc_heap mc) p l ->
  (chain_fuel ≫= fun fuel => find_chain fuel test p) mc m
  = Some (ffind (mc_heap mc) test l, mc, m).
Proof.
  intros H. unfold mbind, M_bind, chain_fuel. apply find_chain_reads; [done|].
  apply cache_chain_length in H. lia.
Qed.

Lemma ffind_app h test l1 l2 :
  ffind h test (l1 ++ l2) = match ffind h test l1 with Some a => Some a | None => ffind h test l2 end.
Proof. induction l1 as [|a l1 IH]; simpl; [done|]. by destruct (sat h test a). Qed.

Lemma ffind_Some h test l a : ffind h test l = Some a -> a ∈ l /\ sat h test a = true.
Proof.
  induction l as [|b l IH]; simpl; [done|]. destruct (sat h test b) eqn:E.
  - intros [= ->]. set_solver.
  - intros [? ?]%IH. set_solver.
Qed.

Lemma ffind_None h test l : ffind h test l = None <-> forall a, a ∈ l -> sat h test a = false.
Proof.
  induction l as [|b l IH]; simpl; [set_solver|]. destruct (sat h test b) eqn:E.
  - split; [done|]. intros H. specialize (H b ltac:(set_solver)). congruence.
  - rewrite IH. split; [|set_solver]. intros H a [->|Ha]%elem_of_cons; auto.
Qed.

(** The first hit is the head of the list of hits. *)
Lemma ffind_filter h test l :
  ffind h test l = head (filter (fun a => sat h test a = true) l).
Proof.
  induction l as [|a l IH]; simpl; [done|]. rewrite filter_cons.
  destruct (sat h test a) eqn:E; case_decide; [done|congruence..|]. done.
Qed.

(** ** Buckets *)

Section Wf.
Context (mc : mapent_cache) (cs : list (list addr)) (W : wf mc cs).

Lemma wf_hash_len : length (mc_hash mc) = Z.to_nat (mc_size mc).
Proof. rewrite <- (wf_len _ _ W). eapply Forall2_length, W. Qed.

Lemma wf_bucket i :
  (i < Z.to_nat (mc_size mc))%nat ->
  exists p c, mc_hash mc !! i = Some p /\ cs !! i = Some c /\ chain (mc_heap mc) p c.
Proof.
  intros Hi. destruct (lookup_lt_is_Some_2 (mc_hash mc) i) as [p Hp]; [by rewrite wf_hash_len|].
  destruct (lookup_lt_is_Some_2 cs i) as [c Hc]; [by rewrite (wf_len _ _ W)|].
  exists p, c. split_and!; [done..|]. by eapply Forall2_lookup_lr; [apply (wf_chains _ _ W)|..].
Qed.

Lemma key_index_lt key : (key_index mc key < Z.to_nat (mc_size mc))%nat.
Proof.
  unfold key_index. destruct W as [Hs _ _ _ _ _ _].
  pose proof (hash_range key (mc_size mc)). lia.
Qed.

Lemma wf_key_bucket key :
  exists p c, mc_hash mc !! key_index mc key = Some p /\ cs !! key_index mc key = Some c /\
    chain (mc_heap mc) p c.
Proof. apply wf_bucket, key_index_lt. Qed.

Lemma wf_live c a : c ∈ cs -> a ∈ c -> is_Some (mc_heap mc !! a).
Proof.
  intros [i Hi]%list_elem_of_lookup Ha.
  destruct (wf_bucket i) as (p & c' & _ & Hc & Hch).
  { rewrite <- (wf_len _ _ W). by eapply lookup_lt_Some. }
  simplify_eq. by eapply chain_live.
Qed.

(** An entry of the view with a key is in the bucket of that key. *)
Lemma wf_key_bucket_unique i c a key :
  cs !! i = Some c -> a ∈ c -> sat (mc_heap mc) (has_key key) a = true -> i = key_index mc key.
Proof.
  unfold sat, has_key. intros Hi Ha. destruct (mc_heap mc !! a) as [me|] eqn:E; [|done].
  intros ->%streq_true. unfold key_index. rewrite (wf_keys _ _ W i c a me) by done. lia.
Qed.

Lemma filter_other_buckets key css :
  (forall c a, c ∈ css -> a ∈ c -> sat (mc_heap mc) (has_key key) a = false) ->
  filter (fun a => sat (mc_heap mc) (has_key key) a = true) (concat css) = [].
Proof.
  intros H. apply filter_none. intros a (c & Hc & Ha)%elem_of_concat.
  by rewrite (H c a).
Qed.

(** The entries of a key are those of its bucket. *)
Lemma entries_bucket key c :
  cs !! key_index mc key = Some c ->
  entries mc cs key = filter (fun a => sat (mc_heap mc) (has_key key) a = true) c.
Proof.
  intros Hc. unfold entries.
  rewrite <- (take_drop_middle cs (key_index mc key) c) at 1 by done.
  rewrite concat_app. simpl. rewrite !filter_app.
  assert (forall c' a i, cs !! i = Some c' -> i <> key_index mc key -> a ∈ c' ->
    sat (mc_heap mc) (has_key key) a = false) as Hother.
  { intros c' a i Hi Hne Ha. destruct (sat _ _ a) eqn:E; [|done].
    by apply (wf_key_bucket_unique i c') in E. }
  rewrite !filter_other_buckets; [by rewrite app_nil_r|..].
  - intros c' a [i Hi]%list_elem_of_lookup. rewrite lookup_drop in Hi.
    apply (Hother _ _ _ Hi). lia.
  - intros c' a [i Hi]%list_elem_of_lookup. apply lookup_take_Some in Hi as [Hi Hlt].
    apply (Hother _ _ _ Hi). lia.
Qed.

(** ** Lookups *)

Lemma find_key_reads key : reads (find_key key) mc (head (entries mc cs key)).
Proof.
  intros m. destruct (wf_key_bucket key) as (p & c & Hp & Hc & Hch).
  unfold find_key, mbind, M_bind at 1, get_state, bucket. fold (key_index mc key).
  unfold mbind, M_bind at 1. rewrite Hp.
  etransitivity; [by apply find_chain_fuel|].
  by rewrite (entries_bucket _ _ Hc), ffind_filter.
Qed.

Lemma lookup_distinct_reads key :
  reads (cache_lookup_distinct (Some key)) mc (head (entries mc cs key)).
Proof. apply find_key_reads. Qed.

Lemma find_buckets_reads n i test :
  (i + n <= Z.to_nat (mc_size mc))%nat ->
  reads (find_buckets n (Z.of_nat i) test) mc
    (ffind (mc_heap mc) test (concat (take n (drop i cs)))).
Proof.
  revert i. induction n as [|n IH]; intros i Hi m; [done|].
  destruct (wf_bucket i) as (p & c & Hp & Hc & Hch); [lia|]. simpl find_buckets.
  unfold mbind at 1, M_bind at 1, bucket. rewrite Nat2Z.id, Hp.
  unfold mbind at 1, M_bind at 1, chain_fuel. unfold mbind, M_bind.
  rewrite (find_chain_reads mc test _ p c) by (done || apply cache_chain_length in Hch; lia).
  rewrite (drop_S cs c i) by done. simpl. rewrite ffind_app.
  destruct (ffind _ _ c); [done|].
  replace (Z.of_nat i + 1) with (Z.of_nat (S i)) by lia. apply IH. lia.
Qed.

Lemma lookup_first_reads :
  reads cache_lookup_first mc (ffind (mc_heap mc) primary (concat cs)).
Proof.
  intros m. unfold cache_lookup_first, mbind, M_bind, get_state.
  change 0 with (Z.of_nat 0). rewrite (find_buckets_reads _ 0) by lia.
  rewrite drop_0, take_ge; [done|]. by rewrite (wf_len _ _ W).
Qed.

Lemma partial_match_reads prefix type :
  reads (__cache_partial_match prefix type) mc
    (ffind (mc_heap mc) (partial_test prefix type) (concat cs)).
Proof.
  intros m. unfold __cache_partial_match, mbind, M_bind, get_state.
  change 0 with (Z.of_nat 0). rewrite (find_buckets_reads _ 0) by lia.
  rewrite drop_0, take_ge; [done|]. by rewrite (wf_len _ _ W).
Qed.

End Wf.
