(* ===== verification/CacheOps.v ===== *)
(** * The updates of the map entry cache

    Every operation of lib/cache.c that changes the table preserves the
    invariant [wf]; its effect is stated on the view [cs]: which addresses are
    in which bucket and in which order. *)

From S2P Require Import Prelude CString Hash Cache CacheInv.

(** ** Specification functions on the view *)

(** An entry apart from its position in its bucket. *)
Definition payload (me : mapent) : mapent := set_next me None.

(** A key search must not start at an entry inside a multi-mount. *)
Definition searchable (h : gmap addr mapent) (a : addr) : Prop := sat h primary a = true.

(** What [cache_lookup] returns. *)
Definition lookup_spec (mc : mapent_cache) (cs : list (list addr)) (key : cstring) : option addr :=
  match head (entries mc cs key) with
  | Some a => Some a
  | None =>
      match ffind (mc_heap mc) primary (concat cs) with
      | None => None
      | Some f =>
          if sat (mc_heap mc) (fun _ me => hd_char (me_key me) =a "/") f then None
          else head (entries mc cs STAR)
      end
  end.

(** What [cache_delete] leaves of the part of a bucket behind its first entry:
    it stops at a matching multi-mount entry. *)
Fixpoint delete_spec (h : gmap addr mapent) (key : cstring) (l : list addr) : list addr * bool :=
  match l with
  | [] => ([], true)
  | a :: l' =>
      if sat h (has_key key) a then
        if sat h (fun _ me => IS_MM me) a then (l, false) else delete_spec h key l'
      else let '(kept, ok) := delete_spec h key l' in (a :: kept, ok)
  end.

(** ** Memory accesses *)

Lemma deref_reads mc a me : mc_heap mc !! a = Some me -> reads (deref a) mc me.
Proof. intros H m. unfold deref. by rewrite H. Qed.

Lemma bucket_reads mc i p : mc_hash mc !! Z.to_nat i = Some p -> reads (bucket i) mc p.
Proof. intros H m. unfold bucket. by rewrite H. Qed.

Lemma fuel_reads mc : reads chain_fuel mc (S (size (mc_heap mc))).
Proof. done. Qed.

Lemma bind_store {B} a me f (k : unit -> CM B) mc m :
  mc_heap mc !! a = Some me ->
  (store a f ≫= k) mc m = k () (with_heap (<[a := f me]> (mc_heap mc)) mc) m.
Proof. intros H. unfold mbind, M_bind, store. by rewrite H. Qed.

#[export] Hint Resolve deref_reads bucket_reads fuel_reads : autofs.
#[export] Hint Resolve lookup_distinct_reads find_key_reads lookup_first_reads : autofs.

(** ** Walks along the entries of one key *)

Lemma key_next_loop_reads mc key fuel p l :
  chain (mc_heap mc) p l -> (length l <= fuel)%nat ->
  reads (key_next_loop fuel false key p) mc (ffind (mc_heap mc) (has_key key) l).
Proof.
  revert fuel p. induction l as [|a l IH]; intros fuel p Hl Hf m; simpl in *.
  - subst. by destruct fuel.
  - destruct Hl as [-> (me & Ha & Hl)]. destruct fuel as [|fuel]; [lia|]. simpl. mread.
    unfold sat. rewrite Ha. unfold has_key at 1. destruct (streq key (me_key me)); [done|].
    apply IH; [done|lia].
Qed.

Lemma searchable_primary h a me :
  h !! a = Some me -> searchable h a -> IS_MM me && negb (IS_MM_ROOT a me) = false.
Proof. unfold searchable, sat, primary. intros ->. apply negb_true_iff. Qed.

Lemma lookup_key_next_reads mc p l1 a l2 me :
  chain (mc_heap mc) p (l1 ++ a :: l2) -> mc_heap mc !! a = Some me ->
  searchable (mc_heap mc) a ->
  reads (cache_lookup_key_next (Some a)) mc (ffind (mc_heap mc) (has_key (me_key me)) l2).
Proof.
  intros Hc Ha Hs m. unfold cache_lookup_key_next. do 2 mread.
  rewrite (searchable_primary _ _ _ Ha Hs).
  destruct (chain_drop _ _ _ _ _ Hc) as [_ (me' & Ha' & Hl)]. simplify_eq.
  apply key_next_loop_reads; [done|]. apply cache_chain_length in Hl. lia.
Qed.

(** From an entry inside a multi-mount that is not the last of its bucket the
    search never ends, however long it runs. *)
Lemma key_next_loop_mm fuel key a mc m : key_next_loop fuel true key (Some a) mc m = None.
Proof. induction fuel as [|fuel IH]; [done|]. simpl. apply IH. Qed.

(** ** The view is stable under changes that keep keys and links *)

Lemma sat_ext h h' test a : h !! a = h' !! a -> sat h test a = sat h' test a.
Proof. unfold sat. by intros ->. Qed.

Lemma sat_payload h h' test a :
  payload <$> h !! a = payload <$> h' !! a ->
  (forall b me, test b (payload me) = test b me) -> sat h test a = sat h' test a.
Proof.
  unfold sat. intros H Ht. destruct (h !! a) as [me|], (h' !! a) as [me'|]; simpl in H; try done.
  rewrite <- (Ht a me), <- (Ht a me'). congruence.
Qed.

Lemma fresh_None mc : mc_heap mc !! fresh (dom (mc_heap mc)) = None.
Proof. apply (not_elem_of_dom (D := gset addr)), is_fresh. Qed.

Lemma wf_fresh mc cs e :
  wf mc cs -> wf (with_heap (<[fresh (dom (mc_heap mc)) := e]> (mc_heap mc)) mc) cs.
Proof.
  intros W. pose proof (fresh_None mc) as Ha. set (a := fresh (dom (mc_heap mc))) in *.
  assert (forall c, c ∈ cs -> a ∉ c) as Hfresh.
  { intros c Hc Hac. destruct (wf_live _ _ W c a Hc Hac). congruence. }
  destruct W as [Hs Hl Hil Hch Hnd Hk Hi]. constructor; simpl; try done.
  - eapply Forall2_impl; [exact Hch|]. intros p c Hpc. apply chain_insert_fresh; [|done].
    intros Hac. destruct (chain_live _ _ _ _ Hpc Hac). congruence.
  - intros i c b me Hc Hb. rewrite lookup_insert_ne; [by eapply Hk|].
    intros ->. apply (Hfresh c); [by eapply list_elem_of_lookup_2|done].
  - intros l b Hlb Hb. destruct (decide (a = b)) as [->|]; [by rewrite lookup_insert_eq|].
    rewrite lookup_insert_ne by done. by eapply Hi.
Qed.

Lemma concat_insert (cs : list (list addr)) i c c' :
  cs !! i = Some c ->
  exists X Y, concat cs = X ++ c ++ Y /\ concat (<[i := c']> cs) = X ++ c' ++ Y.
Proof.
  intros Hc. exists (concat (take i cs)), (concat (drop (S i) cs)). split.
  - rewrite <- (take_drop_middle cs i c) at 1 by done. by rewrite concat_app.
  - rewrite insert_take_drop by (by eapply lookup_lt_Some). by rewrite concat_app.
Qed.

(** Replacing one bucket by another list of entries with the right keys. *)
Lemma wf_rebuild mc cs i c p' c' h' ino' :
  wf mc cs -> cs !! i = Some c -> chain h' p' c' ->
  (forall b, b ∈ concat cs -> b ∉ c -> h' !! b = mc_heap mc !! b) ->
  (forall a, a ∈ c' -> a ∈ c \/ a ∉ concat cs) ->
  (forall a me, a ∈ c' -> h' !! a = Some me -> hash (me_key me) (mc_size mc) = Z.of_nat i) ->
  length ino' = length (mc_ino_index mc) ->
  (forall l a, l ∈ ino' -> a ∈ l -> is_Some (h' !! a)) ->
  wf (MC (mc_size mc) (<[i := p']> (mc_hash mc)) ino' h') (<[i := c']> cs).
Proof.
  intros W Hc Hch' Hframe Hsub Hkeys Hil Hino. pose proof W as [Hs Hl Hl' Hch Hnd Hk Hi].
  destruct (concat_insert cs i c c' Hc) as (X & Y & HX & HX').
  assert (forall j c2 b, cs !! j = Some c2 -> j <> i -> b ∈ c2 -> b ∈ concat cs /\ b ∉ c) as Hoth.
  { intros j c2 b Hj Hne Hb. split.
    { apply elem_of_concat. exists c2. split; [by eapply list_elem_of_lookup_2|done]. }
    intros Hbc. destruct (wf_live _ _ W c b) as [me Hme]; [by eapply list_elem_of_lookup_2|done|].
    pose proof (Hk _ _ _ _ Hj Hb Hme). pose proof (Hk _ _ _ _ Hc Hbc Hme). lia. }
  constructor; simpl; try done.
  - by rewrite length_insert.
  - by rewrite Hil.
  - apply Forall2_same_length_lookup. split.
    { rewrite !length_insert. by eapply Forall2_length. }
    intros j p c2 Hp Hc2. destruct (decide (j = i)) as [->|Hne].
    + rewrite list_lookup_insert_eq in Hp
        by (rewrite (wf_hash_len _ _ W), <- Hl; by eapply lookup_lt_Some).
      rewrite list_lookup_insert_eq in Hc2 by (by eapply lookup_lt_Some). by simplify_eq.
    + rewrite list_lookup_insert_ne in Hp by done. rewrite list_lookup_insert_ne in Hc2 by done.
      apply (chain_ext (mc_heap mc)); [|by eapply Forall2_lookup_lr].
      intros b Hb. destruct (Hoth _ _ _ Hc2 Hne Hb). by rewrite Hframe.
  - rewrite HX'. rewrite HX in Hnd, Hsub. rewrite !NoDup_app in Hnd |- *.
    destruct Hnd as (HndX & Hd1 & Hndc & Hd2 & HndY).
    pose proof (cache_chain_NoDup _ _ _ Hch').
    split_and!; [done| |done| |done].
    + intros b HbX HbcY. apply elem_of_app in HbcY as [Hb|Hb].
      * destruct (Hsub b Hb); [by apply (Hd1 b); set_solver|set_solver].
      * apply (Hd1 b); set_solver.
    + intros b Hb HbY. destruct (Hsub b Hb); [by apply (Hd2 b)|set_solver].
  - intros j c2 b me Hc2 Hb Hme. destruct (decide (j = i)) as [->|Hne].
    + rewrite list_lookup_insert_eq in Hc2 by (by eapply lookup_lt_Some). simplify_eq. eauto.
    + rewrite list_lookup_insert_ne in Hc2 by done. destruct (Hoth _ _ _ Hc2 Hne Hb).
      rewrite Hframe in Hme by done. by eapply Hk.
Qed.

(** Changing an entry in place, its key and link kept. *)
Lemma wf_update mc cs a me me' :
  wf mc cs -> mc_heap mc !! a = Some me -> me_next me' = me_next me -> me_key me' = me_key me ->
  wf (with_heap (<[a := me']> (mc_heap mc)) mc) cs.
Proof.
  intros [Hs Hl Hl' Hch Hnd Hk Hi] Ha Hn Hkey. constructor; simpl; try done.
  - eapply Forall2_impl; [exact Hch|]. intros p c. by eapply chain_update.
  - intros i c b mb Hc Hb. destruct (decide (a = b)) as [->|].
    + rewrite lookup_insert_eq. intros [= <-]. rewrite Hkey. by eapply Hk.
    + rewrite lookup_insert_ne by done. by eapply Hk.
  - intros l b Hlb Hb. destruct (decide (a = b)) as [->|]; [by rewrite lookup_insert_eq|].
    rewrite lookup_insert_ne by done. by eapply Hi.
Qed.

Lemma entries_update mc cs a me me' key :
  mc_heap mc !! a = Some me -> me_key me' = me_key me ->
  entries (with_heap (<[a := me']> (mc_heap mc)) mc) cs key = entries mc cs key.
Proof.
  intros Ha Hk. unfold entries. apply filter_ext_in. intros b _. simpl. unfold sat.
  destruct (decide (a = b)) as [->|].
  - rewrite lookup_insert_eq, Ha. unfold has_key. by rewrite Hk.
  - by rewrite lookup_insert_ne.
Qed.

Lemma elem_of_entries mc cs key a :
  a ∈ entries mc cs key <->
  a ∈ concat cs /\ exists me, mc_heap mc !! a = Some me /\ me_key me = key.
Proof.
  unfold entries. rewrite list_elem_of_filter. unfold sat, has_key. split.
  - intros [Hs Ha]. split; [done|]. destruct (mc_heap mc !! a) as [me|]; [|done].
    apply streq_true in Hs. eauto.
  - intros [Ha (me & -> & <-)]. by rewrite streq_refl.
Qed.

(** ** Adding an entry *)

Lemma chain_head h p l : chain h p l -> p = head l.
Proof. destruct l; simpl; [done|]. by intros [-> _]. Qed.

Lemma ffind_split h test l n :
  ffind h test l = Some n ->
  exists x y, l = x ++ n :: y /\ filter (fun a => sat h test a = true) x = [] /\ sat h test n = true.
Proof.
  induction l as [|b l IH]; simpl; [done|]. destruct (sat h test b) eqn:E.
  - intros [= <-]. by exists [], l.
  - intros (x & y & -> & Hx & Hn)%IH. exists (b :: x), y. split_and!; [done| |done].
    by rewrite filter_cons_False by congruence.
Qed.

Lemma sat_key h key a : sat h (has_key key) a = true -> exists me, h !! a = Some me /\ me_key me = key.
Proof.
  unfold sat, has_key. destruct (h !! a) as [me|]; [|done]. intros ?%streq_true. eauto.
Qed.

(** The walk to the last entry of a key. *)
Lemma last_of_key_reads mc key p l1 a l2 fuel :
  chain (mc_heap mc) p (l1 ++ a :: l2) -> (length l2 < fuel)%nat ->
  sat (mc_heap mc) (has_key key) a = true ->
  (forall b, b ∈ a :: l2 -> sat (mc_heap mc) (has_key key) b = true -> searchable (mc_heap mc) b) ->
  reads (last_of_key fuel a) mc
    (default a (last (filter (fun b => sat (mc_heap mc) (has_key key) b = true) l2))).
Proof.
  revert l1 a l2. induction fuel as [|fuel IH]; intros l1 a l2 Hc Hf Ha Hs m; [lia|].
  destruct (sat_key _ _ _ Ha) as (me & Hme & Hkey). simpl.
  pose proof (lookup_key_next_reads mc p l1 a l2 me Hc Hme ltac:(apply Hs; [set_solver|done])) as Hn.
  rewrite Hkey in Hn. erewrite reads_bind by exact Hn.
  destruct (ffind (mc_heap mc) (has_key key) l2) as [n|] eqn:E.
  - apply ffind_split in E as (x & y & -> & Hx & Hsn).
    rewrite filter_app, Hx, filter_cons_True, app_nil_l, last_cons_default by done.
    rewrite (IH (l1 ++ a :: x) n y); [| |rewrite length_app in Hf; simpl in Hf; lia|done|].
    + done.
    + by rewrite <- app_assoc.
    + intros b Hb. apply Hs. set_solver.
  - by rewrite ffind_filter in E; destruct (filter _ l2).
Qed.

Lemma cache_add_alloc ms key ent age mc m :
  exists m',
    (cache_add ms key ent age mc m = Some (CHE_FAIL, mc, m') /\ m <> []) \/
    (cache_add ms key ent age mc m =
       cache_link (fresh (dom (mc_heap mc))) (hash key (mc_size mc)) key
         (with_heap (<[fresh (dom (mc_heap mc)) := new_mapent ms key ent age]> (mc_heap mc)) mc) m'
     /\ (m = [] -> m' = [])).
Proof.
  unfold cache_add. mread.
  destruct m as [|b1 m]; [exists []; right; by destruct ent|].
  destruct b1; [|exists m; by left].
  destruct m as [|b2 m]; [exists []; right; by destruct ent|].
  destruct b2; [|exists m; by left].
  destruct ent; [|exists m; by right].
  destruct m as [|b3 m]; [exists []; by right|].
  exists m. destruct b3; [by right|by left].
Qed.

(** Linking a new entry whose key the table does not have. *)
Lemma cache_link_new mc cs a e key c m :
  wf mc cs -> mc_heap mc !! a = Some e -> me_key e = key -> a ∉ concat cs ->
  entries mc cs key = [] -> cs !! key_index mc key = Some c ->
  exists mc', cache_link a (hash key (mc_size mc)) key mc m = Some (CHE_OK, mc', m) /\
    wf mc' (<[key_index mc key := a :: c]> cs) /\ mc_size mc' = mc_size mc /\
    mc_heap mc' = <[a := set_next e (head c)]> (mc_heap mc).
Proof.
  intros W Ha Hkey Hna Hent Hc. destruct (wf_key_bucket _ _ W key) as (p & c' & Hp & Hc' & Hch).
  simplify_eq. unfold cache_link. erewrite reads_bind by (by apply lookup_distinct_reads).
  rewrite Hent. simpl. mread. rewrite (bind_store a e) by done.
  unfold set_bucket. rewrite bind_modify. eexists. split; [done|].
  split_and!; [|done|by rewrite (chain_head _ _ _ Hch)].
  assert (a ∉ c) as Hac.
  { intros Hac. apply Hna, elem_of_concat. exists c. split; [|done].
    by eapply list_elem_of_lookup_2. }
  apply (wf_rebuild mc cs _ c); try done; simpl.
  - split; [done|]. eexists. rewrite lookup_insert_eq. split; [done|]. by apply chain_insert_fresh.
  - intros b Hb Hbc. rewrite lookup_insert_ne; [done|set_solver].
  - set_solver.
  - intros b me [->|Hb]%elem_of_cons.
    + rewrite lookup_insert_eq. intros [= <-]. simpl. unfold key_index.
      pose proof (hash_range (me_key e) _ (proj1 (wf_size _ _ W))). lia.
    + rewrite lookup_insert_ne by set_solver. by eapply (wf_keys _ _ W).
  - intros l b Hl Hb. destruct (decide (a = b)) as [->|]; [by rewrite lookup_insert_eq|].
    rewrite lookup_insert_ne by done. by eapply (wf_ino _ _ W).
Qed.

(** Linking a new entry of a known key: what followed the last entry [x] of the
    key in its bucket is replaced by the new entry. *)
Lemma cache_link_existing mc cs a e key l1 x mx l2 m :
  wf mc cs -> mc_heap mc !! a = Some e -> me_next e = None -> me_key e = key -> a ∉ concat cs ->
  cs !! key_index mc key = Some (l1 ++ x :: l2) ->
  last (entries mc cs key) = Some x -> mc_heap mc !! x = Some mx ->
  (forall b, b ∈ entries mc cs key -> searchable (mc_heap mc) b) ->
  exists mc', cache_link a (hash key (mc_size mc)) key mc m = Some (CHE_OK, mc', m) /\
    wf mc' (<[key_index mc key := l1 ++ [x; a]]> cs) /\ mc_size mc' = mc_size mc /\
    mc_heap mc' = <[x := set_next mx (Some a)]> (mc_heap mc).
Proof.
  intros W Ha Hnone Hkey Hna Hc Hlast Hx Hsearch.
  destruct (wf_key_bucket _ _ W key) as (p & c' & Hp & Hc' & Hch). rewrite Hc in Hc'.
  injection Hc' as <-. pose proof (entries_bucket _ _ W _ _ Hc) as Hent.
  assert (l1 ++ x :: l2 ∈ cs) as Hcin by (by eapply list_elem_of_lookup_2).
  assert (forall b, b ∈ l1 ++ x :: l2 -> b ∈ concat cs) as Hin.
  { intros b Hb. apply elem_of_concat. eauto. }
  assert (a <> x) as Hax by (intros ->; apply Hna, Hin; set_solver).
  unfold cache_link. erewrite reads_bind by (by apply lookup_distinct_reads).
  pose proof (ffind_filter (mc_heap mc) (has_key key) (l1 ++ x :: l2)) as Hff.
  rewrite <- Hent in Hff. rewrite <- Hff.
  destruct (ffind _ _ _) as [f|] eqn:E; [|by destruct (entries mc cs key)].
  apply ffind_split in E as (y1 & y2 & Hy & Hy1 & Hf). mread.
  erewrite reads_bind; [|eapply (last_of_key_reads mc key p y1 f y2); [by rewrite <- Hy|..|done|]].
  2:{ rewrite Hy in Hch. apply cache_chain_length in Hch. rewrite length_app in Hch. simpl in Hch. lia. }
  2:{ intros b Hb Hsb. apply Hsearch. rewrite Hent, Hy. apply list_elem_of_filter. set_solver. }
  rewrite Hent, Hy, filter_app, Hy1, app_nil_l, filter_cons_True in Hlast by done.
  apply (f_equal (default f)) in Hlast. rewrite last_cons_default in Hlast. simpl in Hlast.
  rewrite Hlast, (bind_store x mx) by done. eexists. split; [done|].
  split_and!; [|done|done]. unfold with_heap. rewrite <- (list_insert_id (mc_hash mc) _ p) by done.
  apply (wf_rebuild mc cs _ (l1 ++ x :: l2)); try done; simpl.
  - apply (chain_splice _ _ _ _ l2 mx); [done..|]. simpl. split; [done|].
    exists e. by rewrite lookup_insert_ne.
  - intros b Hb Hnb. rewrite lookup_insert_ne; [done|set_solver].
  - set_solver.
  - intros b me Hb. destruct (decide (x = b)) as [->|].
    + rewrite lookup_insert_eq. intros [= <-]. apply (wf_keys _ _ W _ _ b mx Hc); set_solver.
    + rewrite lookup_insert_ne by done. intros Hme. destruct (decide (b = a)) as [->|].
      * assert (me = e) as -> by congruence. rewrite Hkey. unfold key_index.
        pose proof (hash_range key _ (proj1 (wf_size _ _ W))). lia.
      * apply (wf_keys _ _ W _ _ b me Hc); set_solver.
  - intros l b Hl Hb. destruct (decide (x = b)) as [->|]; [by rewrite lookup_insert_eq|].
    rewrite lookup_insert_ne by done. by eapply (wf_ino _ _ W).
Qed.

(** ** Deleting the entries of a key *)

Lemma sat_filter_ne (h : gmap addr mapent) test a b : b <> a -> sat (delete a h) test b = sat h test b.
Proof. intros. apply sat_ext. by rewrite lookup_delete_ne. Qed.

(** Unlinking and freeing the entry [a] behind [x]. *)
Definition unlinked (mc : mapent_cache) (x a : addr) (mx me : mapent) : mapent_cache :=
  MC (mc_size mc) (mc_hash mc) (filter (fun b => b <> a) <$> mc_ino_index mc)
    (delete a (<[x := set_next mx (me_next me)]> (mc_heap mc))).

Lemma wf_unlink mc cs i l1 x a l2 mx me :
  wf mc cs -> cs !! i = Some (l1 ++ x :: a :: l2) ->
  mc_heap mc !! x = Some mx -> mc_heap mc !! a = Some me ->
  wf (unlinked mc x a mx me) (<[i := l1 ++ x :: l2]> cs).
Proof.
  intros W Hc Hx Ha. assert (i < Z.to_nat (mc_size mc))%nat as Hi.
  { rewrite <- (wf_len _ _ W). by eapply lookup_lt_Some. }
  destruct (wf_bucket _ _ W i Hi) as (p & c & Hp & Hc' & Hch). rewrite Hc in Hc'.
  injection Hc' as <-. pose proof (cache_chain_NoDup _ _ _ Hch) as Hnd.
  assert (a <> x /\ a ∉ l1 /\ a ∉ l2 /\ x ∉ l1 /\ x ∉ l2) as (Hax & Hal1 & Hal2 & Hxl1 & Hxl2).
  { apply NoDup_app in Hnd as (_ & Hd & Hnd).
    apply NoDup_cons in Hnd as [Hn1 Hnd]. apply NoDup_cons in Hnd as [Hn2 _].
    split_and!; [set_solver| |done| |set_solver]; intros Hh; [apply (Hd a Hh)|apply (Hd x Hh)];
      set_solver. }
  unfold unlinked. rewrite <- (list_insert_id (mc_hash mc) _ p) by done.
  apply (wf_rebuild mc cs _ (l1 ++ x :: a :: l2)); try done.
  - apply chain_delete; [set_solver|]. apply (chain_splice _ _ _ _ (a :: l2) mx); [done..|].
    simpl. replace (l1 ++ x :: a :: l2) with ((l1 ++ [x]) ++ a :: l2) in Hch by (by rewrite <- app_assoc).
    apply chain_drop in Hch as [_ (me' & Ha' & Hl2)]. simplify_eq.
    by apply chain_insert_fresh.
  - intros b Hb Hnb. rewrite lookup_delete_ne, lookup_insert_ne; [done|set_solver..].
  - set_solver.
  - intros b mb Hb. rewrite lookup_delete_ne by set_solver. destruct (decide (x = b)) as [->|].
    + rewrite lookup_insert_eq. intros [= <-]. apply (wf_keys _ _ W _ _ b mx Hc); set_solver.
    + rewrite lookup_insert_ne by done. intros Hmb. apply (wf_keys _ _ W _ _ b mb Hc); set_solver.
  - by rewrite length_fmap.
  - intros l b (l0 & -> & Hl0)%list_elem_of_fmap [Hba Hb]%list_elem_of_filter.
    rewrite lookup_delete_ne by done. destruct (decide (x = b)) as [->|]; [by rewrite lookup_insert_eq|].
    rewrite lookup_insert_ne by done. by eapply (wf_ino _ _ W).
Qed.

Lemma delete_spec_ext h h' key l :
  (forall a, a ∈ l -> payload <$> h !! a = payload <$> h' !! a) ->
  delete_spec h key l = delete_spec h' key l.
Proof.
  induction l as [|a l IH]; intros H; [done|]. simpl.
  rewrite !(sat_payload h h' _ a) by (done || by apply H; set_solver).
  by rewrite IH by set_solver.
Qed.

Lemma delete_spec_sub h key l a : a ∈ fst (delete_spec h key l) -> a ∈ l.
Proof.
  induction l as [|b l IH]; simpl; [done|].
  destruct (sat h (has_key key) b); [destruct (sat h _ b); simpl; set_solver|].
  destruct (delete_spec h key l). simpl in *. set_solver.
Qed.

(** The entries that keep their contents, and the freed ones. *)
Definition kept_payload (h h' : gmap addr mapent) (kept : addr -> Prop) : Prop :=
  forall b, kept b -> payload <$> h' !! b = payload <$> h !! b.

(** The outcome of the walk of [cache_delete] behind [x]: the rest [l2] of the
    bucket shrinks to [kept] and what is dropped is freed. *)
Definition walk_result (mc : mapent_cache) (cs : list (list addr)) (i : nat) (l1 : list addr)
    (x : addr) (l2 kept : list addr) (mc' : mapent_cache) : Prop :=
  wf mc' (<[i := l1 ++ x :: kept]> cs) /\
  mc_size mc' = mc_size mc /\ mc_hash mc' = mc_hash mc /\
  kept_payload (mc_heap mc) (mc_heap mc') (fun b => b ∉ l2 \/ b ∈ kept) /\
  (forall b, b ∈ l2 -> b ∉ kept -> mc_heap mc' !! b = None).

Lemma walk_result_refl mc cs i l1 x l2 :
  wf mc cs -> cs !! i = Some (l1 ++ x :: l2) -> walk_result mc cs i l1 x l2 l2 mc.
Proof. intros W Hc. unfold walk_result. rewrite list_insert_id by done. split_and!; done || set_solver. Qed.

Lemma walk_result_keep mc cs i l1 x a l2 kept mc' :
  a ∉ l2 -> walk_result mc cs i (l1 ++ [x]) a l2 kept mc' ->
  walk_result mc cs i l1 x (a :: l2) (a :: kept) mc'.
Proof.
  intros Ha (Hwf & Hsz & Hh & Hkp & Hfree). rewrite <- app_assoc in Hwf.
  split_and!; [done..| |].
  - intros b Hb. apply Hkp. set_solver.
  - intros b Hb Hnk. apply Hfree; set_solver.
Qed.

Lemma unlinked_payload mc x a mx me :
  mc_heap mc !! x = Some mx ->
  kept_payload (mc_heap mc) (mc_heap (unlinked mc x a mx me)) (fun b => b <> a).
Proof.
  intros Hx b Hb. simpl. rewrite lookup_delete_ne by done. destruct (decide (x = b)) as [->|].
  - by rewrite lookup_insert_eq, Hx.
  - by rewrite lookup_insert_ne.
Qed.

Lemma walk_result_drop mc cs i l1 x a l2 kept mx me mc' :
  mc_heap mc !! x = Some mx -> a ∉ l2 -> (forall b, b ∈ kept -> b ∈ l2) ->
  walk_result (unlinked mc x a mx me) (<[i := l1 ++ x :: l2]> cs) i l1 x l2 kept mc' ->
  walk_result mc cs i l1 x (a :: l2) kept mc'.
Proof.
  intros Hx Ha Hsub (Hwf & Hsz & Hh & Hkp & Hfree). rewrite list_insert_insert_eq in Hwf.
  split_and!; [done..| |].
  - intros b Hb. rewrite Hkp by set_solver. apply unlinked_payload; set_solver.
  - intros b Hb Hnk. destruct (decide (b = a)) as [->|]; [|apply Hfree; set_solver].
    assert (payload <$> mc_heap mc' !! a = None) as Hpn.
    { rewrite Hkp by (by left). simpl. by rewrite lookup_delete_eq. }
    by destruct (mc_heap mc' !! a).
Qed.

Lemma wf_bucket_at mc cs i c :
  wf mc cs -> cs !! i = Some c -> exists p, mc_hash mc !! i = Some p /\ chain (mc_heap mc) p c.
Proof.
  intros W Hc. destruct (wf_bucket _ _ W i) as (p & c' & Hp & Hc' & Hch).
  { rewrite <- (wf_len _ _ W). by eapply lookup_lt_Some. }
  simplify_eq. eauto.
Qed.

Lemma wf_next mc cs i l1 x l2 mx :
  wf mc cs -> cs !! i = Some (l1 ++ x :: l2) -> mc_heap mc !! x = Some mx ->
  chain (mc_heap mc) (me_next mx) l2 /\ NoDup (x :: l2).
Proof.
  intros W Hc Hx. destruct (wf_bucket_at _ _ _ _ W Hc) as (p & _ & Hch).
  apply chain_drop in Hch. split; [|by eapply cache_chain_NoDup].
  destruct Hch as [_ (mx' & ? & ?)]. by simplify_eq.
Qed.

Lemma delete_walk_correct key i fuel l2 : forall mc cs l1 x mx m,
  wf mc cs -> cs !! i = Some (l1 ++ x :: l2) -> mc_heap mc !! x = Some mx ->
  (length l2 < fuel)%nat ->
  let '(kept, ok) := delete_spec (mc_heap mc) key l2 in
  exists mc', delete_walk fuel key x mc m = Some (if ok then CHE_OK else CHE_FAIL, mc', m) /\
    walk_result mc cs i l1 x l2 kept mc'.
Proof.
  revert fuel. induction l2 as [|a l2 IH]; intros fuel mc cs l1 x mx m W Hc Hx Hf;
    (destruct fuel as [|fuel]; [simpl in Hf; lia|]);
    destruct (wf_next _ _ _ _ _ _ _ W Hc Hx) as [Hn Hnd]; simpl; mread.
  { simpl in Hn. rewrite Hn. exists mc. split; [done|]. by apply walk_result_refl. }
  destruct Hn as [Hxa (me & Ha & Hn)]. rewrite Hxa. mread. unfold sat at 1 2. rewrite Ha.
  apply NoDup_cons in Hnd as [Hxl2 Hnd]. apply NoDup_cons in Hnd as [Hal2 _].
  unfold has_key at 1. destruct (streq key (me_key me)) eqn:Ek.
  - destruct (IS_MM me) eqn:Emm.
    { exists mc. split; [done|]. by apply walk_result_refl. }
    rewrite (bind_store x mx) by done. unfold ino_list_del, free_entry. rewrite !bind_modify.
    rewrite (delete_spec_ext (mc_heap mc) (mc_heap (unlinked mc x a mx me)))
      by (intros b Hb; symmetry; apply unlinked_payload; set_solver).
    specialize (IH fuel (unlinked mc x a mx me) (<[i := l1 ++ x :: l2]> cs) l1 x
      (set_next mx (me_next me)) m (wf_unlink _ _ _ _ _ _ _ _ _ W Hc Hx Ha)).
    rewrite list_lookup_insert_eq in IH by (by eapply lookup_lt_Some).
    specialize (IH eq_refl). simpl in IH.
    rewrite lookup_delete_ne, lookup_insert_eq in IH by set_solver.
    specialize (IH eq_refl ltac:(simpl in Hf; lia)). simpl.
    pose proof (delete_spec_sub
      (delete a (<[x:=set_next mx (me_next me)]> (mc_heap mc))) key l2) as Hsub.
    destruct (delete_spec _ key l2) as [kept ok], IH as (mc' & Hrun & Hres).
    exists mc'. split; [exact Hrun|]. by eapply walk_result_drop.
  - specialize (IH fuel mc cs (l1 ++ [x]) a me m W).
    rewrite <- app_assoc in IH. specialize (IH Hc Ha ltac:(simpl in Hf; lia)).
    destruct (delete_spec (mc_heap mc) key l2) as [kept ok], IH as (mc' & Hrun & Hres).
    exists mc'. split; [done|]. by apply walk_result_keep.
Qed.

(** Without multi-mount entries of the key, the walk drops exactly its entries. *)
Lemma delete_spec_filter h key l :
  (forall a, a ∈ l -> sat h (has_key key) a = true -> sat h (fun _ me => IS_MM me) a = false) ->
  delete_spec h key l = (filter (fun a => sat h (has_key key) a = false) l, true).
Proof.
  induction l as [|a l IH]; intros Hmm; [done|]. simpl. rewrite filter_cons.
  rewrite IH by (intros; apply Hmm; set_solver). destruct (sat h (has_key key) a) eqn:E.
  - rewrite Hmm by set_solver. by case_decide.
  - by case_decide.
Qed.

(** Unlinking and freeing the first entry of a bucket. *)
Lemma wf_unlink_head mc cs i x me l2 :
  wf mc cs -> cs !! i = Some (x :: l2) -> mc_heap mc !! x = Some me ->
  wf (MC (mc_size mc) (<[i := me_next me]> (mc_hash mc))
        (filter (fun b => b <> x) <$> mc_ino_index mc) (delete x (mc_heap mc)))
     (<[i := l2]> cs).
Proof.
  intros W Hc Hx. destruct (wf_next _ _ _ [] x l2 me W Hc Hx) as [Hn [Hxl _]%NoDup_cons].
  apply (wf_rebuild mc cs _ (x :: l2)); try done.
  - by apply chain_delete.
  - intros b _ Hb. rewrite lookup_delete_ne; [done|set_solver].
  - set_solver.
  - intros b mb Hb. rewrite lookup_delete_ne by set_solver. intros Hmb.
    apply (wf_keys _ _ W _ _ b mb Hc); set_solver.
  - by rewrite length_fmap.
  - intros l b (l0 & -> & Hl0)%list_elem_of_fmap [Hba Hb]%list_elem_of_filter.
    rewrite lookup_delete_ne by done. by eapply (wf_ino _ _ W).
Qed.

(** The entries of a key after a change of one bucket. *)
Lemma entries_replace mc cs mc' i c c' key :
  wf mc cs -> wf mc' (<[i := c']> cs) -> mc_size mc' = mc_size mc -> cs !! i = Some c ->
  kept_payload (mc_heap mc) (mc_heap mc') (fun b => b ∈ concat cs /\ b ∉ c) ->
  (key_index mc key = i ->
     filter (fun b => sat (mc_heap mc') (has_key key) b = true) c' =
     filter (fun b => sat (mc_heap mc) (has_key key) b = true) c) ->
  entries mc' (<[i := c']> cs) key = entries mc cs key.
Proof.
  intros W W' Hsz Hc Hkp Hi. destruct (wf_key_bucket _ _ W key) as (p & d & _ & Hd & _).
  rewrite (entries_bucket _ _ W key d Hd).
  assert (key_index mc' key = key_index mc key) as Hidx by (unfold key_index; by rewrite Hsz).
  destruct (decide (key_index mc key = i)) as [E|E].
  - rewrite E, Hc in Hd. injection Hd as <-. rewrite <- Hi by done. apply (entries_bucket _ _ W').
    rewrite Hidx, E. apply list_lookup_insert_eq. by eapply lookup_lt_Some.
  - rewrite (entries_bucket _ _ W' key d) by (by rewrite Hidx, list_lookup_insert_ne).
    apply filter_ext_in. intros b Hb.
    assert (b ∈ concat cs /\ b ∉ c) as Hbc.
    { split; [apply elem_of_concat; exists d; split; [by eapply list_elem_of_lookup_2|done]|].
      intros Hbc. destruct (wf_live _ _ W c b) as [me Hme]; [by eapply list_elem_of_lookup_2|done|].
      pose proof (wf_keys _ _ W _ _ _ _ Hd Hb Hme).
      pose proof (wf_keys _ _ W _ _ _ _ Hc Hbc Hme). lia. }
    by rewrite (sat_payload (mc_heap mc') (mc_heap mc)) by (done || by apply Hkp).
Qed.

Lemma entries_fresh mc cs e key :
  wf mc cs ->
  entries (with_heap (<[fresh (dom (mc_heap mc)) := e]> (mc_heap mc)) mc) cs key = entries mc cs key.
Proof.
  intros W. unfold entries. apply filter_ext_in. intros b (c & Hc & Hb)%elem_of_concat. simpl.
  rewrite (sat_ext _ (mc_heap mc)); [done|]. rewrite lookup_insert_ne; [done|]. intros <-.
  destruct (wf_live _ _ W c _ Hc Hb) as [me Hme]. by rewrite fresh_None in Hme.
Qed.

Lemma fresh_not_view mc cs : wf mc cs -> fresh (dom (mc_heap mc)) ∉ concat cs.
Proof.
  intros W (c & Hc & Ha)%elem_of_concat.
  destruct (wf_live _ _ W c _ Hc Ha) as [me Hme]. by rewrite fresh_None in Hme.
Qed.
