(* ===== verification/CacheProps.v ===== *)
(** * The properties of the map entry cache

    Correctness of the lookups, of [cache_add], [cache_delete] and
    [cache_update], of the enumeration, the inode index, the stack of saved
    entries and the negative cache, each with a concrete instance. *)

From S2P Require Import Prelude CString Hash Cache CacheInv CacheOps.

(** ** Concrete caches *)

(** A cache with one bucket, whose entries are [h] and whose chain starts at [p]. *)
Definition one_bucket (p : option addr) (h : gmap addr mapent) : mapent_cache :=
  MC 1 [p] [[]] h.

(** An entry of a key with the link [n]. *)
Definition entry (n : option addr) (key ent : string) : mapent :=
  set_next (new_mapent 1 (str key) (Some (str ent)) 10) n.

(** Two entries, [k1] and [k2], in one bucket. *)
Definition two_keys : mapent_cache :=
  one_bucket (Some 1%positive)
    {[ 1%positive := entry (Some 2%positive) "k1" "srv:/a"; 2%positive := entry None "k2" "srv:/b" ]}.

(** The loop over a whole cache with [cache_enumerate]: the entries visited. *)
Fixpoint enumerate_from (fuel : nat) (me : option addr) : CM (list addr) :=
  match me with
  | None => mret []
  | Some a =>
      match fuel with
      | O => stuck
      | S fuel' =>
          n ← cache_enumerate (Some a);
          rest ← enumerate_from fuel' n;
          mret (a :: rest)
      end
  end.

Definition enumerate_all : CM (list addr) :=
  me ← cache_enumerate None;
  fuel ← chain_fuel;
  enumerate_from fuel me.

(** The entry of a key and a map source, as [cache_update] looks for it. *)
Definition of_source (ms : addr) (_ : addr) (me : mapent) : bool := bool_decide (me_source me = ms).

(** The in place part of [cache_update]. *)
Definition update_in_place (a : addr) (ent : option cstring) (age : Z) : CM Z :=
  e ← deref a;
  if me_age e =? age then mret CHE_OK
  else
    match ent with
    | None => store a (fun e => set_age (set_mapent e None) age);; mret CHE_OK
    | Some new =>
        if bool_decide (me_mapent e = Some new)
        then store a (fun e => set_age e age);; mret CHE_OK
        else
          ok ← malloc;
          if negb ok then mret CHE_FAIL
          else store a (fun e => set_age (set_mapent e (Some new)) age);; mret CHE_UPDATED
    end.

(** The adding part of [cache_update]. *)
Definition update_add (ms : addr) (key : cstring) (ent : option cstring) (age : Z) : CM Z :=
  ret ← cache_add ms key ent age;
  if ret =? 0 then mret CHE_FAIL else mret CHE_UPDATED.

(** ** Well formed caches *)

Lemma wf_one_bucket p h l : chain h p l -> wf (one_bucket p h) [l].
Proof.
  intros H. constructor; simpl; try done.
  - by repeat constructor.
  - rewrite app_nil_r. by eapply cache_chain_NoDup.
  - intros [|i] c a me Hc; [|done]. unfold hash. rewrite Z.mod_1_r. lia.
  - intros l' a ->%list_elem_of_singleton Ha. by apply not_elem_of_nil in Ha.
Qed.

Lemma wf_two_keys : wf two_keys [[1%positive; 2%positive]].
Proof. apply wf_one_bucket. simpl. split; [done|]. eexists. split; [done|]. split; [done|]. by eexists. Qed.

Lemma concat_replicate_nil {A} n : concat (replicate n (@nil A)) = [].
Proof. by induction n. Qed.

Lemma cache_alloc_wf size m mc m' :
  0 < size <= 2 ^ 32 - 1 -> cache_alloc size m = (Some mc, m') ->
  wf mc (replicate (Z.to_nat size) []) /\ mc_heap mc = ∅.
Proof.
  intros Hs H. assert (mc = MC size (replicate (Z.to_nat size) None) (replicate (Z.to_nat size) []) ∅)
    as -> by (destruct m as [|[] [|[] [|[] m]]]; cbn in H; congruence).
  split; [|done]. constructor; simpl; rewrite ?length_replicate; try done.
  - generalize (Z.to_nat size) as n. induction n; simpl; by constructor.
  - rewrite concat_replicate_nil. constructor.
  - intros l a [-> _]%elem_of_replicate Ha. by apply not_elem_of_nil in Ha.
Qed.

(** ** Lookups *)

(** On a well formed cache [cache_lookup_distinct] terminates, changes
    nothing, and returns the first entry of the key in lookup order: [NULL]
    exactly when no entry of any bucket has the key. *)
Theorem cache_lookup_distinct_correct mc cs key m :
  wf mc cs ->
  exists r, cache_lookup_distinct (Some key) mc m = Some (r, mc, m) /\
    r = head (entries mc cs key) /\
    (r = None <-> forall a me, a ∈ concat cs -> mc_heap mc !! a = Some me -> me_key me <> key).
Proof.
  intros W. exists (head (entries mc cs key)). split; [by apply lookup_distinct_reads|].
  split; [done|]. split.
  - intros Hnil a me Ha Hme Hkey. assert (a ∈ entries mc cs key) as Hin
      by (apply elem_of_entries; eauto). destruct (entries mc cs key); [set_solver|done].
  - intros Hno. destruct (entries mc cs key) as [|a l] eqn:E; [done|].
    destruct (proj1 (elem_of_entries mc cs key a)) as [Ha (me & Hme & Hk)]; [rewrite E; set_solver|].
    by destruct (Hno a me).
Qed.

Lemma cache_lookup_distinct_correct_witness :
  wf two_keys [[1%positive; 2%positive]] /\
  exists r, cache_lookup_distinct (Some (str "k2")) two_keys [] = Some (r, two_keys, []) /\
    r = head (entries two_keys [[1%positive; 2%positive]] (str "k2")) /\
    (r = None <-> forall a me, a ∈ concat [[1%positive; 2%positive]] ->
       mc_heap two_keys !! a = Some me -> me_key me <> str "k2").
Proof. split; [apply wf_two_keys|]. apply cache_lookup_distinct_correct, wf_two_keys. Defined.

(** [cache_lookup] terminates and changes nothing; it returns the first entry of
    the key, or else, unless the table is empty or the first primary entry's key is
    absolute (a direct map), the first wildcard entry. *)
Lemma cache_lookup_reads mc cs key :
  wf mc cs -> reads (cache_lookup (Some key)) mc (lookup_spec mc cs key).
Proof.
  intros W m. unfold cache_lookup, lookup_spec. mread.
  destruct (head (entries mc cs key)); [done|]. mread.
  destruct (ffind (mc_heap mc) primary (concat cs)) as [f|] eqn:E; [|done].
  apply ffind_Some in E as [(c & Hc & Hf)%elem_of_concat _].
  destruct (wf_live _ _ W c f Hc Hf) as [me Hme]. mread. unfold sat. rewrite Hme.
  destruct (_ =a _); [done|]. by apply find_key_reads.
Qed.

(** The test of [cache_partial_match] says that the key extends the prefix by a slash. *)
Lemma partial_test_normal prefix a me :
  partial_test prefix LKP_NORMAL a me = true <-> exists t, me_key me = prefix ++ "/"%char :: t.
Proof.
  unfold partial_test. change (LKP_NORMAL =? LKP_NORMAL) with true. cbn [negb andb]. split.
  - destruct (_ && _ && _) eqn:E; [|done]. intros _.
    apply andb_true_iff in E as [E H3]. apply andb_true_iff in E as [H1 H2].
    apply Nat.ltb_lt in H1. apply strneq_true in H2. apply bool_decide_eq_true in H3.
    rewrite take_ge in H2 by done. exists (drop (S (length prefix)) (me_key me)).
    destruct (lookup_lt_is_Some_2 _ _ H1) as [c Hc]. rewrite Hc in H3. simpl in H3. subst c.
    rewrite H2 at 1. by rewrite take_drop_middle.
  - intros [t Ht]. rewrite Ht, length_app. simpl.
    rewrite (proj2 (Nat.ltb_lt _ _)) by lia.
    unfold strneq. rewrite take_app_length, take_ge by done. rewrite bool_decide_true by done.
    rewrite lookup_app_r, Nat.sub_diag by done. done.
Qed.

(** [cache_partial_match] terminates, changes nothing and returns an entry
    below the prefix, the first of the table, or [NULL] when there is none. *)
Theorem cache_partial_match_correct mc cs prefix m :
  wf mc cs ->
  exists r, cache_partial_match prefix mc m = Some (r, mc, m) /\
    match r with
    | Some a => exists me t, mc_heap mc !! a = Some me /\ a ∈ concat cs /\
                  me_key me = prefix ++ "/"%char :: t
    | None => forall a me t, a ∈ concat cs -> mc_heap mc !! a = Some me ->
                me_key me <> prefix ++ "/"%char :: t
    end.
Proof.
  intros W. eexists. split; [by apply partial_match_reads|].
  destruct (ffind _ _ _) as [a|] eqn:E.
  - apply ffind_Some in E as [Ha Hs]. unfold sat in Hs.
    destruct (mc_heap mc !! a) as [me|] eqn:Hme; [|done].
    apply partial_test_normal in Hs as [t Ht]. eauto.
  - intros a me t Ha Hme Hk. rewrite ffind_None in E. specialize (E a Ha).
    unfold sat in E. rewrite Hme in E.
    rewrite (proj2 (partial_test_normal prefix a me)) in E; [done|]. eauto.
Qed.

Lemma cache_partial_match_correct_witness :
  let mc := one_bucket (Some 1%positive) {[ 1%positive := entry None "/a/b" "srv:/x" ]} in
  wf mc [[1%positive]] /\
  exists r, cache_partial_match (str "/a") mc [] = Some (r, mc, []) /\
    match r with
    | Some a => exists me t, mc_heap mc !! a = Some me /\ a ∈ concat [[1%positive]] /\
                  me_key me = str "/a" ++ "/"%char :: t
    | None => forall a me t, a ∈ concat [[1%positive]] -> mc_heap mc !! a = Some me ->
                me_key me <> str "/a" ++ "/"%char :: t
    end.
Proof.
  intros mc. assert (wf mc [[1%positive]]) as W.
  { apply wf_one_bucket. simpl. split; [done|]. by eexists. }
  split; [exact W|]. apply (cache_partial_match_correct mc [[1%positive]] (str "/a") [] W).
Defined.

(** ** Adding *)

(** Adding a key the table does not have: [cache_add] fails only when an
    allocation fails, and then changes nothing; otherwise the table stays well
    formed, the key has the new entry as its only entry, and the entries of
    every other key are the same, in the same order and with the same contents. *)
Lemma cache_add_new_run mc cs ms key ent age m :
  wf mc cs -> entries mc cs key = [] ->
  exists r mc' m', cache_add ms key ent age mc m = Some (r, mc', m') /\
    (m = [] -> r = CHE_OK /\ m' = []) /\
    ((r = CHE_FAIL /\ mc' = mc) \/
     (r = CHE_OK /\ exists a cs', wf mc' cs' /\ entries mc' cs' key = [a] /\
        payload <$> mc_heap mc' !! a = Some (new_mapent ms key ent age) /\
        (forall key', key' <> key -> entries mc' cs' key' = entries mc cs key') /\
        (forall b, b ∈ concat cs -> mc_heap mc' !! b = mc_heap mc !! b))).
Proof.
  intros W Hent. destruct (cache_add_alloc ms key ent age mc m) as [m' [[-> Hm]|[-> Hm]]].
  { exists CHE_FAIL, mc, m'. split_and!; [done|by intros|]. by left. }
  set (a := fresh (dom (mc_heap mc))). set (mc1 := with_heap _ mc).
  pose proof (wf_fresh mc cs (new_mapent ms key ent age) W) as W1. fold a mc1 in W1.
  pose proof (fresh_not_view mc cs W) as Hna. fold a in Hna.
  destruct (wf_key_bucket _ _ W1 key) as (p & c & _ & Hc & Hch).
  assert (mc_heap mc1 !! a = Some (new_mapent ms key ent age)) as Ha by apply lookup_insert_eq.
  destruct (cache_link_new mc1 cs a _ key c m' W1 Ha) as (mc' & Hrun & Wf' & Hsz & Hheap);
    [done|done|by unfold mc1, a; rewrite entries_fresh|done|].
  assert (forall b, b ∈ concat cs -> mc_heap mc' !! b = mc_heap mc !! b) as Hframe.
  { intros b Hb. rewrite Hheap, lookup_insert_ne by set_solver.
    simpl. rewrite lookup_insert_ne; [done|set_solver]. }
  exists CHE_OK, mc', m'. split_and!; [exact Hrun|by auto|]. right. split; [done|].
  exists a, (<[key_index mc1 key := a :: c]> cs).
  assert (c ∈ cs) as Hcin by (by eapply list_elem_of_lookup_2).
  assert (forall key', sat (mc_heap mc') (has_key key') a = streq key' key) as Hsat.
  { intros key'. unfold sat, has_key. by rewrite Hheap, lookup_insert_eq. }
  assert (forall key' b, b ∈ c -> sat (mc_heap mc') (has_key key') b = sat (mc_heap mc) (has_key key') b)
    as Hsc by (intros key' b Hb; apply sat_ext, Hframe, elem_of_concat; eauto).
  split_and!; [done| |by rewrite Hheap, lookup_insert_eq| |done].
  - rewrite (entries_bucket _ _ Wf' key (a :: c));
      [|unfold key_index; rewrite Hsz; apply list_lookup_insert_eq; by eapply lookup_lt_Some].
    rewrite filter_cons_True by (by rewrite Hsat, streq_refl). f_equal.
    rewrite <- Hent, (entries_bucket _ _ W key c Hc). apply filter_ext_in.
    intros b Hb. by rewrite Hsc.
  - intros key' Hne. eapply (entries_replace mc cs mc' _ c (a :: c)); [done|exact Wf'|done|done|..].
    + intros b [Hb _]. by rewrite Hframe.
    + intros _. rewrite filter_cons_False by (rewrite Hsat; by apply not_true_iff_false, streq_false).
      apply filter_ext_in. intros b Hb. by rewrite Hsc.
Qed.

Lemma filter_last_app {A} (P : A -> Prop) `{!forall x, Decision (P x)} l1 x l2 :
  last (filter P (l1 ++ x :: l2)) = Some x -> NoDup (l1 ++ x :: l2) ->
  filter P (l1 ++ x :: l2) = filter P (l1 ++ [x]).
Proof.
  rewrite !filter_app, !filter_cons, filter_nil. intros Hlast Hnd.
  apply NoDup_app in Hnd as (_ & Hd & [Hx _]%NoDup_cons).
  assert (filter P l2 = []) as E.
  { destruct (filter P l2) as [|y ys] eqn:E; [done|]. exfalso.
    assert (last (filter P l1 ++ (if decide (P x) then x :: y :: ys else y :: ys)) =
      last (y :: ys)) as Hl.
    { case_decide; [rewrite last_app_cons, last_cons|by rewrite last_app_cons].
      destruct (last (y :: ys)) eqn:El; [done|]. by apply last_None in El. }
    rewrite Hl in Hlast. apply last_Some_elem_of in Hlast. rewrite <- E in Hlast.
    apply list_elem_of_filter in Hlast as [_ ?]. done. }
  by rewrite E.
Qed.

(** The table after [cache_add] of a known key. *)
Lemma cache_add_existing_run mc cs ms key ent age m l1 x l2 :
  wf mc cs -> cs !! key_index mc key = Some (l1 ++ x :: l2) ->
  last (entries mc cs key) = Some x ->
  (forall b, b ∈ entries mc cs key -> searchable (mc_heap mc) b) ->
  exists m',
    (cache_add ms key ent age mc m = Some (CHE_FAIL, mc, m') /\ m <> []) \/
    exists a mc', cache_add ms key ent age mc m = Some (CHE_OK, mc', m') /\
      wf mc' (<[key_index mc key := l1 ++ [x; a]]> cs) /\ mc_size mc' = mc_size mc /\
      mc_heap mc' !! a = Some (new_mapent ms key ent age) /\
      kept_payload (mc_heap mc) (mc_heap mc') (fun b => b ∈ concat cs).
Proof.
  intros W Hc Hlast Hsearch.
  destruct (cache_add_alloc ms key ent age mc m) as [m' [[-> Hm]|[-> Hm]]]; exists m'; [by left|right].
  set (a := fresh (dom (mc_heap mc))). set (mc1 := with_heap _ mc).
  pose proof (wf_fresh mc cs (new_mapent ms key ent age) W) as W1. fold a mc1 in W1.
  pose proof (fresh_not_view mc cs W) as Hna. fold a in Hna.
  assert (forall b, b ∈ concat cs -> mc_heap mc1 !! b = mc_heap mc !! b) as Hfr1.
  { intros b Hb. apply lookup_insert_ne. set_solver. }
  assert (x ∈ concat cs) as Hxin.
  { apply elem_of_concat. exists (l1 ++ x :: l2). split; [by eapply list_elem_of_lookup_2|set_solver]. }
  assert (entries mc1 cs key = entries mc cs key) as Hent1 by (by apply entries_fresh).
  destruct (proj1 (elem_of_entries mc cs key x)) as [_ (mx & Hx & _)]; [by apply last_Some_elem_of|].
  destruct (cache_link_existing mc1 cs a _ key l1 x mx l2 m' W1 (lookup_insert_eq _ _ _))
    as (mc' & Hrun & Wf' & Hsz & Hheap); [done|done|done|done|by rewrite Hent1|by rewrite Hfr1| |].
  { intros b Hb. rewrite Hent1 in Hb. unfold searchable.
    rewrite (sat_ext _ (mc_heap mc)); [by apply Hsearch|].
    apply Hfr1. by apply elem_of_entries in Hb as [? _]. }
  exists a, mc'. split_and!; [exact Hrun|exact Wf'|done| |].
  - rewrite Hheap, lookup_insert_ne by set_solver. apply lookup_insert_eq.
  - intros b Hb. rewrite Hheap. destruct (decide (x = b)) as [->|].
    + by rewrite lookup_insert_eq, Hx.
    + by rewrite lookup_insert_ne, Hfr1.
Qed.

(** Adding to a key the table has: when no entry of the key is inside a
    multi-mount, [cache_add] appends the new entry to the entries of the key, so
    the order in which the map was read is kept; but the rest [l2] of the bucket
    behind the last entry [x] of the key is cut off, so entries of other keys
    are kept only in other buckets or when [l2] is empty. *)
Theorem cache_add_existing_key mc cs ms key ent age m l1 x l2 :
  wf mc cs -> cs !! key_index mc key = Some (l1 ++ x :: l2) ->
  last (entries mc cs key) = Some x ->
  (forall b, b ∈ entries mc cs key -> searchable (mc_heap mc) b) ->
  exists r mc' m', cache_add ms key ent age mc m = Some (r, mc', m') /\
    (m = [] -> r = CHE_OK) /\
    ((r = CHE_FAIL /\ mc' = mc) \/
     (r = CHE_OK /\ exists a, let cs' := <[key_index mc key := l1 ++ [x; a]]> cs in
        wf mc' cs' /\ entries mc' cs' key = entries mc cs key ++ [a] /\
        payload <$> mc_heap mc' !! a = Some (new_mapent ms key ent age) /\
        kept_payload (mc_heap mc) (mc_heap mc') (fun b => b ∈ concat cs) /\
        (forall key', key' <> key -> l2 = [] \/ key_index mc key' <> key_index mc key ->
           entries mc' cs' key' = entries mc cs key'))).
Proof.
  intros W Hc Hlast Hsearch.
  destruct (cache_add_existing_run mc cs ms key ent age m l1 x l2 W Hc Hlast Hsearch)
    as [m' [[-> Hm]|(a & mc' & -> & Wf' & Hsz & Ha & Hkp)]].
  { exists CHE_FAIL, mc, m'. split_and!; [done|by intros|]. by left. }
  assert (forall b, b ∈ l1 ++ [x] -> b ∈ concat cs) as Hin.
  { intros b Hb. apply elem_of_concat. exists (l1 ++ x :: l2).
    split; [by eapply list_elem_of_lookup_2|set_solver]. }
  assert (forall key' (l : list addr), (forall b, b ∈ l -> b ∈ concat cs) ->
    filter (fun b => sat (mc_heap mc') (has_key key') b = true) l =
    filter (fun b => sat (mc_heap mc) (has_key key') b = true) l) as Hfil.
  { intros key' l Hl. apply filter_ext_in. intros b Hb.
    by rewrite (sat_payload (mc_heap mc') (mc_heap mc)) by (done || by apply Hkp, Hl). }
  assert (l1 ++ [x; a] = (l1 ++ [x]) ++ [a]) as Hsplit by (by rewrite <- app_assoc).
  exists CHE_OK, mc', m'. split_and!; [done|done|]. right. split; [done|]. exists a. simpl.
  split_and!; [done| |by rewrite Ha|done|].
  - rewrite (entries_bucket _ _ Wf' key (l1 ++ [x; a]));
      [|unfold key_index; rewrite Hsz; apply list_lookup_insert_eq; by eapply lookup_lt_Some].
    rewrite (entries_bucket _ _ W key _ Hc) in Hlast |- *.
    destruct (wf_bucket_at _ _ _ _ W Hc) as (p & _ & Hch).
    rewrite (filter_last_app _ l1 x l2) by (done || by eapply cache_chain_NoDup).
    rewrite Hsplit, filter_app, Hfil by done. rewrite filter_cons_True; [done|].
    unfold sat, has_key. rewrite Ha. apply streq_refl.
  - intros key' Hne Hl2. eapply (entries_replace mc cs mc'); [done|exact Wf'|done|done|..].
    + intros b [Hb _]. by apply Hkp.
    + intros Hidx. destruct Hl2 as [->|]; [|done].
      rewrite Hsplit, filter_app, Hfil by done. rewrite filter_cons_False, app_nil_r; [done|].
      unfold sat, has_key. rewrite Ha. simpl. by rewrite streq_true.
Qed.

Lemma cache_add_existing_key_witness :
  let cs := [[1%positive; 2%positive]] in
  (wf two_keys cs /\ cs !! key_index two_keys (str "k2") = Some ([1%positive] ++ 2%positive :: []) /\
   last (entries two_keys cs (str "k2")) = Some 2%positive) /\
  exists r mc' m', cache_add 2 (str "k2") (Some (str "srv:/c")) 11 two_keys [] = Some (r, mc', m') /\
    (@nil bool = [] -> r = CHE_OK) /\
    ((r = CHE_FAIL /\ mc' = two_keys) \/
     (r = CHE_OK /\ exists a,
        let cs' := <[key_index two_keys (str "k2") := [1%positive] ++ [2%positive; a]]> cs in
        wf mc' cs' /\ entries mc' cs' (str "k2") = entries two_keys cs (str "k2") ++ [a] /\
        payload <$> mc_heap mc' !! a = Some (new_mapent 2 (str "k2") (Some (str "srv:/c")) 11) /\
        kept_payload (mc_heap two_keys) (mc_heap mc') (fun b => b ∈ concat cs) /\
        (forall key', key' <> str "k2" ->
           @nil addr = [] \/ key_index two_keys key' <> key_index two_keys (str "k2") ->
           entries mc' cs' key' = entries two_keys cs key'))).
Proof.
  split; [split_and!; [apply wf_two_keys|vm_compute; reflexivity..]|].
  apply (cache_add_existing_key two_keys [[1%positive; 2%positive]] 2 (str "k2") _ 11 [] [1%positive]
    2%positive []); [apply wf_two_keys|vm_compute; reflexivity..|].
  intros b Hb. assert (entries two_keys [[1%positive; 2%positive]] (str "k2") = [2%positive]) as E
    by (vm_compute; reflexivity). rewrite E in Hb. apply list_elem_of_singleton in Hb as ->.
  vm_compute. reflexivity.
Defined.

(** The cut is observable: in a bucket that holds [k1] and then [k2], adding
    a second entry for [k1] succeeds and [k2], which was found before, is no
    longer found after. *)
Theorem cache_add_loses_entry :
  exists mc' m',
    cache_add 2 (str "k1") (Some (str "srv:/c")) 11 two_keys [] = Some (CHE_OK, mc', m') /\
    cache_lookup_distinct (Some (str "k2")) two_keys [] = Some (Some 2%positive, two_keys, []) /\
    cache_lookup_distinct (Some (str "k2")) mc' m' = Some (None, mc', m').
Proof. do 2 eexists. split_and!; vm_compute; reflexivity. Qed.

(** [cache_lookup_key_next] never returns from an entry inside a
    multi-mount that has a successor in its bucket: however many steps its loop
    is given, it does not end. *)
Theorem cache_lookup_key_next_diverges mc a me n fuel m :
  mc_heap mc !! a = Some me -> IS_MM me = true -> IS_MM_ROOT a me = false ->
  me_next me = Some n ->
  key_next_loop fuel (IS_MM me && negb (IS_MM_ROOT a me)) (me_key me) (me_next me) mc m = None /\
  cache_lookup_key_next (Some a) mc m = None.
Proof.
  intros Ha Hmm Hroot Hn. rewrite Hmm, Hroot, Hn. split; [apply key_next_loop_mm|].
  unfold cache_lookup_key_next. do 2 mread. rewrite Hmm, Hroot, Hn. apply key_next_loop_mm.
Qed.

(** A multi-mount entry: its root is the entry at address 9. *)
Definition mm_entry (n : option addr) (key : string) : mapent :=
  Mapent n 1 (Some 9%positive) None (str key) 4 (Some (str "srv:/x")) [] 10 0 0 (-1) 0 0.

Lemma cache_lookup_key_next_diverges_witness :
  let mc := one_bucket (Some 1%positive)
    {[ 1%positive := mm_entry (Some 2%positive) "/a/b"; 2%positive := entry None "k2" "srv:/b" ]} in
  key_next_loop 1000 (IS_MM (mm_entry (Some 2%positive) "/a/b") &&
      negb (IS_MM_ROOT 1 (mm_entry (Some 2%positive) "/a/b"))) (str "/a/b") (Some 2%positive) mc [] = None /\
  cache_lookup_key_next (Some 1%positive) mc [] = None.
Proof.
  intros mc. apply (cache_lookup_key_next_diverges mc 1%positive (mm_entry (Some 2%positive) "/a/b")
    2%positive 1000 []); vm_compute; reflexivity.
Defined.
