(* ===== verification/CacheUpdate.v ===== *)
(** * Deletion, update, enumeration, the inode index and the negative cache *)

From S2P Require Import Prelude CString Hash Cache CacheInv CacheOps CacheProps.

(** The test that an entry is part of a multi-mount. *)
Definition in_mm (_ : addr) (me : mapent) : bool := IS_MM me.

(** Addresses that do not have a key. *)
Definition others (h : gmap addr mapent) (key : cstring) (l : list addr) : list addr :=
  filter (fun a => sat h (has_key key) a = false) l.

(** ** Deletion *)

Lemma kept_payload_lookup h h' (P : addr -> Prop) a me :
  kept_payload h h' P -> P a -> h !! a = Some me ->
  exists me', h' !! a = Some me' /\ payload me' = payload me.
Proof.
  intros Hk HP Ha. specialize (Hk a HP). rewrite Ha in Hk. simpl in Hk.
  destruct (h' !! a) as [me'|]; simpl in Hk; [|done]. exists me'. split; [done|]. congruence.
Qed.

Lemma payload_fields me me' :
  payload me' = payload me -> me_key me' = me_key me /\ me_mm_root me' = me_mm_root me.
Proof. destruct me, me'. unfold payload. simpl. by intros [=]. Qed.

Lemma delete_bucket mc cs key c m :
  wf mc cs -> cs !! key_index mc key = Some c ->
  (forall a, a ∈ c -> sat (mc_heap mc) (has_key key) a = true -> sat (mc_heap mc) in_mm a = false) ->
  exists mc', cache_delete key mc m = Some (CHE_OK, mc', m) /\
    wf mc' (<[key_index mc key := others (mc_heap mc) key c]> cs) /\ mc_size mc' = mc_size mc /\
    kept_payload (mc_heap mc) (mc_heap mc') (fun b => b ∉ c \/ b ∈ others (mc_heap mc) key c) /\
    (forall b, b ∈ c -> b ∉ others (mc_heap mc) key c -> mc_heap mc' !! b = None).
Proof.
  intros W Hc Hmm. destruct (wf_bucket_at _ _ _ _ W Hc) as (p & Hp & Hch).
  unfold cache_delete. mread. mread. destruct c as [|x l2].
  { simpl in Hch. subst p. exists mc. rewrite list_insert_id by done. split_and!; done || set_solver. }
  pose proof Hch as [-> (mx & Hx & Hl2)]. mread.
  pose proof (delete_walk_correct key _ (S (size (mc_heap mc))) l2 mc cs [] x mx m W Hc Hx) as Hw.
  pose proof (cache_chain_NoDup _ _ _ Hch) as [Hxl _]%NoDup_cons.
  rewrite delete_spec_filter in Hw by (intros; apply Hmm; set_solver).
  fold (others (mc_heap mc) key l2) in Hw.
  destruct Hw as (mc1 & Hrun & W1 & Hsz & Hh & Hkp & Hfree).
  { apply cache_chain_length in Hch. simpl in Hch. lia. }
  rewrite (bind_some _ _ _ _ _ _ _ Hrun).
  destruct (kept_payload_lookup _ _ _ x mx Hkp) as (e & He & Hpay); [by left|done|].
  destruct (payload_fields _ _ Hpay) as [Hkey Hroot]. rewrite (proj2 (Z.eqb_neq _ _)) by done. mread.
  assert (sat (mc_heap mc) (has_key key) x = streq key (me_key mx)) as Hsx
    by (unfold sat, has_key; by rewrite Hx).
  rewrite Hkey. destruct (streq key (me_key mx)) eqn:Ek.
  - assert (others (mc_heap mc) key (x :: l2) = others (mc_heap mc) key l2) as ->
      by (apply filter_cons_False; congruence).
    assert (IS_MM e = false) as ->.
    { unfold IS_MM. rewrite Hroot. specialize (Hmm x ltac:(set_solver)).
      unfold sat, has_key, in_mm, IS_MM in Hmm. rewrite Hx in Hmm. auto. }
    unfold set_bucket, ino_list_del, free_entry. rewrite !bind_modify. eexists. split; [done|].
    pose proof (wf_unlink_head mc1 _ (key_index mc key) x e (others (mc_heap mc) key l2) W1) as W2.
    rewrite list_lookup_insert_eq, list_insert_insert_eq in W2 by (by eapply lookup_lt_Some).
    split_and!; [by apply W2|done|..]; simpl.
    + intros b Hb. rewrite lookup_delete_ne; [apply Hkp; set_solver|].
      unfold others in Hb. rewrite list_elem_of_filter in Hb. set_solver.
    + intros b [->|Hb]%elem_of_cons Hnb; [by rewrite lookup_delete_eq|].
      destruct (decide (x = b)) as [->|]; [by rewrite lookup_delete_eq|].
      rewrite lookup_delete_ne by done. by apply Hfree.
  - assert (others (mc_heap mc) key (x :: l2) = x :: others (mc_heap mc) key l2) as ->
      by (apply filter_cons_True; congruence).
    exists mc1. split_and!; [done|exact W1|done|..].
    + intros b Hb. apply Hkp. set_solver.
    + intros b Hb Hnb. apply Hfree; set_solver.
Qed.

(** Deleting a key none of whose entries is part of a multi-mount: the table
    stays well formed, no entry of the key remains, every entry of the key is
    freed and no longer on the inode index, and the entries of every other key
    are unchanged. *)
Lemma cache_delete_run mc cs key m :
  wf mc cs ->
  (forall a, a ∈ entries mc cs key -> sat (mc_heap mc) in_mm a = false) ->
  exists mc' cs', cache_delete key mc m = Some (CHE_OK, mc', m) /\ wf mc' cs' /\
    entries mc' cs' key = [] /\
    (forall key', key' <> key -> entries mc' cs' key' = entries mc cs key') /\
    kept_payload (mc_heap mc) (mc_heap mc') (fun b => b ∈ concat cs /\ b ∉ entries mc cs key) /\
    (forall a, a ∈ entries mc cs key ->
       mc_heap mc' !! a = None /\ forall l, l ∈ mc_ino_index mc' -> a ∉ l).
Proof.
  intros W Hmm. destruct (wf_key_bucket _ _ W key) as (p & c & _ & Hc & Hch).
  pose proof (entries_bucket _ _ W key c Hc) as Hent.
  destruct (delete_bucket mc cs key c m W Hc) as (mc' & Hrun & W' & Hsz & Hkp & Hfree).
  { intros a Ha Hs. apply Hmm. rewrite Hent. by apply list_elem_of_filter. }
  assert (forall b, b ∈ c -> b ∈ entries mc cs key <-> b ∉ others (mc_heap mc) key c) as Hsplit.
  { intros b Hb. rewrite Hent. unfold others. rewrite !list_elem_of_filter.
    destruct (sat (mc_heap mc) (has_key key) b); intuition congruence. }
  assert (forall key' (l : list addr), (forall b, b ∈ l -> b ∈ others (mc_heap mc) key c) ->
    filter (fun b => sat (mc_heap mc') (has_key key') b = true) l =
    filter (fun b => sat (mc_heap mc) (has_key key') b = true) l) as Hfil.
  { intros key' l Hl. apply filter_ext_in. intros b Hb.
    by rewrite (sat_payload (mc_heap mc') (mc_heap mc)) by (done || (apply Hkp; right; auto)). }
  exists mc', (<[key_index mc key := others (mc_heap mc) key c]> cs).
  split_and!; [done|done|..].
  - rewrite (entries_bucket _ _ W' key (others (mc_heap mc) key c));
      [|unfold key_index; rewrite Hsz; apply list_lookup_insert_eq; by eapply lookup_lt_Some].
    rewrite Hfil by done. apply filter_none. intros b [Hb _]%list_elem_of_filter. congruence.
  - intros key' Hne. eapply (entries_replace mc cs mc'); [done|exact W'|done|done|..].
    { intros b [_ Hb]. apply Hkp. by left. }
    intros _. rewrite Hfil by done. unfold others. rewrite list_filter_filter.
    apply filter_ext_in. intros b Hb. split; [by intros [? _]|]. intros Hs. split; [done|].
    apply sat_key in Hs as (me & Hme & Hk). unfold sat, has_key. rewrite Hme, Hk.
    by apply streq_false.
  - intros b [Hb Hnb]. apply Hkp. destruct (decide (b ∈ c)) as [Hbc|]; [right|by left].
    apply dec_stable. intros Hno. by apply Hnb, Hsplit.
  - intros a Ha. assert (a ∈ c) as Hac by (rewrite Hent in Ha; by apply list_elem_of_filter in Ha as [_ ?]).
    assert (mc_heap mc' !! a = None) as Hnone by (apply Hfree; [done|by apply Hsplit]).
    split; [done|]. intros l Hl Hal. destruct (wf_ino _ _ W' l a Hl Hal). congruence.
Qed.

(** C30. Deleting a key none of whose entries is part of a multi-mount: the key is
    not found any more, its entries are freed and off the inode index, every other
    key is found as before with the same contents, and deleting the key again
    changes nothing. *)
Theorem cache_delete_correct mc cs key m :
  wf mc cs ->
  (forall a, a ∈ entries mc cs key -> sat (mc_heap mc) in_mm a = false) ->
  exists mc' cs', cache_delete key mc m = Some (CHE_OK, mc', m) /\ wf mc' cs' /\
    (forall n, cache_lookup_distinct (Some key) mc' n = Some (None, mc', n)) /\
    (forall key' n, key' <> key ->
       cache_lookup_distinct (Some key') mc' n = Some (head (entries mc cs key'), mc', n)) /\
    kept_payload (mc_heap mc) (mc_heap mc') (fun b => b ∈ concat cs /\ b ∉ entries mc cs key) /\
    (forall a, a ∈ entries mc cs key ->
       mc_heap mc' !! a = None /\ forall l, l ∈ mc_ino_index mc' -> a ∉ l) /\
    exists mc'' cs'', cache_delete key mc' m = Some (CHE_OK, mc'', m) /\ wf mc'' cs'' /\
      forall key', entries mc'' cs'' key' = entries mc' cs' key'.
Proof.
  intros W Hmm. destruct (cache_delete_run mc cs key m W Hmm) as (mc' & cs' & Hrun & W' & Hnil & Hoth & Hkp & Hfree).
  destruct (cache_delete_run mc' cs' key m W') as (mc'' & cs'' & Hrun' & W'' & Hnil' & Hoth' & _).
  { intros a. rewrite Hnil. by intros ?%not_elem_of_nil. }
  exists mc', cs'. split_and!; [done..| | |done|done|].
  - intros n. rewrite (lookup_distinct_reads _ _ W' key n). by rewrite Hnil.
  - intros key' n Hne. rewrite (lookup_distinct_reads _ _ W' key' n). by rewrite Hoth.
  - exists mc'', cs''. split_and!; [done..|]. intros key'.
    destruct (decide (key' = key)) as [->|]; [congruence|auto].
Qed.

Lemma cache_delete_correct_witness :
  let cs := [[1%positive; 2%positive]] in
  wf two_keys cs /\
  exists mc' cs', cache_delete (str "k1") two_keys [] = Some (CHE_OK, mc', []) /\ wf mc' cs' /\
    cache_lookup_distinct (Some (str "k1")) mc' [] = Some (None, mc', []) /\
    cache_lookup_distinct (Some (str "k2")) mc' [] = Some (head (entries two_keys cs (str "k2")), mc', []).
Proof.
  split; [apply wf_two_keys|].
  destruct (cache_delete_correct two_keys [[1%positive; 2%positive]] (str "k1") [])
    as (mc' & cs' & Hrun & W' & Hkey & Hoth & _); [apply wf_two_keys| |].
  - intros a Ha. assert (entries two_keys [[1%positive; 2%positive]] (str "k1") = [1%positive]) as E
      by (vm_compute; reflexivity). rewrite E in Ha. apply list_elem_of_singleton in Ha as ->.
    vm_compute. reflexivity.
  - exists mc', cs'. split; [exact Hrun|]. split; [exact W'|]. split; [apply Hkey|].
    apply Hoth. vm_compute. discriminate.
Defined.

(** ** Adding and deleting *)

(** An entry of a key that is not in a multi-mount. *)
Lemma not_in_mm h a me : h !! a = Some me -> me_mm_root me = None -> sat h in_mm a = false.
Proof. intros Ha Hmm. unfold sat, in_mm, IS_MM. rewrite Ha, Hmm. done. Qed.

(** C25. Adding a key the table does not have: [cache_add] fails only when an
    allocation fails, and then changes nothing; otherwise the key is found at a
    new entry with the given contents, every other key is found where it was, no
    other entry is touched, and deleting the key brings back the table. *)
Theorem cache_add_roundtrip mc cs ms key ent age m :
  wf mc cs -> entries mc cs key = [] ->
  exists r mc' m', cache_add ms key ent age mc m = Some (r, mc', m') /\
    (m = [] -> r = CHE_OK) /\
    ((r = CHE_FAIL /\ mc' = mc) \/
     (r = CHE_OK /\ exists a,
        (forall n, cache_lookup_distinct (Some key) mc' n = Some (Some a, mc', n)) /\
        payload <$> mc_heap mc' !! a = Some (new_mapent ms key ent age) /\
        (forall key' n, key' <> key ->
           cache_lookup_distinct (Some key') mc' n = Some (head (entries mc cs key'), mc', n)) /\
        (forall b, b ∈ concat cs -> mc_heap mc' !! b = mc_heap mc !! b) /\
        exists mc'' cs'', cache_delete key mc' m' = Some (CHE_OK, mc'', m') /\ wf mc'' cs'' /\
          forall key', entries mc'' cs'' key' = entries mc cs key')).
Proof.
  intros W Hent. destruct (cache_add_new_run mc cs ms key ent age m W Hent)
    as (r & mc' & m' & Hrun & Hok & Hres). exists r, mc', m'.
  split_and!; [done|by intros ->; apply Hok|]. destruct Hres as [?|(-> & a & cs' & W' & Ha & Hpay & Hoth & Hframe)];
    [by left|right]. split; [done|]. exists a. split_and!; [|done| |done|].
  - intros n. rewrite (lookup_distinct_reads _ _ W' key n). by rewrite Ha.
  - intros key' n Hne. rewrite (lookup_distinct_reads _ _ W' key' n). by rewrite Hoth.
  - destruct (cache_delete_run mc' cs' key m' W') as (mc'' & cs'' & Hdel & W'' & Hnil & Hoth' & _).
    { rewrite Ha. intros b ->%list_elem_of_singleton.
      destruct (mc_heap mc' !! a) as [me|] eqn:E; [|done]. simpl in Hpay. apply (not_in_mm _ _ me E).
      assert (payload me = payload (new_mapent ms key ent age)) as Hp by exact (inj Some _ _ Hpay).
      by apply payload_fields in Hp as [_ ->]. }
    exists mc'', cs''. split_and!; [done..|]. intros key'. destruct (decide (key' = key)) as [->|]; [congruence|].
    by rewrite Hoth', Hoth.
Qed.

Lemma cache_add_roundtrip_witness :
  wf two_keys [[1%positive; 2%positive]] /\
  entries two_keys [[1%positive; 2%positive]] (str "k3") = [] /\
  exists mc' m', cache_add 1 (str "k3") None 11 two_keys [] = Some (CHE_OK, mc', m') /\
    exists a, cache_lookup_distinct (Some (str "k3")) mc' [] = Some (Some a, mc', []).
Proof.
  split; [apply wf_two_keys|]. split; [vm_compute; reflexivity|].
  destruct (cache_add_roundtrip two_keys [[1%positive; 2%positive]] 1 (str "k3") None 11 [])
    as (r & mc' & m' & Hrun & Hok & Hres); [apply wf_two_keys|vm_compute; reflexivity|].
  rewrite (Hok eq_refl) in Hrun, Hres. exists mc', m'. split; [exact Hrun|].
  destruct Hres as [[Hbad _]|(_ & a & Hfind & _)]; [discriminate|]. exists a. apply Hfind.
Defined.

(** ** Enumeration *)

Lemma concat_split (cs : list (list addr)) X a Y :
  concat cs = X ++ a :: Y ->
  exists i l1 l2, cs !! i = Some (l1 ++ a :: l2) /\ Y = l2 ++ concat (drop (S i) cs).
Proof.
  revert X. induction cs as [|c cs IH]; intros X; simpl; [by destruct X|].
  intros [(k & -> & Hk)|(k & -> & Hk)]%app_eq_inv.
  - destruct k as [|b k]; simpl in Hk.
    + destruct (IH [] (eq_sym Hk)) as (i & l1 & l2 & Hi & HY). by exists (S i), l1, l2.
    + injection Hk as <- ->. by exists 0%nat, X, k.
  - destruct (IH k Hk) as (i & l1 & l2 & Hi & HY). by exists (S i), l1, l2.
Qed.

Lemma view_length mc cs : wf mc cs -> (length (concat cs) <= size (mc_heap mc))%nat.
Proof.
  intros W. rewrite <- (size_list_to_set (C := gset addr)) by apply W. rewrite <- size_dom.
  apply subseteq_size. intros a (c & Hc & Ha)%elem_of_list_to_set%elem_of_concat.
  apply elem_of_dom. by eapply wf_live.
Qed.

Lemma lookup_next_reads mc cs i l1 a l2 :
  wf mc cs -> cs !! i = Some (l1 ++ a :: l2) ->
  reads (cache_lookup_next (Some a)) mc
    (ffind (mc_heap mc) primary (l2 ++ concat (drop (S i) cs))).
Proof.
  intros W Hc m. assert (i < Z.to_nat (mc_size mc))%nat as Hi
    by (rewrite <- (wf_len _ _ W); by eapply lookup_lt_Some).
  destruct (wf_live _ _ W (l1 ++ a :: l2) a) as [me Hme];
    [by eapply list_elem_of_lookup_2|set_solver|].
  destruct (wf_next _ _ _ _ _ _ _ W Hc Hme) as [Hch _].
  unfold cache_lookup_next. mread. mread.
  erewrite reads_bind by (apply find_chain_reads; [exact Hch|apply cache_chain_length in Hch; lia]).
  rewrite ffind_app. destruct (ffind _ _ l2); [done|]. mread.
  rewrite (wf_keys _ _ W _ _ a me Hc) by (done || set_solver).
  pose proof (wf_size _ _ W). rewrite u32_small by lia.
  replace (Z.of_nat i + 1) with (Z.of_nat (S i)) by lia.
  destruct (Z.of_nat (S i) <? mc_size mc) eqn:E.
  - rewrite (find_buckets_reads _ _ W) by lia. rewrite (take_ge (drop (S i) cs)); [done|].
    rewrite length_drop, (wf_len _ _ W). lia.
  - boolify. rewrite drop_ge; [done|]. rewrite (wf_len _ _ W). lia.
Qed.

Lemma enumerate_from_reads mc cs fuel Y X :
  wf mc cs -> concat cs = X ++ Y -> (length Y <= fuel)%nat ->
  reads (enumerate_from fuel (ffind (mc_heap mc) primary Y)) mc
    (filter (fun a => sat (mc_heap mc) primary a = true) Y).
Proof.
  intros W. revert Y X. induction fuel as [|fuel IH]; intros Y X HX Hf m.
  { destruct Y; [done|simpl in Hf; lia]. }
  destruct (ffind (mc_heap mc) primary Y) as [a|] eqn:E.
  - apply ffind_split in E as (x & y & -> & Hx & Hs).
    rewrite filter_app, Hx, filter_cons_True by done. simpl.
    rewrite app_assoc in HX. destruct (concat_split _ _ _ _ HX) as (i & l1 & l2 & Hi & ->).
    rewrite (reads_bind _ _ _ _ _ (lookup_next_reads _ _ _ _ _ _ W Hi)).
    erewrite reads_bind; [done|]. apply (IH _ ((X ++ x) ++ [a])).
    + by rewrite <- app_assoc.
    + rewrite length_app in Hf. simpl in Hf. lia.
  - rewrite ffind_filter in E. by destruct (filter _ Y).
Qed.

(** The loop [me = cache_enumerate(mc, NULL); while (me) me =
    cache_enumerate(mc, me)] ends, leaves the cache as it is, and visits every
    primary entry of the table exactly once, in bucket order. *)
Theorem cache_enumerate_complete mc cs m :
  wf mc cs ->
  let visited := filter (fun a => sat (mc_heap mc) primary a = true) (concat cs) in
  enumerate_all mc m = Some (visited, mc, m) /\ NoDup visited /\
  (forall a, a ∈ visited <-> a ∈ concat cs /\ searchable (mc_heap mc) a).
Proof.
  intros W visited. split_and!.
  - unfold enumerate_all. erewrite reads_bind by (by apply lookup_first_reads). mread.
    apply (enumerate_from_reads mc cs _ _ []); [done..|]. pose proof (view_length _ _ W). lia.
  - by apply NoDup_filter, W.
  - intros a. unfold visited, searchable. rewrite list_elem_of_filter. tauto.
Qed.

Lemma cache_enumerate_complete_witness :
  wf two_keys [[1%positive; 2%positive]] /\
  let visited := filter (fun a => sat (mc_heap two_keys) primary a = true)
    (concat [[1%positive; 2%positive]]) in
  enumerate_all two_keys [] = Some (visited, two_keys, []) /\ NoDup visited /\
  (forall a, a ∈ visited <-> a ∈ concat [[1%positive; 2%positive]] /\ searchable (mc_heap two_keys) a).
Proof. split; [apply wf_two_keys|]. apply cache_enumerate_complete, wf_two_keys. Defined.

(** ** The inode index *)

Lemma find_ino_hit mc a l me dev ino m :
  mc_heap mc !! a = Some me -> me_dev me = dev -> me_ino me = ino ->
  find_ino (a :: l) dev ino mc m = Some (Some a, mc, m).
Proof. intros Ha <- <-. simpl. mread. by rewrite !Z.eqb_refl. Qed.

Lemma ino_hash_range dev ino size : 0 < size -> 0 <= ino_hash dev ino size < size.
Proof. intros. by apply Z.mod_pos_bound. Qed.

(** After [cache_set_ino_index] the entry is found by its device and inode
    number, it is on the index once, and the cache stays well formed. *)
Theorem cache_set_ino_index_lookup mc cs a me m :
  wf mc cs -> mc_heap mc !! a = Some me ->
  exists mc', cache_set_ino_index a mc m = Some (1, mc', m) /\ wf mc' cs /\
    mc_heap mc' = mc_heap mc /\
    cache_lookup_ino (me_dev me) (me_ino me) mc' m = Some (Some a, mc', m) /\
    (forall j l, mc_ino_index mc' !! j = Some l -> a ∈ l ->
       Z.of_nat j = ino_hash (me_dev me) (me_ino me) (mc_size mc)).
Proof.
  intros W Ha. unfold cache_set_ino_index. mread. mread. unfold ino_list_del.
  rewrite !bind_modify. eexists. split; [done|].
  pose proof (ino_hash_range (me_dev me) (me_ino me) _ (proj1 (wf_size _ _ W))) as Hr.
  set (h := ino_hash _ _ _) in *. destruct W as [Hs Hl Hil Hch Hnd Hk Hi].
  destruct (lookup_lt_is_Some_2 (mc_ino_index mc) (Z.to_nat h)) as [l0 Hl0]; [rewrite Hil; lia|].
  split_and!; [constructor; try done; simpl|done|..].
  - by rewrite length_alter, length_fmap.
  - intros l b [j Hj]%list_elem_of_lookup Hb. rewrite list_lookup_alter in Hj.
    rewrite !list_lookup_fmap in Hj. case_decide as E.
    + rewrite Hl0 in Hj. injection Hj as <-. apply elem_of_cons in Hb as [->|Hb]; [eauto|].
      apply list_elem_of_filter in Hb as [_ Hb]. eapply Hi; [by eapply list_elem_of_lookup_2|done].
    + destruct (mc_ino_index mc !! j) as [l1|] eqn:El; [|done]. injection Hj as <-.
      apply list_elem_of_filter in Hb as [_ Hb]. eapply Hi; [by eapply list_elem_of_lookup_2|done].
  - unfold cache_lookup_ino. mread. simpl. fold h. rewrite list_lookup_alter, !list_lookup_fmap, Hl0.
    case_decide; [|done]. by eapply find_ino_hit.
  - intros j l. simpl. rewrite list_lookup_alter, !list_lookup_fmap. case_decide; [lia|].
    destruct (mc_ino_index mc !! j); simpl; [|done]. intros [= <-] [? _]%list_elem_of_filter. done.
Qed.

Lemma cache_set_ino_index_lookup_witness :
  wf two_keys [[1%positive; 2%positive]] /\
  exists mc', cache_set_ino_index 2 two_keys [] = Some (1, mc', []) /\
    wf mc' [[1%positive; 2%positive]] /\ mc_heap mc' = mc_heap two_keys /\
    cache_lookup_ino (2 ^ 64 - 1) (2 ^ 64 - 1) mc' [] = Some (Some 2%positive, mc', []) /\
    (forall j l, mc_ino_index mc' !! j = Some l -> 2%positive ∈ l ->
       Z.of_nat j = ino_hash (2 ^ 64 - 1) (2 ^ 64 - 1) 1).
Proof.
  split; [apply wf_two_keys|].
  apply (cache_set_ino_index_lookup two_keys [[1%positive; 2%positive]] 2%positive
    (entry None "k2" "srv:/b") []); [apply wf_two_keys|vm_compute; reflexivity].
Defined.
