(* ===== verification/CacheNegative.v ===== *)
(** * Updates in place, saved entries and the negative cache *)

From S2P Require Import Prelude CString Hash Cache CacheInv CacheOps CacheProps CacheUpdate.

(** ** [cache_update] *)

Lemma find_source_reads mc ms key p l1 a l2 fuel :
  chain (mc_heap mc) p (l1 ++ a :: l2) -> (length l2 < fuel)%nat ->
  sat (mc_heap mc) (has_key key) a = true ->
  (forall b, b ∈ a :: l2 -> sat (mc_heap mc) (has_key key) b = true -> searchable (mc_heap mc) b) ->
  reads (find_source fuel ms (Some a)) mc
    (ffind (mc_heap mc) (of_source ms)
       (a :: filter (fun b => sat (mc_heap mc) (has_key key) b = true) l2)).
Proof.
  revert l1 a l2. induction fuel as [|fuel IH]; intros l1 a l2 Hc Hf Ha Hs m; [lia|].
  destruct (sat_key _ _ _ Ha) as (me & Hme & Hkey). simpl. mread.
  unfold sat at 1. rewrite Hme. unfold of_source at 1.
  destruct (decide (me_source me = ms)) as [He|He];
    [rewrite bool_decide_false, bool_decide_true by auto; done|].
  rewrite bool_decide_true, bool_decide_false by done.
  pose proof (lookup_key_next_reads mc p l1 a l2 me Hc Hme ltac:(apply Hs; [set_solver|done])) as Hn.
  rewrite Hkey in Hn. erewrite reads_bind by exact Hn.
  destruct (ffind (mc_heap mc) (has_key key) l2) as [n|] eqn:E.
  - apply ffind_split in E as (x & y & -> & Hx & Hsn).
    rewrite filter_app, Hx, filter_cons_True, app_nil_l by done.
    apply (IH (l1 ++ a :: x)); [by rewrite <- app_assoc|rewrite length_app in Hf; simpl in Hf; lia|done|].
    intros b Hb. apply Hs. set_solver.
  - rewrite ffind_filter in E. destruct (filter _ l2); [|done]. by destruct fuel.
Qed.

(** The walk over all entries of a key. *)
Lemma find_source_entries mc cs ms key :
  wf mc cs -> (forall b, b ∈ entries mc cs key -> searchable (mc_heap mc) b) ->
  reads (find_source (S (size (mc_heap mc))) ms (head (entries mc cs key))) mc
    (ffind (mc_heap mc) (of_source ms) (entries mc cs key)).
Proof.
  intros W Hs. destruct (wf_key_bucket _ _ W key) as (p & c & _ & Hc & Hch).
  pose proof (entries_bucket _ _ W key c Hc) as Hent.
  rewrite Hent in Hs |- *. rewrite <- ffind_filter.
  destruct (ffind _ _ c) as [f|] eqn:E.
  - apply ffind_split in E as (x & y & -> & Hx & Hf). rewrite filter_app, Hx, filter_cons_True by done.
    apply (find_source_reads mc ms key p x f y); [done| |done|].
    + apply cache_chain_length in Hch. rewrite length_app in Hch. simpl in Hch. lia.
    + intros b Hb Hsb. apply Hs, list_elem_of_filter. set_solver.
  - rewrite ffind_filter in E. by destruct (filter _ c).
Qed.

(** [cache_update] is, when no entry of the key or of the wildcard is
    inside a multi-mount: find the first entry of the key that came from the map
    source [ms] and update it in place, and add a new entry when there is none.
    A wildcard entry found on the way is never taken for the key. *)
Lemma cache_update_run mc cs ms key ent age m :
  wf mc cs ->
  (forall k b, k = key \/ k = STAR -> b ∈ entries mc cs k -> searchable (mc_heap mc) b) ->
  cache_update ms key ent age mc m =
    match ffind (mc_heap mc) (of_source ms) (entries mc cs key) with
    | Some a => update_in_place a ent age mc m
    | None => update_add ms key ent age mc m
    end.
Proof.
  intros W Hs. unfold cache_update. erewrite reads_bind by (by apply cache_lookup_reads). mread.
  unfold lookup_spec.
  pose proof (find_source_entries mc cs ms key W (fun b => Hs key b (or_introl eq_refl))) as Hkey.
  destruct (entries mc cs key) as [|a l] eqn:Ent; cbn [head hd_error].
  - assert (forall o, (o = None \/ o = head (entries mc cs STAR)) ->
      exists r, reads (find_source (S (size (mc_heap mc))) ms o) mc r /\
        forall b, r = Some b -> exists me, mc_heap mc !! b = Some me /\ me_key me = STAR /\ key <> STAR)
      as Hstar.
    { intros o [->| ->]; [by exists None|]. eexists. split.
      { apply find_source_entries; [done|]. intros b. apply Hs. by right. }
      intros b [Hb _]%ffind_Some. pose proof Hb as [_ (me & Hme & Hk)]%elem_of_entries.
      exists me. split_and!; [done..|]. intros ->. by rewrite Ent in Hb; apply not_elem_of_nil in Hb. }
    match goal with |- context [find_source _ _ ?o] => destruct (Hstar o) as (r & Hr & Hrs) end.
    { repeat case_match; auto. }
    rewrite (reads_bind _ _ _ _ _ Hr). destruct r as [b|]; [|done].
    destruct (Hrs b eq_refl) as (me & Hme & Hk & Hne). unfold mbind at 1, M_bind at 1.
    rewrite (reads_bind _ _ _ _ _ (deref_reads _ _ _ Hme)), Hk, streq_refl.
    by rewrite (proj2 (streq_false key STAR)).
  - cbn [head hd_error] in Hkey. rewrite (reads_bind _ _ _ _ _ Hkey).
    destruct (ffind (mc_heap mc) (of_source ms) (a :: l)) as [b|] eqn:Eb; [|done].
    apply ffind_Some in Eb as [Hb _]. rewrite <- Ent in Hb.
    apply elem_of_entries in Hb as [_ (me & Hme & Hk)]. unfold mbind at 1, M_bind at 1.
    rewrite (reads_bind _ _ _ _ _ (deref_reads _ _ _ Hme)), Hk, andb_negb_r. simpl.
    unfold update_in_place. rewrite !(reads_bind _ _ _ _ _ (deref_reads _ _ _ Hme)).
    destruct (me_age me =? age); [done|]. destruct ent as [new|]; [|done].
    destruct (me_mapent me) as [old|]; [|by rewrite bool_decide_false].
    unfold streq. destruct (decide (old = new)) as [->|].
    + by rewrite !bool_decide_true.
    + by rewrite !bool_decide_false by congruence.
Qed.

(** ** The stack of saved map entries *)

Lemma with_heap_id mc a me : mc_heap mc !! a = Some me -> with_heap (<[a := me]> (mc_heap mc)) mc = mc.
Proof. intros Ha. unfold with_heap. rewrite insert_id by done. by destruct mc. Qed.

Lemma pop_saved mc a me s age rest m :
  mc_heap mc !! a = Some me -> me_stack me = Stack (Some s) age :: rest -> me_age me <= age ->
  cache_pop_mapent a mc m =
    Some (CHE_OK, with_heap (<[a := set_mapent (set_stack me rest) (Some s)]> (mc_heap mc)) mc, m).
Proof.
  intros Ha Hst Hage. unfold cache_pop_mapent. mread. rewrite Hst.
  erewrite bind_store by done. rewrite (proj2 (Z.ltb_ge _ _)) by done.
  erewrite bind_store by (apply lookup_insert_eq). unfold with_heap. simpl.
  by rewrite insert_insert_eq.
Qed.

(** [cache_push_mapent] fails, without effect, on an entry without a map
    entry and when memory runs out; otherwise it installs the new map entry, and
    [cache_pop_mapent] afterwards restores the cache exactly. *)
Theorem cache_push_pop mc a me ent m :
  mc_heap mc !! a = Some me ->
  exists r mc1 m1, cache_push_mapent a ent mc m = Some (r, mc1, m1) /\
    ((r = CHE_FAIL /\ mc1 = mc /\ (me_mapent me = None \/ m <> [])) \/
     (r = CHE_OK /\ is_Some (me_mapent me) /\
      me_mapent <$> mc_heap mc1 !! a = Some ent /\
      cache_pop_mapent a mc1 m1 = Some (CHE_OK, mc, m1))).
Proof.
  intros Ha. unfold cache_push_mapent. mread. destruct (me_mapent me) as [old|] eqn:Eold;
    [|exists CHE_FAIL, mc, m; split; [done|]; left; auto].
  assert (forall m', exists r mc1 m1,
    (malloc ≫= fun ok => if negb ok then mret CHE_FAIL
       else store a (fun me => set_stack (set_mapent me ent)
              (Stack (Some old) (me_age me) :: me_stack me));; mret CHE_OK) mc m'
      = Some (r, mc1, m1) /\
    ((r = CHE_FAIL /\ mc1 = mc /\ m' <> []) \/
     (r = CHE_OK /\ me_mapent <$> mc_heap mc1 !! a = Some ent /\
      cache_pop_mapent a mc1 m1 = Some (CHE_OK, mc, m1)))) as Hsecond.
  { intros m'. match goal with |- context [(malloc ≫= ?k) mc m'] =>
      destruct (bind_malloc k mc m') as (b & m1 & -> & Hb) end.
    destruct b; simpl; [|exists CHE_FAIL, mc, m1; split; [done|]; left; split_and!; [done..|];
      intros ->; by destruct (Hb eq_refl)].
    rewrite (bind_store a me) by done. do 3 eexists. split; [done|]. right.
    split; [done|]. simpl. rewrite lookup_insert_eq. split; [done|].
    erewrite pop_saved by (apply lookup_insert_eq || done). simpl.
    rewrite !insert_insert_eq. unfold with_heap. simpl.
    replace (set_mapent _ _) with me by (destruct me; simpl in *; by subst).
    rewrite insert_id by done. by destruct mc. }
  destruct ent as [s|].
  - match goal with |- context [(malloc ≫= ?k) mc m] =>
      destruct (bind_malloc k mc m) as (b & m1 & -> & Hb) end.
    destruct b; simpl.
    + destruct (Hsecond m1) as (r & mc1 & m2 & -> & [(-> & -> & Hm)|(-> & ? & ?)]);
        do 3 eexists; (split; [done|]); [left|right; split_and!; [done|by eexists|done|done]].
      split_and!; [done..|]. right. intros ->. by destruct (Hb eq_refl).
    + exists CHE_FAIL, mc, m1. split; [done|]. left. split_and!; [done..|]. right.
      intros ->. by destruct (Hb eq_refl).
  - rewrite bind_ret_l. simpl.
    destruct (Hsecond m) as (r & mc1 & m2 & -> & [(-> & -> & Hm)|(-> & ? & ?)]);
      do 3 eexists; (split; [done|]); [left; split_and!; [done..|by right]|right; split_and!; [done|by eexists|done|done]].
Qed.

Lemma cache_push_pop_witness :
  mc_heap two_keys !! 1%positive = Some (entry (Some 2%positive) "k1" "srv:/a") /\
  exists r mc1 m1, cache_push_mapent 1 None two_keys [] = Some (r, mc1, m1) /\
    ((r = CHE_FAIL /\ mc1 = two_keys /\
      (me_mapent (entry (Some 2%positive) "k1" "srv:/a") = None \/ @nil bool <> [])) \/
     (r = CHE_OK /\ is_Some (me_mapent (entry (Some 2%positive) "k1" "srv:/a")) /\
      me_mapent <$> mc_heap mc1 !! 1%positive = Some None /\
      cache_pop_mapent 1 mc1 m1 = Some (CHE_OK, two_keys, m1))).
Proof. split; [vm_compute; reflexivity|]. apply cache_push_pop. vm_compute. reflexivity. Defined.

(** ** Negative entries *)

(** The entry of a key while a lookup failure for it is remembered. *)
Definition negative_entry (me : mapent) (old : cstring) (until : Z) : mapent :=
  set_status (set_stack (set_mapent me None) (Stack (Some old) (me_age me) :: me_stack me)) until.

Lemma update_negative_known mc cs a me old key ms now timeout :
  wf mc cs -> head (entries mc cs key) = Some a -> mc_heap mc !! a = Some me ->
  me_mapent me = Some old -> key <> STAR ->
  cache_update_negative now ms key timeout mc [] =
    Some ((), with_heap (<[a := negative_entry me old (now + timeout)]> (mc_heap mc)) mc, []).
Proof.
  intros W Hh Ha Hold Hne. unfold cache_update_negative.
  assert ((strlen key =? 1) && (hd_char key =a "*") = false) as ->.
  { destruct (_ && _) eqn:E; [|done]. boolify. unfold strlen in *. exfalso. apply Hne.
    destruct key as [|c [|d key]]; simpl in *; [lia| |lia]. unfold hd_char in *. simpl in *. by subst. }
  erewrite reads_bind by (by apply lookup_distinct_reads). rewrite Hh.
  unfold mbind at 1, M_bind at 1, cache_push_mapent. mread. rewrite Hold. simpl.
  rewrite bind_ret_l. simpl. unfold malloc at 1, mbind at 1, M_bind at 1. simpl.
  rewrite (bind_store a me) by done. unfold mret at 1, M_ret at 1. simpl.
  set (me1 := set_stack _ _). set (mc1 := with_heap _ mc).
  assert (wf mc1 cs) as W1 by (by apply (wf_update mc cs a me)).
  assert (entries mc1 cs key = entries mc cs key) as Hent by (by apply (entries_update mc cs a me)).
  erewrite reads_bind by (by apply lookup_distinct_reads). rewrite Hent, Hh.
  unfold store. simpl. rewrite lookup_insert_eq. unfold mc1, with_heap. simpl.
  by rewrite insert_insert_eq.
Qed.

(** A lookup failure recorded with [cache_update_negative] for a key whose
    first entry has a map entry: until the timeout [cache_lookup_negative]
    reports the key unavailable and changes nothing; after it, when nothing
    else touches the cache in between, the saved map entry is back and only the
    time of the failure remains. *)
Theorem negative_entry_expires mc cs a me old key ms now timeout t :
  wf mc cs -> head (entries mc cs key) = Some a -> mc_heap mc !! a = Some me ->
  me_mapent me = Some old -> key <> STAR ->
  exists mc1, cache_update_negative now ms key timeout mc [] = Some ((), mc1, []) /\ wf mc1 cs /\
    (t <= now + timeout ->
       cache_lookup_negative t (mret ()) a key mc1 [] = Some (CHE_UNAVAIL, mc1, [])) /\
    (now + timeout < t ->
       cache_lookup_negative t (mret ()) a key mc1 [] =
         Some (CHE_OK, with_heap (<[a := set_status me (now + timeout)]> (mc_heap mc)) mc, [])).
Proof.
  intros W Hh Ha Hold Hne. eexists. split; [by eapply update_negative_known|].
  set (neg := negative_entry me old (now + timeout)). set (mc1 := with_heap _ mc).
  assert (wf mc1 cs) as W1 by (by apply (wf_update mc cs a me)).
  assert (mc_heap mc1 !! a = Some neg) as Ha1 by apply lookup_insert_eq.
  assert (head (entries mc1 cs key) = Some a) as Hh1
    by (by unfold mc1; rewrite (entries_update mc cs a me)).
  split; [done|]. split; intros Ht; unfold cache_lookup_negative; mread; simpl.
  { by rewrite (proj2 (Z.leb_le _ _)). }
  rewrite (proj2 (Z.leb_gt _ _)) by done. rewrite bind_ret_l.
  rewrite (reads_bind _ _ _ _ _ (find_key_reads _ _ W1 key)), Hh1. mread. simpl.
  erewrite bind_some by (by eapply pop_saved). simpl. unfold with_heap. simpl.
  rewrite insert_insert_eq. do 4 f_equal. destruct me. simpl in *. by subst.
Qed.

Lemma negative_entry_expires_witness :
  (wf two_keys [[1%positive; 2%positive]] /\
   head (entries two_keys [[1%positive; 2%positive]] (str "k2")) = Some 2%positive) /\
  exists mc1, cache_update_negative 100 1 (str "k2") 60 two_keys [] = Some ((), mc1, []) /\
    wf mc1 [[1%positive; 2%positive]] /\
    (200 <= 100 + 60 -> cache_lookup_negative 200 (mret ()) 2 (str "k2") mc1 [] =
       Some (CHE_UNAVAIL, mc1, [])) /\
    (100 + 60 < 200 -> cache_lookup_negative 200 (mret ()) 2 (str "k2") mc1 [] =
       Some (CHE_OK, with_heap (<[2%positive := set_status (entry None "k2" "srv:/b") (100 + 60)]>
               (mc_heap two_keys)) two_keys, [])).
Proof.
  split; [split; [apply wf_two_keys|vm_compute; reflexivity]|].
  apply (negative_entry_expires two_keys [[1%positive; 2%positive]] 2%positive
    (entry None "k2" "srv:/b") (str "srv:/b"));
    [apply wf_two_keys|vm_compute; reflexivity..|vm_compute; discriminate].
Defined.
