(* ===== verification/CacheMap.v ===== *)
(** * The cache of a map source implements a finite map

    A client of the map entry cache with one map source, an indirect map without
    multi-mount entries, needs no more of it than a finite map from keys to map
    entries and their ages. [Implements] is this promise; the cache is an instance
    of it, and what follows for a sequence of operations is proved from the
    promise alone. *)

From S2P Require Import Prelude CString Hash Cache CacheInv CacheOps CacheProps CacheUpdate CacheNegative.

(** ** The interface *)

Abbreviation table := (gmap cstring (option cstring * Z)).

Inductive op :=
| Update (key : cstring) (ent : option cstring) (age : Z)
| Delete (key : cstring)
| Find (key : cstring)
| Lookup (key : cstring).

Inductive result := Code (r : Z) | Found (e : option (option cstring * Z)).

(** The operations on the finite map; [ok] says whether there is memory. *)
Definition table_op (ok : bool) (o : op) (t : table) : result * table :=
  match o with
  | Update key ent age =>
      match t !! key with
      | None => if ok then (Code CHE_UPDATED, <[key := (ent, age)]> t) else (Code CHE_FAIL, t)
      | Some (old, seen) =>
          if seen =? age then (Code CHE_OK, t)
          else
            match ent with
            | None => (Code CHE_OK, <[key := (None, age)]> t)
            | Some _ =>
                if bool_decide (old = ent) then (Code CHE_OK, <[key := (ent, age)]> t)
                else if ok then (Code CHE_UPDATED, <[key := (ent, age)]> t) else (Code CHE_FAIL, t)
            end
      end
  | Delete key => (Code CHE_OK, delete key t)
  | Find key => (Found (t !! key), t)
  | Lookup key => (Found (match t !! key with Some e => Some e | None => t !! STAR end), t)
  end.

(** The keys of an indirect map are not absolute. *)
Definition relative (key : cstring) : Prop := (hd_char key =a "/") = false.

Definition op_ok (o : op) : Prop :=
  match o with Update key _ _ => relative key | _ => True end.

(** [run] implements the operations on the states that represent a table. *)
Class Implements {S} (run : op -> M S result) (rep : S -> table -> Prop) : Prop :=
  implements o s t m : rep s t -> op_ok o ->
    exists ok s' m', run o s m = Some (fst (table_op ok o t), s', m') /\
      rep s' (snd (table_op ok o t)) /\ (m = [] -> ok = true /\ m' = []).

(** ** The clients of the interface *)

Fixpoint run_all {S} (run : op -> M S result) (ops : list op) : M S (list result) :=
  match ops with
  | [] => mret []
  | o :: ops' => r ← run o; rs ← run_all run ops'; mret (r :: rs)
  end.

(** The same on the table; [oks] says which operations have memory. *)
Fixpoint table_all (oks : list bool) (ops : list op) (t : table) : list result * table :=
  match ops with
  | [] => ([], t)
  | o :: ops' =>
      let '(r, t') := table_op (default true (head oks)) o t in
      let '(rs, t'') := table_all (tail oks) ops' t' in (r :: rs, t'')
  end.

(** Reading a map: each line updates its key, with the time of the reading. *)
Definition read_map (age : Z) (lines : list (cstring * cstring)) : list op :=
  (fun l => Update (fst l) (Some (snd l)) age) <$> lines.

(** The first line of a key. *)
Fixpoint first_line (lines : list (cstring * cstring)) (key : cstring) : option cstring :=
  match lines with
  | [] => None
  | (k, e) :: lines' => if bool_decide (k = key) then Some e else first_line lines' key
  end.

Section Client.
Context {S : Type} (run : op -> M S result) (rep : S -> table -> Prop) `{!Implements run rep}.

Lemma run_all_refines ops : forall s t m,
  rep s t -> Forall op_ok ops ->
  exists oks s' m', run_all run ops s m = Some (fst (table_all oks ops t), s', m') /\
    rep s' (snd (table_all oks ops t)) /\ (m = [] -> oks = [] /\ m' = []).
Proof.
  induction ops as [|o ops IH]; intros s t m Hrep Hok; [by exists [], s, m|].
  apply Forall_cons in Hok as [Ho Hok].
  destruct (implements o s t m Hrep Ho) as (ok & s1 & m1 & Hrun & Hrep1 & Hm1).
  destruct (IH s1 _ m1 Hrep1 Hok) as (oks & s2 & m2 & Hrun2 & Hrep2 & Hm2).
  exists (match m with [] => [] | _ => ok :: oks end), s2, m2. simpl.
  rewrite (bind_some _ _ _ _ _ _ _ Hrun), (bind_some _ _ _ _ _ _ _ Hrun2).
  assert (m = [] -> ok = true /\ oks = [] /\ m2 = []) as Hm.
  { intros E. destruct (Hm1 E) as [-> E1]. by destruct (Hm2 E1). }
  assert (default true (head (match m with [] => [] | _ => ok :: oks end)) = ok /\
    tail (match m with [] => [] | _ => ok :: oks end) = oks) as [-> ->].
  { destruct m; [|done]. by destruct (Hm eq_refl) as (-> & -> & _). }
  destruct (table_op ok o t) as [r t1]. simpl in *. destruct (table_all oks ops t1) as [rs t2].
  split_and!; [done..|]. intros ->. by destruct (Hm eq_refl) as (_ & _ & ->).
Qed.

End Client.

(** What a key has after the lines of a map have been read at the time [age]: an
    entry that was already seen at this time stays, otherwise the first line of the
    key counts, and a key without a line keeps what it had. *)
Definition after_read (age : Z) (lines : list (cstring * cstring)) (old : option (option cstring * Z))
    (key : cstring) : option (option cstring * Z) :=
  if match old with Some (_, seen) => seen =? age | None => false end then old
  else match first_line lines key with Some e => Some (Some e, age) | None => old end.

Lemma table_read_map age lines : forall (t : table) key,
  snd (table_all [] (read_map age lines) t) !! key = after_read age lines (t !! key) key.
Proof.
  unfold after_read. induction lines as [|[k e] lines IH]; intros t key.
  { simpl. by destruct (t !! key) as [[? seen]|]; [destruct (seen =? age)|]. }
  cbn [read_map fmap list_fmap table_all head tail default fst snd]. fold (read_map age lines).
  destruct (table_op true (Update k (Some e) age) t) as [r t1] eqn:E.
  specialize (IH t1 key). destruct (table_all [] (read_map age lines) t1) as [rs t2]. cbn [snd] in *.
  rewrite IH. clear IH. cbn [first_line]. case_bool_decide as Hk.
  - subst k. cbn [table_op] in E. destruct (t !! key) as [[old seen]|] eqn:Et; [|].
    + destruct (seen =? age) eqn:Es; [simplify_eq; by rewrite Et, Es|].
      assert (t1 = <[key := (Some e, age)]> t) as -> by (case_bool_decide; congruence).
      by rewrite lookup_insert_eq, Z.eqb_refl.
    + simplify_eq. by rewrite lookup_insert_eq, Z.eqb_refl.
  - assert (t1 !! key = t !! key) as ->; [|done]. cbn [table_op] in E.
    destruct (t !! k) as [[old seen]|]; repeat case_match; simplify_eq; try done; by rewrite lookup_insert_ne.
Qed.

(** ** The map entry cache *)

Definition contents (p : option addr) : CM result :=
  match p with
  | None => mret (Found None)
  | Some a => e ← deref a; mret (Found (Some (me_mapent e, me_age e)))
  end.

Definition cache_op (ms : addr) (o : op) : CM result :=
  match o with
  | Update key ent age => r ← cache_update ms key ent age; mret (Code r)
  | Delete key => r ← cache_delete key; mret (Code r)
  | Find key => p ← cache_lookup_distinct (Some key); contents p
  | Lookup key => p ← cache_lookup (Some key); contents p
  end.

(** An entry of the source [ms] outside of multi-mounts, without a descriptor, with these
    contents. *)
Definition holds (ms : addr) (x : option cstring * Z) (me : mapent) : Prop :=
  (me_mapent me, me_age me) = x /\ me_source me = ms /\ me_mm_root me = None /\ me_ioctlfd me = -1.

(** What the cache has for a key. *)
Definition rep_entry (ms : addr) (mc : mapent_cache) (cs : list (list addr)) (key : cstring)
    (x : option (option cstring * Z)) : Prop :=
  match x with
  | None => entries mc cs key = []
  | Some x => exists a me, entries mc cs key = [a] /\ mc_heap mc !! a = Some me /\ holds ms x me
  end.

Definition represents (ms : addr) (mc : mapent_cache) (t : table) : Prop :=
  exists cs, wf mc cs /\ (forall key, rep_entry ms mc cs key (t !! key)) /\
    (forall key, is_Some (t !! key) -> relative key).

Lemma payload_holds ms x me me' : payload me' = payload me -> holds ms x me -> holds ms x me'.
Proof. destruct me, me'. unfold payload, holds. simpl. intros [=]. naive_solver. Qed.

(** The entries of a key are kept. *)
Lemma rep_entry_keep ms mc cs mc' cs' key x :
  rep_entry ms mc cs key x -> entries mc' cs' key = entries mc cs key ->
  kept_payload (mc_heap mc) (mc_heap mc') (fun b => b ∈ entries mc cs key) ->
  rep_entry ms mc' cs' key x.
Proof.
  destruct x as [x|]; simpl; [|by intros -> ->]. intros (a & me & Ha & Hme & Hx) Hent Hk.
  destruct (kept_payload_lookup _ _ _ a me Hk) as (me' & Hme' & Hp); [rewrite Ha; set_solver|done|].
  exists a, me'. rewrite Hent. split_and!; [done..|]. by eapply payload_holds.
Qed.

Section Cache.
Context (ms : addr) (mc : mapent_cache) (t : table) (cs : list (list addr)).
Context (W : wf mc cs) (Hrep : forall key, rep_entry ms mc cs key (t !! key)).
Context (Hrel : forall key, is_Some (t !! key) -> relative key).

(** Every entry of the table is one of a key that the map has. *)
Lemma rep_cell a : a ∈ concat cs -> exists me x,
  mc_heap mc !! a = Some me /\ t !! me_key me = Some x /\ me_mm_root me = None.
Proof using W Hrep.
  intros Ha. pose proof Ha as (c & Hc & Hac)%elem_of_concat.
  destruct (wf_live _ _ W c a Hc Hac) as [me Hme]. exists me.
  assert (a ∈ entries mc cs (me_key me)) as Hin by (apply elem_of_entries; eauto).
  specialize (Hrep (me_key me)). destruct (t !! me_key me) as [x|]; simpl in Hrep.
  - destruct Hrep as (b & me' & Hb & Hme' & _ & _ & Hmm & _). rewrite Hb in Hin.
    apply list_elem_of_singleton in Hin as ->. exists x. simplify_eq. done.
  - rewrite Hrep in Hin. by apply not_elem_of_nil in Hin.
Qed.

Lemma rep_searchable key b : b ∈ entries mc cs key -> searchable (mc_heap mc) b.
Proof using W Hrep.
  intros [Hb _]%elem_of_entries. destruct (rep_cell b Hb) as (me & x & Hme & _ & Hmm).
  unfold searchable, sat, primary, IS_MM. by rewrite Hme, Hmm.
Qed.

(** The contents of the first entry of a key. *)
Lemma contents_head key m : contents (head (entries mc cs key)) mc m = Some (Found (t !! key), mc, m).
Proof using Hrep.
  specialize (Hrep key). destruct (t !! key) as [x|]; simpl in Hrep; [|by rewrite Hrep].
  destruct Hrep as (a & me & -> & Hme & <- & _). simpl. by mread.
Qed.

Lemma lookup_spec_map key m :
  contents (lookup_spec mc cs key) mc m =
    Some (Found (match t !! key with Some e => Some e | None => t !! STAR end), mc, m).
Proof using W Hrep Hrel.
  unfold lookup_spec. pose proof (contents_head key m) as Hkey. pose proof (contents_head STAR m) as Hstar.
  pose proof (Hrep key) as He. destruct (t !! key) as [x|]; simpl in He.
  { destruct He as (a & me & Ha & _). by rewrite Ha in Hkey |- *. }
  rewrite He. cbn [head hd_error].
  destruct (ffind (mc_heap mc) primary (concat cs)) as [f|] eqn:E.
  - apply ffind_Some in E as [Hf _]. destruct (rep_cell f Hf) as (me & x & Hme & Ht & _).
    unfold sat. rewrite Hme, (Hrel (me_key me)) by eauto. done.
  - assert (entries mc cs STAR = []) as Hnil.
    { destruct (entries mc cs STAR) as [|b l] eqn:Eb; [done|].
      assert (b ∈ entries mc cs STAR) as Hb by (rewrite Eb; set_solver).
      pose proof (rep_searchable _ _ Hb) as Hs. apply elem_of_entries in Hb as [Hb _].
      rewrite ffind_None in E. unfold searchable in Hs. by rewrite E in Hs. }
    by rewrite Hnil in Hstar.
Qed.

(** Changing the entry of a key in place. *)
Lemma represents_store key a me me' x :
  entries mc cs key = [a] -> mc_heap mc !! a = Some me -> is_Some (t !! key) ->
  me_next me' = me_next me -> me_key me' = me_key me -> holds ms x me' ->
  represents ms (with_heap (<[a := me']> (mc_heap mc)) mc) (<[key := x]> t).
Proof using W Hrep Hrel.
  intros Ha Hme Hkey Hn Hk Hx. exists cs. split; [by eapply wf_update|]. split.
  - intros key'. destruct (decide (key' = key)) as [->|Hne].
    + rewrite lookup_insert_eq. exists a, me'. rewrite (entries_update _ _ _ me), Ha by done.
      simpl. by rewrite lookup_insert_eq.
    + rewrite lookup_insert_ne by done. apply (rep_entry_keep ms mc cs); [done|by eapply entries_update|].
      intros b Hb. simpl. rewrite lookup_insert_ne; [done|]. intros ->.
      apply elem_of_entries in Hb as [_ (mb & Hmb & <-)].
      assert (b ∈ entries mc cs key) as Hb by (rewrite Ha; set_solver).
      apply elem_of_entries in Hb as [_ (mb' & Hmb' & <-)]. congruence.
  - intros key'. rewrite lookup_insert_is_Some. intros [<-|[_ ?]]; auto.
Qed.

End Cache.

(** Adding a key. *)
Lemma update_missing ms mc t key ent age m :
  represents ms mc t -> t !! key = None -> relative key ->
  exists (ok : bool) mc' m', cache_update ms key ent age mc m =
      Some (if ok then CHE_UPDATED else CHE_FAIL, mc', m') /\
    represents ms mc' (if ok then <[key := (ent, age)]> t else t) /\ (m = [] -> ok = true /\ m' = []).
Proof.
  intros (cs & W & Hrep & Hrel) Ht Hr.
  rewrite (cache_update_run mc cs) by (try done; intros k b _ Hb; by eapply rep_searchable).
  pose proof (Hrep key) as He. rewrite Ht in He. simpl in He. rewrite He. cbn [ffind].
  destruct (cache_add_new_run mc cs ms key ent age m W He) as (r & mc' & m' & Hrun & Hok & Hres).
  unfold update_add. rewrite (bind_some _ _ _ _ _ _ _ Hrun).
  destruct Hres as [[-> ->]|(-> & a & cs' & W' & Ha & Hpay & Hoth & Hframe)].
  - exists false, mc, m'. split_and!; [done|by exists cs|]. by intros [? _]%Hok.
  - exists true, mc', m'. split_and!; [done| |by intros [_ ->]%Hok].
    exists cs'. split; [done|]. split.
    + intros key'. destruct (decide (key' = key)) as [->|Hne].
      * rewrite lookup_insert_eq. destruct (mc_heap mc' !! a) as [me|] eqn:E; [|done].
        exists a, me. split_and!; [done..|]. apply (inj Some) in Hpay.
        by apply (payload_holds ms _ (new_mapent ms key ent age)).
      * rewrite lookup_insert_ne by done. apply (rep_entry_keep ms mc cs); [done|by apply Hoth|].
        intros b [Hb _]%elem_of_entries. by rewrite Hframe.
    + intros key'. rewrite lookup_insert_is_Some. intros [<-|[_ ?]]; auto.
Qed.

(** Updating the entry of a key in place. *)
Lemma update_known ms mc t key old seen ent age m :
  represents ms mc t -> t !! key = Some (old, seen) ->
  exists ok mc' m', cache_op ms (Update key ent age) mc m =
      Some (fst (table_op ok (Update key ent age) t), mc', m') /\
    represents ms mc' (snd (table_op ok (Update key ent age) t)) /\ (m = [] -> ok = true /\ m' = []).
Proof.
  intros HR Ht. pose proof HR as (cs & W & Hrep & Hrel). cbn [cache_op table_op]. rewrite Ht.
  unfold mbind at 1, M_bind at 1.
  rewrite (cache_update_run mc cs) by (try done; intros k b _ Hb; by eapply rep_searchable).
  pose proof (Hrep key) as He. rewrite Ht in He. destruct He as (a & me & He & Hme & Hval & Hsrc & Hmm & Hfd).
  injection Hval as Hold Hseen. rewrite He. cbn [ffind]. unfold sat, of_source. rewrite Hme, bool_decide_true by done.
  unfold update_in_place. mread. rewrite Hseen.
  assert (forall me' x, me_next me' = me_next me -> me_key me' = me_key me -> holds ms x me' ->
    represents ms (with_heap (<[a := me']> (mc_heap mc)) mc) (<[key := x]> t)) as Hst.
  { intros me' x. eapply represents_store; eauto. }
  destruct (seen =? age); [by exists true, mc, m|].
  destruct ent as [new|]; [|exists true; do 2 eexists; rewrite (bind_store a me) by done; split_and!; [done|by apply Hst|done]].
  rewrite Hold. case_bool_decide as Heq.
  - exists true. do 2 eexists. rewrite (bind_store a me) by done. split_and!; [done| |done].
    apply Hst; [done..|]. by rewrite <- Heq, <- Hold.
  - match goal with |- context [(malloc ≫= ?k) mc m] => destruct (bind_malloc k mc m) as (b & m' & Hb & Hm) end.
    rewrite Hb. clear Hb. destruct b; cbn [negb].
    + exists true. do 2 eexists. rewrite (bind_store a me) by done. split_and!; [done|by apply Hst|].
      by intros [_ ->]%Hm.
    + exists false, mc, m'. split_and!; [done..|]. by intros [? _]%Hm.
Qed.

(** Deleting a key. *)
Lemma delete_key ms mc t key m :
  represents ms mc t ->
  exists mc', cache_delete key mc m = Some (CHE_OK, mc', m) /\ represents ms mc' (delete key t).
Proof.
  intros (cs & W & Hrep & Hrel).
  destruct (cache_delete_run mc cs key m W) as (mc' & cs' & Hrun & W' & Hnil & Hoth & Hkp & _).
  { intros a [Ha _]%elem_of_entries. destruct (rep_cell ms mc t cs W Hrep a Ha) as (me & x & Hme & _ & Hmm).
    by eapply not_in_mm. }
  exists mc'. split; [done|]. exists cs'. split; [done|]. split.
  - intros key'. destruct (decide (key' = key)) as [->|Hne]; [by rewrite lookup_delete_eq|].
    rewrite lookup_delete_ne by done. apply (rep_entry_keep ms mc cs); [done|by apply Hoth|].
    intros b Hb. apply Hkp. apply elem_of_entries in Hb as [Hb (me & Hme & <-)]. split; [done|].
    intros [_ (me' & Hme' & ?)]%elem_of_entries. congruence.
  - intros key'. rewrite lookup_delete_is_Some. intros [_ ?]. auto.
Qed.

(** The cache keeps the promise. *)
#[global] Instance cache_implements ms : Implements (cache_op ms) (represents ms).
Proof.
  intros [key ent age|key|key|key] mc t m HR Ho.
  - destruct (t !! key) as [[old seen]|] eqn:Ht; [by eapply update_known|].
    destruct (update_missing ms mc t key ent age m HR Ht Ho) as (ok & mc' & m' & Hrun & HR' & Hm).
    exists ok, mc', m'. cbn [cache_op table_op]. rewrite Ht, (bind_some _ _ _ _ _ _ _ Hrun).
    by destruct ok.
  - destruct (delete_key ms mc t key m HR) as (mc' & Hrun & HR').
    exists true, mc', m. cbn [cache_op table_op]. by rewrite (bind_some _ _ _ _ _ _ _ Hrun).
  - pose proof HR as (cs & W & Hrep & _). exists true, mc, m. cbn [cache_op table_op].
    rewrite (reads_bind _ _ _ _ _ (lookup_distinct_reads mc cs W key)).
    by rewrite (contents_head ms mc t cs Hrep).
  - pose proof HR as (cs & W & Hrep & Hrel). exists true, mc, m. cbn [cache_op table_op].
    rewrite (reads_bind _ _ _ _ _ (cache_lookup_reads mc cs key W)).
    by rewrite (lookup_spec_map ms mc t cs W Hrep Hrel).
Qed.

(** A new cache represents the empty table. *)
Lemma cache_init_represents ms size m mc m' :
  0 < size <= 2 ^ 32 - 1 -> cache_init None size m = Some (Some mc, m') -> represents ms mc ∅.
Proof.
  intros Hs [= H]. destruct (cache_alloc_wf size m mc m' Hs H) as [W _].
  exists (replicate (Z.to_nat size) []). split; [done|]. split.
  - intros key. rewrite lookup_empty. simpl. unfold entries. by rewrite concat_replicate_nil.
  - intros key. rewrite lookup_empty. by intros [? ?].
Qed.

(** ** Properties *)

(** C3. The cache of a map source implements a finite map: in every run of updates,
    deletions and lookups of an indirect map, from [cache_init] on and whatever
    allocations fail, every operation returns what it returns on a finite map from
    keys to map entries and ages, where an update that fails for want of memory
    changes nothing; and no update fails when there is memory. *)
Theorem cache_refines_map ms size ops m mc m1 :
  0 < size <= 2 ^ 32 - 1 -> cache_init None size m = Some (Some mc, m1) -> Forall op_ok ops ->
  exists oks mc' m', run_all (cache_op ms) ops mc m1 = Some (fst (table_all oks ops ∅), mc', m') /\
    represents ms mc' (snd (table_all oks ops ∅)) /\ (m1 = [] -> oks = []).
Proof.
  intros Hs Hinit Hops.
  destruct (run_all_refines (cache_op ms) (represents ms) ops mc ∅ m1) as (oks & mc' & m' & Hrun & HR & Hm).
  - by eapply cache_init_represents.
  - done.
  - exists oks, mc', m'. split_and!; [done..|]. intros E. by destruct (Hm E).
Qed.

Lemma cache_refines_map_witness :
  exists mc m1 oks mc' m', cache_init None 8 [] = Some (Some mc, m1) /\
    run_all (cache_op 1) [Update (str "a") (Some (str "srv:/a")) 1; Lookup (str "b")] mc m1
    = Some (fst (table_all oks [Update (str "a") (Some (str "srv:/a")) 1; Lookup (str "b")] ∅), mc', m').
Proof.
  do 2 eexists. destruct (cache_refines_map 1 8 [Update (str "a") (Some (str "srv:/a")) 1; Lookup (str "b")] []
    (MC 8 (replicate 8 None) (replicate 8 []) ∅) []) as (oks & mc' & m' & Hrun & _).
  - lia.
  - reflexivity.
  - repeat constructor.
  - exists oks, mc', m'. split; [reflexivity|exact Hrun].
Defined.

(** Reading a map into the cache with [cache_update], at a time at which it has
    not been read before, gives every key that has a line in the map the contents of
    its first line and the time of the reading, so that of several lines of a key the
    first one counts, and leaves the other keys as they were, with the time of an
    earlier reading by which they can be recognised. *)
Theorem read_map_first_line ms mc t age lines :
  represents ms mc t -> (forall key e seen, t !! key = Some (e, seen) -> seen <> age) ->
  Forall (fun l => relative (fst l)) lines ->
  exists rs mc', run_all (cache_op ms) (read_map age lines) mc [] = Some (rs, mc', []) /\
    forall key, cache_op ms (Find key) mc' [] =
      Some (Found (match first_line lines key with Some e => Some (Some e, age) | None => t !! key end), mc', []).
Proof.
  intros HR Hold Hlines.
  destruct (run_all_refines (cache_op ms) (represents ms) (read_map age lines) mc t []) as (oks & mc' & m' & Hrun & HR' & Hm).
  - done.
  - apply Forall_fmap. eapply Forall_impl; [exact Hlines|]. by intros [k e].
  - destruct (Hm eq_refl) as [-> ->]. do 2 eexists. split; [done|]. intros key.
    destruct HR' as (cs & W & Hrep & _). cbn [cache_op].
    rewrite (reads_bind _ _ _ _ _ (lookup_distinct_reads mc' cs W key)), (contents_head ms mc' _ cs Hrep).
    rewrite table_read_map. unfold after_read. specialize (Hold key).
    destruct (t !! key) as [[e seen]|]; [|done]. by rewrite (proj2 (Z.eqb_neq _ _)) by eauto.
Qed.

Lemma read_map_first_line_witness :
  let mc := MC 8 (replicate 8 None) (replicate 8 []) ∅ in
  let lines := [(str "a", str "srv:/1"); (str "b", str "srv:/2"); (str "a", str "srv:/3")] in
  exists rs mc', run_all (cache_op 1) (read_map 5 lines) mc [] = Some (rs, mc', []) /\
    cache_op 1 (Find (str "a")) mc' [] = Some (Found (Some (Some (str "srv:/1"), 5)), mc', []).
Proof.
  intros mc lines. destruct (read_map_first_line 1 mc ∅ 5 lines) as (rs & mc' & Hrun & Hfind).
  - apply (cache_init_represents 1 8 [] mc []); [lia|reflexivity].
  - intros key e seen. rewrite lookup_empty. discriminate.
  - repeat constructor.
  - exists rs, mc'. split; [exact Hrun|]. exact (Hfind (str "a")).
Defined.
