(* ===== verification/Alarm.v ===== *)
(** * The alarm queue (lib/alarm.c)

    The list of pending alarms, ordered by time, the functions that add and
    cancel alarms, and the alarm thread. Every function runs with the alarm
    mutex held, so each is one atomic step on the list; signalling the condition
    variable is the boolean a function returns. Autofs mount points are
    identified by a positive number, as pointers are. *)

From S2P Require Import Prelude.
From Stdlib Require Import Sorted.

Abbreviation ap_id := positive.

Record alarm := Alarm { a_time : Z; a_cancel : bool; a_ap : ap_id }.

(** ** Operations *)

(** The loop of [__alarm_add]: the new alarm goes before the first alarm that
    is not earlier. *)
Fixpoint alarm_insert (new : alarm) (l : list alarm) : list alarm :=
  match l with
  | [] => [new]
  | this :: l' =>
      if a_time new <=? a_time this then new :: this :: l' else this :: alarm_insert new l'
  end.

(** [__alarm_add]: the status it returns, the list, and whether the alarm thread
    is woken. [ok] is the outcome of the allocation. *)
Definition __alarm_add (now : Z) (ok : bool) (ap : ap_id) (seconds : Z) (alarms : list alarm) :
  Z * list alarm * bool :=
  if seconds =? 0 then (1, alarms, false)
  else if negb ok then (0, alarms, false)
  else
    let new := Alarm (now + seconds) false ap in
    let '(next_alarm, empty) :=
      match alarms with [] => (0, true) | current :: _ => (a_time current, false) end in
    (1, alarm_insert new alarms, empty || (a_time new <? next_alarm)).

Definition alarm_add (now : Z) (ok : bool) (ap : ap_id) (seconds : Z) (alarms : list alarm) :
  Z * list alarm * bool :=
  __alarm_add now ok ap seconds alarms.

Definition __alarm_exists (ap : ap_id) (alarms : list alarm) : bool :=
  existsb (fun this => bool_decide (ap = a_ap this)) alarms.

(** [alarm_delete]: the alarms of [ap] are removed, except that the first of the
    list, which the alarm thread may be waiting for, is marked as cancelled. *)
Definition alarm_delete (ap : ap_id) (alarms : list alarm) : list alarm * bool :=
  match alarms with
  | [] => ([], false)
  | current :: l =>
      let rest := filter (fun this => ap <> a_ap this) l in
      if bool_decide (ap = a_ap current)
      then (Alarm 0 true (a_ap current) :: rest, true)
      else (current :: rest, false)
  end.

(** [conditional_alarm_add]; [submount] is [ap->submount] and [has_mounts] the
    answer of [mnts_has_mounted_mounts]. *)
Definition conditional_alarm_add (submount has_mounts : bool) (now : Z) (ok : bool) (ap : ap_id)
    (seconds : Z) (alarms : list alarm) : Z * list alarm * bool :=
  if submount then (1, alarms, false)
  else if negb has_mounts then (1, alarms, false)
  else if __alarm_exists ap alarms then (1, alarms, false)
  else __alarm_add now ok ap seconds alarms.

(** What one round of the loop of the alarm thread does. *)
Inductive alarm_action :=
| AlarmWait                    (* no alarms: wait for the condition *)
| AlarmWaitUntil (t : Z)       (* wait for the condition or the time *)
| AlarmFire (ap : ap_id)       (* [st_add_task(ap, ST_EXPIRE)] *)
| AlarmDrop.                   (* a cancelled alarm is freed *)

(** One round of the loop of [alarm_handler] at the time [now]. *)
Definition alarm_handler (now : Z) (alarms : list alarm) : list alarm * alarm_action :=
  match alarms with
  | [] => ([], AlarmWait)
  | first :: l =>
      if now <? a_time first then (alarms, AlarmWaitUntil (a_time first))
      else (l, if a_cancel first then AlarmDrop else AlarmFire (a_ap first))
  end.

(** The rounds of the handler at a fixed time until it waits: the mount points
    whose expire task it adds. *)
Fixpoint alarm_drain (fuel : nat) (now : Z) (alarms : list alarm) : list ap_id * list alarm :=
  match fuel with
  | O => ([], alarms)
  | S fuel' =>
      match alarm_handler now alarms with
      | (l, AlarmFire ap) => let '(fired, l') := alarm_drain fuel' now l in (ap :: fired, l')
      | (l, AlarmDrop) => alarm_drain fuel' now l
      | (l, _) => ([], l)
      end
  end.

(** ** The interleavings of the threads *)

Inductive alarm_event :=
| EvAdd (now : Z) (ok : bool) (ap : ap_id) (seconds : Z)
| EvCondAdd (submount has_mounts : bool) (now : Z) (ok : bool) (ap : ap_id) (seconds : Z)
| EvDelete (ap : ap_id)
| EvHandler (now : Z) (act : alarm_action).

(** One critical section of some thread. *)
Inductive alarm_step : list alarm -> alarm_event -> list alarm -> Prop :=
| step_add now ok ap seconds l r l' s :
    alarm_add now ok ap seconds l = (r, l', s) -> alarm_step l (EvAdd now ok ap seconds) l'
| step_cond_add sub has now ok ap seconds l r l' s :
    conditional_alarm_add sub has now ok ap seconds l = (r, l', s) ->
    alarm_step l (EvCondAdd sub has now ok ap seconds) l'
| step_delete ap l l' s :
    alarm_delete ap l = (l', s) -> alarm_step l (EvDelete ap) l'
| step_handler now l l' act :
    alarm_handler now l = (l', act) -> alarm_step l (EvHandler now act) l'.

Inductive alarm_run : list alarm -> list alarm_event -> list alarm -> Prop :=
| run_nil l : alarm_run l [] l
| run_cons l e l' es l'' : alarm_step l e l' -> alarm_run l' es l'' -> alarm_run l (e :: es) l''.

(** Times of the monotonic clock and delays are not negative. *)
Definition event_ok (e : alarm_event) : Prop :=
  match e with
  | EvAdd now _ _ seconds | EvCondAdd _ _ now _ _ seconds => 0 <= now /\ 0 <= seconds
  | _ => True
  end.

(** An event that gives [ap] a new alarm. *)
Definition adds_alarm (ap : ap_id) (e : alarm_event) : Prop :=
  match e with
  | EvAdd _ _ ap' _ | EvCondAdd _ _ _ _ ap' _ => ap' = ap
  | _ => False
  end.

Definition alarm_le (x y : alarm) : Prop := a_time x <= a_time y.

(** The invariant of the list: ordered by time, no time before the epoch. *)
Definition alarms_ok (l : list alarm) : Prop :=
  StronglySorted alarm_le l /\ Forall (fun a => 0 <= a_time a) l.

(** ** Lemmas *)

Lemma alarm_insert_perm new l : alarm_insert new l ≡ₚ new :: l.
Proof.
  induction l as [|x l IH]; simpl; [done|]. destruct (_ <=? _); [done|].
  rewrite IH. apply perm_swap.
Qed.

Lemma alarm_insert_sorted new l : StronglySorted alarm_le l -> StronglySorted alarm_le (alarm_insert new l).
Proof.
  induction 1 as [|x l Hs IH Hx]; simpl; [by repeat constructor|].
  destruct (a_time new <=? a_time x) eqn:E; boolify.
  - constructor; [by constructor|]. constructor; [done|].
    eapply Forall_impl; [exact Hx|]. unfold alarm_le. intros y ?. lia.
  - constructor; [done|]. rewrite alarm_insert_perm. constructor; [|done]. unfold alarm_le. lia.
Qed.

Lemma alarms_ok_add now ok ap seconds l :
  0 <= now -> 0 <= seconds -> alarms_ok l -> alarms_ok (snd (fst (__alarm_add now ok ap seconds l))).
Proof.
  intros Hn Hs [Hsort Hpos]. unfold __alarm_add.
  destruct (seconds =? 0); [done|]. destruct ok; [|done]. simpl.
  assert (alarms_ok (alarm_insert (Alarm (now + seconds) false ap) l)) as Hok.
  { split; [by apply alarm_insert_sorted|]. rewrite alarm_insert_perm. constructor; [simpl; lia|done]. }
  by destruct l.
Qed.

Lemma alarms_ok_filter (P : alarm -> Prop) `{!forall x, Decision (P x)} x l :
  alarms_ok (x :: l) -> alarms_ok (x :: filter P l).
Proof.
  intros [Hs Hp]. inversion Hs as [|? ? Hs' Hx]; inversion Hp; subst. split.
  - constructor; [|by apply Forall_filter]. clear -Hs'.
    induction Hs' as [|y l Hs IH Hy]; [constructor|]. rewrite filter_cons. case_decide; [|done].
    constructor; [done|]. by apply Forall_filter.
  - constructor; [done|]. by apply Forall_filter.
Qed.

Lemma alarms_ok_delete ap l : alarms_ok l -> alarms_ok (fst (alarm_delete ap l)).
Proof.
  intros H. destruct l as [|x l]; [done|]. simpl.
  destruct (bool_decide _); simpl; [|by apply alarms_ok_filter].
  apply alarms_ok_filter. destruct H as [Hs Hp]. inversion Hs; inversion Hp; subst.
  split; by constructor.
Qed.

Lemma alarms_ok_handler now l : alarms_ok l -> alarms_ok (fst (alarm_handler now l)).
Proof.
  intros [Hs Hp]. destruct l as [|x l]; [done|]. simpl. destruct (now <? a_time x); [done|].
  inversion Hs; inversion Hp; subst. done.
Qed.

Lemma alarms_ok_step l e l' : alarm_step l e l' -> event_ok e -> alarms_ok l -> alarms_ok l'.
Proof.
  intros Hstep He Hok. destruct Hstep as [now ok ap s l r l' sg H|sub has now ok ap s l r l' sg H|
    ap l l' sg H|now l l' act H]; simpl in He.
  - pose proof (alarms_ok_add now ok ap s l) as Ha. unfold alarm_add in H. rewrite H in Ha.
    destruct He. by apply Ha.
  - unfold conditional_alarm_add in H. destruct sub; [by simplify_eq|].
    destruct has; [|by simplify_eq/=]. simpl in H. destruct (__alarm_exists ap l); [by simplify_eq|].
    pose proof (alarms_ok_add now ok ap s l) as Ha. rewrite H in Ha. destruct He. by apply Ha.
  - pose proof (alarms_ok_delete ap l Hok) as Hd. by rewrite H in Hd.
  - pose proof (alarms_ok_handler now l Hok) as Hd. by rewrite H in Hd.
Qed.

(** No live alarm of a mount point is in the list. *)
Definition no_live_alarm (ap : ap_id) (l : list alarm) : Prop :=
  Forall (fun a => a_ap a = ap -> a_cancel a = true) l.

Lemma no_live_delete ap l : no_live_alarm ap (fst (alarm_delete ap l)).
Proof.
  destruct l as [|x l]; [constructor|]. simpl.
  assert (no_live_alarm ap (filter (fun this => ap <> a_ap this) l)) as Hl.
  { apply Forall_forall. intros a [Hne _]%list_elem_of_filter ?. congruence. }
  case_bool_decide; constructor; simpl; try done; congruence.
Qed.

Lemma no_live_insert ap new l :
  a_ap new <> ap -> no_live_alarm ap l -> no_live_alarm ap (alarm_insert new l).
Proof. intros Hn Hl. unfold no_live_alarm. rewrite alarm_insert_perm. by constructor. Qed.

Lemma no_live_add now ok ap' seconds ap l :
  ap' <> ap -> no_live_alarm ap l -> no_live_alarm ap (snd (fst (__alarm_add now ok ap' seconds l))).
Proof.
  intros Hne Hl. unfold __alarm_add. destruct (seconds =? 0); [done|]. destruct ok; [|done].
  pose proof (no_live_insert ap (Alarm (now + seconds) false ap') l Hne Hl). by destruct l.
Qed.

Lemma no_live_step ap l e l' :
  alarm_step l e l' -> ~ adds_alarm ap e -> no_live_alarm ap l ->
  no_live_alarm ap l' /\ forall now, e <> EvHandler now (AlarmFire ap).
Proof.
  intros Hstep Hne Hl. destruct Hstep as [now ok ap' s l r l' sg H|sub has now ok ap' s l r l' sg H|
    ap' l l' sg H|now l l' act H]; simpl in Hne; (split; [|try done]).
  - pose proof (no_live_add now ok ap' s ap l Hne Hl) as Ha. unfold alarm_add in H. by rewrite H in Ha.
  - unfold conditional_alarm_add in H. destruct sub; [by simplify_eq|].
    destruct has; [|by simplify_eq/=]. simpl in H. destruct (__alarm_exists ap' l); [by simplify_eq|].
    pose proof (no_live_add now ok ap' s ap l Hne Hl) as Ha. by rewrite H in Ha.
  - destruct l as [|x l]; simpl in H; [by simplify_eq|]. inversion Hl; subst.
    assert (no_live_alarm ap (filter (fun this => ap' <> a_ap this) l)) by (by apply Forall_filter).
    case_bool_decide; simplify_eq; by constructor.
  - destruct l as [|x l]; simpl in H; [by simplify_eq|]. inversion Hl; subst.
    destruct (now <? a_time x); by simplify_eq/=.
  - intros now'. destruct l as [|x l]; simpl in H; [by simplify_eq|]. inversion Hl as [|? ? Hx _]; subst.
    destruct (now <? a_time x); simplify_eq; [done|]. destruct (a_cancel x) eqn:E; [done|].
    intros [= _ Hap]. specialize (Hx Hap). congruence.
Qed.

(** ** Properties *)

(** In every interleaving of the threads the alarm list stays ordered by
    time and free of negative times. *)
Theorem alarms_sorted_reachable es l l' :
  alarm_run l es l' -> Forall event_ok es -> alarms_ok l -> alarms_ok l'.
Proof.
  induction 1 as [|l e l1 es l2 Hstep Hrun IH]; intros Hev Hok; [done|].
  inversion Hev; subst. apply IH; [done|]. by eapply alarms_ok_step.
Qed.

(** [alarm_add] inserts exactly the new alarm into the list, and unless it
    wakes the alarm thread the time that thread waits for, that of the first
    alarm, is unchanged: no wake-up is lost. *)
Theorem alarm_add_wakeup now ap seconds l r l' signal :
  seconds <> 0 -> alarm_add now true ap seconds l = (r, l', signal) ->
  r = 1 /\ l' ≡ₚ Alarm (now + seconds) false ap :: l /\
  (signal = false -> exists x y, head l = Some x /\ head l' = Some y /\ a_time y = a_time x) /\
  (signal = true -> head l' = Some (Alarm (now + seconds) false ap)).
Proof.
  intros Hs. unfold alarm_add, __alarm_add. rewrite (proj2 (Z.eqb_neq _ _)) by done. simpl.
  destruct l as [|x l]; simpl.
  - intros [= <- <- <-]. split_and!; done.
  - intros [= <- <- <-]. split; [done|]. split; [apply (alarm_insert_perm (Alarm (now + seconds) false ap) (x :: l))|].
    destruct (now + seconds <=? a_time x) eqn:E, (now + seconds <? a_time x) eqn:E2; boolify;
      simpl; split; intros ?; try done; try lia; do 2 eexists; (split; [done|]); split; try done; simpl; lia.
Qed.

Lemma alarm_add_wakeup_witness :
  exists l' signal, alarm_add 100 true 7 60 [Alarm 150 false 3; Alarm 200 false 4] = (1, l', signal) /\
  (1 = 1 /\ l' ≡ₚ Alarm (100 + 60) false 7 :: [Alarm 150 false 3; Alarm 200 false 4] /\
  (signal = false -> exists x y, head [Alarm 150 false 3; Alarm 200 false 4] = Some x /\
     head l' = Some y /\ a_time y = a_time x) /\
  (signal = true -> head l' = Some (Alarm (100 + 60) false 7))).
Proof.
  do 2 eexists. split; [reflexivity|].
  apply (alarm_add_wakeup 100 7 60 [Alarm 150 false 3; Alarm 200 false 4]); [lia|reflexivity].
Defined.

Lemma alarms_sorted_reachable_witness :
  alarms_ok [] /\
  exists l', alarm_run [] [EvAdd 10 true 1 5; EvAdd 11 true 2 1; EvHandler 12 (AlarmFire 2)] l' /\
    alarms_ok l'.
Proof.
  split; [by repeat constructor|]. eexists.
  assert (alarm_run [] [EvAdd 10 true 1 5; EvAdd 11 true 2 1; EvHandler 12 (AlarmFire 2)]
    [Alarm 15 false 1]) as Hrun.
  { eapply run_cons; [by eapply step_add|]. eapply run_cons; [by eapply step_add|].
    eapply run_cons; [by eapply step_handler|]. apply run_nil. }
  split; [exact Hrun|]. eapply alarms_sorted_reachable; [exact Hrun| |by repeat constructor].
  repeat constructor; simpl; lia.
Defined.

(** C38. At a time [now] the alarm thread, before it waits again, runs the
    expire tasks of exactly the alarms that are due and not cancelled, in the
    order of their times, and what stays on the list is not due: it needs as
    many rounds as there are alarms. *)
Theorem alarm_drain_complete now l :
  alarms_ok l ->
  alarm_drain (S (length l)) now l =
    (a_ap <$> filter (fun a => a_time a <= now /\ a_cancel a = false) l,
     filter (fun a => now < a_time a) l).
Proof.
  intros [Hs _]. induction Hs as [|x l Hs IH Hx]; [done|].
  change (length (x :: l)) with (S (length l)). revert IH. generalize (S (length l)) as n.
  intros n IH. cbn [alarm_drain alarm_handler].
  rewrite !filter_cons. destruct (now <? a_time x) eqn:E; boolify.
  - rewrite decide_False by lia. rewrite decide_True by lia.
    rewrite (filter_none _ l), (filter_all _ l); [done|..];
      intros y Hy; rewrite Forall_forall in Hx; specialize (Hx y Hy); unfold alarm_le in Hx; lia.
  - rewrite (decide_False (P := now < a_time x)) by lia. destruct (a_cancel x) eqn:Ec.
    + rewrite decide_False by (intros [? ?]; congruence). apply IH.
    + rewrite decide_True by done. rewrite IH. done.
Qed.

Lemma alarm_drain_complete_witness :
  let l := [Alarm 0 true 5; Alarm 12 false 2; Alarm 15 false 1; Alarm 90 false 3] in
  alarms_ok l /\
  alarm_drain (S (length l)) 20 l =
    (a_ap <$> filter (fun a => a_time a <= 20 /\ a_cancel a = false) l,
     filter (fun a => 20 < a_time a) l).
Proof.
  intros l. assert (alarms_ok l) as Hok.
  { split; repeat constructor; unfold alarm_le; simpl; lia. }
  split; [exact Hok|]. by apply alarm_drain_complete.
Defined.

(** After [alarm_delete] of a mount point no later round of the alarm
    thread adds an expire task for it, whatever the other threads do, as long
    as nobody adds a new alarm for it. *)
Theorem alarm_delete_no_fire ap l l0 signal es l' :
  alarm_delete ap l = (l0, signal) -> alarm_run l0 es l' ->
  Forall (fun e => ~ adds_alarm ap e) es ->
  Forall (fun e => forall now, e <> EvHandler now (AlarmFire ap)) es.
Proof.
  intros Hdel Hrun Hno. assert (no_live_alarm ap l0) as Hl0.
  { pose proof (no_live_delete ap l) as H. by rewrite Hdel in H. }
  clear Hdel. induction Hrun as [|l1 e l2 es l3 Hstep Hrun IH]; [constructor|].
  inversion Hno as [|? ? He Hes]; subst. destruct (no_live_step ap l1 e l2 Hstep He Hl0) as [Hl2 Hfire].
  constructor; [done|]. by apply IH.
Qed.

Lemma alarm_delete_no_fire_witness :
  exists l0 signal es l',
    alarm_delete 1 [Alarm 15 false 1; Alarm 16 false 2; Alarm 17 false 1] = (l0, signal) /\
    alarm_run l0 es l' /\ length es = 2%nat /\
    Forall (fun e => forall now, e <> EvHandler now (AlarmFire 1)) es.
Proof.
  exists [Alarm 0 true 1; Alarm 16 false 2], true, [EvHandler 20 AlarmDrop; EvHandler 20 (AlarmFire 2)], [].
  assert (alarm_delete 1 [Alarm 15 false 1; Alarm 16 false 2; Alarm 17 false 1] =
    ([Alarm 0 true 1; Alarm 16 false 2], true)) as Hdel by reflexivity.
  assert (alarm_run [Alarm 0 true 1; Alarm 16 false 2]
    [EvHandler 20 AlarmDrop; EvHandler 20 (AlarmFire 2)] []) as Hrun.
  { eapply run_cons; [by eapply step_handler|]. eapply run_cons; [by eapply step_handler|]. constructor. }
  split; [exact Hdel|]. split; [exact Hrun|]. split; [reflexivity|].
  eapply alarm_delete_no_fire; [exact Hdel|exact Hrun|]. repeat constructor; intros H; exact H.
Defined.
