(* ===== verification/StateQueue.v ===== *)
(** * The state machine and its task queue (daemon/state.c)

    Each autofs mount point has a state; requests for state changes are tasks on
    the state queue, at most one active task per mount point with a list of
    pending tasks behind it. The queue handler thread starts tasks, each of
    which runs in a worker thread that reports back when it ends. Every function
    below runs with the state mutex held, so each is one atomic step.

    [assert] of include/log.h only writes a message to the log: [w_asserts]
    collects the source lines of the assertions that failed. The allocator of
    the monad also gives the outcomes of [pthread_create]. *)

From S2P Require Import Prelude Alarm.

(** ** Data *)

Inductive states :=
| ST_ANY | ST_INVAL | ST_INIT | ST_READY | ST_EXPIRE | ST_PRUNE | ST_READMAP
| ST_SHUTDOWN_PENDING | ST_SHUTDOWN_FORCE | ST_SHUTDOWN.

#[global] Instance states_eq_dec : EqDecision states.
Proof. solve_decision. Defined.

(** The part of [struct autofs_point] the state machine uses; a thread id is 0
    when there is no thread. *)
Record autofs_point := AP {
  ap_state : states;
  ap_shutdown : bool;
  ap_submount : bool;
  ap_exp_thread : Z;
  ap_readmap_thread : Z;
  ap_exp_runfreq : Z
}.

Definition set_state (s : states) (p : autofs_point) : autofs_point :=
  AP s (ap_shutdown p) (ap_submount p) (ap_exp_thread p) (ap_readmap_thread p) (ap_exp_runfreq p).
Definition set_exp_thread (t : Z) (p : autofs_point) : autofs_point :=
  AP (ap_state p) (ap_shutdown p) (ap_submount p) t (ap_readmap_thread p) (ap_exp_runfreq p).
Definition set_readmap_thread (t : Z) (p : autofs_point) : autofs_point :=
  AP (ap_state p) (ap_shutdown p) (ap_submount p) (ap_exp_thread p) t (ap_exp_runfreq p).

(** [struct state_queue]. A pending task is a newly allocated one, so its state
    says all about it. *)
Record task := Task {
  t_thid : Z;
  t_ap : ap_id;
  t_state : states;
  t_busy : bool;
  t_done : bool;
  t_cancel : bool;
  t_pending : list states
}.

Definition set_thid (i : Z) (t : task) : task :=
  Task i (t_ap t) (t_state t) (t_busy t) (t_done t) (t_cancel t) (t_pending t).
Definition set_busy (t : task) : task :=
  Task (t_thid t) (t_ap t) (t_state t) true (t_done t) (t_cancel t) (t_pending t).
Definition set_done (t : task) : task :=
  Task (t_thid t) (t_ap t) (t_state t) (t_busy t) true (t_cancel t) (t_pending t).
Definition set_cancel (b : bool) (t : task) : task :=
  Task (t_thid t) (t_ap t) (t_state t) (t_busy t) (t_done t) b (t_pending t).
Definition set_pending (l : list states) (t : task) : task :=
  Task (t_thid t) (t_ap t) (t_state t) (t_busy t) (t_done t) (t_cancel t) l.

(** Where the queue handler thread is: waiting for the queue to become non
    empty, or waiting for a signal with tasks on the queue. *)
Inductive phase := Idle | Watching.

(** The worker threads of the daemon that have been created and have not ended. *)
Inductive worker := Expire | Readmap.

Record thread := Thread { th_id : Z; th_ap : ap_id; th_kind : worker }.

Record world := World {
  w_aps : gmap ap_id autofs_point;
  w_queue : list task;
  w_signaled : bool;
  w_alarms : list alarm;
  w_next_thid : Z;
  w_threads : list thread;
  w_kills : list ap_id;          (* mount points whose thread was sent SIGCONT *)
  w_cancels : list Z;            (* threads that were cancelled *)
  w_asserts : list Z;            (* lines of failed assertions *)
  w_phase : phase
}.

Definition with_aps (f : gmap ap_id autofs_point -> gmap ap_id autofs_point) (w : world) : world :=
  World (f (w_aps w)) (w_queue w) (w_signaled w) (w_alarms w) (w_next_thid w) (w_threads w) (w_kills w)
    (w_cancels w) (w_asserts w) (w_phase w).
Definition with_queue (f : list task -> list task) (w : world) : world :=
  World (w_aps w) (f (w_queue w)) (w_signaled w) (w_alarms w) (w_next_thid w) (w_threads w) (w_kills w)
    (w_cancels w) (w_asserts w) (w_phase w).
Definition with_signaled (b : bool) (w : world) : world :=
  World (w_aps w) (w_queue w) b (w_alarms w) (w_next_thid w) (w_threads w) (w_kills w)
    (w_cancels w) (w_asserts w) (w_phase w).
Definition with_alarms (l : list alarm) (w : world) : world :=
  World (w_aps w) (w_queue w) (w_signaled w) l (w_next_thid w) (w_threads w) (w_kills w)
    (w_cancels w) (w_asserts w) (w_phase w).
Definition with_thid (i : Z) (w : world) : world :=
  World (w_aps w) (w_queue w) (w_signaled w) (w_alarms w) i (w_threads w) (w_kills w)
    (w_cancels w) (w_asserts w) (w_phase w).
Definition with_threads (f : list thread -> list thread) (w : world) : world :=
  World (w_aps w) (w_queue w) (w_signaled w) (w_alarms w) (w_next_thid w) (f (w_threads w)) (w_kills w)
    (w_cancels w) (w_asserts w) (w_phase w).
Definition with_kill (a : ap_id) (w : world) : world :=
  World (w_aps w) (w_queue w) (w_signaled w) (w_alarms w) (w_next_thid w) (w_threads w) (a :: w_kills w)
    (w_cancels w) (w_asserts w) (w_phase w).
Definition with_cancel (i : Z) (w : world) : world :=
  World (w_aps w) (w_queue w) (w_signaled w) (w_alarms w) (w_next_thid w) (w_threads w) (w_kills w)
    (i :: w_cancels w) (w_asserts w) (w_phase w).
Definition with_assert (n : Z) (w : world) : world :=
  World (w_aps w) (w_queue w) (w_signaled w) (w_alarms w) (w_next_thid w) (w_threads w) (w_kills w)
    (w_cancels w) (n :: w_asserts w) (w_phase w).
Definition with_phase (ph : phase) (w : world) : world :=
  World (w_aps w) (w_queue w) (w_signaled w) (w_alarms w) (w_next_thid w) (w_threads w) (w_kills w)
    (w_cancels w) (w_asserts w) ph.

Abbreviation WM := (M world).

Definition get_ap (ap : ap_id) : WM autofs_point := fun w m =>
  match w_aps w !! ap with
  | Some p => Some (p, w, m)
  | None => None
  end.

Definition upd_ap (ap : ap_id) (f : autofs_point -> autofs_point) : WM unit :=
  modify (with_aps (alter f ap)).

(** [assert]: a message when the condition does not hold. *)
Definition assert_line (line : Z) (b : bool) : WM unit :=
  if b then mret () else modify (with_assert line).

Definition signal : WM unit := modify (with_signaled true).

(** Change the first task of a mount point. *)
Fixpoint update_first (ap : ap_id) (f : task -> task) (q : list task) : list task :=
  match q with
  | [] => []
  | t :: q' => if bool_decide (t_ap t = ap) then f t :: q' else t :: update_first ap f q'
  end.

(** The first task of a mount point. *)
Fixpoint first_task (ap : ap_id) (q : list task) : option task :=
  match q with
  | [] => None
  | t :: q' => if bool_decide (t_ap t = ap) then Some t else first_task ap q'
  end.

Definition new_task (ap : ap_id) (s : states) : task := Task 0 ap s false false false [].

Definition is_state (s : states) (l : list states) : bool := bool_decide (s ∈ l).

(** ** Operations *)

Section Ops.

(** The time, whether a mount point has mounts (of lib/mounts.c), and whether the
    daemon is built with [ENABLE_IGNORE_BUSY_MOUNTS]. *)
Context (now : Z) (has_mounts : ap_id -> bool) (ignore_busy_mounts : bool).

(** [conditional_alarm_add(ap, ap->exp_runfreq)]. *)
Definition add_alarm (ap : ap_id) : WM unit :=
  p ← get_ap ap;
  w ← get_state;
  ok ← (if ap_submount p || negb (has_mounts ap) || __alarm_exists ap (w_alarms w)
           || (ap_exp_runfreq p =? 0)
        then mret true else malloc);
  let '(_, alarms, _) :=
    conditional_alarm_add (ap_submount p) (has_mounts ap) now ok ap (ap_exp_runfreq p) (w_alarms w) in
  modify (with_alarms alarms).

Definition st_ready (ap : ap_id) : WM Z :=
  upd_ap ap (fun p => AP ST_READY false (ap_submount p) (ap_exp_thread p) (ap_readmap_thread p)
                        (ap_exp_runfreq p));;
  mret 1.

Definition st_set_thid (ap : ap_id) (thid : Z) : WM unit :=
  modify (with_queue (update_first ap (set_thid thid))).

Definition st_set_done (ap : ap_id) : WM unit :=
  modify (with_queue (update_first ap set_done)).

(** A new thread: [None] when it cannot be created. *)
Definition pthread_create (ap : ap_id) (kind : worker) : WM (option Z) :=
  ok ← malloc;
  if negb ok then mret None
  else
    w ← get_state;
    modify (with_thid (w_next_thid w + 1));;
    modify (with_threads (cons (Thread (w_next_thid w) ap kind)));;
    mret (Some (w_next_thid w)).

(** The end of a thread. *)
Definition pthread_exit (th : thread) : WM unit :=
  modify (with_threads (filter (fun t => th_id t <> th_id th))).

Inductive expire := EXP_ERROR | EXP_STARTED | EXP_PARTIAL.

Definition expire_proc (ap : ap_id) : WM expire :=
  p ← get_ap ap;
  assert_line 219 (ap_exp_thread p =? 0);;
  ok ← malloc;
  if negb ok then mret EXP_ERROR
  else
    thid ← pthread_create ap Expire;
    match thid with
    | None => mret EXP_ERROR
    | Some thid =>
        upd_ap ap (set_exp_thread thid);;
        st_set_thid ap thid;;
        mret EXP_STARTED
    end.

(** The common part of the tasks that expire mounts: assert the states they may
    start from, enter the new state and start the expire thread. *)
Definition start_expire (line : Z) (from : list states) (to : states) (ap : ap_id) : WM Z :=
  p ← get_ap ap;
  assert_line line (is_state (ap_state p) from);;
  upd_ap ap (set_state to);;
  exp ← expire_proc ap;
  match exp with
  | EXP_ERROR | EXP_PARTIAL => add_alarm ap;; st_ready ap;; mret 0
  | EXP_STARTED => mret 1
  end.

Definition st_prepare_shutdown (ap : ap_id) : WM Z :=
  start_expire 578 [ST_READY; ST_EXPIRE] ST_SHUTDOWN_PENDING ap.

Definition st_force_shutdown (ap : ap_id) : WM Z :=
  start_expire 603 [ST_READY; ST_EXPIRE] ST_SHUTDOWN_FORCE ap.

Definition st_prune (ap : ap_id) : WM Z := start_expire 642 [ST_READY] ST_PRUNE ap.

Definition st_expire (ap : ap_id) : WM Z := start_expire 662 [ST_READY] ST_EXPIRE ap.

Definition st_readmap (ap : ap_id) : WM Z :=
  p ← get_ap ap;
  assert_line 516 (is_state (ap_state p) [ST_READY]);;
  assert_line 517 (ap_readmap_thread p =? 0);;
  upd_ap ap (set_state ST_READMAP);;
  ok ← malloc;
  if negb ok then st_ready ap;; add_alarm ap;; mret 0
  else
    thid ← pthread_create ap Readmap;
    match thid with
    | None => st_ready ap;; add_alarm ap;; mret 0
    | Some thid =>
        upd_ap ap (set_readmap_thread thid);;
        st_set_thid ap thid;;
        mret 1
    end.

Definition st_shutdown (ap : ap_id) : WM Z :=
  p ← get_ap ap;
  assert_line 628 (is_state (ap_state p) [ST_SHUTDOWN_PENDING; ST_SHUTDOWN_FORCE]);;
  upd_ap ap (set_state ST_SHUTDOWN);;
  modify (with_kill ap);;
  mret 0.

(** [st_alloc_task]: a task, or [None] without memory. *)
Definition st_alloc_task (ap : ap_id) (s : states) : WM (option task) :=
  ok ← malloc;
  if negb ok then mret None else mret (Some (new_task ap s)).

(** Append a newly allocated task to the pending tasks of the task of [ap]. *)
Definition add_pending (ap : ap_id) (s : states) : WM unit :=
  new ← st_alloc_task ap s;
  match new with
  | None => mret ()
  | Some n =>
      modify (with_queue (update_first ap (fun t => set_pending (t_pending t ++ [t_state n]) t)))
  end.

Definition __st_add_task (ap : ap_id) (state : states) : WM Z :=
  if bool_decide (state = ST_READY) then st_ready ap;; signal;; mret 1
  else
    p ← get_ap ap;
    if bool_decide (ap_state p = ST_SHUTDOWN) then mret 1
    else if bool_decide (state = ST_SHUTDOWN) then st_shutdown ap
    else
      w ← get_state;
      let closing := is_state (ap_state p) [ST_SHUTDOWN_PENDING; ST_SHUTDOWN_FORCE] in
      (match first_task ap (w_queue w) with
       | Some t =>
           if (bool_decide (t_state t = state) && negb (t_done t)) || closing then mret ()
           else if bool_decide (t_pending t = []) then add_pending ap state
           else if existsb (fun s => bool_decide (s = state) || closing) (t_pending t) then mret ()
           else add_pending ap state
       | None =>
           new ← st_alloc_task ap state;
           match new with
           | None => mret ()
           | Some n => modify (with_queue (cons n))
           end
       end);;
      signal;;
      mret 1.

Definition st_add_task (ap : ap_id) (state : states) : WM Z := __st_add_task ap state.

(** The effect of [st_remove_tasks] on one task of the mount point. *)
Definition remove_from (t : task) : task :=
  let t := if t_busy t && is_state (t_state t) [ST_EXPIRE; ST_PRUNE; ST_READMAP]
           then set_cancel true t else t in
  set_pending (filter (fun s => is_state s [ST_SHUTDOWN_PENDING; ST_SHUTDOWN_FORCE] = true)
                 (t_pending t)) t.

Definition st_remove_tasks (ap : ap_id) : WM unit :=
  w ← get_state;
  if bool_decide (w_queue w = []) then mret ()
  else
    modify (with_queue (fmap (fun t => if bool_decide (t_ap t = ap) then remove_from t else t)));;
    signal.

Definition st_task_active (ap : ap_id) (state : states) : WM bool :=
  w ← get_state;
  mret (existsb (fun t =>
          bool_decide (t_ap t = ap) &&
          (bool_decide (t_state t = state) || bool_decide (state = ST_ANY) ||
           existsb (fun s => bool_decide (s = state) || bool_decide (state = ST_ANY)) (t_pending t)))
        (w_queue w)).

(** [st_wait_task]: [active n] is the answer of [st_task_active] at poll [n]; a
    poll is made every fifth of a second. *)
Fixpoint wait_loop (fuel : nat) (active : nat -> bool) (n : nat) (wait duration seconds : Z) : option Z :=
  match fuel with
  | O => None
  | S fuel' =>
      let duration := if wait =? 4 then duration + 1 else duration in
      let wait := if wait =? 4 then 0 else wait + 1 in
      if negb (active n) then Some 1
      else if negb (seconds =? 0) && (seconds <=? duration) then Some 0
      else wait_loop fuel' active (S n) wait duration seconds
  end.

Definition st_wait_task (fuel : nat) (active : nat -> bool) (seconds : Z) : option Z :=
  wait_loop fuel active 0 0 0 seconds.

(** The [switch] of [expire_cleanup]: the state to enter after the expire thread
    of [ap], in the state of [p], has ended with the status [success]; [rv] and
    [idle] are what the kernel answers to [askumount]. *)
Definition expire_next (ap : ap_id) (p : autofs_point) (success rv : Z) (idle : bool) : WM states :=
  match ap_state p with
  | ST_EXPIRE | ST_PRUNE =>
      if ap_submount p && (success =? 0) && ((rv =? 0) && idle)
      then mret ST_SHUTDOWN_PENDING
      else
        (if bool_decide (ap_state p = ST_EXPIRE) then add_alarm ap else mret ());;
        mret ST_READY
  | ST_READY => mret ST_READY
  | ST_SHUTDOWN_PENDING =>
      if (rv =? 0) && negb idle && negb (ap_shutdown p)
      then add_alarm ap;; mret ST_READY
      else if ignore_busy_mounts then mret ST_SHUTDOWN
      else if success =? 0 then mret ST_SHUTDOWN
      else add_alarm ap;; mret ST_READY
  | ST_SHUTDOWN_FORCE => mret ST_SHUTDOWN
  | _ => mret ST_INVAL
  end.

(** The end of the expire thread [thid]. *)
Definition expire_cleanup (thid : Z) (ap : ap_id) (success : Z) (rv : Z) (idle : bool) : WM unit :=
  p ← get_ap ap;
  next ←
    (if negb (thid =? ap_exp_thread p) then mret ST_INVAL
     else
       upd_ap ap (set_exp_thread 0);;
       expire_next ap p success rv idle);
  st_set_done ap;;
  if bool_decide (next = ST_INVAL) then mret ()
  else _ ← __st_add_task ap next; mret ().

(** The end of a readmap thread. *)
Definition do_readmap_cleanup (ap : ap_id) : WM unit :=
  upd_ap ap (set_readmap_thread 0);;
  st_set_done ap;;
  _ ← st_ready ap;
  mret ().

(** [run_state_task]; [t] is the task. *)
Definition run_state_task (t : task) : WM Z :=
  p ← get_ap (t_ap t);
  if bool_decide (t_state t = ap_state p) then mret 0
  else
    match t_state t with
    | ST_PRUNE => st_prune (t_ap t)
    | ST_EXPIRE => st_expire (t_ap t)
    | ST_READMAP => st_readmap (t_ap t)
    | ST_SHUTDOWN_PENDING => st_prepare_shutdown (t_ap t)
    | ST_SHUTDOWN_FORCE => st_force_shutdown (t_ap t)
    | _ => mret 0
    end.

(** ** The queue handler thread *)

Definition mark_busy (i : nat) : WM unit := modify (with_queue (alter set_busy i)).
Definition drop_task (i : nat) : WM unit := modify (with_queue (delete i)).

(** The first pass of [st_queue_handler] over a queue that was empty before,
    from position [i] on. *)
Fixpoint first_pass (fuel : nat) (i : nat) : WM unit :=
  w ← get_state;
  match w_queue w !! i with
  | None => mret ()
  | Some t =>
      match fuel with
      | O => stuck
      | S fuel' =>
          if t_cancel t then drop_task i;; first_pass fuel' i
          else
            mark_busy i;;
            ret ← run_state_task t;
            if ret =? 0 then drop_task i;; first_pass fuel' i else first_pass fuel' (S i)
      end
  end.

(** The label [remove]: the task at [i] gives way to its first pending task,
    which goes to the end of the queue; the position to continue from. *)
Definition remove_task (i : nat) (t : task) : WM nat :=
  w ← get_state;
  match t_pending t with
  | [] => drop_task i;; mret i
  | s :: _ =>
      let was_last := bool_decide (S i = length (w_queue w)) in
      drop_task i;;
      modify (with_queue (fun q => q ++ [new_task (t_ap t) s]));;
      mret (if was_last then 0%nat else i)
  end.

(** The pass of [st_queue_handler] after a signal, from position [i] on. *)
Fixpoint watch_pass (fuel : nat) (i : nat) : WM unit :=
  w ← get_state;
  match w_queue w !! i with
  | None => mret ()
  | Some t =>
      match fuel with
      | O => stuck
      | S fuel' =>
          if (t_thid t =? 0) && t_cancel t then j ← remove_task i t; watch_pass fuel' j
          else if negb (t_busy t) then
            mark_busy i;;
            ret ← run_state_task t;
            if ret =? 0 then j ← remove_task i t; watch_pass fuel' j else watch_pass fuel' (S i)
          else if t_thid t =? 0 then watch_pass fuel' (S i)
          else if t_cancel t then
            modify (with_cancel (t_thid t));;
            modify (with_queue (alter (set_cancel false) i));;
            watch_pass fuel' (S i)
          else if negb (t_done t) then watch_pass fuel' (S i)
          else j ← remove_task i t; watch_pass fuel' j
      end
  end.

(** Enough rounds for any pass: a pass restarts at most once for each task that
    has a pending one, and visits each position once in between. *)
Definition pass_fuel (q : list task) : nat := (S (length q) * S (length q))%nat.

(** One step of [st_queue_handler] from one wait to the next. *)
Definition st_queue_handler : WM unit :=
  w ← get_state;
  match w_phase w with
  | Idle =>
      if bool_decide (w_queue w = []) then mret ()
      else
        first_pass (pass_fuel (w_queue w)) 0;;
        modify (with_phase Watching);;
        modify (with_signaled false)
  | Watching =>
      if negb (w_signaled w) then mret ()
      else
        watch_pass (pass_fuel (w_queue w)) 0;;
        w ← get_state;
        if bool_decide (w_queue w = []) then modify (with_phase Idle)
        else modify (with_signaled false)
  end.

End Ops.
