(* ===== verification/StateInv.v ===== *)
(** * The invariant of the state machine

    Every mount point has at most one task on the queue, and a worker thread of
    a mount point belongs to its running task. It follows that a mount point
    never has two worker threads, and that the assertions on the thread ids
    never fail, in any interleaving of the threads of the daemon. *)

From S2P Require Import Prelude Alarm StateQueue.

(** ** The invariant *)

(** The task that a worker thread [thid] of [ap] runs for. *)
Definition runs_for (q : list task) (ap : ap_id) (thid : Z) : Prop :=
  exists t, t ∈ q /\ t_ap t = ap /\ t_busy t = true /\ t_thid t = thid /\ t_done t = false.

Definition threads_ok (q : list task) (ap : ap_id) (p : autofs_point) : Prop :=
  (ap_exp_thread p <> 0 -> runs_for q ap (ap_exp_thread p)) /\
  (ap_readmap_thread p <> 0 -> runs_for q ap (ap_readmap_thread p)) /\
  (ap_exp_thread p = 0 \/ ap_readmap_thread p = 0).

(** A task that has not been started is as it was allocated. *)
Definition task_ok (t : task) : Prop := t_busy t = false -> t_thid t = 0 /\ t_done t = false.

(** The thread that a mount point has of a kind, 0 without one. *)
Definition thread_of (k : worker) (p : autofs_point) : Z :=
  match k with Expire => ap_exp_thread p | Readmap => ap_readmap_thread p end.

(** A thread that has not ended is the one its mount point knows of. *)
Definition live_ok (w : world) (th : thread) : Prop :=
  0 < th_id th < w_next_thid w /\
  exists p, w_aps w !! th_ap th = Some p /\ thread_of (th_kind th) p = th_id th.

Record inv (w : world) : Prop := Inv {
  inv_tasks : Forall task_ok (w_queue w);
  inv_nodup : NoDup (t_ap <$> w_queue w);
  inv_aps : forall t, t ∈ w_queue w -> is_Some (w_aps w !! t_ap t);
  inv_threads : forall ap p, w_aps w !! ap = Some p -> threads_ok (w_queue w) ap p;
  inv_thid : 0 < w_next_thid w;
  inv_live : Forall (live_ok w) (w_threads w);
  inv_one : NoDup (th_ap <$> w_threads w);
  inv_asserts : 219 ∉ w_asserts w /\ 517 ∉ w_asserts w
}.

(** A mount point without worker threads. *)
Definition quiet (w : world) (ap : ap_id) : Prop :=
  forall p, w_aps w !! ap = Some p -> ap_exp_thread p = 0 /\ ap_readmap_thread p = 0.

(** Before the first pass no task has been started. *)
Definition phase_ok (w : world) : Prop :=
  w_phase w = Idle -> Forall (fun t => t_busy t = false /\ t_thid t = 0) (w_queue w).

Definition st_inv (w : world) : Prop := inv w /\ phase_ok w.

(** ** Tasks of the queue *)

Lemma queue_unique q i j t u :
  NoDup (t_ap <$> q) -> q !! i = Some t -> q !! j = Some u -> t_ap t = t_ap u -> i = j.
Proof.
  intros Hnd Hi Hj Heq. eapply NoDup_lookup; [exact Hnd|..]; rewrite list_lookup_fmap.
  - rewrite Hi. simpl. by rewrite Heq.
  - by rewrite Hj.
Qed.

Lemma update_first_alter ap f q i t :
  NoDup (t_ap <$> q) -> q !! i = Some t -> t_ap t = ap -> update_first ap f q = alter f i q.
Proof.
  revert i. induction q as [|u q IH]; intros [|i] Hnd Hi Hap; simplify_eq/=; [by rewrite bool_decide_true|].
  apply NoDup_cons in Hnd as [Hnotin Hnd]. rewrite bool_decide_false.
  - f_equal. by apply IH.
  - intros Heq. apply Hnotin. rewrite Heq. apply list_elem_of_fmap. exists t.
    split; [done|]. by eapply list_elem_of_lookup_2.
Qed.

Lemma update_first_ap ap f q :
  (forall t, t_ap (f t) = t_ap t) -> t_ap <$> update_first ap f q = t_ap <$> q.
Proof.
  intros Hf. induction q as [|t q IH]; [done|]. cbn [update_first].
  destruct (bool_decide _); rewrite !fmap_cons; [by rewrite Hf|]. by rewrite IH.
Qed.

Lemma elem_of_update_first ap f q u :
  u ∈ update_first ap f q -> u ∈ q \/ exists t, t ∈ q /\ t_ap t = ap /\ u = f t.
Proof.
  induction q as [|t q IH]; simpl; [set_solver|]. case_bool_decide.
  - intros [->|Hu]%elem_of_cons; [right; exists t; set_solver|set_solver].
  - intros [->|Hu]%elem_of_cons; [set_solver|]. destruct (IH Hu) as [?|(t' & ? & ? & ?)]; [set_solver|].
    right. exists t'. set_solver.
Qed.

Lemma Forall_update_first (P : task -> Prop) ap f q :
  Forall P q -> (forall t, P t -> P (f t)) -> Forall P (update_first ap f q).
Proof.
  intros Hq Hf. induction Hq as [|t q Ht Hq IH]; [done|]. cbn [update_first].
  destruct (bool_decide _); constructor; auto.
Qed.

Lemma alter_fmap_ap (q : list task) i f :
  (forall t, t_ap (f t) = t_ap t) -> t_ap <$> alter f i q = t_ap <$> q.
Proof.
  intros Hf. apply list_eq. intros j. rewrite !list_lookup_fmap, list_lookup_alter.
  case_decide as E; [|done]. rewrite <- E. destruct (q !! i); simpl; [by rewrite Hf|done].
Qed.

(** A running thread keeps its task under a change that keeps the tasks of its
    mount point. *)
Lemma runs_for_mono q q' ap thid :
  runs_for q ap thid ->
  (forall t, t ∈ q -> t_ap t = ap -> t_busy t = true -> t_thid t = thid -> t_done t = false ->
     exists t', t' ∈ q' /\ t_ap t' = ap /\ t_busy t' = true /\ t_thid t' = thid /\ t_done t' = false) ->
  runs_for q' ap thid.
Proof. intros (t & Ht & Hap & Hb & Hth & Hd) H. by apply (H t). Qed.

Lemma threads_ok_mono q q' ap p :
  threads_ok q ap p ->
  (forall thid, thid <> 0 -> runs_for q ap thid -> runs_for q' ap thid) -> threads_ok q' ap p.
Proof. intros (H1 & H2 & H3) H. split_and!; auto. Qed.

(** ** Quiet mount points *)

Lemma inv_quiet w t :
  inv w -> t ∈ w_queue w -> t_busy t = false \/ t_thid t = 0 \/ t_done t = true -> quiet w (t_ap t).
Proof.
  intros I Ht Hq p Hp. destruct (inv_threads _ I _ _ Hp) as (He & Hr & _).
  assert (forall thid, thid <> 0 -> ~ runs_for (w_queue w) (t_ap t) thid) as Hno.
  { intros thid Hne (u & Hu & Hap & Hb & Hth & Hd).
    apply list_elem_of_lookup in Ht as [i Hi]. apply list_elem_of_lookup in Hu as [j Hj].
    assert (i = j) as <- by (by eapply queue_unique; [apply I| | |]).
    simplify_eq. destruct Hq as [?|[?|?]]; congruence. }
  split; apply dec_stable; intros Hne; eapply Hno; eauto.
Qed.

(** Dropping the task of a quiet mount point. *)
Lemma inv_drop w i t :
  inv w -> w_queue w !! i = Some t -> quiet w (t_ap t) -> inv (with_queue (delete i) w).
Proof.
  intros I Hi Hq. destruct I as [Hok Hnd Haps Hth Hid Hlive Hone Has]. constructor; simpl; try done.
  - rewrite Forall_forall in *. intros u Hu. apply Hok. eapply elem_of_sublist; [exact Hu|apply sublist_delete].
  - apply (sublist_NoDup _ (t_ap <$> w_queue w)); [done|]. apply fmap_sublist, sublist_delete.
  - intros u Hu. apply Haps. eapply elem_of_sublist; [exact Hu|apply sublist_delete].
  - intros ap p Hp. destruct (decide (ap = t_ap t)) as [->|Hne].
    + destruct (Hq p Hp) as [He Hr]. split_and!; [by rewrite He|by rewrite Hr|by left].
    + apply (threads_ok_mono (w_queue w)); [by apply Hth|]. intros thid _ Hrun.
      apply (runs_for_mono _ _ _ _ Hrun). intros u Hu Hap Hb Hthid Hd. exists u. split; [|done].
      apply list_elem_of_lookup in Hu as [j Hj]. apply list_elem_of_lookup.
      assert (i <> j) as Hij by congruence. destruct (decide (j < i)%nat).
      * exists j. by rewrite list_lookup_delete_lt.
      * exists (j - 1)%nat. rewrite list_lookup_delete_ge by lia. by replace (S (j - 1)) with j by lia.
Qed.

(** Changing the queue: the mount points stay, and so do the running tasks. *)
Lemma inv_with_queue w f :
  inv w -> Forall task_ok (f (w_queue w)) -> t_ap <$> f (w_queue w) = t_ap <$> w_queue w ->
  (forall ap thid, thid <> 0 -> ~ quiet w ap -> runs_for (w_queue w) ap thid ->
     runs_for (f (w_queue w)) ap thid) ->
  inv (with_queue f w).
Proof.
  intros [_ Hnd Haps Hth Hid Hlive Hone Has] Hok Hap Hrun. constructor; simpl; try done.
  - by rewrite Hap.
  - intros t Ht. assert (t_ap t ∈ t_ap <$> w_queue w) as Hin
      by (rewrite <- Hap; apply list_elem_of_fmap; eauto).
    apply list_elem_of_fmap in Hin as (u & -> & Hu). auto.
  - intros ap p Hp. destruct (decide (ap_exp_thread p = 0 /\ ap_readmap_thread p = 0)) as [[He Hr]|Hne].
    + split_and!; [by rewrite He|by rewrite Hr|by left].
    + apply (threads_ok_mono (w_queue w)); [by apply Hth|]. intros thid H0 Hr. apply Hrun; [done| |done].
      intros Hq. by apply Hne, Hq.
Qed.

Lemma Forall_alter_ok (q : list task) f i :
  Forall task_ok q -> (forall t, task_ok t -> task_ok (f t)) -> Forall task_ok (alter f i q).
Proof. intros Hq Hf. apply Forall_alter; auto. Qed.

(** Changing the task of a quiet mount point in place. *)
Lemma inv_alter_quiet w i t f :
  inv w -> w_queue w !! i = Some t -> quiet w (t_ap t) -> (forall t, t_ap (f t) = t_ap t) ->
  (forall t, task_ok t -> task_ok (f t)) -> inv (with_queue (alter f i) w).
Proof.
  intros I Hi Hq Hf Hf'. apply inv_with_queue; [done|by apply Forall_alter_ok; [apply I|]|by apply alter_fmap_ap|].
  intros ap thid H0 Hnq Hr. apply (runs_for_mono _ _ _ _ Hr).
  intros u Hu Hap Hb Hth Hd. exists u. split; [|done].
  apply list_elem_of_lookup in Hu as [j Hj]. apply list_elem_of_lookup. exists j.
  rewrite list_lookup_alter_ne; [done|]. intros ->. by simplify_eq.
Qed.

(** Changes of tasks that keep what a thread depends on. *)
Definition keeps_run (f : task -> task) : Prop :=
  forall t, t_ap (f t) = t_ap t /\ t_busy (f t) = t_busy t /\ t_thid (f t) = t_thid t /\
    t_done (f t) = t_done t.

Lemma keeps_run_ok f t : keeps_run f -> task_ok t -> task_ok (f t).
Proof. intros Hf. unfold task_ok. by destruct (Hf t) as (_ & -> & -> & ->). Qed.

Lemma inv_alter_keeps w i f : inv w -> keeps_run f -> inv (with_queue (alter f i) w).
Proof.
  intros I Hf. apply inv_with_queue; [done|..|by apply alter_fmap_ap; apply Hf|].
  { apply Forall_alter_ok; [apply I|]. eauto using keeps_run_ok. }
  intros ap thid H0 Hnq Hr. apply (runs_for_mono _ _ _ _ Hr).
  intros u Hu Hap Hb Hth Hd. apply list_elem_of_lookup in Hu as [j Hj].
  destruct (decide (i = j)) as [->|Hij].
  - exists (f u). destruct (Hf u) as (-> & -> & -> & ->). split; [|done].
    apply list_elem_of_lookup. exists j. by rewrite list_lookup_alter_eq, Hj.
  - exists u. split; [|done]. apply list_elem_of_lookup. exists j. by rewrite list_lookup_alter_ne.
Qed.

Lemma inv_fmap_keeps w f : inv w -> keeps_run f -> inv (with_queue (fmap f) w).
Proof.
  intros I Hf. apply inv_with_queue; [done|..].
  - apply Forall_fmap. eapply Forall_impl; [apply I|]. intros t. by apply keeps_run_ok.
  - rewrite <- list_fmap_compose. apply list_fmap_ext. intros i t _. apply Hf.
  - intros ap thid H0 Hnq Hr. apply (runs_for_mono _ _ _ _ Hr).
    intros u Hu Hap Hb Hth Hd. exists (f u). destruct (Hf u) as (-> & -> & -> & ->).
    split; [|done]. apply list_elem_of_fmap. eauto.
Qed.

Lemma inv_update_first_keeps w ap f : inv w -> keeps_run f -> inv (with_queue (update_first ap f) w).
Proof.
  intros I Hf. apply inv_with_queue; [done| |apply update_first_ap; apply Hf|].
  { apply Forall_update_first; [apply I|]. eauto using keeps_run_ok. }
  intros ap' thid H0 Hnq Hr. apply (runs_for_mono _ _ _ _ Hr).
  intros u Hu Hap Hb Hth Hd. clear -Hu Hap Hb Hth Hd Hf.
  induction (w_queue w) as [|t q IH]; [by apply not_elem_of_nil in Hu|]. simpl.
  apply elem_of_cons in Hu as [->|Hu].
  - destruct (bool_decide _); [|exists t; set_solver].
    exists (f t). destruct (Hf t) as (-> & -> & -> & ->). set_solver.
  - destruct (bool_decide _); [exists u; set_solver|].
    destruct (IH Hu) as (t' & Ht' & Hrest). exists t'. set_solver.
Qed.

(** Changing a mount point and not its threads. *)
Definition keeps_threads (f : autofs_point -> autofs_point) : Prop :=
  forall p, ap_exp_thread (f p) = ap_exp_thread p /\ ap_readmap_thread (f p) = ap_readmap_thread p.

Lemma lookup_alter_Some (m : gmap ap_id autofs_point) ap f ap' p' :
  alter f ap m !! ap' = Some p' ->
  exists p, m !! ap' = Some p /\ p' = if decide (ap = ap') then f p else p.
Proof.
  rewrite lookup_alter. case_decide as E; [|eauto]. rewrite E.
  destruct (m !! ap') as [p|]; [|done]. intros [= <-]. eauto.
Qed.

Lemma inv_upd_keeps w ap f : inv w -> keeps_threads f -> inv (with_aps (alter f ap) w).
Proof.
  intros [Hok Hnd Haps Hth Hid Hlive Hone Has] Hf. constructor; simpl; try done.
  - intros t Ht. rewrite lookup_alter_is_Some. auto.
  - intros ap' p' (p & Hp & ->)%lookup_alter_Some. specialize (Hth ap' p Hp).
    case_decide; [|done]. unfold threads_ok. destruct (Hf p) as [-> ->]. done.
  - eapply Forall_impl; [exact Hlive|]. intros th (H0 & p & Hp & Heq). split; [exact H0|]. simpl.
    rewrite lookup_alter. case_decide as E; [|eauto]. rewrite E, Hp. eexists. split; [done|].
    destruct (Hf p). destruct (th_kind th); simpl in *; congruence.
Qed.

Lemma quiet_upd_keeps w ap f ap' :
  quiet w ap' -> keeps_threads f -> quiet (with_aps (alter f ap) w) ap'.
Proof.
  intros Hq Hf p' (p & Hp & ->)%lookup_alter_Some. specialize (Hq p Hp). case_decide; [|done].
  by destruct (Hf p) as [-> ->].
Qed.

Lemma keeps_set_state s : keeps_threads (set_state s).
Proof. done. Qed.

Lemma keeps_run_pending g : keeps_run (fun t => set_pending (g t) t).
Proof. done. Qed.

Lemma keeps_run_cancel b : keeps_run (set_cancel b).
Proof. done. Qed.

#[export] Hint Resolve keeps_set_state keeps_run_pending keeps_run_cancel : autofs.

(** ** Starting a task *)

Lemma triple_get_ap {B} (P : world -> Prop) ap (f : autofs_point -> WM B) R :
  (forall w, P w -> is_Some (w_aps w !! ap)) ->
  (forall p, triple (fun w => P w /\ w_aps w !! ap = Some p) (f p) R) ->
  triple P (get_ap ap ≫= f) R.
Proof.
  intros Hs Hf w m Hw. destruct (Hs w Hw) as [p Hp].
  assert (reads (get_ap ap) w p) as Hr by (intros m'; unfold get_ap; by rewrite Hp).
  rewrite (reads_bind _ _ _ _ _ Hr). by apply Hf.
Qed.

Section Start.
Context (now : Z) (has_mounts : ap_id -> bool).
Context (ap : ap_id) (q : list task) (ph : phase) (i : nat) (t : task).
Context (Hi : q !! i = Some t) (Hap : t_ap t = ap).

(** The mount point of the task has no thread; the queue and the handler's
    position are as given. *)
Definition calm (w : world) : Prop :=
  inv w /\ quiet w ap /\ w_queue w = q /\ w_phase w = ph.

(** The thread of the task has been started. *)
Definition started (w : world) : Prop :=
  inv w /\ w_phase w = ph /\ exists thid, 0 < thid /\ w_queue w = alter (set_thid thid) i q.

Lemma calm_ap w : calm w -> is_Some (w_aps w !! ap).
Proof.
  intros (I & _ & Hq & _). rewrite <- Hap. apply I. rewrite Hq. by eapply list_elem_of_lookup_2.
Qed.

Lemma calm_upd f : keeps_threads f -> triple calm (upd_ap ap f) (fun _ => calm).
Proof.
  intros Hf. apply triple_modify. intros w (I & Hq & Hw & Hp).
  split_and!; [by apply inv_upd_keeps|by apply quiet_upd_keeps|done|done].
Qed.

Lemma calm_assert n b : (n <> 219 /\ n <> 517) \/ b = true -> triple calm (assert_line n b) (fun _ => calm).
Proof.
  intros Hn. unfold assert_line. destruct b; [by apply triple_ret|].
  destruct Hn as [[H1 H2]|]; [|done]. apply triple_modify. intros w (I & Hq & Hw & Hp).
  split_and!; [|done..]. destruct I as [? ? ? ? ? ? ? [Ha1 Ha2]]. constructor; simpl; try done.
  rewrite !not_elem_of_cons. split; split; congruence || done.
Qed.

Lemma calm_add_alarm : triple calm (add_alarm now has_mounts ap) (fun _ => calm).
Proof.
  unfold add_alarm. apply triple_get_ap; [apply calm_ap|]. intros p.
  apply (triple_conseq _ calm _ _ (fun _ => calm)); [|tauto|done]. apply triple_get. intros w Hw.
  eapply (triple_bind _ _ (fun _ => calm)).
  { destruct (_ || _); [apply triple_ret; by intros ? ->|].
    apply (triple_conseq _ calm _ _ (fun _ => calm)); [apply triple_malloc|by intros ? ->|done]. }
  intros ok. destruct (conditional_alarm_add _ _ _ _ _ _ _) as [[r l] sg].
  apply triple_modify. intros w' ([Hok Hnd Haps Hth Hid Hlive Hone Has] & Hq & Hw' & Hp).
  split_and!; [by constructor|done..].
Qed.

Lemma calm_ready : triple calm (st_ready ap) (fun r w => r = 1 /\ calm w).
Proof.
  eapply (triple_bind _ _ (fun _ => calm)); [by apply calm_upd|]. intros ?. by apply triple_ret.
Qed.

(** A thread of the mount point has been created and not yet entered. *)
Definition created (k : worker) (thid : Z) (w : world) : Prop :=
  exists w0, calm w0 /\ thid = w_next_thid w0 /\
    w = with_threads (cons (Thread thid ap k)) (with_thid (thid + 1) w0).

Lemma calm_create k :
  triple calm (pthread_create ap k)
    (fun o w => match o with None => calm w | Some thid => created k thid w end).
Proof.
  apply (triple_bind _ _ (fun _ => calm)); [apply triple_malloc|].
  intros [|]; [|by apply triple_ret]. simpl. apply triple_get. intros w0 Hw0 w m ->.
  do 3 eexists. split; [reflexivity|]. by exists w0.
Qed.

(** How a thread of a kind is entered in the mount point. *)
Definition enter (k : worker) (thid : Z) : autofs_point -> autofs_point :=
  match k with Expire => set_exp_thread thid | Readmap => set_readmap_thread thid end.

Lemma enter_threads k thid p :
  ap_exp_thread p = 0 -> ap_readmap_thread p = 0 ->
  thread_of k (enter k thid p) = thid /\
  ((ap_exp_thread (enter k thid p) = thid /\ ap_readmap_thread (enter k thid p) = 0) \/
   (ap_exp_thread (enter k thid p) = 0 /\ ap_readmap_thread (enter k thid p) = thid)).
Proof. destruct k; simpl; auto. Qed.

(** No thread of a quiet mount point is left. *)
Lemma quiet_no_thread w : inv w -> quiet w ap -> ap ∉ th_ap <$> w_threads w.
Proof.
  intros I Hq (th & -> & Hin)%list_elem_of_fmap.
  destruct (proj1 (Forall_forall _ _) (inv_live _ I) th Hin) as (H0 & p & Hp & Heq).
  destruct (Hq p Hp). destruct (th_kind th); simpl in *; lia.
Qed.

Lemma enter_live w k thid :
  inv w -> quiet w ap -> is_Some (w_aps w !! ap) -> thid = w_next_thid w ->
  Forall (live_ok (with_aps (alter (enter k thid) ap) (with_thid (thid + 1) w)))
    (Thread thid ap k :: w_threads w).
Proof.
  intros I Hq [p Hp] ->. pose proof (inv_thid _ I). constructor.
  - split; [simpl; lia|]. simpl. rewrite lookup_alter_eq, Hp. eexists. split; [done|]. by destruct k.
  - pose proof (quiet_no_thread w I Hq) as Hno. pose proof (inv_live _ I) as Hlive.
    rewrite Forall_forall in *. intros th Hin. destruct (Hlive th Hin) as (H0 & p' & Hp' & Heq).
    split; [simpl; lia|]. simpl. rewrite lookup_alter_ne; [eauto|].
    intros E. apply Hno. rewrite E. apply list_elem_of_fmap. eauto.
Qed.

(** The thread is entered in the mount point and in the task. *)
Lemma calm_set_thid k thid :
  t_busy t = true -> t_done t = false ->
  triple (created k thid) (upd_ap ap (enter k thid);; st_set_thid ap thid) (fun _ => started).
Proof.
  intros Hb Hd w m (w0 & (I & Hq & Hw & Hp) & Hthid & ->). do 3 eexists. split; [reflexivity|].
  assert (update_first ap (set_thid thid) q = alter (set_thid thid) i q) as Hupd
    by (eapply update_first_alter; [rewrite <- Hw; apply I|done|done]).
  assert (is_Some (w_aps w0 !! ap)) as Hsome
    by (rewrite <- Hap; apply I; rewrite Hw; by eapply list_elem_of_lookup_2).
  pose proof (enter_live w0 k thid I Hq Hsome Hthid) as Hl.
  pose proof (quiet_no_thread w0 I Hq) as Hno. pose proof (inv_thid _ I) as Hpos.
  split_and!; [|done|exists thid; split; [lia|]; simpl; by rewrite Hw].
  destruct I as [Hok Hnd Haps Hth Hid Hlive Hone Has]. constructor; simpl; try done; rewrite Hw in *.
  - rewrite Hupd. apply Forall_alter; [done|]. intros u Hu Hoku Hbu. simpl in Hbu. congruence.
  - by rewrite update_first_ap.
  - intros u Hu. rewrite lookup_alter_is_Some. apply elem_of_update_first in Hu as [Hu|(u' & Hu & _ & ->)];
      [by apply Haps|by apply (Haps u')].
  - intros ap' p' (p & Hpp & ->)%lookup_alter_Some. case_decide as E.
    + subst ap'. destruct (Hq p Hpp) as [He Hr].
      assert (runs_for (update_first ap (set_thid thid) q) ap thid) as Hrun.
      { exists (set_thid thid t). split_and!; try done. rewrite Hupd. apply list_elem_of_lookup.
        exists i. by rewrite list_lookup_alter_eq, Hi. }
      destruct (enter_threads k thid p He Hr) as [_ [[E1 E2]|[E1 E2]]];
        split_and!; rewrite ?E1, ?E2; auto; by intros.
    + apply (threads_ok_mono q); [by apply Hth|]. intros th _ Hr. apply (runs_for_mono _ _ _ _ Hr).
      intros u Hu Hapu ? ? ?. exists u. split; [|done]. rewrite Hupd.
      apply list_elem_of_lookup in Hu as [j Hj]. apply list_elem_of_lookup. exists j.
      rewrite list_lookup_alter_ne; [done|]. intros ->. congruence.
  - lia.
  - constructor; done.
Qed.

(** The result of starting a task: nothing was started, or its thread runs. *)
Definition start_outcome (r : Z) (w : world) : Prop := (r = 0 /\ calm w) \/ (r = 1 /\ started w).

Lemma calm_start_thread {A} k (x : A) thid :
  t_busy t = true -> t_done t = false ->
  triple (created k thid) (upd_ap ap (enter k thid);; st_set_thid ap thid;; mret x)
    (fun r w => r = x /\ started w).
Proof.
  intros Hb Hd w m Hw.
  destruct (calm_set_thid k thid Hb Hd w m Hw) as (y & w' & m' & Hrun & Hst).
  exists x, w', m'. split; [|done]. revert Hrun. unfold mbind, M_bind.
  destruct (upd_ap _ _ w m) as [[[? ?] ?]|]; [|done]. by intros ->.
Qed.

Lemma quiet_exp_thread w p : quiet w ap -> w_aps w !! ap = Some p -> (ap_exp_thread p =? 0) = true.
Proof. intros Hq Hp. apply Z.eqb_eq. by apply (Hq p). Qed.

Lemma quiet_readmap_thread w p :
  quiet w ap -> w_aps w !! ap = Some p -> (ap_readmap_thread p =? 0) = true.
Proof. intros Hq Hp. apply Z.eqb_eq. by apply (Hq p). Qed.

(** Read the mount point: its thread ids are 0. *)
Lemma calm_get_ap {B} (f : autofs_point -> WM B) R :
  (forall p, (ap_exp_thread p =? 0) = true -> (ap_readmap_thread p =? 0) = true -> triple calm (f p) R) ->
  triple calm (get_ap ap ≫= f) R.
Proof.
  intros H. apply triple_get_ap; [apply calm_ap|]. intros p w m [Hw Hp]. pose proof Hw as (_ & Hq & _).
  apply H; eauto using quiet_exp_thread, quiet_readmap_thread.
Qed.

Context (Hbusy : t_busy t = true) (Hdone : t_done t = false).

Lemma calm_expire_proc :
  triple calm (expire_proc ap) (fun e w => (e = EXP_ERROR /\ calm w) \/ (e = EXP_STARTED /\ started w)).
Proof.
  apply calm_get_ap. intros p Hexp _. apply (triple_bind _ _ (fun _ => calm)); [by apply calm_assert; right|].
  intros ?. apply (triple_bind _ _ (fun _ => calm)); [apply triple_malloc|].
  intros [|]; simpl; [|by apply triple_ret; left].
  eapply triple_bind; [apply calm_create|]. intros [thid|]; simpl.
  - eapply triple_conseq; [by apply (calm_start_thread Expire EXP_STARTED thid)|done|by right].
  - apply triple_ret. intros w Hw. by left.
Qed.

(** Back to the ready state with an alarm, in either order. *)
Lemma calm_give_up :
  triple calm (add_alarm now has_mounts ap;; st_ready ap;; mret 0) start_outcome.
Proof.
  apply (triple_bind _ _ (fun _ => calm)); [apply calm_add_alarm|]. intros ?.
  eapply triple_bind; [apply calm_ready|]. intros r. apply triple_ret. intros w [_ Hw]. by left.
Qed.

Lemma calm_give_up' :
  triple calm (st_ready ap;; add_alarm now has_mounts ap;; mret 0) start_outcome.
Proof.
  eapply triple_bind; [apply calm_ready|]. intros r. simpl.
  apply (triple_conseq _ calm _ _ start_outcome); [|by intros ? [_ ?]|done].
  apply (triple_bind _ _ (fun _ => calm)); [apply calm_add_alarm|]. intros ?.
  apply triple_ret. intros w Hw. by left.
Qed.

Lemma calm_start_expire line from to :
  line <> 219 /\ line <> 517 -> triple calm (start_expire now has_mounts line from to ap) start_outcome.
Proof.
  intros Hline. apply calm_get_ap. intros p _ _.
  apply (triple_bind _ _ (fun _ => calm)); [apply calm_assert; by left|]. intros ?.
  apply (triple_bind _ _ (fun _ => calm)); [by apply calm_upd|]. intros ?.
  eapply triple_bind; [apply calm_expire_proc|]. intros [| |]; simpl.
  1,3: apply (triple_conseq _ calm _ _ start_outcome); [apply calm_give_up|by intros w [[_ ?]|[? _]]|done].
  apply triple_ret. intros w [[? _]|[_ ?]]; [done|by right].
Qed.

Lemma calm_readmap : triple calm (st_readmap now has_mounts ap) start_outcome.
Proof.
  apply calm_get_ap. intros p _ Hr.
  apply (triple_bind _ _ (fun _ => calm)); [apply calm_assert; by left|]. intros ?.
  apply (triple_bind _ _ (fun _ => calm)); [by apply calm_assert; right|]. intros ?.
  apply (triple_bind _ _ (fun _ => calm)); [by apply calm_upd|]. intros ?.
  apply (triple_bind _ _ (fun _ => calm)); [apply triple_malloc|]. intros [|]; simpl; [|apply calm_give_up'].
  eapply triple_bind; [apply calm_create|]. intros [thid|]; simpl.
  - eapply triple_conseq; [by apply (calm_start_thread Readmap 1 thid)|done|by right].
  - apply calm_give_up'.
Qed.

Lemma calm_run_state_task u :
  t_ap u = ap -> triple calm (run_state_task now has_mounts u) start_outcome.
Proof.
  intros Hu. unfold run_state_task. rewrite Hu. apply calm_get_ap. intros p _ _.
  destruct (bool_decide _); [by apply triple_ret; left|].
  destruct (t_state u); try (by apply triple_ret; left); try by apply calm_start_expire.
  apply calm_readmap.
Qed.
End Start.

(** * The queue handler thread preserves the invariant and returns

    The two passes of [st_queue_handler] over the queue end for every queue: a
    pass goes back to the start of the queue at most once for each task that has
    a pending one. *)

(** ** New tasks *)

Lemma inv_new_task w f ap s :
  inv w -> ap ∉ t_ap <$> w_queue w -> is_Some (w_aps w !! ap) ->
  f (w_queue w) ≡ₚ new_task ap s :: w_queue w -> inv (with_queue f w).
Proof.
  intros [Hok Hnd Haps Hth Hid Hlive Hone Has] Hnew Hap Hperm. constructor; simpl; try done.
  - rewrite Hperm. by constructor.
  - rewrite Hperm. by constructor.
  - intros t. rewrite Hperm. intros [->|Ht]%elem_of_cons; [done|auto].
  - intros ap' p Hp. apply (threads_ok_mono (w_queue w)); [by apply Hth|]. intros thid _ Hr.
    apply (runs_for_mono _ _ _ _ Hr). intros t Ht ? ? ? ?. exists t. split; [|done].
    rewrite Hperm. by right.
Qed.

Lemma delete_not_in (q : list task) i t :
  NoDup (t_ap <$> q) -> q !! i = Some t -> t_ap t ∉ t_ap <$> delete i q.
Proof.
  intros Hnd Hi Hin. apply list_elem_of_fmap in Hin as (u & Heq & Hu).
  apply list_elem_of_lookup in Hu as [j Hj]. destruct (decide (j < i)%nat).
  - rewrite list_lookup_delete_lt in Hj by lia.
    assert (i = j) by (by eapply queue_unique). lia.
  - rewrite list_lookup_delete_ge in Hj by lia.
    assert (i = S j) by (by eapply queue_unique). lia.
Qed.

Lemma inv_promote w i t s :
  inv w -> w_queue w !! i = Some t -> quiet w (t_ap t) ->
  inv (with_queue (fun q => q ++ [new_task (t_ap t) s]) (with_queue (delete i) w)).
Proof.
  intros I Hi Hq. apply (inv_new_task _ _ (t_ap t) s).
  - by eapply inv_drop.
  - simpl. apply delete_not_in; [apply I|done].
  - simpl. apply I. by eapply list_elem_of_lookup_2.
  - simpl. by rewrite Permutation_app_comm.
Qed.

(** ** The work that is left of a pass *)

Definition npending (q : list task) : nat := length (filter (fun t => t_pending t <> []) q).

Definition work (n : nat) (q : list task) (i : nat) : nat := (npending q * S n + (length q - i))%nat.

Lemma npending_le q : (npending q <= length q)%nat.
Proof. apply length_filter. Qed.

Lemma npending_delete (q : list task) i t :
  q !! i = Some t ->
  npending q = (npending (delete i q) + (if decide (t_pending t = []) then 0 else 1))%nat.
Proof.
  intros Hi. unfold npending. rewrite (delete_Permutation q i t Hi) at 1.
  rewrite filter_cons. case_decide as E1; case_decide as E2; simpl; try tauto; lia.
Qed.

Lemma npending_fmap (q q' : list task) :
  t_pending <$> q = t_pending <$> q' -> npending q = npending q'.
Proof.
  revert q'. induction q as [|t q IH]; intros [|t' q'] Heq; simplify_eq/=; [done|].
  unfold npending in *. rewrite !filter_cons. specialize (IH _ ltac:(done)).
  case_decide; case_decide; simpl; congruence || lia.
Qed.

Lemma alter_pending (q : list task) i f :
  (forall t, t_pending (f t) = t_pending t) -> npending (alter f i q) = npending q.
Proof.
  intros Hf. apply npending_fmap. apply list_eq. intros j.
  rewrite !list_lookup_fmap, list_lookup_alter. case_decide as E; [|done].
  subst. destruct (q !! j); simpl; [by rewrite Hf|done].
Qed.

Lemma work_next n q q' i :
  npending q' = npending q -> length q' = length q -> (i < length q)%nat ->
  (work n q' (S i) < work n q i)%nat.
Proof. unfold work. intros -> ->. lia. Qed.

Lemma work_drop n q i t :
  q !! i = Some t -> t_pending t = [] -> (work n (delete i q) i < work n q i)%nat.
Proof.
  intros Hi Hp. unfold work. rewrite (npending_delete q i t Hi), decide_True by done.
  rewrite length_delete by eauto. apply lookup_lt_Some in Hi. lia.
Qed.

Lemma work_promote n q i j t s :
  q !! i = Some t -> t_pending t <> [] -> (length q <= n)%nat ->
  (work n (delete i q ++ [new_task (t_ap t) s]) j < work n q i)%nat.
Proof.
  intros Hi Hp Hn. unfold work. rewrite (npending_delete q i t Hi), decide_False by done.
  assert (npending (delete i q ++ [new_task (t_ap t) s]) = npending (delete i q)) as ->.
  { unfold npending. rewrite filter_app, length_app. simpl. lia. }
  rewrite length_app, length_delete by eauto. apply lookup_lt_Some in Hi. simpl. lia.
Qed.

(** ** Running one task *)

Lemma inv_mark_busy w i t :
  inv w -> w_queue w !! i = Some t -> quiet w (t_ap t) -> inv (with_queue (alter set_busy i) w).
Proof. intros I Hi Hq. eapply inv_alter_quiet; done. Qed.

Section Run.
Context (now : Z) (has_mounts : ap_id -> bool).

(** The task at [i] is marked and started: it could not be, or its thread runs. *)
Lemma run_marked w m i t :
  inv w -> w_queue w !! i = Some t -> t_busy t = false ->
  exists r w' m',
    run_state_task now has_mounts t (with_queue (alter set_busy i) w) m = Some (r, w', m') /\
    inv w' /\ w_phase w' = w_phase w /\
    ((r = 0 /\ quiet w' (t_ap t) /\ w_queue w' = alter set_busy i (w_queue w)) \/
     (r = 1 /\ exists thid, w_queue w' = alter (set_thid thid) i (alter set_busy i (w_queue w)))).
Proof.
  intros I Hi Hb. set (q := alter set_busy i (w_queue w)).
  assert (q !! i = Some (set_busy t)) as Hq by (unfold q; by rewrite list_lookup_alter_eq, Hi).
  assert (t ∈ w_queue w) as Hin by (by eapply list_elem_of_lookup_2).
  assert (quiet w (t_ap t)) as Hquiet by (eapply inv_quiet; eauto).
  assert (t_done t = false) as Hd.
  { pose proof (inv_tasks _ I) as Hok. rewrite Forall_forall in Hok. by apply (Hok t Hin). }
  destruct (calm_run_state_task now has_mounts (t_ap t) q (w_phase w) i (set_busy t) Hq eq_refl eq_refl Hd
              t eq_refl (with_queue (alter set_busy i) w) m) as (r & w' & m' & Hrun & Hout).
  { split_and!; [by eapply inv_mark_busy|done|done|done]. }
  exists r, w', m'. split; [done|]. destruct Hout as [[-> Hc]|[-> Hs]].
  - destruct Hc as (? & ? & ? & ?). auto 7.
  - destruct Hs as (? & ? & thid & ? & ?). eauto 8.
Qed.

(** ** The first pass *)

Lemma first_pass_ok fuel : forall i w m,
  inv w -> Forall (fun t => t_busy t = false) (drop i (w_queue w)) ->
  (length (w_queue w) - i <= fuel)%nat ->
  exists w' m', first_pass now has_mounts fuel i w m = Some ((), w', m') /\ inv w'.
Proof.
  induction fuel as [|fuel IH]; intros i w m I Hfree Hfuel;
    (destruct (w_queue w !! i) as [t|] eqn:Hi;
     [|exists w, m; split; [|done]; simpl; rewrite (reads_bind _ _ _ _ _ (reads_get w)); by rewrite Hi]);
    apply lookup_lt_Some in Hi as Hlt; [lia|].
  cbn [first_pass]. rewrite (reads_bind _ _ _ _ _ (reads_get w)), Hi.
  rewrite (drop_S _ _ _ Hi) in Hfree. apply Forall_cons in Hfree as [Hb Hfree].
  assert (t ∈ w_queue w) as Hin by (by eapply list_elem_of_lookup_2).
  destruct (t_cancel t).
  - unfold drop_task. rewrite bind_modify. apply IH; simpl.
    + eapply inv_drop; eauto using inv_quiet.
    + rewrite delete_take_drop, drop_app_ge by (rewrite length_take; lia).
      by rewrite length_take_le, Nat.sub_diag by lia.
    + rewrite length_delete by eauto. lia.
  - unfold mark_busy. rewrite bind_modify.
    destruct (run_marked w m i t I Hi Hb) as (r & w' & m' & Hrun & I' & _ & Hout).
    rewrite (bind_some _ _ _ _ _ _ _ Hrun). destruct Hout as [(-> & Hq & Hw)|(-> & thid & Hw)]; simpl.
    + unfold drop_task. rewrite bind_modify. apply IH; simpl; rewrite ?Hw.
      * eapply (inv_drop _ _ (set_busy t)); [done| |done]. rewrite Hw. by rewrite list_lookup_alter_eq, Hi.
      * rewrite delete_take_drop, drop_app_ge by (rewrite length_take; lia).
        rewrite length_take_le, Nat.sub_diag by (rewrite length_alter; lia).
        simpl. by rewrite drop_alter_lt by lia.
      * rewrite length_delete, length_alter by (rewrite list_lookup_alter_eq, Hi; eauto). lia.
    + apply IH; [done|..]; rewrite Hw.
      * by rewrite !drop_alter_lt by lia.
      * rewrite !length_alter. lia.
Qed.

(** ** The pass after a signal *)

(** A task gives way to its first pending task. *)
Lemma remove_task_ok n w m i t t' :
  inv w -> w_queue w !! i = Some t' -> quiet w (t_ap t) -> t_ap t' = t_ap t ->
  t_pending t' = t_pending t -> (length (w_queue w) <= n)%nat ->
  exists j w', remove_task i t w m = Some (j, w', m) /\ inv w' /\
    w_phase w' = w_phase w /\ (length (w_queue w') <= n)%nat /\
    (work n (w_queue w') j < work n (w_queue w) i)%nat.
Proof.
  intros I Hi Hq Hap Hp Hn. unfold remove_task. rewrite (reads_bind _ _ _ _ _ (reads_get w)).
  destruct (t_pending t) as [|s l].
  - do 2 eexists. split; [reflexivity|]. split_and!; [|done|..]; simpl.
    + eapply inv_drop; [done..|by rewrite Hap].
    + rewrite length_delete by eauto. lia.
    + eapply work_drop; eauto.
  - do 2 eexists. split; [reflexivity|]. split_and!; [|done|..]; simpl; rewrite <- Hap.
    + eapply inv_promote; [done..|by rewrite Hap].
    + rewrite length_app, length_delete by eauto. simpl. apply lookup_lt_Some in Hi. lia.
    + eapply work_promote; [done|congruence|done].
Qed.

Lemma watch_pass_ok n fuel : forall i w m,
  inv w -> (length (w_queue w) <= n)%nat -> (work n (w_queue w) i <= fuel)%nat ->
  exists w' m', watch_pass now has_mounts fuel i w m = Some ((), w', m') /\ inv w' /\ w_phase w' = w_phase w.
Proof.
  induction fuel as [|fuel IH]; intros i w m I Hn Hfuel;
    (destruct (w_queue w !! i) as [t|] eqn:Hi;
     [|exists w, m; split; [|done]; simpl; rewrite (reads_bind _ _ _ _ _ (reads_get w)); by rewrite Hi]);
    apply lookup_lt_Some in Hi as Hlt; [unfold work in Hfuel; lia|].
  cbn [watch_pass]. rewrite (reads_bind _ _ _ _ _ (reads_get w)), Hi.
  assert (t ∈ w_queue w) as Hin by (by eapply list_elem_of_lookup_2).
  assert (forall w2 m2 t2, inv w2 -> w_queue w2 !! i = Some t2 -> quiet w2 (t_ap t) ->
    t_ap t2 = t_ap t -> t_pending t2 = t_pending t -> w_phase w2 = w_phase w ->
    length (w_queue w2) = length (w_queue w) -> npending (w_queue w2) = npending (w_queue w) ->
    exists w' m', (remove_task i t ≫= watch_pass now has_mounts fuel) w2 m2 = Some ((), w', m') /\
      inv w' /\ w_phase w' = w_phase w) as Hremove.
  { intros w2 m2 t2 I2 Hi2 Hq2 Hap2 Hp2 Hph2 Hlen2 Hnp2.
    destruct (remove_task_ok n w2 m2 i t t2) as (j & w3 & Hrun & I3 & Hph3 & Hlen3 & Hwork3); [done..|lia|].
    rewrite (bind_some _ _ _ _ _ _ _ Hrun), <- Hph2, <- Hph3. apply IH; [done..|].
    unfold work in *. rewrite Hlen2, Hnp2 in *. lia. }
  assert (forall w2 m2, inv w2 -> w_phase w2 = w_phase w -> length (w_queue w2) = length (w_queue w) ->
    npending (w_queue w2) = npending (w_queue w) ->
    exists w' m', watch_pass now has_mounts fuel (S i) w2 m2 = Some ((), w', m') /\
      inv w' /\ w_phase w' = w_phase w) as Hnext.
  { intros w2 m2 I2 Hph2 Hlen2 Hnp2. rewrite <- Hph2. apply IH; [done|lia|].
    pose proof (work_next n (w_queue w) (w_queue w2) i). lia. }
  destruct ((t_thid t =? 0) && t_cancel t) eqn:Hc.
  { boolify. eapply Hremove; eauto using inv_quiet. }
  destruct (t_busy t) eqn:Hb; simpl; [|clear Hc].
  - destruct (t_thid t =? 0) eqn:Hthid; [by apply Hnext|]. destruct (t_cancel t) eqn:Hcancel.
    + rewrite !bind_modify. apply Hnext; [|done|simpl; by rewrite length_alter|simpl; by apply alter_pending].
      apply inv_alter_keeps; [|auto with autofs]. by destruct I; constructor.
    + destruct (t_done t) eqn:Hd; simpl; [|by apply Hnext]. eapply Hremove; eauto using inv_quiet.
  - unfold mark_busy. rewrite bind_modify.
    destruct (run_marked w m i t I Hi Hb) as (r & w' & m' & Hrun & I' & Hph & Hout).
    rewrite (bind_some _ _ _ _ _ _ _ Hrun). destruct Hout as [(-> & Hq & Hw)|(-> & thid & Hw)]; simpl.
    + apply (Hremove w' m' (set_busy t)); try done; rewrite Hw;
        rewrite ?list_lookup_alter_eq, ?Hi, ?length_alter, ?alter_pending; done.
    + apply Hnext; try done; rewrite Hw; rewrite ?length_alter, ?alter_pending; done.
Qed.

(** ** The handler *)

Lemma work_pass_fuel q : (work (length q) q 0 <= pass_fuel q)%nat.
Proof. unfold work, pass_fuel. pose proof (npending_le q). nia. Qed.

Lemma st_queue_handler_ok : triple st_inv (st_queue_handler now has_mounts) (fun _ => st_inv).
Proof.
  intros w m [I Hph]. unfold st_queue_handler. rewrite (reads_bind _ _ _ _ _ (reads_get w)).
  destruct (w_phase w) eqn:E.
  - case_bool_decide as Hemp; [do 3 eexists; split; [reflexivity|]; by split|].
    destruct (first_pass_ok (pass_fuel (w_queue w)) 0 w m) as (w' & m' & Hrun & I').
    + done.
    + eapply Forall_impl; [by apply Hph|]. by intros t [? _].
    + unfold pass_fuel. nia.
    + rewrite (bind_some _ _ _ _ _ _ _ Hrun). do 3 eexists. split; [reflexivity|].
      split; [by destruct I'; constructor|done].
  - destruct (w_signaled w); simpl; [|do 3 eexists; split; [reflexivity|]; by split].
    destruct (watch_pass_ok (length (w_queue w)) (pass_fuel (w_queue w)) 0 w m)
      as (w' & m' & Hrun & I' & Hph'); [done..|apply work_pass_fuel|].
    rewrite (bind_some _ _ _ _ _ _ _ Hrun), (reads_bind _ _ _ _ _ (reads_get w')).
    rewrite E in Hph'.
    case_bool_decide as Hemp; do 3 eexists; (split; [reflexivity|]); (split; [by destruct I'; constructor|]).
    + intros _. simpl. by rewrite Hemp.
    + unfold phase_ok. simpl. by rewrite Hph'.
Qed.
End Run.
