(* ===== verification/StateProps.v ===== *)
(** * The state machine: what holds in every interleaving

    The steps of the daemon are the atomic sections of daemon/state.c: a request
    for a task by any thread, the removal of the tasks of a mount point, the end
    of an expire or readmap thread, and a run of the queue handler. *)

From S2P Require Import Prelude Alarm StateQueue StateInv.

(** ** The operations preserve the invariant *)

Definition okap (ap : ap_id) (w : world) : Prop := st_inv w /\ is_Some (w_aps w !! ap).

Lemma okap_upd ap f : keeps_threads f -> triple (okap ap) (upd_ap ap f) (fun _ => okap ap).
Proof.
  intros Hf. apply triple_modify. intros w [[I Hph] Hap].
  split; [split; [by apply inv_upd_keeps|done]|]. simpl. by rewrite lookup_alter_is_Some.
Qed.

Lemma okap_ready ap : triple (okap ap) (st_ready ap) (fun _ => okap ap).
Proof.
  apply (triple_bind _ _ (fun _ => okap ap)); [by apply okap_upd|]. intros ?. by apply triple_ret.
Qed.

Lemma okap_assert ap n b :
  n <> 219 /\ n <> 517 -> triple (okap ap) (assert_line n b) (fun _ => okap ap).
Proof.
  intros Hn. unfold assert_line. destruct b; [by apply triple_ret|]. apply triple_modify.
  intros w [[I Hph] Hap]. split; [split; [|done]|done].
  destruct I as [? ? ? ? ? ? ? [Ha1 Ha2]]. constructor; simpl; try done.
  rewrite !not_elem_of_cons. split; split; lia || done.
Qed.

Lemma okap_signal ap : triple (okap ap) signal (fun _ => okap ap).
Proof.
  apply triple_modify. intros w [[I Hph] Hap]. split; [split; [by destruct I; constructor|done]|done].
Qed.

Lemma okap_shutdown ap : triple (okap ap) (st_shutdown ap) (fun _ => okap ap).
Proof.
  apply triple_get_ap; [by intros w [_ ?]|]. intros p.
  apply (triple_bind _ _ (fun _ => okap ap)).
  { apply (triple_conseq _ (okap ap) _ _ (fun _ => okap ap)); [by apply okap_assert|by intros w [? _]|done]. }
  intros ?. apply (triple_bind _ _ (fun _ => okap ap)); [by apply okap_upd|]. intros ?.
  apply (triple_bind _ _ (fun _ => okap ap)); [|intros ?; by apply triple_ret].
  apply triple_modify. intros w [[I Hph] Hap]. split; [split; [by destruct I; constructor|done]|done].
Qed.

Lemma okap_pending ap s : triple (okap ap) (add_pending ap s) (fun _ => okap ap).
Proof.
  unfold add_pending, st_alloc_task.
  apply (triple_bind _ _ (fun _ => okap ap)).
  { apply (triple_bind _ _ (fun _ => okap ap)); [apply triple_malloc|].
    intros [|]; by apply triple_ret. }
  intros [n|]; [|by apply triple_ret]. apply triple_modify. intros w [[I Hph] Hap].
  split; [split|done]; [by apply inv_update_first_keeps|].
  intros E. simpl. apply Forall_update_first; [by apply Hph|done].
Qed.

Lemma first_task_none ap q : first_task ap q = None -> ap ∉ t_ap <$> q.
Proof.
  induction q as [|t q IH]; simpl; [set_solver|]. case_bool_decide; [done|]. intros H'%IH. set_solver.
Qed.

Lemma first_task_some ap q t : first_task ap q = Some t -> t ∈ q /\ t_ap t = ap.
Proof.
  induction q as [|u q IH]; simpl; [done|]. case_bool_decide; [intros [= ->]; set_solver|].
  intros H'%IH. set_solver.
Qed.

Lemma okap_new_task ap s w m :
  okap ap w -> first_task ap (w_queue w) = None ->
  exists x w' m',
    (new ← st_alloc_task ap s;
     match new with None => mret () | Some n => modify (with_queue (cons n)) end) w m
      = Some (x, w', m') /\ okap ap w'.
Proof.
  intros [[I Hph] Hap] Hnone. unfold st_alloc_task.
  destruct m as [|[] m]; do 3 eexists; (split; [reflexivity|]); [..|done];
    (split; [split|done]); try (intros E; constructor; [done|by apply Hph]);
    (apply (inv_new_task _ _ ap s); [done|by apply first_task_none|done|done]).
Qed.

Lemma okap_add_task ap s : triple (okap ap) (__st_add_task ap s) (fun _ => okap ap).
Proof.
  unfold __st_add_task. case_bool_decide.
  { apply (triple_bind _ _ (fun _ => okap ap)); [apply okap_ready|]. intros ?.
    apply (triple_bind _ _ (fun _ => okap ap)); [apply okap_signal|]. intros ?. by apply triple_ret. }
  apply triple_get_ap; [by intros w [_ ?]|]. intros p.
  apply (triple_conseq _ (okap ap) _ _ (fun _ => okap ap)); [|by intros w [? _]|done].
  case_bool_decide; [by apply triple_ret|]. case_bool_decide; [apply okap_shutdown|].
  apply triple_get. intros w Hw. apply (triple_bind _ _ (fun _ => okap ap)).
  - destruct (first_task ap (w_queue w)) as [t|] eqn:Hft.
    + apply (triple_conseq _ (okap ap) _ _ (fun _ => okap ap)); [|by intros ? ->|done].
      destruct (_ || _); [by apply triple_ret|]. destruct (bool_decide _); [apply okap_pending|].
      destruct (existsb _ _); [by apply triple_ret|apply okap_pending].
    + intros w' m ->. by apply okap_new_task.
  - intros ?. apply (triple_bind _ _ (fun _ => okap ap)); [apply okap_signal|]. intros ?. by apply triple_ret.
Qed.

Lemma remove_keeps ap : keeps_run (fun t => if bool_decide (t_ap t = ap) then remove_from t else t).
Proof. intros t. case_bool_decide; [|done]. unfold remove_from. by destruct (t_busy t && _). Qed.

Lemma st_remove_tasks_ok ap : triple st_inv (st_remove_tasks ap) (fun _ => st_inv).
Proof.
  apply triple_get. intros w [I Hph]. case_bool_decide; [by apply triple_ret; intros ? ->|].
  intros w' m ->. do 3 eexists. split; [reflexivity|].
  pose proof (inv_fmap_keeps w _ I (remove_keeps ap)) as I'. split; [by destruct I'; constructor|].
  intros E. simpl. apply Forall_fmap. eapply Forall_impl; [by apply Hph|]. intros t [H1 H2]. simpl.
  destruct (remove_keeps ap t) as (_ & -> & -> & _). done.
Qed.

(** ** The end of a worker thread *)

(** The last thing a thread does is its cleanup handler. *)
Definition expire_end (now : Z) (has_mounts : ap_id -> bool) (ignore_busy : bool) (th : thread)
    (success rv : Z) (idle : bool) : WM unit :=
  pthread_exit th;;
  expire_cleanup now has_mounts ignore_busy (th_id th) (th_ap th) success rv idle.

Definition readmap_end (th : thread) : WM unit :=
  pthread_exit th;;
  do_readmap_cleanup (th_ap th).

Lemma inv_exit w th : inv w -> inv (with_threads (filter (fun t => th_id t <> th_id th)) w).
Proof.
  intros [Hok Hnd Haps Hth Hid Hlive Hone Has]. constructor; simpl; try done.
  - by apply Forall_filter.
  - eapply sublist_NoDup; [exact Hone|]. apply fmap_sublist, sublist_filter.
Qed.

(** The mount point forgets a thread that has ended. *)
Definition forget (k : worker) : autofs_point -> autofs_point :=
  match k with Expire => set_exp_thread 0 | Readmap => set_readmap_thread 0 end.

Lemma inv_forget w k ap :
  inv w -> ap ∉ th_ap <$> w_threads w -> inv (with_aps (alter (forget k) ap) w).
Proof.
  intros [Hok Hnd Haps Hth Hid Hlive Hone Has] Hno. constructor; simpl; try done.
  - intros t Ht. rewrite lookup_alter_is_Some. auto.
  - intros ap' p' (p & Hp & ->)%lookup_alter_Some. specialize (Hth ap' p Hp).
    case_decide; [|done]. destruct Hth as (H1 & H2 & H3). destruct k; simpl; split_and!; simpl; auto; done.
  - rewrite Forall_forall in *. intros th Hin. destruct (Hlive th Hin) as (H0 & p & Hp & Heq).
    split; [exact H0|]. simpl. rewrite lookup_alter_ne; [eauto|]. intros E. apply Hno. rewrite E.
    apply list_elem_of_fmap. eauto.
Qed.

(** After its only thread has ended a mount point is quiet, and its task is the
    one the thread ran for. *)
Lemma thread_end w th :
  st_inv w -> th ∈ w_threads w ->
  exists i t, w_queue w !! i = Some t /\ t_ap t = th_ap th /\ t_busy t = true /\
    w_phase w = Watching /\
    calm (th_ap th) (w_queue w) Watching
      (with_aps (alter (forget (th_kind th)) (th_ap th))
         (with_threads (filter (fun t => th_id t <> th_id th)) w)).
Proof.
  intros [I Hph] Hin. pose proof (inv_live _ I) as Hlive. rewrite Forall_forall in Hlive.
  destruct (Hlive th Hin) as (H0 & p & Hp & Heq).
  destruct (inv_threads _ I _ _ Hp) as (He & Hr & Hor).
  assert (runs_for (w_queue w) (th_ap th) (th_id th)) as (t & Ht & Hap & Hb & _).
  { destruct (th_kind th); simpl in Heq; rewrite <- Heq; [apply He|apply Hr]; lia. }
  apply list_elem_of_lookup in Ht as [i Hi]. exists i, t.
  assert (w_phase w = Watching) as Hw.
  { destruct (w_phase w) eqn:E; [|done]. specialize (Hph E). rewrite Forall_forall in Hph.
    destruct (Hph t) as [? _]; [by eapply list_elem_of_lookup_2|congruence]. }
  split_and!; try done. split_and!; [|..|done|done].
  - apply inv_forget; [by apply inv_exit|]. simpl. intros (u & Hu & Hin')%list_elem_of_fmap.
    apply list_elem_of_filter in Hin' as [Hne Hin']. apply Hne. f_equal.
    apply list_elem_of_lookup in Hin as [a Ha]. apply list_elem_of_lookup in Hin' as [b Hb'].
    assert (a = b) as ->; [|congruence].
    eapply NoDup_lookup; [apply (inv_one _ I)|..]; rewrite list_lookup_fmap; [by rewrite Ha|].
    rewrite Hb'. simpl. by rewrite Hu.
  - intros p' (p'' & Hp'' & ->)%lookup_alter_Some. simpl in Hp''. rewrite decide_True by done.
    rewrite Hp in Hp''. injection Hp'' as <-. destruct (th_kind th); simpl in *; lia.
Qed.

(** The task of a quiet mount point is done. *)
Lemma calm_done ap q i t :
  q !! i = Some t -> t_ap t = ap -> t_busy t = true ->
  triple (calm ap q Watching) (st_set_done ap) (fun _ => okap ap).
Proof.
  intros Hi Hap Hb. apply triple_modify. intros w Hc. pose proof Hc as (I & Hq & Hw & Hp).
  assert (update_first ap set_done (w_queue w) = alter set_done i (w_queue w)) as Hupd
    by (eapply update_first_alter; [apply I|by rewrite Hw|done]).
  split; [split|].
  - apply inv_with_queue; [done|..].
    + rewrite Hupd. apply Forall_alter; [apply I|]. intros u Hu _ Hbu. simpl in Hbu. congruence.
    + by apply update_first_ap.
    + intros ap' thid H0 Hnq Hr. apply (runs_for_mono _ _ _ _ Hr). intros u Hu Hapu ? ? ?.
      exists u. split; [|done]. rewrite Hupd. apply list_elem_of_lookup in Hu as [j Hj].
      apply list_elem_of_lookup. exists j. rewrite list_lookup_alter_ne; [done|].
      intros ->. apply Hnq. congruence.
  - unfold phase_ok. simpl. by rewrite Hp.
  - simpl. by eapply (calm_ap ap q).
Qed.

Section Ends.
Context (now : Z) (has_mounts : ap_id -> bool) (ignore_busy : bool).

Lemma calm_expire_next ap q i t p success rv idle :
  q !! i = Some t -> t_ap t = ap ->
  triple (calm ap q Watching) (expire_next now has_mounts ignore_busy ap p success rv idle)
    (fun _ => calm ap q Watching).
Proof.
  intros Hi Hap. set (C := calm ap q Watching).
  assert (forall s : states, triple C (add_alarm now has_mounts ap;; mret s) (fun _ => C)) as Halarm.
  { intros s. apply (triple_bind _ _ (fun _ => C)); [by eapply calm_add_alarm|]. intros ?. by apply triple_ret. }
  unfold expire_next. destruct (ap_state p); try (by apply triple_ret).
  - simpl. destruct (_ && _); [by apply triple_ret|]. apply Halarm.
  - simpl. destruct (_ && _); [by apply triple_ret|].
    apply (triple_bind _ _ (fun _ => C)); [by apply triple_ret|]. intros ?. by apply triple_ret.
  - destruct (_ && _); [apply Halarm|]. destruct ignore_busy; [by apply triple_ret|].
    destruct (success =? 0); [by apply triple_ret|apply Halarm].
Qed.

Lemma expire_end_ok w m th success rv idle :
  st_inv w -> th ∈ w_threads w -> th_kind th = Expire ->
  exists w' m', expire_end now has_mounts ignore_busy th success rv idle w m = Some ((), w', m') /\ st_inv w'.
Proof.
  intros I Hin Hk. destruct (thread_end w th I Hin) as (i & t & Hi & Hap & Hb & _ & Hc).
  rewrite Hk in Hc. destruct I as [I _]. pose proof (inv_live _ I) as Hlive. rewrite Forall_forall in Hlive.
  destruct (Hlive th Hin) as (H0 & p & Hp & Heq). rewrite Hk in Heq. simpl in Heq.
  unfold expire_end, pthread_exit. rewrite bind_modify. unfold expire_cleanup.
  set (w1 := with_threads _ w) in *.
  assert (reads (get_ap (th_ap th)) w1 p) as Hread by (intros m1; unfold get_ap, w1; simpl; by rewrite Hp).
  rewrite (reads_bind _ _ _ _ _ Hread).
  replace (th_id th =? ap_exp_thread p) with true by (symmetry; apply Z.eqb_eq; lia). simpl negb. cbv iota.
  assert (exists s w2 m2, (upd_ap (th_ap th) (set_exp_thread 0);;
      expire_next now has_mounts ignore_busy (th_ap th) p success rv idle) w1 m = Some (s, w2, m2) /\
      calm (th_ap th) (w_queue w) Watching w2) as (s & w2 & m2 & Hrun & HC).
  { unfold upd_ap. rewrite bind_modify. by eapply calm_expire_next. }
  rewrite (bind_some _ _ _ _ _ _ _ Hrun).
  destruct (calm_done (th_ap th) (w_queue w) i t Hi Hap Hb w2 m2 HC) as (? & w3 & m3 & Hrun3 & Hok).
  rewrite (bind_some _ _ _ _ _ _ _ Hrun3).
  case_bool_decide; [exists w3, m3; split; [done|apply Hok]|].
  destruct (okap_add_task (th_ap th) s w3 m3 Hok) as (r & w4 & m4 & Hrun4 & [I4 _]).
  exists w4, m4. split; [|done]. by rewrite (bind_some _ _ _ _ _ _ _ Hrun4).
Qed.

Lemma readmap_end_ok w m th :
  st_inv w -> th ∈ w_threads w -> th_kind th = Readmap ->
  exists w' m', readmap_end th w m = Some ((), w', m') /\ st_inv w'.
Proof.
  intros I Hin Hk. destruct (thread_end w th I Hin) as (i & t & Hi & Hap & Hb & _ & Hc).
  rewrite Hk in Hc. unfold readmap_end, pthread_exit, do_readmap_cleanup, upd_ap. rewrite !bind_modify.
  destruct (calm_done (th_ap th) (w_queue w) i t Hi Hap Hb _ m Hc) as (? & w3 & m3 & Hrun3 & Hok).
  rewrite (bind_some _ _ _ _ _ _ _ Hrun3).
  destruct (okap_ready (th_ap th) w3 m3 Hok) as (r & w4 & m4 & Hrun4 & [I4 _]).
  exists w4, m4. split; [|done]. by rewrite (bind_some _ _ _ _ _ _ _ Hrun4).
Qed.
End Ends.

(** ** Reachable states of the daemon *)

(** The mount point [ap] as [master_new_autofs_point] makes it. *)
Definition new_ap (submount : bool) (runfreq : Z) : autofs_point := AP ST_INIT false submount 0 0 runfreq.

(** Other parts of the daemon set the shutdown flag and the expire frequency. *)
Definition set_env (sd : bool) (freq : Z) (p : autofs_point) : autofs_point :=
  AP (ap_state p) sd (ap_submount p) (ap_exp_thread p) (ap_readmap_thread p) freq.

Inductive st_step (w : world) : world -> Prop :=
| step_add ap s m r w' m' :
    is_Some (w_aps w !! ap) -> st_add_task ap s w m = Some (r, w', m') -> st_step w w'
| step_remove ap m w' m' : st_remove_tasks ap w m = Some ((), w', m') -> st_step w w'
| step_expire_end now hm ib th success rv idle m w' m' :
    th ∈ w_threads w -> th_kind th = Expire ->
    expire_end now hm ib th success rv idle w m = Some ((), w', m') -> st_step w w'
| step_readmap_end th m w' m' :
    th ∈ w_threads w -> th_kind th = Readmap -> readmap_end th w m = Some ((), w', m') -> st_step w w'
| step_handler now hm m w' m' : st_queue_handler now hm w m = Some ((), w', m') -> st_step w w'
| step_new_ap ap sub freq :
    w_aps w !! ap = None -> st_step w (with_aps (insert ap (new_ap sub freq)) w)
| step_free_ap ap m :
    st_task_active ap ST_ANY w m = Some (false, w, m) -> st_step w (with_aps (delete ap) w)
| step_env ap sd freq : st_step w (with_aps (alter (set_env sd freq) ap) w)
| step_alarms l : st_step w (with_alarms l w).

(** The daemon before it has any mount point. *)
Definition boot : world := World ∅ [] false [] 1 [] [] [] [] Idle.

Definition reachable (w : world) : Prop := rtc st_step boot w.

Lemma boot_inv : st_inv boot.
Proof. split; [constructor; simpl; try constructor; set_solver|intros _; constructor]. Qed.

Lemma inv_new_ap w ap sub freq :
  st_inv w -> w_aps w !! ap = None -> st_inv (with_aps (insert ap (new_ap sub freq)) w).
Proof.
  intros [[Hok Hnd Haps Hth Hid Hlive Hone Has] Hph] Hnone. split; [|done].
  constructor; simpl; try done.
  - intros t Ht. destruct (decide (ap = t_ap t)) as [->|]; [rewrite lookup_insert_eq; eauto|].
    rewrite lookup_insert_ne by done. auto.
  - intros ap' p. rewrite lookup_insert. case_decide as E; [|auto].
    intros [= <-]. split_and!; simpl; auto; done.
  - rewrite Forall_forall in *. intros th Hin. destruct (Hlive th Hin) as (H0 & p & Hp & Heq).
    split; [exact H0|]. exists p. simpl. rewrite lookup_insert_ne; [done|]. intros ->. congruence.
Qed.

Lemma inactive_no_task ap w m :
  st_task_active ap ST_ANY w m = Some (false, w, m) -> ap ∉ t_ap <$> w_queue w.
Proof.
  unfold st_task_active. rewrite (reads_bind _ _ _ _ _ (reads_get w)). intros [= Hex].
  intros (t & -> & Ht)%list_elem_of_fmap. apply not_true_iff_false in Hex. apply Hex.
  apply existsb_exists. exists t. split; [by apply list_elem_of_In|].
  rewrite bool_decide_true by done. by rewrite orb_true_r.
Qed.

Lemma inv_free_ap w ap :
  st_inv w -> ap ∉ t_ap <$> w_queue w -> st_inv (with_aps (delete ap) w).
Proof.
  intros [[Hok Hnd Haps Hth Hid Hlive Hone Has] Hph] Hno. split; [|done].
  constructor; simpl; try done.
  - intros t Ht. rewrite lookup_delete_ne; [auto|]. intros ->. apply Hno, list_elem_of_fmap. eauto.
  - intros ap' p [Hne Hp]%lookup_delete_Some. auto.
  - rewrite Forall_forall in *. intros th Hin. destruct (Hlive th Hin) as (H0 & p & Hp & Heq).
    split; [exact H0|]. exists p. simpl. rewrite lookup_delete_ne; [done|]. intros ->.
    apply Hno. destruct (Hth _ _ Hp) as (He & Hr & _).
    assert (runs_for (w_queue w) (th_ap th) (th_id th)) as (t & Ht & <- & _);
      [|apply list_elem_of_fmap; eauto].
    destruct (th_kind th); simpl in Heq; rewrite <- Heq; [apply He|apply Hr]; lia.
Qed.

Lemma triple_run {S A} (P : S -> Prop) (c : M S A) (Q : A -> S -> Prop) s m x s' m' :
  triple P c Q -> P s -> c s m = Some (x, s', m') -> Q x s'.
Proof. intros H Hs Hrun. destruct (H s m Hs) as (? & ? & ? & ? & ?). by simplify_eq. Qed.

Lemma st_step_inv w w' : st_step w w' -> st_inv w -> st_inv w'.
Proof.
  intros Hstep I. destruct Hstep as [ap s m r w' m' Hap Hrun|ap m w' m' Hrun
    |now hm ib th success rv idle m w' m' Hin Hk Hrun|th m w' m' Hin Hk Hrun|now hm m w' m' Hrun
    |ap sub freq Hnone|ap m Hrun|ap sd freq|l].
  - by destruct (triple_run _ _ _ _ _ _ _ _ (okap_add_task ap s) (conj I Hap) Hrun).
  - exact (triple_run _ _ _ _ _ _ _ _ (st_remove_tasks_ok ap) I Hrun).
  - destruct (expire_end_ok now hm ib w m th success rv idle I Hin Hk) as (? & ? & ? & ?). by simplify_eq.
  - destruct (readmap_end_ok w m th I Hin Hk) as (? & ? & ? & ?). by simplify_eq.
  - exact (triple_run _ _ _ _ _ _ _ _ (st_queue_handler_ok now hm) I Hrun).
  - by apply inv_new_ap.
  - eapply inv_free_ap; [done|by eapply inactive_no_task].
  - destruct I. split; [by apply inv_upd_keeps|done].
  - destruct I as [I ?]. split; [by destruct I; constructor|done].
Qed.

Lemma reachable_inv w : reachable w -> st_inv w.
Proof.
  intros H. unfold reachable in H. remember boot as b eqn:E. assert (st_inv b) as Hb by (subst; apply boot_inv).
  clear E. induction H; eauto using st_step_inv.
Qed.
