(* ===== verification/StateClaims.v ===== *)
(** * The state machine: the properties

    What every interleaving of the threads guarantees, what the operations do to
    the requests of a mount point, and where requests are lost. *)

From S2P Require Import Prelude Alarm StateQueue StateInv StateProps.

(** ** Concrete runs *)

Definition no_mounts : ap_id -> bool := fun _ => false.

(** The requests a client can make, for runs of the daemon. *)
Inductive event :=
| EvAp (ap : ap_id) (sub : bool)
| EvAdd (ap : ap_id) (s : states)
| EvExpireEnd (success rv : Z) (idle : bool)
| EvReadmapEnd
| EvHandler.

Definition state_of {A} (o : option (A * world * alloc)) : option world :=
  match o with Some (_, w, _) => Some w | None => None end.

(** The thread that ends is the youngest. *)
Definition run_event (e : event) (w : world) : option world :=
  match e with
  | EvAp ap sub => if bool_decide (w_aps w !! ap = None)
                   then Some (with_aps (insert ap (new_ap sub 0)) w) else None
  | EvAdd ap s => if bool_decide (is_Some (w_aps w !! ap)) then state_of (st_add_task ap s w []) else None
  | EvExpireEnd success rv idle =>
      match w_threads w with
      | Thread i ap Expire :: _ =>
          state_of (expire_end 0 no_mounts false (Thread i ap Expire) success rv idle w [])
      | _ => None
      end
  | EvReadmapEnd =>
      match w_threads w with
      | Thread i ap Readmap :: _ => state_of (readmap_end (Thread i ap Readmap) w [])
      | _ => None
      end
  | EvHandler => state_of (st_queue_handler 0 no_mounts w [])
  end.

Fixpoint run_events (es : list event) (w : world) : option world :=
  match es with
  | [] => Some w
  | e :: es' => match run_event e w with Some w' => run_events es' w' | None => None end
  end.

Lemma state_of_some {A} (o : option (A * world * alloc)) w :
  state_of o = Some w -> exists x m, o = Some (x, w, m).
Proof. destruct o as [[[x w'] m]|]; [|done]. intros [= ->]. eauto. Qed.

Lemma run_event_step e w w' : run_event e w = Some w' -> st_step w w'.
Proof.
  destruct e as [ap sub|ap s|success rv idle| |]; cbn [run_event].
  - case_bool_decide; [|done]. intros [= <-]. by constructor.
  - case_bool_decide; [|done]. intros (x & m & Hrun)%state_of_some. by eapply step_add.
  - destruct (w_threads w) as [|[i ap []] l] eqn:E; try done. intros ([] & m & Hrun)%state_of_some.
    eapply step_expire_end; [|..|exact Hrun]; [rewrite E; by left|done].
  - destruct (w_threads w) as [|[i ap []] l] eqn:E; try done. intros ([] & m & Hrun)%state_of_some.
    eapply step_readmap_end; [|..|exact Hrun]; [rewrite E; by left|done].
  - intros ([] & m & Hrun)%state_of_some. by eapply step_handler.
Qed.

Lemma run_events_reachable es w : run_events es boot = Some w -> reachable w.
Proof.
  unfold reachable. generalize boot. induction es as [|e es IH]; simpl; intros b.
  - by intros [= ->].
  - destruct (run_event e b) as [b'|] eqn:E; [|done]. intros Hr. eapply rtc_l; [by eapply run_event_step|auto].
Qed.

Abbreviation ap1 := 1%positive.

Lemma run_reachable es : is_Some (run_events es boot) -> reachable (default boot (run_events es boot)).
Proof. intros [w Hw]. apply (run_events_reachable es). by rewrite Hw. Qed.

(** A mount point that is expiring. *)
Definition expiring : world :=
  default boot (run_events [EvAp ap1 false; EvAdd ap1 ST_READY; EvAdd ap1 ST_EXPIRE; EvHandler] boot).

Lemma expiring_reachable : reachable expiring.
Proof. apply run_reachable. eexists. vm_compute. reflexivity. Qed.

(** ** Every interleaving *)

(** C2. In every reachable state of the daemon a mount point has at most one task
    on the queue and at most one worker thread; each worker thread runs for the
    busy task of its mount point, which is not done; and the assertions that no
    thread runs when one is created (state.c:219 and 517) have never failed. *)
Theorem one_worker_per_mount_point w :
  reachable w ->
  NoDup (t_ap <$> w_queue w) /\ NoDup (th_ap <$> w_threads w) /\
  Forall (fun th => runs_for (w_queue w) (th_ap th) (th_id th)) (w_threads w) /\
  219 ∉ w_asserts w /\ 517 ∉ w_asserts w.
Proof.
  intros [I _]%reachable_inv. split_and!; try apply I. apply Forall_forall. intros th Hin.
  pose proof (inv_live _ I) as Hlive. rewrite Forall_forall in Hlive.
  destruct (Hlive th Hin) as (H0 & p & Hp & Heq). destruct (inv_threads _ I _ _ Hp) as (He & Hr & _).
  destruct (th_kind th); simpl in Heq; rewrite <- Heq; [apply He|apply Hr]; lia.
Qed.

Lemma one_worker_witness :
  length (w_threads expiring) = 1%nat /\ NoDup (th_ap <$> w_threads expiring).
Proof.
  split; [vm_compute; reflexivity|]. apply (one_worker_per_mount_point expiring expiring_reachable).
Defined.

(** C28. Every atomic section of the state machine returns in every reachable
    state, whatever the allocator and [pthread_create] answer: the queue handler,
    whose passes restart when a pending task is promoted, a request of a task,
    and the ends of the worker threads. *)
Theorem st_operations_return w m :
  reachable w ->
  (forall now hm, exists w' m', st_queue_handler now hm w m = Some ((), w', m')) /\
  (forall ap s, is_Some (w_aps w !! ap) -> exists r w' m', st_add_task ap s w m = Some (r, w', m')) /\
  (forall ap, exists w' m', st_remove_tasks ap w m = Some ((), w', m')) /\
  (forall th now hm ib success rv idle, th ∈ w_threads w -> th_kind th = Expire ->
     exists w' m', expire_end now hm ib th success rv idle w m = Some ((), w', m')) /\
  (forall th, th ∈ w_threads w -> th_kind th = Readmap ->
     exists w' m', readmap_end th w m = Some ((), w', m')).
Proof.
  intros I%reachable_inv. split_and!.
  - intros now hm. destruct (st_queue_handler_ok now hm w m I) as ([] & w' & m' & ? & _). eauto.
  - intros ap s Hap. destruct (okap_add_task ap s w m (conj I Hap)) as (r & w' & m' & ? & _). eauto.
  - intros ap. destruct (st_remove_tasks_ok ap w m I) as ([] & w' & m' & ? & _). eauto.
  - intros th now hm ib success rv idle Hin Hk.
    destruct (expire_end_ok now hm ib w m th success rv idle I Hin Hk) as (w' & m' & ? & _). eauto.
  - intros th Hin Hk. destruct (readmap_end_ok w m th I Hin Hk) as (w' & m' & ? & _). eauto.
Qed.

Lemma st_operations_witness :
  exists w' m', st_queue_handler 5 no_mounts expiring [] = Some ((), w', m').
Proof. exact (proj1 (st_operations_return expiring [] expiring_reachable) 5 no_mounts). Defined.

(** ** Requests of a mount point *)

(** What is queued for a mount point: its task and the pending ones. *)
Definition requests (ap : ap_id) (q : list task) : list states :=
  match first_task ap q with
  | None => []
  | Some t => t_state t :: t_pending t
  end.

(** What a request does to the queue of a mount point. *)
Definition request (s : states) (o : option task) (closing : bool) : list states :=
  match o with
  | None => [s]
  | Some t =>
      if (bool_decide (t_state t = s) && negb (t_done t)) || closing || bool_decide (s ∈ t_pending t)
      then t_state t :: t_pending t
      else t_state t :: t_pending t ++ [s]
  end.

Lemma first_task_update_first ap f q :
  (forall t, t_ap (f t) = t_ap t) ->
  first_task ap (update_first ap f q) = f <$> first_task ap q.
Proof.
  intros Hf. induction q as [|t q IH]; [done|]. cbn [update_first first_task].
  case_bool_decide as E; cbn [first_task]; rewrite ?Hf; [by rewrite bool_decide_true|].
  by rewrite bool_decide_false.
Qed.

Lemma first_task_update_other ap ap' f q :
  (forall t, t_ap (f t) = t_ap t) -> ap <> ap' ->
  first_task ap' (update_first ap f q) = first_task ap' q.
Proof.
  intros Hf Hne. induction q as [|t q IH]; [done|]. cbn [update_first first_task].
  case_bool_decide as E; cbn [first_task]; rewrite ?Hf; [by rewrite !bool_decide_false by congruence|].
  by rewrite IH.
Qed.

Lemma existsb_pending (s : states) l closing :
  existsb (fun x => bool_decide (x = s) || closing) l = true <->
  l <> [] /\ (closing = true \/ s ∈ l).
Proof.
  rewrite existsb_exists. split.
  - intros (x & Hx & [Hc|Hc]%orb_true_iff); apply list_elem_of_In in Hx; boolify; subst; split; auto;
      intros ->; by apply not_elem_of_nil in Hx.
  - intros [Hne [->|Hs]].
    + destruct l as [|x l]; [done|]. exists x. split; [by left|]. by rewrite orb_true_r.
    + exists s. split; [by apply list_elem_of_In|]. by rewrite bool_decide_true.
Qed.

Definition closing (p : autofs_point) : bool :=
  is_state (ap_state p) [ST_SHUTDOWN_PENDING; ST_SHUTDOWN_FORCE].

(** The part of [__st_add_task] that queues the request. *)
Definition queue_request (ap : ap_id) (s : states) (p : autofs_point) (q : list task) : WM unit :=
  match first_task ap q with
  | Some t =>
      if (bool_decide (t_state t = s) && negb (t_done t)) || closing p then mret ()
      else if bool_decide (t_pending t = []) then add_pending ap s
      else if existsb (fun x => bool_decide (x = s) || closing p) (t_pending t) then mret ()
      else add_pending ap s
  | None =>
      new ← st_alloc_task ap s;
      match new with None => mret () | Some n => modify (with_queue (cons n)) end
  end.

Lemma st_add_task_queues w m ap p s :
  w_aps w !! ap = Some p -> s <> ST_READY -> s <> ST_SHUTDOWN -> ap_state p <> ST_SHUTDOWN ->
  st_add_task ap s w m = (queue_request ap s p (w_queue w);; signal;; mret 1) w m.
Proof.
  intros Hp H1 H2 H3. unfold st_add_task, __st_add_task. rewrite bool_decide_false by done.
  assert (reads (get_ap ap) w p) as Hread by (intros m1; unfold get_ap; by rewrite Hp).
  rewrite (reads_bind _ _ _ _ _ Hread), !bool_decide_false by done. reflexivity.
Qed.

Lemma requests_pending ap s q t :
  first_task ap q = Some t ->
  requests ap (update_first ap (fun t => set_pending (t_pending t ++ [s]) t) q)
  = t_state t :: t_pending t ++ [s].
Proof. intros Ht. unfold requests. by rewrite first_task_update_first, Ht. Qed.

Lemma requests_other ap ap' f q :
  (forall t, t_ap (f t) = t_ap t) -> ap' <> ap -> requests ap' (update_first ap f q) = requests ap' q.
Proof. intros Hf Hne. unfold requests. by rewrite first_task_update_other by done. Qed.

Lemma queue_request_spec w ap p s :
  exists q', queue_request ap s p (w_queue w) w [] = Some ((), with_queue (fun _ => q') w, []) /\
    requests ap q' = request s (first_task ap (w_queue w)) (closing p) /\
    forall ap', ap' <> ap -> requests ap' q' = requests ap' (w_queue w).
Proof.
  assert (with_queue (fun _ => w_queue w) w = w) as Hid by (by destruct w).
  unfold queue_request, request. destruct (first_task ap (w_queue w)) as [t|] eqn:Ht.
  - assert (requests ap (w_queue w) = t_state t :: t_pending t) as Hreq by (unfold requests; by rewrite Ht).
    destruct (_ || closing p) eqn:E1; simpl; [exists (w_queue w); by rewrite Hid|].
    apply orb_false_iff in E1 as [_ Ecl].
    assert (exists q', add_pending ap s w [] = Some ((), with_queue (fun _ => q') w, []) /\
      requests ap q' = t_state t :: t_pending t ++ [s] /\
      forall ap', ap' <> ap -> requests ap' q' = requests ap' (w_queue w)) as Hadd.
    { eexists. split; [reflexivity|]. split; [by apply requests_pending|]. intros. by apply requests_other. }
    case_bool_decide as Hnil; [rewrite bool_decide_false by (rewrite Hnil; apply not_elem_of_nil); done|].
    destruct (existsb _ _) eqn:Eex; rewrite Ecl in Eex.
    + apply existsb_pending in Eex as [_ [?|Hin]]; [done|]. rewrite bool_decide_true by done.
      exists (w_queue w). by rewrite Hid.
    + rewrite bool_decide_false; [done|]. intros Hin. apply not_true_iff_false in Eex. apply Eex.
      apply existsb_pending. auto.
  - exists (new_task ap s :: w_queue w). split; [reflexivity|]. unfold requests. split.
    + cbn [first_task]. by rewrite bool_decide_true.
    + intros ap' Hne. cbn [first_task]. by rewrite bool_decide_false by (simpl; congruence).
Qed.

(** C31. A request for a task of a mount point that is not shut down is queued
    behind the ones it has, unless the same request is already pending or being
    carried out, or the mount point is closing; the requests of the other mount
    points stay; the queue handler is signalled. Without memory the request is
    dropped and still reported as added. *)
Theorem st_add_task_requests w ap p s :
  w_aps w !! ap = Some p -> s <> ST_READY -> s <> ST_SHUTDOWN -> ap_state p <> ST_SHUTDOWN ->
  (exists w', st_add_task ap s w [] = Some (1, w', []) /\
    requests ap (w_queue w') = request s (first_task ap (w_queue w)) (closing p) /\
    (forall ap', ap' <> ap -> requests ap' (w_queue w') = requests ap' (w_queue w)) /\
    w_aps w' = w_aps w /\ w_signaled w' = true) /\
  (exists w' m', st_add_task ap s w [false] = Some (1, w', m') /\ w_queue w' = w_queue w).
Proof.
  intros Hp H1 H2 H3. split.
  - destruct (queue_request_spec w ap p s) as (q' & Hrun & Hreq & Hother).
    rewrite (st_add_task_queues w [] ap p s Hp H1 H2 H3), (bind_some _ _ _ _ _ _ _ Hrun).
    eexists. split; [reflexivity|]. done.
  - rewrite (st_add_task_queues w [false] ap p s Hp H1 H2 H3). unfold queue_request.
    destruct (first_task ap (w_queue w)) as [t|]; [|do 2 eexists; split; reflexivity].
    destruct (_ || closing p); [do 2 eexists; split; reflexivity|].
    destruct (bool_decide _); [do 2 eexists; split; reflexivity|].
    destruct (existsb _ _); do 2 eexists; split; reflexivity.
Qed.

Lemma st_add_task_requests_witness :
  exists w', st_add_task ap1 ST_READMAP expiring [] = Some (1, w', []) /\
    requests ap1 (w_queue w') = [ST_EXPIRE; ST_READMAP].
Proof.
  destruct (st_add_task_requests expiring ap1 (AP ST_EXPIRE false false 1 0 0) ST_READMAP)
    as [(w' & Hrun & Hreq & _) _]; [vm_compute; reflexivity|done|done|done|].
  exists w'. split; [exact Hrun|]. rewrite Hreq. vm_compute. reflexivity.
Defined.

(** ** The end of an expire thread *)

(** The state of the mount point [p] after its expire thread has ended. *)
Definition after_expire (ignore_busy : bool) (p : autofs_point) (success rv : Z) (idle : bool) : states :=
  match ap_state p with
  | ST_EXPIRE | ST_PRUNE =>
      if ap_submount p && (success =? 0) && (rv =? 0) && idle then ap_state p else ST_READY
  | ST_READY => ST_READY
  | ST_SHUTDOWN_PENDING =>
      if (rv =? 0) && negb idle && negb (ap_shutdown p) then ST_READY
      else if ignore_busy || (success =? 0) then ST_SHUTDOWN else ST_READY
  | ST_SHUTDOWN_FORCE => ST_SHUTDOWN
  | s => s
  end.

Lemma add_alarm_run now hm ap w m :
  is_Some (w_aps w !! ap) ->
  exists l m', add_alarm now hm ap w m = Some ((), with_alarms l w, m').
Proof.
  intros [p Hp]. unfold add_alarm.
  assert (reads (get_ap ap) w p) as Hread by (intros m1; unfold get_ap; by rewrite Hp).
  rewrite (reads_bind _ _ _ _ _ Hread), (reads_bind _ _ _ _ _ (reads_get w)).
  destruct (_ || _).
  - rewrite bind_ret_l. destruct (conditional_alarm_add _ _ _ _ _ _ _) as [[? l] ?]. by exists l, m.
  - destruct (bind_malloc (fun ok => let '(_, alarms, _) := conditional_alarm_add (ap_submount p) (hm ap)
      now ok ap (ap_exp_runfreq p) (w_alarms w) in modify (with_alarms alarms)) w m) as (b & m' & -> & _).
    destruct (conditional_alarm_add _ _ _ _ _ _ _) as [[? l] ?]. by exists l, m'.
Qed.

(** The outcome of the [switch] of [expire_cleanup]. *)
Definition next_of (ignore_busy : bool) (p : autofs_point) (success rv : Z) (idle : bool) : states :=
  match ap_state p with
  | ST_EXPIRE | ST_PRUNE =>
      if ap_submount p && (success =? 0) && (rv =? 0) && idle then ST_SHUTDOWN_PENDING else ST_READY
  | ST_READY | ST_SHUTDOWN_PENDING | ST_SHUTDOWN_FORCE => after_expire ignore_busy p success rv idle
  | _ => ST_INVAL
  end.

Lemma expire_next_run now hm ib ap p success rv idle w m :
  is_Some (w_aps w !! ap) ->
  exists l m', expire_next now hm ib ap p success rv idle w m
    = Some (next_of ib p success rv idle, with_alarms l w, m').
Proof.
  intros Hap. assert (with_alarms (w_alarms w) w = w) as Hid by (by destruct w).
  assert (forall s : states, exists l m', (add_alarm now hm ap;; mret s) w m = Some (s, with_alarms l w, m')) as Halarm.
  { intros s. destruct (add_alarm_run now hm ap w m Hap) as (l & m' & Hrun). exists l, m'.
    by rewrite (bind_some _ _ _ _ _ _ _ Hrun). }
  assert (forall s : states, exists l m', (mret s : WM states) w m = Some (s, with_alarms l w, m')) as Hret
    by (intros s; exists (w_alarms w), m; by rewrite Hid).
  unfold expire_next, next_of, after_expire. rewrite <- !andb_assoc.
  destruct (ap_state p); try apply Hret.
  - destruct (_ && _); [apply Hret|apply Halarm].
  - destruct (_ && _); apply Hret.
  - destruct (_ && _); [apply Halarm|]. destruct ib; [apply Hret|].
    destruct (success =? 0); [apply Hret|apply Halarm].
Qed.

Lemma done_kept ap s q t :
  first_task ap q = Some t ->
  exists t', first_task ap (update_first ap (fun t => set_pending (t_pending t ++ [s]) t) q) = Some t' /\
    t_done t' = t_done t.
Proof. intros Ht. rewrite first_task_update_first by done. rewrite Ht. by eexists. Qed.

(** A request for a mount point with a task that is done changes its pending
    tasks only. *)
Lemma queue_request_done ap s p w m t :
  first_task ap (w_queue w) = Some t -> t_done t = true ->
  exists q' m' t', queue_request ap s p (w_queue w) w m = Some ((), with_queue (fun _ => q') w, m') /\
    first_task ap q' = Some t' /\ t_done t' = true.
Proof.
  intros Ht Hd. assert (with_queue (fun _ => w_queue w) w = w) as Hid by (by destruct w).
  assert (exists q' m' t', (mret () : WM unit) w m = Some ((), with_queue (fun _ => q') w, m') /\
    first_task ap q' = Some t' /\ t_done t' = true) as Hret by (exists (w_queue w), m, t; by rewrite Hid).
  assert (exists q' m' t', add_pending ap s w m = Some ((), with_queue (fun _ => q') w, m') /\
    first_task ap q' = Some t' /\ t_done t' = true) as Hadd.
  { destruct (done_kept ap s _ t Ht) as (t' & Ht' & Hd'). rewrite Hd in Hd'.
    destruct m as [|[] m]; do 2 eexists.
    - exists t'. split; [reflexivity|]. done.
    - exists t'. split; [reflexivity|]. done.
    - exists t. split; [|exact (conj Ht Hd)]. unfold add_pending, st_alloc_task. simpl.
      unfold mbind, M_bind. simpl. by rewrite Hid. }
  unfold queue_request. rewrite Ht. destruct (_ || _); [done|]. destruct (bool_decide _); [done|].
  by destruct (existsb _ _).
Qed.

(** The last step of [expire_cleanup], in a state in which the task is done. *)
Lemma add_next_run ap p w m s :
  w_aps w !! ap = Some p ->
  (exists t, first_task ap (w_queue w) = Some t /\ t_done t = true) ->
  ap_state p <> ST_SHUTDOWN -> s <> ST_INVAL ->
  exists r w' m', __st_add_task ap s w m = Some (r, w', m') /\
    (exists t, first_task ap (w_queue w') = Some t /\ t_done t = true) /\
    (exists p', w_aps w' !! ap = Some p' /\ ap_exp_thread p' = ap_exp_thread p /\
       ap_state p' = if is_state s [ST_READY; ST_SHUTDOWN] then s else ap_state p) /\
    w_kills w' = if bool_decide (s = ST_SHUTDOWN) then ap :: w_kills w else w_kills w.
Proof.
  intros Hp (t & Ht & Hd) Hst Hinv. destruct (decide (s = ST_READY)) as [->|H1].
  { do 3 eexists. split; [reflexivity|]. split; [eauto|]. split; [|done].
    simpl. rewrite lookup_alter_eq, Hp. by eexists. }
  destruct (decide (s = ST_SHUTDOWN)) as [->|H2].
  { unfold __st_add_task. rewrite bool_decide_false by done.
    assert (reads (get_ap ap) w p) as Hread by (intros m1; unfold get_ap; by rewrite Hp).
    rewrite (reads_bind _ _ _ _ _ Hread), bool_decide_false, bool_decide_true by done.
    unfold st_shutdown. rewrite (reads_bind _ _ _ _ _ Hread). unfold assert_line.
    destruct (is_state (ap_state p) _); do 3 eexists; (split; [reflexivity|]); (split; [eauto|]); simpl;
      rewrite lookup_alter_eq, Hp; simpl; eauto. }
  change (__st_add_task ap s) with (st_add_task ap s).
  rewrite (st_add_task_queues w m ap p s Hp H1 H2 Hst).
  destruct (queue_request_done ap s p w m t Ht Hd) as (q' & m' & t' & Hrun & Ht' & Hd').
  rewrite (bind_some _ _ _ _ _ _ _ Hrun). do 3 eexists. split; [reflexivity|]. simpl.
  split; [eauto|]. unfold is_state. rewrite !bool_decide_false by set_solver. split; [eauto|done].
Qed.

(** When the expire thread of a mount point ends, its task is done, the mount
    point has no expire thread any more, and its state is the one that the table
    [after_expire] gives: an expire or prune ends in the ready state, unless it
    emptied a submount, which asks to be shut down; a shutdown goes on to
    [ST_SHUTDOWN] unless the mount is in use again or still busy; and the mount
    point's thread gets its signal to end exactly when the state becomes
    [ST_SHUTDOWN]. *)
Theorem expire_end_state w m th p now hm ib success rv idle :
  reachable w -> th ∈ w_threads w -> th_kind th = Expire ->
  w_aps w !! th_ap th = Some p -> ap_state p <> ST_SHUTDOWN ->
  exists w' m', expire_end now hm ib th success rv idle w m = Some ((), w', m') /\
    (exists t, first_task (th_ap th) (w_queue w') = Some t /\ t_done t = true) /\
    (exists p', w_aps w' !! th_ap th = Some p' /\ ap_exp_thread p' = 0 /\
       ap_state p' = after_expire ib p success rv idle) /\
    w_kills w' = if bool_decide (after_expire ib p success rv idle = ST_SHUTDOWN)
                 then th_ap th :: w_kills w else w_kills w.
Proof.
  intros I%reachable_inv Hin Hk Hp Hst.
  destruct (thread_end w th I Hin) as (i & t & Hi & Hap & Hb & _ & _). destruct I as [I _].
  pose proof (inv_live _ I) as Hlive. rewrite Forall_forall in Hlive.
  destruct (Hlive th Hin) as (H0 & p0 & Hp0 & Heq). rewrite Hk in Heq. simpl in Heq.
  rewrite Hp in Hp0. injection Hp0 as <-.
  unfold expire_end, pthread_exit. rewrite bind_modify. unfold expire_cleanup.
  set (w1 := with_threads _ w).
  assert (reads (get_ap (th_ap th)) w1 p) as Hread by (intros m1; unfold get_ap; simpl; by rewrite Hp).
  rewrite (reads_bind _ _ _ _ _ Hread).
  replace (th_id th =? ap_exp_thread p) with true by (symmetry; apply Z.eqb_eq; lia). simpl negb. cbv iota.
  set (w2 := with_aps (alter (set_exp_thread 0) (th_ap th)) w1).
  assert (w_aps w2 !! th_ap th = Some (set_exp_thread 0 p)) as Hp2
    by (simpl; by rewrite lookup_alter_eq, Hp).
  destruct (expire_next_run now hm ib (th_ap th) p success rv idle w2 m) as (l & m2 & Hnext); [by rewrite Hp2|].
  assert ((upd_ap (th_ap th) (set_exp_thread 0);; expire_next now hm ib (th_ap th) p success rv idle) w1 m
    = Some (next_of ib p success rv idle, with_alarms l w2, m2)) as Hrun by exact Hnext.
  rewrite (bind_some _ _ _ _ _ _ _ Hrun). clear Hrun Hnext. unfold st_set_done. rewrite bind_modify.
  set (w3 := with_queue _ _).
  assert (exists t, first_task (th_ap th) (w_queue w3) = Some t /\ t_done t = true) as Hdone.
  { simpl. rewrite first_task_update_first by done.
    destruct (first_task (th_ap th) (w_queue w)) as [u|] eqn:E; [by eexists|].
    apply first_task_none in E. exfalso. apply E. rewrite <- Hap. apply list_elem_of_fmap. exists t.
    split; [done|]. by eapply list_elem_of_lookup_2. }
  assert (w_aps w3 !! th_ap th = Some (set_exp_thread 0 p)) as Hp3 by exact Hp2.
  case_bool_decide as Hinval.
  - exists w3, m2. split; [done|]. split; [done|].
    assert (after_expire ib p success rv idle = ap_state p) as ->.
    { revert Hinval. unfold next_of, after_expire. destruct (ap_state p); try done; repeat case_match; done. }
    rewrite bool_decide_false by done. split; [|done]. exists (set_exp_thread 0 p). done.
  - destruct (add_next_run (th_ap th) (set_exp_thread 0 p) w3 m2 (next_of ib p success rv idle))
      as (r & w4 & m4 & Hrun & Hd4 & (p' & Hp' & He' & Hs') & Hk4); [done..|].
    exists w4, m4. rewrite (bind_some _ _ _ _ _ _ _ Hrun). split; [done|]. split; [done|].
    assert (after_expire ib p success rv idle = ap_state p') as Hafter.
    { rewrite Hs'. revert Hinval. unfold next_of, after_expire. simpl.
      destruct (ap_state p); try done; repeat case_match; try done. }
    split; [exists p'; auto|]. rewrite Hk4. simpl. f_equal. rewrite Hafter, Hs'.
    unfold is_state. repeat case_bool_decide; try done; simpl in *; congruence || set_solver.
Qed.

Lemma expire_end_state_witness :
  exists w' m', expire_end 7 no_mounts false (Thread 1 ap1 Expire) 0 0 true expiring [] = Some ((), w', m') /\
    exists p', w_aps w' !! ap1 = Some p' /\ ap_state p' = ST_READY.
Proof.
  destruct (expire_end_state expiring [] (Thread 1 ap1 Expire) (AP ST_EXPIRE false false 1 0 0)
              7 no_mounts false 0 0 true)
    as (w' & m' & Hrun & _ & (p' & Hp' & _ & Hst) & _);
    [exact expiring_reachable|vm_compute; by left|done|vm_compute; reflexivity|done|].
  exists w', m'. split; [exact Hrun|]. exists p'. split; [exact Hp'|exact Hst].
Defined.

(** ** Removing the tasks of a mount point *)

Lemma first_task_fmap ap g q :
  (forall t, t_ap (g t) = t_ap t) -> first_task ap (g <$> q) = g <$> first_task ap q.
Proof.
  intros Hg. induction q as [|t q IH]; [done|]. rewrite fmap_cons. cbn [first_task]. rewrite Hg.
  by case_bool_decide.
Qed.

(** [st_remove_tasks] leaves of the pending requests of the mount point
    exactly the ones for a shutdown, marks its running task for cancellation when
    that is an expire, prune or readmap, touches no other mount point, and signals
    the queue handler. *)
Theorem st_remove_tasks_spec w m ap t :
  first_task ap (w_queue w) = Some t ->
  exists w', st_remove_tasks ap w m = Some ((), w', m) /\ w_signaled w' = true /\
    (exists t', first_task ap (w_queue w') = Some t' /\ t_state t' = t_state t /\
       t_cancel t' = (t_busy t && is_state (t_state t) [ST_EXPIRE; ST_PRUNE; ST_READMAP]) || t_cancel t /\
       (forall s, s ∈ t_pending t' <->
          s ∈ t_pending t /\ (s = ST_SHUTDOWN_PENDING \/ s = ST_SHUTDOWN_FORCE))) /\
    (forall ap', ap' <> ap -> first_task ap' (w_queue w') = first_task ap' (w_queue w)) /\
    w_aps w' = w_aps w.
Proof.
  intros Ht. unfold st_remove_tasks. rewrite (reads_bind _ _ _ _ _ (reads_get w)).
  rewrite bool_decide_false by (intros E; by rewrite E in Ht).
  eexists. split; [reflexivity|]. split; [done|]. simpl. split_and!; [|..|done].
  - exists (remove_from t). split_and!.
    + rewrite first_task_fmap by apply remove_keeps. rewrite Ht. simpl.
      by rewrite bool_decide_true by (by eapply first_task_some).
    + unfold remove_from. by destruct (t_busy t && _).
    + unfold remove_from. destruct (t_busy t && _); simpl; done.
    + intros s. assert (t_pending (remove_from t) = filter (fun s =>
          is_state s [ST_SHUTDOWN_PENDING; ST_SHUTDOWN_FORCE] = true) (t_pending t)) as ->
        by (unfold remove_from; by destruct (t_busy t && _)).
      rewrite list_elem_of_filter. unfold is_state. rewrite bool_decide_eq_true. set_solver.
  - intros ap' Hne. rewrite first_task_fmap by apply remove_keeps.
    destruct (first_task ap' (w_queue w)) as [u|] eqn:E; [|done]. simpl.
    apply first_task_some in E as [_ <-]. by rewrite bool_decide_false.
Qed.

Lemma st_remove_tasks_witness :
  exists w', st_remove_tasks ap1 expiring [] = Some ((), w', []) /\
    exists t', first_task ap1 (w_queue w') = Some t' /\ t_cancel t' = true.
Proof.
  destruct (st_remove_tasks_spec expiring [] ap1 (Task 1 ap1 ST_EXPIRE true false false []))
    as (w' & Hrun & _ & (t' & Ht & _ & Hc & _) & _); [vm_compute; reflexivity|].
  exists w'. split; [exact Hrun|]. exists t'. split; [exact Ht|exact Hc].
Defined.

(** ** Requests that are lost, and a request that waits *)

(** When a task gives way to its pending requests only the first of them is
    kept: the mount point's new task has no pending requests, whatever the old one
    had. *)
Theorem promotion_keeps_only_first w m i t s l :
  NoDup (t_ap <$> w_queue w) -> w_queue w !! i = Some t -> t_pending t = s :: l ->
  exists j w', remove_task i t w m = Some (j, w', m) /\ requests (t_ap t) (w_queue w') = [s].
Proof.
  intros Hnd Hi Hp. unfold remove_task. rewrite (reads_bind _ _ _ _ _ (reads_get w)), Hp.
  do 2 eexists. split; [reflexivity|]. simpl. pose proof (delete_not_in _ _ _ Hnd Hi) as Hno.
  unfold requests. induction (delete i (w_queue w)) as [|u q IH]; simpl.
  - by rewrite bool_decide_true.
  - rewrite fmap_cons, not_elem_of_cons in Hno. destruct Hno as [Hne Hno].
    rewrite bool_decide_false by done. by apply IH.
Qed.

Lemma promotion_witness :
  exists j w', remove_task 0 (Task 1 ap1 ST_EXPIRE true true false [ST_READMAP; ST_SHUTDOWN_PENDING])
      (with_queue (fun _ => [Task 1 ap1 ST_EXPIRE true true false [ST_READMAP; ST_SHUTDOWN_PENDING]]) boot) []
    = Some (j, w', []) /\ requests ap1 (w_queue w') = [ST_READMAP].
Proof.
  apply (promotion_keeps_only_first
    (with_queue (fun _ => [Task 1 ap1 ST_EXPIRE true true false [ST_READMAP; ST_SHUTDOWN_PENDING]]) boot)
    [] 0 (Task 1 ap1 ST_EXPIRE true true false [ST_READMAP; ST_SHUTDOWN_PENDING]) ST_READMAP [ST_SHUTDOWN_PENDING]);
    [by apply NoDup_singleton|reflexivity|reflexivity].
Defined.

(** The daemon can lose a shutdown request: a mount point that is asked to
    re-read its map and to shut down while it expires re-reads its map, and ends
    ready with nothing queued, the shutdown forgotten. *)
Theorem shutdown_request_lost :
  exists w, reachable w /\
    run_events [EvAp ap1 false; EvAdd ap1 ST_READY; EvAdd ap1 ST_EXPIRE; EvHandler;
                EvAdd ap1 ST_READMAP; EvAdd ap1 ST_SHUTDOWN_PENDING;
                EvExpireEnd 0 0 true; EvHandler; EvReadmapEnd; EvAdd ap1 ST_READY; EvHandler] boot = Some w /\
    (ap_state <$> w_aps w !! ap1) = Some ST_READY /\ requests ap1 (w_queue w) = [] /\ w_kills w = [].
Proof.
  assert (exists w, run_events [EvAp ap1 false; EvAdd ap1 ST_READY; EvAdd ap1 ST_EXPIRE; EvHandler;
                EvAdd ap1 ST_READMAP; EvAdd ap1 ST_SHUTDOWN_PENDING;
                EvExpireEnd 0 0 true; EvHandler; EvReadmapEnd; EvAdd ap1 ST_READY; EvHandler] boot = Some w /\
    (ap_state <$> w_aps w !! ap1) = Some ST_READY /\ requests ap1 (w_queue w) = [] /\ w_kills w = [])
    as (w & Hrun & Hrest) by (eexists; split; [vm_compute; reflexivity|vm_compute; auto]).
  exists w. split; [by eapply run_events_reachable|done].
Qed.

(** The assertion of [st_prepare_shutdown] that the mount point is ready or
    expiring (state.c:578) can fail: a submount that a prune empties is still in
    the state [ST_PRUNE] when its shutdown starts. *)
Theorem prune_submount_assert_fails : exists w, reachable w /\ 578 ∈ w_asserts w.
Proof.
  assert (exists w, run_events [EvAp ap1 true; EvAdd ap1 ST_READY; EvAdd ap1 ST_PRUNE; EvHandler;
      EvExpireEnd 0 0 true; EvHandler] boot = Some w /\ 578 ∈ w_asserts w)
    as (w & Hrun & Hin) by (eexists; split; [vm_compute; reflexivity|vm_compute; by left]).
  exists w. split; [by eapply run_events_reachable|done].
Qed.

(** The end of a readmap thread does not wake the queue handler: there is a
    reachable state in which no thread runs, a request is pending behind a task
    that is done, and a run of the queue handler changes nothing. *)
Theorem readmap_end_stalls_pending :
  exists w, reachable w /\ w_threads w = [] /\
    (exists t, first_task ap1 (w_queue w) = Some t /\ t_done t = true /\ t_pending t = [ST_EXPIRE]) /\
    forall now hm m, st_queue_handler now hm w m = Some ((), w, m).
Proof.
  assert (exists w, run_events [EvAp ap1 false; EvAdd ap1 ST_READY; EvAdd ap1 ST_READMAP; EvHandler;
      EvAdd ap1 ST_EXPIRE; EvHandler; EvReadmapEnd] boot = Some w /\ w_threads w = [] /\
      (exists t, first_task ap1 (w_queue w) = Some t /\ t_done t = true /\ t_pending t = [ST_EXPIRE]) /\
      w_phase w = Watching /\ w_signaled w = false)
    as (w & Hrun & Hth & Ht & Hph & Hsig)
    by (eexists; split; [vm_compute; reflexivity|]; split; [reflexivity|]; split;
        [eexists; vm_compute; split; reflexivity || auto|done]).
  exists w. split; [by eapply run_events_reachable|]. split; [done|]. split; [done|].
  intros now hm m. unfold st_queue_handler. rewrite (reads_bind _ _ _ _ _ (reads_get w)).
  by rewrite Hph, Hsig.
Qed.

(** ** Waiting for a task *)

Lemma wait_loop_spec active seconds fuel : forall n wait duration,
  0 < seconds -> Z.of_nat n = 5 * duration + wait -> 0 <= wait <= 4 ->
  Z.of_nat n < 5 * seconds -> 5 * seconds - Z.of_nat n <= Z.of_nat fuel ->
  exists r, wait_loop fuel active n wait duration seconds = Some r /\
    ((r = 1 /\ exists k, (n <= k)%nat /\ Z.of_nat k < 5 * seconds /\ active k = false) \/
     (r = 0 /\ forall k, (n <= k)%nat -> Z.of_nat k < 5 * seconds -> active k = true)).
Proof.
  induction fuel as [|fuel IH]; intros n wait duration Hs Hn Hw Hlt Hfuel; [lia|]. cbn [wait_loop].
  destruct (active n) eqn:Ha; simpl; [|exists 1; split; [done|]; left; split; [done|]; exists n; auto with lia].
  destruct (negb (seconds =? 0) && _) eqn:E.
  - exists 0. split; [done|]. right. split; [done|]. intros k Hk1 Hk2. boolify.
    replace k with n; [done|]. destruct (wait =? 4) eqn:E4; boolify; lia.
  - assert (seconds > (if wait =? 4 then duration + 1 else duration)) as Hd.
    { apply andb_false_iff in E as [E|E]; boolify; lia. }
    destruct (IH (S n) (if wait =? 4 then 0 else wait + 1) (if wait =? 4 then duration + 1 else duration))
      as (r & Hr & Hspec); [done|destruct (wait =? 4) eqn:E4; boolify; lia..|].
    exists r. split; [done|]. destruct Hspec as [(-> & k & H1 & H2 & H3)|[-> Hall]].
    + left. split; [done|]. exists k. split; [lia|done].
    + right. split; [done|]. intros k Hk1 Hk2. destruct (decide (k = n)) as [->|]; [done|]. apply Hall; lia.
Qed.

(** [st_wait_task] with a time limit makes at most five polls a second and
    returns within the limit; its result is 1 exactly when one of these polls
    found the task gone. *)
Theorem st_wait_task_bounded active seconds :
  0 < seconds ->
  exists r, st_wait_task (Z.to_nat (5 * seconds)) active seconds = Some r /\
    (r = 0 \/ r = 1) /\ (r = 1 <-> exists k, Z.of_nat k < 5 * seconds /\ active k = false).
Proof.
  intros Hs. destruct (wait_loop_spec active seconds (Z.to_nat (5 * seconds)) 0 0 0)
    as (r & Hr & Hspec); [lia..|]. exists r. split; [done|].
  destruct Hspec as [(-> & k & _ & H1 & H2)|[-> Hall]]; (split; [auto|]); split; try done; eauto.
  intros (k & H1 & H2). rewrite (Hall k) in H2; [done|lia|done].
Qed.

Lemma st_wait_task_witness : exists r, st_wait_task 10 (fun k => k <? 7)%nat 2 = Some r /\ r = 1.
Proof.
  destruct (st_wait_task_bounded (fun k => k <? 7)%nat 2) as (r & Hr & _ & Hiff); [lia|].
  exists r. split; [exact Hr|]. apply Hiff. exists 7%nat. split; [lia|reflexivity].
Defined.
