(* ===== verification/Macros.v ===== *)
(** * Macro substitution variables (lib/macros.c and the users of lib/mounts.c)

    A table of variables is the list of its entries from the head on. The tables
    of maps are passed around by their users; the system table is the state of
    the operations below. *)

From S2P Require Import Prelude CString.
From stdpp Require Import pretty.

Open Scope Z_scope.

(** [struct substvar]. *)
Record substvar := SV { sv_def : cstring; sv_val : cstring; sv_readonly : bool }.

#[global] Instance substvar_eq_dec : EqDecision substvar.
Proof. solve_decision. Defined.

Abbreviation table := (list substvar).

(** [!strncmp(str, sv->def, len) && sv->def[len] == '\0']. *)
Definition sv_match (s : cstring) (len : nat) (sv : substvar) : bool :=
  strneq s (sv_def sv) len && bool_decide (drop len (sv_def sv) = []).

(** The loops over a table that stop at the first match. *)
Fixpoint sv_find (s : cstring) (len : nat) (t : table) : option substvar :=
  match t with
  | [] => None
  | sv :: t' => if sv_match s len sv then Some sv else sv_find s len t'
  end.

(** [free(sv->val); sv->val = this] at the first match. *)
Fixpoint sv_assign (s : cstring) (len : nat) (v : cstring) (t : table) : table :=
  match t with
  | [] => []
  | sv :: t' => if sv_match s len sv then SV (sv_def sv) v (sv_readonly sv) :: t'
                else sv :: sv_assign s len v t'
  end.

(** [last->next = sv->next] at the first match. *)
Fixpoint sv_unlink (s : cstring) (len : nat) (t : table) : table :=
  match t with
  | [] => []
  | sv :: t' => if sv_match s len sv then t' else sv :: sv_unlink s len t'
  end.

(** ** The predefined variables *)

Record utsname := UTS { sysname : cstring; nodename : cstring; release : cstring;
                        version : cstring; machine : cstring }.

(** The static buffers of lib/macros.c. *)
Record sysinfo := Sys { si_un : utsname; si_processor : cstring; si_host : cstring;
                        si_domain : cstring; si_hostd : cstring; si_endian : cstring }.

(** The static variables, from [sv_osvers] on and from [sv_hostd] on. *)
Definition static_osvers (i : sysinfo) : table :=
  [SV (str "OSVERS") (version (si_un i)) true; SV (str "OSREL") (release (si_un i)) true;
   SV (str "OSNAME") (sysname (si_un i)) true; SV (str "HOST") (nodename (si_un i)) true;
   SV (str "CPU") (si_processor i) true; SV (str "ARCH") (machine (si_un i)) true].

Definition static_table (i : sysinfo) : table :=
  [SV (str "hostd") (si_hostd i) true; SV (str "domain") (si_domain i) true;
   SV (str "xhost") (si_host i) true; SV (str "host") (si_host i) true;
   SV (str "byte") (si_endian i) true; SV (str "false") (str "0") true;
   SV (str "true") (str "1") true; SV (str "dollar") (str "$") true] ++ static_osvers i.

(** [uname -p] of Linux, from [uname -m]. *)
Definition processor_of (m : cstring) : cstring :=
  match m with
  | c :: d :: rest =>
      if (c =a "i") && (schar "3" <=? schar d) && streq rest (str "86") then c :: "3"%char :: rest else m
  | _ => m
  end.

(** The part of a string behind the first occurrence of a character. *)
Definition after_first (s : cstring) (c : ascii) : option cstring :=
  match strchr s c with Some (_ :: t) => Some t | _ => None end.

(** The buffers as [macro_init] fills them on a little-endian machine: [un] is
    the answer of [uname], [gethostname] the host name, and [local_domain] the
    configured sub domain. *)
Definition macro_init (un : utsname) (gethostname : option cstring) (local_domain : option cstring) :
    sysinfo :=
  let '(host, domain, hostd) :=
    match gethostname with
    | None => ([], [], [])
    | Some name =>
        let host := before name "."%char in
        let domain := default [] (after_first name "."%char) in
        match local_domain with
        | Some d => (host, d, host ++ str "." ++ d)
        | None => (host, domain, if bool_decide (domain = []) then host else host ++ str "." ++ domain)
        end
    end in
  Sys un (processor_of (machine un)) host domain hostd (str "little").

(** ** Operations on the system table, the state *)

Abbreviation TM := (M table).

Definition macro_is_systemvar (s : cstring) (len : nat) : TM bool :=
  t ← get_state;
  mret (bool_decide (is_Some (sv_find s len t))).

(** A new entry: three allocations. *)
Definition new_substvar {S} (s : cstring) (len : nat) (v : cstring) : M S (option substvar) :=
  def ← malloc;
  if negb def then mret None
  else
    val ← malloc;
    if negb val then mret None
    else
      new ← malloc;
      if negb new then mret None else mret (Some (SV (take len s) v false)).

Definition macro_global_addvar (s : cstring) (len : nat) (value : cstring) : TM bool :=
  t ← get_state;
  let add :=
    new ← new_substvar s len value;
    match new with
    | None => mret false
    | Some sv => modify (cons sv);; mret true
    end in
  match sv_find s len t with
  | Some sv =>
      if negb (sv_readonly sv) then
        this ← malloc;
        if negb this then mret false
        else modify (sv_assign s len value);; mret true
      else add
  | None => add
  end.

Definition MAX_MACRO_STRING : Z := 128.

(** [macro_parse_globalvar]: without a [=] in the string the loop reads behind
    the end of the buffer, which leaves the model. *)
Definition macro_parse_globalvar (define : cstring) : TM bool :=
  if MAX_MACRO_STRING <=? strlen define then mret false
  else
    match after_first define "="%char with
    | None => stuck
    | Some value =>
        let buf := before define "="%char in
        macro_global_addvar buf (length buf) value
    end.

Definition macro_addvar {S} (t : table) (s : cstring) (len : nat) (value : option cstring) : M S table :=
  let v := default [] value in
  match sv_find s len t with
  | Some _ =>
      this ← malloc;
      if negb this then mret t else mret (sv_assign s len v t)
  | None =>
      new ← new_substvar s len v;
      match new with
      | None => mret t
      | Some sv => mret (sv :: t)
      end
  end.

Definition macro_global_removevar (s : cstring) (len : nat) : TM unit :=
  t ← get_state;
  match sv_find s len t with
  | Some sv => if negb (sv_readonly sv) then modify (sv_unlink s len) else mret ()
  | None => mret ()
  end.

Definition macro_removevar (t : table) (s : cstring) (len : nat) : table := sv_unlink s len t.

Definition macro_free_global_table (i : sysinfo) : TM unit := modify (fun _ => static_osvers i).

(** [macro_findvar]; [getenv] is [None] when the daemon is built without
    [ENABLE_EXT_ENV]. A variable of the environment is entered in a table that
    is dropped, and its head is returned. *)
Definition macro_findvar (getenv : option (cstring -> option cstring)) (t : table) (s : cstring) (len : nat) :
    TM (option substvar) :=
  sys ← get_state;
  match sv_find s len t with
  | Some lv => mret (Some lv)
  | None =>
      match sv_find s len sys with
      | Some sv => mret (Some sv)
      | None =>
          match getenv with
          | None => mret None
          | Some env =>
              if 512 <=? Z.of_nat len then stuck
              else
                match env (take len s) with
                | None => mret None
                | Some v => t' ← macro_addvar t s len (Some v); mret (head t')
                end
          end
      end
  end.

(** The environment as a map; [setenv] with overwriting. *)
Definition setenv_all (t : table) (env : gmap cstring cstring) : gmap cstring cstring :=
  foldl (fun env sv => <[sv_def sv := sv_val sv]> env) env t.

Definition macro_setenv (t : table) (env : gmap cstring cstring) : TM (gmap cstring cstring) :=
  sys ← get_state;
  mret (setenv_all t (setenv_all sys env)).

(** ** The users of lib/mounts.c *)

Definition MAX_ENV_NAME : Z := 15.

Definition set_env_name (prefix : option cstring) (name : cstring) : option cstring :=
  let len := strlen name + match prefix with Some p => strlen p | None => 0 end + 1 in
  if MAX_ENV_NAME <? len then None
  else Some (match prefix with Some p => p ++ name | None => name end).

Definition do_macro_addvar {S} (list : table) (prefix : option cstring) (name : cstring) (val : option cstring) :
    M S table :=
  match set_env_name prefix name with
  | Some new => macro_addvar list new (length new) val
  | None => mret list
  end.

Definition do_macro_removevar (list : table) (prefix : option cstring) (name : cstring) : table :=
  match set_env_name prefix name with
  | Some new => macro_removevar list new (length new)
  | None => list
  end.

Record thread_stdenv_vars := TSV { tsv_uid : Z; tsv_gid : Z; tsv_user : option cstring;
                                   tsv_group : option cstring; tsv_home : option cstring }.

Definition addstdenv (getenv : option (cstring -> option cstring)) (tsv : option thread_stdenv_vars)
    (sv : table) (prefix : option cstring) : TM table :=
  match tsv with
  | None => mret sv
  | Some tsv =>
      list ← do_macro_addvar sv prefix (str "UID") (Some (str (pretty (tsv_uid tsv))));
      list ← do_macro_addvar list prefix (str "GID") (Some (str (pretty (tsv_gid tsv))));
      list ← do_macro_addvar list prefix (str "USER") (tsv_user tsv);
      list ← do_macro_addvar list prefix (str "GROUP") (tsv_group tsv);
      list ← do_macro_addvar list prefix (str "HOME") (tsv_home tsv);
      mv ← macro_findvar getenv list (str "HOST") 4;
      match mv with
      | None => mret list
      | Some mv =>
          shost ← malloc;
          if negb shost then mret list
          else do_macro_addvar list prefix (str "SHOST") (Some (before (sv_val mv) "."%char))
      end
  end.

Definition removestdenv (sv : table) (prefix : option cstring) : table :=
  let list := do_macro_removevar sv prefix (str "UID") in
  let list := do_macro_removevar list prefix (str "USER") in
  let list := do_macro_removevar list prefix (str "HOME") in
  let list := do_macro_removevar list prefix (str "GID") in
  let list := do_macro_removevar list prefix (str "GROUP") in
  do_macro_removevar list prefix (str "SHOST").

(** The configured values of the amd variables (lib/defaults.c). *)
Record amd_conf := AmdConf { amd_arch : option cstring; amd_karch : option cstring; amd_os : option cstring;
  amd_full_os : option cstring; amd_os_ver : option cstring; amd_vendor : option cstring;
  amd_cluster : option cstring; amd_auto_dir : option cstring }.

Definition add_conf_var (name : string) (tmp : option cstring) : TM unit :=
  match tmp with
  | None => mret ()
  | Some v => _ ← macro_global_addvar (str name) (length (str name)) v; mret ()
  end.

(** [add_std_amd_vars]; [sv] is the system table as it was passed. *)
Definition add_std_amd_vars (getenv : option (cstring -> option cstring)) (conf : amd_conf) (sv : table) : TM unit :=
  add_conf_var "arch" (amd_arch conf);;
  add_conf_var "karch" (amd_karch conf);;
  add_conf_var "os" (amd_os conf);;
  add_conf_var "full_os" (amd_full_os conf);;
  add_conf_var "osver" (amd_os_ver conf);;
  add_conf_var "vendor" (amd_vendor conf);;
  match amd_cluster conf with
  | Some v => _ ← macro_global_addvar (str "cluster") 7 v; mret ()
  | None =>
      v ← macro_findvar getenv sv (str "domain") 4;
      match v with
      | None => mret ()
      | Some v =>
          if bool_decide (sv_val v = []) then mret ()
          else
            tmp ← malloc;
            if negb tmp then mret ()
            else _ ← macro_global_addvar (str "cluster") 7 (sv_val v); mret ()
      end
  end;;
  add_conf_var "autodir" (amd_auto_dir conf).

Definition remove_std_amd_vars : TM unit :=
  macro_global_removevar (str "autodir") 7;;
  macro_global_removevar (str "cluster") 7;;
  macro_global_removevar (str "vendor") 6;;
  macro_global_removevar (str "osver") 5;;
  macro_global_removevar (str "full_os") 7;;
  macro_global_removevar (str "os") 2;;
  macro_global_removevar (str "karch") 5;;
  macro_global_removevar (str "arch") 4.
