(* ===== verification/MacrosProps.v ===== *)
(** * Properties of the macro variables *)

From S2P Require Import Prelude CString Macros.
From stdpp Require Import pretty.

Open Scope Z_scope.

(** ** Matching *)

(** With a length inside the string, a match is equality of the names. *)
Lemma sv_match_iff s len sv :
  (len <= length s)%nat -> sv_match s len sv = true <-> sv_def sv = take len s.
Proof.
  intros Hlen. unfold sv_match. rewrite andb_true_iff, strneq_true, bool_decide_eq_true. split.
  - intros [Heq Hdrop]. rewrite Heq. rewrite <- (take_drop len (sv_def sv)) at 1. by rewrite Hdrop, app_nil_r.
  - intros ->. rewrite take_idemp. split; [done|]. apply drop_ge. rewrite length_take. lia.
Qed.

Lemma sv_match_spec s len sv :
  (len <= length s)%nat -> sv_match s len sv = bool_decide (sv_def sv = take len s).
Proof.
  intros Hlen. apply eq_bool_prop_intro. rewrite !Is_true_true, bool_decide_eq_true. by apply sv_match_iff.
Qed.

(** The value of a name in a table: its first entry. *)
Fixpoint value_of (n : cstring) (t : table) : option substvar :=
  match t with
  | [] => None
  | sv :: t' => if bool_decide (sv_def sv = n) then Some sv else value_of n t'
  end.

Lemma sv_find_value s len t : (len <= length s)%nat -> sv_find s len t = value_of (take len s) t.
Proof.
  intros Hlen. induction t as [|sv t IH]; [done|]. simpl. rewrite sv_match_spec by done. by rewrite IH.
Qed.

Lemma sv_find_full s t : sv_find s (length s) t = value_of s t.
Proof. rewrite sv_find_value by done. by rewrite firstn_all. Qed.

Lemma value_of_None n t : value_of n t = None <-> n ∉ sv_def <$> t.
Proof.
  induction t as [|sv t IH]; simpl; [set_solver|]. case_bool_decide; set_solver.
Qed.

Lemma value_of_assign s len v t n :
  (len <= length s)%nat ->
  value_of n (sv_assign s len v t) =
  if bool_decide (n = take len s) then (fun sv => SV (sv_def sv) v (sv_readonly sv)) <$> value_of n t
  else value_of n t.
Proof.
  intros Hlen. induction t as [|sv t IH]; simpl; [by destruct (bool_decide _)|].
  rewrite sv_match_spec by done. destruct (decide (sv_def sv = take len s)) as [E|E].
  - rewrite (bool_decide_true (sv_def sv = _)) by done. simpl.
    repeat (case_bool_decide; simpl in *); congruence.
  - rewrite (bool_decide_false (sv_def sv = take _ _)) by done. simpl. rewrite IH.
    repeat (case_bool_decide; simpl in *); congruence.
Qed.

Lemma assign_defs s len v t : sv_def <$> sv_assign s len v t = sv_def <$> t.
Proof. induction t as [|sv t IH]; [done|]. simpl. destruct (sv_match _ _ _); rewrite !fmap_cons; by rewrite ?IH. Qed.

Lemma value_of_unlink_other s len t n :
  (len <= length s)%nat -> n <> take len s -> value_of n (sv_unlink s len t) = value_of n t.
Proof.
  intros Hlen Hne. induction t as [|sv t IH]; [done|]. simpl. rewrite sv_match_spec by done.
  case_bool_decide as E; simpl; [rewrite bool_decide_false by congruence; done|]. by rewrite IH.
Qed.

Lemma unlink_fresh s len t :
  (len <= length s)%nat -> take len s ∉ sv_def <$> t -> sv_unlink s len t = t.
Proof.
  intros Hlen. induction t as [|sv t IH]; [done|]. rewrite fmap_cons, not_elem_of_cons. intros [H1 H2].
  simpl. rewrite sv_match_spec, bool_decide_false by done. by rewrite IH.
Qed.

Lemma unlink_defs s len t n : n ∈ sv_def <$> sv_unlink s len t -> n ∈ sv_def <$> t.
Proof.
  induction t as [|sv t IH]; [done|]. simpl. destruct (sv_match _ _ _); set_solver.
Qed.

Lemma unlink_NoDup s len t :
  (len <= length s)%nat -> NoDup (sv_def <$> t) ->
  NoDup (sv_def <$> sv_unlink s len t) /\ take len s ∉ sv_def <$> sv_unlink s len t.
Proof.
  intros Hlen. induction t as [|sv t IH]; [split; [done|set_solver]|].
  rewrite fmap_cons, NoDup_cons. intros [Hnot Hnd]. simpl. rewrite sv_match_spec by done.
  case_bool_decide as E; [rewrite E in Hnot; done|]. destruct (IH Hnd) as [H1 H2].
  rewrite fmap_cons, NoDup_cons, not_elem_of_cons. split_and!; [|done|congruence|done].
  intros Hin. apply Hnot. by eapply unlink_defs.
Qed.

(** ** Adding to and removing from a map's table *)

(** With memory, [macro_addvar] returns the table with the variable set. *)
Definition table_set (s : cstring) (len : nat) (v : cstring) (t : table) : table :=
  match sv_find s len t with
  | Some _ => sv_assign s len v t
  | None => SV (take len s) v false :: t
  end.

Lemma macro_addvar_run {S} t s len value (w : S) :
  macro_addvar t s len value w [] = Some (table_set s len (default [] value) t, w, []).
Proof. unfold macro_addvar, table_set. by destruct (sv_find s len t). Qed.

(** Whatever the allocator answers, the table is the new one or the old one. *)
Lemma macro_addvar_total {S} t s len value (w : S) m :
  exists t' m', macro_addvar t s len value w m = Some (t', w, m') /\
    (t' = t \/ t' = table_set s len (default [] value) t).
Proof.
  unfold macro_addvar, table_set. destruct (sv_find s len t).
  - destruct m as [|[] m]; do 2 eexists; (split; [reflexivity|]); auto.
  - unfold new_substvar. destruct m as [|[] [|[] [|[] m]]]; do 2 eexists; (split; [reflexivity|]); auto.
Qed.

Lemma value_of_set s len v t n :
  (len <= length s)%nat ->
  sv_val <$> value_of n (table_set s len v t) =
  if bool_decide (n = take len s) then Some v else sv_val <$> value_of n t.
Proof.
  intros Hlen. unfold table_set. rewrite sv_find_value by done.
  destruct (value_of (take len s) t) as [sv|] eqn:E.
  - rewrite value_of_assign by done. case_bool_decide as En; [|done]. subst. by rewrite E.
  - simpl. destruct (decide (n = take len s)) as [->|En]; [by rewrite !bool_decide_true|]. by rewrite !bool_decide_false.
Qed.

Lemma table_set_NoDup s len v t :
  (len <= length s)%nat -> NoDup (sv_def <$> t) -> NoDup (sv_def <$> table_set s len v t).
Proof.
  intros Hlen Hnd. unfold table_set. rewrite sv_find_value by done.
  destruct (value_of _ t) eqn:E; [by rewrite assign_defs|]. apply value_of_None in E.
  rewrite fmap_cons. by constructor.
Qed.

Lemma set_unlink_fresh s len v t :
  (len <= length s)%nat -> take len s ∉ sv_def <$> t ->
  sv_unlink s len (table_set s len v t) = t.
Proof.
  intros Hlen Hno. unfold table_set. rewrite sv_find_value by done.
  rewrite (proj2 (value_of_None _ _) Hno). simpl. rewrite sv_match_spec, bool_decide_true by done. done.
Qed.

(** [macro_addvar] either leaves the table as it was, when memory is short,
    or gives the name the value and leaves every other name as it was; the names
    of a table stay distinct. [macro_removevar] takes the name out and no other. *)
Theorem macro_table_correct {S} t s len value (w : S) m :
  (len <= length s)%nat -> NoDup (sv_def <$> t) ->
  (exists t' m', macro_addvar t s len value w m = Some (t', w, m') /\ NoDup (sv_def <$> t') /\
    (t' = t \/ forall n, sv_val <$> value_of n t' =
       if bool_decide (n = take len s) then Some (default [] value) else sv_val <$> value_of n t) /\
    (m = [] -> forall n, sv_val <$> value_of n t' =
       if bool_decide (n = take len s) then Some (default [] value) else sv_val <$> value_of n t)) /\
  NoDup (sv_def <$> macro_removevar t s len) /\
  (forall n, value_of n (macro_removevar t s len) =
     if bool_decide (n = take len s) then None else value_of n t).
Proof.
  intros Hlen Hnd. split.
  - destruct (macro_addvar_total t s len value w m) as (t' & m' & Hrun & Ht'). exists t', m'.
    split_and!; [done|destruct Ht' as [->| ->]; auto using table_set_NoDup| |].
    + destruct Ht' as [?| ->]; [by left|right]. intros n. by apply value_of_set.
    + intros ->. rewrite macro_addvar_run in Hrun. injection Hrun as <- _. intros n. by apply value_of_set.
  - destruct (unlink_NoDup s len t Hlen Hnd) as [H1 H2]. split; [done|]. intros n. case_bool_decide as E.
    + subst. by apply value_of_None.
    + by apply value_of_unlink_other.
Qed.

Lemma macro_table_witness :
  value_of (str "rfs") (macro_removevar [SV (str "fs") (str "/a") false; SV (str "rfs") (str "/b") false]
    (str "fs") 2) = Some (SV (str "rfs") (str "/b") false).
Proof.
  destruct (macro_table_correct [SV (str "fs") (str "/a") false; SV (str "rfs") (str "/b") false]
    (str "fs") 2 None () []) as (_ & _ & Hval).
  - simpl. lia.
  - refine (bool_decide_unpack _ _). vm_compute. exact I.
  - rewrite (Hval (str "rfs")). vm_compute. reflexivity.
Defined.

(** ** The system table *)

Lemma macro_findvar_value t s len sys m :
  (len <= length s)%nat ->
  macro_findvar None t s len sys m =
  Some (match value_of (take len s) t with Some sv => Some sv | None => value_of (take len s) sys end, sys, m).
Proof.
  intros Hlen. unfold macro_findvar. rewrite (reads_bind _ _ _ _ _ (reads_get sys)), !sv_find_value by done.
  destruct (value_of _ t); [done|]. by destruct (value_of _ sys).
Qed.

(** With memory, [macro_global_addvar] sets the first writable entry or adds one
    in front. *)
Definition global_set (s : cstring) (len : nat) (v : cstring) (sys : table) : table :=
  match sv_find s len sys with
  | Some sv => if sv_readonly sv then SV (take len s) v false :: sys else sv_assign s len v sys
  | None => SV (take len s) v false :: sys
  end.

Lemma macro_global_addvar_run s len v sys :
  macro_global_addvar s len v sys [] = Some (true, global_set s len v sys, []).
Proof.
  unfold macro_global_addvar, global_set. rewrite (reads_bind _ _ _ _ _ (reads_get sys)).
  destruct (sv_find s len sys) as [sv|]; [|done]. by destruct (sv_readonly sv).
Qed.

Lemma value_of_global_set s len v sys n :
  (len <= length s)%nat ->
  sv_val <$> value_of n (global_set s len v sys) =
  if bool_decide (n = take len s) then Some v else sv_val <$> value_of n sys.
Proof.
  intros Hlen. pose proof (value_of_set s len v sys n Hlen) as Hset. unfold table_set in Hset.
  unfold global_set. destruct (sv_find s len sys) as [sv|]; [|done]. destruct (sv_readonly sv); [|done].
  simpl. destruct (decide (n = take len s)) as [->|En]; [by rewrite !bool_decide_true|].
  by rewrite !bool_decide_false.
Qed.

(** The read-only entries of a table. *)
Definition readonly_vars (t : table) : table := filter (fun sv => sv_readonly sv = true) t.

Lemma readonly_assign s len v t sv :
  sv_find s len t = Some sv -> sv_readonly sv = false -> readonly_vars (sv_assign s len v t) = readonly_vars t.
Proof.
  induction t as [|u t IH]; [done|]. simpl. unfold readonly_vars in *. destruct (sv_match _ _ _).
  - intros [= ->] Hr. rewrite !filter_cons_False by (simpl; congruence). done.
  - intros Hf Hr. rewrite !filter_cons, (IH Hf Hr). done.
Qed.

Lemma readonly_unlink s len t sv :
  sv_find s len t = Some sv -> sv_readonly sv = false -> readonly_vars (sv_unlink s len t) = readonly_vars t.
Proof.
  induction t as [|u t IH]; [done|]. simpl. unfold readonly_vars in *. destruct (sv_match _ _ _).
  - intros [= ->] Hr. by rewrite filter_cons_False by congruence.
  - intros Hf Hr. rewrite !filter_cons, (IH Hf Hr). done.
Qed.

Lemma readonly_global_set s len v sys : readonly_vars (global_set s len v sys) = readonly_vars sys.
Proof.
  unfold global_set. destruct (sv_find s len sys) as [sv|] eqn:E; [|done].
  destruct (sv_readonly sv) eqn:Hr; [done|]. by eapply readonly_assign.
Qed.

(** Defining a global variable gives its name the value for every later
    lookup without a local variable, also when the name is one of the predefined
    read-only ones, which is then shadowed; no other name changes, and no
    read-only entry is ever changed or removed, by a definition or by a removal. *)
Theorem macro_global_correct s len v sys m :
  (len <= length s)%nat ->
  exists sys', macro_global_addvar s len v sys [] = Some (true, sys', []) /\
    (exists sv, macro_findvar None [] s len sys' m = Some (Some sv, sys', m) /\ sv_val sv = v) /\
    (forall n, n <> take len s -> sv_val <$> value_of n sys' = sv_val <$> value_of n sys) /\
    readonly_vars sys' = readonly_vars sys /\
    (exists sys'', macro_global_removevar s len sys m = Some ((), sys'', m) /\
       readonly_vars sys'' = readonly_vars sys).
Proof.
  intros Hlen. exists (global_set s len v sys). split; [apply macro_global_addvar_run|].
  pose proof (value_of_global_set s len v sys (take len s) Hlen) as Hv. rewrite bool_decide_true in Hv by done.
  split_and!.
  - rewrite macro_findvar_value by done. simpl. destruct (value_of _ _) as [sv|]; [|done].
    exists sv. split; [done|]. by injection Hv.
  - intros n Hne. by rewrite value_of_global_set, bool_decide_false by done.
  - apply readonly_global_set.
  - unfold macro_global_removevar. rewrite (reads_bind _ _ _ _ _ (reads_get sys)).
    destruct (sv_find s len sys) as [sv|] eqn:E; [|by eexists].
    destruct (sv_readonly sv) eqn:Hr; eexists; (split; [reflexivity|]); [done|]. by eapply readonly_unlink.
Qed.

(** A machine, for concrete runs. *)
Definition example_un : utsname := UTS (str "Linux") (str "box.example.org") (str "5.1") (str "#1") (str "i686").
Definition example_sys : sysinfo := macro_init example_un (Some (str "box.example.org")) None.

Lemma macro_global_witness :
  exists sys', macro_global_addvar (str "ARCH") 4 (str "mine") (static_table example_sys) []
    = Some (true, sys', []) /\ readonly_vars sys' = readonly_vars (static_table example_sys).
Proof.
  destruct (macro_global_correct (str "ARCH") 4 (str "mine") (static_table example_sys) [])
    as (sys' & Hrun & _ & _ & Hro & _); [simpl; lia|]. exists sys'. split; [exact Hrun|exact Hro].
Defined.

(** A definition "name=value" of the command line, shorter than the limit,
    defines the name up to the first equal sign as the rest; one with no equal
    sign reads behind the end of the buffer. *)
Theorem macro_parse_globalvar_correct name value sys m :
  "="%char ∉ name ->
  (strlen (name ++ str "=" ++ value) < MAX_MACRO_STRING ->
     macro_parse_globalvar (name ++ str "=" ++ value) sys [] = Some (true, global_set name (length name) value sys, [])) /\
  (MAX_MACRO_STRING <= strlen (name ++ str "=" ++ value) ->
     macro_parse_globalvar (name ++ str "=" ++ value) sys m = Some (false, sys, m)) /\
  (strlen name < MAX_MACRO_STRING -> macro_parse_globalvar name sys m = None).
Proof.
  intros Hn. unfold macro_parse_globalvar. split_and!; intros Hlen.
  - rewrite (proj2 (Z.leb_gt _ _) Hlen).
    assert (after_first (name ++ str "=" ++ value) "="%char = Some value) as ->.
    { unfold after_first. clear Hlen. induction name as [|c name IH]; simpl; [done|].
      rewrite not_elem_of_cons in Hn. destruct Hn as [Hne Hn].
      destruct (decide (c = "="%char)); [congruence|]. by apply IH. }
    change (str "=" ++ value) with ("="%char :: value). rewrite before_app by done.
    apply macro_global_addvar_run.
  - by rewrite (proj2 (Z.leb_le _ _) Hlen).
  - rewrite (proj2 (Z.leb_gt _ _) Hlen). unfold after_first. by rewrite (proj2 (strchr_None _ _) Hn).
Qed.

Lemma macro_parse_globalvar_witness :
  macro_parse_globalvar (str "A=b=c") (static_table example_sys) []
    = Some (true, global_set (str "A") 1 (str "b=c") (static_table example_sys), []) /\
  macro_parse_globalvar (str "A") (static_table example_sys) [] = None.
Proof.
  destruct (macro_parse_globalvar_correct (str "A") (str "b=c") (static_table example_sys) [])
    as (H1 & _ & H3); [refine (bool_decide_unpack _ _); vm_compute; exact I|].
  split; [apply H1; reflexivity|apply H3; reflexivity].
Defined.

(** ** The environment of programs *)

Lemma setenv_all_lookup t env n :
  NoDup (sv_def <$> t) ->
  setenv_all t env !! n = match value_of n t with Some sv => Some (sv_val sv) | None => env !! n end.
Proof.
  revert env. induction t as [|sv t IH]; intros env; [done|]. rewrite fmap_cons, NoDup_cons.
  intros [Hnot Hnd]. unfold setenv_all in *. simpl. rewrite IH by done. case_bool_decide as E.
  - subst. rewrite (proj2 (value_of_None _ _) Hnot). by rewrite lookup_insert_eq.
  - destruct (value_of n t); [done|]. by rewrite lookup_insert_ne.
Qed.

(** When the names of both tables are distinct, the environment that
    [macro_setenv] gives a program has for every name the value that
    [macro_findvar] finds for it, and the old one where it finds none. *)
Theorem macro_setenv_agrees t sys env n m :
  NoDup (sv_def <$> t) -> NoDup (sv_def <$> sys) ->
  exists env' found, macro_setenv t env sys m = Some (env', sys, m) /\
    macro_findvar None t n (length n) sys m = Some (found, sys, m) /\
    env' !! n = match found with Some sv => Some (sv_val sv) | None => env !! n end.
Proof.
  intros Ht Hs. do 2 eexists. split; [reflexivity|]. rewrite macro_findvar_value, firstn_all by done.
  split; [reflexivity|]. rewrite !setenv_all_lookup by done. by destruct (value_of n t).
Qed.

Lemma macro_setenv_witness :
  exists env', macro_setenv [SV (str "HOST") (str "me") false] ∅ (static_table example_sys) []
    = Some (env', static_table example_sys, []) /\ env' !! str "HOST" = Some (str "me").
Proof.
  destruct (macro_setenv_agrees [SV (str "HOST") (str "me") false] (static_table example_sys) ∅ (str "HOST") [])
    as (env' & found & Hrun & Hf & Henv).
  - apply NoDup_singleton.
  - refine (bool_decide_unpack _ _). vm_compute. exact I.
  - exists env'. split; [exact Hrun|]. rewrite Henv. revert Hf. vm_compute. intros Hf. by injection Hf as <-.
Defined.

(** A predefined variable that is redefined on the command line has its new
    value in map entries and its old value in the environment of program maps:
    [macro_findvar] finds the first entry of the name, [macro_setenv] exports the
    last. *)
Theorem macro_setenv_ignores_redefinition :
  exists sys' env' sv,
    macro_parse_globalvar (str "ARCH=mine") (static_table example_sys) [] = Some (true, sys', []) /\
    macro_findvar None [] (str "ARCH") 4 sys' [] = Some (Some sv, sys', []) /\ sv_val sv = str "mine" /\
    macro_setenv [] ∅ sys' [] = Some (env', sys', []) /\ env' !! str "ARCH" = Some (str "i686").
Proof.
  do 3 eexists. split; [vm_compute; reflexivity|]. split; [vm_compute; reflexivity|].
  split; [reflexivity|]. split; [unfold macro_setenv; reflexivity|]. vm_compute. reflexivity.
Qed.

(** ** The standard variables of a request *)

Lemma set_env_name_inj prefix a b x :
  set_env_name prefix a = Some x -> set_env_name prefix b = Some x -> a = b.
Proof.
  unfold set_env_name. destruct (_ <? _); [done|]. destruct (_ <? _); [done|]. intros [= <-].
  destruct prefix; intros [= Heq]; [by apply app_inv_head in Heq|done].
Qed.

(** The entry that [do_macro_addvar] adds for a name. *)
Definition std_entry (prefix : option cstring) (name v : cstring) : table :=
  match set_env_name prefix name with Some new => [SV new v false] | None => [] end.

Definition fresh_name (prefix : option cstring) (t : table) (name : cstring) : Prop :=
  forall new, set_env_name prefix name = Some new -> new ∉ sv_def <$> t.

Lemma fresh_entry prefix name name' v t :
  name <> name' -> fresh_name prefix t name -> fresh_name prefix (std_entry prefix name' v ++ t) name.
Proof.
  intros Hne Hfresh new Hnew. unfold std_entry. destruct (set_env_name prefix name') as [new'|] eqn:E; simpl.
  - rewrite not_elem_of_cons. split; [|by apply Hfresh]. intros ->. apply Hne. by eapply set_env_name_inj.
  - by apply Hfresh.
Qed.

Lemma do_macro_addvar_fresh {S} t prefix name val (w : S) :
  fresh_name prefix t name ->
  do_macro_addvar t prefix name val w [] = Some (std_entry prefix name (default [] val) ++ t, w, []).
Proof.
  intros Hf. unfold do_macro_addvar, std_entry. destruct (set_env_name prefix name) as [new|] eqn:E; [|done].
  rewrite macro_addvar_run. unfold table_set. rewrite sv_find_full.
  rewrite (proj2 (value_of_None _ _) (Hf new E)), firstn_all. done.
Qed.

Lemma do_macro_removevar_fresh t prefix name :
  fresh_name prefix t name -> do_macro_removevar t prefix name = t.
Proof.
  intros Hf. unfold do_macro_removevar, macro_removevar.
  destruct (set_env_name prefix name) as [new|] eqn:E; [|done].
  apply unlink_fresh; [done|]. rewrite firstn_all. by apply Hf.
Qed.

Lemma do_macro_removevar_same t prefix name v :
  do_macro_removevar (std_entry prefix name v ++ t) prefix name = t.
Proof.
  unfold do_macro_removevar, macro_removevar, std_entry. destruct (set_env_name prefix name) as [new|]; [|done].
  simpl. by rewrite sv_match_spec, firstn_all, bool_decide_true.
Qed.

Lemma do_macro_removevar_other t prefix name name' v :
  name <> name' ->
  do_macro_removevar (std_entry prefix name' v ++ t) prefix name
  = std_entry prefix name' v ++ do_macro_removevar t prefix name.
Proof.
  intros Hne. unfold do_macro_removevar, macro_removevar, std_entry.
  destruct (set_env_name prefix name) as [new|] eqn:E; [|done].
  destruct (set_env_name prefix name') as [new'|] eqn:E'; [|done]. simpl.
  rewrite sv_match_spec, firstn_all, bool_decide_false; [done| |done]. simpl.
  intros ->. apply Hne. by eapply set_env_name_inj.
Qed.

Definition std_names : list cstring :=
  [str "UID"; str "GID"; str "USER"; str "GROUP"; str "HOME"; str "SHOST"].

Ltac std_step t :=
  repeat first
    [ rewrite do_macro_removevar_same
    | rewrite (do_macro_removevar_fresh t) by assumption
    | rewrite do_macro_removevar_other by done ].

Lemma removestdenv_entries prefix t u g us gr h :
  Forall (fresh_name prefix t) std_names ->
  let t5 := std_entry prefix (str "HOME") h ++ std_entry prefix (str "GROUP") gr ++
    std_entry prefix (str "USER") us ++ std_entry prefix (str "GID") g ++ std_entry prefix (str "UID") u ++ t in
  removestdenv t5 prefix = t /\ forall s, removestdenv (std_entry prefix (str "SHOST") s ++ t5) prefix = t.
Proof.
  intros Hf. repeat (apply Forall_cons in Hf as [? Hf]). unfold removestdenv.
  split; [|intros s]; std_step t; reflexivity.
Qed.

(** [removestdenv] undoes [addstdenv]: after the standard variables of a
    request have been added to the table of a map, with or without a prefix, and
    removed again, the table is what it was, when it did not define them itself. *)
Theorem stdenv_roundtrip prefix t tsv sys :
  Forall (fresh_name prefix t) std_names ->
  exists t', addstdenv None tsv t prefix sys [] = Some (t', sys, []) /\ removestdenv t' prefix = t.
Proof.
  intros Hf. destruct tsv as [tsv|].
  2: { exists t. split; [done|]. repeat (apply Forall_cons in Hf as [? Hf]). unfold removestdenv. by std_step t. }
  unfold addstdenv.
  set (t5 := std_entry prefix (str "HOME") (default [] (tsv_home tsv)) ++
    std_entry prefix (str "GROUP") (default [] (tsv_group tsv)) ++
    std_entry prefix (str "USER") (default [] (tsv_user tsv)) ++
    std_entry prefix (str "GID") (str (pretty (tsv_gid tsv))) ++
    std_entry prefix (str "UID") (str (pretty (tsv_uid tsv))) ++ t).
  destruct (removestdenv_entries prefix t (str (pretty (tsv_uid tsv))) (str (pretty (tsv_gid tsv)))
    (default [] (tsv_user tsv)) (default [] (tsv_group tsv)) (default [] (tsv_home tsv)) Hf) as [Hr5 Hr6].
  repeat (apply Forall_cons in Hf as [? Hf]).
  do 5 (erewrite bind_some; [|apply do_macro_addvar_fresh; repeat (apply fresh_entry; [done|]); assumption]).
  simpl default. fold t5. erewrite bind_some by (apply macro_findvar_value; simpl; lia).
  destruct (match value_of _ t5 with Some _ => _ | None => _ end) as [mv|]; [|exists t5; by split].
  exists (std_entry prefix (str "SHOST") (before (sv_val mv) "."%char) ++ t5). split; [|apply Hr6].
  unfold malloc. simpl. apply do_macro_addvar_fresh. repeat (apply fresh_entry; [done|]). assumption.
Qed.

Lemma stdenv_roundtrip_witness :
  exists t', addstdenv None (Some (TSV 1000 100 (Some (str "joe")) (Some (str "users")) None))
      [SV (str "key") (str "k") false] (Some (str "AUTOFS_")) (static_table example_sys) []
    = Some (t', static_table example_sys, []) /\
    removestdenv t' (Some (str "AUTOFS_")) = [SV (str "key") (str "k") false].
Proof.
  apply stdenv_roundtrip. repeat constructor; intros new Hnew; injection Hnew as <-;
    refine (bool_decide_unpack _ _); vm_compute; exact I.
Defined.

(** ** The amd variables *)

Definition conf_set (name : string) (tmp : option cstring) (sys : table) : table :=
  match tmp with None => sys | Some v => global_set (str name) (length (str name)) v sys end.

Lemma add_conf_var_run name tmp sys : add_conf_var name tmp sys [] = Some ((), conf_set name tmp sys, []).
Proof.
  unfold add_conf_var, conf_set. destruct tmp as [v|]; [|done].
  by rewrite (bind_some _ _ _ _ _ _ _ (macro_global_addvar_run _ _ _ _)).
Qed.

Lemma conf_set_other name tmp sys n :
  str name <> n -> sv_val <$> value_of n (conf_set name tmp sys) = sv_val <$> value_of n sys.
Proof.
  intros Hne. unfold conf_set. destruct tmp as [v|]; [|done].
  rewrite value_of_global_set, firstn_all, bool_decide_false by done. done.
Qed.

(** [add_std_amd_vars] does not set the variable "cluster" from the domain:
    without a configured cluster its value stays what it was, whatever the domain
    is, since the lookup of "domain" compares four of its six characters. *)
Theorem cluster_ignores_domain conf sys :
  amd_cluster conf = None -> value_of (str "doma") sys = None ->
  exists sys', add_std_amd_vars None conf sys sys [] = Some ((), sys', []) /\
    sv_val <$> value_of (str "cluster") sys' = sv_val <$> value_of (str "cluster") sys.
Proof.
  intros Hc Hd. unfold add_std_amd_vars. rewrite Hc.
  do 6 erewrite bind_some by apply add_conf_var_run.
  set (sys6 := conf_set "vendor" _ _).
  assert (value_of (str "doma") sys6 = None) as Hd6.
  { apply (fmap_None sv_val). unfold sys6. rewrite !conf_set_other by done. by rewrite Hd. }
  eexists. split.
  - erewrite bind_some; [apply add_conf_var_run|].
    erewrite bind_some by (apply macro_findvar_value; simpl; lia).
    change (take 4 (str "domain")) with (str "doma"). rewrite Hd, Hd6. reflexivity.
  - unfold sys6. by rewrite !conf_set_other by done.
Qed.

Lemma cluster_witness :
  exists sys', add_std_amd_vars None (AmdConf None None None None None None None None)
      (static_table example_sys) (static_table example_sys) [] = Some ((), sys', []) /\
    sv_val <$> value_of (str "cluster") sys' = sv_val <$> value_of (str "cluster") (static_table example_sys).
Proof. apply cluster_ignores_domain; vm_compute; reflexivity. Defined.

(** ** The host names *)

(** [macro_init] splits the host name at its first dot; the full name is the
    host and the domain joined by a dot, where a configured sub domain takes the
    place of the domain; the processor type is the machine with every x86 made
    i386. *)
Theorem macro_init_names un name dom local :
  "."%char ∉ name ->
  let i := macro_init un (Some (name ++ str "." ++ dom)) None in
  let j := macro_init un (Some (name ++ str "." ++ dom)) (Some local) in
  si_host i = name /\ si_domain i = dom /\
  si_hostd i = (if bool_decide (dom = []) then name else name ++ str "." ++ dom) /\
  si_host j = name /\ si_domain j = local /\ si_hostd j = name ++ str "." ++ local /\
  macro_init un (Some name) None = Sys un (processor_of (machine un)) name [] name (str "little").
Proof.
  intros Hn. assert (before (name ++ str "." ++ dom) "."%char = name) as Hb by (by apply before_app).
  assert (after_first (name ++ str "." ++ dom) "."%char = Some dom) as Ha.
  { unfold after_first. clear Hb. induction name as [|c name IH]; simpl; [done|].
    rewrite not_elem_of_cons in Hn. destruct Hn as [Hne Hn].
    destruct (decide (c = "."%char)); [congruence|]. by apply IH. }
  assert (before name "."%char = name /\ after_first name "."%char = None) as [Hb' Ha'].
  { unfold after_first. rewrite (proj2 (strchr_None _ _) Hn). split; [|done]. clear -Hn.
    induction name as [|c name IH]; simpl; [done|]. rewrite not_elem_of_cons in Hn. destruct Hn as [Hne Hn].
    destruct (decide (c = "."%char)); [congruence|]. by rewrite IH. }
  unfold macro_init. rewrite Hb, Ha, Hb', Ha'. simpl. split_and!; done.
Qed.

Lemma macro_init_names_witness :
  si_hostd (macro_init example_un (Some (str "box.example.org")) None) = str "box.example.org" /\
  processor_of (str "i686") = str "i386".
Proof.
  split; [|reflexivity].
  destruct (macro_init_names example_un (str "box") (str "example.org") []) as (_ & _ & H & _);
    [refine (bool_decide_unpack _ _); vm_compute; exact I|]. exact H.
Defined.

Definition HOST_NAME_MAX : Z := 64.

(** The buffer of the full host name holds [HOST_NAME_MAX] characters, and a
    configured sub domain that fits the domain's buffer can overflow it. *)
Theorem macro_init_hostd_overflow :
  exists name local, strlen name < HOST_NAME_MAX /\ strlen local < HOST_NAME_MAX /\
    HOST_NAME_MAX < strlen (si_hostd (macro_init example_un (Some name) (Some local))).
Proof. exists (replicate 40 "a"%char), (replicate 40 "b"%char). vm_compute. auto. Qed.
