(* ===== verification/CatPath.v ===== *)
(** * Joining path names (lib/cat_path.c)

    The output buffer is the list of its [len] cells, [None] before they are
    written. A read or a write outside of the buffer, or a read of a cell that has
    not been written, leaves the model ([None]). The count [left] of the code is a
    [size_t]. *)

From S2P Require Import Prelude CString.

Abbreviation buffer := (list (option ascii)).

Definition SLASH : ascii := "/"%char.

(** [*s = c] and [*s] for the position [s] of the buffer. *)
Definition write (buf : buffer) (s : Z) (c : ascii) : option buffer :=
  if (0 <=? s) && (s <? Z.of_nat (length buf)) then Some (<[Z.to_nat s := Some c]> buf) else None.

Definition read (buf : buffer) (s : Z) : option ascii :=
  if (0 <=? s) && (s <? Z.of_nat (length buf)) then mjoin (buf !! Z.to_nat s) else None.

(** [while (( *++s = *++d) && --left) ;], where [d] is the rest of the string from
    [d + 1] on: the buffer, the position and the count. *)
Fixpoint copy_dir (d : cstring) (s lft : Z) (buf : buffer) : option (buffer * Z * Z) :=
  buf ← write buf (s + 1) (hd_char d);
  match d with
  | [] => Some (buf, s + 1, lft)
  | _ :: d' =>
      let lft := u64 (lft - 1) in
      if lft =? 0 then Some (buf, s + 1, lft) else copy_dir d' (s + 1) lft buf
  end.

(** [while ( *--s == '/' && (left++ < len)) *s = NUL;]: each round goes one
    position down, so [S s] rounds reach the start of the buffer. *)
Fixpoint strip_slashes (fuel : nat) (len s lft : Z) (buf : buffer) : option (buffer * Z * Z) :=
  match fuel with
  | O => None
  | S fuel' =>
      c ← read buf (s - 1);
      if negb (c =a SLASH) then Some (buf, s - 1, lft)
      else if negb (lft <? len) then Some (buf, s - 1, u64 (lft + 1))
      else
        buf ← write buf (s - 1) NUL;
        strip_slashes fuel' len (s - 1) (u64 (lft + 1)) buf
  end.

(** [if ( *b == '/') while ( *++b == '/');]. *)
Fixpoint skip_slashes (b : cstring) : cstring :=
  match b with
  | c :: b' => if c =a SLASH then skip_slashes b' else b
  | [] => []
  end.

(** [while (--left && ( *++s = *b++)) ;]. *)
Fixpoint copy_base (b : cstring) (s lft : Z) (buf : buffer) : option (buffer * Z * Z) :=
  let lft := u64 (lft - 1) in
  if lft =? 0 then Some (buf, s, lft)
  else
    buf ← write buf (s + 1) (hd_char b);
    match b with
    | [] => Some (buf, s + 1, lft)
    | _ :: b' => copy_base b' (s + 1) lft buf
    end.

(** [cat_path]: the result and the buffer. *)
Definition cat_path (buf : buffer) (dir base : cstring) : option (Z * buffer) :=
  let len := Z.of_nat (length buf) in
  buf ← write buf 0 (hd_char dir);
  '(buf, s, lft) ← (match dir with [] => Some (buf, 0, len) | _ :: d => copy_dir d 0 len buf end);
  if lft =? 0 then buf ← write buf s NUL; Some (0, buf)
  else
    '(buf, s, lft) ← strip_slashes (S (Z.to_nat s)) len s lft buf;
    buf ← write buf (s + 1) SLASH;
    '(buf, s, lft) ← copy_base (skip_slashes base) (s + 1) (u64 (lft - 1)) buf;
    if lft =? 0 then buf ← write buf s NUL; Some (0, buf)
    else Some (1, buf).

(** The string in a buffer, up to its first NUL. *)
Fixpoint cstr (buf : buffer) : option cstring :=
  match buf with
  | Some c :: buf' => if c =a NUL then Some [] else cons c <$> cstr buf'
  | _ => None
  end.

Definition PATH_MAX : Z := 4096.

(** [while ( *s++ && len < max) len++;]. *)
Fixpoint strlen_loop (s : cstring) (len max : Z) : Z :=
  match s with
  | [] => len
  | _ :: s' => if len <? max then strlen_loop s' (len + 1) max else len
  end.

Definition _strlen (s : cstring) (max : Z) : Z := strlen_loop s 0 max.

Definition ncat_path (buf : buffer) (dir base : cstring) (blen : Z) : option (Z * buffer) :=
  let alen := _strlen base blen in
  if (PATH_MAX <? blen) || (alen =? 0) then Some (0, buf)
  else cat_path buf dir (take (Z.to_nat alen) base).

(** [strncmp] and the [int] that [_strncmp] returns. *)
Fixpoint strncmp (s t : cstring) (n : nat) : Z :=
  match n with
  | O => 0
  | S n' =>
      match s, t with
      | [], [] => 0
      | c :: s', d :: t' => if c =a d then strncmp s' t' n' else uchar c - uchar d
      | _, _ => uchar (hd_char s) - uchar (hd_char t)
      end
  end.

Definition i32 (x : Z) : Z := (x + 2 ^ 31) mod 2 ^ 32 - 2 ^ 31.

Definition _strncmp (s1 s2 : cstring) (n : Z) : Z :=
  let len := strlen s1 in
  if negb (n =? 0) && negb (n =? len) then i32 (n - len) else strncmp s1 s2 (Z.to_nat n).

(** ** Buffers whose first part has been written *)

Lemma write_app (q : cstring) x (tl : buffer) c :
  write (fmap Some q ++ x :: tl) (Z.of_nat (length q)) c = Some (fmap Some (q ++ [c]) ++ tl).
Proof.
  unfold write. rewrite length_app, length_fmap. simpl.
  destruct (_ && _) eqn:E; [|apply andb_false_iff in E as [E|E]; boolify; lia].
  rewrite Nat2Z.id, insert_app_r_alt by (rewrite length_fmap; lia).
  rewrite length_fmap, Nat.sub_diag, fmap_app. simpl. by rewrite <- app_assoc.
Qed.

Lemma write_end (q : cstring) c : write (fmap Some q) (Z.of_nat (length q)) c = None.
Proof.
  unfold write. rewrite length_fmap. destruct (_ && _) eqn:E; [|done]. boolify. lia.
Qed.

Lemma write_last (q : cstring) x (tl : buffer) c :
  write (fmap Some (q ++ [x]) ++ tl) (Z.of_nat (length q)) c = Some (fmap Some (q ++ [c]) ++ tl).
Proof. rewrite fmap_app, <- app_assoc. apply write_app. Qed.

Lemma read_last (q : cstring) x (tl : buffer) :
  read (fmap Some (q ++ [x]) ++ tl) (Z.of_nat (length q)) = Some x.
Proof.
  unfold read. rewrite fmap_app, <- app_assoc, length_app, length_fmap. simpl.
  destruct (_ && _) eqn:E; [|apply andb_false_iff in E as [E|E]; boolify; lia].
  rewrite Nat2Z.id, lookup_app_r by (rewrite length_fmap; lia). by rewrite length_fmap, Nat.sub_diag.
Qed.

Lemma cstr_app (q : cstring) (tl : buffer) :
  NUL ∉ q -> cstr (fmap Some q ++ Some NUL :: tl) = Some q.
Proof.
  induction q as [|c q IH]; intros Hq; [done|]. rewrite not_elem_of_cons in Hq. destruct Hq as [Hne Hq].
  rewrite fmap_cons, <- app_comm_cons. cbn [cstr]. rewrite bool_decide_false by done. by rewrite IH.
Qed.

(** ** The loops *)

Lemma u64_small x : 0 <= x < 2 ^ 64 -> u64 x = x.
Proof. apply Z.mod_small. Qed.

Lemma hd_char_not_nul c s : hd_char (c :: s) = c.
Proof. done. Qed.

(** The directory is copied with its NUL; [q] is what has been written. *)
Lemma copy_dir_run d : forall q lft (tl : buffer),
  0 < lft < 2 ^ 64 -> Z.of_nat (length d) < lft ->
  (length d < length tl)%nat ->
  exists tl', copy_dir d (Z.of_nat (length q) - 1) lft (fmap Some q ++ tl)
    = Some (fmap Some (q ++ d) ++ Some NUL :: tl', Z.of_nat (length (q ++ d)), lft - Z.of_nat (length d)) /\
    length tl = S (length d + length tl').
Proof.
  induction d as [|c d IH]; intros q lft tl Hl Hd Htl; (destruct tl as [|x tl]; [simpl in Htl; lia|]);
    cbn [copy_dir]; rewrite Z.sub_add, write_app; cbn [option_bind mbind].
  - exists tl. rewrite app_nil_r, Z.sub_0_r. unfold hd_char. simpl default.
    rewrite fmap_app, <- app_assoc. done.
  - rewrite u64_small by (simpl in Hd; lia). simpl in Hd, Htl.
    destruct (lft - 1 =? 0) eqn:E; [boolify; lia|].
    destruct (IH (q ++ [c]) (lft - 1) tl) as (tl' & Hrun & Hlen); [lia|lia|lia|].
    exists tl'. rewrite hd_char_not_nul.
    replace (Z.of_nat (length q)) with (Z.of_nat (length (q ++ [c])) - 1) by (rewrite length_app; simpl; lia).
    rewrite Hrun. rewrite <- app_assoc. simpl. split; [|lia]. do 2 f_equal. lia.
Qed.

(** A directory that does not fit overflows the buffer by one character. *)
Lemma copy_dir_overflow d : forall q lft (tl : buffer),
  0 < lft < 2 ^ 64 -> Z.of_nat (length tl) < lft -> (length tl <= length d)%nat ->
  copy_dir d (Z.of_nat (length q) - 1) lft (fmap Some q ++ tl) = None.
Proof.
  induction d as [|c d IH]; intros q lft tl Hl Hroom Htl; cbn [copy_dir]; rewrite Z.sub_add;
    (destruct tl as [|x tl]; [rewrite app_nil_r, write_end; done|]); [simpl in Htl; lia|].
  rewrite write_app. cbn [option_bind mbind]. rewrite u64_small by lia. simpl in Htl, Hroom.
  destruct (lft - 1 =? 0) eqn:E; [boolify; lia|]. rewrite hd_char_not_nul.
  replace (Z.of_nat (length q)) with (Z.of_nat (length (q ++ [c])) - 1) by (rewrite length_app; simpl; lia).
  apply IH; lia.
Qed.

(** The slashes at the end of the directory are cleared. *)
Lemma strip_slashes_run d x len k : forall fuel lft (tl : buffer),
  x <> SLASH -> (k < fuel)%nat -> 0 <= lft -> lft + Z.of_nat k <= len -> len < 2 ^ 64 ->
  exists tl', strip_slashes fuel len (Z.of_nat (length (d ++ [x] ++ replicate k SLASH))) lft
      (fmap Some (d ++ [x] ++ replicate k SLASH) ++ tl)
    = Some (fmap Some (d ++ [x]) ++ tl', Z.of_nat (length d), lft + Z.of_nat k) /\
    length tl' = (k + length tl)%nat.
Proof.
  induction k as [|k IH]; intros fuel lft tl Hx Hfuel Hl Hlen Hlen64;
    (destruct fuel as [|fuel]; [lia|]); cbn [strip_slashes].
  - exists tl. simpl. rewrite !length_app. simpl.
    replace (Z.of_nat (length d + 1) - 1) with (Z.of_nat (length d)) by lia. rewrite read_last.
    cbn [option_bind mbind]. rewrite bool_decide_false by done. simpl. rewrite Z.add_0_r. done.
  - replace (replicate (S k) SLASH) with (replicate k SLASH ++ [SLASH]) by (by rewrite <- replicate_cons_app).
    rewrite !app_assoc, <- (app_assoc d). set (q := d ++ [x] ++ replicate k SLASH).
    rewrite length_app. simpl length. replace (Z.of_nat (length q + 1) - 1) with (Z.of_nat (length q)) by lia.
    rewrite read_last. cbn [option_bind mbind]. rewrite bool_decide_true by done. simpl negb.
    destruct (lft <? len) eqn:E; [|boolify; lia]. simpl negb. cbv iota. rewrite write_last.
    cbn [option_bind mbind]. rewrite u64_small by lia.
    destruct (IH fuel (lft + 1) (Some NUL :: tl)) as (tl' & Hrun & Hlen'); [done|lia..|].
    exists tl'. rewrite fmap_app, <- app_assoc. fold q in Hrun. simpl fmap. simpl app at 2.
    rewrite Hrun. simpl in Hlen'. split; [|lia]. do 2 f_equal. lia.
Qed.

Lemma skip_slashes_run k b : head b <> Some SLASH -> skip_slashes (replicate k SLASH ++ b) = b.
Proof.
  intros Hb. induction k as [|k IH]; simpl; [|by rewrite IH]. destruct b as [|c b]; [done|].
  simpl. rewrite bool_decide_false by (intros ->; done). done.
Qed.

(** The base is copied as far as there is room. *)
Lemma copy_base_run b : forall q x lft (tl : buffer),
  lft = Z.of_nat (length tl) + 1 -> lft < 2 ^ 64 ->
  if decide (length b < length tl)%nat
  then exists tl', copy_base b (Z.of_nat (length q)) lft (fmap Some (q ++ [x]) ++ tl)
         = Some (fmap Some (q ++ [x] ++ b) ++ Some NUL :: tl', Z.of_nat (length (q ++ [x] ++ b)),
                 lft - 1 - Z.of_nat (length b)) /\ length tl = S (length b + length tl')
  else exists p y, copy_base b (Z.of_nat (length q)) lft (fmap Some (q ++ [x]) ++ tl)
         = Some (fmap Some (p ++ [y]), Z.of_nat (length p), 0) /\
         p ++ [y] = q ++ [x] ++ take (length tl) b.
Proof.
  induction b as [|c b IH]; intros q x lft tl Hl Hl64; cbn [copy_base];
    rewrite u64_small by lia; (destruct tl as [|z tl];
      [rewrite decide_False by (simpl; lia); exists q, x; simpl in Hl; subst; simpl;
       rewrite ?app_nil_r; done|]);
    simpl in Hl; (destruct (lft - 1 =? 0) eqn:E; [boolify; lia|]);
    replace (Z.of_nat (length q) + 1) with (Z.of_nat (length (q ++ [x])))
      by (rewrite length_app; simpl; lia); rewrite write_app; cbn [option_bind mbind].
  - rewrite decide_True by (simpl; lia). exists tl. unfold hd_char. simpl default. rewrite !app_nil_r.
    rewrite fmap_app, <- app_assoc. simpl. rewrite Z.sub_0_r. done.
  - rewrite hd_char_not_nul. specialize (IH (q ++ [x]) c (lft - 1) tl ltac:(lia) ltac:(lia)).
    destruct (decide (length b < length tl)%nat) as [Hlt|Hge].
    + rewrite decide_True by (simpl; lia). destruct IH as (tl' & Hrun & Hl'). exists tl'. rewrite Hrun.
      rewrite <- !app_assoc. simpl. split; [|lia]. do 2 f_equal. lia.
    + rewrite decide_False by (simpl; lia). destruct IH as (p & y & Hrun & Heq). exists p, y.
      rewrite Hrun. split; [done|]. rewrite Heq, <- !app_assoc. done.
Qed.

(** ** Properties *)

(** The directory has been copied. *)
Lemma cat_path_dir c d (buf : buffer) :
  Z.of_nat (length buf) < 2 ^ 64 -> (S (length d) < length buf)%nat ->
  exists buf1 tl, write buf 0 c = Some buf1 /\
    copy_dir d 0 (Z.of_nat (length buf)) buf1
      = Some (fmap Some (c :: d) ++ Some NUL :: tl, Z.of_nat (length (c :: d)),
              Z.of_nat (length buf) - Z.of_nat (length d)) /\
    length buf = (S (S (length d)) + length tl)%nat.
Proof.
  intros H64 Hlen. destruct buf as [|z buf]; [simpl in Hlen; lia|].
  pose proof (write_app [] z buf c) as Hw. simpl in Hw.
  exists (Some c :: buf). simpl in Hlen.
  destruct (copy_dir_run d [c] (Z.of_nat (length (z :: buf))) buf) as (tl & Hrun & Hl); [simpl in *; lia..|].
  exists tl. split; [exact Hw|]. split; [exact Hrun|]. simpl. lia.
Qed.

(** A string that was cut is a prefix of the whole one. *)
Lemma cut_string (p q b : cstring) y z n :
  p ++ [y] = q ++ [z] ++ take n b -> p = take (length p) (q ++ [z] ++ b).
Proof.
  intros Heq. transitivity (take (length p) (p ++ [y])); [by rewrite take_app_length|].
  assert (length p <= length (q ++ [z] ++ take n b))%nat by (rewrite <- Heq, length_app; lia).
  rewrite Heq. rewrite <- (take_drop n b) at 2. rewrite !app_assoc.
  rewrite (take_app_le _ (drop _ _)); [done|]. by rewrite <- app_assoc.
Qed.

(** C40. For a directory that fits the buffer and does not consist of slashes,
    [cat_path] never writes outside of the buffer; it leaves there the directory
    without its slashes at the end, one slash, and the base without its slashes at
    the start, cut to the size of the buffer, and returns 1 exactly when nothing
    was cut off. *)
Theorem cat_path_correct (buf : buffer) d x k j b :
  x <> SLASH -> head b <> Some SLASH -> NUL ∉ d ++ [x] -> NUL ∉ b ->
  Z.of_nat (length buf) < 2 ^ 64 -> (length d + 1 + k < length buf)%nat ->
  exists r buf', cat_path buf (d ++ [x] ++ replicate k SLASH) (replicate j SLASH ++ b) = Some (r, buf') /\
    length buf' = length buf /\
    cstr buf' = Some (take (length buf - 1) (d ++ [x] ++ [SLASH] ++ b)) /\
    r = if decide (length d + 2 + length b < length buf)%nat then 1 else 0.
Proof.
  intros Hx Hb Hnd Hnb H64 Hlen.
  destruct (d ++ [x] ++ replicate k SLASH) as [|c dir] eqn:Edir; [by destruct d|].
  assert (length (c :: dir) = (length d + 1 + k)%nat) as Hldir
    by (rewrite <- Edir, !length_app, length_replicate; simpl; lia). simpl in Hldir.
  unfold cat_path. destruct (cat_path_dir c dir buf) as (buf1 & tl & Hw & Hcopy & Hlbuf); [done|lia|].
  rewrite hd_char_not_nul, Hw. cbn [option_bind mbind]. rewrite Hcopy. cbn [option_bind mbind].
  destruct (_ =? 0) eqn:E; [boolify; lia|]. clear E.
  rewrite <- Edir.
  destruct (strip_slashes_run d x (Z.of_nat (length buf)) k
    (S (Z.to_nat (Z.of_nat (length (d ++ [x] ++ replicate k SLASH)))))
    (Z.of_nat (length buf) - Z.of_nat (length dir)) (Some NUL :: tl)) as (tl2 & Hstrip & Hltl2);
    [done|rewrite Nat2Z.id, !length_app, length_replicate; lia|lia|lia|done|].
  rewrite Hstrip. cbn [option_bind mbind].
  destruct tl2 as [|z tl3]; [simpl in Hltl2; lia|]. simpl in Hltl2.
  replace (Z.of_nat (length d) + 1) with (Z.of_nat (length (d ++ [x]))) by (rewrite length_app; simpl; lia).
  rewrite write_app. cbn [option_bind mbind]. rewrite skip_slashes_run by done.
  rewrite u64_small by lia.
  pose proof (copy_base_run b (d ++ [x]) SLASH
    (Z.of_nat (length buf) - Z.of_nat (length dir) + Z.of_nat k - 1) tl3 ltac:(lia) ltac:(lia)) as Hbase.
  assert (NUL ∉ (d ++ [x]) ++ [SLASH] ++ b) as Hnul by set_solver.
  destruct (decide (length b < length tl3)%nat) as [Hfit|Hcut].
  - destruct Hbase as (tl4 & Hbase & Hl4). rewrite Hbase. cbn [option_bind mbind].
    destruct (_ =? 0) eqn:E; [boolify; lia|].
    do 2 eexists. split; [reflexivity|]. rewrite cstr_app by done.
    rewrite decide_True by lia. split_and!; [|..|done].
    + rewrite length_app, length_fmap, !length_app. simpl. lia.
    + rewrite take_ge; [by rewrite <- app_assoc|]. rewrite !length_app. simpl. lia.
  - destruct Hbase as (p & y & Hbase & Heq). rewrite Hbase. cbn [option_bind mbind]. simpl (0 =? 0). cbv iota.
    pose proof (write_last p y [] NUL) as Hw2. rewrite !app_nil_r in Hw2. rewrite Hw2. cbn [option_bind mbind].
    do 2 eexists. split; [reflexivity|]. rewrite decide_False by lia.
    assert (length (p ++ [y]) = length buf) as Hlp.
    { rewrite Heq, !length_app, length_take. simpl. lia. }
    rewrite length_app in Hlp. simpl in Hlp. split_and!; [|..|done].
    + rewrite length_fmap, length_app. simpl. lia.
    + rewrite fmap_app. simpl. apply cut_string in Heq. rewrite <- app_assoc in Heq. simpl in Heq.
      replace (length buf - 1)%nat with (length p) by lia. rewrite <- Heq, cstr_app; [done|].
      rewrite Heq. intros Hin. eapply elem_of_sublist in Hin; [|apply sublist_take]. set_solver.
Qed.

Lemma cat_path_witness :
  exists r buf', cat_path (replicate 16 None) (str "/srv//") (str "/home") = Some (r, buf') /\
    cstr buf' = Some (str "/srv/home") /\ r = 1.
Proof.
  destruct (cat_path_correct (replicate 16 None) (str "/sr") "v"%char 2 1 (str "home"))
    as (r & buf' & Hrun & _ & Hstr & Hr).
  1-4: refine (bool_decide_unpack _ _); vm_compute; exact I.
  - reflexivity.
  - simpl. lia.
  - exists r, buf'. split; [exact Hrun|]. split; [exact Hstr|exact Hr].
Defined.

(** [cat_path] does not keep to its buffer for every directory: it writes
    behind the end for a directory that is as long as the buffer or longer, and it
    reads in front of the start for the empty directory. *)
Theorem cat_path_leaves_buffer (buf : buffer) dir base :
  0 < Z.of_nat (length buf) < 2 ^ 64 ->
  (dir = [] \/ (length buf <= length dir)%nat) -> cat_path buf dir base = None.
Proof.
  intros H64 Hdir. destruct buf as [|z buf]; [simpl in H64; lia|]. unfold cat_path.
  pose proof (write_app [] z buf (hd_char dir)) as Hw. simpl in Hw.
  replace (write (z :: buf) 0 (hd_char dir)) with (Some (Some (hd_char dir) :: buf)) by (symmetry; exact Hw).
  cbn [option_bind mbind].
  destruct dir as [|c d]; cbn [option_bind mbind].
  - destruct (_ =? 0) eqn:E; [boolify; simpl in *; lia|]. done.
  - destruct Hdir as [?|Hdir]; [done|]. simpl in Hdir.
    assert (copy_dir d 0 (Z.of_nat (length (z :: buf))) (Some (hd_char (c :: d)) :: buf) = None) as ->;
      [|done]. apply (copy_dir_overflow d [c]); simpl in *; lia.
Qed.

Lemma cat_path_leaves_buffer_witness :
  cat_path (replicate 4 None) (str "/usr") (str "lib") = None /\ cat_path (replicate 4 None) [] (str "lib") = None.
Proof. split; apply cat_path_leaves_buffer; simpl; auto with lia. Defined.

(** With the root directory two slashes are left at the joint, and one
    character more than the buffer has room for is written. *)
Theorem cat_path_root :
  (exists buf', cat_path (replicate 16 None) (str "/") (str "usr") = Some (1, buf') /\
     cstr buf' = Some (str "//usr")) /\
  cat_path (replicate 4 None) (str "/") (str "usr") = None.
Proof. split; [eexists; split; vm_compute; reflexivity|vm_compute; reflexivity]. Qed.

Lemma strlen_loop_min s : forall len max, 0 <= len <= max -> strlen_loop s len max = Z.min (len + strlen s) max.
Proof.
  unfold strlen. induction s as [|c s IH]; intros len max Hl; simpl; [lia|].
  destruct (len <? max) eqn:E; boolify; [rewrite IH by lia; simpl; lia|lia].
Qed.

(** [ncat_path] joins the directory and the first [blen] characters of the
    base, and fails without touching the buffer when these are none, or [blen] is
    larger than a path can be. *)
Theorem ncat_path_correct buf dir base blen :
  0 <= blen ->
  ncat_path buf dir base blen =
  if (PATH_MAX <? blen) || (blen =? 0) || bool_decide (base = []) then Some (0, buf)
  else cat_path buf dir (take (Z.to_nat blen) base).
Proof.
  intros Hb. unfold ncat_path, _strlen. rewrite strlen_loop_min by lia. rewrite Z.add_0_l.
  destruct (PATH_MAX <? blen); [done|]. unfold strlen. destruct base as [|c base].
  - rewrite bool_decide_true by done. rewrite orb_true_r.
    replace (Z.min _ blen) with 0 by (simpl; lia). done.
  - rewrite bool_decide_false by done. rewrite orb_false_r. simpl orb.
    destruct (blen =? 0) eqn:E; boolify.
    + subst. replace (Z.min _ 0) with 0 by lia. done.
    + destruct (Z.min _ blen =? 0) eqn:E2; boolify; [simpl in E2; lia|]. f_equal.
      destruct (decide (Z.of_nat (length (c :: base)) <= blen)).
      * rewrite Z.min_l, Nat2Z.id, firstn_all, take_ge by lia. done.
      * by rewrite Z.min_r by lia.
Qed.

Lemma ncat_path_witness :
  exists buf', ncat_path (replicate 16 None) (str "/a") (str "bcd") 2 = Some (1, buf') /\
    cstr buf' = Some (str "/a/bc").
Proof. rewrite ncat_path_correct; [|lia]. eexists. split; vm_compute; reflexivity. Defined.

Lemma strncmp_zero s : forall t n, (NUL ∉ s) -> (NUL ∉ t) -> strncmp s t n = 0 <-> take n s = take n t.
Proof.
  assert (forall c d, uchar c - uchar d = 0 -> c = d) as Hu.
  { intros c d H. unfold uchar in H. rewrite <- (ascii_N_embedding c), <- (ascii_N_embedding d). f_equal. lia. }
  induction s as [|c s IH]; intros [|d t] [|n] Hs Ht; simpl; try done.
  - split; [|done]. intros E%Hu. exfalso. apply Ht. unfold hd_char in E. simpl in E. rewrite E. by left.
  - split; [|done]. intros E%Hu. exfalso. apply Hs. unfold hd_char in E. simpl in E. rewrite E. by left.
  - rewrite not_elem_of_cons in Hs, Ht. destruct Hs as [Hc Hs], Ht as [Hd Ht]. case_bool_decide as E.
    + subst. rewrite (IH t n) by done. split; [by intros ->|by intros [=]].
    + split; [by intros ?%Hu|]. intros [=]. congruence.
Qed.

(** [_strncmp] with a length compares for equality: it returns 0 exactly when
    the first string has this length and is a prefix of the second; with the
    length 0 it returns 0 for all strings. *)
Theorem strncmp_prefix s1 s2 n :
  NUL ∉ s1 -> NUL ∉ s2 -> 0 < n < 2 ^ 31 -> strlen s1 < 2 ^ 31 ->
  (_strncmp s1 s2 n = 0 <-> strlen s1 = n /\ s1 `prefix_of` s2) /\ _strncmp s1 s2 0 = 0.
Proof.
  intros H1 H2 Hn Hl. unfold _strncmp. split.
  - destruct (n =? 0) eqn:E0; boolify; [lia|]. simpl. destruct (n =? strlen s1) eqn:E; boolify; simpl.
    + rewrite strncmp_zero by done. subst n. unfold strlen. rewrite Nat2Z.id, firstn_all. split.
      * intros Heq. split; [done|]. exists (drop (length s1) s2). rewrite Heq at 1. by rewrite take_drop.
      * intros [_ [t ->]]. by rewrite take_app_length.
    + unfold i32, strlen in *. rewrite Z.mod_small by lia. split; lia.
  - rewrite Z.eqb_refl. simpl. by destruct s1, s2.
Qed.

Lemma strncmp_prefix_witness : _strncmp (str "ab") (str "abc") 2 = 0.
Proof.
  destruct (strncmp_prefix (str "ab") (str "abc") 2) as [[_ Hzero] _].
  1,2: refine (bool_decide_unpack _ _); vm_compute; exact I.
  - lia.
  - reflexivity.
  - apply Hzero. split; [reflexivity|]. exists (str "c"). reflexivity.
Defined.
