(* ===== verification/Args.v ===== *)
(** * Argument vectors (lib/args.c)

    A vector is the list of its cells; a cell that has been allocated and not
    written is [Uninit], and using it leaves the model, as does an access behind
    the end of the vector. *)

From S2P Require Import Prelude CString.

Inductive cell := Uninit | Null | Ptr (s : cstring).

#[global] Instance cell_eq_dec : EqDecision cell.
Proof. solve_decision. Defined.

Abbreviation vector := (list cell).

Section Args.
Context {S : Type}.

(** [free_argv]: each of the first [argc] cells is freed. *)
Fixpoint free_cells (n : nat) (v : vector) : M S unit :=
  match n with
  | O => mret ()
  | Datatypes.S n' =>
      match v with
      | Null :: v' | Ptr _ :: v' => free_cells n' v'
      | _ => stuck
      end
  end.

Definition free_argv (argc : nat) (argv : vector) : M S unit := free_cells argc argv.

(** The loops that copy [n] arguments: the cells written, and whether the loop
    got to its end. *)
Fixpoint dup_args (argv : vector) (n : nat) {struct n} : M S (vector * bool) :=
  match n with
  | O => mret ([], true)
  | Datatypes.S n' =>
      match argv with
      | [] | Uninit :: _ => stuck
      | Null :: argv' =>
          r ← dup_args argv' n';
          mret (Null :: fst r, snd r)
      | Ptr s :: argv' =>
          ok ← malloc;
          if negb ok then mret ([Null], false)
          else
            r ← dup_args argv' n';
            mret (Ptr s :: fst r, snd r)
      end
  end.

(** The vector of [n] cells of which the first ones have been written. *)
Definition partial (n : nat) (written : vector) : vector :=
  written ++ replicate (n - length written) Uninit.

Definition add_argv (argc : nat) (argv : vector) (s : cstring) : M S (option vector) :=
  ok ← malloc;
  if negb ok then mret None
  else
    r ← dup_args argv (argc - 1);
    let '(w, done) := r in
    if negb done then free_argv (argc - 1) (partial (argc + 1) w);; mret None
    else
      last ← malloc;
      if negb last then free_argv (argc - 1) (partial (argc + 1) (w ++ [Null]));; mret None
      else
        free_argv (argc - 1) argv;;
        mret (Some (w ++ [Ptr s; Null])).

(** [append_argv]; the first vector is reallocated in place. *)
Definition append_argv (argc1 : nat) (argv1 : vector) (argc2 : nat) (argv2 : vector) : M S (option vector) :=
  let len := (argc1 + argc2)%nat in
  ok ← malloc;
  if negb ok then free_argv argc1 argv1;; free_argv argc2 argv2;; mret None
  else
    r ← dup_args argv2 (argc2 + 1);
    let '(w, _) := r in
    let vector := partial (len + 1) (take argc1 argv1 ++ w) in
    if bool_decide (snd r = false) && bool_decide (argc1 + (length w - 1) < len)%nat then
      free_argv len vector;; free_argv argc2 argv2;; mret None
    else
      free_argv argc2 argv2;;
      mret (Some (<[len := Null]> vector)).

Definition copy_argv (argc : nat) (argv : vector) : M S (option vector) :=
  ok ← malloc;
  if negb ok then mret None
  else
    r ← dup_args argv argc;
    let '(w, done) := r in
    if negb done then free_argv argc (partial (argc + 1) w);; mret None
    else mret (Some (w ++ [Null])).

End Args.

(** [compare]: both NULL, or both strings and equal. *)
Definition compare (c1 c2 : cell) : option bool :=
  match c1, c2 with
  | Uninit, _ | _, Uninit => None
  | Ptr s1, Ptr s2 => Some (streq s1 s2)
  | Null, Null => Some true
  | _, _ => Some false
  end.

Fixpoint compare_cells (n : nat) (v1 v2 : vector) : option bool :=
  match n with
  | O => Some true
  | S n' =>
      match v1, v2 with
      | c1 :: v1', c2 :: v2' =>
          match compare c1 c2 with
          | Some true => compare_cells n' v1' v2'
          | r => r
          end
      | _, _ => None
      end
  end.

Definition compare_argv (argc1 : nat) (argv1 : vector) (argc2 : nat) (argv2 : vector) : option bool :=
  if bool_decide (argc1 = argc2) then compare_cells argc1 argv1 argv2 else Some false.

(** ** Argument vectors of the program *)

(** The vector of some arguments: NULL arguments are allowed, and it ends in NULL. *)
Definition arg (o : option cstring) : cell := match o with Some s => Ptr s | None => Null end.
Definition argvec (args : list (option cstring)) : vector := (arg <$> args) ++ [Null].

Lemma free_args {S} args tl (w : S) m : free_cells (length args) ((arg <$> args) ++ tl) w m = Some ((), w, m).
Proof. induction args as [|[s|] args IH]; [done|..]; simpl; apply IH. Qed.

Lemma dup_args_all {S} args tl (w : S) :
  dup_args ((arg <$> args) ++ tl) (length args) w [] = Some ((arg <$> args, true), w, []).
Proof.
  induction args as [|[s|] args IH]; [done|..]; rewrite fmap_cons, <- app_comm_cons;
    cbn [length dup_args arg]; rewrite ?(bind_some malloc _ w [] true w []) by done; cbn [negb];
    by rewrite (bind_some _ _ _ _ _ _ _ IH).
Qed.

Lemma dup_argvec {S} args (w : S) :
  dup_args (argvec args) (length args + 1) w [] = Some ((argvec args, true), w, []).
Proof.
  replace (argvec args) with ((arg <$> (args ++ [None])) ++ []) by (by rewrite app_nil_r, fmap_app).
  replace (length args + 1)%nat with (length (args ++ [None])) by (by rewrite length_app).
  rewrite dup_args_all. by rewrite app_nil_r.
Qed.

Lemma copy_argvec {S} args (w : S) :
  copy_argv (length args) (argvec args) w [] = Some (Some (argvec args), w, []).
Proof.
  unfold copy_argv, argvec. rewrite (bind_some _ _ w [] true w []) by done. simpl.
  by rewrite (bind_some _ _ _ _ _ _ _ (dup_args_all args [Null] w)).
Qed.

Lemma compare_arg a b : compare (arg a) (arg b) = Some (bool_decide (a = b)).
Proof.
  destruct a as [s|], b as [t|]; simpl; try done. unfold streq. f_equal.
  apply bool_decide_ext. split; congruence.
Qed.

Lemma compare_args args1 : forall args2 tl1 tl2,
  length args1 = length args2 ->
  compare_cells (length args1) ((arg <$> args1) ++ tl1) ((arg <$> args2) ++ tl2)
  = Some (bool_decide (args1 = args2)).
Proof.
  induction args1 as [|a args1 IH]; intros [|b args2] tl1 tl2 Hl; try done. injection Hl as Hl. simpl.
  change (fmap arg args1) with (arg <$> args1). change (fmap arg args2) with (arg <$> args2).
  rewrite compare_arg. case_bool_decide as E.
  - rewrite IH by done. f_equal. apply bool_decide_ext. split; congruence.
  - rewrite bool_decide_false by congruence. done.
Qed.

(** [compare_argv] decides whether two argument vectors have the same
    arguments. *)
Theorem compare_argv_correct args1 args2 :
  compare_argv (length args1) (argvec args1) (length args2) (argvec args2) = Some (bool_decide (args1 = args2)).
Proof.
  unfold compare_argv, argvec. case_bool_decide as Hl.
  - by apply compare_args.
  - rewrite bool_decide_false; [done|]. intros ->. done.
Qed.

(** With memory, [copy_argv] returns an equal vector, [add_argv] one with the
    argument at its end, and [append_argv] the arguments of both. *)
Theorem argv_operations args1 args2 s {S} (w : S) :
  copy_argv (length args1) (argvec args1) w [] = Some (Some (argvec args1), w, []) /\
  add_argv (length args1 + 1) (argvec args1) s w [] = Some (Some (argvec (args1 ++ [Some s])), w, []) /\
  append_argv (length args1) (argvec args1) (length args2) (argvec args2) w []
    = Some (Some (argvec (args1 ++ args2)), w, []).
Proof.
  split_and!.
  - apply copy_argvec.
  - unfold add_argv, argvec. rewrite (bind_some _ _ w [] true w []) by done. simpl.
    rewrite Nat.add_sub, (bind_some _ _ _ _ _ _ _ (dup_args_all args1 [Null] w)). simpl.
    rewrite (bind_some _ _ w [] true w []) by done. simpl.
    unfold free_argv. rewrite (bind_some _ _ _ _ _ _ _ (free_args args1 [Null] w [])).
    by rewrite fmap_app, <- app_assoc.
  - unfold append_argv. rewrite (bind_some _ _ w [] true w []) by done. simpl.
    rewrite (bind_some _ _ _ _ _ _ _ (dup_argvec args2 w)). simpl.
    unfold free_argv. change (argvec args2) with ((arg <$> args2) ++ [Null]) at 1.
    rewrite (bind_some _ _ _ _ _ _ _ (free_args args2 [Null] w [])).
    assert (take (length args1) (argvec args1) = arg <$> args1) as ->.
    { unfold argvec. rewrite take_app_le by (by rewrite length_fmap). by rewrite take_ge by (by rewrite length_fmap). }
    unfold partial, argvec. repeat f_equal.
    rewrite !length_app, !length_fmap. simpl.
    replace (length args1 + length args2 + 1 - _)%nat with 0%nat by lia. rewrite app_nil_r, app_assoc, <- fmap_app.
    rewrite insert_app_r_alt by (rewrite length_fmap, length_app; lia).
    by rewrite length_fmap, length_app, Nat.sub_diag.
Qed.

(** When the copy of an argument other than the last cannot be allocated,
    [copy_argv] and [add_argv] free cells of the new vector that have never been
    written. *)
Theorem argv_failure_frees_garbage {S} (w : S) s t :
  copy_argv 2 (argvec [Some s; Some t]) w [true; false] = None /\
  add_argv 3 (argvec [Some s; Some t]) s w [true; false] = None.
Proof. done. Qed.
