(* ===== verification/Lexer.v ===== *)
(** * Lexical functions of the map parsers (lib/parse_subs.c)

    The functions that take map entries apart into chunks, and clean up quoted
    strings and paths. A function that can read outside of its string returns an
    option, [None] when it does. *)

From S2P Require Import Prelude CString.

(** The characters that end a chunk: space, and the characters 8 to 13. *)
Definition is_ws (c : ascii) : bool := (uchar c =? 32) || ((8 <=? uchar c) && (uchar c <=? 13)).

Fixpoint skipspace (whence : cstring) : cstring :=
  match whence with
  | [] => []
  | c :: s => if is_ws c then skipspace s else if c =a "#" then [] else whence
  end.

Definition colon_slash (s : cstring) : bool := strneq s (str ":/") 2.

Fixpoint colon_loop (ptr : cstring) : bool :=
  match ptr with
  | [] => false
  | _ :: s => if colon_slash ptr then true else colon_loop s
  end.

Definition check_colon (s : cstring) : bool := if colon_slash s then true else colon_loop s.

(** [chunklen]: [inq] is set inside of the loop over a quoted part, where the end
    of the string makes the outer loop step behind it. *)
Fixpoint chunk_loop (s : cstring) (n : Z) (quote expect_colon inq : bool) : option Z :=
  match s with
  | [] => if inq then None else Some n
  | c :: s' =>
      let next q e i := chunk_loop s' (n + 1) q e i in
      if inq then
        if c =a QUOTE then next false expect_colon false
        else next quote (if colon_slash s then false else expect_colon) true
      else if c =a BACKSLASH then
        if quote then next false expect_colon false else next true expect_colon false
      else if c =a QUOTE then
        if quote then next false expect_colon false else next quote expect_colon true
      else if c =a ":" then
        next quote (if expect_colon && colon_slash s then false else expect_colon) false
      else if ((uchar c =? 32) || (uchar c =? 9)) && expect_colon then next quote expect_colon false
      else if is_ws c then
        if negb quote then Some n else next false expect_colon false
      else next false expect_colon false
  end.

Definition chunklen (whence : cstring) (expect_colon : bool) : option Z :=
  chunk_loop whence 0 false expect_colon false.

(** [strmcmp]: [nchr] counts the characters that agree. *)
Fixpoint strmcmp_loop (s pat : cstring) (nchr mchr : Z) : Z :=
  match s, pat with
  | [], [] => 0
  | c :: s', d :: pat' => if c =a d then strmcmp_loop s' pat' (nchr + 1) mchr else schar d - schar c
  | [], _ => if mchr <? nchr then 0 else schar (hd_char pat)
  | c :: _, [] => 0 - schar c
  end.

Definition strmcmp (s pat : cstring) (mchr : Z) : Z := strmcmp_loop s pat 0 mchr.

(** [str[i]], with the NUL at the end of the string. *)
Definition char_at (s : cstring) (i : nat) : option ascii := (s ++ [NUL]) !! i.

(** The first loop of [dequote]: the length without white space at the end. *)
Fixpoint strip_end (s : cstring) (len : nat) : option nat :=
  match len with
  | O => None
  | S i =>
      match char_at s i with
      | None => None
      | Some c =>
          if isspace c then
            let escaped :=
              match i with
              | S (S k) => match char_at s (S k) with
                           | Some d => (d =a BACKSLASH) || (d =a QUOTE)
                           | None => false
                           end
              | _ => false
              end in
            if escaped then Some len else strip_end s i
          else Some len
      end
  end.

(** The second loop: the characters copied, and whether a quote is open. *)
Fixpoint dequote_loop (s : cstring) (quote dquote : bool) : cstring * bool :=
  match s with
  | [] => ([], dquote)
  | c :: s' =>
      if negb quote && (c =a QUOTE) then dequote_loop s' quote (negb dquote)
      else if negb quote && negb dquote && (c =a BACKSLASH) then dequote_loop s' true dquote
      else let '(out, d) := dequote_loop s' false dquote in (c :: out, d)
  end.

(** [dequote]; [ok] says whether there is memory. The outer option is [None] when
    the first loop leaves the string, the inner one is the result. *)
Definition dequote (s : cstring) (origlen : nat) (ok : bool) : option (option cstring) :=
  if negb ok then Some None
  else
    match strip_end s origlen with
    | None => None
    | Some len =>
        let '(out, dquote) := dequote_loop (take len s) false false in
        if dquote then Some None else Some (Some out)
    end.

(** [span_space]; [inq] is set in the loop over a quoted part. *)
Fixpoint span_loop (p : cstring) (len maxlen : Z) (inq skip : bool) : option Z :=
  match p with
  | [] => if inq || skip then None else Some len
  | c :: p' =>
      if skip then span_loop p' len maxlen false false
      else if inq then
        (* p was moved here; the quoted part ends at a quote *)
        if c =a QUOTE then span_loop p' (len + 1) maxlen false false
        else if len <? maxlen then span_loop p' (len + 1) maxlen true false
        else match p' with [] => None | _ :: _ => span_loop p' (len + 2) maxlen false true end
      else if isblank c || negb (len <? maxlen) then Some len
      else if c =a QUOTE then span_loop p' (len + 1) maxlen true false
      else if c =a BACKSLASH then span_loop p' (len + 2) maxlen false true
      else span_loop p' (len + 1) maxlen false false
  end.

Definition span_space (s : cstring) (maxlen : Z) : option Z := span_loop s 0 maxlen false false.

Definition LKP_INDIRECT : Z := 2.
Definition LKP_DIRECT : Z := 4.
Definition LKP_MULTI : Z := 8.

(** The test of [sanitize_path] that the key fits the kind of map. *)
Definition path_type_ok (path : cstring) (type : Z) : bool :=
  if Z.land type (Z.lor LKP_INDIRECT LKP_DIRECT) =? 0 then true
  else
    let tmp := if hd_char path =a QUOTE then tail path else path in
    match strchr tmp "/" with
    | Some _ => negb (type =? LKP_INDIRECT) && (hd_char tmp =a "/")
    | None => negb (type =? LKP_DIRECT)
    end.

(** The loop of [sanitize_path] over [len] characters of [s], which ends in its
    NUL: [None] outside of the string, [Some None] for a bad character, else the
    characters copied and whether a quote is open. *)
Fixpoint sanitize_loop (s : cstring) (len : nat) (seen_slash quote dquote : bool) {struct len} :
    option (option (cstring * bool)) :=
  match len with
  | O => Some (Some ([], dquote))
  | S len' =>
      match s with
      | [] => None
      | c :: s' =>
          let copy seen :=
            match sanitize_loop s' len' seen false dquote with
            | Some (Some (out, d)) => Some (Some (c :: out, d))
            | r => r
            end in
          if quote then copy seen_slash
          else if c =a QUOTE then sanitize_loop s' len' seen_slash quote (negb dquote)
          else if negb dquote && (schar c <? 32) then Some None
          else if negb dquote && (c =a BACKSLASH) then sanitize_loop s' len' seen_slash true dquote
          else if c =a "/" then
            if seen_slash then sanitize_loop s' len' seen_slash quote dquote else copy true
          else copy false
      end
  end.

(** [sanitize_path]. The last test of the function looks at the length of the
    empty string behind the copied characters, and never succeeds. *)
Definition sanitize_path (path : cstring) (origlen : nat) (type : Z) (ok : bool) : option (option cstring) :=
  if negb (path_type_ok path type) then Some None
  else if negb ok then Some None
  else
    match sanitize_loop (path ++ [NUL]) origlen false false false with
    | None => None
    | Some None => Some None
    | Some (Some (out, dquote)) => if dquote then Some None else Some (Some out)
    end.

Definition starts_with_null_opt (s : cstring) : bool :=
  if (5 <=? strlen s) && (hd_char s =a "-") then
    let sep := hd_char (drop 5 s) in
    ((sep =a NUL) || (sep =a " ") || (sep =a ",")) && strneq s (str "-null") 5
  else false.
