(* ===== verification/LexerProps.v ===== *)
(** * Properties of the lexical functions *)

From S2P Require Import Prelude CString Lexer.

(** ** Spaces and colons *)

(** [skipspace] drops a run of white space; what is left starts with neither
    white space nor a comment, and it drops more only for a comment, and then the
    whole rest. *)
Theorem skipspace_spec s :
  exists p, s = p ++ skipspace s /\
    (Forall (fun c => is_ws c = true) p \/
     (skipspace s = [] /\ exists w r, p = w ++ "#"%char :: r /\ Forall (fun c => is_ws c = true) w)) /\
    (forall c, head (skipspace s) = Some c -> is_ws c = false /\ c <> "#"%char).
Proof.
  induction s as [|c s (p & Hs & Hp & Hh)]; [exists []; split; [done|]; split; [by left|done]|]. simpl.
  destruct (is_ws c) eqn:E.
  - exists (c :: p). split; [simpl; congruence|]. split; [|done].
    destruct Hp as [Hp|(Hn & w & r & -> & Hw)]; [left; by constructor|right].
    split; [done|]. exists (c :: w), r. split; [done|by constructor].
  - case_bool_decide as Ec.
    + exists (c :: s). rewrite app_nil_r. split; [done|]. split; [|done]. right. split; [done|].
      exists [], s. by subst.
    + exists []. split; [done|]. split; [by left|]. intros d [= <-]. done.
Qed.

Lemma colon_slash_iff s : colon_slash s = true <-> exists q, s = str ":/" ++ q.
Proof.
  unfold colon_slash. rewrite strneq_true. split.
  - intros H. exists (drop 2 s). rewrite <- (take_drop 2 s) at 1. by rewrite H.
  - intros [q ->]. done.
Qed.

(** [check_colon] finds a colon directly in front of a slash anywhere in the
    string. *)
Theorem check_colon_spec s : check_colon s = true <-> exists p q, s = p ++ str ":/" ++ q.
Proof.
  assert (forall s, colon_loop s = true <-> exists p q, s = p ++ str ":/" ++ q) as Hloop.
  { clear s. induction s as [|c s IH]; simpl.
    - split; [done|]. intros (p & q & H). by destruct p.
    - destruct (colon_slash (c :: s)) eqn:E.
      + split; [intros _|done]. apply colon_slash_iff in E as [q ->]. by exists [], q.
      + rewrite IH. split.
        * intros (p & q & ->). by exists (c :: p), q.
        * intros ([|d p] & q & H).
          -- exfalso. apply not_true_iff_false in E. apply E, colon_slash_iff. by exists q.
          -- injection H as -> ->. by exists p, q. }
  unfold check_colon. destruct (colon_slash s) eqn:E; [|apply Hloop].
  split; [intros _|done]. apply colon_slash_iff in E as [q ->]. by exists [], q.
Qed.

(** ** Chunks *)

Lemma chunk_loop_bound s : forall n quote colon inq r,
  chunk_loop s n quote colon inq = Some r ->
  n <= r <= n + strlen s /\
  (r < n + strlen s -> exists c, s !! Z.to_nat (r - n) = Some c /\ is_ws c = true).
Proof.
  unfold strlen. induction s as [|c s IH]; intros n quote colon inq r; simpl.
  { destruct inq; [done|]. intros [= ->]. split; lia. }
  assert (forall q e i, chunk_loop s (n + 1) q e i = Some r ->
    n <= r <= n + Z.of_nat (S (length s)) /\
    (r < n + Z.of_nat (S (length s)) -> exists c0, (c :: s) !! Z.to_nat (r - n) = Some c0 /\ is_ws c0 = true)) as Hnext.
  { intros q e i Hr. destruct (IH _ _ _ _ _ Hr) as [H1 H2]. split; [lia|]. intros Hlt.
    destruct H2 as (c0 & Hc0 & Hw); [lia|]. exists c0. split; [|done].
    replace (Z.to_nat (r - n)) with (S (Z.to_nat (r - (n + 1)))) by lia. done. }
  repeat case_match; try apply Hnext; intros [= <-].
  split; [lia|]. intros _. exists c. rewrite Z.sub_diag. done.
Qed.

Lemma chunk_loop_total s : forall n quote colon,
  QUOTE ∉ s -> is_Some (chunk_loop s n quote colon false).
Proof.
  induction s as [|c s IH]; intros n quote colon Hq; simpl; [eauto|].
  rewrite not_elem_of_cons in Hq. destruct Hq as [Hne Hq].
  repeat case_match; try (by apply IH); boolify; try congruence; eauto.
Qed.

(** The length that [chunklen] returns lies inside the string, and a chunk
    ends at the end of the string or at white space; for a string without double
    quotes there is always a result. With a quote that is not closed the loop
    runs behind the end of the string. *)
Theorem chunklen_spec s colon :
  (forall n, chunklen s colon = Some n ->
     0 <= n <= strlen s /\ (n < strlen s -> exists c, s !! Z.to_nat n = Some c /\ is_ws c = true)) /\
  (QUOTE ∉ s -> is_Some (chunklen s colon)) /\
  (QUOTE ∉ s -> chunklen (QUOTE :: s) colon = None).
Proof.
  unfold chunklen. split_and!.
  - intros n Hn. destruct (chunk_loop_bound _ _ _ _ _ _ Hn) as [H1 H2]. split; [lia|].
    intros Hlt. rewrite Z.sub_0_r in H2. apply H2. lia.
  - apply chunk_loop_total.
  - intros Hq. simpl. generalize (0 + 1), colon. induction s as [|c s IH]; intros n e; [done|].
    rewrite not_elem_of_cons in Hq. destruct Hq as [Hne Hq]. simpl.
    rewrite bool_decide_false by done. by apply IH.
Qed.

(** ** Abbreviations *)

Lemma schar_inj c d : schar c = schar d -> c = d.
Proof.
  unfold schar. intros H. rewrite <- (ascii_N_embedding c), <- (ascii_N_embedding d). f_equal.
  unfold uchar in H. pose proof (N_ascii_bounded c). pose proof (N_ascii_bounded d).
  repeat case_match; boolify; lia.
Qed.

Lemma schar_nul c : c <> NUL -> schar c <> 0.
Proof. intros Hc H. apply Hc. by apply schar_inj. Qed.

(** [strmcmp] returns 0 exactly for the pattern itself and for its
    abbreviations of more than [mchr] characters. *)
Theorem strmcmp_spec s pat mchr :
  NUL ∉ s -> NUL ∉ pat ->
  strmcmp s pat mchr = 0 <-> s = pat \/ (s `prefix_of` pat /\ mchr < strlen s).
Proof.
  intros Hs Hp. unfold strmcmp.
  assert (forall n, strmcmp_loop s pat n mchr = 0 <->
    s = pat \/ (s `prefix_of` pat /\ mchr < n + strlen s)) as H; [|by apply (H 0)].
  unfold strlen. revert pat Hp. induction s as [|c s IH]; intros [|d pat] Hp n; simpl.
  - split; [by left|done].
  - rewrite not_elem_of_cons in Hp. destruct Hp as [Hd _]. destruct (mchr <? n) eqn:E; boolify.
    + split; [|done]. intros _. right. split; [apply prefix_nil|lia].
    + split; [intros H; exfalso; by apply (schar_nul d); [congruence|]|]. intros [?|[_ ?]]; [done|lia].
  - rewrite not_elem_of_cons in Hs. destruct Hs as [Hc _]. split.
    + intros H. exfalso. apply (schar_nul c); [congruence|lia].
    + intros [?|[?%prefix_nil_inv _]]; done.
  - rewrite not_elem_of_cons in Hs, Hp. destruct Hs as [_ Hs], Hp as [_ Hp]. case_bool_decide as E.
    + subst d. rewrite (IH Hs pat Hp (n + 1)). split.
      * intros [->|[H1 H2]]; [by left|right]. split; [by apply prefix_cons|lia].
      * intros [[= ->]|[H1%prefix_cons_inv_2 H2]]; [by left|right]. split; [done|lia].
    + split; [intros H; exfalso; apply E; apply schar_inj; lia|].
      intros [[=]|[Hpre _]]; [congruence|]. by apply prefix_cons_inv_1 in Hpre.
Qed.

(** ** Quoting *)

Lemma dequote_loop_dquoted t r :
  QUOTE ∉ t ->
  dequote_loop (t ++ r) false true = let '(out, d) := dequote_loop r false true in (t ++ out, d).
Proof.
  induction t as [|c t IH]; intros Hq; simpl; [by destruct (dequote_loop r false true)|].
  rewrite not_elem_of_cons in Hq. destruct Hq as [Hne Hq].
  rewrite (bool_decide_false (c = QUOTE)) by done. simpl. rewrite IH by done.
  by destruct (dequote_loop r false true).
Qed.

(** Every character of a string escaped. *)
Definition escape (t : cstring) : cstring := concat (map (fun c => [BACKSLASH; c]) t).

Lemma dequote_loop_escaped t : dequote_loop (escape t) false false = (t, false).
Proof.
  induction t as [|c t IH]; [done|]. change (escape (c :: t)) with ([BACKSLASH; c] ++ escape t). simpl.
  by rewrite IH.
Qed.

Lemma char_at_app s c r : char_at (s ++ c :: r) (length s) = Some c.
Proof.
  unfold char_at. rewrite <- app_assoc. by rewrite lookup_app_r, Nat.sub_diag by done.
Qed.

Lemma strip_end_nonspace s c : isspace c = false -> strip_end (s ++ [c]) (length (s ++ [c])) = Some (length (s ++ [c])).
Proof.
  intros Hc. rewrite length_app, Nat.add_1_r. cbn [strip_end]. rewrite char_at_app. by rewrite Hc.
Qed.

Lemma strip_end_escaped s c :
  s <> [] -> strip_end (s ++ [BACKSLASH; c]) (length (s ++ [BACKSLASH; c])) = Some (length (s ++ [BACKSLASH; c])).
Proof.
  intros Hs. destruct (isspace c) eqn:Hc.
  - rewrite length_app. simpl. rewrite Nat.add_comm. simpl. 
    change (s ++ [BACKSLASH; c]) with (s ++ [BACKSLASH] ++ [c]). rewrite app_assoc.
    replace (S (length s)) with (length (s ++ [BACKSLASH])) by (rewrite length_app; simpl; lia).
    rewrite char_at_app, Hc, length_app. simpl. rewrite Nat.add_comm. simpl.
    destruct s as [|x s]; [done|]. cbn [length]. rewrite <- app_assoc.
    change (S (length s)) with (length (x :: s)). change ([BACKSLASH] ++ [c]) with (BACKSLASH :: [c]).
    rewrite char_at_app. done.
  - change (s ++ [BACKSLASH; c]) with (s ++ [BACKSLASH] ++ [c]). rewrite app_assoc. by apply strip_end_nonspace.
Qed.

(** [dequote] undoes quoting: it gives back the string that has been put in
    double quotes, and the string of at least two characters of which each has
    been escaped by a backslash. *)
Theorem dequote_roundtrip t :
  (QUOTE ∉ t -> dequote (QUOTE :: t ++ [QUOTE]) (length (QUOTE :: t ++ [QUOTE])) true = Some (Some t)) /\
  ((2 <= length t)%nat -> dequote (escape t) (length (escape t)) true = Some (Some t)).
Proof.
  unfold dequote. simpl negb. cbv iota. split.
  - intros Hq. rewrite app_comm_cons, strip_end_nonspace by done. rewrite firstn_all.
    change (dequote_loop ((QUOTE :: t) ++ [QUOTE]) false false) with (dequote_loop (t ++ [QUOTE]) false true).
    rewrite dequote_loop_dquoted by done. simpl. by rewrite app_nil_r.
  - intros Hl. destruct t as [|c t _] using rev_ind; [simpl in Hl; lia|].
    assert (escape (t ++ [c]) = escape t ++ [BACKSLASH; c]) as He.
    { unfold escape. rewrite map_app, concat_app. done. }
    rewrite He, strip_end_escaped, firstn_all, <- He, dequote_loop_escaped; [done|].
    rewrite length_app in Hl. simpl in Hl. destruct t; [simpl in Hl; lia|done].
Qed.

Lemma dequote_roundtrip_witness :
  dequote (QUOTE :: str "a b" ++ [QUOTE]) 5 true = Some (Some (str "a b")) /\
  dequote (escape (str "a ")) 4 true = Some (Some (str "a ")).
Proof.
  split.
  - apply (proj1 (dequote_roundtrip (str "a b"))). refine (bool_decide_unpack _ _). vm_compute. exact I.
  - apply (proj2 (dequote_roundtrip (str "a "))). simpl. lia.
Defined.

(** A string of white space makes [dequote] read in front of its start. *)
Theorem dequote_blank n : dequote (replicate n " "%char) n true = None.
Proof.
  unfold dequote. simpl. assert (forall k, (k <= n)%nat -> strip_end (replicate n " "%char) k = None) as H;
    [|by rewrite (H n)].
  induction k as [|k IH]; intros Hk; [done|]. cbn [strip_end].
  assert (forall i, (i < n)%nat -> char_at (replicate n " "%char) i = Some " "%char) as Hc.
  { intros i Hi. unfold char_at. rewrite lookup_app_l by (rewrite length_replicate; lia).
    by apply lookup_replicate_2. }
  rewrite Hc by lia. simpl. destruct k as [|[|k]]; [apply IH; lia..|]. rewrite Hc by lia. apply IH. lia.
Qed.

(** ** Paths *)

(** A path with every run of slashes made one. *)
Fixpoint collapse (seen : bool) (s : cstring) : cstring :=
  match s with
  | [] => []
  | c :: s' =>
      if c =a "/" then if seen then collapse true s' else c :: collapse true s'
      else c :: collapse false s'
  end.

(** Characters that stand for themselves in a path. *)
Definition plain (c : ascii) : Prop := c <> QUOTE /\ c <> BACKSLASH /\ 32 <= schar c.

#[export] Instance plain_dec c : Decision (plain c).
Proof. unfold plain. apply _. Defined.

Lemma sanitize_loop_plain s tl seen :
  Forall plain s -> sanitize_loop (s ++ tl) (length s) seen false false = Some (Some (collapse seen s, false)).
Proof.
  intros Hs. revert seen. induction Hs as [|c s (H1 & H2 & H3) Hs IH]; intros seen; [done|]. simpl.
  rewrite (bool_decide_false (c = QUOTE)), (bool_decide_false (c = BACKSLASH)) by done. destruct (schar c <? 32) eqn:E; boolify; [lia|]. simpl.
  destruct (c =a "/"); [destruct seen|]; rewrite IH; done.
Qed.

Lemma collapse_no_double seen s :
  (~ exists p q, collapse seen s = p ++ str "//" ++ q) /\ (seen = true -> head (collapse seen s) <> Some "/"%char).
Proof.
  revert seen. induction s as [|c s IH]; intros seen; simpl.
  { split; [intros (p & q & H); by destruct p|done]. }
  case_bool_decide as E; [destruct seen|].
  - apply IH.
  - split; [|done]. destruct (IH true) as [H1 H2]. intros ([|x p] & q & H); injection H as -> H.
    + apply H2; [done|]. rewrite H. done.
    + apply H1. by exists p, q.
  - split; [|intros _ [= ->]; done]. destruct (IH false) as [H1 _]. intros ([|x p] & q & H); injection H as -> H.
    + done.
    + apply H1. by exists p, q.
Qed.

Lemma collapse_idem s : forall seen, collapse seen (collapse seen s) = collapse seen s.
Proof.
  induction s as [|c s IH]; intros seen; [done|]. simpl.
  case_bool_decide as E; [destruct seen; [apply IH|]|]; simpl.
  - rewrite bool_decide_true by done. by rewrite IH.
  - rewrite bool_decide_false by done. by rewrite IH.
Qed.

Lemma collapse_plain s : Forall plain s -> forall seen, Forall plain (collapse seen s).
Proof.
  intros Hs. induction Hs as [|c s Hc Hs IH]; intros seen; [constructor|]. simpl.
  case_bool_decide; [destruct seen|]; try constructor; auto.
Qed.

Lemma collapse_slash s : "/"%char ∈ collapse false s <-> "/"%char ∈ s.
Proof.
  assert (forall seen, ("/"%char ∈ collapse seen s -> "/"%char ∈ s) /\
    (seen = false -> "/"%char ∈ s -> "/"%char ∈ collapse seen s)) as H.
  { induction s as [|c s IH]; intros seen; simpl; [done|]. case_bool_decide as E.
    - subst. split; [intros _; by left|]. intros ->. intros _. by left.
    - destruct (IH false) as [H1 H2]. split; [rewrite !elem_of_cons; naive_solver|].
      intros _. rewrite !elem_of_cons. naive_solver. }
  destruct (H false). split; auto.
Qed.

Lemma path_type_collapse s type : Forall plain s -> path_type_ok (collapse false s) type = path_type_ok s type.
Proof.
  intros Hs. unfold path_type_ok. destruct (_ =? 0); [done|].
  assert (hd_char (collapse false s) = hd_char s) as Hh.
  { destruct s as [|c s]; [done|]. simpl. by destruct (c =a "/"). }
  assert (hd_char s =a QUOTE = false) as Hq.
  { apply bool_decide_false. destruct Hs as [|c s (H1 & _) _]; [done|exact H1]. }
  rewrite Hh, Hq, Hh. pose proof (collapse_slash s) as Hsl.
  destruct (strchr (collapse false s) "/") as [c1|] eqn:E1, (strchr s "/") as [c2|] eqn:E2; try done.
  - apply strchr_None in E2. apply strchr_Some in E1 as (p & Hp & _ & Ht). exfalso. apply E2, Hsl.
    rewrite Hp. destruct c1 as [|x c]; [done|]. injection Ht as ->. set_solver.
  - apply strchr_None in E1. apply strchr_Some in E2 as (p & Hp & _ & Ht). exfalso. apply E1, Hsl.
    rewrite Hp. destruct c2 as [|x c]; [done|]. injection Ht as ->. set_solver.
Qed.

(** Of a path without quotes, escapes and control characters that fits the
    kind of map, [sanitize_path] returns the path with each run of slashes made
    one slash; the result has no two slashes in a row, and running it through
    [sanitize_path] again does not change it. *)
Theorem sanitize_path_spec path type :
  Forall plain path -> path_type_ok path type = true ->
  exists out, sanitize_path path (length path) type true = Some (Some out) /\
    out = collapse false path /\ (~ exists p q, out = p ++ str "//" ++ q) /\
    sanitize_path out (length out) type true = Some (Some out).
Proof.
  intros Hp Ht. exists (collapse false path). unfold sanitize_path.
  rewrite path_type_collapse, Ht, !sanitize_loop_plain by auto using collapse_plain. simpl.
  rewrite collapse_idem. split_and!; try done. apply collapse_no_double.
Qed.

Lemma sanitize_path_witness :
  exists out, sanitize_path (str "/a//b") 5 LKP_DIRECT true = Some (Some out) /\ out = str "/a/b".
Proof.
  destruct (sanitize_path_spec (str "/a//b") LKP_DIRECT) as (out & Hrun & Hout & _).
  - repeat constructor; vm_compute; done.
  - reflexivity.
  - exists out. split; [exact Hrun|exact Hout].
Defined.

(** The slash at the end of a path is kept, although [sanitize_path] means to
    remove it; and a path with a character outside of ASCII is refused, since
    [char] is signed. *)
Theorem sanitize_path_surprises :
  sanitize_path (str "/a/") 3 LKP_DIRECT true = Some (Some (str "/a/")) /\
  sanitize_path (str "/" ++ ["195"%char; "169"%char]) 3 LKP_DIRECT true = Some None.
Proof. done. Qed.

(** [starts_with_null_opt] recognises the string "-null", alone or followed
    by a space or a comma. *)
Theorem starts_with_null_opt_spec s :
  NUL ∉ s ->
  starts_with_null_opt s = true <->
  s = str "-null" \/ exists c r, s = str "-null" ++ c :: r /\ (c = " "%char \/ c = ","%char).
Proof.
  intros Hn. unfold starts_with_null_opt. split.
  - destruct ((5 <=? strlen s) && _) eqn:E; [|done]. boolify. intros [Hsep Hs]%andb_true_iff.
    apply strneq_true in Hs. rewrite <- (take_drop 5 s), Hs. change (take 5 (str "-null")) with (str "-null").
    assert (NUL ∉ drop 5 s) as Hn' by (intros Hin; apply Hn; eapply elem_of_sublist; [exact Hin|apply sublist_drop]).
    destruct (drop 5 s) as [|c r]; [left; by rewrite app_nil_r|right]. exists c, r. split; [done|].
    rewrite !orb_true_iff, !bool_decide_eq_true in Hsep. unfold hd_char in Hsep. simpl in Hsep.
    destruct Hsep as [[->|?]|?]; auto. exfalso. apply Hn'. by left.
  - intros [->|(c & r & -> & Hc)]; [done|].
    rewrite (proj2 (Z.leb_le 5 (strlen (str "-null" ++ c :: r))))
      by (unfold strlen; rewrite length_app; simpl; lia).
    by destruct Hc as [-> | ->].
Qed.
