(* ===== verification/Options.v ===== *)
(** * Merging mount options (lib/parse_subs.c: hasopt and merge_options)

    [merge_options] works in buffers of fixed sizes: writing behind the end of one
    leaves the model. *)

From S2P Require Import Prelude CString.

Definition COMMA : ascii := ","%char.

Definition MAX_OPTIONS_LEN : Z := 256.
Definition MAX_OPTION_LEN : Z := 40.

(** [hasopt]: the rest of [s] from the option on. Each round continues behind a
    comma, so the length of the string bounds the rounds. *)
Fixpoint hasopt_loop (fuel : nat) (rest opt : cstring) : option cstring :=
  match fuel with
  | O => None
  | S fuel' =>
      match strstr rest opt with
      | None => None
      | Some (pre, p) =>
          let c := hd_char (drop (length opt) p) in
          if (bool_decide (pre = []) || bool_decide (last pre = Some COMMA)) &&
             ((c =a NUL) || (c =a "=") || (c =a COMMA)) then Some p
          else
            match strchr p COMMA with
            | Some (_ :: rest') => hasopt_loop fuel' rest' opt
            | _ => None
            end
      end
  end.

Definition hasopt (s opt : cstring) : option cstring := hasopt_loop (S (length s)) s opt.

Definition has (s opt : cstring) : bool := bool_decide (is_Some (hasopt s opt)).

(** The parts of a string between commas; [strtok_r] leaves out the empty ones. *)
Fixpoint split (s : cstring) : list cstring :=
  match s with
  | [] => [[]]
  | c :: s' =>
      if c =a COMMA then [] :: split s'
      else match split s' with
           | t :: ts => (c :: t) :: ts
           | [] => [[c]]
           end
  end.

Definition tokens (s : cstring) : list cstring := filter (fun t => t <> []) (split s).

Definition has_eq (tok : cstring) : bool := bool_decide ("="%char ∈ tok).
Definition opt_name (tok : cstring) : cstring := before tok "="%char.

(** The pairs of options that exclude each other. *)
Definition conflicts : list (string * string) :=
  [("rw", "ro"); ("ro", "rw"); ("bg", "fg"); ("fg", "bg"); ("bg", "fg"); ("soft", "hard"); ("hard", "soft")].

Definition in_conflict (this opt2 : cstring) : bool :=
  existsb (fun '(a, b) => streq this (str a) && has opt2 (str b)) conflicts.

(** What becomes of an option of the first list. *)
Inductive outcome := Fail | Skip | Add (text : cstring) (resultlen : Z).

Definition merge_token (opt2 tok : cstring) (resultlen : Z) : outcome :=
  let this := opt_name tok in
  if has_eq tok && negb (has opt2 this) then
    if MAX_OPTIONS_LEN <? resultlen + strlen this then Fail
    else Add tok (resultlen + strlen tok + 1)
  else if in_conflict this opt2 then Skip
  else
    let isno := strneq this (str "no") 2 in
    let neg := if isno then drop 2 this else str "no" ++ this in
    if MAX_OPTION_LEN <? strlen neg then Fail
    else if has opt2 neg then Skip
    else if has opt2 this then Skip
    else if MAX_OPTIONS_LEN <? resultlen + strlen this + 1 then Fail
    else Add this (strlen this + 1).

(** Append to the buffer [result]. *)
Definition append (result text : cstring) : option cstring :=
  if MAX_OPTIONS_LEN <? strlen (result ++ text) then None else Some (result ++ text).

(** The loop over the tokens: outside of a buffer, a failure, or the buffer and
    the length that was counted. *)
Fixpoint merge_loop (opt2 : cstring) (toks : list cstring) (result : cstring) (resultlen : Z) :
    option (option (cstring * Z)) :=
  match toks with
  | [] => Some (Some (result, resultlen))
  | tok :: toks' =>
      match merge_token opt2 tok resultlen with
      | Fail => Some None
      | Skip => merge_loop opt2 toks' result resultlen
      | Add text resultlen' =>
          match append result (text ++ [COMMA]) with
          | None => None
          | Some result' => merge_loop opt2 toks' result' resultlen'
          end
      end
  end.

Definition drop_comma (s : cstring) : cstring :=
  if bool_decide (last s = Some COMMA) then removelast s else s.

(** [merge_options]; [junk] is the length that [strlen] finds in the buffer [str],
    which has not been written when it is called. Each [strdup] of a result is taken
    to succeed. *)
Definition merge_options (junk : Z) (opt1 opt2 : option cstring) : option (option cstring) :=
  match default [] opt1, default [] opt2 with
  | [], [] => Some None
  | o1, [] => Some (Some o1)
  | [], o2 => Some (Some o2)
  | o1, o2 =>
      if streq o1 o2 then Some (Some o1)
      else if MAX_OPTIONS_LEN <? junk then Some None
      else if MAX_OPTIONS_LEN <? strlen o1 then None
      else
        match merge_loop o2 (tokens o1) [] 0 with
        | None => None
        | Some None => Some None
        | Some (Some (result, resultlen)) =>
            if MAX_OPTIONS_LEN <? resultlen + strlen o2 then Some None
            else
              match append result o2 with
              | None => None
              | Some result => Some (Some (drop_comma result))
              end
        end
  end.

(** ** The search for an option *)

(** An option of this name starts here. *)
Definition opt_at (opt q : cstring) : Prop :=
  opt `prefix_of` q /\
  (drop (length opt) q = [] \/ head (drop (length opt) q) = Some "="%char \/ head (drop (length opt) q) = Some COMMA).

Definition starts (p : cstring) : Prop := p = [] \/ last p = Some COMMA.

Lemma take_prefix (t q : cstring) : take (length t) q = t <-> t `prefix_of` q.
Proof.
  split.
  - intros H. exists (drop (length t) q). rewrite <- H at 1. by rewrite take_drop.
  - intros [k ->]. by rewrite take_app_length.
Qed.

Lemma strneq_prefix (q t : cstring) : strneq q t (length t) = true <-> t `prefix_of` q.
Proof. rewrite strneq_true, firstn_all. apply take_prefix. Qed.

Lemma strstr_first s t : forall p q,
  s = p ++ q -> t `prefix_of` q ->
  exists pre r, strstr s t = Some (pre, r) /\ s = pre ++ r /\ (length pre <= length p)%nat.
Proof.
  induction s as [|c s IH]; intros p q Hs Hq; cbn [strstr];
    (destruct (strneq _ t (length t)) eqn:E; [exists [], p, q || eexists [], _; split; [done|]; split; [done|simpl; lia]|]).
  - destruct p; [|done]. simplify_eq/=. apply strneq_prefix in Hq. congruence.
  - destruct p as [|d p]; simplify_eq/=; [apply strneq_prefix in Hq; congruence|].
    destruct (IH p q eq_refl Hq) as (pre & r & -> & Hpr & Hl). exists (d :: pre), r. simpl.
    split; [done|]. split; [by rewrite Hpr|lia].
Qed.

Lemma opt_at_test opt q :
  NUL ∉ q -> opt `prefix_of` q ->
  ((hd_char (drop (length opt) q) =a NUL) || (hd_char (drop (length opt) q) =a "=") ||
   (hd_char (drop (length opt) q) =a COMMA)) = true <-> opt_at opt q.
Proof.
  intros Hn Hp. unfold opt_at. rewrite !orb_true_iff, !bool_decide_eq_true.
  destruct Hp as [k ->]. rewrite drop_app_length. destruct k as [|c k]; simpl.
  - split; [|by auto]. intros _. split; [by exists []|by left].
  - unfold hd_char. simpl. split.
    + intros [[->|?]|?]; [exfalso; apply Hn; set_solver|..]; (split; [by exists (c :: k)|]); right; [left|right]; congruence.
    + intros [_ [?|[[= ->]|[= ->]]]]; [done|auto..].
Qed.

Lemma strchr_split s c t : strchr s c = Some t -> exists a b, s = a ++ c :: b /\ t = c :: b /\ c ∉ a.
Proof.
  intros (p & -> & Hp & Ht)%strchr_Some. destruct t as [|x t]; [done|]. injection Ht as ->. by exists p, t.
Qed.

Lemma hasopt_loop_sound fuel : forall rest opt r,
  NUL ∉ rest -> hasopt_loop fuel rest opt = Some r ->
  exists p, rest = p ++ r /\ starts p /\ opt_at opt r.
Proof.
  induction fuel as [|fuel IH]; intros rest opt r Hn; [done|]. cbn [hasopt_loop].
  destruct (strstr rest opt) as [[pre p]|] eqn:E; [|done]. apply strstr_Some in E as [-> Ht].
  apply take_prefix in Ht. assert (NUL ∉ p) as Hnp by set_solver.
  destruct (_ && _) eqn:Ec.
  - intros [= <-]. exists pre. split; [done|]. apply andb_true_iff in Ec as [Hst Hat]. split.
    + apply orb_true_iff in Hst as [?|?]; boolify; [by left|by right].
    + by apply (opt_at_test opt p).
  - destruct (strchr p COMMA) as [[|x rest']|] eqn:Es; try done. intros Hr.
    apply strchr_split in Es as (a & b & -> & [= -> ->] & _).
    destruct (IH b opt r) as (p' & -> & Hst & Hat); [set_solver|done|].
    exists (pre ++ a ++ COMMA :: p'). split; [by rewrite <- !app_assoc|]. split; [|done]. right.
    rewrite app_assoc, last_app, last_cons. by destruct Hst as [->| ->].
Qed.

Lemma hasopt_loop_complete fuel : forall rest opt p q,
  NUL ∉ rest -> (length rest < fuel)%nat -> rest = p ++ q -> starts p -> opt_at opt q ->
  is_Some (hasopt_loop fuel rest opt).
Proof.
  induction fuel as [|fuel IH]; intros rest opt p q Hn Hf Hs Hst Hat; [lia|]. cbn [hasopt_loop].
  destruct (strstr_first rest opt p q Hs (proj1 Hat)) as (pre & r & -> & Hr & Hle).
  destruct (_ && _) eqn:Ec; [eauto|].
  assert (exists x, p = pre ++ x /\ r = x ++ q) as (x & Hp & Hrx).
  { rewrite Hs in Hr. apply app_eq_inv in Hr as [(k & -> & ->)|(k & -> & ->)]; [by exists k|].
    rewrite length_app in Hle. destruct k; [|simpl in Hle; lia]. exists []. by rewrite !app_nil_r. }
  subst p r rest. destruct x as [|c x].
  - exfalso. rewrite app_nil_r in Hst. apply not_true_iff_false in Ec. apply Ec, andb_true_iff. split.
    + apply orb_true_iff. destruct Hst; [left|right]; by apply bool_decide_eq_true.
    + apply (opt_at_test opt q); [set_solver|apply Hat|done].
  - assert (last (c :: x) = Some COMMA) as Hlast.
    { destruct Hst as [H|H]; [by destruct pre|]. rewrite last_app, last_cons in H. rewrite last_cons.
      by destruct (last x). }
    assert (COMMA ∈ c :: x) as Hin by (by apply last_Some_elem_of).
    destruct (strchr ((c :: x) ++ q) COMMA) as [t|] eqn:Es;
      [|apply strchr_None in Es; set_solver].
    apply strchr_split in Es as (a & b & Hab & -> & Ha).
    assert (exists y, b = y ++ q /\ starts y) as (y & -> & Hy).
    { apply app_eq_inv in Hab as [(k & Hk & Hb)|(k & Hk & Hb)].
      - destruct k as [|d k]; [rewrite app_nil_r in Hk; subst; set_solver|]. injection Hb as <- ->.
        exists k. split; [done|]. rewrite Hk, last_app, last_cons in Hlast.
        destruct k as [|e k]; [by left|right]. rewrite last_cons in *. by destruct (last k).
      - exfalso. apply Ha. rewrite Hk. set_solver. }
    assert (NUL ∉ (c :: x) ++ q) as Hn' by set_solver.
    assert (length ((c :: x) ++ q) <= fuel)%nat as Hf' by (rewrite !length_app in *; simpl in *; lia).
    rewrite Hab in Hn', Hf'. eapply (IH _ _ y q); [|..|done|done|done].
    + set_solver.
    + rewrite length_app in Hf'. simpl in Hf'. lia.
Qed.

(** [hasopt] finds an option exactly when the list has one of this name: at
    the start of the list or behind a comma, the name, and then the end, an equal
    sign or a comma. *)
Theorem hasopt_spec s opt :
  NUL ∉ s ->
  (forall r, hasopt s opt = Some r -> exists p, s = p ++ r /\ starts p /\ opt_at opt r) /\
  (is_Some (hasopt s opt) <-> exists p q, s = p ++ q /\ starts p /\ opt_at opt q).
Proof.
  intros Hn. unfold hasopt. split; [|split].
  - intros r Hr. by eapply hasopt_loop_sound.
  - intros [r Hr]. apply hasopt_loop_sound in Hr as (p & ? & ?); [by exists p, r|done].
  - intros (p & q & Hs & Hst & Hat). eapply hasopt_loop_complete; eauto.
Qed.

Lemma hasopt_witness : hasopt (str "nosuid,ro=1,soft") (str "ro") = Some (str "ro=1,soft").
Proof.
  destruct (hasopt_spec (str "nosuid,ro=1,soft") (str "ro")) as [_ H];
    [refine (bool_decide_unpack _ _); vm_compute; exact I|].
  destruct (proj2 H) as [r Hr].
  - exists (str "nosuid,"), (str "ro=1,soft"). split; [done|]. split; [by right|].
    split; [by exists (str "=1,soft")|right; by left].
  - rewrite Hr. revert Hr. vm_compute. by intros [= <-].
Defined.

(** ** The merged list *)

(** Whether an option of the first list is kept. *)
Definition kept (opt2 tok : cstring) : bool :=
  if has_eq tok then negb (has opt2 (opt_name tok))
  else negb (in_conflict tok opt2) &&
       negb (has opt2 (if strneq tok (str "no") 2 then drop 2 tok else str "no" ++ tok)) &&
       negb (has opt2 tok).

Definition kept_list (opt2 : cstring) (toks : list cstring) : cstring :=
  concat (map (fun t => t ++ [COMMA]) (filter (fun t => kept opt2 t = true) toks)).

Definition toks_len (toks : list cstring) : Z := foldr (fun t n => strlen t + 1 + n) 0 toks.

Lemma before_all s c : c ∉ s -> before s c = s.
Proof.
  induction s as [|x s IH]; simpl; intros Hc; [done|]. rewrite not_elem_of_cons in Hc.
  destruct (decide (x = c)); [naive_solver|]. by rewrite IH by tauto.
Qed.

Lemma before_le s c : (length (before s c) <= length s)%nat.
Proof. induction s as [|x s IH]; simpl; [done|]. destruct (decide (x = c)); simpl; lia. Qed.

Lemma toks_len_nonneg toks : 0 <= toks_len toks.
Proof. induction toks as [|t toks IH]; simpl; [lia|]. pose proof (strlen_nonneg t). lia. Qed.

(** Options that are short enough are kept or skipped as [kept] says. *)
Lemma merge_token_kept opt2 tok n :
  strlen tok + 2 <= MAX_OPTION_LEN -> 0 <= n -> n + strlen tok + 1 <= MAX_OPTIONS_LEN ->
  if kept opt2 tok then exists n', merge_token opt2 tok n = Add tok n' /\ 0 <= n' <= n + strlen tok + 1
  else merge_token opt2 tok n = Skip.
Proof.
  intros Hl Hn Hfit. unfold merge_token, kept. pose proof (before_le tok "="%char) as Hb.
  unfold has_eq, opt_name in *. unfold strlen in *. case_bool_decide as He.
  - destruct (has opt2 (before tok "="%char)) eqn:Eh; simpl.
    + destruct (in_conflict _ _); [done|].
      destruct (MAX_OPTION_LEN <? _) eqn:E.
      { boolify. destruct (strneq _ _ _); [rewrite length_drop in E|rewrite ?length_app in E; simpl in E]; lia. }
      by destruct (has opt2 (if strneq _ _ _ then _ else _)).
    + destruct (_ <? _) eqn:E; boolify; [lia|]. eexists. split; [done|]. lia.
  - rewrite (before_all tok) by done. simpl. destruct (in_conflict tok opt2); simpl; [done|].
    destruct (MAX_OPTION_LEN <? _) eqn:E.
    { boolify. destruct (strneq _ _ _); [rewrite length_drop in E|rewrite ?length_app in E; simpl in E]; lia. }
    destruct (has opt2 (if strneq _ _ _ then _ else _)); simpl; [done|]. destruct (has opt2 tok); simpl; [done|].
    destruct (MAX_OPTIONS_LEN <? _) eqn:E2; boolify; [lia|]. eexists. split; [done|]. lia.
Qed.

Lemma merge_loop_run opt2 toks : forall result n,
  Forall (fun t => strlen t + 2 <= MAX_OPTION_LEN) toks ->
  0 <= n <= strlen result -> strlen result + toks_len toks <= MAX_OPTIONS_LEN ->
  exists n', merge_loop opt2 toks result n = Some (Some (result ++ kept_list opt2 toks, n')) /\
    0 <= n' <= strlen (result ++ kept_list opt2 toks).
Proof.
  unfold kept_list. induction toks as [|tok toks IH]; intros result n Hf Hn Hl; simpl.
  { exists n. rewrite app_nil_r. done. }
  apply Forall_cons in Hf as [Ht Hf]. simpl in Hl. pose proof (toks_len_nonneg toks).
  pose proof (strlen_nonneg tok). pose proof (merge_token_kept opt2 tok n Ht ltac:(lia) ltac:(lia)) as Htok.
  rewrite filter_cons. destruct (kept opt2 tok) eqn:Ek.
  - rewrite decide_True by done. destruct Htok as (n' & -> & Hn'). unfold append.
    assert (strlen (result ++ tok ++ [COMMA]) = strlen result + strlen tok + 1) as Hlen
      by (rewrite !strlen_app; unfold strlen; simpl; lia).
    destruct (MAX_OPTIONS_LEN <? _) eqn:E; boolify; [lia|].
    destruct (IH (result ++ tok ++ [COMMA]) n') as (n'' & -> & Hn''); [done|lia|lia|].
    exists n''. simpl. rewrite <- !app_assoc in *. simpl in *. done.
  - rewrite decide_False by done. rewrite Htok. apply IH; [done|lia|lia].
Qed.

Lemma split_len s : toks_len (split s) = strlen s + 1 /\ split s <> [].
Proof.
  unfold strlen. induction s as [|c s [IH1 IH2]]; [done|]. simpl. case_bool_decide; simpl; [split; [unfold strlen; simpl; lia|done]|].
  destruct (split s) as [|t ts]; [done|]. simpl in *. unfold strlen in *. simpl. split; [lia|done].
Qed.

Lemma tokens_len s : toks_len (tokens s) <= strlen s + 1.
Proof.
  destruct (split_len s) as [<- _]. unfold tokens. induction (split s) as [|t ts IH]; [done|].
  rewrite filter_cons. pose proof (strlen_nonneg t). case_decide; simpl; lia.
Qed.



(** The length that [merge_options] counts is set and not added to
    ([resultlen =+]): two lists of options that each fit the buffer of the result
    can overflow it. *)
Theorem merge_options_overflow :
  exists o1 o2, strlen o1 <= MAX_OPTIONS_LEN /\ strlen o2 <= MAX_OPTIONS_LEN /\
    merge_options 0 (Some o1) (Some o2) = None.
Proof.
  exists (concat (map (fun c => replicate 20 c ++ [COMMA])
            ["a"%char; "b"%char; "c"%char; "d"%char; "e"%char; "f"%char])),
         (replicate 200 "z"%char).
  vm_compute. split; [congruence|]. split; [congruence|reflexivity].
Qed.
