(* ===== verification/AmdExpand.v ===== *)
(** * Expansion of amd map entries, and program arguments (lib/parse_subs.c)

    [expandamdent] runs twice: once to count and once to write, into a buffer of
    the size that was counted. *)

From S2P Require Import Prelude CString Macros Args.

(** ** [basename] and [dirname] of the C library *)

Fixpoint rstrip (s : cstring) : cstring :=
  match s with
  | [] => []
  | c :: s' => match rstrip s' with [] => if c =a "/" then [] else [c] | t => c :: t end
  end.

(** The part of a string up to the last slash, with it, and the part behind. *)
Fixpoint split_last (s : cstring) : option (cstring * cstring) :=
  match s with
  | [] => None
  | c :: s' =>
      match split_last s' with
      | Some (d, b) => Some (c :: d, b)
      | None => if c =a "/" then Some ([c], s') else None
      end
  end.

Definition basename (s : cstring) : cstring :=
  match s with
  | [] => str "."
  | _ => match rstrip s with
         | [] => str "/"
         | t => match split_last t with Some (_, b) => b | None => t end
         end
  end.

(** The slashes in front of a path name: two are kept, any other number is one. *)
Definition root_of (slashes : cstring) : cstring :=
  if bool_decide (length slashes = 2%nat) then str "//" else str "/".

Definition dirname (s : cstring) : cstring :=
  match split_last s with
  | None => str "."
  | Some _ =>
      match rstrip s with
      | [] => root_of s
      | t => match split_last t with
             | None => str "."
             | Some (d, _) => match rstrip d with [] => root_of d | d' => d' end
             end
      end
  end.

(** ** Expansion *)

Inductive expand_type := EXPAND_NONE | EXPAND_LEADING_SLASH | EXPAND_TRAILING_SLASH
  | EXPAND_LEADING_DOT | EXPAND_TRAILING_DOT.

Definition expand_slash_or_dot (s : option cstring) (type : expand_type) : option cstring :=
  match s with
  | None => None
  | Some s =>
      match type with
      | EXPAND_NONE => Some s
      | EXPAND_LEADING_SLASH => Some (basename s)
      | EXPAND_TRAILING_SLASH => Some (dirname s)
      | EXPAND_LEADING_DOT => after_first s "."%char
      | EXPAND_TRAILING_DOT => Some (before s "."%char)
      end
  end.

Definition is_mark (c : ascii) : bool := (c =a "/") || (c =a ".").

(** The kind of expansion that the first and the last character of the name ask
    for; the last one decides. *)
Definition type_of (name : cstring) : expand_type :=
  if is_mark (default "{"%char (last name)) then
    if default "{"%char (last name) =a "." then EXPAND_TRAILING_DOT else EXPAND_TRAILING_SLASH
  else if is_mark (hd_char name) then
    if hd_char name =a "." then EXPAND_LEADING_DOT else EXPAND_LEADING_SLASH
  else EXPAND_NONE.

Section Expand.
Context (getenv : option (cstring -> option cstring)) (norm : bool) (svc : table).

(** The lookup of a name in the rest [src] of the entry: without its marks the
    length of a name of one mark is -1, which [strncmp] takes for no limit. *)
Definition find_name (src name : cstring) : TM (option substvar) :=
  let start := if is_mark (hd_char name) then 1 else 0 in
  let stop := Z.of_nat (length name) - (if is_mark (default "{"%char (last name)) then 1 else 0) in
  let s := drop (Z.to_nat start) src in
  if stop <? start then
    sys ← get_state;
    if existsb (fun sv => streq s (sv_def sv)) (svc ++ sys) || bool_decide (is_Some getenv) then stuck
    else mret None
  else macro_findvar getenv svc s (Z.to_nat (stop - start)).

(** Add the text [s] to the count and to the output. *)
Definition emit (dst : bool) (s : cstring) (r : Z * cstring) : Z * cstring :=
  (strlen s + fst r, if dst then s ++ snd r else snd r).

Fixpoint skip_run (s : cstring) : cstring :=
  match s with
  | c :: s' => if c =a "/" then skip_run s' else s
  | [] => []
  end.

(** [expandamdent]: [first] is set at the start of the entry. Each round consumes
    a character, so the length of the entry bounds the rounds. *)
Fixpoint expand_loop (fuel : nat) (dst first squote : bool) (src : cstring) : TM (Z * cstring) :=
  match src with
  | [] => mret (0, [])
  | ch :: src =>
      match fuel with
      | O => stuck
      | S fuel' =>
          let cont (sq : bool) (s : cstring) (rest : cstring) : TM (Z * cstring) :=
            r ← expand_loop fuel' dst false sq rest; mret (emit dst s r) in
          if ch =a "$" then
            match src with
            | c :: src' =>
                if c =a "{" then
                  match after_first src' "}"%char with
                  | None => mret (0, [])
                  | Some rest =>
                      let name := before src' "}"%char in
                      sv ← find_name src' name;
                      match sv with
                      | Some sv =>
                          ok ← malloc;
                          let s := if (ok : bool) then Some (sv_val sv) else None in
                          cont squote (default (sv_val sv) (expand_slash_or_dot s (type_of name))) rest
                      | None => cont squote (str "${" ++ name ++ str "}") rest
                      end
                  end
                else cont squote [ch] src
            | [] => cont squote [ch] src
            end
          else if ch =a BACKSLASH then
            if squote || negb norm then cont squote [ch] src
            else
              match src with
              | c :: src' => cont squote [c] src'
              | [] => cont squote [] src
              end
          else if ch =a "/" then
            if squote || negb norm then cont squote [ch] src
            else if first && (hd_char src =a "/") then cont squote (str "//") (skip_run (tail src))
            else cont squote [ch] (skip_run src)
          else if ch =a SQUOTE then cont (negb squote) [ch] src
          else cont squote [ch] src
      end
  end.

Definition expandamdent (dst : bool) (src : cstring) : TM (Z * cstring) :=
  expand_loop (length src) dst true false src.

(** [expand_selectors]: the length and the expansion. Writing more than was
    counted leaves the model. *)
Definition expand_selectors (mapstr : option cstring) : TM (Z * option cstring) :=
  match mapstr with
  | None => mret (0, None)
  | Some mapstr =>
      r ← expandamdent false mapstr;
      if fst r =? 0 then mret (0, None)
      else
        ok ← malloc;
        if negb ok then mret (0, None)
        else
          r' ← expandamdent true mapstr;
          if fst r <? strlen (snd r') then stuck else mret (fst r, Some (snd r'))
  end.

End Expand.

(** ** Program arguments *)

(** [next_arg]: the argument and what follows it. *)
Definition next_arg (s : cstring) : option (cstring * cstring) :=
  match s with
  | [] => None
  | c :: s' =>
      if c =a SQUOTE then Some (before s' SQUOTE, default [] (after_first s' SQUOTE))
      else Some (before s " "%char, default [] (after_first s " "%char))
  end.

(** The loop of [construct_argv]. *)
Fixpoint argv_loop {S} (fuel : nat) (next : cstring) (argc : nat) (args : vector) : M S (option (nat * vector)) :=
  match next with
  | [] => mret (Some (argc, args))
  | _ =>
      match fuel with
      | O => stuck
      | Datatypes.S fuel' =>
          match next_arg next with
          | None => argv_loop fuel' [] argc args
          | Some (arg, next') =>
              args' ← add_argv (argc + 1) args arg;
              match args' with
              | None => mret None
              | Some args' => argv_loop fuel' next' (argc + 1) args'
              end
          end
      end
  end.

(** [construct_argv]: the number of arguments, the program and the arguments. *)
Definition construct_argv {S} (s : cstring) : M S (option (nat * cstring * vector)) :=
  ok ← malloc;
  if negb ok then mret None
  else
    match next_arg s with
    | None => mret None
    | Some (program, next) =>
        r ← argv_loop (length s) next 0 [Null];
        match r with
        | None => mret None
        | Some (argc, args) => mret (Some (argc, program, args))
        end
    end.
