(* ===== verification/AmdExpandProps.v ===== *)
(** * Properties of the expansion of amd map entries *)

From S2P Require Import Prelude CString Macros MacrosProps Args AmdExpand.

(** ** The two passes agree *)

(** A name that a variable can have. *)
Definition name_ok (sv : substvar) : Prop := head (sv_def sv) <> Some "}"%char.

Lemma skip_run_length s : (length (skip_run s) <= length s)%nat.
Proof. induction s as [|c s IH]; simpl; [done|]. destruct (c =a "/"); simpl; lia. Qed.

Lemma after_first_split s c r : after_first s c = Some r -> s = before s c ++ c :: r.
Proof.
  unfold after_first. destruct (strchr s c) as [[|x t]|] eqn:E; try done. intros [= ->].
  apply strchr_Some in E as (p & -> & Hp & [= ->]). by rewrite before_app.
Qed.

(** With memory the lookup of a name only reads. *)
Lemma find_name_reads svc src name rest sys :
  src = name ++ "}"%char :: rest -> Forall name_ok (svc ++ sys) ->
  exists o, find_name None svc src name sys [] = Some (o, sys, []).
Proof.
  intros Hsrc Hok. unfold find_name. destruct (_ <? _) eqn:E.
  - rewrite (reads_bind _ _ _ _ _ (reads_get sys)).
    rewrite (bool_decide_false (is_Some None)) by (intros [? ?]; done). rewrite orb_false_r.
    destruct (existsb _ _) eqn:Eex; [exfalso|by eexists].
    apply existsb_exists in Eex as (sv & Hin & Heq). apply streq_true in Heq. boolify.
    rewrite Forall_forall in Hok. apply (Hok sv); [by apply list_elem_of_In|]. rewrite <- Heq.
    destruct name as [|c [|d name]]; simpl in *.
    + unfold is_mark in E. simpl in E. lia.
    + destruct (is_mark (hd_char [c])) eqn:Em.
      * rewrite Hsrc. reflexivity.
      * unfold hd_char in Em. simpl in *. rewrite Em in E. lia.
    + exfalso. revert E. destruct (is_mark _), (is_mark _); lia.
  - unfold macro_findvar. rewrite (reads_bind _ _ _ _ _ (reads_get sys)).
    destruct (sv_find _ _ svc); [by eexists|]. destruct (sv_find _ _ sys); by eexists.
Qed.

(** The result of a round is as the rest, with the text added. *)
Lemma cont_run svc sys fuel norm (sq : bool) s rest lf out :
  (forall dst : bool, expand_loop None norm svc fuel dst false sq rest sys [] = Some ((lf, if dst then out else []), sys, [])) ->
  forall dst : bool,
  (r ← expand_loop None norm svc fuel dst false sq rest; mret (emit dst s r)) sys []
  = Some ((strlen s + lf, if dst then s ++ out else []), sys, []).
Proof. intros H dst. rewrite (bind_some _ _ _ _ _ _ _ (H dst)). by destruct dst. Qed.

Lemma expand_loop_agree norm svc sys fuel : forall first sq src,
  (length src <= fuel)%nat -> Forall name_ok (svc ++ sys) ->
  exists out, forall dst : bool, expand_loop None norm svc fuel dst first sq src sys []
    = Some ((strlen out, if dst then out else []), sys, []).
Proof.
  induction fuel as [|fuel IH]; intros first sq src Hf Hok.
  { destruct src; [|simpl in Hf; lia]. exists []. by intros []. }
  destruct src as [|ch src]; [exists []; by intros []|]. simpl in Hf.
  assert (forall (q : bool) s rest, (length rest <= fuel)%nat -> exists out, forall dst : bool,
    (r ← expand_loop None norm svc fuel dst false q rest; mret (emit dst s r)) sys []
    = Some ((strlen out, if dst then out else []), sys, [])) as Hcont.
  { intros q s rest Hl. destruct (IH false q rest Hl Hok) as (out & Hout). exists (s ++ out). intros dst.
    rewrite strlen_app. by apply cont_run. }
  cbn [expand_loop]. destruct (ch =a "$"); [|destruct (ch =a BACKSLASH); [|destruct (ch =a "/"); [|destruct (ch =a SQUOTE)]]].
  - destruct src as [|c src']; [apply Hcont; simpl; lia|]. destruct (c =a "{"); [|apply Hcont; simpl in *; lia].
    destruct (after_first src' "}"%char) as [rest|] eqn:Ea; [|exists []; by intros []].
    apply after_first_split in Ea as Hsplit.
    assert (length rest <= fuel)%nat as Hl by (apply (f_equal length) in Hsplit; rewrite length_app in Hsplit; simpl in *; lia).
    destruct (find_name_reads svc src' (before src' "}"%char) rest sys Hsplit Hok) as [o Ho].
    destruct o as [sv|].
    + destruct (Hcont sq (default (sv_val sv) (expand_slash_or_dot (Some (sv_val sv)) (type_of (before src' "}"%char))))
        rest Hl) as (out & Hout).
      exists out. intros dst. rewrite (bind_some _ _ _ _ _ _ _ Ho). rewrite (bind_some _ _ sys [] true sys []) by done.
      apply Hout.
    + destruct (Hcont sq (str "${" ++ before src' "}"%char ++ str "}") rest Hl) as (out & Hout).
      exists out. intros dst. rewrite (bind_some _ _ _ _ _ _ _ Ho). apply Hout.
  - destruct (sq || negb norm); [by apply Hcont; lia|]. destruct src as [|c src']; apply Hcont; simpl in *; lia.
  - pose proof (skip_run_length src). pose proof (skip_run_length (tail src)).
    assert (length (tail src) <= length src)%nat by (destruct src; simpl; lia).
    destruct (sq || negb norm); [|destruct (first && _)]; apply Hcont; lia.
  - apply Hcont. lia.
  - apply Hcont. lia.
Qed.

(** C21. With memory, the pass of [expandamdent] that counts and the pass that
    writes agree for every entry: the writing pass produces exactly as many
    characters as were counted, and [expand_selectors] returns the expansion and
    its length and never writes outside of its buffer. *)
Theorem expand_selectors_correct norm svc sys src :
  Forall name_ok (svc ++ sys) ->
  exists out, expandamdent None norm svc false src sys [] = Some ((strlen out, []), sys, []) /\
    expandamdent None norm svc true src sys [] = Some ((strlen out, out), sys, []) /\
    expand_selectors None norm svc (Some src) sys []
      = Some ((strlen out, if bool_decide (out = []) then None else Some out), sys, []).
Proof.
  intros Hok. destruct (expand_loop_agree norm svc sys (length src) true false src) as (out & Hout); [done..|].
  exists out. pose proof (Hout false) as H1. pose proof (Hout true) as H2. simpl in H1, H2.
  split; [exact H1|]. split; [exact H2|]. unfold expand_selectors, expandamdent.
  rewrite (bind_some _ _ _ _ _ _ _ H1). cbn [fst]. case_bool_decide as E.
  - by rewrite E.
  - destruct (strlen out =? 0) eqn:E0; [boolify; unfold strlen in E0; destruct out; [done|simpl in E0; lia]|].
    rewrite (bind_some _ _ sys [] true sys []) by done. cbn [negb].
    rewrite (bind_some _ _ _ _ _ _ _ H2). cbn [snd]. by rewrite Z.ltb_irrefl.
Qed.

Lemma expand_selectors_witness :
  exists out, expandamdent None true [SV (str "fs") (str "/a/b") false] true (str "//x//${/fs}${no}") [] []
    = Some ((strlen out, out), [], []) /\
  expand_selectors None true [SV (str "fs") (str "/a/b") false] (Some (str "//x//${/fs}${no}")) [] []
    = Some ((strlen out, if bool_decide (out = []) then None else Some out), [], []).
Proof.
  destruct (expand_selectors_correct true [SV (str "fs") (str "/a/b") false] [] (str "//x//${/fs}${no}"))
    as (out & _ & H2 & H3); [by repeat constructor|]. exists out. split; [exact H2|exact H3].
Defined.

(** When [strdup] fails in the pass that writes and not in the one that counts,
    the whole value is written where its base name was counted, behind the end of
    the buffer. *)
Theorem expand_selectors_overflow :
  exists svc src, expand_selectors None true svc (Some src) [] [true; true; false] = None /\
    exists r, expand_selectors None true svc (Some src) [] [] = Some (r, [], []).
Proof.
  exists [SV (str "fs") (str "/a/b") false], (str "${/fs}"). split; [reflexivity|]. eexists. vm_compute. reflexivity.
Qed.

(** ** What is expanded *)

(** Characters that expansion does not look at. *)
Definition literal (c : ascii) : Prop := c <> "$"%char /\ c <> BACKSLASH /\ c <> "/"%char /\ c <> SQUOTE.

Lemma expand_literal norm svc sys fuel dst first sq pre src r :
  Forall literal pre -> pre <> [] -> (length (pre ++ src) <= fuel)%nat ->
  expand_loop None norm svc (fuel - length pre) dst false sq src sys [] = Some (r, sys, []) ->
  expand_loop None norm svc fuel dst first sq (pre ++ src) sys []
  = Some ((strlen pre + fst r, if dst then pre ++ snd r else snd r), sys, []).
Proof.
  intros Hp. revert fuel first. induction Hp as [|c pre (H1 & H2 & H3 & H4) Hp IH]; intros fuel first Hne Hf Hr; [done|].
  destruct fuel as [|fuel]; [simpl in Hf; lia|]. simpl in Hf. rewrite <- app_comm_cons. cbn [expand_loop].
  rewrite (bool_decide_false (c = "$"%char)), (bool_decide_false (c = BACKSLASH)),
    (bool_decide_false (c = "/"%char)), (bool_decide_false (c = SQUOTE)) by done.
  destruct pre as [|d pre].
  - simpl app in *. simpl length in Hr. rewrite Nat.sub_succ, Nat.sub_0_r in Hr.
    rewrite (bind_some _ _ _ _ _ _ _ Hr). destruct dst; done.
  - assert (expand_loop None norm svc fuel dst false sq ((d :: pre) ++ src) sys []
      = Some ((strlen (d :: pre) + fst r, if dst then (d :: pre) ++ snd r else snd r), sys, [])) as Hrun
      by (apply IH; [done|lia|exact Hr]).
    rewrite (bind_some _ _ _ _ _ _ _ Hrun). unfold emit. simpl.
    unfold strlen, mret, M_ret. simpl. destruct dst; do 4 f_equal; lia.
Qed.

(** A name without marks at its ends. *)
Definition plain_name (n : cstring) : Prop :=
  "}"%char ∉ n /\ is_mark (hd_char n) = false /\ is_mark (default "{"%char (last n)) = false.

Lemma find_name_plain svc sys src n rest :
  src = n ++ "}"%char :: rest -> plain_name n ->
  find_name None svc src n sys [] =
  Some (match value_of n svc with Some sv => Some sv | None => value_of n sys end, sys, []).
Proof.
  intros Hsrc (Hn & Hh & Hl). unfold find_name. rewrite Hh, Hl. rewrite Z.sub_0_r.
  destruct (_ <? 0) eqn:E; [boolify; lia|]. change (drop (Z.to_nat 0) src) with src. rewrite Z.sub_0_r, Nat2Z.id.
  rewrite macro_findvar_value by (rewrite Hsrc, length_app; lia).
  by rewrite Hsrc, take_app_length.
Qed.

(** The text that takes the place of a variable. *)
Definition var_text (svc sys : table) (n : cstring) : cstring :=
  match value_of n svc with
  | Some sv => sv_val sv
  | None =>
      match value_of n sys with
      | Some sv => sv_val sv
      | None => str "${" ++ n ++ str "}"
      end
  end.

(** A variable in an entry is replaced by its value, from the table of the map
    or else from the system table; a name that neither defines stays as it is
    written. The text in front is kept, and the rest is expanded. *)
Theorem expandamdent_variable norm svc sys fuel pre n rest r :
  Forall literal pre -> pre <> [] -> plain_name n ->
  (length (pre ++ str "${" ++ n ++ str "}" ++ rest) <= S fuel + length pre)%nat ->
  expand_loop None norm svc fuel true false false rest sys [] = Some (r, sys, []) ->
  expand_loop None norm svc (S fuel + length pre) true true false (pre ++ str "${" ++ n ++ str "}" ++ rest) sys []
  = Some ((strlen pre + (strlen (var_text svc sys n) + fst r), pre ++ var_text svc sys n ++ snd r), sys, []).
Proof.
  intros Hp Hne Hn Hf Hr. set (text := var_text svc sys n).
  assert (expand_loop None norm svc (S fuel) true false false (str "${" ++ n ++ str "}" ++ rest) sys []
    = Some ((strlen text + fst r, text ++ snd r), sys, [])) as Hvar.
  { change (str "${" ++ n ++ str "}" ++ rest) with ("$"%char :: "{"%char :: n ++ "}"%char :: rest).
    cbn [expand_loop]. rewrite (bool_decide_true ("$"%char = "$"%char)), (bool_decide_true ("{"%char = "{"%char)) by done.
    destruct Hn as (Hn1 & Hh & Hl).
    assert (before (n ++ "}"%char :: rest) "}"%char = n) as Hb by (by apply before_app).
    assert (after_first (n ++ "}"%char :: rest) "}"%char = Some rest) as ->.
    { unfold after_first. clear -Hn1. induction n as [|c n IH]; simpl; [done|].
      rewrite not_elem_of_cons in Hn1. destruct Hn1 as [Hne Hn1].
      destruct (decide (c = "}"%char)); [congruence|]. by apply IH. }
    rewrite Hb. rewrite (bind_some _ _ _ _ _ _ _ (find_name_plain svc sys _ n rest eq_refl (conj Hn1 (conj Hh Hl)))).
    assert (type_of n = EXPAND_NONE) as Ht by (unfold type_of; by rewrite Hl, Hh).
    unfold text, var_text. destruct (value_of n svc) as [sv|]; [|destruct (value_of n sys) as [sv|]].
    1,2: rewrite (bind_some _ _ sys [] true sys []) by done; rewrite Ht; cbn [expand_slash_or_dot default];
      by rewrite (bind_some _ _ _ _ _ _ _ Hr).
    by rewrite (bind_some _ _ _ _ _ _ _ Hr). }
  rewrite (expand_literal norm svc sys (S fuel + length pre) true true false pre _
    (strlen text + fst r, text ++ snd r)); [done..|].
  replace (S fuel + length pre - length pre)%nat with (S fuel) by lia. exact Hvar.
Qed.

Lemma expandamdent_variable_witness :
  expand_loop None true [SV (str "fs") (str "/a") false] 12 true true false (str "x${fs}y") [] []
  = Some ((4, str "x/ay"), [], []).
Proof.
  apply (expandamdent_variable true [SV (str "fs") (str "/a") false] [] 10 (str "x") (str "fs") (str "y") (1, str "y")).
  - by repeat constructor.
  - done.
  - split; [refine (bool_decide_unpack _ _); vm_compute; exact I|done].
  - simpl. lia.
  - reflexivity.
Defined.

(** ** Program arguments *)

(** A word that is not quoted. *)
Definition arg_word (w : cstring) : Prop := w <> [] /\ " "%char ∉ w /\ head w <> Some SQUOTE.

Fixpoint join (ws : list cstring) : cstring :=
  match ws with
  | [] => []
  | [w] => w
  | w :: ws' => w ++ " "%char :: join ws'
  end.

Lemma next_arg_last w : arg_word w -> next_arg w = Some (w, []).
Proof.
  intros (Hne & Hs & Hq). unfold next_arg. destruct w as [|c w]; [done|].
  rewrite bool_decide_false by (intros ->; done).
  assert (before (c :: w) " "%char = c :: w) as ->.
  { clear Hne Hq. induction (c :: w) as [|x l IH]; simpl; [done|]. rewrite not_elem_of_cons in Hs.
    destruct (decide (x = " "%char)); [naive_solver|]. by rewrite IH by tauto. }
  unfold after_first. by rewrite (proj2 (strchr_None _ _) Hs).
Qed.

Lemma next_arg_word w r : arg_word w -> next_arg (w ++ " "%char :: r) = Some (w, r).
Proof.
  intros (Hne & Hs & Hq). unfold next_arg. destruct w as [|c w]; [done|].
  rewrite <- app_comm_cons, bool_decide_false by (intros ->; done). rewrite app_comm_cons, before_app by done.
  assert (after_first ((c :: w) ++ " "%char :: r) " "%char = Some r) as ->; [|done].
  unfold after_first. clear Hne Hq. induction (c :: w) as [|x l IH]; simpl; [done|].
  rewrite not_elem_of_cons in Hs. destruct (decide (x = " "%char)); [naive_solver|]. by rewrite IH by tauto.
Qed.

Lemma add_argv_step {S} args s (w : S) :
  add_argv (length args + 1) (argvec args) s w [] = Some (Some (argvec (args ++ [Some s])), w, []).
Proof.
  unfold add_argv, argvec. rewrite (bind_some _ _ w [] true w []) by done. simpl.
  rewrite Nat.add_sub, (bind_some _ _ _ _ _ _ _ (dup_args_all args [Null] w)). simpl.
  rewrite (bind_some _ _ w [] true w []) by done. simpl.
  unfold free_argv. rewrite (bind_some _ _ _ _ _ _ _ (free_args args [Null] w [])).
  by rewrite fmap_app, <- app_assoc.
Qed.

Lemma argv_loop_words {St} ws : forall fuel args (w : St),
  Forall arg_word ws -> (length (join ws) <= fuel)%nat ->
  argv_loop fuel (join ws) (length args) (argvec args) w []
  = Some (Some ((length args + length ws)%nat, argvec (args ++ (Some <$> ws))), w, []).
Proof.
  induction ws as [|x ws IH]; intros fuel args w Hws Hf.
  { destruct fuel; cbn [argv_loop join]; rewrite Nat.add_0_r, app_nil_r; done. }
  apply Forall_cons in Hws as [Hx Hws].
  assert (forall nx, nx <> [] -> (length nx <= fuel)%nat -> next_arg nx = Some (x, join ws) ->
    (length (join ws) < length nx)%nat ->
    argv_loop fuel nx (length args) (argvec args) w []
    = Some (Some ((length args + S (length ws))%nat, argvec (args ++ (Some x :: (Some <$> ws)))), w, [])) as Hstep.
  { intros nx Hne Hl Hna Hlt. destruct fuel as [|fuel]; [destruct nx; [done|simpl in Hl; lia]|].
    destruct nx as [|c nx]; [done|]. cbn [argv_loop]. rewrite Hna.
    rewrite (bind_some _ _ _ _ _ _ _ (add_argv_step args x w)).
    replace (length args + 1)%nat with (length (args ++ [Some x])) by (by rewrite length_app).
    rewrite IH by (done || lia). rewrite length_app, <- app_assoc. simpl.
    by replace (length args + 1 + length ws)%nat with (length args + S (length ws))%nat by lia. }
  destruct ws as [|y ws].
  - apply Hstep; [apply Hx|exact Hf|by apply next_arg_last|]. simpl. destruct Hx as [Hx _].
    destruct x; [done|simpl; lia].
  - change (join (x :: y :: ws)) with (x ++ " "%char :: join (y :: ws)) in *.
    apply Hstep; [by destruct x|exact Hf|by apply next_arg_word|]. rewrite length_app. simpl. lia.
Qed.

(** [construct_argv] splits a command at its spaces: a program and arguments
    without quotes and spaces in them, joined by single spaces, come back as the
    program and the vector of the arguments. *)
Theorem construct_argv_words prog ws {S} (w : S) :
  arg_word prog -> Forall arg_word ws ->
  construct_argv (join (prog :: ws)) w [] = Some (Some (length ws, prog, argvec (Some <$> ws)), w, []).
Proof.
  intros Hp Hws. unfold construct_argv. rewrite (bind_some _ _ w [] true w []) by done. cbn [negb].
  assert (next_arg (join (prog :: ws)) = Some (prog, join ws)) as ->.
  { destruct ws as [|y ws]; [by apply next_arg_last|by apply next_arg_word]. }
  pose proof (argv_loop_words ws (length (join (prog :: ws))) [] w Hws) as Hrun.
  change (argvec []) with [Null] in Hrun. change (length (@nil (option cstring))) with 0%nat in Hrun.
  rewrite (bind_some _ _ _ _ _ _ _ (Hrun ltac:(destruct ws; simpl; rewrite ?length_app; simpl; lia))). done.
Qed.

Lemma construct_argv_witness :
  construct_argv (str "/bin/mount -t nfs") () []
  = Some (Some (2%nat, str "/bin/mount", argvec [Some (str "-t"); Some (str "nfs")]), (), []).
Proof.
  apply (construct_argv_words (str "/bin/mount") [str "-t"; str "nfs"]).
  - split; [done|]. split; [refine (bool_decide_unpack _ _); vm_compute; exact I|done].
  - repeat constructor; try done; refine (bool_decide_unpack _ _); vm_compute; exact I.
Defined.

(** The space behind a quoted argument is taken for an argument of its own: an
    empty argument follows each quoted one but the last. *)
Theorem construct_argv_quoted :
  construct_argv (str "p " ++ [SQUOTE] ++ str "a b" ++ [SQUOTE] ++ str " c") () []
  = Some (Some (3%nat, str "p", argvec [Some (str "a b"); Some []; Some (str "c")]), (), []).
Proof. reflexivity. Qed.
