(* ===== verification/MapType.v ===== *)
(** * Map types (lib/parse_subs.c: parse_map_type_info)

    The function works on a copy of its string, which it cuts into pieces by
    writing NULs; the pieces are positions in this buffer. The buffer includes the
    NUL at its end; a read behind it leaves the model. *)

From S2P Require Import Prelude CString.

Abbreviation charbuf := (list ascii).

(** The C string at a position. *)
Definition cstr_at (buf : charbuf) (pos : nat) : cstring := before (drop pos buf) NUL.

Definition char_is (buf : charbuf) (pos : nat) (c : ascii) : bool := bool_decide (buf !! pos = Some c).

(** The loops that blank out spaces. *)
Fixpoint blank (fuel : nat) (buf : charbuf) (pos : nat) : charbuf * nat :=
  match fuel with
  | O => (buf, pos)
  | S fuel' => if char_is buf pos " "%char then blank fuel' (<[pos := NUL]> buf) (S pos) else (buf, pos)
  end.

Definition blank_spaces (buf : charbuf) (pos : nat) : charbuf * nat := blank (length buf) buf pos.

Definition map_type : list cstring :=
  [str "file"; str "program"; str "yp"; str "nis"; str "nisplus"; str "ldap"; str "ldaps"; str "hesiod";
   str "userdir"; str "hosts"].

Definition format_type : list cstring := [str "sun"; str "hesiod"; str "amd"].

(** Behind a type or a format: spaces, a colon, spaces, and the map. [None] when
    the colon is missing. *)
Definition colon_map (buf : charbuf) (pos : nat) : option (charbuf * nat) :=
  let '(buf, pos) := blank_spaces buf pos in
  if char_is buf pos ":"%char then Some (blank_spaces (<[pos := NUL]> buf) (S pos)) else None.

(** The loop over the formats. *)
Fixpoint formats (fs : list cstring) (buf : charbuf) (pos : nat) (fmt map : option nat) :
    option (charbuf * option nat * option nat) :=
  match fs with
  | [] => Some (buf, fmt, map)
  | f :: fs' =>
      if strneq f (cstr_at buf pos) (length f) then
        let fmt := Some pos in
        let pos := (pos + length f)%nat in
        if char_is buf pos " "%char || char_is buf pos ":"%char then
          match colon_map buf pos with
          | None => None
          | Some (buf, pos) => Some (buf, fmt, Some pos)
          end
        else formats fs' buf pos fmt map
      else formats fs' buf pos fmt map
  end.

(** The loop over the map types. *)
Fixpoint types (ts : list cstring) (buf : charbuf) (type fmt map : option nat) :
    option (charbuf * option nat * option nat * option nat) :=
  match ts with
  | [] => Some (buf, type, fmt, map)
  | t :: ts' =>
      if strneq t (cstr_at buf 0) (length t) then
        let type := Some 0%nat in
        let pos := length t in
        if char_is buf pos " "%char || char_is buf pos ":"%char then
          match colon_map buf pos with
          | None => None
          | Some (buf, pos) => Some (buf, type, fmt, Some pos)
          end
        else if char_is buf pos ","%char then
          match formats format_type (<[pos := NUL]> buf) (S pos) fmt map with
          | None => None
          | Some (buf, fmt, map) => types ts' buf type fmt map
          end
        else types ts' buf type fmt map
      else types ts' buf type fmt map
  end.

(** The loop that ends the string at a space; [None] behind its end. *)
Fixpoint terminate (fuel : nat) (buf : charbuf) (pos : nat) : option charbuf :=
  match fuel with
  | O => None
  | S fuel' =>
      match buf !! pos with
      | None => None
      | Some c =>
          if c =a NUL then Some buf
          else if c =a " " then Some (<[pos := NUL]> buf)
          else if c =a BACKSLASH then terminate fuel' buf (pos + 2)
          else terminate fuel' buf (pos + 1)
      end
  end.

Record map_type_info := Info { i_type : option cstring; i_format : option cstring; i_map : option cstring }.

(** [parse_map_type_info], with memory: outside of the buffer, no result, or the
    result. *)
Definition parse_map_type_info (s : cstring) : option (option map_type_info) :=
  let buf := s ++ [NUL] in
  let r :=
    match strchr s ":"%char with
    | None => let '(buf, pos) := blank_spaces buf 0 in Some (buf, None, None, Some pos)
    | Some _ =>
        match types map_type buf None None None with
        | Some (buf, None, fmt, map) =>
            let '(buf, pos) := blank_spaces buf 0 in Some (buf, None, fmt, Some pos)
        | r => r
        end
    end in
  match r with
  | None => Some None
  | Some (buf, type, fmt, map) =>
      match terminate (S (length buf)) buf 0 with
      | None => None
      | Some buf => Some (Some (Info (cstr_at buf <$> type) (cstr_at buf <$> fmt) (cstr_at buf <$> map)))
      end
  end.

(** ** Properties *)

Lemma before_end m : NUL ∉ m -> before (m ++ [NUL]) NUL = m.
Proof. intros Hm. by apply before_app. Qed.

Lemma blank_stop fuel (buf : charbuf) pos : buf !! pos <> Some " "%char -> blank fuel buf pos = (buf, pos).
Proof.
  intros H. destruct fuel; [done|]. cbn [blank]. unfold char_is. by rewrite bool_decide_false.
Qed.

Lemma head_not_space m : NUL ∉ m -> head m <> Some " "%char -> (m ++ [NUL]) !! 0%nat <> Some " "%char.
Proof. intros _ Hm. destruct m as [|c m]; [done|]. simpl. intros [= ->]. done. Qed.

Example parse_typed : parse_map_type_info (str "ldaps,amd : //h/x") =
  Some (Some (Info (Some (str "ldaps")) (Some (str "amd")) (Some (str "//h/x")))).
Proof. vm_compute. reflexivity. Qed.

Lemma cstr_at_start t m : NUL ∉ t -> NUL ∉ m -> cstr_at (t ++ ":"%char :: m ++ [NUL]) 0 = t ++ ":"%char :: m.
Proof.
  intros Ht Hm. unfold cstr_at. rewrite drop_0.
  replace (t ++ ":"%char :: m ++ [NUL]) with ((t ++ ":"%char :: m) ++ [NUL]) by (by rewrite <- app_assoc).
  apply before_app. rewrite not_elem_of_app, not_elem_of_cons. done.
Qed.

Lemma colon_map_run t m :
  NUL ∉ m -> head m <> Some " "%char ->
  colon_map (t ++ ":"%char :: m ++ [NUL]) (length t) = Some (t ++ NUL :: m ++ [NUL], S (length t)).
Proof.
  intros Hm Hs. unfold colon_map, blank_spaces.
  assert ((t ++ ":"%char :: m ++ [NUL]) !! length t = Some ":"%char) as Hc
    by (by rewrite lookup_app_r, Nat.sub_diag by done).
  rewrite blank_stop by (rewrite Hc; done). unfold char_is. rewrite bool_decide_true by done.
  rewrite insert_app_r_alt, Nat.sub_diag by done. simpl. rewrite blank_stop; [done|].
  rewrite lookup_app_r by lia. replace (S (length t) - length t)%nat with 1%nat by lia. by apply head_not_space.
Qed.

Lemma types_skip t ts buf a b c :
  strneq t (cstr_at buf 0) (length t) = false -> types (t :: ts) buf a b c = types ts buf a b c.
Proof. intros H. cbn [types]. by rewrite H. Qed.

Lemma types_prefix t ts buf a b c :
  strneq t (cstr_at buf 0) (length t) = true -> char_is buf (length t) " "%char = false ->
  char_is buf (length t) ":"%char = false -> char_is buf (length t) ","%char = false ->
  types (t :: ts) buf a b c = types ts buf (Some 0%nat) b c.
Proof. intros H1 H2 H3 H4. cbn [types]. by rewrite H1, H2, H3, H4. Qed.

Lemma types_hit t ts buf a b c buf' pos :
  strneq t (cstr_at buf 0) (length t) = true -> char_is buf (length t) ":"%char = true ->
  colon_map buf (length t) = Some (buf', pos) ->
  types (t :: ts) buf a b c = Some (buf', Some 0%nat, b, Some pos).
Proof. intros H1 H2 H3. cbn [types]. rewrite H1, H2, orb_true_r. by rewrite H3. Qed.

Lemma types_run t m :
  t ∈ map_type -> NUL ∉ m -> head m <> Some " "%char ->
  types map_type (t ++ ":"%char :: m ++ [NUL]) None None None
  = Some (t ++ NUL :: m ++ [NUL], Some 0%nat, None, Some (S (length t))).
Proof.
  intros Ht Hm Hs. assert (NUL ∉ t) as Hnt.
  { revert Ht. unfold map_type. rewrite !elem_of_cons, elem_of_nil.
    intros Ht. destruct_or! Ht; subst; try done; refine (bool_decide_unpack _ _); vm_compute; exact I. }
  pose proof (cstr_at_start t m Hnt Hm) as Hc. pose proof (colon_map_run t m Hm Hs) as Hcm.
  revert Ht. unfold map_type at 1. rewrite !elem_of_cons, elem_of_nil. intros Ht.
  unfold map_type. destruct_or! Ht; try done; subst t;
    repeat first
      [ eapply types_hit; [rewrite Hc; vm_compute; reflexivity|vm_compute; reflexivity|exact Hcm]
      | rewrite types_skip by (rewrite Hc; vm_compute; reflexivity)
      | rewrite types_prefix by (rewrite ?Hc; vm_compute; reflexivity) ].
Qed.

Lemma terminate_nul t l fuel : forall pre,
  Forall (fun c => c <> NUL /\ c <> " "%char /\ c <> BACKSLASH) t -> (length t < fuel)%nat ->
  terminate fuel (pre ++ t ++ NUL :: l) (length pre) = Some (pre ++ t ++ NUL :: l).
Proof.
  revert fuel. induction t as [|c t IH]; intros fuel pre Ht Hf; (destruct fuel as [|fuel]; [simpl in Hf; lia|]);
    cbn [terminate]; rewrite lookup_app_r, Nat.sub_diag by done; simpl lookup.
  - done.
  - apply Forall_cons in Ht as [(H1 & H2 & H3) Ht]. rewrite !bool_decide_false by done.
    simpl in Hf. specialize (IH fuel (pre ++ [c]) Ht ltac:(lia)). rewrite <- app_assoc, length_app in IH. exact IH.
Qed.

(** A map specification that is a known map type, a colon and a map is taken
    apart into the type and the map. *)
Theorem parse_map_type_info_typed t m :
  t ∈ map_type -> NUL ∉ m -> head m <> Some " "%char ->
  parse_map_type_info (t ++ str ":" ++ m) = Some (Some (Info (Some t) None (Some m))).
Proof.
  intros Ht Hm Hs. unfold parse_map_type_info. change (str ":" ++ m) with (":"%char :: m).
  destruct (strchr (t ++ ":"%char :: m) ":"%char) eqn:Ec; [|apply strchr_None in Ec; set_solver].
  rewrite <- app_assoc, <- app_comm_cons, types_run by done.
  assert (Forall (fun c => c <> NUL /\ c <> " "%char /\ c <> BACKSLASH) t) as Hf.
  { revert Ht. unfold map_type. rewrite !elem_of_cons, elem_of_nil. intros Ht.
    destruct_or! Ht; subst; try done; repeat constructor; vm_compute; congruence. }
  assert (NUL ∉ t) as Hnt by (rewrite Forall_forall in Hf; intros Hin; by destruct (Hf _ Hin)).
  pose proof (terminate_nul t (m ++ [NUL]) (S (length (t ++ NUL :: m ++ [NUL]))) [] Hf) as Htn.
  simpl app in Htn. change (length (@nil ascii)) with 0%nat in Htn.
  rewrite Htn by (rewrite length_app; lia). simpl. unfold cstr_at. rewrite drop_0, before_app by done.
  replace (drop (S (length t)) (t ++ NUL :: m ++ [NUL])) with (m ++ [NUL]).
  - by rewrite before_end.
  - rewrite drop_app_ge by lia. by replace (S (length t) - length t)%nat with 1%nat by lia.
Qed.

Lemma parse_map_type_info_witness :
  parse_map_type_info (str "nisplus:auto.home") = Some (Some (Info (Some (str "nisplus")) None (Some (str "auto.home")))).
Proof.
  apply (parse_map_type_info_typed (str "nisplus") (str "auto.home")); [|..|done];
    refine (bool_decide_unpack _ _); vm_compute; exact I.
Defined.

(** A map name with a colon that only starts like a map type loses its map: the
    whole string becomes the type and there is no map; and local options are not
    cut off behind a type, as they are without one. *)
Theorem parse_map_type_info_surprises :
  parse_map_type_info (str "nisfoo:bar") = Some (Some (Info (Some (str "nisfoo:bar")) None None)) /\
  parse_map_type_info (str "/etc/x -ro") = Some (Some (Info None None (Some (str "/etc/x")))) /\
  parse_map_type_info (str "file:/etc/x -ro") = Some (Some (Info (Some (str "file")) None (Some (str "/etc/x -ro")))).
Proof. vm_compute. done. Qed.
