(* ===== verification/Selectors.v ===== *)
(** * Selectors and network proximity (lib/parse_subs.c)

    The hash table of the amd selectors, and how near a host is to the interfaces
    of this one. *)

From S2P Require Import Prelude CString Hash.

(** ** The selector table *)

Record sel := Sel { sel_id : Z; sel_name : cstring; sel_flags : Z }.

Definition SELECTOR_HASH_SIZE : Z := 20.
Definition SEL_FLAG_MACRO : Z := 0x1.
Definition SEL_FLAG_FUNC1 : Z := 0x2.
Definition SEL_FLAG_FUNC2 : Z := 0x4.
Definition SEL_FLAG_STR : Z := 0x100.
Definition SEL_FLAG_NUM : Z := 0x200.
Definition SEL_FLAG_BOOL : Z := 0x400.

Definition sel_table : list sel :=
  let ms := Z.lor SEL_FLAG_MACRO SEL_FLAG_STR in
  let mn := Z.lor SEL_FLAG_MACRO SEL_FLAG_NUM in
  let f1 := Z.lor SEL_FLAG_FUNC1 SEL_FLAG_BOOL in
  let f2 := Z.lor SEL_FLAG_FUNC2 SEL_FLAG_BOOL in
  [ Sel 0x1 (str "arch") ms; Sel 0x2 (str "karch") ms; Sel 0x4 (str "os") ms; Sel 0x8 (str "osver") ms;
    Sel 0x10 (str "full_os") ms; Sel 0x20 (str "vendor") ms; Sel 0x40 (str "host") ms;
    Sel 0x80 (str "hostd") ms; Sel 0x100 (str "xhost") f1; Sel 0x200 (str "domain") ms;
    Sel 0x400 (str "byte") ms; Sel 0x800 (str "cluster") ms; Sel 0x1000 (str "netgrp") f2;
    Sel 0x2000 (str "netgrpd") f2; Sel 0x4000 (str "in_network") f1; Sel 0x4000 (str "netnumber") f1;
    Sel 0x4000 (str "network") f1; Sel 0x4000 (str "wire") f1; Sel 0x8000 (str "uid") mn;
    Sel 0x10000 (str "gid") mn; Sel 0x20000 (str "key") ms; Sel 0x40000 (str "map") ms;
    Sel 0x80000 (str "path") ms; Sel 0x100000 (str "exists") f1; Sel 0x200000 (str "autodir") ms;
    Sel 0x400000 (str "dollar") ms; Sel 0x800000 (str "true") f1; Sel 0x1000000 (str "false") f1 ].

(** The buckets of the hash table; a new entry goes to the front. *)
Abbreviation seltab := (list (list sel)).

Definition sel_bucket (name : cstring) : nat := Z.to_nat (hash name SELECTOR_HASH_SIZE).

Definition sel_add (s : sel) (tab : seltab) : seltab := alter (cons s) (sel_bucket (sel_name s)) tab.

(** [sel_hash_init]: filled once. *)
Definition sel_hash_init (done : bool) (tab : seltab) : seltab :=
  if done then tab
  else foldl (fun tab s => sel_add s tab) (replicate (Z.to_nat SELECTOR_HASH_SIZE) []) sel_table.

Fixpoint sel_search (name : cstring) (l : list sel) : option sel :=
  match l with
  | [] => None
  | s :: l' => if streq name (sel_name s) then Some s else sel_search name l'
  end.

Definition sel_lookup (name : cstring) (tab : seltab) : option sel :=
  match tab !! sel_bucket name with
  | Some l => sel_search name l
  | None => None
  end.

(** [get_selector]: a new selector for a known name; [ok] says whether there is
    memory. *)
Definition get_selector (name : cstring) (tab : seltab) (ok : bool) : option sel :=
  match sel_lookup name tab with
  | Some s => if ok then Some s else None
  | None => None
  end.

Lemma sel_bucket_range name : (sel_bucket name < 20)%nat.
Proof.
  unfold sel_bucket. pose proof (hash_range name SELECTOR_HASH_SIZE). unfold SELECTOR_HASH_SIZE in *. lia.
Qed.

Lemma sel_search_some name l s : sel_search name l = Some s -> s ∈ l /\ sel_name s = name.
Proof.
  induction l as [|x l IH]; simpl; [done|]. destruct (streq_spec name (sel_name x)) as [->|Hne].
  - intros [= ->]. set_solver.
  - intros H%IH. set_solver.
Qed.

Lemma sel_search_unique name l s :
  NoDup (sel_name <$> l) -> s ∈ l -> sel_name s = name -> sel_search name l = Some s.
Proof.
  induction l as [|x l IH]; [set_solver|]. rewrite fmap_cons, NoDup_cons. intros [Hnot Hnd] Hin Hname. simpl.
  destruct (streq_spec name (sel_name x)) as [E|Hne].
  - apply elem_of_cons in Hin as [->|Hin]; [done|]. exfalso. apply Hnot. rewrite <- E, <- Hname.
    apply list_elem_of_fmap. eauto.
  - apply elem_of_cons in Hin as [->|Hin]; [congruence|]. by apply IH.
Qed.

(** The bucket of a name has the entries with its hash. *)
Lemma sel_fill_bucket ss : forall tab (b : nat) l,
  tab !! b = Some l ->
  exists l', foldl (fun tab s => sel_add s tab) tab ss !! b = Some l' /\
    forall s, s ∈ l' <-> s ∈ l \/ (s ∈ ss /\ sel_bucket (sel_name s) = b).
Proof.
  induction ss as [|x ss IH]; intros tab b l Hl; simpl; [exists l; split; [done|set_solver]|].
  unfold sel_add at 2. destruct (decide (sel_bucket (sel_name x) = b)) as [Hb|Hb].
  - destruct (IH (alter (cons x) (sel_bucket (sel_name x)) tab) b (x :: l)) as (l' & Hl' & Hin).
    { by rewrite Hb, list_lookup_alter_eq, Hl. }
    exists l'. split; [done|]. intros s. rewrite Hin, !elem_of_cons. naive_solver.
  - destruct (IH (alter (cons x) (sel_bucket (sel_name x)) tab) b l) as (l' & Hl' & Hin).
    { by rewrite list_lookup_alter_ne. }
    exists l'. split; [done|]. intros s. rewrite Hin, elem_of_cons. naive_solver.
Qed.

Lemma sel_names_NoDup : NoDup (sel_name <$> sel_table).
Proof. refine (bool_decide_unpack _ _). vm_compute. exact I. Qed.

(** After [sel_hash_init] the lookup of a name returns exactly the entry of the
    selector table with this name, and nothing for any other name. *)
Theorem sel_lookup_correct name s tab :
  sel_lookup name (sel_hash_init false tab) = Some s <-> s ∈ sel_table /\ sel_name s = name.
Proof.
  unfold sel_lookup, sel_hash_init.
  destruct (sel_fill_bucket sel_table (replicate (Z.to_nat SELECTOR_HASH_SIZE) []) (sel_bucket name) [])
    as (l & -> & Hin).
  { apply lookup_replicate_2. apply sel_bucket_range. }
  split.
  - intros [Hs Hn]%sel_search_some. apply Hin in Hs as [?%not_elem_of_nil|[Hs _]]; done.
  - intros [Hs Hn]. assert (s ∈ l) as Hsl by (apply Hin; right; split; [done|by rewrite Hn]).
    destruct (sel_search name l) as [s'|] eqn:E.
    + apply sel_search_some in E as [Hs' Hn']. apply Hin in Hs' as [?%not_elem_of_nil|[Hs' _]]; [done|]. f_equal.
      pose proof (sel_search_unique name sel_table s sel_names_NoDup Hs Hn) as H1.
      pose proof (sel_search_unique name sel_table s' sel_names_NoDup Hs' Hn') as H2. congruence.
    + exfalso. clear -E Hsl Hn. induction l as [|x l IH]; [set_solver|]. simpl in E.
      destruct (streq_spec name (sel_name x)) as [|Hne]; [done|].
      apply elem_of_cons in Hsl as [->|Hsl]; [congruence|auto].
Qed.

(** ** Addresses *)

(** An address as it is stored: the [s_addr] of an IPv4 address, or the four words
    of an IPv6 address, in network byte order. *)
Inductive sockaddr := V4 (s_addr : Z) | V6 (words : list Z) | OtherFamily.

(** [ntohl] on a little-endian machine. *)
Definition ntohl (x : Z) : Z :=
  Z.lor (Z.shiftl (Z.land x 0xff) 24)
    (Z.lor (Z.shiftl (Z.land (Z.shiftr x 8) 0xff) 16)
       (Z.lor (Z.shiftl (Z.land (Z.shiftr x 16) 0xff) 8) (Z.land (Z.shiftr x 24) 0xff))).

Definition INADDR_LOOPBACK : Z := 0x7f000001.
Definition MASK_A : Z := 0x7F000000.
Definition MASK_B : Z := 0xBFFF0000.
Definition MASK_C : Z := 0xDFFFFF00.

(** [getbits(x, p, 1)]. *)
Definition getbit (x p : Z) : Z := Z.land (Z.shiftr x p) 1.

Definition PROXIMITY_ERROR : Z := 0.
Definition PROXIMITY_LOCAL : Z := 1.
Definition PROXIMITY_SUBNET : Z := 2.
Definition PROXIMITY_NET : Z := 4.
Definition PROXIMITY_OTHER : Z := 8.
Definition PROXIMITY_UNSUPPORTED : Z := 16.

Definition word (l : list Z) (i : nat) : Z := default 0 (l !! i).

Definition is_linklocal (w : list Z) : bool :=
  Z.land (word w 0) (ntohl 0xffc00000) =? ntohl 0xfe800000.
Definition is_loopback (w : list Z) : bool :=
  (word w 0 =? 0) && (word w 1 =? 0) && (word w 2 =? 0) && (word w 3 =? ntohl 1).

Definition ipv6_mask_cmp (host iface mask : list Z) : bool :=
  forallb (fun i => Z.land (word host i) (word mask i) =? Z.land (word iface i) (word mask i))
    [0; 1; 2; 3]%nat.

(** An interface address as [getifaddrs] reports it. *)
Record ifaddr := Ifa { ifa_up : bool; ifa_ptp : bool; ifa_addr : option sockaddr; ifa_netmask : sockaddr }.

(** The addresses that the loops look at. *)
Definition usable (i : ifaddr) : option sockaddr :=
  if negb (ifa_up i) || ifa_ptp i then None else ifa_addr i.

Section Proximity.
(** Whether the daemon is built with libtirpc, and so with IPv6. *)
Context (libtirpc : bool).

(** The first loop: [None] when the address is one of this host, else whether
    there is an address to compare with. *)
Fixpoint local_loop (host : sockaddr) (ifs : list ifaddr) (at_least_one : bool) : option bool :=
  match ifs with
  | [] => Some at_least_one
  | i :: ifs' =>
      match usable i, host with
      | Some (V4 a), V4 h =>
          if a =? h then None
          else local_loop host ifs' (at_least_one || negb (h =? INADDR_LOOPBACK))
      | Some (V6 a), V6 h =>
          if libtirpc then
            if bool_decide (a = h) then None
            else local_loop host ifs' (at_least_one || (negb (is_linklocal a) && negb (is_loopback a)))
          else local_loop host ifs' at_least_one
      | _, _ => local_loop host ifs' at_least_one
      end
  end.

(** The address class of an interface: its mask. *)
Definition class_mask (ia : Z) : option Z :=
  if getbit ia 31 =? 0 then Some MASK_A
  else if getbit ia 30 =? 0 then Some MASK_B
  else if getbit ia 29 =? 0 then Some MASK_C
  else None.

(** The second loop. *)
Fixpoint net_loop (host : sockaddr) (ifs : list ifaddr) : Z :=
  match ifs with
  | [] => PROXIMITY_OTHER
  | i :: ifs' =>
      match usable i, host with
      | Some (V4 a), V4 h =>
          let ia := ntohl a in
          let ha := ntohl h in
          let mask := match ifa_netmask i with V4 m => ntohl m | _ => 0 end in
          if Z.land ia mask =? Z.land ha mask then PROXIMITY_SUBNET
          else
            match class_mask ia with
            | None => net_loop host ifs'
            | Some mask => if Z.land ia mask =? Z.land ha mask then PROXIMITY_NET else net_loop host ifs'
            end
      | Some (V6 a), V6 h =>
          if libtirpc && negb (is_linklocal a) &&
             ipv6_mask_cmp h a (match ifa_netmask i with V6 m => m | _ => [] end)
          then PROXIMITY_SUBNET
          else net_loop host ifs'
      | _, _ => net_loop host ifs'
      end
  end.

(** [get_proximity]; [ifs] is the answer of [getifaddrs]. *)
Definition get_proximity (host : sockaddr) (ifs : option (list ifaddr)) : Z :=
  let go :=
    match ifs with
    | None => PROXIMITY_ERROR
    | Some ifs =>
        match local_loop host ifs false with
        | None => PROXIMITY_LOCAL
        | Some false => PROXIMITY_UNSUPPORTED
        | Some true => net_loop host ifs
        end
    end in
  match host with
  | V4 _ => go
  | V6 w => if negb libtirpc then PROXIMITY_UNSUPPORTED
            else if is_linklocal w then PROXIMITY_UNSUPPORTED else go
  | OtherFamily => PROXIMITY_ERROR
  end.

(** ** Networks *)

Definition INET_ADDRSTRLEN : Z := 16.
Definition NI_MAXHOST : Z := 1025.

(** The loop of [inet_fill_net] from the position of [np] on: the number of dots
    left, and whether a 0 was appended. *)
Fixpoint fill_loop (fuel : nat) (np : cstring) (dots : Z) (added : bool) : option (Z * bool) :=
  match np with
  | [] => Some (dots, added)
  | _ :: np =>
      match fuel with
      | O => None
      | S fuel' =>
          if hd_char np =a "." then
            let np := tail np in
            let dots := dots - 1 in
            if bool_decide (np = []) && negb (dots =? 0) then fill_loop fuel' (str "0") dots true
            else fill_loop fuel' np dots added
          else if (negb (bool_decide (np = [])) && negb (isdigit (hd_char np))) || (dots <? 0) then None
          else fill_loop fuel' np dots added
      end
  end.

Definition inet_fill_net (net_num : cstring) : option cstring :=
  if INET_ADDRSTRLEN <? strlen net_num then None
  else if negb (isdigit (hd_char net_num)) then None
  else
    match fill_loop (S (S (length net_num))) net_num 3 false with
    | None => None
    | Some (dots, added) =>
        Some (net_num ++ (if added then str "0" else []) ++ concat (replicate (Z.to_nat dots) (str ".0")))
    end.

(** [get_network_proximity]: [get_network_number] and [getaddrinfo] are the
    answers of the network database and of the resolver. *)
Definition get_network_proximity (get_network_number : cstring -> option cstring)
    (getaddrinfo : cstring -> option (list sockaddr)) (ifs : option (list ifaddr))
    (name : option cstring) : Z :=
  match name with
  | None => PROXIMITY_ERROR
  | Some name =>
      let name_or_num :=
        match get_network_number name with
        | Some net => Some net
        | None =>
            if NI_MAXHOST <? strlen name then None
            else
              let this := before name "/"%char in
              match strchr this "."%char with
              | None => Some this
              | Some _ => inet_fill_net this
              end
        end in
      match name_or_num with
      | None => PROXIMITY_ERROR
      | Some n =>
          match getaddrinfo n with
          | None => PROXIMITY_ERROR
          | Some addrs =>
              foldl (fun p a => let prx := get_proximity a ifs in if prx <? p then prx else p) PROXIMITY_OTHER addrs
          end
      end
  end.

Definition in_network (get_network_number : cstring -> option cstring)
    (getaddrinfo : cstring -> option (list sockaddr)) (ifs : option (list ifaddr)) (network : cstring) : bool :=
  let p := get_network_proximity get_network_number getaddrinfo ifs (Some network) in
  negb ((p =? PROXIMITY_ERROR) || (PROXIMITY_SUBNET <? p)).

End Proximity.

(** ** Properties of proximity *)

Lemma local_loop_v4 lt h ifs : forall b,
  local_loop lt (V4 h) ifs b = None <-> exists i, i ∈ ifs /\ usable i = Some (V4 h).
Proof.
  induction ifs as [|i ifs IH]; intros b; simpl.
  { split; [done|]. intros (i & Hi & _). by apply not_elem_of_nil in Hi. }
  destruct (usable i) as [[a|w|]|] eqn:E; try (rewrite IH; split;
    [intros (j & Hj & Hu); exists j; set_solver|intros (j & [->|Hj]%elem_of_cons & Hu); [congruence|eauto]]).
  destruct (a =? h) eqn:Ea; boolify; subst.
  - split; [|done]. intros _. exists i. set_solver.
  - rewrite IH. split; [intros (j & Hj & Hu); exists j; set_solver|].
    intros (j & [->|Hj]%elem_of_cons & Hu); [congruence|eauto].
Qed.

(** The host is in the network of the interface. *)
Definition same_subnet (h : Z) (i : ifaddr) : Prop :=
  exists a m, usable i = Some (V4 a) /\ ifa_netmask i = V4 m /\
    Z.land (ntohl a) (ntohl m) = Z.land (ntohl h) (ntohl m).

Lemma net_loop_subnet lt h ifs :
  Forall (fun i => forall a, usable i = Some (V4 a) -> exists m, ifa_netmask i = V4 m) ifs ->
  net_loop lt (V4 h) ifs = PROXIMITY_SUBNET -> exists i, i ∈ ifs /\ same_subnet h i.
Proof.
  intros Hm. induction Hm as [|i ifs Hi Hm IH]; [done|]. cbn [net_loop].
  destruct (usable i) as [[a|w|]|] eqn:E;
    try (intros (j & Hj & Hs)%IH; exists j; set_solver).
  destruct (Hi a eq_refl) as [m Em]. rewrite Em. destruct (_ =? _) eqn:Ea; boolify.
  - intros _. exists i. split; [by left|]. exists a, m. done.
  - destruct (class_mask _) as [c|]; [destruct (_ =? _); [done|]|];
      (intros (j & Hj & Hs)%IH; exists j; set_solver).
Qed.

Lemma net_loop_not_local lt host ifs : net_loop lt host ifs <> PROXIMITY_LOCAL.
Proof. induction ifs as [|i ifs IH]; cbn [net_loop]; [done|]. repeat case_match; done. Qed.

(** An IPv4 address is local exactly when an interface that is up and not
    point-to-point has it, and it is reported in a subnet of this host only when
    it is in the network of such an interface. *)
Theorem get_proximity_v4 lt h ifs :
  Forall (fun i => forall a, usable i = Some (V4 a) -> exists m, ifa_netmask i = V4 m) ifs ->
  (get_proximity lt (V4 h) (Some ifs) = PROXIMITY_LOCAL <-> exists i, i ∈ ifs /\ usable i = Some (V4 h)) /\
  (get_proximity lt (V4 h) (Some ifs) = PROXIMITY_SUBNET -> exists i, i ∈ ifs /\ same_subnet h i).
Proof.
  intros Hm. unfold get_proximity. rewrite <- (local_loop_v4 lt h ifs false).
  pose proof (net_loop_not_local lt (V4 h) ifs).
  destruct (local_loop lt (V4 h) ifs false) as [[|]|]; (split; [split|]); intros Hr;
    try discriminate; try congruence; try reflexivity. by apply (net_loop_subnet lt).
Qed.

Definition ip (a b c d : Z) : Z := a + 256 * (b + 256 * (c + 256 * d)).
Definition eth (addr mask : Z) : ifaddr := Ifa true false (Some (V4 addr)) (V4 mask).

Lemma get_proximity_v4_witness :
  exists i, i ∈ [eth (ip 192 168 1 1) (ip 255 255 255 0)] /\ same_subnet (ip 192 168 1 9) i.
Proof.
  destruct (get_proximity_v4 true (ip 192 168 1 9) [eth (ip 192 168 1 1) (ip 255 255 255 0)]) as [_ H].
  - repeat constructor. intros a _. by eexists.
  - apply H. vm_compute. reflexivity.
Defined.

(** The result depends on the order of the interfaces: a host in the subnet of
    the second interface is only reported in the same network when the first has
    an address of the same class A network; and hosts of different networks are
    reported in the same one, since the masks of the classes leave out the bit
    that tells the classes apart. *)
Theorem get_proximity_surprises :
  get_proximity true (V4 (ip 10 2 0 5))
    (Some [eth (ip 10 1 0 1) (ip 255 255 0 0); eth (ip 10 2 0 1) (ip 255 255 0 0)]) = PROXIMITY_NET /\
  get_proximity true (V4 (ip 10 2 0 5))
    (Some [eth (ip 10 2 0 1) (ip 255 255 0 0); eth (ip 10 1 0 1) (ip 255 255 0 0)]) = PROXIMITY_SUBNET /\
  get_proximity true (V4 (ip 138 0 0 5)) (Some [eth (ip 10 1 0 1) (ip 255 255 0 0)]) = PROXIMITY_NET.
Proof. vm_compute. done. Qed.

(** ** Properties of network numbers *)

(** The loop that appends the missing parts never starts below zero. *)
Lemma fill_loop_dots fuel : forall np dots added d a,
  fill_loop fuel np dots added = Some (d, a) -> (np <> [] \/ 0 <= dots) -> 0 <= d.
Proof.
  induction fuel as [|fuel IH]; intros [|c np] dots added d a; simpl; try done.
  1,2: intros [= <- <-] [?|?]; done.
  intros H _. revert H. destruct (hd_char np =a ".").
  - case_bool_decide as E; simpl.
    + destruct (dots - 1 =? 0) eqn:E0; simpl; intros H; (eapply IH; [exact H|]); [right|by left].
      boolify. lia.
    + intros H. eapply IH; [exact H|]. left. by destruct np as [|? [|]].
  - destruct (_ || (dots <? 0)) eqn:E; [done|]. intros H. eapply IH; [exact H|].
    right. boolify. lia.
Qed.

(** A part of an address. *)
Definition group (g : cstring) : Prop := g <> [] /\ Forall (fun c => isdigit c = true) g.

Fixpoint dotted (gs : list cstring) : cstring :=
  match gs with
  | [] => []
  | [g] => g
  | g :: gs' => g ++ "."%char :: dotted gs'
  end.

Lemma isdigit_dot c : isdigit c = true -> c <> "."%char.
Proof. intros H ->. done. Qed.

(** The loop over the digits of a part. *)
Lemma fill_loop_digits g : forall fuel c rest dots added,
  Forall (fun c => isdigit c = true) g -> 0 <= dots -> (length g <= fuel)%nat ->
  fill_loop fuel (c :: g ++ rest) dots added = fill_loop (fuel - length g) (default c (last g) :: rest) dots added.
Proof.
  induction g as [|d g IH]; intros fuel c rest dots added Hg Hd Hf; [by rewrite Nat.sub_0_r|].
  apply Forall_cons in Hg as [Hdig Hg]. destruct fuel as [|fuel]; [simpl in Hf; lia|]. simpl in Hf.
  rewrite last_cons_default. simpl length. rewrite Nat.sub_succ. rewrite <- (IH fuel d rest dots added Hg Hd) by lia.
  cbn [fill_loop app]. change (hd_char (d :: g ++ rest)) with d.
  rewrite (bool_decide_false (d = "."%char)) by (by apply isdigit_dot). rewrite Hdig.
  destruct (dots <? 0) eqn:E; [boolify; lia|]. rewrite andb_false_r. done.
Qed.

Lemma fill_loop_groups gs : forall fuel c,
  Forall group gs -> gs <> [] -> Z.of_nat (length gs) <= 4 -> (length (dotted gs) < fuel)%nat ->
  fill_loop fuel (dotted gs) (4 - Z.of_nat c - Z.of_nat (length gs) + (Z.of_nat (length gs) - 1)) false
  = Some (4 - Z.of_nat c - Z.of_nat (length gs), false) \/ (4 < c + length gs)%nat.
Proof.
  induction gs as [|g gs IH]; intros fuel c Hgs Hne H4 Hf; [done|].
  destruct (decide (4 < c + length (g :: gs))%nat); [by right|left].
  apply Forall_cons in Hgs as [[Hg0 Hg] Hgs]. destruct g as [|x g]; [done|].
  apply Forall_cons in Hg as [Hx Hg]. simpl length in *.
  destruct gs as [|g2 gs].
  - simpl dotted in *. rewrite <- (app_nil_r g). rewrite fill_loop_digits by (first [done | simpl in *; lia]).
    destruct (fuel - length g)%nat as [|k] eqn:Ek; [simpl in *; lia|]. cbn [fill_loop]. unfold hd_char. cbn [head default].
    rewrite (bool_decide_false (NUL = "."%char)), bool_decide_true by done. simpl negb. cbn [andb orb].
    simpl length in *. destruct (_ <? 0) eqn:E; [boolify; lia|].
    destruct k; cbn [fill_loop]; do 2 f_equal; lia.
  - change (dotted ((x :: g) :: g2 :: gs)) with (x :: g ++ "."%char :: dotted (g2 :: gs)) in *.
    cbn [length] in Hf. rewrite length_app in Hf. cbn [length] in Hf.
    rewrite fill_loop_digits by (first [done | cbn [length] in *; lia]).
    destruct (fuel - length g)%nat as [|k] eqn:Ek; [lia|]. cbn [fill_loop]. unfold hd_char. cbn [head default tail].
    rewrite (bool_decide_true ("."%char = "."%char)) by done.
    assert (dotted (g2 :: gs) <> []) as Hd.
    { apply Forall_cons in Hgs as [[Hg2 _] _]. simpl. destruct gs; [done|]. by destruct g2. }
    rewrite bool_decide_false by done. cbn [andb].
    destruct (IH k (S c) Hgs ltac:(done) ltac:(cbn [length] in *; lia) ltac:(lia)) as [Hrun|?]; [|cbn [length] in *; lia].
    etransitivity; [|etransitivity; [exact Hrun|do 2 f_equal; cbn [length]; lia]]. f_equal. cbn [length]; lia.
Qed.

(** [inet_fill_net] fills up a network number of one to four parts to four
    parts with zeros. *)
Theorem inet_fill_net_spec gs :
  Forall group gs -> gs <> [] -> (length gs <= 4)%nat -> strlen (dotted gs) <= INET_ADDRSTRLEN ->
  inet_fill_net (dotted gs) = Some (dotted gs ++ concat (replicate (4 - length gs) (str ".0"))).
Proof.
  intros Hg Hne H4 Hl. unfold inet_fill_net. destruct (INET_ADDRSTRLEN <? _) eqn:E; [boolify; lia|].
  assert (isdigit (hd_char (dotted gs)) = true) as ->.
  { destruct gs as [|g gs]; [done|]. apply Forall_cons in Hg as [[Hg0 Hg] _]. destruct g as [|x g]; [done|].
    apply Forall_cons in Hg as [Hx _]. by destruct gs. }
  simpl negb. cbv iota.
  destruct (fill_loop_groups gs (S (S (length (dotted gs)))) 0 Hg Hne ltac:(lia) ltac:(lia)) as [Hrun|?]; [|lia].
  replace (4 - Z.of_nat 0 - Z.of_nat (length gs) + (Z.of_nat (length gs) - 1)) with 3 in Hrun by lia.
  rewrite Hrun. simpl app. do 4 f_equal. lia.
Qed.

Lemma inet_fill_net_witness : inet_fill_net (str "10.1") = Some (str "10.1.0.0").
Proof.
  apply (inet_fill_net_spec [str "10"; str "1"]); [by repeat constructor|done|simpl; lia|vm_compute; congruence].
Defined.

(** A dot behind the third part is not filled up. *)
Theorem inet_fill_net_trailing_dot :
  inet_fill_net (str "10.1.") = Some (str "10.1.0.0") /\ inet_fill_net (str "10.1.2.") = Some (str "10.1.2.").
Proof. done. Qed.
