(* ===== verification/Replicated.v ===== *)
(** * Replicated servers (modules/replicated.c)

    A mount of a replicated file system has a list of hosts, ordered by proximity
    and by the cost of reaching them. [prune_host_list] asks the hosts over RPC
    which versions of NFS they support, chooses a version, and leaves the hosts
    that support it. The hosts are objects of a store linked by [h_next]; the
    answers of the network are a list in the state, one for each RPC call to come,
    so that a theorem for every such list covers every behaviour of the network.
    The calls of lib/rpc_subs.c are modelled down to the creation of an RPC client
    and the RPC call itself, which are answers of the network. *)

From S2P Require Import Prelude CString Memory Selectors.
From Stdlib Require Import QArith Qround.
Open Scope Z_scope.

(** ** Data *)

Definition NFS2_SUPPORTED : Z := 0x10.
Definition NFS3_SUPPORTED : Z := 0x20.
Definition NFS4_SUPPORTED : Z := 0x40.
Definition NFS_VERS_MASK : Z := Z.lor NFS2_SUPPORTED NFS3_SUPPORTED.
Definition NFS4_VERS_MASK : Z := NFS4_SUPPORTED.
Definition NFS2_REQUESTED : Z := NFS2_SUPPORTED.
Definition NFS3_REQUESTED : Z := NFS3_SUPPORTED.
Definition NFS4_REQUESTED : Z := NFS4_SUPPORTED.
Definition NFS4_ONLY_REQUESTED : Z := 0x800.
Definition TCP_REQUESTED : Z := 0x1.
Definition UDP_REQUESTED : Z := 0x2.
Definition TCP6_REQUESTED : Z := 0x100.
Definition UDP6_REQUESTED : Z := 0x200.
Definition NFS2_TCP_SUPPORTED : Z := NFS2_SUPPORTED.
Definition NFS3_TCP_SUPPORTED : Z := NFS3_SUPPORTED.
Definition NFS4_TCP_SUPPORTED : Z := NFS4_SUPPORTED.
Definition NFS2_UDP_SUPPORTED : Z := Z.shiftl NFS2_SUPPORTED 8.
Definition NFS3_UDP_SUPPORTED : Z := Z.shiftl NFS3_SUPPORTED 8.
Definition NFS4_UDP_SUPPORTED : Z := Z.shiftl NFS4_SUPPORTED 8.
Definition UDP_SELECTED_MASK : Z := 0xFF00.

Definition MOUNT_FLAG_RANDOM_SELECT : Z := 0x4.
Definition MOUNT_FLAG_USE_WEIGHT_ONLY : Z := 0x10.

Definition EIO : Z := 5.
Definition ETIMEDOUT : Z := 110.
Definition EHOSTUNREACH : Z := 113.
Definition IPPROTO_TCP : Z := 6.
Definition IPPROTO_UDP : Z := 17.
Definition NFS_PORT : Z := 2049.
Definition INET6_ADDRSTRLEN : Z := 46.

(** [flags & mask] as a condition. *)
Definition flag (x mask : Z) : bool := negb (Z.land x mask =? 0).

(** [IS_ERR] and [ERR] on [unsigned int]. *)
Definition IS_ERR (supported : Z) : bool := flag 0x8000 supported.
Definition ERR (supported : Z) : Z := if IS_ERR supported then u32 (- supported) else supported.

(** [struct host]; [~supported + 1] above is [- supported] modulo 2 ^ 32. *)
Record host := Host {
  h_name : option cstring;
  h_ent_num : Z;
  h_addr : option sockaddr;
  h_addr_len : Z;
  h_rr : Z;
  h_path : option cstring;
  h_version : Z;
  h_options : Z;
  h_proximity : Z;
  h_weight : Z;
  h_cost : Z;
  h_next : ptr
}.

Definition set_h_next (n : ptr) (h : host) : host :=
  Host (h_name h) (h_ent_num h) (h_addr h) (h_addr_len h) (h_rr h) (h_path h) (h_version h)
    (h_options h) (h_proximity h) (h_weight h) (h_cost h) n.
Definition set_h_version (v : Z) (h : host) : host :=
  Host (h_name h) (h_ent_num h) (h_addr h) (h_addr_len h) (h_rr h) (h_path h) v
    (h_options h) (h_proximity h) (h_weight h) (h_cost h) (h_next h).
Definition set_h_cost (c : Z) (h : host) : host :=
  Host (h_name h) (h_ent_num h) (h_addr h) (h_addr_len h) (h_rr h) (h_path h) (h_version h)
    (h_options h) (h_proximity h) (h_weight h) c (h_next h).
Definition set_h_rr (r : Z) (h : host) : host :=
  Host (h_name h) (h_ent_num h) (h_addr h) (h_addr_len h) r (h_path h) (h_version h)
    (h_options h) (h_proximity h) (h_weight h) (h_cost h) (h_next h).
Definition set_h_path (p : option cstring) (h : host) : host :=
  Host (h_name h) (h_ent_num h) (h_addr h) (h_addr_len h) (h_rr h) p (h_version h)
    (h_options h) (h_proximity h) (h_weight h) (h_cost h) (h_next h).

#[export] Instance host_node : Node host.
Proof.
  refine {| link := h_next; set_link := set_h_next |}; [done|by intros []|done].
Defined.

(** An answer of the network: what [create_client] returns, the status of the RPC
    call, the port in the reply, and the time it took; and a random number. *)
Inductive clnt_stat := RPC_SUCCESS | RPC_TIMEDOUT | RPC_OTHER.

Record answer := Answer {
  an_create : Z;
  an_stat : clnt_stat;
  an_port : Z;
  an_time : Q;
  an_random : Q
}.

Record rstate := RS { rs_hosts : gmap positive host; rs_net : list answer }.

#[export] Instance rstate_heap : HasHeap rstate host.
Proof.
  by refine {| heap := rs_hosts; put_heap := fun h s => RS h (rs_net s) |}.
Defined.

Abbreviation RM := (M rstate).

Definition ask : RM answer := fun s m =>
  match rs_net s with
  | [] => Some (Answer 0 RPC_SUCCESS 0 0 0, s, m)
  | a :: net => Some (a, RS (rs_hosts s) net, m)
  end.

(** ** Lists of hosts *)

Definition new_host (name : option cstring) (ent_num : Z) (addr : option sockaddr)
    (addr_len proximity weight options : Z) : RM ptr :=
  match name, addr with
  | Some name, Some addr =>
      ok ← malloc;
      if negb ok then mret None else
      ok ← malloc;
      if negb ok then mret None else
      ok ← malloc;
      if negb ok then mret None else
      a ← new_obj (Host (Some name) ent_num (Some addr) addr_len 0 None 0 options proximity
                     weight 0 None);
      mret (Some a)
  | _, _ => mret None
  end.

(** The result is the new value of [*list]. *)
Definition add_host (list : ptr) (host : positive) : RM ptr :=
  match list with
  | None => mret (Some host)
  | Some _ =>
      h ← load host;
      fuel ← heap_fuel;
      '(last, this) ← seek fuel (fun _ t => h_proximity h <=? h_proximity t) list list;
      '(last, this) ←
        (if negb (h_cost h =? 0) then
           seek fuel (fun _ t => negb (h_proximity t =? h_proximity h) || (h_cost h <=? h_cost t))
             last this
         else mret (last, this));
      if bool_decide (last = this) then
        update host (set_h_next last);; mret (Some host)
      else
        match last with
        | None => stuck
        | Some last =>
            update last (set_h_next (Some host));; update host (set_h_next this);; mret list
        end
  end.

Definition free_host (host : positive) : RM unit := free_obj host.

Definition remove_host (hosts : ptr) (host : positive) : RM ptr :=
  if bool_decide (hosts = Some host) then
    h ← load host;
    update host (set_h_next None);; mret (h_next h)
  else
    fuel ← heap_fuel;
    '(last, this) ← seek fuel (fun a _ => bool_decide (a = host)) None hosts;
    match last, this with
    | Some last, Some this =>
        t ← load this;
        update last (set_h_next (h_next t));; update host (set_h_next None);; mret hosts
    | _, _ => mret hosts
    end.

Definition delete_host (hosts : ptr) (host : positive) : RM ptr :=
  hosts ← remove_host hosts host; free_host host;; mret hosts.

Fixpoint free_host_loop (fuel : nat) (this : ptr) : RM unit :=
  match this with
  | None => mret ()
  | Some a =>
      h ← load a; free_host a;;
      match fuel with
      | O => stuck
      | S fuel => free_host_loop fuel (h_next h)
      end
  end.

Definition free_host_list (list : ptr) : RM ptr :=
  fuel ← heap_fuel; free_host_loop fuel list;; mret None.

(** ** RPC (lib/rpc_subs.c)

    Of [struct conn_info]: the protocol, the port, and whether there is a client. *)

Record conn_info := CI { ci_proto : Z; ci_port : Z; ci_client : bool }.

Definition set_client (b : bool) (i : conn_info) : conn_info := CI (ci_proto i) (ci_port i) b.
Definition set_port (p : Z) (i : conn_info) : conn_info := CI (ci_proto i) p (ci_client i).
Definition set_proto (p : Z) (i : conn_info) : conn_info := CI p (ci_port i) (ci_client i).

(** [create_client] destroys the client there is; it returns a new one or an error. *)
Definition create_client (info : conn_info) : RM (conn_info * Z) :=
  a ← ask;
  if an_create a <? 0 then mret (set_client false info, an_create a)
  else mret (set_client true info, 0).

Definition rpc_udp_getclient (info : conn_info) : RM (conn_info * Z) :=
  create_client (if ci_client info then info else set_proto IPPROTO_UDP info).

Definition rpc_tcp_getclient (info : conn_info) : RM (conn_info * Z) :=
  create_client (if ci_client info then info else set_proto IPPROTO_TCP info).

Definition rpc_destroy_client (info : conn_info) : conn_info := set_client false info.

(** The port is that of the port mapper, from the database of services. *)
Definition rpc_portmap_getclient (proto : Z) (info : conn_info) : RM (conn_info * Z) :=
  a ← ask; create_client (CI proto (an_port a) false).

Definition clnt_status (st : clnt_stat) (ok : Z) : Z :=
  match st with
  | RPC_SUCCESS => ok
  | RPC_TIMEDOUT => - ETIMEDOUT
  | RPC_OTHER => - EIO
  end.

(** The status and, when it is 0, the port. *)
Definition rpc_portmap_getport (info : conn_info) : RM (Z * Z) :=
  a ← ask;
  if negb (ci_client info) && (an_create a <? 0) then mret (an_create a, 0)
  else mret (clnt_status (an_stat a) 0, an_port a).

(** The status and the time between the two readings of the clock, or the random
    number, that the caller uses. *)
Definition rpc_ping_proto (random_selection : bool) (info : conn_info) : RM (Z * Q) :=
  a ← ask;
  let reply := if random_selection then an_random a else an_time a in
  if negb (ci_client info) && (an_create a <? 0) then mret (an_create a, reply)
  else mret (clnt_status (an_stat a) 1, reply).

(** ** Probing a host *)

Definition get_portmap_client (pm_info : conn_info) (proto : Z) : RM (conn_info * Z) :=
  rpc_portmap_getclient proto pm_info.

(** The status and the new value of [*port]. *)
Definition get_portmap_port (pm_info : conn_info) (port : Z) : RM (Z * Z) :=
  '(status, nfs_port) ← rpc_portmap_getport pm_info;
  mret (status, if status =? 0 then nfs_port else port).

(** The variables of [get_nfs_info]. *)
Record probe := Probe {
  pb_pm : conn_info;
  pb_rpc : conn_info;
  pb_supported : Z;
  pb_taken : Q;
  pb_count : Z
}.

Definition set_pm (i : conn_info) (pb : probe) : probe :=
  Probe i (pb_rpc pb) (pb_supported pb) (pb_taken pb) (pb_count pb).
Definition set_rpc (i : conn_info) (pb : probe) : probe :=
  Probe (pb_pm pb) i (pb_supported pb) (pb_taken pb) (pb_count pb).
Definition set_supported (v : Z) (pb : probe) : probe :=
  Probe (pb_pm pb) (pb_rpc pb) v (pb_taken pb) (pb_count pb).

(** Where the code goes on: the next version, or the label [done_ver]. *)
Inductive goto := Next (pb : probe) | DoneVer (pb : probe).

(** An RPC client for the version, and a ping: the second half of each of the three
    blocks of [get_nfs_info]. [sup] is the assignment to [supported]. *)
Definition ping_version (random_selection : bool) (sup : Z -> Z) (pb : probe) : RM goto :=
  '(rpc, status) ← (if ci_proto (pb_rpc pb) =? IPPROTO_UDP then rpc_udp_getclient (pb_rpc pb)
                    else rpc_tcp_getclient (pb_rpc pb));
  let pb := set_rpc rpc pb in
  if status =? - EHOSTUNREACH then mret (DoneVer (set_supported (u32 status) pb))
  else if status =? 0 then
    '(status, reply) ← rpc_ping_proto random_selection rpc;
    if status =? - ETIMEDOUT then mret (DoneVer (set_supported (u32 status) pb))
    else if 0 <? status then
      mret (Next (Probe (pb_pm pb) (pb_rpc pb) (sup (pb_supported pb))
                    (pb_taken pb + reply)%Q (pb_count pb + 1)))
    else mret (Next pb)
  else mret (Next pb).

(** [if (status == ...) supported = status;]. *)
Definition status_error (timeout : bool) (status : Z) (pb : probe) : probe :=
  if (status =? - EHOSTUNREACH) || (timeout && (status =? - ETIMEDOUT))
  then set_supported (u32 status) pb else pb.

(** The block before the label [v3_ver]; [port = 0] asks the port mapper. *)
Definition v4_block (random_selection : bool) (proto version port : Z) (pb : probe) : RM goto :=
  let ping pb :=
    r ← ping_version random_selection (fun _ => NFS4_SUPPORTED) pb;
    match r with
    | DoneVer pb => mret (DoneVer pb)
    | Next pb => mret (if negb (flag version NFS_VERS_MASK) then DoneVer pb else Next pb)
    end in
  if negb (flag version NFS4_REQUESTED) then mret (Next pb)
  else if port =? 0 then
    '(pm, status) ← get_portmap_client (pb_pm pb) proto;
    let pb := set_pm pm pb in
    if negb (status =? 0) then mret (DoneVer (status_error false status pb))
    else
      '(status, p) ← get_portmap_port (pb_pm pb) (ci_port (pb_rpc pb));
      let pb := set_rpc (set_port p (pb_rpc pb)) pb in
      if negb (status =? 0) then
        let pb := status_error true status pb in
        mret (if (status <? 0) && flag version NFS_VERS_MASK then Next pb else DoneVer pb)
      else ping pb
  else ping pb.

(** The blocks [v3_ver] and [v2_ver]. *)
Definition vers_block (random_selection : bool) (bit proto version port : Z) (pb : probe) : RM goto :=
  let ping := ping_version random_selection (fun s => Z.lor s bit) in
  if negb (flag version bit) then mret (Next pb)
  else if port =? 0 then
    '(pm, status) ← (if negb (ci_client (pb_pm pb)) then get_portmap_client (pb_pm pb) proto
                     else mret (pb_pm pb, 0));
    let pb := set_pm pm pb in
    if negb (status =? 0) then mret (DoneVer (status_error false status pb))
    else
      '(status, p) ← get_portmap_port (pb_pm pb) (ci_port (pb_rpc pb));
      let pb := set_rpc (set_port p (pb_rpc pb)) pb in
      if negb (status =? 0) then mret (DoneVer (status_error true status pb))
      else ping pb
  else ping pb.

(** [(unsigned long) (taken * 1000000 / count)], or 1, with the bias of the weight;
    times are exact. *)
Definition host_cost (h : host) (taken : Q) (count : Z) : Z :=
  let cost := if flag (h_options h) MOUNT_FLAG_USE_WEIGHT_ONLY then 1
              else u64 (Qfloor (taken * inject_Z 1000000 / inject_Z count)) in
  if negb (h_weight h =? 0) then u64 (cost * u32 (h_weight h + 1)) else cost.

Definition done_ver (host : positive) (pb : probe) : RM (Z * conn_info * conn_info) :=
  let rpc := rpc_destroy_client (pb_rpc pb) in
  let pm := rpc_destroy_client (pb_pm pb) in
  (if negb (pb_count pb =? 0) then
     update host (fun h => set_h_cost (host_cost h (pb_taken pb) (pb_count pb)) h)
   else mret ());;
  mret (pb_supported pb, pm, rpc).

(** [goto] between the blocks. *)
Definition and_then (r : goto) (k : probe -> RM goto) : RM goto :=
  match r with
  | Next pb => k pb
  | DoneVer pb => mret (DoneVer pb)
  end.

Definition goto_probe (r : goto) : probe := match r with Next pb | DoneVer pb => pb end.

Definition get_nfs_info (host : positive) (pm_info rpc_info : conn_info) (proto version port : Z) :
    RM (Z * conn_info * conn_info) :=
  h ← load host;
  let random_selection := flag (h_options h) MOUNT_FLAG_RANDOM_SELECT in
  let rpc := set_proto proto rpc_info in
  let '(rpc, port) :=
    if port <? 0 then
      if flag version NFS4_REQUESTED && flag version NFS4_ONLY_REQUESTED
      then (set_port NFS_PORT rpc, port) else (rpc, 0)
    else if 0 <? port then (set_port port rpc, port) else (rpc, port) in
  r ← v4_block random_selection proto version port (Probe pm_info rpc 0 0 0);
  r ← and_then r (vers_block random_selection NFS3_REQUESTED proto version port);
  r ← and_then r (vers_block random_selection NFS2_REQUESTED proto version port);
  done_ver host (goto_probe r).

Definition check_address_proto (h : host) (version : Z) : bool :=
  negb (flag version (Z.lor TCP6_REQUESTED UDP6_REQUESTED) && (h_addr_len h =? INET_ADDRSTRLEN)).

Definition conn_zero : conn_info := CI 0 0 false.

Definition get_vers_and_cost (host : positive) (version port : Z) : RM Z :=
  h ← load host;
  if negb (check_address_proto h version) then mret 0 else
  let vers := Z.land (Z.lor (Z.lor NFS_VERS_MASK NFS4_VERS_MASK) NFS4_ONLY_REQUESTED) version in
  (** the part for TCP: [inl] for an early return *)
  r ← (if flag version TCP_REQUESTED then
         '(supported, pm, rpc) ← get_nfs_info host conn_zero conn_zero IPPROTO_TCP vers port;
         if IS_ERR supported then
           if (ERR supported =? EHOSTUNREACH) || (ERR supported =? ETIMEDOUT)
           then mret (inl 0) else mret (inr (0, pm, rpc))
         else if negb (supported =? 0) then
           update host (fun h => set_h_version (Z.lor (h_version h) supported) h);;
           mret (inr (1, pm, rpc))
         else mret (inr (0, pm, rpc))
       else mret (inr (0, conn_zero, conn_zero)));
  match r with
  | inl ret => mret ret
  | inr (ret, pm, rpc) =>
      if flag version UDP_REQUESTED then
        '(supported, _, _) ← get_nfs_info host pm rpc IPPROTO_UDP vers port;
        if IS_ERR supported then mret ret
        else if negb (supported =? 0) then
          update host (fun h => set_h_version (Z.lor (h_version h) (u32 (Z.shiftl supported 8))) h);;
          mret 1
        else mret ret
      else mret ret
  end.

(** [switch (version)]. *)
Definition nfs_version (version : Z) : option Z :=
  if version =? NFS2_SUPPORTED then Some 2
  else if version =? NFS3_SUPPORTED then Some 3
  else if version =? NFS4_SUPPORTED then Some 4
  else None.

(** The port to use: [None] is [return 0], the flag is [goto done]. *)
Definition supported_port (vers proto port : Z) (rpc : conn_info) : RM (option (conn_info * bool)) :=
  if 0 <? port then mret (Some (set_port port rpc, false))
  else if flag vers 4 && (port <? 0) then mret (Some (set_port NFS_PORT rpc, false))
  else
    '(pm, ret) ← rpc_portmap_getclient proto conn_zero;
    if negb (ret =? 0) then mret None else
    '(ret, p) ← rpc_portmap_getport pm;
    mret (Some (if ret <? 0 then (rpc, true) else (set_port p rpc, false))).

(** The client and the ping: [status] and [taken]. *)
Definition supported_ping (random_selection : bool) (rpc : conn_info) : RM (Z * Q) :=
  '(rpc, status) ← (if ci_proto rpc =? IPPROTO_UDP then rpc_udp_getclient rpc
                    else rpc_tcp_getclient rpc);
  if status =? - EHOSTUNREACH then mret (0, 0%Q)
  else if status =? 0 then
    '(status, reply) ← rpc_ping_proto random_selection rpc;
    mret (status, if 0 <? status then reply else 0%Q)
  else mret (status, 0%Q).

Definition get_supported_ver_and_cost (host : positive) (version port : Z) : RM Z :=
  h ← load host;
  if negb (check_address_proto h version) then mret 0 else
  let random_selection := flag (h_options h) MOUNT_FLAG_RANDOM_SELECT in
  let '(proto, version) :=
    if flag version UDP_SELECTED_MASK then (IPPROTO_UDP, Z.shiftr version 8)
    else (IPPROTO_TCP, version) in
  match nfs_version version with
  | None => mret 0
  | Some vers =>
      p ← supported_port vers proto port (set_proto proto conn_zero);
      match p with
      | None => mret 0
      | Some (rpc, done) =>
          '(status, taken) ←
            (if done : bool then mret (0, 0%Q) else supported_ping random_selection rpc);
          if negb (status =? 0) then
            update host (fun h => set_h_cost (host_cost h taken 1) h);; mret 1
          else mret 0
      end
  end.

(** ** Choosing a version *)

Definition mymax (x y : Z) : Z := if y <=? x then x else y.
Definition mmax (x y z : Z) : Z := if mymax x y =? x then mymax x z else mymax y z.

(** The six counters of [prune_host_list], and the counting of a host. *)
Record counts := Counts { v4_tcp : Z; v3_tcp : Z; v2_tcp : Z; v4_udp : Z; v3_udp : Z; v2_udp : Z }.

Definition count_host (h : host) (c : counts) : counts :=
  let bump bit n := if flag (h_version h) bit then n + 1 else n in
  Counts (bump NFS4_TCP_SUPPORTED (v4_tcp c)) (bump NFS3_TCP_SUPPORTED (v3_tcp c))
    (bump NFS2_TCP_SUPPORTED (v2_tcp c)) (bump NFS4_UDP_SUPPORTED (v4_udp c))
    (bump NFS3_UDP_SUPPORTED (v3_udp c)) (bump NFS2_UDP_SUPPORTED (v2_udp c)).

Definition select_version (c : counts) : Z :=
  let max_tcp_count := mmax (v4_tcp c) (v3_tcp c) (v2_tcp c) in
  let max_udp_count := mmax (v4_udp c) (v3_udp c) (v2_udp c) in
  let max_count := mymax max_tcp_count max_udp_count in
  if max_count =? v4_tcp c then NFS4_TCP_SUPPORTED
  else if max_count =? v3_tcp c then NFS3_TCP_SUPPORTED
  else if max_count =? v2_tcp c then NFS2_TCP_SUPPORTED
  else if max_count =? v4_udp c then NFS4_UDP_SUPPORTED
  else if max_count =? v3_udp c then NFS3_UDP_SUPPORTED
  else if max_count =? v2_udp c then NFS2_UDP_SUPPORTED
  else 0.

(** ** Pruning *)

Section Prune.
(** The mount program, the configuration and the kernel. *)
Context (nfs_mount_uses_string_options : bool) (mount_wait kern_vers : Z).
Context (use_hostname_for_mounts : bool).

(** The probes of the closest hosts: the new values of [*list], [first] and [this]. *)
Fixpoint probe_loop (fuel : nat) (vers port : Z) (list first this : ptr) (proximity : Z) :
    RM (ptr * ptr * ptr) :=
  match this with
  | None => mret (list, first, this)
  | Some a =>
      h ← load a;
      let next := h_next h in
      if negb (h_proximity h =? proximity) then mret (list, first, this) else
      '(list, first, proximity) ←
        match h_name h with
        | Some _ =>
            status ← get_vers_and_cost a vers port;
            if status =? 0 then
              '(first, proximity) ←
                (if bool_decide (this = first) then
                   match next with
                   | Some n => hn ← load n; mret (next, h_proximity hn)
                   | None => mret (next, proximity)
                   end
                 else mret (first, proximity));
              list ← delete_host list a;
              mret (list, first, proximity)
            else mret (list, first, proximity)
        | None => mret (list, first, proximity)
        end;
      match fuel with
      | O => stuck
      | S fuel => probe_loop fuel vers port list first next proximity
      end
  end.

(** [do ... while (this && this != last)] over the hosts from [this]. *)
Fixpoint count_loop (fuel : nat) (this : positive) (last : ptr) (c : counts) : RM counts :=
  h ← load this;
  let c := count_host h c in
  match h_next h with
  | Some next =>
      if bool_decide (Some next = last) then mret c else
      match fuel with
      | O => stuck
      | S fuel => count_loop fuel next last c
      end
  | None => mret c
  end.

(** The new values of [*list] and [new]. *)
Fixpoint move_loop (fuel : nat) (selected_version : Z) (list new : ptr) (this : positive) (last : ptr) :
    RM (ptr * ptr) :=
  h ← load this;
  let next := h_next h in
  '(list, new) ←
    (if flag (h_version h) selected_version || (h_proximity h =? PROXIMITY_LOCAL) then
       update this (set_h_version selected_version);;
       list ← remove_host list this;
       new ← add_host new this;
       mret (list, new)
     else mret (list, new));
  match next with
  | Some n =>
      if bool_decide (next = last) then mret (list, new) else
      match fuel with
      | O => stuck
      | S fuel => move_loop fuel selected_version list new n last
      end
  | None => mret (list, new)
  end.

(** The rest of the list. *)
Fixpoint rest_loop (fuel : nat) (selected_version port : Z) (list new this prev : ptr) :
    RM (ptr * ptr) :=
  match this with
  | None => mret (list, new)
  | Some a =>
      h ← load a;
      let next := h_next h in
      '(list, new, prev) ←
        match h_name h with
        | None =>
            list ← remove_host list a;
            new ← add_host new a;
            mret (list, new, prev)
        | Some _ =>
            skip ← match prev with
                   | Some p =>
                       if use_hostname_for_mounts
                       then hp ← load p; mret (h_ent_num hp =? h_ent_num h)
                       else mret false
                   | None => mret false
                   end;
            if skip : bool then mret (list, new, prev)
            else
              status ← get_supported_ver_and_cost a selected_version port;
              if negb (status =? 0) then
                update a (set_h_version selected_version);;
                list ← remove_host list a;
                new ← add_host new a;
                mret (list, new, this)
              else mret (list, new, prev)
        end;
      match fuel with
      | O => stuck
      | S fuel => rest_loop fuel selected_version port list new next prev
      end
  end.

Definition KERNEL_VERSION (a b c : Z) : Z := Z.shiftl a 16 + Z.shiftl b 8 + c.

(** The return value and the new value of [*list]. *)
Definition prune_host_list (list : ptr) (vers port : Z) : RM (Z * ptr) :=
  match list with
  | None => mret (0, None)
  | Some _ =>
      fuel ← heap_fuel;
      '(_, this) ← seek fuel (fun _ h => negb (h_proximity h =? PROXIMITY_LOCAL)) list list;
      let first := this in
      match this with
      | None => mret (1, list)
      | Some a =>
          h ← load a;
          if negb (nfs_mount_uses_string_options && (mount_wait =? -1) &&
                   (KERNEL_VERSION 2 6 22 <? kern_vers)) && bool_decide (h_next h = None)
          then mret (1, list)
          else
            '(list, first, this) ← probe_loop fuel vers port list first this (h_proximity h);
            match first, list with
            | None, _ => mret (1, list)
            | Some first, Some l =>
                let last := this in
                c ← count_loop fuel first last (Counts 0 0 0 0 0 0);
                let selected_version := select_version c in
                '(list, new) ← move_loop fuel selected_version list None l last;
                '(list, new) ← rest_loop fuel selected_version port list new last None;
                free_host_list list;;
                mret (1, new)
            | Some _, None => stuck
            end
      end
  end.

End Prune.
