(* ===== verification/ReplicatedProbe.v ===== *)
(** * Lists of hosts and the probes of a host

    What [add_host] and [remove_host] do to the list in the store, and what a probe
    can do to a host whatever the network answers. *)

From S2P Require Import Prelude CString Memory Selectors Replicated.
From stdpp Require Import sorting.
From Stdlib Require Import QArith Qround.
Open Scope Z_scope.

Implicit Types (h : gmap positive host) (l : list positive).

(** ** Runs for every answer of the network

    [runs h c Q]: with the hosts [h], whatever the network and the allocator do, the
    operation returns, with a result and hosts that satisfy [Q]. *)
Definition runs {A} h (c : RM A) (Q : A -> gmap positive host -> Prop) : Prop :=
  triple (fun s => rs_hosts s = h) c (fun x s => Q x (rs_hosts s)).

Lemma runs_ret {A} h (x : A) (Q : A -> gmap positive host -> Prop) : Q x h -> runs h (mret x) Q.
Proof. intros H. apply triple_ret. by intros s ->. Qed.

Lemma runs_bind {A B} h (c : RM A) (f : A -> RM B) Q R :
  runs h c Q -> (forall x h', Q x h' -> runs h' (f x) R) -> runs h (c ≫= f) R.
Proof.
  intros Hc Hf. eapply triple_bind; [exact Hc|]. intros x s m HQ. by apply (Hf x _ HQ s m).
Qed.

Lemma runs_conseq {A} h (c : RM A) (Q R : A -> gmap positive host -> Prop) :
  runs h c Q -> (forall x h', Q x h' -> R x h') -> runs h c R.
Proof. intros Hc HQ. eapply triple_conseq; [exact Hc|done|]. intros x s. apply HQ. Qed.

Lemma runs_reads {A B} h (c : RM A) (f : A -> RM B) x R :
  (forall net, reads c (RS h net) x) -> runs h (f x) R -> runs h (c ≫= f) R.
Proof.
  intros Hc Hf [h' net] m Hs. simpl in Hs. subst h'. rewrite (reads_bind _ _ _ x) by done. by apply Hf.
Qed.

Lemma runs_load {B} h a x (f : host -> RM B) R :
  h !! a = Some x -> runs h (f x) R -> runs h (load a ≫= f) R.
Proof. intros Ha. apply runs_reads. intros net. by apply load_reads. Qed.

Lemma runs_update {B} h a x g (f : unit -> RM B) R :
  h !! a = Some x -> runs (<[a := g x]> h) (f ()) R -> runs h (update a g ≫= f) R.
Proof.
  intros Ha Hf [h' net] m Hs. simpl in Hs. subst h'.
  rewrite (bind_update _ _ _ _ x) by done. by apply Hf.
Qed.

Lemma runs_fuel {B} h (f : nat -> RM B) R : runs h (f (size h)) R -> runs h (heap_fuel ≫= f) R.
Proof. apply runs_reads. done. Qed.

Lemma runs_seek {B} h stop last p l (f : ptr * ptr -> RM B) R :
  chain h p l ->
  runs h (f (match list.last (split_at (stops h stop) l).1 with Some a => Some a | None => last end,
             head (split_at (stops h stop) l).2)) R ->
  runs h (seek (size h) stop last p ≫= f) R.
Proof.
  intros Hl. apply runs_reads. intros net.
  apply (seek_reads (HH := rstate_heap) _ _ (RS h net) _ _ _ Hl). by apply chain_length in Hl.
Qed.

(** An operation that only talks to the network. *)
Definition asks {A} (c : RM A) (Q : A -> Prop) : Prop := forall h, runs h c (fun x h' => h' = h /\ Q x).

Lemma asks_ret {A} (x : A) (Q : A -> Prop) : Q x -> asks (mret x) Q.
Proof. intros H h. by apply runs_ret. Qed.

Lemma asks_bind {A B} (c : RM A) (f : A -> RM B) (Q : A -> Prop) R :
  asks c Q -> (forall x, Q x -> asks (f x) R) -> asks (c ≫= f) R.
Proof.
  intros Hc Hf h. eapply runs_bind; [apply Hc|]. intros x h' [-> HQ]. by apply Hf.
Qed.

Lemma asks_conseq {A} (c : RM A) (Q R : A -> Prop) : asks c Q -> (forall x, Q x -> R x) -> asks c R.
Proof. intros Hc HQ h. eapply runs_conseq; [apply Hc|]. simpl. intros x h' [-> ?]. auto. Qed.

Lemma runs_asks {A B} h (c : RM A) (f : A -> RM B) (Q : A -> Prop) R :
  asks c Q -> (forall x, Q x -> runs h (f x) R) -> runs h (c ≫= f) R.
Proof. intros Hc Hf. eapply runs_bind; [apply Hc|]. intros x h' [-> HQ]. by apply Hf. Qed.

Lemma asks_ask : asks ask (fun _ => True).
Proof.
  intros h [h' [|a net]] m Hs; simpl in Hs; subst h';
    (eexists _, _, _; split; [reflexivity|done]).
Qed.

(** ** Lists of hosts *)

Definition prox h a : Z := from_option h_proximity 0 (h !! a).
Definition cost h a : Z := from_option h_cost 0 (h !! a).

(** The order of the list: by proximity, then by cost. *)
Definition host_le h a b : Prop := prox h a < prox h b \/ (prox h a = prox h b /\ cost h a <= cost h b).

(** Where [add_host] inserts a host: behind the hosts that are closer, and, when
    its cost is known, behind those at the same distance with a lower cost. *)
Definition insert_host h l (x : host) : list positive * list positive :=
  let '(l1, l2) := split_at (fun a => h_proximity x <=? prox h a) l in
  if negb (h_cost x =? 0) then
    let '(l3, l4) :=
      split_at (fun a => negb (prox h a =? h_proximity x) || (h_cost x <=? cost h a)) l2 in
    (l1 ++ l3, l4)
  else (l1, l2).

Lemma insert_host_app h l x : (insert_host h l x).1 ++ (insert_host h l x).2 = l.
Proof.
  unfold insert_host. pose proof (split_at_app (fun a => h_proximity x <=? prox h a) l) as H.
  destruct (split_at _ l) as [l1 l2]. simpl in H. destruct (negb (h_cost x =? 0)); [|done].
  pose proof (split_at_app (fun a => negb (prox h a =? h_proximity x) || (h_cost x <=? cost h a)) l2) as H2.
  destruct (split_at _ l2) as [l3 l4]. simpl in *. by rewrite <- app_assoc, H2.
Qed.

Lemma split_at_ext_in {A} (p q : A -> bool) (l : list A) :
  (forall x, x ∈ l -> p x = q x) -> split_at p l = split_at q l.
Proof.
  induction l as [|x l IH]; intros H; [done|]. simpl. rewrite (H x) by set_solver.
  by rewrite IH by set_solver.
Qed.

(** The two walks of [add_host] find the place. *)
Lemma add_host_walks h net list l x :
  chain h list l ->
  reads ('(last, this) ← seek (size h) (fun _ t => h_proximity x <=? h_proximity t) list list;
         (if negb (h_cost x =? 0) then
            seek (size h) (fun _ t => negb (h_proximity t =? h_proximity x) || (h_cost x <=? h_cost t))
              last this
          else mret (last, this))) (RS h net)
    (match last (insert_host h l x).1 with Some a => Some a | None => list end,
     head (insert_host h l x).2).
Proof.
  intros Hl m. pose proof (chain_length _ _ _ Hl) as Hlen.
  rewrite (reads_bind _ _ _ _ _ (seek_reads (HH := rstate_heap) _ _ (RS h net) _ _ _ Hl Hlen)). unfold insert_host.
  assert (forall l' a, l' ⊆ l -> a ∈ l' -> exists y, h !! a = Some y) as Hlive.
  { intros l' a Hsub Ha. by eapply lseg_live; [exact Hl|set_solver]. }
  rewrite (split_at_ext_in _ (fun a => h_proximity x <=? prox h a)).
  2: { intros a Ha. destruct (Hlive l a) as [y Hy]; [done..|]. unfold stops, prox. simpl. by rewrite Hy. }
  set (P := fun a => h_proximity x <=? prox h a).
  destruct (chain_split h P list l Hl) as [Hl1 Hl2].
  pose proof (split_at_app P l) as Happ. destruct (split_at P l) as [l1 l2]. simpl in *.
  destruct (negb (h_cost x =? 0)); [|done].
  assert (length l2 <= size h)%nat as Hlen2 by (rewrite <- Happ, length_app in Hlen; lia).
  rewrite (seek_reads (HH := rstate_heap) _ _ (RS h net) _ _ _ Hl2 Hlen2).
  rewrite (split_at_ext_in _ (fun a => negb (prox h a =? h_proximity x) || (h_cost x <=? cost h a))).
  2: { intros a Ha. destruct (Hlive l2 a) as [y Hy]; [set_solver|done|].
       unfold stops, prox, cost. simpl. by rewrite Hy. }
  destruct (split_at _ l2) as [l3 l4]. simpl. rewrite last_app. by destruct (last l3).
Qed.

(** [add_host] inserts the host at its place, and changes nothing but links. *)
Lemma add_host_runs h list l a x :
  chain h list l -> h !! a = Some x -> a ∉ l -> (l = [] -> h_next x = None) ->
  runs h (add_host list a) (fun list' h' =>
    chain h' list' ((insert_host h l x).1 ++ a :: (insert_host h l x).2) /\ same_but_links h h' /\
    (forall b, b ∉ a :: l -> h' !! b = h !! b)).
Proof.
  intros Hl Ha Hnotin Hempty. unfold add_host. destruct list as [b|].
  2: { apply chain_None in Hl as ->. apply runs_ret. split; [|done].
       unfold insert_host. simpl. destruct (negb _); simpl; (split; [done|]; exists x; simpl; auto). }
  eapply runs_load; [done|]. apply runs_fuel. intros [h' net] m Hs. simpl in Hs. subst h'.
  pose proof (add_host_walks h net (Some b) l x Hl m) as Hw. revert Hw. unfold mbind, M_bind.
  destruct (seek _ _ (Some b) (Some b) _ m) as [[[[last1 this1] s1] m1]|]; [|done]. intros ->.
  pose proof (insert_host_app h l x) as Happ. destruct (insert_host h l x) as [l1 l2]. simpl in *.
  clear last1 this1 s1 m1.
  rewrite <- Happ in Hl, Hnotin. pose proof (chain_NoDup _ _ _ Hl) as Hnd.
  apply lseg_app in Hl as (r & Hl1 & Hl2).
  assert (r = head l2) as -> by (destruct l2; [by inversion Hl2|by destruct Hl2 as [-> _]]).
  destruct (decide (l1 = [])) as [->|Hne].
  - simpl in Hl1. rewrite Hl1. simpl. rewrite bool_decide_true by done.
    rewrite (update_run _ _ _ x) by done. eexists _, _, _. split; [reflexivity|]. simpl. split; [|split].
    + split; [done|]. exists (set_h_next (head l2) x). rewrite lookup_insert_eq. split; [done|].
      apply lseg_insert; [set_solver|done].
    + by refine (same_but_links_insert h a x (head l2) _).
    + intros d Hd. apply lookup_insert_ne. set_solver.
  - destruct (last l1) as [c|] eqn:Hlast; [|by apply last_None in Hlast].
    apply last_Some in Hlast as [l1' ->].
    rewrite bool_decide_false.
    2: { destruct l2 as [|d l2]; [done|]. simpl. intros [= ->].
         apply NoDup_app in Hnd as (_ & Hnd & _). apply (Hnd d); set_solver. }
    destruct (lseg_live _ _ _ _ c Hl1 ltac:(set_solver)) as [y Hy].
    rewrite (update_run _ _ _ y) by done. simpl.
    assert (c <> a) by set_solver.
    rewrite (update_run _ _ _ x); [|simpl; by rewrite lookup_insert_ne].
    eexists _, _, _. split; [reflexivity|]. simpl. split_and!.
    + apply lseg_app. exists (Some a). split.
      * apply lseg_insert; [set_solver|].
        refine (lseg_redirect h (Some b) l1' c (head l2) (Some a) y _ _ _); [|done..].
        by apply NoDup_app in Hnd as [? _].
      * simpl. split; [done|]. exists (set_h_next (head l2) x). rewrite lookup_insert_eq. split; [done|].
        apply lseg_insert; [set_solver|]. apply lseg_insert; [|done].
        apply NoDup_app in Hnd as (_ & Hnd & _). apply Hnd. set_solver.
    + etransitivity; [by refine (same_but_links_insert h c y (Some a) _)|].
      refine (same_but_links_insert _ a x (head l2) _). by rewrite lookup_insert_ne.
    + intros d Hd. rewrite !lookup_insert_ne; [done|set_solver..].
Qed.

(** [remove_host] takes the host out of the list and clears its link. *)
Lemma remove_host_runs h list l1 a l2 :
  chain h list (l1 ++ a :: l2) ->
  runs h (remove_host list a) (fun list' h' =>
    chain h' list' (l1 ++ l2) /\ same_but_links h h' /\
    (exists x, h' !! a = Some x /\ h_next x = None) /\
    (forall b, b ∉ l1 ++ a :: l2 -> h' !! b = h !! b)).
Proof.
  intros Hl. pose proof (chain_NoDup _ _ _ Hl) as Hnd. unfold remove_host.
  destruct (lseg_live _ _ _ _ a Hl ltac:(set_solver)) as [x Hx].
  pose proof Hl as Hfull. apply lseg_app in Hl as (r & Hl1 & Ha).
  destruct Ha as [-> (x' & Hx' & Hl2)]. rewrite Hx in Hx'. injection Hx' as <-. simpl in Hl2.
  apply NoDup_app in Hnd as (Hnd1 & Hdisj & [Hnotin2 Hnd2]%NoDup_cons).
  assert (a ∉ l1) by (intros Hin; apply (Hdisj a Hin); set_solver).
  case_bool_decide as Hhd.
  - subst list. destruct l1 as [|b l1].
    2: { destruct Hl1 as [[= ->] _]. set_solver. }
    eapply runs_load; [done|]. eapply runs_update; [done|]. apply runs_ret. simpl. split_and!.
    + apply lseg_insert; [done|exact Hl2].
    + by refine (same_but_links_insert h a x None _).
    + exists (set_h_next None x). by rewrite lookup_insert_eq.
    + intros d Hd. rewrite !lookup_insert_ne; [done|set_solver..].
  - apply runs_fuel. eapply runs_seek; [exact Hfull|].
    assert (split_at (stops h (fun b _ => bool_decide (b = a))) (l1 ++ a :: l2)
            = (l1, a :: l2)) as Hsplit.
    { clear Hfull Hl1 Hhd Hdisj Hnd1. induction l1 as [|b l1 IH]; simpl.
      - unfold stops. simpl. by rewrite Hx, bool_decide_true.
      - unfold stops at 1. simpl. destruct (h !! b); [rewrite bool_decide_false by set_solver|];
          by rewrite IH by set_solver. }
    rewrite Hsplit. simpl.
    destruct (last l1) as [c|] eqn:Hlast.
    2: { apply last_None in Hlast as ->. simpl in Hl1. done. }
    apply last_Some in Hlast as [l1' ->].
    destruct (lseg_live _ _ _ _ c Hl1 ltac:(set_solver)) as [y Hy].
    assert (c <> a) by set_solver.
    eapply runs_load; [done|]. eapply runs_update; [done|]. eapply runs_update.
    { by rewrite lookup_insert_ne. }
    apply runs_ret. split_and!.
    + apply lseg_app. exists (h_next x). split.
      * apply lseg_insert; [done|].
        by refine (lseg_redirect h list l1' c (Some a) (h_next x) y _ _ _).
      * apply lseg_insert; [done|]. apply lseg_insert; [|exact Hl2].
        intros Hin. apply (Hdisj c); set_solver.
    + etransitivity; [by refine (same_but_links_insert h c y (h_next x) _)|].
      refine (same_but_links_insert _ a x None _). by rewrite lookup_insert_ne.
    + exists (set_h_next None x). by rewrite lookup_insert_eq.
    + intros d Hd. rewrite !lookup_insert_ne; [done|set_solver..].
Qed.

(** ** The order of the list *)

#[export] Instance host_le_trans h : Transitive (host_le h).
Proof. intros a b c. unfold host_le. lia. Qed.

Lemma StronglySorted_middle {A} (R : A -> A -> Prop) `{!Transitive R} (l1 l2 : list A) x :
  StronglySorted R (l1 ++ l2) -> Forall (fun y => R y x) l1 ->
  (forall y, head l2 = Some y -> R x y) -> StronglySorted R (l1 ++ x :: l2).
Proof.
  intros Hs H1 H2. induction l1 as [|y l1 IH]; simpl in *.
  - constructor; [done|]. destruct l2 as [|z l2]; [constructor|].
    specialize (H2 z eq_refl). inversion Hs; subst. constructor; [done|].
    eapply Forall_impl; [done|]. intros w Hw. by etransitivity.
  - inversion Hs as [|? ? Hs' Hy]; inversion H1; subst. constructor; [by apply IH|].
    apply Forall_app in Hy as [Hy1 Hy2]. apply Forall_app. split; [done|]. by constructor.
Qed.

(** The rest of an ordered list from the first host that is as far away on. *)
Lemma sorted_rest_prox h l p b :
  StronglySorted (host_le h) l -> b ∈ (split_at (fun a => p <=? prox h a) l).2 -> p <= prox h b.
Proof.
  intros Hs Hb. set (P := fun a => p <=? prox h a) in *. pose proof (split_at_head P l) as Hhd.
  rewrite <- (split_at_app P l) in Hs. apply StronglySorted_app_1_r in Hs.
  destruct (split_at P l).2 as [|c l2]; [set_solver|]. specialize (Hhd c eq_refl). unfold P in Hhd.
  boolify. apply StronglySorted_inv in Hs as [_ Hc]. rewrite Forall_forall in Hc.
  apply elem_of_cons in Hb as [->|Hb]; [done|]. specialize (Hc b Hb). unfold host_le in Hc. lia.
Qed.

(** Inserting keeps the list ordered. *)
Lemma insert_host_sorted h l a x :
  h !! a = Some x -> 0 <= h_cost x -> (forall b, b ∈ l -> 0 <= cost h b) ->
  StronglySorted (host_le h) l ->
  StronglySorted (host_le h) ((insert_host h l x).1 ++ a :: (insert_host h l x).2).
Proof.
  intros Ha Hx Hcost Hs.
  assert (prox h a = h_proximity x /\ cost h a = h_cost x) as [Hp Hc]
    by (unfold prox, cost; by rewrite Ha).
  pose proof (fun b => sorted_rest_prox h l (h_proximity x) b Hs) as Hrest.
  assert (StronglySorted (host_le h) ((insert_host h l x).1 ++ (insert_host h l x).2)) as Hs'
    by by rewrite insert_host_app.
  apply StronglySorted_middle; [apply _|done|..]; clear Hs Hs';
    unfold host_le; rewrite Hp, Hc; clear Hp Hc; unfold insert_host;
    set (P := fun b => h_proximity x <=? prox h b) in *;
    set (Q := fun b => negb (prox h b =? h_proximity x) || (h_cost x <=? cost h b)) in *;
    pose proof (split_at_before P l) as H1; pose proof (split_at_app P l) as Happ1;
    destruct (split_at P l) as [l1 l2]; simpl in H1, Hrest, Happ1;
    pose proof (split_at_before Q l2) as H3; pose proof (split_at_head Q l2) as H4;
    pose proof (split_at_app Q l2) as Happ; destruct (split_at Q l2) as [l3 l4]; simpl in H3, H4, Happ.
  - assert (Forall (fun b => prox h b < h_proximity x) l1) as H1'.
    { eapply Forall_impl; [exact H1|]. unfold P. simpl. intros b Hb. boolify. lia. }
    destruct (negb (h_cost x =? 0)); simpl.
    + apply Forall_app. split; (eapply Forall_impl; [done|]; simpl; unfold Q; intros b Hb); boolify; lia.
    + eapply Forall_impl; [done|]. simpl. lia.
  - destruct (h_cost x =? 0) eqn:E; simpl; intros b Hb; boolify.
    + apply head_Some_elem_of in Hb. specialize (Hrest b Hb).
      specialize (Hcost b ltac:(set_solver)). lia.
    + specialize (H4 b Hb). apply head_Some_elem_of in Hb. specialize (Hrest b ltac:(set_solver)).
      unfold Q in H4. apply orb_true_iff in H4 as [H4|H4]; boolify; lia.
Qed.

(** ** Probes *)

(** What [supported] can be: an error, or a set of versions, with the versions of
    later blocks added to either. *)
Definition sup_values : list Z :=
  base ← [0; u32 (- EHOSTUNREACH); u32 (- ETIMEDOUT)];
  bits ← [0; 0x10; 0x20; 0x30; 0x40; 0x50; 0x60; 0x70];
  [Z.lor base bits].

Definition sup_ok (s : Z) : Prop := s ∈ sup_values.

Lemma sup_all (P : Z -> bool) s : forallb P sup_values = true -> sup_ok s -> P s = true.
Proof.
  intros H Hs. apply (proj1 (forallb_forall _ _) H s). by apply list_elem_of_In.
Qed.

Lemma sup_ok_lor bit s :
  bit ∈ [NFS2_SUPPORTED; NFS3_SUPPORTED; NFS4_SUPPORTED] -> sup_ok s -> sup_ok (Z.lor s bit).
Proof.
  intros Hb Hs. apply (bool_decide_eq_true (Z.lor s bit ∈ sup_values)).
  apply (sup_all (fun s => bool_decide (Z.lor s bit ∈ sup_values)) s); [|done].
  repeat (apply elem_of_cons in Hb as [->|Hb]; [by vm_compute|]). by apply not_elem_of_nil in Hb.
Qed.

Lemma sup_ok_error s : s = - EHOSTUNREACH \/ s = - ETIMEDOUT -> sup_ok (u32 s).
Proof. intros [->| ->]; apply (bool_decide_eq_true (_ ∈ sup_values)); by vm_compute. Qed.

Lemma sup_ok_0 : sup_ok 0.
Proof. apply (bool_decide_eq_true (_ ∈ sup_values)). by vm_compute. Qed.

#[local] Hint Resolve sup_ok_0 sup_ok_error sup_ok_lor : autofs.

Definition pb_ok (pb : probe) : Prop := sup_ok (pb_supported pb).
Definition goto_ok (r : goto) : Prop := pb_ok (goto_probe r).

Lemma asks_if {A} (b : bool) (c d : RM A) Q : asks c Q -> asks d Q -> asks (if b then c else d) Q.
Proof. by destruct b. Qed.

(** The calls of the RPC layer return whatever the network does. *)
Lemma create_client_asks i : asks (create_client i) (fun _ => True).
Proof. eapply asks_bind; [apply asks_ask|]. intros a _. by apply asks_if; apply asks_ret. Qed.

Lemma rpc_udp_asks i : asks (rpc_udp_getclient i) (fun _ => True).
Proof. apply create_client_asks. Qed.

Lemma rpc_tcp_asks i : asks (rpc_tcp_getclient i) (fun _ => True).
Proof. apply create_client_asks. Qed.

Lemma portmap_client_asks p i : asks (rpc_portmap_getclient p i) (fun _ => True).
Proof. eapply asks_bind; [apply asks_ask|]. intros a _. apply create_client_asks. Qed.

Lemma portmap_port_asks i : asks (rpc_portmap_getport i) (fun _ => True).
Proof. eapply asks_bind; [apply asks_ask|]. intros a _. by apply asks_if; apply asks_ret. Qed.

Lemma get_portmap_port_asks i p : asks (get_portmap_port i p) (fun _ => True).
Proof. eapply asks_bind; [apply portmap_port_asks|]. intros [st q] _. by apply asks_ret. Qed.

Lemma ping_asks r i : asks (rpc_ping_proto r i) (fun _ => True).
Proof. eapply asks_bind; [apply asks_ask|]. intros a _. by apply asks_if; apply asks_ret. Qed.

#[local] Hint Resolve rpc_udp_asks rpc_tcp_asks portmap_client_asks portmap_port_asks
  get_portmap_port_asks ping_asks asks_if : autofs.

(** Run the next call to the network. *)
Ltac ask := eapply asks_bind; [eauto with autofs|]; intros [? ?] _.

Lemma ping_version_asks random sup pb :
  pb_ok pb -> sup_ok (sup (pb_supported pb)) -> asks (ping_version random sup pb) goto_ok.
Proof.
  intros Hpb Hsup. unfold ping_version. ask. destruct (_ =? _) eqn:E; boolify; subst.
  { apply asks_ret. unfold goto_ok, pb_ok. simpl. auto with autofs. }
  apply asks_if; [|by apply asks_ret]. ask. destruct (_ =? - ETIMEDOUT) eqn:E2; boolify; subst.
  { apply asks_ret. unfold goto_ok, pb_ok. simpl. auto with autofs. }
  by apply asks_if; apply asks_ret.
Qed.

Lemma status_error_ok timeout status pb : pb_ok pb -> pb_ok (status_error timeout status pb).
Proof.
  intros H. unfold status_error. destruct (_ || _) eqn:E; [|done]. unfold pb_ok. simpl.
  apply sup_ok_error. apply orb_true_iff in E as [E|E]; boolify; auto.
Qed.

#[local] Hint Resolve ping_version_asks status_error_ok : autofs.

Lemma v4_block_asks random proto version port pb : pb_ok pb -> asks (v4_block random proto version port pb) goto_ok.
Proof.
  intros Hpb. unfold v4_block. apply asks_if; [by apply asks_ret|].
  assert (forall pb, pb_ok pb ->
    asks (r ← ping_version random (fun _ => NFS4_SUPPORTED) pb;
          match r with
          | DoneVer pb => mret (DoneVer pb)
          | Next pb => mret (if negb (flag version NFS_VERS_MASK) then DoneVer pb else Next pb)
          end) goto_ok) as Hping.
  { intros pb' H. eapply asks_bind; [apply ping_version_asks; [done|]|].
    - apply (sup_ok_lor NFS4_SUPPORTED 0); [apply list_elem_of_In; simpl; auto|apply sup_ok_0].
    - intros [pb''|pb''] H'; apply asks_ret; [by destruct (negb _)|done]. }
  apply asks_if; [|by apply Hping]. ask. apply asks_if.
  { apply asks_ret. by apply status_error_ok. }
  ask. apply asks_if; [|by apply Hping]. apply asks_ret.
  destruct (_ && _); by apply (status_error_ok true).
Qed.

Lemma vers_block_asks random bit proto version port pb :
  bit ∈ [NFS2_SUPPORTED; NFS3_SUPPORTED; NFS4_SUPPORTED] -> pb_ok pb ->
  asks (vers_block random bit proto version port pb) goto_ok.
Proof.
  intros Hbit Hpb. unfold vers_block. apply asks_if; [by apply asks_ret|].
  apply asks_if; [|by apply ping_version_asks; [|apply sup_ok_lor]].
  eapply (asks_bind _ _ (fun _ => True)).
  { apply asks_if; [apply portmap_client_asks|by apply asks_ret]. }
  intros [pm status] _. apply asks_if; [apply asks_ret; by apply (status_error_ok false)|].
  ask. apply asks_if; [apply asks_ret; by apply (status_error_ok true)|].
  apply ping_version_asks; [done|]. by apply sup_ok_lor.
Qed.

Lemma host_cost_nonneg x taken count : 0 <= host_cost x taken count.
Proof.
  unfold host_cost. destruct (negb (h_weight x =? 0)); [apply u64_range|].
  destruct (flag _ _); [done|apply u64_range].
Qed.

(** A probe changes the cost of the host, and nothing else. *)
Lemma get_nfs_info_runs h a x pm rpc proto version port :
  h !! a = Some x -> 0 <= h_cost x ->
  runs h (get_nfs_info a pm rpc proto version port) (fun r h' =>
    sup_ok r.1.1 /\ exists c, 0 <= c /\ h' = <[a := set_h_cost c x]> h).
Proof.
  intros Ha Hc. unfold get_nfs_info. eapply runs_load; [done|].
  destruct (if port <? 0 then _ else _) as [rpc' port'].
  eapply runs_asks; [apply v4_block_asks; apply sup_ok_0|]. intros r1 H1.
  eapply (runs_asks _ _ _ goto_ok).
  { destruct r1; [apply vers_block_asks; [apply list_elem_of_In; simpl; auto|done]|by apply asks_ret]. }
  clear r1 H1. intros r2 H2. eapply (runs_asks _ _ _ goto_ok).
  { destruct r2; [apply vers_block_asks; [apply list_elem_of_In; simpl; auto|done]|by apply asks_ret]. }
  clear r2 H2. intros r H. unfold done_ver. destruct (negb _).
  - eapply runs_update; [done|]. apply runs_ret. split; [done|].
    eexists. split; [apply host_cost_nonneg|reflexivity].
  - apply runs_ret. split; [done|]. exists (h_cost x). split; [done|].
    rewrite insert_id; [done|]. rewrite Ha. by destruct x.
Qed.

(** ** Whole probes *)

(** The versions that a host can support. *)
Definition versions : list Z :=
  [NFS4_TCP_SUPPORTED; NFS3_TCP_SUPPORTED; NFS2_TCP_SUPPORTED;
   NFS4_UDP_SUPPORTED; NFS3_UDP_SUPPORTED; NFS2_UDP_SUPPORTED].

Definition supports (v : Z) : Prop := Exists (fun bit => flag v bit = true) versions.

(** The host with another version and cost. *)
Definition set_probe (v c : Z) (x : host) : host := set_h_version v (set_h_cost c x).

Lemma flag_lor_l x y bit : flag x bit = true -> flag (Z.lor x y) bit = true.
Proof.
  unfold flag. intros H. boolify. apply negb_true_iff, Z.eqb_neq.
  rewrite Z.land_lor_distr_l. intros [? _]%Z.lor_eq_0_iff. done.
Qed.

Lemma flag_lor_r x y bit : flag y bit = true -> flag (Z.lor x y) bit = true.
Proof. rewrite Z.lor_comm. apply flag_lor_l. Qed.

Lemma supports_lor_l x y : supports x -> supports (Z.lor x y).
Proof. intros H. eapply Exists_impl; [exact H|]. intros bit. apply flag_lor_l. Qed.

Lemma supports_lor_r x y : supports y -> supports (Z.lor x y).
Proof. rewrite Z.lor_comm. apply supports_lor_l. Qed.

(** What is not an error and not 0 is a version, over TCP or over UDP. *)
Lemma sup_supports s :
  sup_ok s -> IS_ERR s = false -> s <> 0 -> supports s /\ supports (u32 (Z.shiftl s 8)).
Proof.
  intros Hs He H0.
  assert (IS_ERR s || (s =? 0) || (existsb (flag s) versions && existsb (flag (u32 (Z.shiftl s 8))) versions)
          = true) as H.
  { apply (sup_all (fun s => IS_ERR s || (s =? 0) ||
      (existsb (flag s) versions && existsb (flag (u32 (Z.shiftl s 8))) versions)) s); [|done].
    by vm_compute. }
  apply Z.eqb_neq in H0. rewrite He, H0, !orb_false_l in H. apply andb_true_iff in H as [H H1].
  split; apply Exists_exists; [apply existsb_exists in H as (b & Hb & Hf)|
    apply existsb_exists in H1 as (b & Hb & Hf)]; exists b; by rewrite list_elem_of_In.
Qed.

(** [get_vers_and_cost] changes the version and the cost of the host, and a host it
    accepts supports a version. *)
Lemma get_vers_and_cost_runs h a x version port :
  h !! a = Some x -> 0 <= h_cost x ->
  runs h (get_vers_and_cost a version port) (fun st h' =>
    exists v c, 0 <= c /\ h' = <[a := set_probe v c x]> h /\ (st <> 0 -> supports v)).
Proof.
  intros Ha Hc. unfold get_vers_and_cost. eapply runs_load; [done|].
  assert (<[a := set_probe (h_version x) (h_cost x) x]> h = h) as Hid.
  { rewrite insert_id; [done|]. rewrite Ha. by destruct x. }
  destruct (negb (check_address_proto x version)).
  { apply runs_ret. exists (h_version x), (h_cost x). by rewrite Hid. }
  set (vers := Z.land _ version). clearbody vers.
  eapply (runs_bind _ _ _ (fun r h' => exists v c, 0 <= c /\ h' = <[a := set_probe v c x]> h /\
    match r with inl ret => ret = 0 | inr (ret, _, _) => ret <> 0 -> supports v end)).
  - destruct (flag version TCP_REQUESTED).
    2: { apply runs_ret. exists (h_version x), (h_cost x). by rewrite Hid. }
    eapply runs_bind; [by apply get_nfs_info_runs|]. intros [[sup pm] rpc] h' [Hsup (c & Hc' & ->)].
    simpl in Hsup. set (x' := set_h_cost c x).
    assert (<[a := x']> h = <[a := set_probe (h_version x) c x]> h) as Hx' by by destruct x.
    destruct (IS_ERR sup) eqn:He.
    { destruct (_ || _); apply runs_ret; exists (h_version x), c; by rewrite Hx'. }
    destruct (sup =? 0) eqn:E0; boolify; simpl.
    { apply runs_ret. exists (h_version x), c. by rewrite Hx'. }
    eapply runs_update; [by rewrite lookup_insert_eq|]. apply runs_ret.
    exists (Z.lor (h_version x) sup), c. rewrite insert_insert_eq. split_and!; [done..|].
    intros _. by apply supports_lor_r, sup_supports.
  - intros [ret|[[ret pm] rpc]] h' (v & c & Hc' & -> & Hret).
    { apply runs_ret. subst. exists v, c. done. }
    destruct (flag version UDP_REQUESTED); [|apply runs_ret; eauto].
    eapply runs_bind; [apply get_nfs_info_runs; [by rewrite lookup_insert_eq|done]|].
    intros [[sup pm'] rpc'] h' [Hsup (c' & Hc'' & ->)]. simpl in Hsup. rewrite insert_insert_eq.
    assert (forall ret', (ret' <> 0 -> ret <> 0) -> exists v0 c0, 0 <= c0 /\
      <[a := set_h_cost c' (set_probe v c x)]> h = <[a := set_probe v0 c0 x]> h /\
      (ret' <> 0 -> supports v0)) as Hdone.
    { intros ret' Hr. exists v, c'. split_and!; [done|by destruct x|]. auto. }
    destruct (IS_ERR sup) eqn:He; [apply runs_ret; auto|].
    destruct (sup =? 0) eqn:E0; boolify; simpl; [apply runs_ret; auto|].
    eapply runs_update; [by rewrite lookup_insert_eq|]. apply runs_ret. rewrite insert_insert_eq.
    eexists _, c'. split_and!; [done|reflexivity|]. intros _. simpl.
    by apply supports_lor_r, sup_supports.
Qed.

(** [get_supported_ver_and_cost] changes the cost of the host. *)
Lemma get_supported_runs h a x version port :
  h !! a = Some x -> 0 <= h_cost x ->
  runs h (get_supported_ver_and_cost a version port) (fun st h' =>
    exists c, 0 <= c /\ h' = <[a := set_probe (h_version x) c x]> h).
Proof.
  intros Ha Hc. unfold get_supported_ver_and_cost. eapply runs_load; [done|].
  assert (exists c, 0 <= c /\ h = <[a := set_probe (h_version x) c x]> h) as Hid.
  { exists (h_cost x). split; [done|]. rewrite insert_id; [done|]. rewrite Ha. by destruct x. }
  destruct (negb _); [by apply runs_ret|].
  destruct (if flag version UDP_SELECTED_MASK then _ else _) as [proto v].
  destruct (nfs_version v) as [vers|]; [|by apply runs_ret].
  eapply (runs_asks _ _ _ (fun _ => True)).
  { unfold supported_port. do 2 (apply asks_if; [by apply asks_ret|]). ask.
    apply asks_if; [by apply asks_ret|]. ask. by apply asks_ret. }
  intros [[rpc done']|] _; [|by apply runs_ret].
  eapply (runs_asks _ _ _ (fun _ => True)).
  { apply asks_if; [by apply asks_ret|]. unfold supported_ping. ask.
    apply asks_if; [by apply asks_ret|]. apply asks_if; [|by apply asks_ret]. ask. by apply asks_ret. }
  intros [status taken] _. destruct (negb _); [|by apply runs_ret].
  eapply runs_update; [done|]. apply runs_ret. eexists. split; [apply host_cost_nonneg|]. reflexivity.
Qed.
