(* ===== verification/ReplicatedProps.v ===== *)
(** * The choice of replicated servers

    [prune_host_list] returns for every behaviour of the network, leaves the hosts
    ordered, keeps the local ones, frees exactly the hosts it drops, and chooses a
    version that no other version beats among the closest hosts that answer. *)

From S2P Require Import Prelude CString Memory Selectors Replicated ReplicatedProbe.
From stdpp Require Import sorting.
Open Scope Z_scope.

Implicit Types (h : gmap positive host) (l : list positive).

(** ** The parts of a host that pruning does not change *)

Definition fixed (x : host) : host := set_probe 0 0 (set_h_next None x).

Definition ver h a : Z := from_option h_version 0 (h !! a).

(** Every host of [h] is one of [h0] but for its version, cost and link. *)
Definition kept h0 h : Prop :=
  forall a x, h !! a = Some x -> 0 <= h_cost x /\ exists x0, h0 !! a = Some x0 /\ fixed x = fixed x0.

(** Apart from the hosts [D] nothing changes but links. *)
Definition unch h h' (D : list positive) : Prop :=
  forall a, a ∉ D -> set_link None <$> h !! a = set_link None <$> h' !! a.

Lemma kept_refl h : (forall a x, h !! a = Some x -> 0 <= h_cost x) -> kept h h.
Proof. intros H a x Ha. eauto. Qed.

Lemma fixed_prox x y : fixed x = fixed y -> h_proximity x = h_proximity y /\ h_name x = h_name y.
Proof. by intros [=]. Qed.

Lemma nolink_fields x y : set_h_next None x = set_h_next None y ->
  fixed x = fixed y /\ h_cost x = h_cost y /\ h_version x = h_version y.
Proof. unfold fixed. intros H. rewrite H. by injection H. Qed.

Lemma kept_links h0 h h' : kept h0 h -> same_but_links h h' -> kept h0 h'.
Proof.
  intros Hk Hs a x' Ha. destruct (same_but_links_lookup h' h a x') as (x & Hx & E); [by symmetry|done|].
  apply nolink_fields in E as (Ef & Ec & _). destruct (Hk a x Hx) as [? (x0 & ? & ?)].
  split; [congruence|]. exists x0. split; congruence.
Qed.

Lemma kept_probe h0 h a x v c :
  kept h0 h -> h !! a = Some x -> 0 <= c -> kept h0 (<[a := set_probe v c x]> h).
Proof.
  intros Hk Ha Hc b y. destruct (decide (a = b)) as [->|Hne].
  - rewrite lookup_insert_eq. intros [= <-]. destruct (Hk b x Ha) as [_ (x0 & ? & Hx0)].
    split; [done|]. exists x0. split; [done|]. by rewrite <- Hx0.
  - rewrite lookup_insert_ne by done. apply Hk.
Qed.

Lemma kept_delete h0 h a : kept h0 h -> kept h0 (delete a h).
Proof. intros Hk b y. rewrite lookup_delete_Some. intros [_ ?]. by apply Hk. Qed.

Lemma kept_cost h0 h a : kept h0 h -> 0 <= cost h a.
Proof.
  intros Hk. unfold cost. destruct (h !! a) as [x|] eqn:Ha; [|done]. by destruct (Hk a x Ha).
Qed.

Lemma kept_prox h0 h a : kept h0 h -> is_Some (h !! a) -> prox h a = prox h0 a.
Proof.
  intros Hk [x Ha]. unfold prox. rewrite Ha. destruct (Hk a x Ha) as [_ (x0 & -> & E)].
  simpl. by apply fixed_prox in E as [? _].
Qed.

(** Stores that agree on a host but for its link. *)
Lemma nolink_eq h h' a : set_link None <$> h !! a = set_link None <$> h' !! a ->
  prox h a = prox h' a /\ cost h a = cost h' a /\ ver h a = ver h' a.
Proof.
  unfold prox, cost, ver. destruct (h !! a) as [x|], (h' !! a) as [y|]; simpl; try done.
  by intros [=].
Qed.

Lemma unch_links h h' D : same_but_links h h' -> unch h h' D.
Proof. intros H a _. apply H. Qed.

Lemma unch_trans h1 h2 h3 D E F :
  unch h1 h2 D -> unch h2 h3 E -> D ⊆ F -> E ⊆ F -> unch h1 h3 F.
Proof. intros H1 H2 HD HE a Ha. rewrite H1 by set_solver. apply H2. set_solver. Qed.

Lemma unch_insert h a x : unch h (<[a := x]> h) [a].
Proof. intros b Hb. rewrite lookup_insert_ne; [done|set_solver]. Qed.

Lemma unch_delete h a : unch h (delete a h) [a].
Proof. intros b Hb. rewrite lookup_delete_ne; [done|set_solver]. Qed.

Lemma sorted_ext_in {A} (R R' : A -> A -> Prop) (l : list A) :
  (forall a b, a ∈ l -> b ∈ l -> R a b -> R' a b) -> StronglySorted R l -> StronglySorted R' l.
Proof.
  intros H. induction 1 as [|a l Hl IH Ha]; constructor.
  - apply IH. intros b c Hb Hc. apply H; set_solver.
  - rewrite Forall_forall in Ha |- *. intros b Hb. apply H; [set_solver..|auto].
Qed.

Lemma host_le_unch h h' D l :
  unch h h' D -> (forall a, a ∈ l -> a ∉ D) ->
  StronglySorted (host_le h) l -> StronglySorted (host_le h') l.
Proof.
  intros Hu Hl. apply sorted_ext_in. intros a b Ha Hb. unfold host_le.
  destruct (nolink_eq h h' a) as (-> & -> & _); [by apply Hu, Hl|].
  by destruct (nolink_eq h h' b) as (-> & -> & _); [by apply Hu, Hl|].
Qed.

(** Two lists in one store do not disturb each other. *)
Lemma lseg_frame h h' p l q : (forall b, b ∈ l -> h' !! b = h !! b) -> lseg h p l q -> lseg h' p l q.
Proof. intros H. apply lseg_ext. intros b Hb. by rewrite H. Qed.

(** ** Deleting a host *)

Lemma delete_host_runs h list l1 a l2 :
  chain h list (l1 ++ a :: l2) ->
  runs h (delete_host list a) (fun list' h' =>
    chain h' list' (l1 ++ l2) /\ unch h h' [a] /\ h' !! a = None /\
    (forall h0, kept h0 h -> kept h0 h') /\ (forall b, b ∉ l1 ++ a :: l2 -> h' !! b = h !! b)).
Proof.
  intros Hl. pose proof (chain_NoDup _ _ _ Hl) as Hnd. unfold delete_host.
  eapply runs_bind; [by apply remove_host_runs|].
  intros list' h1 (Hl' & Hs & (x & Hx & _) & Hf). unfold free_host.
  intros [h1' net] m E. simpl in E. subst h1'. rewrite (bind_free_obj _ _ _ _ x) by done.
  eexists _, _, _. split; [reflexivity|]. simpl. split_and!.
  - apply lseg_delete; [|done]. apply NoDup_app in Hnd as (_ & Hd & [? _]%NoDup_cons).
    intros [Hin|Hin]%elem_of_app; [|done]. apply (Hd a Hin). set_solver.
  - eapply unch_trans; [by apply unch_links|apply unch_delete|..]; set_solver.
  - apply lookup_delete_eq.
  - intros h0 Hk. by apply kept_delete, kept_links with h.
  - intros b Hb. rewrite lookup_delete_ne by set_solver. by apply Hf.
Qed.

(** ** The probes of the closest hosts *)

Section Probe.
Context (h0 : gmap positive host) (F : list positive) (vers port : Z).

(** The state of the loop: the list is the local hosts [L0], the hosts [K] that have
    answered, and the hosts [R] not seen yet, all of them from [F]; [first] is the
    first of the latter two. *)
Record probing h (list first : ptr) (p : Z) (L0 K R : Datatypes.list positive) : Prop := Probing {
  pr_chain : chain h list (L0 ++ K ++ R);
  pr_kept : kept h0 h;
  pr_named : forall a x, a ∈ R -> h !! a = Some x -> is_Some (h_name x);
  pr_first : first = head (K ++ R);
  pr_near : forall a, a ∈ K -> prox h a = p;
  pr_next : K = [] -> forall a, head R = Some a -> prox h a = p;
  pr_supports : forall a, a ∈ K -> supports (ver h a);
  pr_in : L0 ++ K ++ R ⊆ F;
  pr_frame : forall b, b ∉ F -> h !! b = h0 !! b
}.

Lemma probing_answered h list first p L0 K a R x v c :
  probing h list first p L0 K (a :: R) -> h !! a = Some x -> h_proximity x = p ->
  0 <= c -> supports v ->
  probing (<[a := set_probe v c x]> h) list first p L0 (K ++ [a]) R.
Proof.
  intros [Hch Hk Hn Hf Hp Hp2 Hs HinF Hfr] Ha Hax Hc Hv.
  assert (NoDup (K ++ a :: R)) as Hnd by (apply chain_NoDup in Hch; by apply NoDup_app in Hch as (_ & _ & ?)).
  apply NoDup_app in Hnd as (_ & Hd & [Hnotin _]%NoDup_cons).
  assert (a ∉ K) by (intros Hin; apply (Hd a Hin); set_solver).
  assert (forall b, b ∈ K -> prox (<[a := set_probe v c x]> h) b = prox h b /\
                             ver (<[a := set_probe v c x]> h) b = ver h b) as HK.
  { intros b Hb. unfold prox, ver. rewrite lookup_insert_ne by set_solver. done. }
  split; try done.
  - rewrite <- app_assoc. simpl. by eapply (lseg_update h _ _ _ a x).
  - by apply kept_probe.
  - intros b y Hb. rewrite lookup_insert_ne by set_solver. apply Hn. set_solver.
  - rewrite Hf, <- app_assoc. by destruct K.
  - intros b [Hb| ->%list_elem_of_singleton]%elem_of_app.
    + rewrite (proj1 (HK b Hb)). auto.
    + unfold prox. by rewrite lookup_insert_eq.
  - by destruct K.
  - intros b [Hb| ->%list_elem_of_singleton]%elem_of_app.
    + rewrite (proj2 (HK b Hb)). auto.
    + unfold ver. by rewrite lookup_insert_eq.
  - set_solver.
  - intros b Hb. rewrite lookup_insert_ne; [auto|set_solver].
Qed.

(** The proximity to go on with after a host that does not answer. *)
Definition next_prox h p (K R : list positive) : Z :=
  match K, R with
  | [], b :: _ => prox h b
  | _, _ => p
  end.

(** A host that does not answer leaves the list. *)
Lemma probing_dropped h h' list list' first p L0 K a R :
  probing h list first p L0 K (a :: R) ->
  chain h' list' ((L0 ++ K) ++ R) -> unch h h' [a] -> kept h0 h' ->
  (forall b, b ∉ F -> h' !! b = h !! b) ->
  probing h' list' (head (K ++ R)) (next_prox h p K R) L0 K R.
Proof.
  intros [Hch Hk Hn Hf Hp Hp2 Hs HinF Hfr] Hch' Hu Hk' Hfr'.
  assert (NoDup (K ++ a :: R)) as Hnd by (apply chain_NoDup in Hch; by apply NoDup_app in Hch as (_ & _ & ?)).
  apply NoDup_app in Hnd as (_ & Hd & [Hnotin _]%NoDup_cons).
  assert (forall b, b ∈ K -> b <> a) as HK by (intros b Hb ->; apply (Hd a Hb); set_solver).
  assert (forall b, b <> a -> prox h b = prox h' b /\ ver h b = ver h' b) as Heq.
  { intros b Hb. destruct (nolink_eq h h' b) as (? & _ & ?); [apply Hu; set_solver|done]. }
  split; try done.
  - by rewrite app_assoc.
  - intros b y Hb Hy. assert (b <> a) by set_solver. specialize (Hu b ltac:(set_solver)).
    rewrite Hy in Hu. destruct (h !! b) as [z|] eqn:Hz; [|done]. apply (inj Some) in Hu.
    apply nolink_fields in Hu as (Hu & _). apply fixed_prox in Hu as [_ <-]. eapply Hn; [|done]. set_solver.
  - intros b Hb. rewrite <- (proj1 (Heq b (HK b Hb))). destruct K; [set_solver|auto].
  - intros -> b Hb. destruct R as [|c R]; [done|]. injection Hb as <-.
    rewrite <- (proj1 (Heq c ltac:(set_solver))). done.
  - intros b Hb. rewrite <- (proj2 (Heq b (HK b Hb))). auto.
  - set_solver.
  - intros b Hb. rewrite Hfr' by done. auto.
Qed.

(** What the loop leaves: of the hosts [D] it has asked, those that answered are
    behind [K] in the list and the others are freed. *)
Definition probed h L0 K R (r : ptr * ptr * ptr) h' : Prop :=
  exists p K2 D R', R = D ++ R' /\ probing h' r.1.1 r.1.2 p L0 (K ++ K2) R' /\ r.2 = head R' /\
    (K ++ K2 = [] -> R' = []) /\ unch h h' D /\ K2 ⊆ D /\ (forall a, a ∈ D -> a ∈ K2 \/ h' !! a = None).

Lemma probed_step h h1 h' L0 K K1 a R r :
  probed h1 L0 (K ++ K1) R r h' -> unch h h1 [a] ->
  (K1 = [a] \/ (K1 = [] /\ h1 !! a = None)) -> a ∉ R ->
  probed h L0 K (a :: R) r h'.
Proof.
  intros (p & K2 & D & R' & -> & Hpr & Hr & Hne & Hu & Hsub & Hgone) Hu1 Hcase HaR.
  exists p, (K1 ++ K2), (a :: D), R'. rewrite app_assoc. split_and!; try done.
  - eapply unch_trans; [exact Hu1|exact Hu|..]; set_solver.
  - destruct Hcase as [->|[-> _]]; set_solver.
  - intros b [->|Hb]%elem_of_cons; [|destruct (Hgone b Hb); set_solver].
    destruct Hcase as [->|[-> Hnone]]; [set_solver|]. right.
    specialize (Hu a ltac:(set_solver)). rewrite Hnone in Hu. by destruct (h' !! a).
Qed.

(** [first] and [proximity] when the host [a] is dropped. *)
Lemma first_runs h a y K R p :
  NoDup (K ++ a :: R) -> (forall b, b ∈ R -> is_Some (h !! b)) ->
  runs (<[a := y]> h)
    (if bool_decide (Some a = head (K ++ a :: R)) then
       match head R with
       | Some n => hn ← load n; mret (head R, h_proximity hn)
       | None => mret (head R, p)
       end
     else mret (head (K ++ a :: R), p))
    (fun fp h' => h' = <[a := y]> h /\ fp = (head (K ++ R), next_prox h p K R)).
Proof.
  intros Hnd Hlive. destruct K as [|k K]; simpl.
  - rewrite bool_decide_true by done. destruct R as [|n R]; simpl; [by apply runs_ret|].
    destruct (Hlive n ltac:(set_solver)) as [z Hz]. simpl in Hnd.
    apply NoDup_cons in Hnd as [Hnotin _].
    eapply runs_load; [rewrite lookup_insert_ne by set_solver; exact Hz|]. apply runs_ret.
    split; [done|]. unfold prox. by rewrite Hz.
  - apply NoDup_cons in Hnd as [Hnotin _]. rewrite bool_decide_false by set_solver.
    by apply runs_ret.
Qed.

Lemma probe_loop_runs R : forall fuel h list first p L0 K,
  probing h list first p L0 K R -> (length R <= fuel)%nat ->
  runs h (probe_loop fuel vers port list first (head R) p) (probed h L0 K R).
Proof.
  induction R as [|a R IH]; intros fuel h list first p L0 K Hpr Hfuel.
  { destruct fuel; simpl; (apply runs_ret; exists p, [], [], []; simpl; rewrite app_nil_r;
      split_and!; [done..|set_solver|set_solver]). }
  destruct (lseg_live _ _ _ _ a (pr_chain _ _ _ _ _ _ _ Hpr) ltac:(set_solver)) as [x Hx].
  destruct fuel as [|fuel]; simpl in Hfuel; [lia|]. simpl. eapply runs_load; [done|].
  pose proof (chain_NoDup _ _ _ (pr_chain _ _ _ _ _ _ _ Hpr)) as Hnd.
  apply NoDup_app in Hnd as (HndL0 & HdL0 & Hnd).
  assert (a ∉ R) as HaR by (apply NoDup_app in Hnd as (_ & _ & [? _]%NoDup_cons); done).
  assert (h_next x = head R) as Hnext.
  { destruct Hpr as [Hch _ _ _ _ _ _ _ _]. rewrite app_assoc in Hch. apply lseg_app in Hch as (r & _ & Hch).
    destruct Hch as [_ (y & Hy & HR)]. rewrite Hx in Hy. injection Hy as <-.
    destruct R; [by inversion HR|by destruct HR as [E _]]. }
  destruct (h_proximity x =? p) eqn:Ep; boolify; simpl.
  2: { apply runs_ret. exists p, [], [], (a :: R). rewrite app_nil_r. split_and!; try done; try set_solver.
       intros ->. exfalso. apply Ep. rewrite <- (pr_next _ _ _ _ _ _ _ Hpr eq_refl a eq_refl).
       unfold prox. by rewrite Hx. }
  destruct (pr_named _ _ _ _ _ _ _ Hpr a x ltac:(set_solver) Hx) as [name ->].
  eapply (runs_bind _ _ _ (fun r h' => exists K1, probing h' r.1.1 r.1.2 r.2 L0 (K ++ K1) R /\
    unch h h' [a] /\ (K1 = [a] \/ (K1 = [] /\ h' !! a = None)))).
  - eapply runs_bind.
    { apply get_vers_and_cost_runs; [done|].
      by destruct (pr_kept _ _ _ _ _ _ _ Hpr a x Hx). }
    intros st h1 (v & c & Hc & -> & Hv). destruct (st =? 0) eqn:Est; boolify.
    2: { apply runs_ret. exists [a]. split_and!; [|apply unch_insert|by left].
         apply probing_answered; auto. }
    clear Hv. set (h1 := <[a := set_probe v c x]> h).
    assert (chain h1 list ((L0 ++ K) ++ a :: R)) as Hch1.
    { rewrite <- app_assoc. eapply (lseg_update h _ _ _ a x); [done|done|apply Hpr]. }
    assert (kept h0 h1) as Hk1 by (apply kept_probe; [apply Hpr|done..]).
    eapply (runs_bind _ _ _ (fun fp h' => h' = h1 /\ fp = (head (K ++ R), next_prox h p K R))).
    { rewrite (pr_first _ _ _ _ _ _ _ Hpr), Hnext. apply first_runs; [done|].
      intros b Hb. eapply lseg_live; [apply (pr_chain _ _ _ _ _ _ _ Hpr)|set_solver]. }
    intros [first' p'] h2 [-> [= -> ->]]. eapply runs_bind; [by apply delete_host_runs|].
    intros list' h' (Hch' & Hu' & Hnone & Hk' & Hfr'). apply runs_ret. exists []. rewrite app_nil_r.
    assert (unch h h' [a]) as Hu by (eapply unch_trans; [apply unch_insert|exact Hu'|..]; set_solver).
    split_and!; [|done|by right]. eapply probing_dropped; [exact Hpr|done..|by apply Hk'|].
    pose proof (pr_in _ _ _ _ _ _ _ Hpr) as Hin. intros b Hb.
    rewrite Hfr' by (rewrite <- app_assoc; set_solver). apply lookup_insert_ne. set_solver.
  - intros [[list' first'] p'] h' (K1 & Hpr' & Hu & Hcase). rewrite Hnext.
    eapply runs_conseq; [by apply IH; [|lia]|]. intros r h2 Hr. by eapply probed_step.
Qed.

End Probe.

(** ** The choice of the version *)

(** The counter of a version. *)
Definition tally (c : counts) (v : Z) : Z :=
  if v =? NFS4_TCP_SUPPORTED then v4_tcp c
  else if v =? NFS3_TCP_SUPPORTED then v3_tcp c
  else if v =? NFS2_TCP_SUPPORTED then v2_tcp c
  else if v =? NFS4_UDP_SUPPORTED then v4_udp c
  else if v =? NFS3_UDP_SUPPORTED then v3_udp c
  else v2_udp c.

Lemma mymax_max x y : mymax x y = Z.max x y.
Proof. unfold mymax. destruct (y <=? x) eqn:E; boolify; lia. Qed.

Lemma mmax_max x y z : mmax x y z = Z.max x (Z.max y z).
Proof. unfold mmax. rewrite !mymax_max. destruct (_ =? x) eqn:E; boolify; lia. Qed.

(** [select_version] returns one of the versions, with the highest counter. *)
Lemma select_version_max c :
  select_version c ∈ versions /\ Forall (fun w => tally c w <= tally c (select_version c)) versions.
Proof.
  unfold select_version. rewrite !mmax_max, mymax_max.
  set (m := Z.max _ _).
  assert (Forall (fun w => tally c w <= m) versions) as Hm.
  { unfold versions, m, tally. repeat constructor; simpl; lia. }
  assert (m = v4_tcp c \/ m = v3_tcp c \/ m = v2_tcp c \/ m = v4_udp c \/ m = v3_udp c \/ m = v2_udp c)
    as Hcases by lia. clearbody m.
  repeat match goal with |- context [m =? ?x] => destruct (m =? x) eqn:?; boolify; subst end;
    (split; [apply list_elem_of_In; simpl; tauto|exact Hm]) || lia.
Qed.

(** How many of the hosts support a version. *)
Definition nsup h (K : list positive) (v : Z) : Z :=
  Z.of_nat (length (filter (fun a => flag (ver h a) v = true) K)).

Definition count_at h (c : counts) (a : positive) : counts :=
  match h !! a with
  | Some x => count_host x c
  | None => c
  end.

Lemma tally_count_host x c v :
  v ∈ versions -> tally (count_host x c) v = tally c v + (if flag (h_version x) v then 1 else 0).
Proof.
  intros Hv. repeat (apply elem_of_cons in Hv as [->|Hv];
    [unfold tally, count_host; simpl; destruct (flag (h_version x) _); lia|]).
  by apply not_elem_of_nil in Hv.
Qed.

Lemma tally_counts h K : forall c v,
  v ∈ versions -> (forall a, a ∈ K -> is_Some (h !! a)) ->
  tally (foldl (count_at h) c K) v = tally c v + nsup h K v.
Proof.
  induction K as [|a K IH]; intros c v Hv Hlive; simpl; [unfold nsup; simpl; lia|].
  rewrite IH by (done || set_solver). destruct (Hlive a ltac:(set_solver)) as [x Hx].
  unfold count_at. rewrite Hx, tally_count_host by done. unfold nsup. rewrite filter_cons.
  assert (ver h a = h_version x) as -> by (unfold ver; by rewrite Hx).
  destruct (flag (h_version x) v); case_decide; simpl; try done; lia.
Qed.

Lemma count_loop_reads K : forall fuel h net a last c,
  lseg h (Some a) (a :: K) last -> (forall b, b ∈ K -> Some b <> last) -> (length K <= fuel)%nat ->
  reads (count_loop fuel a last c) (RS h net) (foldl (count_at h) c (a :: K)).
Proof.
  induction K as [|b K IH]; intros fuel h net a last c [_ (x & Hx & HK)] Hlast Hfuel m;
    assert (forall c, count_at h c a = count_host x c) as Hc by (intros c'; unfold count_at; by rewrite Hx);
    destruct fuel as [|fuel]; simpl in Hfuel; try lia; cbn [count_loop foldl];
    rewrite (bind_load _ _ _ _ x) by done; rewrite Hc.
  1,2: simpl in HK; rewrite HK; destruct last; [by rewrite bool_decide_true|done].
  destruct HK as [E HK]. simpl in E. rewrite E, bool_decide_false by (apply Hlast; set_solver).
  rewrite IH; [done|by split|set_solver|lia].
Qed.

(** The version that is chosen from the hosts that have answered. *)
Lemma selected_version h K :
  K <> [] -> (forall a, a ∈ K -> is_Some (h !! a)) -> (forall a, a ∈ K -> supports (ver h a)) ->
  let v := select_version (foldl (count_at h) (Counts 0 0 0 0 0 0) K) in
  v ∈ versions /\ 0 < nsup h K v /\ forall w, w ∈ versions -> nsup h K w <= nsup h K v.
Proof.
  intros Hne Hlive Hsup v. set (c := foldl _ _ _) in v.
  destruct (select_version_max c) as [Hv Hmax]. fold v in Hv, Hmax.
  assert (forall w, w ∈ versions -> tally c w = nsup h K w) as Ht.
  { intros w Hw. unfold c. rewrite tally_counts by done.
    enough (tally (Counts 0 0 0 0 0 0) w = 0) by lia. unfold tally. by repeat destruct (w =? _). }
  rewrite Forall_forall in Hmax.
  assert (forall w, w ∈ versions -> nsup h K w <= nsup h K v) as Hle.
  { intros w Hw. rewrite <- !Ht by done. by apply Hmax. }
  split_and!; [done| |done]. destruct K as [|a K]; [done|].
  destruct (proj1 (Exists_exists _ _) (Hsup a ltac:(set_solver))) as (w & Hw & Hf).
  specialize (Hle w Hw). enough (0 < nsup h (a :: K) w) by lia.
  unfold nsup. rewrite filter_cons_True by done. simpl. lia.
Qed.
