(* ===== verification/ReplicatedPrune.v ===== *)
(** * Pruning the list of hosts

    The loops of [prune_host_list] that move the chosen hosts to a new list, and the
    theorems about the whole function. *)

From S2P Require Import Prelude CString Memory Selectors Replicated ReplicatedProbe ReplicatedProps.
From stdpp Require Import sorting.
From Stdlib Require Import QArith.
Open Scope Z_scope.

Implicit Types (h : gmap positive host) (l : list positive).

Section Moving.
Context (h0 : gmap positive host) (F : list positive) (v : Z).

(** The old list is [S] and the new one [N], which is ordered; their hosts are of [F]. *)
Record moving h (list new : ptr) (S N : Datatypes.list positive) : Prop := Moving {
  mv_list : chain h list S;
  mv_new : chain h new N;
  mv_nodup : NoDup (S ++ N);
  mv_kept : kept h0 h;
  mv_sorted : StronglySorted (host_le h) N;
  mv_ver : forall a, a ∈ N -> ver h a = v;
  mv_in : S ++ N ⊆ F;
  mv_frame : forall b, b ∉ F -> h !! b = h0 !! b
}.

Lemma unch_ver h h' D a : unch h h' D -> a ∉ D -> ver h' a = ver h a.
Proof. intros Hu Ha. by destruct (nolink_eq h h' a (Hu a Ha)) as (_ & _ & ->). Qed.

Lemma kept_version h a x w : kept h0 h -> h !! a = Some x -> kept h0 (<[a := set_h_version w x]> h).
Proof.
  intros Hk Ha. destruct (Hk a x Ha) as [Hc _].
  assert (set_h_version w x = set_probe w (h_cost x) x) as -> by by destruct x. by apply kept_probe.
Qed.

(** Moving one host. *)
Lemma move_host_runs {B} h list new S1 a S2 N (k : ptr -> ptr -> RM B) R :
  moving h list new (S1 ++ a :: S2) N ->
  (forall list' new' h' N', moving h' list' new' (S1 ++ S2) N' -> N' ≡ₚ a :: N -> unch h h' [a] ->
     runs h' (k list' new') R) ->
  runs h (update a (set_h_version v);; list ← remove_host list a; new ← add_host new a; k list new) R.
Proof.
  intros [Hl Hn Hnd Hk Hs Hv HinF Hfr] Hcont.
  destruct (lseg_live _ _ _ _ a Hl ltac:(set_solver)) as [x Hx].
  assert (NoDup ((S1 ++ S2) ++ N) /\ a ∉ S1 ++ S2 /\ a ∉ N) as (Hnd' & HaS & HaN).
  { rewrite <- Permutation_middle in Hnd. simpl in Hnd. apply NoDup_cons in Hnd as [Ha Hnd].
    split; [done|]. set_solver. }
  set (h1 := <[a := set_h_version v x]> h).
  eapply runs_update; [done|]. change (<[a := set_h_version v x]> h) with h1.
  eapply runs_bind.
  { apply remove_host_runs. by eapply (lseg_update h _ _ _ a x). }
  intros list' h2 (Hl2 & Hs2 & (y & Hy & Hynext) & Hf2).
  assert (unch h h2 [a]) as Hu2.
  { eapply unch_trans; [apply unch_insert|by eapply unch_links|..]; set_solver. }
  assert (kept h0 h2) as Hk2 by (eapply kept_links; [by apply kept_version|done]).
  assert (ver h2 a = v) as Hva.
  { destruct (nolink_eq _ _ a (Hs2 a)) as (_ & _ & <-). unfold ver, h1. by rewrite lookup_insert_eq. }
  eapply runs_bind.
  { apply (add_host_runs h2 new N a y); [|done..].
    apply (lseg_frame h h2); [|done]. intros b Hb. rewrite Hf2.
    - unfold h1. rewrite lookup_insert_ne; [done|set_solver].
    - intros Hin. apply NoDup_app in Hnd as (_ & Hd & _). by apply (Hd b Hin). }
  intros new' h3 (Hn3 & Hs3 & Hf3).
  assert ((insert_host h2 N y).1 ++ a :: (insert_host h2 N y).2 ≡ₚ a :: N) as Hperm.
  { rewrite <- Permutation_middle. by rewrite insert_host_app. }
  eapply Hcont; [|exact Hperm|].
  2: { eapply unch_trans; [exact Hu2|by apply (unch_links _ _ [a])|..]; set_solver. }
  split.
  - apply (lseg_frame h2 h3); [|done]. intros b Hb. apply Hf3.
    intros [->|Hin]%elem_of_cons; [done|]. apply NoDup_app in Hnd' as (_ & Hd & _). by apply (Hd b Hb).
  - done.
  - rewrite Hperm, <- Permutation_middle. constructor; [set_solver|done].
  - by eapply kept_links.
  - eapply (host_le_unch h2 h3 []); [by apply unch_links|set_solver|].
    apply insert_host_sorted; [done|by destruct (Hk2 a y Hy)|intros; by eapply kept_cost|].
    eapply host_le_unch; [exact Hu2|set_solver|done].
  - intros b Hb. rewrite Hperm in Hb. rewrite (unch_ver h2 h3 [] b) by (by apply unch_links || set_solver).
    apply elem_of_cons in Hb as [->|Hb]; [done|]. rewrite (unch_ver h h2 [a]); [auto|done|set_solver].
  - rewrite Hperm. set_solver.
  - intros b Hb. rewrite Hf3, Hf2 by set_solver. unfold h1. rewrite lookup_insert_ne; [auto|set_solver].
Qed.

(** The hosts that are moved. *)
Definition chosen h a : bool := flag (ver h a) v || (prox h a =? PROXIMITY_LOCAL).

Lemma chosen_unch h h' D a : unch h h' D -> a ∉ D -> chosen h' a = chosen h a.
Proof.
  intros Hu Ha. unfold chosen. by destruct (nolink_eq h h' a (Hu a Ha)) as (-> & _ & ->).
Qed.

(** The body of the loop, for the host [a]. *)
Definition moved h S a N (S' N' : list positive) h' : Prop :=
  (chosen h a = true /\ S' = S /\ N' ≡ₚ a :: N /\ unch h h' [a]) \/
  (chosen h a = false /\ S' = S ++ [a] /\ N' = N /\ h' = h).

Lemma move_body_runs h list new S a T N x :
  moving h list new (S ++ a :: T) N -> h !! a = Some x ->
  runs h
    (if flag (h_version x) v || (h_proximity x =? PROXIMITY_LOCAL) then
       update a (set_h_version v);;
       list ← remove_host list a;
       new ← add_host new a;
       mret (list, new)
     else mret (list, new))
    (fun r h' => exists S' N', moving h' r.1 r.2 (S' ++ T) N' /\ moved h S a N S' N' h').
Proof.
  intros Hmv Hx.
  assert (chosen h a = flag (h_version x) v || (h_proximity x =? PROXIMITY_LOCAL)) as Hch
    by (unfold chosen, ver, prox; by rewrite Hx).
  rewrite <- Hch. destruct (chosen h a) eqn:E.
  - eapply move_host_runs; [exact Hmv|]. intros list' new' h' N' Hmv' Hperm Hu. apply runs_ret.
    exists S, N'. split; [done|]. by left.
  - apply runs_ret. exists (S ++ [a]), N. rewrite <- app_assoc. split; [done|]. by right.
Qed.

Lemma chain_next h p l1 a l2 x : chain h p (l1 ++ a :: l2) -> h !! a = Some x -> h_next x = head l2.
Proof.
  intros (r & _ & [-> (y & Hy & Hl)])%lseg_app Hx. rewrite Hx in Hy. injection Hy as <-.
  destruct l2; [by inversion Hl|by destruct Hl as [E _]].
Qed.

(** What the loop leaves of the hosts [T]: the others stay in the list, the chosen
    ones are in the new list. *)
Definition all_moved h S T R N (r : ptr * ptr) h' : Prop := exists N',
  moving h' r.1 r.2 (S ++ filter (fun b => chosen h b = false) T ++ R) N' /\
  N' ≡ₚ filter (fun b => chosen h b = true) T ++ N /\
  unch h h' (filter (fun b => chosen h b = true) T).

Lemma all_moved_nil h list new S R N : moving h list new (S ++ R) N -> all_moved h S [] R N (list, new) h.
Proof. intros H. exists N. by split. Qed.

Lemma all_moved_step h h1 h' S S1 a T R N N1 r :
  a ∉ T -> moved h S a N S1 N1 h1 -> all_moved h1 S1 T R N1 r h' -> all_moved h S (a :: T) R N r h'.
Proof.
  intros HaT Hmv (N' & Hmv' & Hperm & Hu).
  assert (forall b, b ∈ T -> chosen h1 b = chosen h b) as Hext.
  { intros b Hb. destruct Hmv as [(_ & _ & _ & Hu1)|(_ & _ & _ & ->)]; [|done].
    eapply chosen_unch; [exact Hu1|set_solver]. }
  rewrite (Prelude.filter_ext_in (fun b => chosen h1 b = false) (fun b => chosen h b = false)) in Hmv'
    by (intros b Hb; by rewrite Hext).
  rewrite (Prelude.filter_ext_in (fun b => chosen h1 b = true) (fun b => chosen h b = true)) in Hperm, Hu
    by (intros b Hb; by rewrite Hext).
  exists N'. rewrite !filter_cons.
  destruct Hmv as [(-> & -> & HN & Hu1)|(-> & -> & -> & ->)]; repeat (case_decide; [|try done]); try done.
  - split_and!; [done| |].
    + rewrite Hperm, HN. by rewrite <- Permutation_middle.
    + eapply unch_trans; [exact Hu1|exact Hu|..]; set_solver.
  - split_and!; [|done|done]. by rewrite <- app_assoc in Hmv'.
Qed.

(** The first loop. *)
Lemma move_loop_runs T : forall fuel h list new S a R N,
  moving h list new (S ++ (a :: T) ++ R) N -> (length T <= fuel)%nat ->
  runs h (move_loop fuel v list new a (head R)) (all_moved h S (a :: T) R N).
Proof.
  induction T as [|b T IH]; intros fuel h list new S a R N Hmv Hfuel;
    destruct (lseg_live _ _ _ _ a (mv_list _ _ _ _ _ Hmv) ltac:(set_solver)) as [x Hx];
    pose proof (chain_next _ _ _ _ _ _ (mv_list _ _ _ _ _ Hmv) Hx) as Hnext;
    pose proof (mv_nodup _ _ _ _ _ Hmv) as Hnd; apply NoDup_app in Hnd as [Hnd _];
    apply NoDup_app in Hnd as (_ & _ & Hnd); simpl app in Hnd, Hnext;
    apply NoDup_cons in Hnd as [HaT Hnd];
    destruct fuel as [|fuel]; simpl in Hfuel; try lia; cbn [move_loop];
    (eapply runs_load; [done|]); (eapply runs_bind; [by eapply move_body_runs|]);
    intros [list' new'] h1 (S1 & N1 & Hmv1 & Hstep); simpl in Hmv1; rewrite Hnext.
  1,2: eapply (runs_conseq _ _ (fun r h' => r = (list', new') /\ h' = h1));
    [destruct R; simpl; [|rewrite bool_decide_true by done]; by apply runs_ret|];
    intros r h' [-> ->]; eapply all_moved_step; [set_solver|done|]; by apply all_moved_nil.
  simpl. rewrite bool_decide_false.
  2: { destruct R as [|c R]; [done|]. simpl. intros [= ->]. apply NoDup_cons in Hnd as [Hb _]. set_solver. }
  eapply runs_conseq; [eapply (IH fuel h1 list' new' S1 b R N1); [done|lia]|].
  intros r h' Hr. eapply all_moved_step; [set_solver|done..].
Qed.

(** ** The rest of the list *)

Lemma moving_probe h list new S N a x w c :
  moving h list new S N -> h !! a = Some x -> a ∈ S -> a ∉ N -> 0 <= c ->
  moving (<[a := set_probe w c x]> h) list new S N.
Proof.
  intros [Hl Hn Hnd Hk Hs Hv HinF Hfr] Hx HaS Ha Hc. split; try done.
  - by eapply (lseg_update h _ _ _ a x).
  - by eapply (lseg_update h _ _ _ a x).
  - by apply kept_probe.
  - eapply host_le_unch; [apply unch_insert|set_solver|done].
  - intros b Hb. rewrite (unch_ver h _ [a]); [auto|apply unch_insert|set_solver].
  - intros b Hb. rewrite lookup_insert_ne; [auto|set_solver].
Qed.

(** One host of the rest has been asked: it stays or it is moved. *)
Definition rested h S a T N (r : ptr * ptr * ptr) h' : Prop := exists S' N',
  moving h' r.1.1 r.1.2 (S' ++ T) N' /\ (forall p, r.2 = Some p -> p ∈ N') /\
  ((S' = S ++ [a] /\ N' = N) \/ (S' = S /\ N' ≡ₚ a :: N)) /\ unch h h' [a].

Lemma rest_body_runs (use_hostname : bool) port h list new S a T N x prev :
  moving h list new (S ++ a :: T) N -> h !! a = Some x -> (forall p, prev = Some p -> p ∈ N) ->
  runs h
    (skip ← match prev with
            | Some p =>
                if use_hostname
                then hp ← load p; mret (h_ent_num hp =? h_ent_num x)
                else mret false
            | None => mret false
            end;
     if skip : bool then mret (list, new, prev)
     else
       status ← get_supported_ver_and_cost a v port;
       if negb (status =? 0) then
         update a (set_h_version v);;
         list ← remove_host list a;
         new ← add_host new a;
         mret (list, new, Some a)
       else mret (list, new, prev))
    (rested h S a T N).
Proof.
  intros Hmv Hx Hprev.
  assert (a ∉ N) as HaN.
  { pose proof (mv_nodup _ _ _ _ _ Hmv) as Hnd. apply NoDup_app in Hnd as (_ & Hd & _). apply Hd. set_solver. }
  eapply (runs_bind _ _ _ (fun _ h' => h' = h)).
  { destruct prev as [p|]; [|by apply runs_ret]. destruct use_hostname; [|by apply runs_ret].
    destruct (lseg_live _ _ _ _ p (mv_new _ _ _ _ _ Hmv) (Hprev p eq_refl)) as [y Hy].
    eapply runs_load; [done|]. by apply runs_ret. }
  intros skip h' ->. destruct skip.
  { apply runs_ret. exists (S ++ [a]), N. rewrite <- app_assoc. split_and!; try done. by left. }
  eapply runs_bind.
  { apply get_supported_runs; [done|]. by destruct (mv_kept _ _ _ _ _ Hmv a x Hx). }
  intros st h1 (c & Hc & ->). assert (Hmv1 := moving_probe _ _ _ _ _ a x (h_version x) c Hmv Hx ltac:(set_solver) HaN Hc).
  destruct (negb (st =? 0)).
  - eapply move_host_runs; [exact Hmv1|]. intros list' new' h' N' Hmv' Hperm Hu. apply runs_ret.
    exists S, N'. split_and!; [done| |by right|].
    + intros p [= <-]. rewrite Hperm. set_solver.
    + eapply unch_trans; [apply unch_insert|exact Hu|..]; set_solver.
  - apply runs_ret. exists (S ++ [a]), N. rewrite <- app_assoc. split_and!; try done; [by left|].
    apply unch_insert.
Qed.

Lemma rest_loop_runs (use_hostname : bool) port R : forall fuel h list new S N prev,
  moving h list new (S ++ R) N -> (forall p, prev = Some p -> p ∈ N) ->
  (forall a x, a ∈ R -> h !! a = Some x -> is_Some (h_name x)) -> (length R <= fuel)%nat ->
  runs h (rest_loop use_hostname fuel v port list new (head R) prev) (fun r h' => exists S' N',
    moving h' r.1 r.2 S' N' /\ S' ++ N' ≡ₚ S ++ R ++ N /\ S ⊆ S' /\ N ⊆ N' /\ unch h h' R).
Proof.
  induction R as [|a R IH]; intros fuel h list new S N prev Hmv Hprev Hname Hfuel.
  { destruct fuel; (apply runs_ret; exists S, N; rewrite app_nil_r in Hmv; by split_and!). }
  destruct (lseg_live _ _ _ _ a (mv_list _ _ _ _ _ Hmv) ltac:(set_solver)) as [x Hx].
  pose proof (chain_next _ _ _ _ _ _ (mv_list _ _ _ _ _ Hmv) Hx) as Hnext.
  assert (a ∉ R) as HaR.
  { pose proof (mv_nodup _ _ _ _ _ Hmv) as Hnd. apply NoDup_app in Hnd as [Hnd _].
    by apply NoDup_app in Hnd as (_ & _ & [? _]%NoDup_cons). }
  destruct fuel as [|fuel]; simpl in Hfuel; [lia|]. simpl. eapply runs_load; [done|].
  destruct (Hname a x ltac:(set_solver) Hx) as [name ->].
  eapply runs_bind; [by apply rest_body_runs|]. rewrite Hnext.
  intros [[list' new'] prev'] h1 (S1 & N1 & Hmv1 & Hprev1 & Hcase & Hu1). simpl in Hmv1, Hprev1.
  assert (S1 ++ R ++ N1 ≡ₚ S ++ (a :: R) ++ N /\ S ⊆ S1 /\ N ⊆ N1) as (Hperm1 & HS1 & HN1).
  { destruct Hcase as [[-> ->]|[-> HN]].
    - rewrite <- app_assoc. set_solver.
    - split_and!; [|done|rewrite HN; set_solver]. rewrite HN. simpl. by rewrite <- Permutation_middle. }
  eapply runs_conseq; [apply (IH fuel h1 list' new' S1 N1 prev'); [done|done| |lia]|].
  - intros b y Hb Hy. specialize (Hu1 b ltac:(set_solver)). rewrite Hy in Hu1.
    destruct (h !! b) as [z|] eqn:Hz; [|done]. apply (inj Some), nolink_fields in Hu1 as (Hu1 & _).
    apply fixed_prox in Hu1 as [_ <-]. eapply Hname; [|done]. set_solver.
  - intros r h' (S' & N' & Hmv' & Hperm' & HS' & HN' & Hu'). exists S', N'.
    split_and!; [done|by rewrite Hperm'|set_solver|set_solver|].
    eapply unch_trans; [exact Hu1|exact Hu'|..]; set_solver.
Qed.

End Moving.

(** ** Freeing the old list *)

Lemma free_host_loop_runs S : forall fuel h list,
  chain h list S -> (length S <= fuel)%nat ->
  runs h (free_host_loop fuel list) (fun _ h' =>
    forall a, h' !! a = if decide (a ∈ S) then None else h !! a).
Proof.
  induction S as [|a S IH]; intros fuel h list Hl Hfuel.
  { inversion Hl. subst. destruct fuel; by apply runs_ret. }
  pose proof (chain_NoDup _ _ _ Hl) as [Ha Hnd]%NoDup_cons. destruct Hl as [-> (x & Hx & Hl)].
  destruct fuel as [|fuel]; simpl in Hfuel; [lia|]. cbn [free_host_loop]. eapply runs_load; [done|].
  intros [h' net] m E. simpl in E. subst h'. unfold free_host. rewrite (bind_free_obj _ _ _ _ x) by done.
  assert (chain (delete a h) (h_next x) S) as Hl' by by apply lseg_delete.
  destruct (IH fuel _ _ Hl' ltac:(lia) (RS (delete a h) net) m eq_refl) as (u & s & m' & Hrun & Hs).
  exists u, s, m'. split; [exact Hrun|]. intros b. rewrite Hs. destruct (decide (b = a)) as [->|Hne].
  - rewrite (decide_True _ _ (P := a ∈ a :: S)) by set_solver. rewrite decide_False by done. apply lookup_delete_eq.
  - rewrite lookup_delete_ne by done. destruct (decide (b ∈ S)), (decide (b ∈ a :: S)); set_solver.
Qed.

(** ** The whole function *)

(** What pruning leaves of the hosts [l] of the store [h0]: the list [l']. *)
Record pruned h0 l (r : Z * ptr) h' l' : Prop := Pruned {
  pd_chain : chain h' r.2 l';
  pd_ret : r.1 = if decide (l = []) then 0 else 1;
  pd_sorted : StronglySorted (host_le h') l';
  pd_sub : l' ⊆ l;
  pd_local : forall a, a ∈ l -> prox h0 a = PROXIMITY_LOCAL -> a ∈ l';
  pd_kept : kept h0 h';
  pd_freed : forall a, a ∈ l -> a ∉ l' -> h' !! a = None;
  pd_other : forall b, b ∉ l -> h' !! b = h0 !! b
}.

(** The version [v] is the choice of the hosts [K], which are the closest ones that
    have answered, with the answers in [hK]. *)
Record selection h0 l h' l' (v : Z) (K : list positive) hK : Prop := Selection {
  sl_version : v ∈ versions;
  sl_all : forall a, a ∈ l' -> ver h' a = v;
  sl_some : K <> [] /\ K ⊆ l;
  sl_near : exists p, p <> PROXIMITY_LOCAL /\ (forall a, a ∈ K -> prox h0 a = p) /\
              forall a, a ∈ l' -> prox h0 a = PROXIMITY_LOCAL \/ p <= prox h0 a;
  sl_left : forall a, a ∈ K -> a ∈ l' <-> flag (ver hK a) v = true;
  sl_max : 0 < nsup hK K v /\ forall w, w ∈ versions -> nsup hK K w <= nsup hK K v
}.

Definition selected h0 l h' l' : Prop :=
  (h' = h0 /\ l' = l) \/ (forall a, a ∈ l' -> prox h0 a = PROXIMITY_LOCAL) \/
  (exists v K hK, selection h0 l h' l' v K hK).

(** What the callers of [prune_host_list] pass. *)
Record host_list h (list : ptr) l : Prop := Host_list {
  hl_chain : chain h list l;
  hl_sorted : StronglySorted (host_le h) l;
  hl_cost : forall a x, h !! a = Some x -> 0 <= h_cost x;
  hl_prox : forall a, a ∈ l -> PROXIMITY_LOCAL <= prox h a;
  hl_name : forall a x, a ∈ l -> h !! a = Some x -> h_name x = None -> h_proximity x = PROXIMITY_LOCAL
}.

(** The local hosts come first. *)
Lemma split_local h list l :
  host_list h list l ->
  exists L0 R, l = L0 ++ R /\ (forall a, a ∈ L0 -> prox h a = PROXIMITY_LOCAL) /\
    (forall a, a ∈ R -> PROXIMITY_LOCAL < prox h a) /\
    split_at (stops h (fun _ x => negb (h_proximity x =? PROXIMITY_LOCAL))) l = (L0, R).
Proof.
  intros [Hch Hs _ Hp _]. set (P := stops h _).
  assert (forall a, a ∈ l -> P a = (PROXIMITY_LOCAL + 1 <=? prox h a)) as HP.
  { intros a Ha. destruct (lseg_live _ _ _ _ a Hch Ha) as [x Hx]. specialize (Hp a Ha).
    unfold P, stops, prox in *. rewrite Hx in *. simpl in *.
    destruct (h_proximity x =? PROXIMITY_LOCAL) eqn:E; boolify; symmetry; [apply Z.leb_gt|apply Z.leb_le]; lia. }
  pose proof (fun b => sorted_rest_prox h l (PROXIMITY_LOCAL + 1) b Hs) as Hrest.
  rewrite <- (split_at_ext_in P _ l HP) in Hrest.
  pose proof (split_at_before P l) as Hb. pose proof (split_at_app P l) as Happ.
  destruct (split_at P l) as [L0 R]. simpl in *. exists L0, R. split_and!; [done| | |done].
  - intros a Ha. rewrite Forall_forall in Hb. specialize (Hb a Ha). simpl in Hb.
    rewrite HP in Hb by set_solver. specialize (Hp a ltac:(set_solver)). boolify. lia.
  - intros a Ha. specialize (Hrest a Ha). lia.
Qed.

Lemma pruned_same h0 list l : host_list h0 list l -> l <> [] -> pruned h0 l (1, list) h0 l.
Proof.
  intros [Hch Hs Hc _ _] Hne. split; try done; [by rewrite decide_False|by apply kept_refl].
Qed.

Section Main.
Context (string_options : bool) (mount_wait kern_vers : Z) (use_hostname : bool) (vers port : Z).
Context (h0 : gmap positive host) (list0 : ptr) (L0 R0 : list positive).
Context (HL : host_list h0 list0 (L0 ++ R0)).
Context (Hlocal : forall a, a ∈ L0 -> prox h0 a = PROXIMITY_LOCAL).
Context (Hfar : forall a, a ∈ R0 -> PROXIMITY_LOCAL < prox h0 a).

Lemma start_probing a x :
  head R0 = Some a -> h0 !! a = Some x -> probing h0 (L0 ++ R0) h0 list0 (head R0) (h_proximity x) L0 [] R0.
Proof.
  intros Ha Hx. split; try done; try set_solver.
  - apply HL.
  - apply kept_refl, HL.
  - intros b y Hb Hy. destruct (h_name y) eqn:E; [done|].
    apply (hl_name _ _ _ HL) in Hy as Hp; [|set_solver|done]. specialize (Hfar b Hb).
    unfold prox in Hfar. rewrite Hy in Hfar. simpl in Hfar. lia.
  - intros _ b Hb. rewrite Ha in Hb. injection Hb as <-. unfold prox. by rewrite Hx.
Qed.

(** The state after the probes. *)
Context (h1 : gmap positive host) (list1 first : ptr) (p : Z) (K D R : list positive).
Context (HR0 : R0 = D ++ R) (HP : probing h0 (L0 ++ R0) h1 list1 first p L0 K R).
Context (Hu1 : unch h0 h1 D) (HKD : K ⊆ D) (Hgone : forall a, a ∈ D -> a ∈ K \/ h1 !! a = None).

Lemma nodup_all : NoDup (L0 ++ D ++ R).
Proof. rewrite <- HR0. eapply chain_NoDup, HL. Qed.

Lemma disjoint_D a : a ∈ D -> a ∉ L0 /\ a ∉ R.
Proof.
  intros Ha. pose proof nodup_all as Hnd. apply NoDup_app in Hnd as (_ & H1 & H2).
  apply NoDup_app in H2 as (_ & H2 & _). split; [|auto]. intros Hin. apply (H1 a Hin). set_solver.
Qed.

(** No host but the local ones is left. *)
Lemma pruned_local : K = [] -> R = [] -> L0 ++ R0 <> [] -> pruned h0 (L0 ++ R0) (1, list1) h1 L0.
Proof.
  intros HK HR Hne.
  assert (forall a, a ∈ L0 -> a ∉ D) as HLD by (intros a Ha Hd; by apply disjoint_D in Hd as [? _]).
  split.
  - pose proof (pr_chain _ _ _ _ _ _ _ _ _ HP) as Hch. by rewrite HK, HR, app_nil_r in Hch.
  - by rewrite decide_False.
  - eapply host_le_unch; [exact Hu1|done|]. eapply StronglySorted_app_1_l, HL.
  - set_solver.
  - intros a [Ha|Ha]%elem_of_app Hp; [done|]. specialize (Hfar a Ha). lia.
  - apply HP.
  - intros a [Ha|Ha]%elem_of_app Hn; [done|]. rewrite HR0, HR, app_nil_r in Ha.
    destruct (Hgone a Ha) as [Hin|]; [|done]. rewrite HK in Hin. set_solver.
  - apply HP.
Qed.

(** The hosts of the first part of the new list. *)
Lemma start_moving v : moving h0 (L0 ++ R0) v h1 list1 None (L0 ++ K ++ R) [].
Proof.
  split; [apply HP|done| |apply HP|constructor|set_solver|rewrite app_nil_r; apply HP|apply HP].
  rewrite app_nil_r. eapply chain_NoDup, HP.
Qed.

Lemma prox_h1 a : a ∈ L0 ++ K ++ R -> prox h1 a = prox h0 a.
Proof. intros Ha. eapply kept_prox; [apply HP|]. eapply lseg_live; [apply HP|done]. Qed.

(** The end of the function: the first part of the new list, the rest, and the old list. *)
Definition finish (fuel : nat) (first : positive) (list : ptr) (l : positive) (last : ptr) : RM (Z * ptr) :=
  c ← count_loop fuel first last (Counts 0 0 0 0 0 0);
  let selected_version := select_version c in
  '(list, new) ← move_loop fuel selected_version list None l last;
  '(list, new) ← rest_loop use_hostname fuel selected_version port list new last None;
  free_host_list list;;
  mret (1, new).

(** The chosen version. *)
Let v : Z := select_version (foldl (count_at h1) (Counts 0 0 0 0 0 0) K).

(** The hosts [N] that are in the new list when the old one holds [S]. *)
Definition finished h S N : Prop :=
  S ++ N ≡ₚ L0 ++ K ++ R /\
  filter (fun a => chosen v h1 a = true) (L0 ++ K) ⊆ N /\
  filter (fun a => chosen v h1 a = false) (L0 ++ K) ⊆ S /\
  unch h1 h (L0 ++ K ++ R).

Lemma count_K fuel net f :
  K <> [] -> first = Some f -> (length K <= fuel)%nat ->
  reads (count_loop fuel f (head R) (Counts 0 0 0 0 0 0)) (RS h1 net)
    (foldl (count_at h1) (Counts 0 0 0 0 0 0) K).
Proof.
  intros HK Hf Hlen. pose proof (pr_first _ _ _ _ _ _ _ _ _ HP) as E. rewrite Hf in E.
  pose proof (pr_chain _ _ _ _ _ _ _ _ _ HP) as Hch. apply lseg_app in Hch as (r & _ & Hch).
  pose proof (chain_NoDup _ _ _ Hch) as Hnd. apply lseg_app in Hch as (q & H1 & H2).
  destruct K as [|k K']; [done|]. injection E as ->. destruct H1 as [_ H1].
  assert (q = head R) as -> by (destruct R; [by inversion H2|by destruct H2 as [-> _]]).
  apply count_loop_reads; [by split| |simpl in Hlen; lia].
  intros b Hb E. destruct R as [|c R']; [done|]. injection E as ->.
  apply NoDup_app in Hnd as (_ & Hd & _). apply (Hd c); set_solver.
Qed.

Lemma filter_chosen {P : positive -> bool} (l : list positive) :
  filter (fun a => P a = true) l ++ filter (fun a => P a = false) l ≡ₚ l.
Proof.
  induction l as [|a l IH]; [done|]. rewrite !filter_cons. destruct (P a) eqn:E;
    repeat case_decide; try done; simpl.
  - by rewrite IH.
  - rewrite <- Permutation_middle. by rewrite IH.
Qed.

Lemma finish_runs fuel f b :
  K <> [] -> first = Some f -> list1 = Some b -> (length (L0 ++ R0) <= fuel)%nat ->
  runs h1 (finish fuel f list1 b (head R)) (fun r h' => exists S N h2 list2,
    moving h0 (L0 ++ R0) v h2 list2 r.2 S N /\ finished h2 S N /\ r.1 = 1 /\
    forall a, h' !! a = if decide (a ∈ S) then None else h2 !! a).
Proof.
  intros HK Hf Hb Hfuel. unfold finish.
  pose proof (pr_chain _ _ _ _ _ _ _ _ _ HP) as Hch. pose proof (chain_NoDup _ _ _ Hch) as Hnd.
  assert (length L0 + length K + length R <= fuel)%nat as Hlen.
  { enough (length K <= length D)%nat by (rewrite HR0, !length_app in Hfuel; lia).
    apply submseteq_length, NoDup_submseteq; [|done].
    apply NoDup_app in Hnd as (_ & _ & Hnd). by apply NoDup_app in Hnd as [? _]. }
  eapply runs_reads.
  { intros net. apply (count_K fuel net f HK Hf). lia. }
  fold v. destruct (L0 ++ K) as [|b' T] eqn:ET; [apply app_eq_nil in ET as [_ ?]; done|].
  assert (b' = b) as ->.
  { rewrite app_assoc, ET in Hch. destruct Hch as [E _]. congruence. }
  eapply runs_bind.
  { apply (move_loop_runs h0 (L0 ++ R0) v T fuel h1 list1 None [] b R []).
    - simpl. change (b :: T ++ R) with ((b :: T) ++ R). rewrite <- ET, <- app_assoc. apply start_moving.
    - apply (f_equal length) in ET. rewrite length_app in ET. simpl in ET. lia. }
  rewrite <- ET. intros [list2 new2] h2 (N1 & Hmv & HN1 & Hu2). simpl in Hmv.
  eapply runs_bind.
  { apply (rest_loop_runs h0 (L0 ++ R0) v use_hostname port R); [exact Hmv|done| |lia].
    intros a x Ha Hx. destruct (mv_kept _ _ _ _ _ _ _ _ Hmv a x Hx) as [_ (x0 & Hx0 & E)].
    apply fixed_prox in E as [_ ->].
    destruct (lseg_live _ _ _ _ a Hch ltac:(set_solver)) as [y Hy].
    destruct (pr_kept _ _ _ _ _ _ _ _ _ HP a y Hy) as [_ (y0 & Hy0 & E)].
    apply fixed_prox in E as [_ E]. rewrite Hx0 in Hy0. injection Hy0 as <-. rewrite <- E.
    by apply (pr_named _ _ _ _ _ _ _ _ _ HP a y). }
  intros [list3 new3] h3 (S & N & Hmv3 & Hperm & HS & HN & Hu3). simpl in Hmv3.
  unfold free_host_list.
  eapply (runs_bind _ _ _ (fun _ h' => forall a, h' !! a = if decide (a ∈ S) then None else h3 !! a)).
  { apply runs_fuel. eapply runs_bind; [apply (free_host_loop_runs S); [apply Hmv3|]|].
    - eapply chain_length, Hmv3.
    - intros u h4 H4. apply runs_ret. exact H4. }
  intros u h4 H4. apply runs_ret. exists S, N, h3, list3. split_and!; [done| |done|done].
  rewrite app_nil_r in HN1. repeat split.
  - rewrite Hperm, HN1, (Permutation_app_comm R), app_assoc, app_assoc. f_equiv.
    rewrite Permutation_app_comm. apply filter_chosen.
  - intros a Ha. apply HN. by rewrite HN1.
  - done.
  - apply (unch_trans h1 h2 h3 _ _ _ Hu2 Hu3); [|set_solver].
    intros a [_ Ha]%list_elem_of_filter. set_solver.
Qed.

Section Finished.
Context (h2 h' : gmap positive host) (list2 new : ptr) (S N : list positive).
Context (Hmv : moving h0 (L0 ++ R0) v h2 list2 new S N) (Hfin : finished h2 S N).
Context (Hfree : forall a, h' !! a = if decide (a ∈ S) then None else h2 !! a).

Lemma finished_new a : a ∈ N -> a ∉ S /\ h' !! a = h2 !! a.
Proof.
  intros Ha. pose proof (mv_nodup _ _ _ _ _ _ _ _ Hmv) as Hnd. apply NoDup_app in Hnd as (_ & Hd & _).
  assert (a ∉ S) by (intros Hin; by apply (Hd a Hin)). split; [done|]. by rewrite Hfree, decide_False.
Qed.

Lemma finished_pruned : L0 ++ R0 <> [] -> pruned h0 (L0 ++ R0) (1, new) h' N.
Proof.
  intros Hne. destruct Hfin as (Hperm & Hch & Hnch & Hu2).
  assert (forall a, a ∈ S ++ N -> a ∈ L0 ++ R0) as Hsub.
  { intros a. rewrite Hperm, HR0. set_solver. }
  assert (unch h2 h' S) as Hu' by (intros a Ha; by rewrite Hfree, decide_False).
  split.
  - apply (lseg_frame h2); [|apply Hmv]. intros a Ha. by apply finished_new.
  - by rewrite decide_False.
  - eapply host_le_unch; [exact Hu'| |apply Hmv]. intros a Ha. by apply finished_new.
  - intros a Ha. apply Hsub. set_solver.
  - intros a [Ha|Ha]%elem_of_app Hp; [|specialize (Hfar a Ha); lia].
    apply Hch, list_elem_of_filter. split; [|set_solver]. unfold chosen.
    rewrite prox_h1, Hp by set_solver. by rewrite orb_true_r.
  - intros a x Hx. rewrite Hfree in Hx. case_decide; [done|]. by apply Hmv.
  - intros a Ha Hn. rewrite Hfree. case_decide as HS; [done|].
    assert (a ∉ L0 ++ K ++ R) as Hout by (rewrite <- Hperm; set_solver).
    specialize (Hu2 a Hout). destruct (Hgone a) as [?|Hnone]; [set_solver..|].
    rewrite Hnone in Hu2. by destruct (h2 !! a).
  - intros b Hb. rewrite Hfree, decide_False by (intros Hin; apply Hb, Hsub; set_solver). by apply Hmv.
Qed.

Lemma finished_selection : K <> [] -> selection h0 (L0 ++ R0) h' N v K h1.
Proof.
  intros HK. destruct Hfin as (Hperm & Hch & Hnch & Hu2).
  pose proof (pr_near _ _ _ _ _ _ _ _ _ HP) as Hnear.
  assert (forall a, a ∈ K -> prox h0 a = p) as HKp.
  { intros a Ha. rewrite <- prox_h1 by set_solver. auto. }
  assert (K ⊆ R0) as HKR by (rewrite HR0; set_solver).
  destruct (exists_last HK) as (K' & k & EK). assert (k ∈ K) as Hk by (rewrite EK; set_solver).
  assert (PROXIMITY_LOCAL < p) as Hp by (rewrite <- (HKp k Hk); apply Hfar; set_solver).
  destruct (selected_version h1 K) as (Hv1 & Hv2 & Hv3); [done| |apply HP|].
  { intros a Ha. eapply lseg_live; [apply HP|set_solver]. }
  split; [done| |set_solver| | |done].
  - intros a Ha. unfold ver. rewrite (proj2 (finished_new a Ha)). by apply Hmv.
  - exists p. split_and!; [lia|done|]. intros a Ha.
    assert (a ∈ L0 ++ K ++ R) as [Hin|[Hin|Hin]%elem_of_app]%elem_of_app by (rewrite <- Hperm; set_solver).
    + left. auto.
    + right. by rewrite (HKp a Hin).
    + right. pose proof (hl_sorted _ _ _ HL) as Hs. apply StronglySorted_app_1_r in Hs. rewrite HR0 in Hs.
      pose proof (StronglySorted_app_1_elem_of _ _ _ k a Hs ltac:(set_solver) Hin) as Hle.
      rewrite <- (HKp k Hk). unfold host_le in Hle. lia.
  - intros a Ha. assert (chosen v h1 a = flag (ver h1 a) v) as Hc.
    { unfold chosen. rewrite prox_h1, (HKp a Ha) by set_solver.
      destruct (p =? PROXIMITY_LOCAL) eqn:E; boolify; [lia|]. apply orb_false_r. }
    split; intros H.
    + destruct (flag (ver h1 a) v) eqn:E; [done|]. exfalso. destruct (finished_new a H) as [HS _].
      apply HS, Hnch, list_elem_of_filter. split; [done|set_solver].
    + apply Hch, list_elem_of_filter. split; [by rewrite Hc|set_solver].
Qed.

End Finished.

End Main.

(** The whole function. *)
Lemma prune_run string_options mount_wait kern_vers use_hostname vers port h list l :
  host_list h list l ->
  runs h (prune_host_list string_options mount_wait kern_vers use_hostname list vers port)
    (fun r h' => exists l', pruned h l r h' l' /\ selected h l h' l').
Proof.
  intros HL. unfold prune_host_list. destruct list as [b|].
  2: { pose proof (hl_chain _ _ _ HL) as E%chain_None. subst. apply runs_ret. exists [].
       split; [|by left]. split; try done; [constructor|apply kept_refl, HL]. }
  destruct (split_local h (Some b) l HL) as (L0 & R0 & -> & Hlocal & Hfar & Hsplit).
  assert (L0 ++ R0 <> []) as Hne.
  { intros E. pose proof (hl_chain _ _ _ HL) as Hch. rewrite E in Hch. by inversion Hch. }
  assert (runs h (mret (1, Some b)) (fun r h' => exists l', pruned h (L0 ++ R0) r h' l' /\
    selected h (L0 ++ R0) h' l')) as Hsame.
  { apply runs_ret. exists (L0 ++ R0). split; [by apply pruned_same|by left]. }
  apply runs_fuel. eapply runs_seek; [apply HL|]. rewrite Hsplit. simpl.
  destruct (head R0) as [a|] eqn:Ha; [|done].
  assert (a ∈ R0) as HaR by by apply head_Some_elem_of.
  destruct (lseg_live _ _ _ _ a (hl_chain _ _ _ HL) ltac:(set_solver)) as [x Hx].
  eapply runs_load; [done|]. destruct (_ && bool_decide _); [done|]. clear Hsame.
  pose proof (chain_length _ _ _ (hl_chain _ _ _ HL)) as Hlen.
  rewrite <- Ha. eapply runs_bind.
  { apply (probe_loop_runs h (L0 ++ R0) vers port R0 _ _ _ _ _ L0 []).
    - by eapply start_probing.
    - rewrite length_app in Hlen. lia. }
  intros [[list1 first1] this1] h1 (p & K & D & R & HR0 & HP & Hthis & HKR & Hu1 & HKD & Hgone).
  simpl in HP, Hthis, HKR. subst this1.
  pose proof (pr_first _ _ _ _ _ _ _ _ _ HP) as Hfirst. destruct first1 as [f|].
  2: { apply runs_ret. assert (K ++ R = []) as [-> ->]%app_eq_nil by by destruct (K ++ R).
       exists L0. split; [by eapply pruned_local|]. right. by left. }
  assert (K <> []) as HK by (intros ->; by rewrite HKR in Hfirst).
  destruct list1 as [b1|].
  2: { pose proof (pr_chain _ _ _ _ _ _ _ _ _ HP) as E%chain_None. by destruct L0, K. }
  eapply runs_conseq.
  { by eapply (finish_runs use_hostname port h (Some b) L0 R0). }
  intros [ret new] h' (S & N & h2 & list2 & Hmv & Hfin & Hret & Hfree). simpl in *. subst ret. exists N. split.
  - by eapply finished_pruned.
  - right. right. do 3 eexists. by eapply finished_selection.
Qed.

(** ** The theorems *)

(** Adding a host to a list that is ordered by proximity and cost returns, puts
    exactly this host into the list, keeps it ordered, and changes nothing but links. *)
Theorem add_host_ordered h list l a x :
  chain h list l -> StronglySorted (host_le h) l -> h !! a = Some x -> a ∉ l -> h_next x = None ->
  (forall b y, h !! b = Some y -> 0 <= h_cost y) ->
  runs h (add_host list a) (fun list' h' => exists l',
    chain h' list' l' /\ l' ≡ₚ a :: l /\ StronglySorted (host_le h') l' /\ same_but_links h h').
Proof.
  intros Hl Hs Ha Hnotin Hnext Hcost. eapply runs_conseq; [by apply (add_host_runs h list l a x)|].
  intros list' h' (Hl' & Hb & _). eexists. split_and!; [exact Hl'| | |done].
  - rewrite <- Permutation_middle. by rewrite insert_host_app.
  - eapply (host_le_unch h h' []); [by apply unch_links|set_solver|].
    apply insert_host_sorted; [done|eauto| |done]. intros b Hb'. by apply kept_cost with h, kept_refl.
Qed.

(** Hosts to try the definitions with. *)
Definition host_at (name : option cstring) (prox cost : Z) (next : ptr) : host :=
  Host name 1 None 16 0 None 0 0 prox 0 cost next.

Definition hosts_ex : gmap positive host :=
  <[1%positive := host_at None PROXIMITY_LOCAL 0 (Some 2%positive)]>
  (<[2%positive := host_at (Some (str "a")) PROXIMITY_SUBNET 0 (Some 3%positive)]>
  (<[3%positive := host_at (Some (str "b")) PROXIMITY_OTHER 0 None]> ∅)).

Definition host_ex4 : host := host_at (Some (str "c")) PROXIMITY_SUBNET 7 None.

Lemma hosts_ex_all (P : positive -> host -> Prop) h :
  Forall (fun ax => P ax.1 ax.2) (map_to_list h) -> forall a x, h !! a = Some x -> P a x.
Proof.
  intros H a x Hx. rewrite Forall_forall in H. apply (H (a, x)). by apply elem_of_map_to_list.
Qed.

Lemma add_host_ordered_witness :
  runs (<[4%positive := host_ex4]> hosts_ex) (add_host (Some 1%positive) 4) (fun list' h' => exists l',
    chain h' list' l' /\ l' ≡ₚ [4; 1; 2; 3]%positive /\ StronglySorted (host_le h') l' /\
    same_but_links (<[4%positive := host_ex4]> hosts_ex) h').
Proof.
  eapply (add_host_ordered _ _ [1; 2; 3]%positive 4 host_ex4).
  - repeat (split; [reflexivity|]; eexists; split; [reflexivity|]). reflexivity.
  - repeat constructor; unfold host_le; vm_compute; (left; reflexivity).
  - reflexivity.
  - intros H. apply (bool_decide_eq_true (4%positive ∈ [1; 2; 3]%positive)) in H. discriminate H.
  - reflexivity.
  - apply hosts_ex_all. apply (bool_decide_eq_true (Forall (fun ax : positive * host => 0 <= h_cost ax.2) _)).
    vm_compute. reflexivity.
Defined.

(** Pruning a list of hosts returns for every behaviour of the network. The hosts
    it leaves are hosts of the list, with nothing changed but the version, the cost
    and the link; they are ordered by proximity and cost; no local host is dropped;
    a host that is dropped is freed; and no other host is touched. *)
Theorem prune_host_list_keeps string_options mount_wait kern_vers use_hostname vers port h list l :
  host_list h list l ->
  runs h (prune_host_list string_options mount_wait kern_vers use_hostname list vers port)
    (fun r h' => exists l', pruned h l r h' l').
Proof.
  intros HL. eapply runs_conseq; [by apply prune_run|]. intros r h' (l' & H & _). eauto.
Qed.

Lemma hosts_ex_list : host_list hosts_ex (Some 1%positive) [1; 2; 3]%positive.
Proof.
  split.
  - repeat (split; [reflexivity|]; eexists; split; [reflexivity|]). reflexivity.
  - repeat constructor; unfold host_le; vm_compute; (left; reflexivity).
  - apply hosts_ex_all. apply (bool_decide_eq_true (Forall (fun ax : positive * host => 0 <= h_cost ax.2) _)).
    vm_compute. reflexivity.
  - intros a. revert a. apply Forall_forall. repeat constructor; vm_compute; discriminate.
  - intros a x _. revert a x.
    apply (hosts_ex_all (fun _ x => h_name x = None -> h_proximity x = PROXIMITY_LOCAL)).
    vm_compute map_to_list. repeat constructor; simpl; intros ?; first [reflexivity|discriminate].
Defined.

Lemma prune_host_list_keeps_witness :
  runs hosts_ex (prune_host_list true (-1) (KERNEL_VERSION 6 1 0) false (Some 1%positive) 0x73 0)
    (fun r h' => exists l', pruned hosts_ex [1; 2; 3]%positive r h' l').
Proof. apply prune_host_list_keeps, hosts_ex_list. Defined.



(** ** Where the probes go wrong *)

Definition ok_answer : answer := Answer 0 RPC_SUCCESS 2049 (1 # 1000)%Q 0%Q.
Definition timeout_answer : answer := Answer 0 RPC_TIMEDOUT 0 0%Q 0%Q.

(** A host whose port mapper times out for version 4 and that then answers for
    version 3 is reported as not usable: the time out is left in [supported], which
    is not a set of versions then. With the same answers but another error for
    version 4 the host is accepted. *)
Theorem vers_timeout_loses_host :
  let host := <[2%positive := host_at (Some (str "a")) PROXIMITY_SUBNET 0 None]> ∅ in
  let ask_all net := get_vers_and_cost 2 0x71 0 (RS host net) [] in
  (fun r => r.1.1) <$> ask_all [ok_answer; ok_answer; timeout_answer; ok_answer; ok_answer; ok_answer]
    = Some 0 /\
  (fun r => r.1.1) <$> ask_all [ok_answer; ok_answer; Answer 0 RPC_OTHER 0 0%Q 0%Q; ok_answer; ok_answer; ok_answer]
    = Some 1.
Proof. vm_compute. split; reflexivity. Qed.

(** A host of the rest of the list whose ping times out is accepted, with the
    cost 0, and is then placed in front of the hosts at its distance that answer. *)
Theorem ping_timeout_accepted :
  let host := <[2%positive := host_at (Some (str "a")) PROXIMITY_OTHER 9 None]> ∅ in
  (fun r => (r.1.1, cost (rs_hosts r.1.2) 2)) <$>
    get_supported_ver_and_cost 2 NFS4_TCP_SUPPORTED (-1) (RS host [ok_answer; timeout_answer]) []
  = Some (1, 0).
Proof. vm_compute. reflexivity. Qed.
