(* ===== verification/Location.v ===== *)
(** * Locations of replicated mounts (modules/replicated.c)

    [parse_location] takes a location such as "h1(2),h2:/path h3:/other" apart and
    makes the list of hosts that [prune_host_list] works on. It works in a copy of
    the string, in which it writes NULs; the copy is a buffer that ends with a NUL
    and pointers into it are positions. What [getaddrinfo] and [getifaddrs] answer
    are parameters. *)

From S2P Require Import Prelude CString Memory Selectors Replicated ReplicatedProbe ReplicatedProps ReplicatedPrune.
From stdpp Require Import sorting.
Open Scope Z_scope.

(** ** Strings *)

(** [strspn]. *)
Fixpoint strspn (s : cstring) (set : list ascii) : nat :=
  match s with
  | [] => O
  | c :: s' => if bool_decide (c ∈ set) then S (strspn s' set) else O
  end.

(** The position of the first ":/". *)
Fixpoint find_colon_slash (s : cstring) : option nat :=
  match s with
  | [] => None
  | _ :: s' => if strneq s (str ":/") 2 then Some O else S <$> find_colon_slash s'
  end.

Definition TAB : ascii := "009"%char.
Definition is_blank (c : ascii) : bool := (c =a " ") || bool_decide (c = TAB).

(** ** Adding hosts *)

Section Location.
(** IPv6 support, the interfaces, and the resolver: the flag is [AI_NUMERICHOST]. *)
Context (libtirpc : bool) (ifs : option (list ifaddr)).
Context (getaddrinfo : bool -> cstring -> option (list sockaddr)).

(** The result is the return value and the new value of [*list]. *)
Definition add_new_host (list : ptr) (host : cstring) (ent_num weight : Z) (addr : sockaddr)
    (rr options : Z) : RM (Z * ptr) :=
  let prx := get_proximity libtirpc addr ifs in
  if prx =? PROXIMITY_UNSUPPORTED then mret (1, list) else
  let prx := if negb (prx =? PROXIMITY_LOCAL) &&
                flag options (Z.lor MOUNT_FLAG_USE_WEIGHT_ONLY MOUNT_FLAG_RANDOM_SELECT)
             then PROXIMITY_SUBNET else prx in
  if prx =? PROXIMITY_ERROR then mret (0, list) else
  match (match addr with
         | V4 _ => Some INET_ADDRSTRLEN
         | V6 _ => Some INET6_ADDRSTRLEN
         | OtherFamily => None
         end) with
  | None => mret (0, list)
  | Some addr_len =>
      new ← new_host (Some host) ent_num (Some addr) addr_len prx weight options;
      match new with
      | None => mret (0, list)
      | Some new =>
          list ← add_host list new;
          update new (set_h_rr rr);;
          mret (1, list)
      end
  end.

(** The loops over the addresses: [ret] is its value before the loop. *)
Fixpoint add_addrs_loop (list : ptr) (host : cstring) (ent_num weight : Z)
    (addrs : Datatypes.list sockaddr) (rr options ret : Z) : RM (Z * ptr) :=
  match addrs with
  | [] => mret (ret, list)
  | addr :: addrs =>
      '(ret, list) ← add_new_host list host ent_num weight addr rr options;
      if ret =? 0 then mret (ret, list)
      else add_addrs_loop list host ent_num weight addrs rr options ret
  end.

(** The addresses that count for round robin. *)
Definition rr_counts (addrs : list sockaddr) : nat * nat :=
  (length (filter (fun a => match a with V4 s => negb (s =? INADDR_LOOPBACK) | _ => false end = true) addrs),
   length (filter (fun a => match a with V6 w => negb (is_loopback w) && negb (is_linklocal w)
                            | _ => false end = true) addrs)).

(** The name without its brackets, and whether the pointer has moved. *)
Definition strip_brackets (host : cstring) : cstring * bool :=
  match host with
  | c :: s =>
      if (c =a "[") && bool_decide (last host = Some "]"%char)
      then (removelast s, true) else (host, false)
  | [] => (host, false)
  end.

Definition add_host_addrs (list : ptr) (host : cstring) (ent_num weight options : Z) : RM (Z * ptr) :=
  ok ← malloc;
  if negb ok then mret (0, list) else
  let '(name, moved) := strip_brackets host in
  match getaddrinfo true name with
  | Some ni => add_addrs_loop list host ent_num weight ni 0 options 0
  | None =>
      match getaddrinfo false name with
      | None =>
          (** [free(name)], which is not the address that [strdup] has returned when
              the pointer has moved *)
          if moved : bool then stuck else mret (0, list)
      | Some ni =>
          let '(rr4, rr6) := rr_counts ni in
          let rr := if (1 <? Z.of_nat rr4) || (1 <? Z.of_nat rr6) then 1 else 0 in
          add_addrs_loop list host ent_num weight ni rr options 0
      end
  end.

Fixpoint add_path_loop (fuel : nat) (this : ptr) (path : cstring) : RM Z :=
  match this with
  | None => mret 1
  | Some a =>
      h ← load a;
      r ← match h_path h with
          | None => ok ← malloc;
                    if negb ok then mret false else update a (set_h_path (Some path));; mret true
          | Some _ => mret true
          end;
      if negb r then mret 0 else
      match fuel with
      | O => stuck
      | S fuel => add_path_loop fuel (h_next h) path
      end
  end.

Definition add_path (hosts : ptr) (path : cstring) : RM Z :=
  fuel ← heap_fuel; add_path_loop fuel hosts path.

Definition add_local_path (hosts : ptr) (path : cstring) : RM (Z * ptr) :=
  ok ← malloc;
  if negb ok then mret (0, hosts) else
  ok ← malloc;
  if negb ok then mret (0, hosts) else
  a ← new_obj (Host None 0 None 0 0 (Some path) NFS_VERS_MASK 0 PROXIMITY_LOCAL 0 0 None);
  hosts ← add_host hosts a;
  mret (1, hosts).

(** ** Parsing *)

(** The position of the delimiter in the string. *)
Definition seek_delim (s : cstring) : option nat :=
  let delim := find_pos (fun c => bool_decide (c ∈ ["("; ","; " "; TAB; ":"]%char)) s in
  match delim with
  | Some d =>
      if negb (nth d s NUL =a ":") &&
         ((d =? 0)%nat || negb (bool_decide (nth (d - 1) s NUL = BACKSLASH)))
      then Some d else find_colon_slash s
  | None => find_colon_slash s
  end.

(** The walk back from the colon to a blank or a NUL. *)
Fixpoint walk_back (buf : list ascii) (next : nat) : option nat :=
  match buf !! next with
  | None => None
  | Some c =>
      if bool_decide (c = NUL) || is_blank c then Some next
      else match next with
           | O => None
           | S next => walk_back buf next
           end
  end.

(** The weight in brackets: the position behind it, the weight and the buffer.
    [None] is a missing bracket. *)
Definition parse_weight (buf : list ascii) (delim : nat) : option (nat * Z * list ascii) :=
  if bool_decide (buf !! delim = Some "("%char) then
    let w := S delim in
    let buf := <[delim := NUL]> buf in
    match find_pos (fun c => c =a ")") (cstr_at buf w) with
    | Some o => let buf := <[w + o := NUL]>%nat buf in Some (S (w + o), atoi (cstr_at buf w), buf)
    | None => None
    end
  else Some (delim, 0, buf).

(** The end of the path that starts at a position, and the buffer with its NUL. *)
Definition end_path (buf : list ascii) (path : nat) : option (nat * list ascii) :=
  match find_colon_slash (cstr_at buf path) with
  | Some o =>
      match walk_back buf (path + o)%nat with
      | Some b => Some (S b, <[b := NUL]> buf)
      | None => None
      end
  | None => Some (path + length (cstr_at buf path), buf)%nat
  end.

(** [free_host_list(hosts); return 0]. *)
Definition parse_error (hosts : ptr) : RM (Z * ptr) := hosts ← free_host_list hosts; mret (0, hosts).

Fixpoint parse_loop (fuel : nat) (options : Z) (buf : list ascii) (p : option nat) (hosts : ptr)
    (empty : bool) (ent_num : Z) : RM (Z * ptr) :=
  match p with
  | None => mret (1, hosts)
  | Some p =>
      match buf !! p with
      | None => stuck
      | Some c =>
          if bool_decide (c = NUL) then mret (1, hosts) else
          match fuel with
          | O => stuck
          | S fuel =>
              let p := (p + strspn (cstr_at buf p) [" "; TAB; ","]%char)%nat in
              match seek_delim (cstr_at buf p) with
              | None => parse_error hosts
              | Some d =>
                  match parse_weight buf (p + d) with
                  | None => parse_error hosts
                  | Some (delim, weight, buf) =>
                      match buf !! delim with
                      | None => stuck
                      | Some c =>
                          if c =a ":" then
                            let buf := <[delim := NUL]> buf in
                            let path := S delim in
                            match end_path buf path with
                            | None => stuck
                            | Some (next, buf) =>
                                if negb (p =? delim)%nat then
                                  '(ok, hosts) ← add_host_addrs hosts (cstr_at buf p) ent_num (u32 weight) options;
                                  if (ok =? 0) && empty
                                  then parse_loop fuel options buf (Some next) hosts empty ent_num
                                  else
                                    ok ← add_path hosts (cstr_at buf path);
                                    if ok =? 0 then parse_error hosts
                                    else parse_loop fuel options buf (Some next) hosts empty (ent_num + 1)
                                else
                                  '(ok, hosts) ← add_local_path hosts (cstr_at buf path);
                                  parse_loop fuel options buf (Some next) hosts empty
                                    (if ok =? 0 then ent_num else ent_num + 1)
                            end
                          else if negb (bool_decide (c = NUL)) then
                            let buf := <[delim := NUL]> buf in
                            let next := S delim in
                            '(ok, hosts) ← add_host_addrs hosts (cstr_at buf p) ent_num (u32 weight) options;
                            if ok =? 0
                            then parse_loop fuel options buf (Some next) hosts empty ent_num
                            else parse_loop fuel options buf (Some next) hosts false (ent_num + 1)
                          else parse_loop fuel options buf None hosts empty (ent_num + 1)
                      end
                  end
              end
          end
      end
  end.

Definition parse_location (hosts : ptr) (list : option cstring) (options : Z) : RM (Z * ptr) :=
  match list with
  | None => mret (0, hosts)
  | Some list =>
      ok ← malloc;
      if negb ok then mret (0, hosts)
      else parse_loop (length list) options (list ++ [NUL]) (Some O) hosts true 1
  end.

End Location.

(** * What [parse_location] guarantees

    It stays inside of its buffer, it ends, and the list of hosts it makes is what
    [prune_host_list] expects. *)

Implicit Types (h : gmap positive host) (l : list positive) (buf : list ascii).

(** ** Positions *)

Section Buffer.
Context (n : nat).

(** The buffer has [n] characters before its last one, a NUL, and no bracket. *)
Record buf_ok buf : Prop := Buf_ok {
  bo_len : length buf = S n;
  bo_nul : buf !! n = Some NUL;
  bo_bracket : "["%char ∉ buf
}.

Lemma buf_ok_insert buf i : buf_ok buf -> buf_ok (<[i := NUL]> buf).
Proof.
  intros [Hl Hn Hb]. split.
  - by rewrite length_insert.
  - destruct (decide (i = n)) as [->|Hne]; [|by rewrite list_lookup_insert_ne].
    apply list_lookup_insert_eq. lia.
  - intros [j Hj]%list_elem_of_lookup. apply list_lookup_insert_Some in Hj as [(_ & [=] & _)|[_ Hj]].
    apply Hb. by eapply list_elem_of_lookup_2.
Qed.

Lemma cstr_length buf p : buf_ok buf -> (p <= n)%nat -> (p + length (cstr_at buf p) <= n)%nat.
Proof.
  intros [Hl Hn _] Hp. enough (length (cstr_at buf p) <= n - p)%nat by lia. apply before_length.
  rewrite lookup_drop. by replace (p + (n - p))%nat with n by lia.
Qed.

Lemma cstr_no_bracket buf p : buf_ok buf -> "["%char ∉ cstr_at buf p.
Proof.
  intros [_ _ Hb] [i Hi]%list_elem_of_lookup. apply Hb. by eapply list_elem_of_lookup_2, cstr_lookup.
Qed.

Lemma find_colon_slash_Some s d : find_colon_slash s = Some d -> s !! d = Some ":"%char.
Proof.
  revert d. induction s as [|x s IH]; intros d; cbn [find_colon_slash]; [done|].
  destruct (strneq (x :: s) (str ":/") 2) eqn:E.
  - intros [= <-]. apply strneq_true in E. simpl in E. by injection E as -> _.
  - destruct (find_colon_slash s) as [d'|]; simpl; [|done]. intros [= <-]. by apply IH.
Qed.

Lemma seek_delim_Some s d : seek_delim s = Some d -> exists c, s !! d = Some c.
Proof.
  unfold seek_delim. destruct (find_pos _ s) as [d'|] eqn:E.
  - destruct (_ && _).
    + intros [= <-]. apply find_pos_Some in E as (c & Hc & _). eauto.
    + intros H%find_colon_slash_Some. eauto.
  - intros H%find_colon_slash_Some. eauto.
Qed.

Lemma strspn_length s set : (strspn s set <= length s)%nat.
Proof. induction s as [|c s IH]; simpl; [done|]. case_bool_decide; lia. Qed.

Lemma seek_delim_pos buf p d :
  buf_ok buf -> (p <= n)%nat -> seek_delim (cstr_at buf p) = Some d -> (p + d < n)%nat.
Proof.
  intros Hb Hp [c Hc]%seek_delim_Some. apply lookup_lt_Some in Hc.
  pose proof (cstr_length buf p Hb Hp). lia.
Qed.

Lemma parse_weight_Some buf delim delim' w buf' :
  buf_ok buf -> (delim < n)%nat -> parse_weight buf delim = Some (delim', w, buf') ->
  buf_ok buf' /\ (delim <= delim' <= n)%nat.
Proof.
  intros Hb Hd. unfold parse_weight. case_bool_decide; [|intros [= <- <- <-]; split; [done|lia]].
  destruct (find_pos _ _) as [o|] eqn:E; intros [= <- <- <-].
  assert (buf_ok (<[delim := NUL]> buf)) as Hb1 by by apply buf_ok_insert.
  split; [by apply buf_ok_insert|]. apply find_pos_Some in E as (c & Hc & _).
  apply lookup_lt_Some in Hc. pose proof (cstr_length _ (S delim) Hb1 ltac:(lia)). lia.
Qed.

(** The walk back stops at the NUL behind the host name at the latest. *)
Lemma walk_back_Some buf delim next :
  buf !! delim = Some NUL -> (delim <= next < length buf)%nat ->
  exists b, walk_back buf next = Some b /\ (delim <= b <= next)%nat.
Proof.
  intros Hn. induction next as [|next IH]; intros Hr; cbn [walk_back].
  - assert (delim = 0)%nat as -> by lia. rewrite Hn. exists O. split; [done|lia].
  - destruct (lookup_lt_is_Some_2 buf (S next) ltac:(lia)) as [c E]. rewrite E.
    destruct (bool_decide (c = NUL) || is_blank c) eqn:Ec; [exists (S next); split; [done|lia]|].
    destruct (decide (delim = S next)) as [->|].
    { assert (c = NUL) as -> by congruence. done. }
    destruct IH as (b & Hb & ?); [lia|]. exists b. split; [done|lia].
Qed.

Lemma end_path_Some buf delim :
  buf_ok buf -> (delim < n)%nat ->
  exists next buf', end_path (<[delim := NUL]> buf) (S delim) = Some (next, buf') /\
    buf_ok buf' /\ (delim < next <= n)%nat.
Proof.
  intros Hb Hd. assert (buf_ok (<[delim := NUL]> buf)) as Hb1 by by apply buf_ok_insert.
  unfold end_path. pose proof (cstr_length _ (S delim) Hb1 ltac:(lia)) as Hlen.
  destruct (find_colon_slash _) as [o|] eqn:E; [|eexists _, _; split; [done|]; split; [done|lia]].
  apply find_colon_slash_Some, lookup_lt_Some in E.
  destruct (walk_back_Some (<[delim := NUL]> buf) delim (S delim + o)) as (b & -> & Hr).
  - apply list_lookup_insert_eq. rewrite (bo_len _ Hb). lia.
  - rewrite (bo_len _ Hb1). lia.
  - eexists _, _. split; [done|]. split; [by apply buf_ok_insert|lia].
Qed.

End Buffer.

(** ** Making hosts *)

(** The list is in order, and every host of the store is on it. *)
Definition owns h l : Prop := forall a x, h !! a = Some x -> a ∈ l.
Definition hosts_ok h (list : ptr) : Prop := exists l, host_list h list l /\ owns h l.

Lemma owns_update h l a x y : owns h l -> h !! a = Some x -> owns (<[a := y]> h) l.
Proof. intros Ho Hx b z Hz. apply lookup_insert_Some in Hz as [[-> _]|[_ Hz]]; eauto. Qed.

Lemma host_list_update h list l a x y :
  host_list h list l -> h !! a = Some x -> h_next y = h_next x -> h_proximity y = h_proximity x ->
  h_cost y = h_cost x -> h_name y = h_name x -> host_list (<[a := y]> h) list l.
Proof.
  intros [Hc Hs Hcost Hp Hn] Hx E1 E2 E3 E4.
  assert (forall b, prox (<[a := y]> h) b = prox h b /\ cost (<[a := y]> h) b = cost h b) as Heq.
  { intros b. unfold prox, cost. destruct (decide (a = b)) as [->|].
    - rewrite lookup_insert_eq, Hx. simpl. auto.
    - by rewrite lookup_insert_ne. }
  split.
  - by eapply (lseg_update h _ _ _ a x).
  - eapply sorted_ext_in; [|done]. intros b c _ _. unfold host_le.
    by rewrite !(proj1 (Heq _)), !(proj2 (Heq _)).
  - intros b z Hz. apply lookup_insert_Some in Hz as [[-> <-]|[_ Hz]]; [|eauto]. rewrite E3. eauto.
  - intros b Hb. rewrite (proj1 (Heq b)). auto.
  - intros b z Hb Hz. apply lookup_insert_Some in Hz as [[-> <-]|[_ Hz]]; [|eauto].
    rewrite E4, E2. eauto.
Qed.

(** A new host in the store. *)
Lemma host_list_new h list l a x :
  host_list h list l -> h !! a = None -> 0 <= h_cost x -> host_list (<[a := x]> h) list l /\ a ∉ l.
Proof.
  intros [Hc Hs Hcost Hp Hn] Ha Hx.
  assert (a ∉ l) as Hal by (intros Hin; destruct (lseg_live _ _ _ _ a Hc Hin); congruence).
  split; [|done].
  assert (forall b, b ∈ l -> (<[a := x]> h) !! b = h !! b) as Heq
    by (intros b Hb; apply lookup_insert_ne; set_solver).
  split.
  - by apply lseg_insert.
  - eapply sorted_ext_in; [|done]. intros b c Hb Hc'. unfold host_le, prox, cost. by rewrite !Heq.
  - intros b z Hz. apply lookup_insert_Some in Hz as [[-> <-]|[_ Hz]]; eauto.
  - intros b Hb. unfold prox. rewrite Heq by done. by apply Hp.
  - intros b z Hb. rewrite Heq by done. by apply Hn.
Qed.

Lemma owns_new h l a x : owns h l -> owns (<[a := x]> h) (a :: l).
Proof. intros Ho b z Hz. apply lookup_insert_Some in Hz as [[-> _]|[_ Hz]]; [set_solver|]. apply Ho in Hz. set_solver. Qed.

Definition good_host (x : host) : Prop :=
  h_next x = None /\ 0 <= h_cost x /\ PROXIMITY_LOCAL <= h_proximity x /\
  (h_name x = None -> h_proximity x = PROXIMITY_LOCAL).

(** Adding a new host to the list. *)
Lemma add_good_host h list l a x :
  host_list h list l -> a ∉ l -> h !! a = Some x -> good_host x -> owns h (a :: l) ->
  runs h (add_host list a) (fun list' h' => hosts_ok h' list' /\ exists y, h' !! a = Some y).
Proof.
  intros [Hc Hs Hcost Hp Hn] Ha Hx (E1 & E2 & E3 & E4) Hown.
  eapply runs_conseq; [by apply (add_host_runs h list l a x)|].
  intros list' h' (Hc' & Hb & _).
  destruct (same_but_links_lookup h h' a x Hb Hx) as (y & Hy & _). split; [|eauto].
  assert (forall b, b ∈ (insert_host h l x).1 ++ a :: (insert_host h l x).2 <-> b ∈ a :: l) as Hmem.
  { intros b. rewrite <- (insert_host_app h l x) at 3. rewrite <- Permutation_middle. done. }
  eexists. split.
  2: { intros b z Hz. apply Hmem.
       destruct (same_but_links_lookup h' h b z) as (z' & Hz' & _); [by symmetry|done|eauto]. }
  split; [exact Hc'|..].
  - eapply (host_le_unch h h' []); [by apply unch_links|set_solver|].
    apply insert_host_sorted; [done..| |done]. intros b _. by apply kept_cost with h, kept_refl.
  - intros b z Hz. destruct (same_but_links_lookup h' h b z) as (z' & Hz' & E); [by symmetry|done|].
    apply nolink_fields in E as (_ & E & _). rewrite <- E. eauto.
  - intros b Hin. rewrite <- (proj1 (nolink_eq h h' b (Hb b))).
    apply Hmem, elem_of_cons in Hin as [->|Hin'].
    + unfold prox. by rewrite Hx.
    + auto.
  - intros b z Hin Hz. destruct (same_but_links_lookup h' h b z) as (z' & Hz' & E); [by symmetry|done|].
    apply nolink_fields in E as (E & _). apply fixed_prox in E as [<- <-].
    apply Hmem, elem_of_cons in Hin as [->|Hin'].
    + rewrite Hx in Hz'. by injection Hz' as <-.
    + eauto.
Qed.

Lemma runs_malloc {B} h (f : bool -> RM B) R : (forall b, runs h (f b) R) -> runs h (malloc ≫= f) R.
Proof.
  intros H. eapply triple_bind; [apply triple_malloc|]. intros b. apply H.
Qed.

Lemma runs_new {B} h x (f : positive -> RM B) R :
  runs (<[fresh (dom h) := x]> h) (f (fresh (dom h))) R -> runs h (new_obj x ≫= f) R.
Proof.
  intros H [h' net] m E. simpl in E. subst h'. rewrite bind_new_obj. by apply H.
Qed.

Lemma fresh_host h : h !! fresh (dom h) = None.
Proof. apply not_elem_of_dom, is_fresh. Qed.

(** The proximity of an address. *)
Lemma net_loop_values lt a ifs : net_loop lt a ifs ∈ [PROXIMITY_SUBNET; PROXIMITY_NET; PROXIMITY_OTHER].
Proof.
  assert (PROXIMITY_SUBNET ∈ [PROXIMITY_SUBNET; PROXIMITY_NET; PROXIMITY_OTHER] /\
          PROXIMITY_NET ∈ [PROXIMITY_SUBNET; PROXIMITY_NET; PROXIMITY_OTHER] /\
          PROXIMITY_OTHER ∈ [PROXIMITY_SUBNET; PROXIMITY_NET; PROXIMITY_OTHER]) as (H1 & H2 & H3)
    by (split_and!; apply list_elem_of_In; simpl; tauto).
  generalize dependent [PROXIMITY_SUBNET; PROXIMITY_NET; PROXIMITY_OTHER]. intros V H1 H2 H3.
  induction ifs as [|i ifs IH]; cbn [net_loop]; [exact H3|].
  destruct (usable i) as [[u|u|]|], a as [w|w|]; try exact IH.
  - destruct (_ =? _); [exact H1|]. destruct (class_mask _); [|exact IH].
    destruct (_ =? _); [exact H2|exact IH].
  - destruct (_ && _); [exact H1|exact IH].
Qed.

Lemma get_proximity_values lt a ifs :
  get_proximity lt a ifs = PROXIMITY_ERROR \/ PROXIMITY_LOCAL <= get_proximity lt a ifs.
Proof.
  assert (forall ifs', PROXIMITY_LOCAL <= net_loop lt a ifs') as Hnet.
  { intros ifs'. pose proof (net_loop_values lt a ifs') as H.
    repeat (apply elem_of_cons in H as [->|H]; [vm_compute; discriminate|]).
    by apply not_elem_of_nil in H. }
  assert (PROXIMITY_LOCAL <= PROXIMITY_UNSUPPORTED) as Hun by (vm_compute; discriminate).
  unfold get_proximity. set (go := match ifs with None => _ | Some _ => _ end).
  assert (go = PROXIMITY_ERROR \/ PROXIMITY_LOCAL <= go) as Hgo.
  { unfold go. destruct ifs as [ifs|]; [right|by left].
    destruct (local_loop lt a ifs false) as [[|]|]; [apply Hnet|done|reflexivity]. }
  clearbody go. destruct a as [w|w|]; [done| |by left].
  destruct (negb lt); [by right|]. destruct (is_linklocal w); [by right|done].
Qed.

Section Resolver.
Context (libtirpc : bool) (ifs : option (list ifaddr)).
Context (getaddrinfo : bool -> cstring -> option (list sockaddr)) (options : Z).

Definition ret_ok {A} (r : A * ptr) h : Prop := hosts_ok h r.2.

Lemma add_new_host_runs h list host ent_num weight addr rr :
  hosts_ok h list ->
  runs h (add_new_host libtirpc ifs list host ent_num weight addr rr options) ret_ok.
Proof.
  intros [l [Hl Hown]]. assert (forall r : Z, ret_ok (r, list) h) as Hsame by (intros r; by exists l).
  unfold add_new_host. pose proof (get_proximity_values libtirpc addr ifs) as Hprx.
  set (prx := get_proximity libtirpc addr ifs) in *. clearbody prx.
  destruct (prx =? PROXIMITY_UNSUPPORTED); [by apply runs_ret|].
  set (prx' := if _ && _ then _ else prx).
  assert (prx' = PROXIMITY_ERROR \/ PROXIMITY_LOCAL <= prx') as Hprx'.
  { unfold prx'. destruct (_ && _); [right; vm_compute; discriminate|done]. }
  clearbody prx'. destruct (prx' =? PROXIMITY_ERROR) eqn:E; [by apply runs_ret|]. boolify.
  destruct (match addr with V4 _ => _ | V6 _ => _ | OtherFamily => _ end) as [addr_len|]; [|by apply runs_ret].
  unfold new_host.
  eapply (runs_bind _ _ _ (fun new h' => match new with
    | None => h' = h
    | Some a => exists x, h' = <[a := x]> h /\ h !! a = None /\ good_host x
    end)).
  { do 3 (apply runs_malloc; intros []; [|by apply runs_ret]). simpl. apply runs_new. apply runs_ret.
    eexists. split; [reflexivity|]. split; [apply fresh_host|]. destruct Hprx'; [done|]. by repeat split. }
  intros [a|] h'; [|intros ->; by apply runs_ret]. intros (x & -> & Ha & Hgood).
  destruct (host_list_new h list l a x) as [Hl' Hal]; [done..|apply Hgood|].
  eapply runs_bind; [apply (add_good_host _ list l a x Hl' Hal); [by rewrite lookup_insert_eq|done|by apply owns_new]|].
  intros list' h2 [[l2 [Hl2 Hown2]] [y Hy]]. eapply runs_update; [done|]. apply runs_ret.
  exists l2. split; [by apply (host_list_update h2 list' l2 a y)|by eapply owns_update].
Qed.

Lemma add_addrs_loop_runs host ent_num weight rr addrs : forall h list ret,
  hosts_ok h list ->
  runs h (add_addrs_loop libtirpc ifs list host ent_num weight addrs rr options ret) ret_ok.
Proof.
  induction addrs as [|addr addrs IH]; intros h list ret Hl; simpl; [by apply runs_ret|].
  eapply runs_bind; [by apply add_new_host_runs|]. intros [ret' list'] h' Hl'.
  destruct (ret' =? 0); [by apply runs_ret|by apply IH].
Qed.

Lemma add_host_addrs_runs h list host ent_num weight :
  hosts_ok h list -> "["%char ∉ host ->
  runs h (add_host_addrs libtirpc ifs getaddrinfo list host ent_num weight options) ret_ok.
Proof.
  intros Hl Hb. unfold add_host_addrs. apply runs_malloc. intros []; simpl; [|by apply runs_ret].
  assert (strip_brackets host = (host, false)) as ->.
  { destruct host as [|c s]; [done|]. simpl. rewrite bool_decide_false by set_solver. done. }
  destruct (getaddrinfo true host); [by apply add_addrs_loop_runs|].
  destruct (getaddrinfo false host) as [ni|]; [|by apply runs_ret].
  destruct (rr_counts ni). by apply add_addrs_loop_runs.
Qed.

Lemma add_path_loop_runs path l0 list l : forall fuel h p,
  host_list h list (l0 ++ l) -> owns h (l0 ++ l) -> chain h p l -> (length l <= fuel)%nat ->
  runs h (add_path_loop fuel p path) (fun _ h' => hosts_ok h' list).
Proof.
  revert l0. induction l as [|a l IH]; intros l0 fuel h p Hl Hown Hp Hfuel.
  { inversion Hp. subst. destruct fuel; apply runs_ret; by eexists. }
  destruct Hp as [-> (x & Hx & Hp)]. destruct fuel as [|fuel]; simpl in Hfuel; [lia|].
  cbn [add_path_loop]. eapply runs_load; [done|].
  assert (forall y, h_next y = h_next x -> h_proximity y = h_proximity x -> h_cost y = h_cost x ->
    h_name y = h_name x ->
    runs (<[a := y]> h) (add_path_loop fuel (h_next x) path) (fun _ h' => hosts_ok h' list)) as Hgo.
  { intros y E1 E2 E3 E4. apply (IH (l0 ++ [a])); [..|by eapply (lseg_update h _ _ _ a x)|lia]; rewrite <- app_assoc.
    - by apply (host_list_update h list _ a x).
    - by eapply owns_update. }
  eapply (runs_bind _ _ _ (fun r h' => hosts_ok h' list /\ (r = true -> exists y, h' = <[a := y]> h /\
    h_next y = h_next x /\ h_proximity y = h_proximity x /\ h_cost y = h_cost x /\ h_name y = h_name x))).
  - destruct (h_path x).
    + apply runs_ret. split; [by eexists|]. intros _. exists x. by rewrite insert_id.
    + apply runs_malloc. intros [|]; simpl; [|apply runs_ret; split; [by eexists|done]].
      eapply runs_update; [done|]. apply runs_ret. split; [|by eexists].
      eexists. split; [by eapply (host_list_update h list _ a x)|by eapply owns_update].
  - intros [|] h' [Hok Hr]; simpl; [|by apply runs_ret].
    destruct (Hr eq_refl) as (y & -> & ? & ? & ? & ?). by apply Hgo.
Qed.

Lemma add_path_runs h list path :
  hosts_ok h list -> runs h (add_path list path) (fun _ h' => hosts_ok h' list).
Proof.
  intros [l [Hl Hown]]. apply runs_fuel. apply (add_path_loop_runs path [] list l); [done..|apply Hl|].
  by eapply chain_length, Hl.
Qed.

Lemma add_local_path_runs h list path :
  hosts_ok h list -> runs h (add_local_path list path) ret_ok.
Proof.
  intros [l [Hl Hown]]. unfold add_local_path.
  do 2 (apply runs_malloc; intros []; [|apply runs_ret; by exists l]). simpl. apply runs_new.
  set (x := Host _ _ _ _ _ _ _ _ _ _ _ _). set (a := fresh (dom h)).
  destruct (host_list_new h list l a x) as [Hl' Hal]; [done|apply fresh_host|done|].
  eapply runs_bind; [apply (add_good_host _ list l a x Hl' Hal); [by rewrite lookup_insert_eq|by repeat split|by apply owns_new]|].
  intros list' h2 [Hl2 _]. by apply runs_ret.
Qed.

(** What [parse_location] returns: on an error the list is empty. *)
Definition parsed (r : Z * ptr) h : Prop := hosts_ok h r.2 /\ (r.1 = 0 -> r.2 = None).

Lemma parse_error_runs h list : hosts_ok h list -> runs h (parse_error list) parsed.
Proof.
  intros [l [Hl Hown]]. unfold parse_error, free_host_list.
  eapply (runs_bind _ _ _ (fun list' h' => hosts_ok h' list' /\ list' = None)).
  - apply runs_fuel. eapply runs_bind.
    { apply (free_host_loop_runs l); [apply Hl|]. by eapply chain_length, Hl. }
    intros u h' Hfree. apply runs_ret. split; [|done]. exists [].
    assert (forall a x, h' !! a = Some x -> False) as Hnone.
    { intros a x Hx. rewrite Hfree in Hx. case_decide; [done|]. by apply Hown in Hx. }
    split; [split; [done|constructor| |set_solver|set_solver]|]; intros a x Hx; by apply Hnone in Hx.
  - intros list' h' [H ->]. by apply runs_ret.
Qed.

Lemma parse_loop_runs n : forall fuel h buf p hosts empty ent_num,
  buf_ok n buf -> hosts_ok h hosts -> (forall i, p = Some i -> (i <= n)%nat /\ (n <= fuel + i)%nat) ->
  runs h (parse_loop libtirpc ifs getaddrinfo fuel options buf p hosts empty ent_num) parsed.
Proof.
  induction fuel as [|fuel IH]; intros h buf p hosts empty ent_num Hb Hh Hp;
    (destruct p as [p|]; [|by apply runs_ret]); destruct (Hp p eq_refl) as [Hpn Hfuel]; cbn [parse_loop];
    (destruct (lookup_lt_is_Some_2 buf p ltac:(rewrite (bo_len _ _ Hb); lia)) as [c Hc]); rewrite Hc;
    case_bool_decide as Enul; try by apply runs_ret.
  { exfalso. apply Enul. assert (p = n) as -> by lia. pose proof (bo_nul _ _ Hb). congruence. }
  set (p1 := (p + strspn (cstr_at buf p) _)%nat).
  assert (p <= p1 <= n)%nat as Hp1.
  { pose proof (strspn_length (cstr_at buf p) [" "; TAB; ","]%char). pose proof (cstr_length n buf p Hb Hpn). lia. }
  clearbody p1. destruct (seek_delim (cstr_at buf p1)) as [d|] eqn:Ed; [|by apply parse_error_runs].
  apply (seek_delim_pos n) in Ed; [|done|lia].
  destruct (parse_weight buf (p1 + d)) as [[[delim weight] buf1]|] eqn:Ew; [|by apply parse_error_runs].
  destruct (parse_weight_Some n _ _ _ _ _ Hb Ed Ew) as [Hb1 Hdelim].
  assert (forall buf' next hosts' h' e k, buf_ok n buf' -> hosts_ok h' hosts' -> (p < next <= n)%nat ->
    runs h' (parse_loop libtirpc ifs getaddrinfo fuel options buf' (Some next) hosts' e k) parsed) as Hgo.
  { intros buf' next hosts' h' e k Hb' Hh' Hn. apply IH; [done..|]. intros i [= <-]. lia. }
  destruct (lookup_lt_is_Some_2 buf1 delim ltac:(rewrite (bo_len _ _ Hb1); lia)) as [c1 Hc1]. rewrite Hc1.
  assert (c1 <> NUL -> delim < n)%nat as Hlt.
  { intros Hne. destruct (decide (delim = n)) as [->|]; [|lia]. pose proof (bo_nul _ _ Hb1). congruence. }
  case_bool_decide as Ecolon.
  - destruct (end_path_Some n buf1 delim Hb1) as (next & buf2 & -> & Hb2 & Hnext); [apply Hlt; by subst|].
    destruct (negb (p1 =? delim)%nat).
    + eapply runs_bind; [apply add_host_addrs_runs; [done|by eapply cstr_no_bracket]|].
      intros [ok hosts'] h' Hh'. destruct (_ && empty); [apply Hgo; [done..|lia]|].
      eapply runs_bind; [by apply add_path_runs|]. intros ok' h2 Hh2.
      destruct (ok' =? 0); [by apply parse_error_runs|apply Hgo; [done..|lia]].
    + eapply runs_bind; [by apply add_local_path_runs|]. intros [ok hosts'] h' Hh'. apply Hgo; [done..|lia].
  - case_bool_decide as En; simpl; [by apply IH|].
    eapply runs_bind; [apply add_host_addrs_runs; [done|by eapply cstr_no_bracket, buf_ok_insert]|].
    intros [ok hosts'] h' Hh'. specialize (Hlt En).
    destruct (ok =? 0); (apply Hgo; [by apply buf_ok_insert|done|lia]).
Qed.

End Resolver.

Lemma parse_location_run libtirpc ifs getaddrinfo options h hosts list :
  hosts_ok h hosts -> NUL ∉ list -> "["%char ∉ list ->
  runs h (parse_location libtirpc ifs getaddrinfo hosts (Some list) options)
    (fun r h' => hosts_ok h' r.2 /\ (r.1 = 0 -> r.2 = None \/ r.2 = hosts)).
Proof.
  intros Hh Hnul Hb. unfold parse_location. apply runs_malloc. intros [|]; simpl; [|apply runs_ret; auto].
  eapply runs_conseq; [apply (parse_loop_runs libtirpc ifs getaddrinfo options (length list))|].
  - split.
    + rewrite length_app. simpl. lia.
    + by rewrite lookup_app_r, Nat.sub_diag.
    + intros [?|H%list_elem_of_singleton]%elem_of_app; done.
  - done.
  - intros i [= <-]. lia.
  - intros r h' [H H0]. auto.
Qed.

(** ** The theorems *)

(** C26. Whatever the resolver and the allocator do, [parse_location] returns for every
    location without a bracket, does not leave its buffer, and when it is given a
    list of hosts in order it leaves one: what [prune_host_list] expects. Every host
    that it has not freed is on the list. *)
Theorem parse_location_hosts libtirpc ifs getaddrinfo options h hosts list :
  hosts_ok h hosts -> NUL ∉ list -> "["%char ∉ list ->
  runs h (parse_location libtirpc ifs getaddrinfo hosts (Some list) options)
    (fun r h' => exists l, host_list h' r.2 l /\ owns h' l).
Proof.
  intros Hh Hnul Hb. eapply runs_conseq; [by apply parse_location_run|]. by intros r h' [H _].
Qed.

Definition loopback_only : option (list ifaddr) := Some [eth (ip 127 0 0 1) (ip 255 0 0 0)].
Definition resolve_ex (numeric : bool) (name : cstring) : option (list sockaddr) :=
  if numeric then None else Some [V4 (ip 10 0 0 (strlen name)); V4 (ip 10 1 0 (strlen name))].

Lemma hosts_ok_empty : hosts_ok ∅ None.
Proof.
  exists []. split; [split|].
  - reflexivity.
  - apply SSorted_nil.
  - intros a x Hx. by rewrite lookup_empty in Hx.
  - intros a Ha. by apply not_elem_of_nil in Ha.
  - intros a x Ha. by apply not_elem_of_nil in Ha.
  - intros a x Hx. by rewrite lookup_empty in Hx.
Qed.

Lemma parse_location_hosts_witness :
  runs ∅ (parse_location true loopback_only resolve_ex None (Some (str "a(2),b:/p q c:/r")) 0)
    (fun r h' => exists l, host_list h' r.2 l /\ owns h' l).
Proof.
  apply parse_location_hosts.
  - apply hosts_ok_empty.
  - intros H. pose proof (bool_decide_eq_true_2 _ H) as E. vm_compute in E. discriminate E.
  - intros H. pose proof (bool_decide_eq_true_2 _ H) as E. vm_compute in E. discriminate E.
Defined.

(** The string between two positions of a buffer. *)
Lemma find_colon_slash_app s t :
  ":"%char ∉ s -> find_colon_slash (s ++ ":"%char :: "/"%char :: t) = Some (length s).
Proof.
  induction s as [|x s IH]; intros Hs; [done|]. cbn [app find_colon_slash].
  destruct (strneq _ _ 2) eqn:E.
  - apply strneq_true in E. exfalso. apply Hs. injection E as -> _. constructor.
  - rewrite IH by set_solver. done.
Qed.

Lemma parse_loop_end libtirpc ifs getaddrinfo fuel options buf p hosts e k :
  buf !! p = Some NUL ->
  parse_loop libtirpc ifs getaddrinfo fuel options buf (Some p) hosts e k = mret (1, hosts).
Proof. intros H. destruct fuel; cbn [parse_loop]; by rewrite H, bool_decide_true. Qed.

(** The delimiter of a location with one host. *)
Lemma seek_delim_colon name path :
  Forall (fun c => c ∉ [NUL; "("; ","; " "; TAB; ":"]%char) name ->
  seek_delim (name ++ ":"%char :: "/"%char :: path) = Some (length name).
Proof.
  intros Hname. rewrite Forall_forall in Hname. unfold seek_delim. rewrite find_pos_app.
  - assert (nth (length name) (name ++ ":"%char :: "/"%char :: path) NUL = ":"%char) as ->.
    { rewrite app_nth2 by lia. by rewrite Nat.sub_diag. }
    simpl. apply find_colon_slash_app. intros Hin. apply (Hname _ Hin). set_solver.
  - apply Forall_forall. intros c Hin. apply bool_decide_eq_false_2. intros Hc. apply (Hname c Hin). set_solver.
  - by vm_compute.
Qed.

(** A location with one host is parsed into the addresses of the host, each with
    the path. A host that is not found is not an error here: the list is empty then. *)
Theorem parse_location_single libtirpc ifs getaddrinfo options name path s m :
  name <> [] -> Forall (fun c => c ∉ [NUL; "("; ","; " "; TAB; ":"]%char) name ->
  NUL ∉ path -> find_colon_slash ("/"%char :: path) = None ->
  parse_location libtirpc ifs getaddrinfo None (Some (name ++ ":"%char :: "/"%char :: path)) options s m
  = (ok ← malloc;
     if negb ok then mret (0, None) else
     '(ok, hosts) ← add_host_addrs libtirpc ifs getaddrinfo None name 1 0 options;
     if ok =? 0 then mret (1, hosts) else
     ok ← add_path hosts ("/"%char :: path);
     if ok =? 0 then parse_error hosts else mret (1, hosts)) s m.
Proof.
  intros Hne Hname Hnul Hpath. unfold parse_location. apply bind_ext. intros ok s1 m1.
  destruct ok; [|done]. cbn [negb].
  set (P := "/"%char :: path) in *. set (L := name ++ ":"%char :: P).
  assert (NUL ∉ P) as HP by (unfold P; set_solver). assert (NUL ∉ name) as Hn0.
  { intros Hin. rewrite Forall_forall in Hname. apply (Hname _ Hin). set_solver. }
  assert (NUL ∉ L) as HL by (unfold L; set_solver).
  assert (length L = S (length name + length P)) as Hn by (unfold L; rewrite length_app; simpl; lia).
  rewrite Hn. cbn [parse_loop].
  assert (cstr_at (L ++ [NUL]) 0 = L) as Hc by by apply (cstr_middle [] L []).
  assert (exists c, (L ++ [NUL]) !! 0%nat = Some c /\ c <> NUL) as (c & Hc0 & HcN).
  { destruct name as [|x name']; [done|]. exists x. split; [done|]. set_solver. }
  rewrite Hc0, bool_decide_false by done. rewrite Hc.
  assert (strspn L [" "; TAB; ","]%char = 0)%nat as ->.
  { destruct name as [|x name']; [done|]. inversion Hname as [|? ? Hx _]; subst. simpl.
    rewrite bool_decide_false; [done|]. set_solver. }
  rewrite Nat.add_0_r, Hc. assert (seek_delim L = Some (length name)) as -> by by apply seek_delim_colon.
  change (0 + length name)%nat with (length name).
  assert ((L ++ [NUL]) !! length name = Some ":"%char) as Hd.
  { unfold L. rewrite <- app_assoc, lookup_app_r by lia. by rewrite Nat.sub_diag. }
  assert (<[length name := NUL]> (L ++ [NUL]) = name ++ NUL :: P ++ [NUL]) as Hbuf.
  { unfold L. rewrite <- app_assoc, insert_app_r_alt by lia. by rewrite Nat.sub_diag. }
  unfold parse_weight. rewrite Hd, bool_decide_false, Hd, bool_decide_true by done. rewrite Hbuf.
  assert (cstr_at (name ++ NUL :: P ++ [NUL]) (S (length name)) = P) as HcP.
  { pose proof (cstr_middle (name ++ [NUL]) P [] HP) as E. rewrite length_app, <- app_assoc in E.
    simpl in E. by rewrite Nat.add_1_r in E. }
  unfold end_path. rewrite HcP, Hpath.
  assert (cstr_at (name ++ NUL :: P ++ [NUL]) 0 = name) as -> by by apply (cstr_middle [] name (P ++ [NUL])).
  assert (negb (0 =? length name)%nat = true) as -> by by destruct name.
  change (u32 0) with 0. apply bind_ext. intros [r hosts] s2 m2. rewrite andb_true_r.
  assert (forall e k, parse_loop libtirpc ifs getaddrinfo (length name + length P) options
    (name ++ NUL :: P ++ [NUL]) (Some (S (length name) + length P)%nat) hosts e k = mret (1, hosts)) as Hend.
  { intros e k. apply parse_loop_end. rewrite lookup_app_r by lia.
    replace (S (length name) + length P - length name)%nat with (S (length P)) by lia. simpl.
    by rewrite lookup_app_r, Nat.sub_diag. }
  destruct (r =? 0); [by rewrite Hend|]. rewrite HcP. apply bind_ext. intros r2 s3 m3. by rewrite Hend.
Qed.

Lemma parse_location_single_witness :
  parse_location true loopback_only resolve_ex None (Some (str "srv:/x")) 0 (RS ∅ []) []
  = (ok ← malloc;
     if negb ok then mret (0, None) else
     '(ok, hosts) ← add_host_addrs true loopback_only resolve_ex None (str "srv") 1 0 0;
     if ok =? 0 then mret (1, hosts) else
     ok ← add_path hosts (str "/x");
     if ok =? 0 then parse_error hosts else mret (1, hosts)) (RS ∅ []) [].
Proof.
  apply (parse_location_single true loopback_only resolve_ex 0 (str "srv") (str "x")).
  - discriminate.
  - refine (bool_decide_eq_true_1 _ _). vm_compute. reflexivity.
  - intros H. pose proof (bool_decide_eq_true_2 _ H) as E. vm_compute in E. discriminate E.
  - reflexivity.
Defined.

(** A bracketed host that is not found makes [add_host_addrs] free a pointer into
    the middle of the string it has allocated. *)
Theorem bracket_bad_free :
  parse_location true loopback_only (fun _ _ => None) None (Some (str "[2001:db8::1]:/p")) 0 (RS ∅ []) [] = None /\
  (fun r => r.1.1) <$> parse_location true loopback_only (fun _ _ => None) None (Some (str "srv:/p")) 0 (RS ∅ []) []
  = Some (1, None).
Proof. vm_compute. split; reflexivity. Qed.

(** A location with a weight and no path is accepted, with no host, while without
    the weight it is rejected. *)
Theorem weight_without_path :
  (fun r => r.1.1) <$> parse_location true loopback_only resolve_ex None (Some (str "srv(5)")) 0 (RS ∅ []) []
  = Some (1, None) /\
  (fun r => r.1.1) <$> parse_location true loopback_only resolve_ex None (Some (str "srv")) 0 (RS ∅ []) []
  = Some (0, None).
Proof. vm_compute. split; reflexivity. Qed.

(** The loopback address counts for round robin: it is compared in the order of
    the bytes of the host with an address in network order. *)
Theorem loopback_counted : rr_counts [V4 (ip 127 0 0 1); V4 (ip 10 0 0 1)] = (2, 0)%nat.
Proof. vm_compute. reflexivity. Qed.
