(* ===== verification/MountNfs.v ===== *)
(** * NFS mounts (modules/mount_nfs.c)

    [mount_mount] reads the mount options, makes the list of hosts of the location
    with [parse_location], prunes it with [prune_host_list], and tries to mount from
    the hosts that are left, in the order of the list, until one succeeds. What the
    mount programs and [mkdir_path] return are arguments; the attempts that are made
    are part of the result. *)

From S2P Require Import Prelude CString CatPath Lexer Memory Selectors Replicated Location.
Open Scope Z_scope.

(** ** The options *)

Definition NFS_VERS_DEFAULT : Z := NFS3_SUPPORTED.
Definition NFS4_VERS_DEFAULT : Z := NFS4_SUPPORTED.
Definition NFS_PROTO_MASK : Z := Z.lor TCP_REQUESTED UDP_REQUESTED.
Definition NFS_PROTO_DEFAULT : Z := NFS_PROTO_MASK.
Definition MOUNT_FLAG_NOBIND : Z := 0x20.
Definition MOUNT_FLAG_SYMLINK : Z := 0x40.
Definition MOUNT_FLAG_REMOUNT : Z := 0x8.
Definition MOUNT_FLAG_GHOST : Z := 0x1.
Definition MNT_FORCE_FAIL : Z := -1.

(** The variables that the options set, and what is written to [nfsoptions]. *)
Record nfs_opts := NfsOpts {
  o_vers : Z;
  o_port : Z;
  o_flags : Z;
  o_rdma : bool;
  o_nosymlink : bool;
  o_symlink : bool;
  o_nobind : bool;
  o_ro : bool;
  o_out : list ascii
}.

Definition set_o_vers (v : Z) (o : nfs_opts) : nfs_opts :=
  NfsOpts v (o_port o) (o_flags o) (o_rdma o) (o_nosymlink o) (o_symlink o) (o_nobind o) (o_ro o) (o_out o).
Definition set_o_port (p : Z) (o : nfs_opts) : nfs_opts :=
  NfsOpts (o_vers o) p (o_flags o) (o_rdma o) (o_nosymlink o) (o_symlink o) (o_nobind o) (o_ro o) (o_out o).
Definition set_o_flags (f : Z) (o : nfs_opts) : nfs_opts :=
  NfsOpts (o_vers o) (o_port o) f (o_rdma o) (o_nosymlink o) (o_symlink o) (o_nobind o) (o_ro o) (o_out o).
Definition set_o_rdma (o : nfs_opts) : nfs_opts :=
  NfsOpts (o_vers o) (o_port o) (o_flags o) true (o_nosymlink o) (o_symlink o) (o_nobind o) (o_ro o) (o_out o).
Definition set_o_nosymlink (o : nfs_opts) : nfs_opts :=
  NfsOpts (o_vers o) (o_port o) (o_flags o) (o_rdma o) true (o_symlink o) (o_nobind o) (o_ro o) (o_out o).
Definition set_o_symlink (b : bool) (o : nfs_opts) : nfs_opts :=
  NfsOpts (o_vers o) (o_port o) (o_flags o) (o_rdma o) (o_nosymlink o) b (o_nobind o) (o_ro o) (o_out o).
Definition set_o_nobind (o : nfs_opts) : nfs_opts :=
  NfsOpts (o_vers o) (o_port o) (o_flags o) (o_rdma o) (o_nosymlink o) (o_symlink o) true (o_ro o) (o_out o).
Definition set_o_ro (b : bool) (o : nfs_opts) : nfs_opts :=
  NfsOpts (o_vers o) (o_port o) (o_flags o) (o_rdma o) (o_nosymlink o) (o_symlink o) (o_nobind o) b (o_out o).
Definition add_o_out (s : list ascii) (o : nfs_opts) : nfs_opts :=
  NfsOpts (o_vers o) (o_port o) (o_flags o) (o_rdma o) (o_nosymlink o) (o_symlink o) (o_nobind o) (o_ro o)
    (o_out o ++ s).

(** [vers &= ~mask] on [unsigned int]. *)
Definition clear (x mask : Z) : Z := Z.ldiff x mask.

(** The option that starts at [cp] and has [o_len] characters. *)
Definition nfs_vers_option (cp : cstring) (o_len : Z) (o : nfs_opts) : nfs_opts :=
  let opt s := _strncmp (str s) cp o_len =? 0 in
  let v := o_vers o in
  if (_strncmp (str "vers=4") cp 6 =? 0) || (_strncmp (str "nfsvers=4") cp 9 =? 0) then
    set_o_vers (Z.lor (clear v NFS_VERS_MASK)
                  (Z.lor (Z.lor NFS4_VERS_MASK TCP_REQUESTED) NFS4_ONLY_REQUESTED)) o
  else if opt "vers=3"%string || opt "nfsvers=3"%string then
    set_o_vers (Z.lor (clear v (Z.lor (Z.lor NFS4_VERS_MASK NFS_VERS_MASK) NFS4_ONLY_REQUESTED))
                  NFS3_REQUESTED) o
  else if opt "vers=2"%string || opt "nfsvers=2"%string then
    set_o_vers (Z.lor (clear v (Z.lor (Z.lor NFS4_VERS_MASK NFS_VERS_MASK) NFS4_ONLY_REQUESTED))
                  NFS2_REQUESTED) o
  else if strneq cp (str "port=") 5 && (o_len - 5 <? 25) then
    set_o_port (Z.max 0 (atoi (take (Z.to_nat (o_len - 5)) (drop 5 cp)))) o
  else if opt "proto=udp"%string || opt "udp"%string then
    set_o_vers (Z.lor (clear v TCP_REQUESTED) UDP_REQUESTED) o
  else if opt "proto=udp6"%string || opt "udp6"%string then
    set_o_vers (Z.lor (clear v (Z.lor TCP_REQUESTED TCP6_REQUESTED))
                  (Z.lor UDP_REQUESTED UDP6_REQUESTED)) o
  else if opt "proto=tcp"%string || opt "tcp"%string then
    set_o_vers (Z.lor (clear v UDP_REQUESTED) TCP_REQUESTED) o
  else if opt "proto=tcp6"%string || opt "tcp6"%string then
    set_o_vers (Z.lor (clear v (Z.lor UDP_REQUESTED UDP6_REQUESTED))
                  (Z.lor TCP_REQUESTED TCP6_REQUESTED)) o
  else if opt "ro"%string then set_o_ro true o
  else if opt "rw"%string then set_o_ro false o
  else o.

(** One round of the loop: [tok] are the characters from [cp] to [comma], and [name]
    is the key of the mount. The trailing white space is looked for at [comma], which
    is at a comma or at the end of the string, so that none is skipped. *)
Definition nfs_option (name cp tok : cstring) (o : nfs_opts) : nfs_opts :=
  let o_len := strlen tok in
  let opt s := _strncmp (str s) cp o_len =? 0 in
  let o := if opt "proto=rdma"%string || opt "rdma"%string then set_o_rdma o else o in
  if opt "nosymlink"%string then set_o_nosymlink o
  else if opt "symlink"%string then (if hd_char name =a "/" then o else set_o_symlink true o)
  else if opt "nobind"%string then set_o_nobind o
  else if opt "no-use-weight-only"%string then set_o_flags (clear (o_flags o) MOUNT_FLAG_USE_WEIGHT_ONLY) o
  else if opt "use-weight-only"%string then set_o_flags (Z.lor (o_flags o) MOUNT_FLAG_USE_WEIGHT_ONLY) o
  else
    let o := nfs_vers_option cp o_len o in
    add_o_out (tok ++ [hd_char (drop (length tok) cp)]) o.

(** [while ( *s == c) s++] for the characters of a set. *)
Fixpoint skip_chars (set : list ascii) (s : cstring) : cstring :=
  match s with
  | c :: s' => if bool_decide (c ∈ set) then skip_chars set s' else s
  | [] => []
  end.

Fixpoint nfs_loop (fuel : nat) (name comma : cstring) (o : nfs_opts) : option nfs_opts :=
  match comma with
  | [] => Some o
  | _ =>
      match fuel with
      | O => None
      | S fuel =>
          let cp := skip_chars [" "; TAB]%char (skip_chars [","]%char comma) in
          let tok := before cp "," in
          nfs_loop fuel name (drop (length tok) cp) (nfs_option name cp tok o)
      end
  end.

(** The variables before the options, and after them. *)
Definition nfs_init (ap_flags mount_default_proto : Z) (name fstype : cstring) : nfs_opts :=
  let vers := Z.lor NFS_VERS_DEFAULT NFS_PROTO_DEFAULT in
  let vers :=
    if streq fstype (str "nfs4") then Z.lor (Z.lor NFS4_VERS_DEFAULT TCP_REQUESTED) NFS4_ONLY_REQUESTED
    else if mount_default_proto =? 4 then Z.lor vers NFS4_VERS_DEFAULT else vers in
  NfsOpts vers (-1) (Z.land ap_flags (Z.lor MOUNT_FLAG_RANDOM_SELECT MOUNT_FLAG_USE_WEIGHT_ONLY))
    false false (negb (hd_char name =a "/") && flag ap_flags MOUNT_FLAG_SYMLINK)
    (flag ap_flags MOUNT_FLAG_NOBIND) false [].

Definition nfs_options (name : cstring) (options : option cstring) (o : nfs_opts) : option nfs_opts :=
  match options with
  | None => Some o
  | Some options =>
      match nfs_loop (length options) name options o with
      | None => None
      | Some o =>
          Some (if Z.land (o_vers o) NFS_PROTO_MASK =? 0
                then set_o_vers (Z.lor (o_vers o) NFS_PROTO_MASK) o else o)
      end
  end.

(** ** The path of the mount *)

(** [mount_fullpath] of lib/mounts.c: the length and the path; 0 is a path that does
    not fit. [root[last]] is read, so that [root] must not be empty. *)
Definition mount_fullpath (max_len : Z) (root : cstring) (root_len : Z) (name : cstring) :
    option (Z * cstring) :=
  let last := if negb (root_len =? 0) then root_len - 1 else strlen root - 1 in
  if (last <? 0) || (strlen root <? last) then None else
  let path :=
    if nth (Z.to_nat last) root NUL =a "/" then root
    else if hd_char name =a "/" then name
    else root ++ str "/" ++ name in
  if max_len <=? strlen path then Some (0, take (Z.to_nat (max_len - 1)) path)
  else Some (strlen path, path).

(** ** The hosts *)

Section Mount.
Context (libtirpc : bool) (ifs : option (list ifaddr)).
Context (getaddrinfo : bool -> cstring -> option (list sockaddr)).
Context (string_options : bool) (mount_wait kern_vers : Z) (use_hostname : bool).
(** [get_addr_string]. *)
Context (addr_string : sockaddr -> option cstring).

Abbreviation prune := (prune_host_list string_options mount_wait kern_vers use_hostname).

(** The list of hosts to try; [None] when there is none. *)
Definition nfs_hosts (mount_default_proto : Z) (what : cstring) (o : nfs_opts) : RM ptr :=
  '(ok, hosts) ← parse_location libtirpc ifs getaddrinfo None (Some what) (o_flags o);
  if ok =? 0 then mret None
  else if o_rdma o then mret hosts
  else
    single ← match hosts with
             | Some a => h ← load a; mret (bool_decide (h_next h = None))
             | None => mret false
             end;
    if single && (mount_default_proto =? 4) && flag (o_vers o) NFS_VERS_MASK &&
       flag (o_vers o) NFS4_VERS_MASK && negb (flag (o_vers o) (Z.lor UDP_REQUESTED UDP6_REQUESTED))
    then
      v4_probe_ok ←
        match hosts with
        | Some a =>
            h ← load a;
            tmp ← new_host (h_name h) 0 (h_addr h) (h_addr_len h) (h_proximity h) (h_weight h)
                    (h_options h);
            match tmp with
            | Some t =>
                update t (set_h_rr (h_rr h));;
                '(_, tmp) ← prune tmp (Z.lor NFS4_VERS_MASK TCP_REQUESTED) (o_port o);
                match tmp with
                | Some _ => free_host_list tmp;; mret true
                | None => mret false
                end
            | None => mret false
            end
        | None => mret false
        end;
      if v4_probe_ok : bool then mret hosts
      else '(_, hosts) ← prune hosts (o_vers o) (o_port o); mret hosts
    else '(_, hosts) ← prune hosts (o_vers o) (o_port o); mret hosts.

(** ** The attempts *)

(** [__rpc_ping] and [rpc_ping] of lib/rpc_subs.c. *)
Definition __rpc_ping (proto port : Z) : RM Z :=
  let info := CI proto (if 0 <? port then port else 0) false in
  '(status, p) ← (if 0 <? port then mret (0, port) else rpc_portmap_getport info);
  if status <? 0 then mret status
  else '(status, _) ← rpc_ping_proto false (set_port p info); mret status.

(** The pings of [rpc_ping] in their order: the version bit, the protocol bits that
    are needed, the protocol, and the result of a ping that succeeds. *)
Definition ping_table : list (Z * Z * Z * Z) :=
  [(NFS2_REQUESTED, TCP_REQUESTED, IPPROTO_TCP, 0x202);
   (NFS2_REQUESTED, UDP_REQUESTED, IPPROTO_UDP, 0x102);
   (NFS3_REQUESTED, TCP_REQUESTED, IPPROTO_TCP, 0x203);
   (NFS3_REQUESTED, UDP_REQUESTED, IPPROTO_UDP, 0x103);
   (NFS4_REQUESTED, 0xFFFFFFFF, IPPROTO_TCP, 0x204)].

Fixpoint rpc_pings (table : list (Z * Z * Z * Z)) (port version status : Z) : RM Z :=
  match table with
  | [] => mret status
  | (bit, need, proto, result) :: table =>
      if flag version bit && flag version need then
        status ← __rpc_ping proto port;
        if 0 <? status then mret result else rpc_pings table port version status
      else rpc_pings table port version status
  end.

Definition rpc_ping (port version : Z) : RM Z := rpc_pings ping_table port version 0.

(** A mount that is tried: with the bind module, or with mount.nfs. *)
Inductive attempt := Bind (path : option cstring) (options : cstring) | Nfs (loc : cstring).

(** The result of the next mount program; past the end every mount fails. *)
Definition next_err (errs : list Z) : Z * list Z :=
  match errs with
  | [] => (1, [])
  | e :: errs => (e, errs)
  end.

(** The location that mount.nfs is given; [None] is [goto forced_fail]. *)
Definition nfs_location (h : host) : RM (option cstring) :=
  match h_path h with
  | None => stuck
  | Some path =>
      match (if negb (h_rr h =? 0) && negb use_hostname then h_addr h else None) with
      | Some addr =>
          match addr_string addr with
          | None => mret None
          | Some n =>
              ok ← malloc;
              if negb ok then mret None else
              mret (Some (match addr with V6 _ => str "[" ++ n ++ str "]" | _ => n end ++ str ":" ++ path))
          end
      | None =>
          ok ← malloc;
          if negb ok then mret None else
          mret (Some (default (str "localhost") (h_name h) ++ str ":" ++ path))
      end
  end.

(** What a round of the loop comes to. *)
Inductive outcome := Mounted | Failed | NextHost.

(** A mount with mount.nfs: the outcome, the attempts, and the results left. *)
Definition try_nfs (o : nfs_opts) (h : host) (errs : list Z) : RM (outcome * list attempt * list Z) :=
  loc ← nfs_location h;
  match loc with
  | None => mret (Failed, [], errs)
  | Some loc =>
      ret ← (if (h_proximity h =? PROXIMITY_LOCAL) && negb (o_rdma o)
             then rpc_ping (o_port o) (o_vers o) else mret 1);
      if ret <=? 0 then mret (NextHost, [], errs)
      else
        let '(err, errs) := next_err errs in
        mret (if err =? 0 then Mounted else NextHost, [Nfs loc], errs)
  end.

Definition bind_options (o : nfs_opts) : cstring :=
  if o_symlink o then str "symlink" else if o_ro o then str "ro" else [].

Definition try_host (o : nfs_opts) (h : host) (errs : list Z) : RM (outcome * list attempt * list Z) :=
  if negb (o_nosymlink o || o_nobind o) && (h_proximity h =? PROXIMITY_LOCAL) then
    let '(err, errs) := next_err errs in
    let bind := Bind (h_path h) (bind_options o) in
    if err =? 0 then mret (Mounted, [bind], errs)
    else if err =? MNT_FORCE_FAIL then mret (Failed, [bind], errs)
    else
      match h_name h with
      | None => mret (NextHost, [bind], errs)
      | Some _ => '(r, tr, errs) ← try_nfs o h errs; mret (r, bind :: tr, errs)
      end
  else try_nfs o h errs.

(** The loop over the hosts: whether one of them is mounted, and the attempts. *)
Fixpoint mount_loop (fuel : nat) (o : nfs_opts) (this : ptr) (errs : list Z) (tr : list attempt) :
    RM (bool * list attempt) :=
  match this with
  | None => mret (false, tr)
  | Some a =>
      h ← load a;
      '(r, tr', errs) ← try_host o h errs;
      match r with
      | Mounted => mret (true, tr ++ tr')
      | Failed => mret (false, tr ++ tr')
      | NextHost =>
          match fuel with
          | O => stuck
          | S fuel => mount_loop fuel o (h_next h) errs (tr ++ tr')
          end
      end
  end.

(** From [mkdir_path] on: the return value, the attempts, and whether the directory is
    removed. [mkdir_status] is what [mkdir_path] returns, [eexist] whether it failed
    because the directory is there. *)
Definition mount_hosts (ap_flags ap_type name_len : Z) (o : nfs_opts) (hosts : ptr)
    (mkdir_status : Z) (eexist : bool) (errs : list Z) : RM (Z * list attempt * bool) :=
  if negb (mkdir_status =? 0) && negb eexist then
    free_host_list hosts;; mret (1, [], false)
  else
    fuel ← heap_fuel;
    '(mounted, tr) ← mount_loop fuel o hosts errs [];
    free_host_list hosts;;
    if mounted : bool then mret (0, tr, false)
    else
      let existed := negb (mkdir_status =? 0) in
      let rm := (ap_type =? LKP_INDIRECT) &&
                ((negb (flag ap_flags MOUNT_FLAG_GHOST) && negb (name_len =? 0)) || negb existed) in
      mret (1, tr, rm).

Definition mount_mount (ap_flags ap_type mount_default_proto : Z) (root name : cstring) (name_len : Z)
    (what fstype : cstring) (options : option cstring) (mkdir_status : Z) (eexist : bool)
    (errs : list Z) : RM (Z * list attempt * bool) :=
  if flag ap_flags MOUNT_FLAG_REMOUNT then mret (0, [], false) else
  match nfs_options name options (nfs_init ap_flags mount_default_proto name fstype) with
  | None => stuck
  | Some o =>
      match mount_fullpath PATH_MAX root 0 name with
      | None => stuck
      | Some (len, _) =>
          if len =? 0 then mret (1, [], false) else
          hosts ← nfs_hosts mount_default_proto what o;
          match hosts with
          | None => mret (1, [], false)
          | Some _ => mount_hosts ap_flags ap_type name_len o hosts mkdir_status eexist errs
          end
      end
  end.

End Mount.
