(* ===== verification/MountNfsProps.v ===== *)
(** * The options and the hosts of NFS mounts

    What the option loop of [mount_mount] accepts and writes, and that the mount
    frees its hosts on every path. *)

From S2P Require Import Prelude CString Memory CatPath Lexer Selectors Replicated ReplicatedProbe ReplicatedProps ReplicatedPrune Location MountNfs.
From stdpp Require Import sorting.
Open Scope Z_scope.

(** ** The option loop *)

Lemma skip_chars_length set s : (length (skip_chars set s) <= length s)%nat.
Proof. induction s as [|c s IH]; simpl; [done|]. case_bool_decide; simpl; lia. Qed.

Lemma before_drop s c :
  drop (length (before s c)) s = [] \/ exists r, drop (length (before s c)) s = c :: r.
Proof.
  induction s as [|x s IH]; simpl; [by left|]. destruct (decide (x = c)) as [->|]; [right; by exists s|].
  apply IH.
Qed.

Lemma before_length_le s c : (length (before s c) <= length s)%nat.
Proof. induction s as [|x s IH]; simpl; [done|]. destruct (decide (x = c)); simpl; lia. Qed.

(** A round writes at most the option and one character behind it. *)
Lemma nfs_option_out name cp tok o :
  (length (o_out (nfs_option name cp tok o)) <= length (o_out o) + length tok + 1)%nat.
Proof.
  assert (forall f, (f = nfs_vers_option cp (strlen tok)) -> forall o', o_out (f o') = o_out o') as Hv.
  { intros f -> o'. unfold nfs_vers_option. repeat (case_match; try reflexivity). }
  unfold nfs_option. set (o1 := if _ || _ then set_o_rdma o else o).
  assert (o_out o1 = o_out o) as E by (unfold o1; by destruct (_ || _)). clearbody o1.
  repeat match goal with |- context [if ?b then _ else _] => destruct b end; simpl; rewrite ?E; try lia.
  rewrite (Hv _ eq_refl), !length_app, E. simpl. lia.
Qed.

(** The characters that a round passes over. *)
Lemma round_length comma cp :
  comma <> [] -> cp = skip_chars [" "; TAB]%char (skip_chars [","]%char comma) ->
  (length cp + (if decide (head comma = Some ","%char) then 1 else 0) <= length comma)%nat /\
  (length (drop (length (before cp ",")) cp) < length comma)%nat.
Proof.
  intros Hne ->. destruct comma as [|c s]; [done|]. simpl.
  pose proof (skip_chars_length [" "; TAB]%char (skip_chars [","]%char s)) as H1.
  pose proof (skip_chars_length [","]%char s) as H2. rewrite length_drop.
  destruct (decide (c = ","%char)) as [->|Hc].
  - rewrite bool_decide_true by set_solver. rewrite decide_True by done. simpl. lia.
  - rewrite bool_decide_false by set_solver. rewrite decide_False by congruence. simpl.
    case_bool_decide as Hb; simpl.
    + pose proof (skip_chars_length [" "; TAB]%char s). lia.
    + destruct (decide (c = ","%char)); [done|]. simpl. lia.
Qed.

Lemma nfs_loop_total name fuel : forall comma o,
  (length comma <= fuel)%nat ->
  exists o', nfs_loop fuel name comma o = Some o' /\
    (length (o_out o') + (if decide (head comma = Some ","%char) then 1 else 0)
     <= length (o_out o) + length comma + (if decide (comma = []) then 0 else 1))%nat.
Proof.
  induction fuel as [|fuel IH]; intros comma o Hlen.
  { destruct comma; [|simpl in Hlen; lia]. exists o. split; [done|]. simpl. lia. }
  destruct comma as [|c s]; [exists o; split; [done|simpl; lia]|]. cbn [nfs_loop].
  set (comma := c :: s) in *. set (cp := skip_chars [" "; TAB]%char (skip_chars [","]%char comma)).
  set (tok := before cp ","). set (rest := drop (length tok) cp).
  destruct (round_length comma cp) as [H1 H2]; [done..|]. fold tok rest in H2.
  destruct (IH rest (nfs_option name cp tok o)) as (o' & -> & Ho'); [lia|].
  exists o'. split; [done|]. rewrite (decide_False (P := comma = [])) by done.
  pose proof (nfs_option_out name cp tok o) as Hout. pose proof (before_length_le cp ",") as Htok. fold tok in Htok.
  assert (length rest = length cp - length tok)%nat as Hrest by (unfold rest; apply length_drop).
  destruct (before_drop cp ",") as [E|[r E]]; fold tok rest in E.
  - rewrite E in *. simpl in Ho', Hrest. lia.
  - rewrite E in *. rewrite (decide_True (P := head (","%char :: r) = _)) in Ho' by done. simpl in Ho', Hrest. lia.
Qed.

(** ** Lists of options *)

(** An option: not empty, without commas, and not starting with a blank. *)
Definition option_ok (t : cstring) : Prop :=
  t <> [] /\ NUL ∉ t /\ ","%char ∉ t /\ hd_char t <> " "%char /\ hd_char t <> TAB /\ strlen t < 2 ^ 31.

#[export] Instance option_ok_dec t : Decision (option_ok t).
Proof. unfold option_ok. apply _. Defined.

Fixpoint join (os : list cstring) : cstring :=
  match os with
  | [] => []
  | [t] => t
  | t :: os => t ++ ","%char :: join os
  end.

(** The options that are not passed on. *)
Definition own_options : list cstring :=
  [str "nosymlink"; str "symlink"; str "nobind"; str "no-use-weight-only"; str "use-weight-only"].

Definition own (t : cstring) : bool := bool_decide (t ∈ own_options).

Lemma strncmp_eq s t r : length s = length t -> (strncmp s (t ++ r) (length t) =? 0) = bool_decide (s = t).
Proof.
  revert t. induction s as [|c s IH]; intros [|d t]; simpl; try done. intros [= Hl].
  case_bool_decide as E.
  - subst d. rewrite IH by done. case_bool_decide; case_bool_decide; congruence.
  - rewrite bool_decide_false by congruence. apply Z.eqb_neq. intros H. apply E.
    assert (N_of_ascii c = N_of_ascii d) as Hn by (unfold uchar in H; lia).
    rewrite <- (ascii_N_embedding c), <- (ascii_N_embedding d). by rewrite Hn.
Qed.

(** With the length of the option [_strncmp] tests for equality. *)
Lemma strncmp_option s t r :
  option_ok t -> strlen (str s) < 2 ^ 31 ->
  (_strncmp (str s) (t ++ r) (strlen t) =? 0) = bool_decide (str s = t).
Proof.
  intros (Hne & _ & _ & _ & _ & Hlt) Hs. unfold _strncmp.
  assert (strlen t <> 0) as H0 by (unfold strlen; destruct t; simpl; [done|lia]).
  destruct (strlen t =? 0) eqn:E0; boolify; [done|]. simpl.
  destruct (strlen t =? strlen (str s)) eqn:E; boolify; simpl.
  - unfold strlen. rewrite Nat2Z.id. apply strncmp_eq. unfold strlen in E. lia.
  - rewrite bool_decide_false by (intros H; apply E; by rewrite H). apply Z.eqb_neq. unfold i32.
    intros H. apply E. pose proof (strlen_nonneg t). pose proof (strlen_nonneg (str s)).
    rewrite Z.mod_small in H; lia.
Qed.

(** Evaluate the comparisons of constant strings. *)
Ltac eval_tests :=
  repeat match goal with
  | |- context [@bool_decide ?P ?d] =>
      let b := eval vm_compute in (@bool_decide P d) in
      lazymatch b with
      | true => change (@bool_decide P d) with true
      | false => change (@bool_decide P d) with false
      end
  end; cbn [orb andb].

(** What an option does, by its name. *)
Lemma nfs_option_ok name t r o :
  option_ok t ->
  let o' := nfs_option name (t ++ r) t o in
  o_rdma o' = o_rdma o || bool_decide (t = str "proto=rdma") || bool_decide (t = str "rdma") /\
  o_nosymlink o' = o_nosymlink o || bool_decide (t = str "nosymlink") /\
  o_nobind o' = o_nobind o || bool_decide (t = str "nobind") /\
  o_out o' = (if own t then o_out o else o_out o ++ t ++ [hd_char r]).
Proof.
  intros Hok. unfold nfs_option.
  assert (forall cp n o', o_rdma (nfs_vers_option cp n o') = o_rdma o' /\
    o_nosymlink (nfs_vers_option cp n o') = o_nosymlink o' /\
    o_nobind (nfs_vers_option cp n o') = o_nobind o' /\
    o_out (nfs_vers_option cp n o') = o_out o') as Hv.
  { intros cp n o'. unfold nfs_vers_option. repeat (case_match; [repeat split; reflexivity|]). done. }
  set (V := nfs_vers_option) in *. clearbody V.
  rewrite !strncmp_option by (done || (vm_compute; reflexivity)).
  rewrite drop_app_length. unfold own, own_options.
  assert (forall s, bool_decide (str s = t) = bool_decide (t = str s)) as Hsym
    by (intros s; apply bool_decide_ext; split; congruence).
  rewrite !Hsym. clear Hsym.
  destruct (decide (t ∈ own_options ++ [str "proto=rdma"; str "rdma"])) as [Hin|Hout].
  - repeat (apply elem_of_cons in Hin as [->|Hin];
      [eval_tests; try destruct (hd_char name =a "/"); split_and!;
       rewrite ?orb_true_r, ?orb_false_r; try done; cbn [add_o_out o_rdma o_nosymlink o_nobind o_out];
       rewrite ?(proj1 (Hv _ _ _)), ?(proj1 (proj2 (Hv _ _ _))), ?(proj1 (proj2 (proj2 (Hv _ _ _)))),
         ?(proj2 (proj2 (proj2 (Hv _ _ _)))); done|]).
    by apply not_elem_of_nil in Hin.
  - unfold own_options in Hout. simpl in Hout.
    rewrite !bool_decide_false by set_solver. rewrite !orb_false_r. simpl.
    destruct (Hv (t ++ r) (strlen t) o) as (-> & -> & -> & ->). done.
Qed.

(** What is written for a list of options: those that are passed on, each with the
    character that follows it. *)
Fixpoint written (os : list cstring) : list ascii :=
  match os with
  | [] => []
  | t :: os' =>
      (if own t then [] else t ++ [match os' with [] => NUL | _ => ","%char end]) ++ written os'
  end.

Definition rest_of (os : list cstring) : cstring :=
  match os with
  | [] => []
  | _ => ","%char :: join os
  end.

Lemma join_cons t os : join (t :: os) = t ++ rest_of os.
Proof. destruct os; simpl; [by rewrite app_nil_r|done]. Qed.

Lemma before_none s c : c ∉ s -> before s c = s.
Proof.
  induction s as [|x s IH]; simpl; intros H; [done|]. destruct (decide (x = c)); [set_solver|].
  rewrite IH; [done|set_solver].
Qed.

Lemma skip_chars_hd set c s : c ∉ set -> skip_chars set (c :: s) = c :: s.
Proof. intros H. simpl. by rewrite bool_decide_false. Qed.

(** A round on a list of options reads the first of them. *)
Lemma round_option (b : bool) t os :
  option_ok t ->
  let cp := skip_chars [" "; TAB]%char (skip_chars [","]%char
              ((if b then [","]%char else []) ++ join (t :: os))) in
  cp = t ++ rest_of os /\ before cp "," = t.
Proof.
  intros (Hne & _ & Hc & Hb & Ht & _). destruct t as [|c t]; [done|]. rewrite join_cons.
  assert (c <> ","%char) as Hc' by set_solver. simpl in Hb, Ht.
  assert (skip_chars [" "; TAB]%char (skip_chars [","]%char
            ((if b then [","]%char else []) ++ (c :: t) ++ rest_of os)) = (c :: t) ++ rest_of os) as Hcp.
  { assert (skip_chars [","]%char ((if b then [","]%char else []) ++ (c :: t) ++ rest_of os)
            = (c :: t) ++ rest_of os) as ->.
    { destruct b; [cbn [app skip_chars]; rewrite bool_decide_true by set_solver|]; apply skip_chars_hd; set_solver. }
    apply skip_chars_hd. set_solver. }
  cbn zeta. rewrite Hcp. split; [done|]. destruct os as [|t' os]; simpl rest_of.
  - rewrite app_nil_r. by apply before_none.
  - by apply before_app.
Qed.

Lemma nfs_loop_join name os : forall fuel (b : bool) o,
  Forall option_ok os -> os <> [] -> (length ((if b then [","]%char else []) ++ join os) <= fuel)%nat ->
  exists o', nfs_loop fuel name ((if b then [","]%char else []) ++ join os) o = Some o' /\
    o_rdma o' = o_rdma o || existsb (fun t => bool_decide (t = str "proto=rdma") || bool_decide (t = str "rdma")) os /\
    o_nosymlink o' = o_nosymlink o || existsb (fun t => bool_decide (t = str "nosymlink")) os /\
    o_nobind o' = o_nobind o || existsb (fun t => bool_decide (t = str "nobind")) os /\
    o_out o' = o_out o ++ written os.
Proof.
  induction os as [|t os IH]; intros fuel b o Hos Hne Hlen; [done|]. clear Hne.
  inversion Hos as [|? ? Ht Hos']; subst. destruct (round_option b t os Ht) as [Hcp Htok].
  set (comma := (if b then [","]%char else []) ++ join (t :: os)) in *.
  assert (comma <> []) as Hcomma.
  { unfold comma. rewrite join_cons. destruct Ht as (Hne & _). destruct b, t; done. }
  destruct fuel as [|fuel]; [destruct comma; [done|simpl in Hlen; lia]|].
  assert (nfs_loop (S fuel) name comma o
          = nfs_loop fuel name (rest_of os) (nfs_option name (t ++ rest_of os) t o)) as ->.
  { destruct comma as [|c s] eqn:E; [done|]. cbn [nfs_loop]. cbn zeta. rewrite Hcp.
    rewrite Hcp in Htok. rewrite Htok. by rewrite drop_app_length. }
  destruct (nfs_option_ok name t (rest_of os) o Ht) as (E1 & E2 & E3 & E4).
  set (o1 := nfs_option name (t ++ rest_of os) t o) in *. clearbody o1.
  destruct os as [|t2 os].
  - exists o1. split; [by destruct fuel|]. simpl. rewrite E1, E2, E3, E4.
    rewrite !orb_false_r, orb_assoc, app_nil_r. split_and!; try done. by destruct (own t); rewrite ?app_nil_r.
  - destruct (IH fuel true o1) as (o' & Hrun & F1 & F2 & F3 & F4); [done|done| |].
    { pose proof (join_cons t (t2 :: os)) as Hj. unfold comma in Hlen. rewrite Hj, !length_app in Hlen.
      destruct Ht as (Hne & _). destruct t; [done|]. simpl in Hlen |- *. lia. }
    exists o'. split; [exact Hrun|]. rewrite F1, F2, F3, F4, E1, E2, E3, E4.
    cbn [existsb written]. rewrite !orb_assoc. split_and!; try done.
    destruct (own t); simpl; [done|]. by rewrite <- !app_assoc.
Qed.

Lemma existsb_mem (s : cstring) os : existsb (fun t => bool_decide (t = s)) os = bool_decide (s ∈ os).
Proof.
  apply eq_bool_prop_intro. rewrite !Is_true_true, bool_decide_eq_true, existsb_exists.
  split.
  - intros (t & Ht & ->%bool_decide_eq_true). by apply list_elem_of_In.
  - intros H. exists s. split; [by apply list_elem_of_In|by apply bool_decide_eq_true].
Qed.

Lemma existsb_two {A} (p q : A -> bool) l : existsb (fun t => p t || q t) l = existsb p l || existsb q l.
Proof. induction l as [|x l IH]; simpl; [done|]. rewrite IH. by destruct (p x), (q x), (existsb p l). Qed.

(** ** The theorems about options *)

(** The option loop returns for every string, what it writes fits into the buffer
    of the length of the string and two, with a NUL behind it, and a protocol is
    always left to be asked for. *)
Theorem nfs_options_total name options o :
  o_out o = [] ->
  exists o', nfs_options name (Some options) o = Some o' /\
    Z.of_nat (length (o_out o')) + 1 <= strlen options + 2 /\ flag (o_vers o') NFS_PROTO_MASK = true.
Proof.
  intros Ho. unfold nfs_options.
  destruct (nfs_loop_total name (length options) options o) as (o1 & -> & Hlen); [done|].
  rewrite Ho in Hlen. simpl in Hlen. unfold strlen.
  eexists. split; [reflexivity|]. destruct (_ =? 0) eqn:E.
  - split; [simpl; destruct (decide _), (decide _); lia|]. apply flag_lor_r. by vm_compute.
  - split; [destruct (decide _), (decide _); lia|]. unfold flag. by rewrite E.
Qed.

Definition opts0 : nfs_opts := nfs_init 0 4 (str "key") (str "nfs").

Lemma nfs_options_total_witness :
  exists o', nfs_options (str "key") (Some (str "ro, vers=3,,udp ")) opts0 = Some o' /\
    Z.of_nat (length (o_out o')) + 1 <= strlen (str "ro, vers=3,,udp ") + 2 /\
    flag (o_vers o') NFS_PROTO_MASK = true.
Proof. apply nfs_options_total. reflexivity. Defined.

(** From a list of options separated by single commas the loop takes the options of
    autofs itself by their exact name; the others are passed to mount.nfs, in their
    order and each once. *)
Theorem nfs_options_list name os o :
  Forall option_ok os -> os <> [] -> o_out o = [] ->
  exists o', nfs_options name (Some (join os)) o = Some o' /\
    o_rdma o' = o_rdma o || bool_decide (str "proto=rdma" ∈ os) || bool_decide (str "rdma" ∈ os) /\
    o_nosymlink o' = o_nosymlink o || bool_decide (str "nosymlink" ∈ os) /\
    o_nobind o' = o_nobind o || bool_decide (str "nobind" ∈ os) /\
    o_out o' = written os.
Proof.
  intros Hos Hne Ho. unfold nfs_options.
  destruct (nfs_loop_join name os (length (join os)) false o) as (o1 & Hrun & E1 & E2 & E3 & E4); [done..|].
  simpl in Hrun. rewrite Hrun, existsb_two in *. rewrite !existsb_mem in *. rewrite Ho in E4.
  eexists. split; [reflexivity|]. destruct (_ =? 0); simpl; rewrite E1, E2, E3, E4, ?orb_assoc; done.
Qed.

Lemma nfs_options_list_witness :
  exists o', nfs_options (str "key") (Some (str "ro,nobind,vers=3")) opts0 = Some o' /\
    o_rdma o' = false || false || false /\ o_nosymlink o' = false || false /\
    o_nobind o' = false || true /\ o_out o' = str "ro,vers=3" ++ [NUL].
Proof.
  apply (nfs_options_list (str "key") [str "ro"; str "nobind"; str "vers=3"] opts0).
  - refine (bool_decide_eq_true_1 _ _). vm_compute. reflexivity.
  - discriminate.
  - reflexivity.
Defined.

(** A comma or a blank at the end of the options makes an empty option, which
    compares equal to every name: it turns off the probes, as "rdma" does, and bind
    mounts, as "nosymlink" does. *)
Theorem empty_option_matches :
  (fun o => (o_rdma o, o_nosymlink o)) <$> nfs_options (str "key") (Some (str "rw,")) opts0 = Some (true, true) /\
  (fun o => (o_rdma o, o_nosymlink o)) <$> nfs_options (str "key") (Some (str "rw")) opts0 = Some (false, false).
Proof. vm_compute. split; reflexivity. Qed.

(** A blank behind an option is part of its name: the comment of the code says that
    it is skipped. *)
Theorem trailing_blank_not_skipped :
  (fun o => o_vers o) <$> nfs_options (str "key") (Some (str "vers=3 ,ro")) opts0 = Some (o_vers opts0) /\
  (fun o => o_vers o) <$> nfs_options (str "key") (Some (str "vers=3,ro")) opts0 <> Some (o_vers opts0).
Proof. split; [reflexivity|]. vm_compute. discriminate. Qed.

(** * The hosts of an NFS mount, from the location to the mount

    [nfs_hosts] composes the parser of locations and the pruning of hosts; the mount
    tries the hosts in order and frees them. *)

Implicit Types (h : gmap positive host) (l : list positive).

Section Run.
Context (libtirpc : bool) (ifs : option (list ifaddr)).
Context (getaddrinfo : bool -> cstring -> option (list sockaddr)).
Context (string_options : bool) (mount_wait kern_vers : Z) (use_hostname : bool).
Abbreviation prune := (prune_host_list string_options mount_wait kern_vers use_hostname).

(** ** Pruning keeps the list in order *)

Lemma pruned_hosts_ok h list l r h' l' :
  host_list h list l -> owns h l -> pruned h l r h' l' -> host_list h' r.2 l' /\ owns h' l'.
Proof.
  intros HL Hown [Hc _ Hs Hsub _ Hk Hfreed Hother].
  assert (forall a x, h' !! a = Some x -> a ∈ l) as Hin.
  { intros a x Hx. destruct (decide (a ∈ l)) as [|Hn]; [done|]. rewrite (Hother a Hn) in Hx. eauto. }
  split; [split|].
  - done.
  - done.
  - intros a x Hx. by destruct (Hk a x Hx).
  - intros a Ha. rewrite (kept_prox h h' a Hk) by (by eapply lseg_live). apply HL. auto.
  - intros a x Ha Hx Hn. destruct (Hk a x Hx) as [_ (x0 & Hx0 & E)]. apply fixed_prox in E as [-> E].
    rewrite E in Hn. eapply (hl_name _ _ _ HL); [|exact Hx0|done]. auto.
  - intros a x Hx. destruct (decide (a ∈ l')) as [|Hn]; [done|]. exfalso.
    rewrite (Hfreed a) in Hx; [done|by eapply Hin|done].
Qed.

Lemma prune_runs h list vers port : hosts_ok h list -> runs h (prune list vers port) ret_ok.
Proof.
  intros [l [HL Hown]]. eapply runs_conseq; [by apply prune_run|].
  intros r h' (l' & Hp & _). exists l'. by eapply pruned_hosts_ok.
Qed.

(** ** The probe with a copy of the host *)

Lemma host_list_other h list l t x :
  host_list h list l -> h !! t = None -> good_host x ->
  host_list (<[t := x]> h) (Some t) [t].
Proof.
  intros HL Ht (E1 & E2 & E3 & E4). split.
  - split; [done|]. exists x. by rewrite lookup_insert_eq.
  - repeat constructor.
  - intros a y Hy. apply lookup_insert_Some in Hy as [[_ <-]|[_ Hy]]; [done|]. by eapply HL.
  - intros a ->%list_elem_of_singleton. unfold prox. by rewrite lookup_insert_eq.
  - intros a y ->%list_elem_of_singleton. rewrite lookup_insert_eq. by intros [= <-].
Qed.

(** What is left of the store when the list of the copy has been freed. *)
Lemma free_copy_runs h list h' l' t :
  chain h' list l' -> l' ⊆ [t] -> (t ∉ l' -> h' !! t = None) ->
  (forall b, b ∉ [t] -> h' !! b = h !! b) -> h !! t = None ->
  runs h' (match list with Some _ => free_host_list list;; mret true | None => mret false end)
    (fun _ h2 => h2 = h).
Proof.
  intros Hc Hsub Hfreed Hother Ht. destruct list as [a|].
  - unfold free_host_list. eapply (runs_bind _ _ _ (fun _ h2 => h2 = h)).
    + apply runs_fuel. eapply runs_bind.
      { apply (free_host_loop_runs l'); [done|by apply chain_length in Hc]. }
      intros u h2 H2. apply runs_ret. apply map_eq. intros b. rewrite H2. case_decide as Hb.
      * apply Hsub, list_elem_of_singleton in Hb as ->. by symmetry.
      * destruct (decide (b = t)) as [->|]; [rewrite Hfreed; [by symmetry|done]|]. apply Hother. set_solver.
    + intros u h2 ->. by apply runs_ret.
  - apply chain_None in Hc as ->. apply runs_ret. apply map_eq. intros b.
    destruct (decide (b = t)) as [->|]; [rewrite Hfreed; [by symmetry|set_solver]|]. apply Hother. set_solver.
Qed.

Lemma v4_probe_runs h list l x port :
  host_list h list l -> good_host (set_h_next None x) ->
  runs h
    (tmp ← new_host (h_name x) 0 (h_addr x) (h_addr_len x) (h_proximity x) (h_weight x) (h_options x);
     match tmp with
     | Some t =>
         update t (set_h_rr (h_rr x));;
         '(_, tmp) ← prune tmp (Z.lor NFS4_VERS_MASK TCP_REQUESTED) port;
         match tmp with
         | Some _ => free_host_list tmp;; mret true
         | None => mret false
         end
     | None => mret false
     end) (fun _ h' => h' = h).
Proof.
  intros HL Hgood. unfold new_host.
  destruct (h_name x) as [name|] eqn:En; [|by apply runs_ret].
  destruct (h_addr x) as [addr|]; [|by apply runs_ret].
  eapply (runs_bind _ _ _ (fun tmp h' => match tmp with
    | None => h' = h
    | Some t => h !! t = None /\ exists y, good_host y /\ h' = <[t := y]> h
    end)).
  { do 3 (apply runs_malloc; intros []; [|by apply runs_ret]). simpl. apply runs_new. apply runs_ret.
    split; [apply fresh_host|]. eexists. split; [|reflexivity].
    destruct Hgood as (_ & _ & H3 & _). by repeat split. }
  intros [t|] h'; [|intros ->; by apply runs_ret]. intros (Ht & y & Hy & ->).
  eapply runs_update; [by rewrite lookup_insert_eq|]. rewrite insert_insert_eq.
  assert (good_host (set_h_rr (h_rr x) y)) as Hy' by by destruct y.
  set (y' := set_h_rr (h_rr x) y) in *. clearbody y'.
  eapply runs_bind; [apply prune_run; by eapply host_list_other|].
  intros [ret tmp] h2 (l' & [Hc _ _ Hsub _ _ Hfreed Hother] & _). simpl in Hc.
  apply (free_copy_runs h tmp h2 l' t); try done.
  - intros Hn. apply Hfreed; [set_solver|done].
  - intros b Hb. rewrite Hother by done. apply lookup_insert_ne. set_solver.
Qed.

(** ** The list of hosts to try *)

Lemma hosts_good h list l a x : host_list h list l -> a ∈ l -> h !! a = Some x -> good_host (set_h_next None x).
Proof.
  intros [_ _ Hcost Hp Hn] Ha Hx. split_and!; simpl; [done|eauto| |eauto].
  specialize (Hp a Ha). unfold prox in Hp. by rewrite Hx in Hp.
Qed.

Lemma nfs_hosts_run mount_default_proto what o :
  NUL ∉ what -> "["%char ∉ what ->
  runs ∅ (nfs_hosts libtirpc ifs getaddrinfo string_options mount_wait kern_vers use_hostname
            mount_default_proto what o) (fun hosts h' => hosts_ok h' hosts).
Proof.
  intros Hnul Hb. unfold nfs_hosts. eapply runs_bind.
  { apply parse_location_run; [apply hosts_ok_empty|done..]. }
  intros [ok hosts] h [Hh H0]. simpl in Hh, H0. destruct (ok =? 0) eqn:Eok; boolify.
  { apply runs_ret. destruct (H0 Eok) as [-> | ->]; done. }
  destruct (o_rdma o); [by apply runs_ret|].
  assert (runs h ('(_, hosts) ← prune hosts (o_vers o) (o_port o); mret hosts)
            (fun hosts h' => hosts_ok h' hosts)) as Hprune.
  { eapply runs_bind; [by apply prune_runs|]. intros [r hosts'] h' H. by apply runs_ret. }
  eapply (runs_bind _ _ _ (fun _ h' => h' = h)).
  { destruct hosts as [a|]; [|by apply runs_ret]. destruct Hh as [l [HL _]].
    pose proof (hl_chain _ _ _ HL) as Hc. destruct l as [|b l]; [done|].
    destruct Hc as [[= ->] (x & Hx & _)]. eapply runs_load; [done|]. by apply runs_ret. }
  intros single h' ->. destruct (_ && negb (flag (o_vers o) _)); [|done].
  eapply (runs_bind _ _ _ (fun _ h' => h' = h)).
  - destruct hosts as [a|]; [|by apply runs_ret]. destruct Hh as [l [HL _]].
    pose proof (hl_chain _ _ _ HL) as Hc. destruct l as [|b l]; [done|].
    destruct Hc as [[= ->] (x & Hx & _)]. eapply runs_load; [done|].
    apply (v4_probe_runs h (Some b) (b :: l)); [done|]. apply (hosts_good h (Some b) (b :: l) b); [done|apply list_elem_of_here|done].
  - intros v4_probe_ok h' ->. destruct v4_probe_ok; [by apply runs_ret|done].
Qed.

End Run.

(** ** The attempts *)

Section Attempts.
Context (use_hostname : bool) (addr_string : sockaddr -> option cstring).

Lemma asks_malloc : asks malloc (fun _ => True).
Proof. intros h. apply (runs_conseq h _ (fun _ h' => h' = h)); [|done]. apply triple_malloc. Qed.

Lemma rpc_pings_asks table : forall port version status, asks (rpc_pings table port version status) (fun _ => True).
Proof.
  induction table as [|[[[bit need] proto] result] table IH]; intros port version status; simpl;
    [by apply asks_ret|]. apply asks_if; [|apply IH].
  eapply (asks_bind _ _ (fun _ => True)).
  - unfold __rpc_ping. eapply (asks_bind _ _ (fun _ => True)).
    + apply asks_if; [by apply asks_ret|apply portmap_port_asks].
    + intros [st p] _. apply asks_if; [by apply asks_ret|].
      eapply asks_bind; [apply ping_asks|]. intros [st' q] _. by apply asks_ret.
  - intros st _. apply asks_if; [by apply asks_ret|apply IH].
Qed.

Lemma nfs_location_asks x :
  is_Some (h_path x) -> asks (nfs_location use_hostname addr_string x) (fun _ => True).
Proof.
  intros [path E]. unfold nfs_location. rewrite E.
  destruct (if _ && _ then h_addr x else None) as [addr|].
  - destruct (addr_string addr); [|by apply asks_ret].
    eapply asks_bind; [apply asks_malloc|]. intros [] _; by apply asks_ret.
  - eapply asks_bind; [apply asks_malloc|]. intros [] _; by apply asks_ret.
Qed.

Lemma try_nfs_asks o x errs :
  is_Some (h_path x) -> asks (try_nfs use_hostname addr_string o x errs) (fun _ => True).
Proof.
  intros Hp. unfold try_nfs. eapply asks_bind; [by apply nfs_location_asks|].
  intros [loc|] _; [|by apply asks_ret]. eapply (asks_bind _ _ (fun _ => True)).
  - apply asks_if; [apply rpc_pings_asks|by apply asks_ret].
  - intros ret _. apply asks_if; [by apply asks_ret|]. destruct (next_err errs). by apply asks_ret.
Qed.

Lemma try_host_asks o x errs :
  is_Some (h_path x) -> asks (try_host use_hostname addr_string o x errs) (fun _ => True).
Proof.
  intros Hp. unfold try_host. apply asks_if; [|by apply try_nfs_asks].
  destruct (next_err errs) as [err errs']. do 2 (apply asks_if; [by apply asks_ret|]).
  destruct (h_name x); [|by apply asks_ret].
  eapply asks_bind; [by apply try_nfs_asks|]. intros [[r tr] es] _. by apply asks_ret.
Qed.

Lemma mount_loop_runs o h l : forall fuel p errs tr,
  chain h p l -> (forall a x, a ∈ l -> h !! a = Some x -> is_Some (h_path x)) -> (length l <= fuel)%nat ->
  runs h (mount_loop use_hostname addr_string fuel o p errs tr) (fun _ h' => h' = h).
Proof.
  induction l as [|a l IH]; intros fuel p errs tr Hc Hpath Hfuel.
  { inversion Hc. subst. destruct fuel; by apply runs_ret. }
  destruct Hc as [-> (x & Hx & Hc)]. destruct fuel as [|fuel]; simpl in Hfuel; [lia|]. simpl.
  eapply runs_load; [done|]. eapply runs_asks; [apply try_host_asks; eapply Hpath; [|done]; set_solver|].
  intros [[[] tr'] errs'] _; [by apply runs_ret..|]. apply IH; [done|set_solver|lia].
Qed.

Lemma free_owned_runs h list l :
  chain h list l -> owns h l -> runs h (free_host_list list) (fun _ h' => h' = ∅).
Proof.
  intros Hc Hown. unfold free_host_list. apply runs_fuel. eapply runs_bind.
  { apply (free_host_loop_runs l); [done|by apply chain_length in Hc]. }
  intros u h' H'. apply runs_ret. apply map_empty. intros a. rewrite H'. case_decide as Ha; [done|].
  destruct (h !! a) as [x|] eqn:E; [by apply Hown in E|done].
Qed.

Lemma mount_hosts_run ap_flags ap_type name_len o h list l mkdir_status eexist errs :
  host_list h list l -> owns h l -> (forall a x, h !! a = Some x -> is_Some (h_path x)) ->
  runs h (mount_hosts use_hostname addr_string ap_flags ap_type name_len o list mkdir_status eexist errs)
    (fun r h' => h' = ∅ /\ (r.1.1 = 0 \/ r.1.1 = 1)).
Proof.
  intros HL Hown Hpath. unfold mount_hosts. destruct (_ && negb eexist).
  - eapply runs_bind; [by eapply free_owned_runs; [apply HL|]|]. intros u h' ->. apply runs_ret. auto.
  - apply runs_fuel. eapply runs_bind.
    { apply (mount_loop_runs o h l); [apply HL|eauto|]. eapply chain_length, HL. }
    intros [mounted tr] h' ->. eapply runs_bind; [by eapply free_owned_runs; [apply HL|]|].
    intros u h' ->. destruct mounted; apply runs_ret; auto.
Qed.

(** ** The order of the attempts *)

(** Mount.nfs is tried with the locations in turn until it succeeds. *)
Fixpoint tried (errs : list Z) (locs : list cstring) : bool * list attempt :=
  match locs with
  | [] => (false, [])
  | loc :: locs =>
      let '(e, errs) := next_err errs in
      if e =? 0 then (true, [Nfs loc])
      else let '(b, tr) := tried errs locs in (b, Nfs loc :: tr)
  end.

(** A remote host that is mounted by its name. *)
Definition remote (x : host) (loc : cstring) : Prop :=
  h_proximity x <> PROXIMITY_LOCAL /\ (h_rr x = 0 \/ use_hostname = true) /\
  exists name path, h_name x = Some name /\ h_path x = Some path /\ loc = name ++ str ":" ++ path.

Lemma try_host_remote o x loc errs s :
  remote x loc ->
  try_host use_hostname addr_string o x errs s []
  = Some ((if (next_err errs).1 =? 0 then Mounted else NextHost, [Nfs loc], (next_err errs).2), s, []).
Proof.
  intros (Hl & Hrr & name & path & En & Ep & ->). unfold try_host, try_nfs, nfs_location.
  apply Z.eqb_neq in Hl. rewrite Hl, Ep, En, andb_false_r.
  assert ((if negb (h_rr x =? 0) && negb use_hostname then h_addr x else None) = None) as ->.
  { destruct Hrr as [-> | ->]; [done|]. by rewrite andb_false_r. }
  cbn. by destruct (next_err errs) as [e es].
Qed.

Lemma mount_loop_order o h net l locs : forall fuel p errs tr,
  chain h p l -> Forall2 (fun a loc => exists x, h !! a = Some x /\ remote x loc) l locs ->
  (length l <= fuel)%nat ->
  mount_loop use_hostname addr_string fuel o p errs tr (RS h net) []
  = Some (((tried errs locs).1, tr ++ (tried errs locs).2), RS h net, []).
Proof.
  intros fuel p errs tr Hc H2. revert fuel p errs tr Hc.
  induction H2 as [|a loc l locs (x & Hx & Hr) H2 IH]; intros fuel p errs tr Hc Hfuel.
  { inversion Hc. subst. destruct fuel; by rewrite app_nil_r. }
  destruct Hc as [-> (y & Hy & Hc)]. assert (y = x) as -> by congruence.
  destruct fuel as [|fuel]; simpl in Hfuel; [lia|]. cbn [mount_loop].
  rewrite (bind_load _ _ _ _ x) by done.
  erewrite bind_some by (by apply try_host_remote). cbn [tried].
  destruct (next_err errs) as [e es]. simpl. destruct (e =? 0); [done|].
  rewrite IH by (done || lia). destruct (tried es locs). simpl. by rewrite <- app_assoc.
Qed.

End Attempts.

(** ** The theorems *)

(** For every location without a bracket, every answer of the resolver, of the
    network and of the allocator, the hosts to try are determined without an error,
    in an ordered list, and no host that is not on this list stays allocated. *)
Theorem nfs_hosts_owned libtirpc ifs getaddrinfo string_options mount_wait kern_vers use_hostname
    mount_default_proto what o :
  NUL ∉ what -> "["%char ∉ what ->
  runs ∅ (nfs_hosts libtirpc ifs getaddrinfo string_options mount_wait kern_vers use_hostname
            mount_default_proto what o)
    (fun hosts h => exists l, host_list h hosts l /\ owns h l).
Proof. apply nfs_hosts_run. Qed.

Lemma nfs_hosts_owned_witness :
  runs ∅ (nfs_hosts true loopback_only resolve_ex true (-1) (KERNEL_VERSION 6 1 0) false 4
            (str "a,b:/p") opts0)
    (fun hosts h => exists l, host_list h hosts l /\ owns h l).
Proof.
  apply nfs_hosts_owned.
  - intros H. pose proof (bool_decide_eq_true_2 _ H) as E. vm_compute in E. discriminate E.
  - intros H. pose proof (bool_decide_eq_true_2 _ H) as E. vm_compute in E. discriminate E.
Defined.


Definition with_path : gmap positive host :=
  {[ 1%positive := set_h_path (Some (str "/p")) (host_at (Some (str "srv")) PROXIMITY_SUBNET 0 None) ]}.

Lemma with_path_list : host_list with_path (Some 1%positive) [1%positive].
Proof.
  split.
  - split; [reflexivity|]. eexists. split; reflexivity.
  - repeat constructor.
  - intros a x. unfold with_path. rewrite lookup_singleton_Some. intros [_ <-]. vm_compute. discriminate.
  - intros a ->%list_elem_of_singleton. vm_compute. discriminate.
  - intros a x _. unfold with_path. rewrite lookup_singleton_Some. intros [_ <-]. discriminate.
Defined.


(** Remote hosts that are mounted by name are tried in the order of the list until
    the first mount that succeeds, and no host behind it is tried. *)
Theorem mount_loop_in_order use_hostname addr_string o h net l locs p errs :
  chain h p l -> Forall2 (fun a loc => exists x, h !! a = Some x /\ remote use_hostname x loc) l locs ->
  mount_loop use_hostname addr_string (size h) o p errs [] (RS h net) []
  = Some (tried errs locs, RS h net, []).
Proof.
  intros Hc H2. rewrite (mount_loop_order use_hostname addr_string o h net l locs) by
    (done || by apply chain_length in Hc). by destruct (tried errs locs).
Qed.

Lemma mount_loop_in_order_witness :
  mount_loop false (fun _ => None) 1 opts0 (Some 1%positive) [5; 0] [] (RS with_path []) []
  = Some ((false, [Nfs (str "srv:/p")]), RS with_path [], []).
Proof.
  apply (mount_loop_in_order false (fun _ => None) opts0 with_path [] [1%positive] [str "srv:/p"]).
  - apply with_path_list.
  - repeat constructor. eexists. split; [reflexivity|]. split; [discriminate|]. split; [left; reflexivity|].
    eexists _, _. split_and!; reflexivity.
Defined.

(** When the second address of a host cannot be stored, the first one is left in
    the list without a path, the location is accepted, and the mount then reads the
    path of this host, a null pointer. *)
Theorem partial_host_crash :
  mount_mount true loopback_only resolve_ex true 0 (KERNEL_VERSION 6 1 0) false (fun _ => None)
    0 LKP_INDIRECT 3 (str "/net") (str "key") 3 (str "srv:/p") (str "nfs") (Some (str "rdma")) 0 false [0]
    (RS ∅ []) [true; true; true; true; true; false]
  = None.
Proof. vm_compute. reflexivity. Qed.

(** A location that ends with a comma behind a host is accepted, with a host that
    has no path, and the mount fails in the same way. *)
Theorem trailing_comma_crash :
  mount_mount true loopback_only resolve_ex true 0 (KERNEL_VERSION 6 1 0) false (fun _ => None)
    0 LKP_INDIRECT 3 (str "/net") (str "key") 3 (str "srv,") (str "nfs") (Some (str "rdma")) 0 false [0]
    (RS ∅ []) []
  = None.
Proof. vm_compute. reflexivity. Qed.
