(* ===== verification/MatchKey.v ===== *)
(** * Matching a key against the cache (lib/parse_subs.c: match_cached_key) *)

From S2P Require Import Prelude CString Cache CacheInv CacheOps CacheProps.

(** The loop over the other entries of a key: the next one of the source. *)
Fixpoint next_of_source (fuel : nat) (source : addr) (me : option addr) : CM (option addr) :=
  match fuel with
  | O => stuck
  | S fuel' =>
      n ← cache_lookup_key_next me;
      match n with
      | None => mret None
      | Some a =>
          e ← deref a;
          if bool_decide (me_source e = source) then mret (Some a) else next_of_source fuel' source (Some a)
      end
  end.

(** The loop of the amd format over the directories above a key; each cut makes
    the key shorter. *)
Fixpoint wild_loop (fuel : nat) (lkp_key : cstring) : CM (option addr) :=
  match fuel with
  | O => stuck
  | S fuel' =>
      match cut_last_slash lkp_key with
      | None => mret None
      | Some prefix =>
          me ← cache_partial_match_wild prefix;
          match me with
          | Some a => mret (Some a)
          | None => wild_loop fuel' prefix
          end
      end
  end.

(** [match_cached_key]: [amd] says whether the source has the amd format, and
    [add_wild] whether a wildcard match is entered in the cache (an indirect map
    that is not re-mounted). *)
Definition match_cached_key (amd add_wild : bool) (now : Z) (source : addr) (key : cstring) : CM (option addr) :=
  if negb amd then
    me ← cache_lookup (Some key);
    me ← (match me with
          | None => mret None
          | Some a =>
              e ← deref a;
              if bool_decide (me_mapent e = None) ||
                 (negb (bool_decide (me_source e = source)) && negb (hd_char (me_key e) =a "/")) then
                fuel ← chain_fuel;
                n ← next_of_source fuel source (Some a);
                match n with
                | Some b => mret (Some b)
                | None =>
                    w ← cache_lookup_distinct (Some STAR);
                    match w with
                    | None => mret None
                    | Some b =>
                        e ← deref b;
                        mret (if bool_decide (me_source e = source) then Some b else None)
                    end
                end
              else mret (Some a)
          end);
    match me with
    | None => mret None
    | Some a =>
        e ← deref a;
        if add_wild && (hd_char (me_key e) =a "*") then
          ret ← cache_update source key (me_mapent e) now;
          mret (if Z.land ret (Z.lor CHE_OK CHE_UPDATED) =? 0 then None else Some a)
        else mret (Some a)
    end
  else
    ok ← malloc;
    if negb ok then mret None
    else
      me ← cache_lookup_distinct (Some key);
      match me with
      | Some a => mret (Some a)
      | None =>
          me ← wild_loop (S (length key)) key;
          match me with
          | Some a => mret (Some a)
          | None => cache_lookup_distinct (Some STAR)
          end
      end.

(** ** The amd format *)

(** The directories above a key, the longest first. *)
Fixpoint prefixes (fuel : nat) (key : cstring) : list cstring :=
  match fuel with
  | O => []
  | S fuel' =>
      match cut_last_slash key with
      | None => []
      | Some p => p :: prefixes fuel' p
      end
  end.

Fixpoint first_some {A B} (f : A -> option B) (l : list A) : option B :=
  match l with
  | [] => None
  | x :: l' => match f x with Some y => Some y | None => first_some f l' end
  end.

(** What the amd format matches: the key itself, else the first wildcard entry
    below the longest directory above the key that has one, else the wildcard. *)
Definition amd_match (mc : mapent_cache) (cs : list (list addr)) (key : cstring) : option addr :=
  match head (entries mc cs key) with
  | Some a => Some a
  | None =>
      match first_some (fun p => ffind (mc_heap mc) (partial_test p LKP_WILD) (concat cs))
              (prefixes (S (length key)) key) with
      | Some a => Some a
      | None => head (entries mc cs STAR)
      end
  end.

Lemma cut_last_slash_shorter s p : cut_last_slash s = Some p -> (length p < length s)%nat.
Proof.
  unfold cut_last_slash. destruct (strrchr s "/"%char) as [t|] eqn:E; [|done]. intros [= <-].
  apply strrchr_Some in E as (q & -> & Ht & _). destruct t as [|c t]; [done|].
  rewrite length_take, length_app. simpl. lia.
Qed.

Lemma wild_loop_reads mc cs fuel : forall key,
  wf mc cs -> (length key < fuel)%nat ->
  reads (wild_loop fuel key) mc
    (first_some (fun p => ffind (mc_heap mc) (partial_test p LKP_WILD) (concat cs)) (prefixes fuel key)).
Proof.
  induction fuel as [|fuel IH]; intros key W Hf m; [lia|]. cbn [wild_loop prefixes].
  destruct (cut_last_slash key) as [p|] eqn:E; [|done]. apply cut_last_slash_shorter in E. cbn [first_some].
  rewrite (reads_bind _ _ _ _ _ (partial_match_reads mc cs W p LKP_WILD)).
  destruct (ffind _ _ _); [done|]. apply IH; [done|lia].
Qed.

(** For a map of the amd format [match_cached_key] terminates, changes
    nothing, and returns the entry of the key, else a wildcard entry below the
    longest directory above the key that has one, else the wildcard entry of the
    map; without memory it returns nothing. *)
Theorem match_cached_key_amd mc cs w now source key m :
  wf mc cs ->
  exists r m', match_cached_key true w now source key mc m = Some (r, mc, m') /\
    (r = None \/ r = amd_match mc cs key) /\ (m = [] -> r = amd_match mc cs key).
Proof.
  intros W. unfold match_cached_key. cbn [negb].
  set (k := fun ok : bool => if negb ok then mret None else _ : CM (option addr)).
  destruct (bind_malloc k mc m) as (b & m' & Hb & Hm). setoid_rewrite Hb. unfold k. clear k Hb.
  destruct b; cbn [negb].
  - exists (amd_match mc cs key), m'. split; [|auto]. unfold amd_match.
    rewrite (reads_bind _ _ _ _ _ (lookup_distinct_reads mc cs W key)).
    destruct (head (entries mc cs key)); [done|].
    rewrite (reads_bind _ _ _ _ _ (wild_loop_reads mc cs (S (length key)) key W ltac:(lia))).
    destruct (first_some _ _); [done|]. by apply lookup_distinct_reads.
  - exists None, m'. split; [done|]. split; [by left|]. intros ->. by destruct (Hm eq_refl).
Qed.

Lemma match_cached_key_amd_witness :
  let mc := one_bucket (Some 1%positive) {[ 1%positive := entry None "a/*" "srv:/x" ]} in
  wf mc [[1%positive]] /\
  exists r m', match_cached_key true false 0 1%positive (str "a/b/c") mc [] = Some (r, mc, m') /\
    r = amd_match mc [[1%positive]] (str "a/b/c").
Proof.
  intros mc. assert (wf mc [[1%positive]]) as W.
  { apply wf_one_bucket. simpl. split; [done|]. by eexists. }
  split; [exact W|].
  destruct (match_cached_key_amd mc [[1%positive]] false 0 1%positive (str "a/b/c") [] W)
    as (r & m' & Hrun & _ & Hr).
  exists r, m'. split; [exact Hrun|]. apply Hr. reflexivity.
Defined.
