(* ===== verification/Base64.v ===== *)
(** * Base64 (modules/base64.c)

    Encoding and decoding with the sizes of the target buffers: a write behind the
    end of a buffer, or a read behind the end of the source, leaves the model
    ([None]). *)

From S2P Require Import Prelude CString Hash.
Open Scope Z_scope.

(** ** Encoding *)

Definition BASE64_CHARS : cstring :=
  str "ABCDEFGHIJKLMNOPQRSTUVWXYZabcdefghijklmnopqrstuvwxyz0123456789+/".

Definition base64_char (v : Z) : ascii := nth (Z.to_nat v) BASE64_CHARS NUL.

(** A byte of a value. *)
Definition byte (v : Z) : ascii := ascii_of_N (Z.to_N (v mod 256)).

(** The loop from the last character on: [result[3 - i]] for the rounds [i]. *)
Fixpoint encode_digits (n : nat) (v : Z) (acc : cstring) : cstring :=
  match n with
  | O => acc
  | S n => encode_digits n (v / 64) (base64_char (v mod 64) :: acc)
  end.

Definition _base64_encode_triple (a b c : ascii) : cstring :=
  let tripleValue := uchar a in
  let tripleValue := tripleValue * 256 in
  let tripleValue := tripleValue + uchar b in
  let tripleValue := tripleValue * 256 in
  let tripleValue := tripleValue + uchar c in
  encode_digits 4 tripleValue [].

(** What is written to the target before the NUL. *)
Fixpoint encode_source (source : cstring) : cstring :=
  match source with
  | a :: b :: c :: source => _base64_encode_triple a b c ++ encode_source source
  | [a; b] => take 3 (_base64_encode_triple a b NUL) ++ str "="
  | [a] => take 2 (_base64_encode_triple a NUL NUL) ++ str "=="
  | [] => []
  end.

(** The return value and what has been written. *)
Definition base64_encode (source : cstring) (targetlen : Z) : option (Z * cstring) :=
  if u64 (targetlen - 1) <? (strlen source + 2) / 3 * 4 then Some (0, [])
  else
    let target := encode_source source ++ [NUL] in
    if strlen target <=? targetlen then Some (1, target) else None.

(** ** Decoding *)

Definition _base64_char_value (c : ascii) : Z :=
  let v := schar c in
  if (65 <=? v) && (v <=? 90) then v - 65
  else if (97 <=? v) && (v <=? 122) then v - 97 + 26
  else if (48 <=? v) && (v <=? 57) then v - 48 + 2 * 26
  else if c =a "+" then 2 * 26 + 10
  else if c =a "/" then 2 * 26 + 11
  else -1.

(** The check of the characters, from the last one on: the values, with 0 for the
    padding, and [bytes_to_decode]. [None] is [return 0]. *)
Fixpoint check_chars (rquad : cstring) (only_equals_yet : bool) (bytes_to_decode : Z) :
    option (list Z * Z) :=
  match rquad with
  | [] => Some ([], bytes_to_decode)
  | c :: rquad =>
      let v := _base64_char_value c in
      if v <? 0 then
        if only_equals_yet && (c =a "=") then
          match check_chars rquad only_equals_yet (bytes_to_decode - 1) with
          | Some (vs, n) => Some (0 :: vs, n)
          | None => None
          end
        else None
      else
        match check_chars rquad false bytes_to_decode with
        | Some (vs, n) => Some (v :: vs, n)
        | None => None
        end
  end.

(** [result[n - 1]] down to [result[0]]. *)
Fixpoint decode_bytes (n : nat) (v : Z) (acc : cstring) : cstring :=
  match n with
  | O => acc
  | S n => decode_bytes n (v / 256) (byte v :: acc)
  end.

Fixpoint div256 (n : nat) (v : Z) : Z :=
  match n with
  | O => v
  | S n => div256 n (v / 256)
  end.

(** The bytes of a quadruple; the length of the list is the return value. *)
Definition _base64_decode_triple (quadruple : cstring) : cstring :=
  match check_chars (rev quadruple) true 3 with
  | None => []
  | Some (vs, bytes_to_decode) =>
      let bytes_to_decode := if bytes_to_decode <? 0 then 0 else bytes_to_decode in
      let triple_value := foldl (fun t v => t * 64 + v) 0 (rev vs) in
      let triple_value := div256 (Z.to_nat (3 - bytes_to_decode)) triple_value in
      decode_bytes (Z.to_nat bytes_to_decode) triple_value []
  end.

(** The next character, and the rest; [None] when the end is reached. *)
Fixpoint next_char (src : cstring) : option (ascii * cstring) :=
  match src with
  | [] => None
  | c :: src => if negb (c =a "=") && (_base64_char_value c <? 0) then next_char src else Some (c, src)
  end.

Fixpoint next_chars (n : nat) (src : cstring) : option (cstring * cstring) :=
  match n with
  | O => Some ([], src)
  | S n =>
      match next_char src with
      | None => None
      | Some (c, src) =>
          match next_chars n src with
          | Some (q, src) => Some (c :: q, src)
          | None => None
          end
      end
  end.

(** [None] is leaving the buffers; [Some None] is the return value -1. *)
Fixpoint decode_loop (fuel : nat) (src : cstring) (targetlen : Z) (target : cstring) :
    option (option cstring) :=
  match next_chars 4 src with
  | None => None
  | Some (quadruple, src) =>
      let tmpresult := _base64_decode_triple quadruple in
      let tmplen := strlen tmpresult in
      if targetlen <? tmplen then Some None
      else
        let target := target ++ tmpresult in
        if tmplen =? 3 then
          match fuel with
          | O => None
          | S fuel => decode_loop fuel src (targetlen - tmplen) target
          end
        else Some (Some target)
  end.

(** The bytes that have been converted; the return value is their number. *)
Definition base64_decode (malloc_ok : bool) (source : cstring) (targetlen : Z) : option (option cstring) :=
  if negb malloc_ok then Some None
  else decode_loop (length source) (source ++ str "====") targetlen [].

(** ** Triples *)

Lemma byte_uchar c : byte (uchar c) = c.
Proof.
  unfold byte. rewrite Z.mod_small by apply uchar_range. unfold uchar. rewrite N2Z.id.
  apply ascii_N_embedding.
Qed.

Lemma base64_char_value v : 0 <= v < 64 -> _base64_char_value (base64_char v) = v.
Proof.
  intros Hv. assert (forallb (fun n => _base64_char_value (base64_char (Z.of_nat n)) =? Z.of_nat n) (seq 0 64) = true)
    as H by by vm_compute.
  rewrite forallb_forall in H. specialize (H (Z.to_nat v)). rewrite Z2Nat.id in H by lia.
  apply Z.eqb_eq, H, in_seq. lia.
Qed.

Lemma base64_char_valid v : 0 <= v < 64 -> (_base64_char_value (base64_char v) <? 0) = false.
Proof. intros Hv. rewrite base64_char_value by done. apply Z.ltb_ge. lia. Qed.

(** The digits of the value of three bytes. *)
Lemma triple_digits v :
  0 <= v < 2 ^ 24 ->
  exists d0 d1 d2 d3, encode_digits 4 v [] = [base64_char d0; base64_char d1; base64_char d2; base64_char d3] /\
    0 <= d0 < 64 /\ 0 <= d1 < 64 /\ 0 <= d2 < 64 /\ 0 <= d3 < 64 /\
    v = ((d0 * 64 + d1) * 64 + d2) * 64 + d3.
Proof.
  intros Hv. exists (v / 64 / 64 / 64 mod 64), (v / 64 / 64 mod 64), (v / 64 mod 64), (v mod 64).
  split; [done|]. rewrite !Z.div_div by lia.
  pose proof (Z.div_mod v 64). pose proof (Z.div_mod (v / 64) 64). pose proof (Z.div_mod (v / 64 / 64) 64).
  rewrite !Z.div_div in * by lia. assert (0 <= v / (64 * 64 * 64) < 64) by
    (split; [apply Z.div_pos; lia|apply Z.div_lt_upper_bound; lia]).
  rewrite (Z.mod_small (v / (64 * 64 * 64))) by done.
  repeat split; try (apply Z.mod_pos_bound; lia); lia.
Qed.

Lemma triple_value_range a b c : 0 <= (uchar a * 256 + uchar b) * 256 + uchar c < 2 ^ 24.
Proof. pose proof (uchar_range a). pose proof (uchar_range b). pose proof (uchar_range c). lia. Qed.

(** Valid characters pass the check and have their values. *)
Lemma check_valid d rquad b n :
  0 <= d < 64 ->
  check_chars (base64_char d :: rquad) b n
  = match check_chars rquad false n with Some (vs, m) => Some (d :: vs, m) | None => None end.
Proof. intros Hd. cbn [check_chars]. by rewrite base64_char_valid, base64_char_value by done. Qed.

Lemma next_char_valid d r : 0 <= d < 64 -> next_char (base64_char d :: r) = Some (base64_char d, r).
Proof. intros Hd. cbn [next_char]. by rewrite base64_char_valid, andb_false_r by done. Qed.

Lemma next_chars_valid d0 d1 d2 d3 r :
  0 <= d0 < 64 -> 0 <= d1 < 64 -> 0 <= d2 < 64 -> 0 <= d3 < 64 ->
  next_chars 4 ([base64_char d0; base64_char d1; base64_char d2; base64_char d3] ++ r)
  = Some ([base64_char d0; base64_char d1; base64_char d2; base64_char d3], r).
Proof. intros H0 H1 H2 H3. cbn [next_chars app]. by rewrite !next_char_valid by done. Qed.

Lemma bytes_of_triple a b c :
  let v := (uchar a * 256 + uchar b) * 256 + uchar c in
  byte v = c /\ byte (v / 256) = b /\ byte (v / 256 / 256) = a.
Proof.
  intros v. pose proof (uchar_range a). pose proof (uchar_range b). pose proof (uchar_range c).
  assert (v / 256 = uchar a * 256 + uchar b) as E1.
  { unfold v. rewrite Z.div_add_l by lia. rewrite (Z.div_small (uchar c)) by lia. lia. }
  assert ((uchar a * 256 + uchar b) / 256 = uchar a) as E2.
  { rewrite Z.div_add_l by lia. rewrite (Z.div_small (uchar b)) by lia. lia. }
  rewrite E1, E2, byte_uchar. split_and!; [| |done].
  - transitivity (byte (uchar c)); [|apply byte_uchar]. unfold byte, v. f_equal. f_equal.
    rewrite Z.add_comm, Z.mod_add by lia. done.
  - transitivity (byte (uchar b)); [|apply byte_uchar]. unfold byte. f_equal. f_equal.
    rewrite Z.add_comm, Z.mod_add by lia. done.
Qed.

(** A triple, and one or two bytes with padding, are decoded. *)
Lemma decode_triple_3 a b c : _base64_decode_triple (_base64_encode_triple a b c) = [a; b; c].
Proof.
  destruct (triple_digits _ (triple_value_range a b c)) as (d0 & d1 & d2 & d3 & E & H0 & H1 & H2 & H3 & Ev).
  unfold _base64_encode_triple. rewrite E. unfold _base64_decode_triple. cbn [rev app].
  rewrite !check_valid by done. cbn [check_chars rev app foldl]. change (3 <? 0) with false. cbn iota.
  change (Z.to_nat (3 - 3)) with O. change (Z.to_nat 3) with 3%nat. cbn [div256 decode_bytes].
  replace ((((0 * 64 + d0) * 64 + d1) * 64 + d2) * 64 + d3) with ((uchar a * 256 + uchar b) * 256 + uchar c) by lia.
  by destruct (bytes_of_triple a b c) as (-> & -> & ->).
Qed.

Lemma decode_triple_2 a b :
  exists d0 d1 d2, take 3 (_base64_encode_triple a b NUL) = [base64_char d0; base64_char d1; base64_char d2] /\
    0 <= d0 < 64 /\ 0 <= d1 < 64 /\ 0 <= d2 < 64 /\
    _base64_decode_triple [base64_char d0; base64_char d1; base64_char d2; "="%char] = [a; b].
Proof.
  destruct (triple_digits _ (triple_value_range a b NUL)) as (d0 & d1 & d2 & d3 & E & H0 & H1 & H2 & H3 & Ev).
  exists d0, d1, d2. unfold _base64_encode_triple. rewrite E. split; [done|]. split_and!; try lia.
  unfold _base64_decode_triple. cbn [rev app].
  change (check_chars ("="%char :: ?r) true 3) with
    (match check_chars r true 2 with Some (vs, n) => Some (0 :: vs, n) | None => None end).
  rewrite !check_valid by done. cbn [check_chars rev app foldl].
  change (2 <? 0) with false. cbn iota.
  change (Z.to_nat (3 - 2)) with 1%nat. change (Z.to_nat 2) with 2%nat. cbn [div256 decode_bytes].
  change (uchar NUL) with 0 in Ev. assert (d3 = 0) as E3 by lia.
  replace ((((0 * 64 + d0) * 64 + d1) * 64 + d2) * 64 + 0) with ((uchar a * 256 + uchar b) * 256 + uchar NUL)
    by (change (uchar NUL) with 0; lia).
  by destruct (bytes_of_triple a b NUL) as (_ & -> & ->).
Qed.

Lemma decode_triple_1 a :
  exists d0 d1, take 2 (_base64_encode_triple a NUL NUL) = [base64_char d0; base64_char d1] /\
    0 <= d0 < 64 /\ 0 <= d1 < 64 /\
    _base64_decode_triple [base64_char d0; base64_char d1; "="%char; "="%char] = [a].
Proof.
  destruct (triple_digits _ (triple_value_range a NUL NUL)) as (d0 & d1 & d2 & d3 & E & H0 & H1 & H2 & H3 & Ev).
  exists d0, d1. unfold _base64_encode_triple. rewrite E. split; [done|]. split_and!; try lia.
  unfold _base64_decode_triple. cbn [rev app].
  change (check_chars ("="%char :: "="%char :: ?r) true 3) with
    (match match check_chars r true 1 with Some (vs, n) => Some (0 :: vs, n) | None => None end
     with Some (vs, n) => Some (0 :: vs, n) | None => None end).
  rewrite !check_valid by done. cbn [check_chars rev app foldl].
  change (1 <? 0) with false. cbn iota.
  change (Z.to_nat (3 - 1)) with 2%nat. change (Z.to_nat 1) with 1%nat. cbn [div256 decode_bytes].
  change (uchar NUL) with 0 in Ev. assert (d3 = 0 /\ d2 = 0) as [E3 E2] by lia.
  replace ((((0 * 64 + d0) * 64 + d1) * 64 + 0) * 64 + 0) with ((uchar a * 256 + uchar NUL) * 256 + uchar NUL)
    by (change (uchar NUL) with 0; lia).
  by destruct (bytes_of_triple a NUL NUL) as (_ & _ & ->).
Qed.

(** ** Round trip *)

Lemma encode_triple_shape a b c :
  exists d0 d1 d2 d3, _base64_encode_triple a b c = [base64_char d0; base64_char d1; base64_char d2; base64_char d3] /\
    0 <= d0 < 64 /\ 0 <= d1 < 64 /\ 0 <= d2 < 64 /\ 0 <= d3 < 64.
Proof.
  destruct (triple_digits _ (triple_value_range a b c)) as (d0 & d1 & d2 & d3 & E & H0 & H1 & H2 & H3 & _).
  exists d0, d1, d2, d3. done.
Qed.

Lemma decode_round fuel a b c r n target :
  3 <= n ->
  decode_loop (S fuel) (_base64_encode_triple a b c ++ r) n target
  = decode_loop fuel r (n - 3) (target ++ [a; b; c]).
Proof.
  intros Hn. destruct (encode_triple_shape a b c) as (d0 & d1 & d2 & d3 & E & H0 & H1 & H2 & H3).
  pose proof (decode_triple_3 a b c) as Hd. rewrite E in Hd |- *. cbn [decode_loop].
  rewrite next_chars_valid by done. cbn beta iota zeta. rewrite Hd. change (strlen [a; b; c]) with 3.
  destruct (n <? 3) eqn:En; boolify; [lia|]. done.
Qed.

Lemma decode_encode m : forall s fuel n target,
  (length s <= m)%nat -> (length s <= fuel)%nat -> strlen s <= n ->
  decode_loop fuel (encode_source s ++ str "====") n target = Some (Some (target ++ s)).
Proof.
  induction m as [|m IH]; intros s fuel n target Hm Hf Hn.
  all: assert (n <? strlen s = false) as Hlt by (apply Z.ltb_ge; lia).
  all: destruct s as [|a [|b [|c s]]]; try (simpl in Hm; lia); unfold strlen in Hn; simpl in Hn.
  1,2: destruct fuel; cbn [decode_loop encode_source app];
    change (next_chars 4 (str "====")) with (Some (str "====", @nil ascii)); cbn beta iota zeta;
    change (_base64_decode_triple (str "====")) with (@nil ascii); rewrite Hlt; done.
  - destruct (decode_triple_1 a) as (d0 & d1 & E & H0 & H1 & Hd). cbn [encode_source]. rewrite E.
    assert (next_chars 4 (([base64_char d0; base64_char d1] ++ str "==") ++ str "====")
            = Some ([base64_char d0; base64_char d1; "="%char; "="%char], str "====")) as Hq.
    { cbn [next_chars app]. by rewrite !next_char_valid by done. }
    destruct fuel; cbn [decode_loop]; rewrite Hq; cbn beta iota zeta; rewrite Hd; rewrite Hlt; done.
  - destruct (decode_triple_2 a b) as (d0 & d1 & d2 & E & H0 & H1 & H2 & Hd). cbn [encode_source]. rewrite E.
    assert (next_chars 4 (([base64_char d0; base64_char d1; base64_char d2] ++ str "=") ++ str "====")
            = Some ([base64_char d0; base64_char d1; base64_char d2; "="%char], str "====")) as Hq.
    { cbn [next_chars app]. by rewrite !next_char_valid by done. }
    destruct fuel; cbn [decode_loop]; rewrite Hq; cbn beta iota zeta; rewrite Hd; rewrite Hlt; done.
  - cbn [encode_source]. simpl in Hm, Hf. destruct fuel as [|fuel]; [lia|].
    rewrite <- app_assoc, decode_round by lia. rewrite IH; [|lia|lia|unfold strlen; lia].
    by rewrite <- app_assoc.
Qed.

Lemma encode_length m : forall s, (length s <= m)%nat -> strlen (encode_source s) = (strlen s + 2) / 3 * 4.
Proof.
  induction m as [|m IH]; intros s Hm; destruct s as [|a [|b [|c s]]]; try (simpl in Hm; lia); try done.
  cbn [encode_source]. rewrite strlen_app, IH by (simpl in Hm; lia).
  change (strlen (_base64_encode_triple a b c)) with 4. unfold strlen. simpl length.
  replace (Z.of_nat (S (S (S (length s)))) + 2) with (1 * 3 + (Z.of_nat (length s) + 2)) by lia.
  rewrite Z.div_add_l by lia. lia.
Qed.

(** ** Decoding of any string *)

Lemma check_chars_bytes rquad : forall b n vs m,
  check_chars rquad b n = Some (vs, m) -> m <= n /\ ("="%char ∈ rquad -> m < n).
Proof.
  induction rquad as [|c rquad IH]; intros b n vs m; cbn [check_chars].
  - intros [= <- <-]. split; [lia|set_solver].
  - destruct (_base64_char_value c <? 0) eqn:E.
    + destruct (b && _); [|done]. destruct (check_chars rquad b (n - 1)) as [[vs' m']|] eqn:E2; [|done].
      intros [= <- <-]. apply IH in E2 as [? _]. lia.
    + destruct (check_chars rquad false n) as [[vs' m']|] eqn:E2; [|done]. intros [= <- <-].
      apply IH in E2 as [? H]. split; [done|]. intros [<-|Hin]%elem_of_cons; [done|auto].
Qed.

Lemma decode_bytes_length n : forall v acc, length (decode_bytes n v acc) = (n + length acc)%nat.
Proof. induction n as [|n IH]; intros v acc; simpl; [done|]. rewrite IH. simpl. lia. Qed.

(** A quadruple with padding gives less than three bytes. *)
Lemma padding_short q : "="%char ∈ q -> strlen (_base64_decode_triple q) < 3.
Proof.
  intros Hq. unfold _base64_decode_triple, strlen.
  destruct (check_chars (rev q) true 3) as [[vs m]|] eqn:E; [|simpl; lia].
  apply check_chars_bytes in E as [_ H]. specialize (H ltac:(apply list_elem_of_In, in_rev; rewrite rev_involutive; by apply list_elem_of_In)).
  rewrite decode_bytes_length. simpl. destruct (m <? 0) eqn:E; boolify; lia.
Qed.

Lemma next_char_padded k t :
  exists c src, next_char (t ++ replicate (S k) "="%char) = Some (c, src) /\
    ((c = "="%char /\ exists t', src = t' ++ replicate k "="%char) \/
     (exists t', src = t' ++ replicate (S k) "="%char /\ (length t' < length t)%nat)).
Proof.
  induction t as [|x t IH]; [exists "="%char; eexists; split; [done|]; left; split; [done|by exists []]|].
  cbn [app next_char]. destruct (negb _ && _).
  - destruct IH as (c & src & -> & [H|(t' & -> & ?)]); (eexists _, _; split; [done|]); [by left|].
    right. exists t'. split; [done|]. simpl. lia.
  - eexists _, _. split; [done|]. right. exists t. split; [done|]. simpl. lia.
Qed.

Lemma next_chars_padded n : forall k t,
  (n <= k)%nat ->
  exists q src, next_chars n (t ++ replicate k "="%char) = Some (q, src) /\
    ("="%char ∈ q \/ exists t', src = t' ++ replicate k "="%char /\ (length t' + n <= length t)%nat).
Proof.
  induction n as [|n IH]; intros k t Hk.
  { exists [], (t ++ replicate k "="%char). split; [done|]. right. exists t. split; [done|lia]. }
  destruct k as [|k]; [lia|]. cbn [next_chars].
  destruct (next_char_padded k t) as (c & src & -> & [[-> (t' & ->)]|(t' & -> & Hlt)]).
  - destruct (IH k t') as (q & src & -> & _); [lia|]. eexists _, _. split; [done|]. left. set_solver.
  - destruct (IH (S k) t') as (q & src & -> & Hor); [lia|]. eexists _, _. split; [done|].
    destruct Hor as [Hq|(t2 & -> & Hl)]; [left; set_solver|]. right. exists t2. split; [done|lia].
Qed.

Lemma decode_total fuel : forall t n target,
  (length t <= fuel)%nat -> exists r, decode_loop fuel (t ++ str "====") n target = Some r.
Proof.
  induction fuel as [|fuel IH]; intros t n target Hf; cbn [decode_loop];
    (destruct (next_chars_padded 4 4 t) as (q & src & Hq & Hor); [lia|]);
    change (str "====") with (replicate 4 "="%char); rewrite Hq; cbn beta iota zeta;
    (destruct (n <? _); [by eexists|]); (destruct (_ =? 3) eqn:E3; [|by eexists]); boolify;
    (destruct Hor as [Hin|(t' & -> & Hl)]; [apply padding_short in Hin; lia|]).
  - lia.
  - apply IH. lia.
Qed.

(** C33. Decoding what was encoded gives back the bytes, in buffers that are just large
    enough, and the buffer of the encoding is as large as [base64_encode] asks for. *)
Theorem base64_roundtrip source targetlen n :
  (strlen source + 2) / 3 * 4 < targetlen < 2 ^ 64 -> strlen source <= n ->
  exists target, base64_encode source targetlen = Some (1, target ++ [NUL]) /\
    strlen target = (strlen source + 2) / 3 * 4 /\ base64_decode true target n = Some (Some source).
Proof.
  intros Ht Hn. exists (encode_source source). pose proof (encode_length _ source (le_n _)) as Hlen.
  assert (0 <= (strlen source + 2) / 3) by (apply Z.div_pos; [pose proof (strlen_nonneg source)|]; lia).
  split_and!; [|done|].
  - unfold base64_encode. unfold u64. rewrite Z.mod_small by lia.
    destruct (_ <? _) eqn:E; boolify; [lia|]. rewrite strlen_app, Hlen. change (strlen [NUL]) with 1.
    destruct (_ <=? _) eqn:E2; boolify; [done|lia].
  - unfold base64_decode. simpl negb. cbn iota. rewrite (decode_encode (length source)); try done.
    assert (strlen (encode_source source) >= strlen source) as Hge.
    { rewrite Hlen. pose proof (Z.div_mod (strlen source + 2) 3). pose proof (Z.mod_pos_bound (strlen source + 2) 3). lia. }
    unfold strlen in Hge. lia.
Qed.

Lemma base64_roundtrip_witness :
  exists target, base64_encode (str "any carnal pleas") 25 = Some (1, target ++ [NUL]) /\
    strlen target = (strlen (str "any carnal pleas") + 2) / 3 * 4 /\
    base64_decode true target 16 = Some (Some (str "any carnal pleas")).
Proof. apply base64_roundtrip; vm_compute; [split; reflexivity|discriminate]. Defined.

(** Decoding returns for every string: the four characters that are appended keep
    the search for valid characters inside of the buffer. *)
Theorem base64_decode_total source n : exists r, base64_decode true source n = Some r.
Proof. unfold base64_decode. simpl negb. cbn iota. by apply decode_total. Qed.

(** With a target of the length 0 the test of [base64_encode] wraps around and the
    NUL is written behind the buffer. *)
Theorem base64_encode_no_room : base64_encode [] 0 = None /\ base64_encode (str "a") 4 = Some (0, []).
Proof. vm_compute. split; reflexivity. Qed.
