(* ===== verification/Nsswitch.v ===== *)
(** * The name service switch (lib/nsswitch.c and the actions of lib/nss_parse.y)

    The sources of maps in their order, with what to do after a lookup in each of
    them. The grammar is applied to an entry that has been split into its tokens. *)

From S2P Require Import Prelude CString.
Open Scope Z_scope.

(** ** Data *)

Definition NSS_STATUS_UNKNOWN : Z := -1.
Definition NSS_STATUS_SUCCESS : Z := 0.
Definition NSS_STATUS_NOTFOUND : Z := 1.
Definition NSS_STATUS_UNAVAIL : Z := 2.
Definition NSS_STATUS_TRYAGAIN : Z := 3.
Definition NSS_STATUS_MAX : Z := 4.

Inductive nsswitch_action := NSS_ACTION_UNKNOWN | NSS_ACTION_CONTINUE | NSS_ACTION_RETURN.

#[export] Instance nsswitch_action_eq_dec : EqDecision nsswitch_action.
Proof. solve_decision. Defined.

Record nss_action := NssAction { a_action : nsswitch_action; a_negated : bool }.
Record nss_source := NssSource { s_source : cstring; s_action : list nss_action }.

Definition no_action : nss_action := NssAction NSS_ACTION_UNKNOWN false.
Definition no_actions : list nss_action := replicate 4 no_action.

(** ** Operations *)

(** The number of a status by its name. *)
Definition status_index (status : cstring) : option Z :=
  if strcaseeq status (str "SUCCESS") then Some NSS_STATUS_SUCCESS
  else if strcaseeq status (str "NOTFOUND") then Some NSS_STATUS_NOTFOUND
  else if strcaseeq status (str "UNAVAIL") then Some NSS_STATUS_UNAVAIL
  else if strcaseeq status (str "TRYAGAIN") then Some NSS_STATUS_TRYAGAIN
  else None.

Definition action_of (action : cstring) : option nsswitch_action :=
  if strcaseeq action (str "continue") then Some NSS_ACTION_CONTINUE
  else if strcaseeq action (str "return") then Some NSS_ACTION_RETURN
  else None.

Definition set_action (act : list nss_action) (status action : cstring) (negated : bool) :
    Z * list nss_action :=
  match action_of action with
  | None => (0, act)
  | Some a =>
      match status_index status with
      | None => (0, act)
      | Some i => (1, <[Z.to_nat i := NssAction a negated]> act)
      end
  end.

(** The loop over the statuses: the value it returns, if it does. *)
Fixpoint negated_loop (acts : list nss_action) (status result : Z) : option Z :=
  match acts with
  | [] => None
  | a :: acts =>
      if negb (bool_decide (a_action a = NSS_ACTION_UNKNOWN)) &&
         a_negated a && negb (result =? status) && bool_decide (a_action a = NSS_ACTION_RETURN)
      then Some (if result =? NSS_STATUS_SUCCESS then 1 else 0)
      else negated_loop acts (status + 1) result
  end.

(** The action of a status that is not one of the array is not defined. *)
Definition check_nss_result (this : nss_source) (result : Z) : option Z :=
  match negated_loop (take 4 (s_action this)) 0 result with
  | Some r => Some r
  | None =>
      if (result <? 0) then None else
      match s_action this !! Z.to_nat result with
      | None => None
      | Some a =>
          Some
            (if result =? NSS_STATUS_SUCCESS then
               if bool_decide (a_action a = NSS_ACTION_CONTINUE) then -1 else 1
             else if bool_decide (a_action a = NSS_ACTION_RETURN) then 0 else -1)
      end
  end.

(** The list of sources and whether one was added. *)
Definition add_source (source : cstring) : M (list nss_source) bool :=
  ok ← malloc;
  if negb ok then mret false else
  ok ← malloc;
  if negb ok then mret false else
  modify (fun head => head ++ [NssSource source no_actions]);; mret true.

Definition free_sources : M (list nss_source) Z := fun list m =>
  match list with
  | [] => Some (0, [], m)
  | _ => Some (1, [], m)
  end.

(** ** The actions of the grammar *)

(** A source of the entry: its name, and the expressions in brackets behind it, each
    with its negation, status and action. *)
Abbreviation nss_item := (cstring * option (list (bool * cstring * cstring)))%type.

Definition supported_sources : list cstring :=
  [str "files"; str "yp"; str "nis"; str "ldap"; str "nisplus"; str "hesiod"; str "sss"].

(** [status_exp_list]: the expressions change the actions [act]. The grammar reduces
    the first expression first. *)
Definition status_exps (exps : list (bool * cstring * cstring)) (act : list nss_action) :
    list nss_action :=
  foldl (fun act '(neg, st, a) => (set_action act st a neg).2) act exps.

(** The actions that are set are copied to the source. *)
Definition copy_actions (act acts : list nss_action) : list nss_action :=
  zip_with (fun new old => if bool_decide (a_action new = NSS_ACTION_UNKNOWN) then old else new) act acts.

(** The last source, of which [src] is the address. *)
Definition update_last (f : nss_source -> nss_source) : M (list nss_source) unit :=
  modify (fun l => match last l with Some s => removelast l ++ [f s] | None => l end).

(** [nss_source]: the new value of [act]. A source that could not be added is a null
    pointer, whose actions are written all the same when there are any. *)
Definition nss_source_rule (item : nss_item) (act : list nss_action) : M (list nss_source) (list nss_action) :=
  let '(name, exps) := item in
  match exps with
  | None =>
      (if bool_decide (name ∈ supported_sources) then add_source name else mret false);; mret act
  | Some exps =>
      let act := status_exps exps act in
      if bool_decide (name ∈ supported_sources) then
        ok ← add_source name;
        if negb ok && bool_decide (Exists (fun a => a_action a <> NSS_ACTION_UNKNOWN) act) then stuck
        else
          (if ok : bool then update_last (fun s => NssSource (s_source s) (copy_actions act (s_action s)))
           else mret ());;
          mret act
      else mret act
  end.

Fixpoint nss_sources (items : list nss_item) (act : list nss_action) :
    M (list nss_source) (list nss_action) :=
  match items with
  | [] => mret act
  | item :: items => act ← nss_source_rule item act; nss_sources items act
  end.

(** [nsswitch_parse] for a file that has been read: the entry for automount, if there
    is one, and the actions that an earlier run has left in [act]. *)
Definition nsswitch_parse (entry : option (list nss_item)) (act : list nss_action) :
    M (list nss_source) (Z * list nss_action) :=
  match entry with
  | Some items => act ← nss_sources items act; mret (0, act)
  | None => add_source (str "files");; mret (0, act)
  end.

(** ** Properties *)

Definition statuses : list cstring := [str "SUCCESS"; str "NOTFOUND"; str "UNAVAIL"; str "TRYAGAIN"].

(** What the documentation of the switch says: after a status the action that is set
    for it is taken, where an action for a negated status is for all the others; by
    default the search ends with a success and goes on otherwise. *)
Definition nss_decision (act : list nss_action) (result : nat) : Z :=
  let own := default no_action (act !! result) in
  let stop := if (result =? 0)%nat then 1 else 0 in
  if bool_decide (a_action own = NSS_ACTION_RETURN) then stop
  else if bool_decide (a_action own = NSS_ACTION_CONTINUE) then -1
  else if (result =? 0)%nat then 1 else -1.

Lemma negated_loop_none acts status result :
  Forall (fun a => a_negated a = false) acts -> negated_loop acts status result = None.
Proof.
  intros H. revert status. induction H as [|a acts Ha H IH]; intros status; [done|]. simpl.
  rewrite Ha, andb_false_r. apply IH.
Qed.

(** Without negated actions the decision after a lookup is the one of the
    documentation, for every status. *)
Theorem check_nss_result_plain this result :
  length (s_action this) = 4%nat -> Forall (fun a => a_negated a = false) (s_action this) ->
  (result < 4)%nat ->
  check_nss_result this (Z.of_nat result) = Some (nss_decision (s_action this) result).
Proof.
  intros Hlen Hneg Hr. unfold check_nss_result.
  rewrite take_ge, negated_loop_none by (done || lia).
  destruct (Z.of_nat result <? 0) eqn:E; boolify; [lia|]. rewrite Nat2Z.id.
  destruct (lookup_lt_is_Some_2 (s_action this) result) as [a Ha]; [lia|].
  unfold nss_decision. rewrite Ha. simpl.
  assert ((Z.of_nat result =? NSS_STATUS_SUCCESS) = (result =? 0)%nat) as ->.
  { unfold NSS_STATUS_SUCCESS. destruct result; [done|]. done. }
  destruct (result =? 0)%nat, (a_action a); done.
Qed.

Lemma check_nss_result_plain_witness :
  check_nss_result (NssSource (str "files") (<[1%nat := NssAction NSS_ACTION_RETURN false]> no_actions))
    (Z.of_nat 1)
  = Some (nss_decision (<[1%nat := NssAction NSS_ACTION_RETURN false]> no_actions) 1).
Proof.
  apply check_nss_result_plain.
  - reflexivity.
  - repeat constructor.
  - lia.
Defined.

(** The actions of an expression in brackets are kept for the sources that follow:
    the second source gets the action of the first one, which was given for that
    one alone. A second reading of the file starts with what the first has left. *)
Theorem actions_carried_over :
  let items := [(str "files", Some [(false, str "NOTFOUND", str "return")]);
                (str "ldap", Some [(false, str "UNAVAIL", str "continue")])] in
  option_map (fun r => map s_action r.1.2) (nsswitch_parse (Some items) no_actions [] [])
  = Some [<[1%nat := NssAction NSS_ACTION_RETURN false]> no_actions;
          <[1%nat := NssAction NSS_ACTION_RETURN false]>
            (<[2%nat := NssAction NSS_ACTION_CONTINUE false]> no_actions)].
Proof. vm_compute. reflexivity. Qed.

(** A negated action is also taken for its own status: with "!NOTFOUND=return" the
    search ends when nothing was found, and with "!SUCCESS=continue" it goes on
    after a success. *)
Theorem negated_own_status :
  check_nss_result (NssSource (str "files") (<[1%nat := NssAction NSS_ACTION_RETURN true]> no_actions))
    NSS_STATUS_NOTFOUND = Some 0 /\
  check_nss_result (NssSource (str "files") (<[0%nat := NssAction NSS_ACTION_CONTINUE true]> no_actions))
    NSS_STATUS_SUCCESS = Some (-1).
Proof. vm_compute. split; reflexivity. Qed.

(** ** Reading an entry *)

(** An expression that the lexer can produce. *)
Definition exp_ok (e : bool * cstring * cstring) : Prop :=
  is_Some (status_index e.1.2) /\ is_Some (action_of e.2).

Lemma status_index_range s i : status_index s = Some i -> 0 <= i < 4.
Proof.
  unfold status_index. repeat (case_match; [intros [= <-]; vm_compute; split; [discriminate|reflexivity]|]). done.
Qed.

(** What is set for a status by a list of expressions. *)
Lemma status_exps_length exps act : length (status_exps exps act) = length act.
Proof.
  unfold status_exps. revert act. induction exps as [|[[neg st] a] exps IH]; intros act; simpl; [done|].
  rewrite IH. unfold set_action. destruct (action_of a); [|done]. destruct (status_index st); [|done].
  apply length_insert.
Qed.

Lemma status_exps_last exps neg st a i act' act :
  status_index st = Some i -> action_of a = Some act' -> length act = 4%nat ->
  status_exps (exps ++ [(neg, st, a)]) act !! Z.to_nat i = Some (NssAction act' neg).
Proof.
  intros Hi Ha Hlen. unfold status_exps. rewrite foldl_app. simpl. unfold set_action. rewrite Ha, Hi. simpl.
  apply list_lookup_insert_eq. apply status_index_range in Hi.
  change (foldl _ act exps) with (status_exps exps act). rewrite status_exps_length. lia.
Qed.

(** An entry of sources without brackets gives exactly these sources in their
    order, with no action set, when there is memory; the sources that are not
    supported are left out. Without an entry there is the one source files. *)
Theorem nsswitch_parse_plain names act head :
  (fun r => r.1.2) <$> nsswitch_parse (Some ((fun n => (n, None)) <$> names)) act head []
  = Some (head ++ ((fun n => NssSource n no_actions) <$> filter (fun n => n ∈ supported_sources) names)) /\
  (fun r => r.1.2) <$> nsswitch_parse None act head []
  = Some (head ++ [NssSource (str "files") no_actions]).
Proof.
  split; [|done]. unfold nsswitch_parse.
  enough (nss_sources ((fun n => (n, None)) <$> names) act head []
          = Some (act, head ++ ((fun n => NssSource n no_actions) <$>
                     filter (fun n => n ∈ supported_sources) names), [])) as H.
  { by rewrite (bind_some _ _ _ _ _ _ _ H). }
  revert head. induction names as [|n names IH]; intros head; [by rewrite app_nil_r|].
  cbn [fmap list_fmap nss_sources]. unfold nss_source_rule at 1. rewrite filter_cons.
  case_bool_decide as Hn; case_decide; try done.
  - unfold mbind at 1 2, M_bind at 1 2. cbn. etransitivity; [apply IH|]. cbn. by rewrite <- app_assoc.
  - unfold mbind at 1 2, M_bind at 1 2. cbn. apply IH.
Qed.
