(* ===== verification/ConfigNames.v ===== *)
(** * The names and defaults of the configuration (lib/defaults.c, include/defaults.h) *)

From S2P Require Import Prelude CString Hash Memory Macros CatPath.
Open Scope Z_scope.

(** ** The names of the options *)

Definition NAME_MASTER_MAP : cstring := str "master_map_name".
Definition NAME_OPEN_FILE_LIMIT : cstring := str "open_file_limit".
Definition NAME_TIMEOUT : cstring := str "timeout".
Definition NAME_MASTER_WAIT : cstring := str "master_wait".
Definition NAME_NEGATIVE_TIMEOUT : cstring := str "negative_timeout".
Definition NAME_POSITIVE_TIMEOUT : cstring := str "positive_timeout".
Definition NAME_BROWSE_MODE : cstring := str "browse_mode".
Definition NAME_LOGGING : cstring := str "logging".
Definition NAME_FORCE_STD_PROG_MAP_ENV : cstring := str "force_standard_program_map_env".
Definition NAME_LDAP_URI : cstring := str "ldap_uri".
Definition NAME_LDAP_TIMEOUT : cstring := str "ldap_timeout".
Definition NAME_LDAP_NETWORK_TIMEOUT : cstring := str "ldap_network_timeout".
Definition NAME_SEARCH_BASE : cstring := str "search_base".
Definition NAME_MAP_OBJ_CLASS : cstring := str "map_object_class".
Definition NAME_ENTRY_OBJ_CLASS : cstring := str "entry_object_class".
Definition NAME_MAP_ATTR : cstring := str "map_attribute".
Definition NAME_ENTRY_ATTR : cstring := str "entry_attribute".
Definition NAME_VALUE_ATTR : cstring := str "value_attribute".
Definition NAME_MOUNT_NFS_DEFAULT_PROTOCOL : cstring := str "mount_nfs_default_protocol".
Definition NAME_APPEND_OPTIONS : cstring := str "append_options".
Definition NAME_MOUNT_VERBOSE : cstring := str "mount_verbose".
Definition NAME_MOUNT_WAIT : cstring := str "mount_wait".
Definition NAME_UMOUNT_WAIT : cstring := str "umount_wait".
Definition NAME_AUTH_CONF_FILE : cstring := str "auth_conf_file".
Definition NAME_MAP_HASH_TABLE_SIZE : cstring := str "map_hash_table_size".
Definition NAME_USE_HOSTNAME_FOR_MOUNTS : cstring := str "use_hostname_for_mounts".
Definition NAME_DISABLE_NOT_FOUND_MESSAGE : cstring := str "disable_not_found_message".
Definition NAME_USE_IGNORE_MOUNT_OPTION : cstring := str "use_ignore_mount_option".
Definition NAME_SSS_MASTER_MAP_WAIT : cstring := str "sss_master_map_wait".
Definition NAME_USE_MOUNT_REQUEST_LOG_ID : cstring := str "use_mount_request_log_id".
Definition NAME_AMD_ARCH : cstring := str "arch".
Definition NAME_AMD_AUTO_ATTRCACHE : cstring := str "auto_attrcache".
Definition NAME_AMD_AUTO_DIR : cstring := str "auto_dir".
Definition NAME_AMD_AUTOFS_USE_LOFS : cstring := str "autofs_use_lofs".
Definition NAME_AMD_BROWSABLE_DIRS : cstring := str "browsable_dirs".
Definition NAME_AMD_CACHE_DURATION : cstring := str "cache_duration".
Definition NAME_AMD_CLUSTER : cstring := str "cluster".
Definition NAME_AMD_DEBUG_MTAB_FILE : cstring := str "debug_mtab_file".
Definition NAME_AMD_DEBUG_OPTIONS : cstring := str "debug_options".
Definition NAME_AMD_DISMOUNT_INTERVAL : cstring := str "dismount_interval".
Definition NAME_AMD_DOMAIN_STRIP : cstring := str "domain_strip".
Definition NAME_AMD_EXEC_MAP_TIMEOUT : cstring := str "exec_map_timeout".
Definition NAME_AMD_FORCED_UMOUNTS : cstring := str "forced_unmounts".
Definition NAME_AMD_FULLY_QUALIFIED_HOSTS : cstring := str "fully_qualified_hosts".
Definition NAME_AMD_FULL_OS : cstring := str "full_os".
Definition NAME_AMD_HESIOD_BASE : cstring := str "hesiod_base".
Definition NAME_AMD_KARCH : cstring := str "karch".
Definition NAME_AMD_LDAP_BASE : cstring := str "ldap_base".
Definition NAME_AMD_LDAP_CACHE_MAXMEM : cstring := str "ldap_cache_maxmem".
Definition NAME_AMD_LDAP_CACHE_SECONDS : cstring := str "ldap_cache_seconds".
Definition NAME_AMD_LDAP_HOSTPORTS : cstring := str "ldap_hostports".
Definition NAME_AMD_LDAP_PROTO_VERSION : cstring := str "ldap_proto_version".
Definition NAME_AMD_SUB_DOMAIN : cstring := str "local_domain".
Definition NAME_AMD_LOCALHOST_ADDRESS : cstring := str "localhost_address".
Definition NAME_AMD_LOG_FILE : cstring := str "log_file".
Definition NAME_AMD_LOG_OPTIONS : cstring := str "log_options".
Definition NAME_AMD_MAP_DEFAULTS : cstring := str "map_defaults".
Definition NAME_AMD_MAP_OPTIONS : cstring := str "map_options".
Definition NAME_AMD_MAP_RELOAD_INTERVAL : cstring := str "map_reload_interval".
Definition NAME_AMD_MAP_NAME : cstring := str "map_name".
Definition NAME_AMD_MAP_TYPE : cstring := str "map_type".
Definition NAME_AMD_MOUNT_TYPE : cstring := str "mount_type".
Definition NAME_AMD_PID_FILE : cstring := str "pid_file".
Definition NAME_AMD_PORTMAP_PROGRAM : cstring := str "portmap_program".
Definition NAME_AMD_PREFERRED_AMQ_PORT : cstring := str "preferred_amq_port".
Definition NAME_AMD_NFS_ALLOW_ANY_INTERFACE : cstring := str "nfs_allow_any_interface".
Definition NAME_AMD_NFS_ALLOW_INSECURE_PORT : cstring := str "nfs_allow_insecure_port".
Definition NAME_AMD_NFS_PROTO : cstring := str "nfs_proto".
Definition NAME_AMD_NFS_RETRANSMIT_COUNTER : cstring := str "nfs_retransmit_counter".
Definition NAME_AMD_NFS_RETRANSMIT_COUNTER_UDP : cstring := str "nfs_retransmit_counter_udp".
Definition NAME_AMD_NFS_RETRANSMIT_COUNTER_TCP : cstring := str "nfs_retransmit_counter_tcp".
Definition NAME_AMD_NFS_RETRANSMIT_COUNTER_TOPLVL : cstring := str "nfs_retransmit_counter_toplvl".
Definition NAME_AMD_NFS_RETRY_INTERVAL : cstring := str "nfs_retry_interval".
Definition NAME_AMD_NFS_RETRY_INTERVAL_UDP : cstring := str "nfs_retry_interval_udp".
Definition NAME_AMD_NFS_RETRY_INTERVAL_TCP : cstring := str "nfs_retry_interval_tcp".
Definition NAME_AMD_NFS_RETRY_INTERVAL_TOPLVL : cstring := str "nfs_retry_interval_toplvl".
Definition NAME_AMD_NFS_VERS : cstring := str "nfs_vers".
Definition NAME_AMD_NFS_VERS_PING : cstring := str "nfs_vers_ping".
Definition NAME_AMD_NIS_DOMAIN : cstring := str "nis_domain".
Definition NAME_AMD_NORMALIZE_HOSTNAMES : cstring := str "normalize_hostnames".
Definition NAME_AMD_NORMALIZE_SLASHES : cstring := str "normalize_slashes".
Definition NAME_AMD_OS : cstring := str "os".
Definition NAME_AMD_OSVER : cstring := str "osver".
Definition NAME_AMD_PLOCK : cstring := str "plock".
Definition NAME_AMD_PRINT_PID : cstring := str "print_pid".
Definition NAME_AMD_PRINT_VERSION : cstring := str "print_version".
Definition NAME_AMD_RESTART_MOUNTS : cstring := str "restart_mounts".
Definition NAME_AMD_SEARCH_PATH : cstring := str "search_path".
Definition NAME_AMD_SELECTORS_ON_DEFAULT : cstring := str "selectors_on_default".
Definition NAME_AMD_SELECTORS_IN_DEFAULTS : cstring := str "selectors_in_defaults".
Definition NAME_AMD_SHOW_STATFS_ENTRIES : cstring := str "show_statfs_entries".
Definition NAME_AMD_SUN_MAP_SYNTAX : cstring := str "sun_map_syntax".
Definition NAME_AMD_TRUNCATE_LOG : cstring := str "truncate_log".
Definition NAME_AMD_UMOUNT_ON_EXIT : cstring := str "unmount_on_exit".
Definition NAME_AMD_USE_TCPWRAPPERS : cstring := str "use_tcpwrappers".
Definition NAME_AMD_VENDOR : cstring := str "vendor".
Definition NAME_AMD_LINUX_UFS_MOUNT_TYPE : cstring := str "linux_ufs_mount_type".

(** ** Their defaults *)

Definition DEFAULT_MASTER_MAP_NAME : cstring := str "auto.master".
Definition DEFAULT_OPEN_FILE_LIMIT : cstring := str "20480".
Definition DEFAULT_TIMEOUT : cstring := str "600".
Definition DEFAULT_MASTER_WAIT : cstring := str "10".
Definition DEFAULT_NEGATIVE_TIMEOUT : cstring := str "60".
Definition DEFAULT_POSITIVE_TIMEOUT : cstring := str "120".
Definition DEFAULT_MOUNT_VERBOSE : cstring := str "0".
Definition DEFAULT_MOUNT_WAIT : cstring := str "-1".
Definition DEFAULT_UMOUNT_WAIT : cstring := str "12".
Definition DEFAULT_BROWSE_MODE : cstring := str "1".
Definition DEFAULT_LOGGING : cstring := str "none".
Definition DEFAULT_FORCE_STD_PROG_MAP_ENV : cstring := str "0".
Definition DEFAULT_LDAP_TIMEOUT : cstring := str "-1".
Definition DEFAULT_LDAP_NETWORK_TIMEOUT : cstring := str "8".
Definition DEFAULT_MAP_OBJ_CLASS : cstring := str "nisMap".
Definition DEFAULT_ENTRY_OBJ_CLASS : cstring := str "nisObject".
Definition DEFAULT_MAP_ATTR : cstring := str "nisMapName".
Definition DEFAULT_ENTRY_ATTR : cstring := str "cn".
Definition DEFAULT_VALUE_ATTR : cstring := str "nisMapEntry".
Definition DEFAULT_MOUNT_NFS_DEFAULT_PROTOCOL : cstring := str "3".
Definition DEFAULT_APPEND_OPTIONS : cstring := str "1".
(** [AUTOFS_MAP_DIR] is chosen when the program is configured. *)
Definition DEFAULT_AUTH_CONF_FILE (AUTOFS_MAP_DIR : cstring) : cstring := AUTOFS_MAP_DIR ++ str "/autofs_ldap_auth.conf".
Definition DEFAULT_MAP_HASH_TABLE_SIZE : cstring := str "1024".
Definition DEFAULT_USE_HOSTNAME_FOR_MOUNTS : cstring := str "0".
Definition DEFAULT_DISABLE_NOT_FOUND_MESSAGE : cstring := str "0".
Definition DEFAULT_USE_IGNORE_MOUNT_OPTION : cstring := str "0".
Definition DEFAULT_SSS_MASTER_MAP_WAIT : cstring := str "0".
Definition DEFAULT_USE_MOUNT_REQUEST_LOG_ID : cstring := str "0".
Definition DEFAULT_AMD_NULL_VALUE : option cstring := None.
Definition DEFAULT_AMD_AUTO_DIR : cstring := str "/a".
Definition DEFAULT_AMD_BROWSABLE_DIRS : cstring := str "no".
Definition DEFAULT_AMD_CLUSTER : option cstring := DEFAULT_AMD_NULL_VALUE.
Definition DEFAULT_AMD_DOMAIN_STRIP : cstring := str "yes".
Definition DEFAULT_AMD_EXEC_MAP_TIMEOUT : cstring := str "10".
Definition DEFAULT_AMD_FORCED_UMOUNTS : cstring := str "no".
Definition DEFAULT_AMD_FULLY_QUALIFIED_HOSTS : cstring := str "no".
Definition DEFAULT_AMD_FULL_OS : option cstring := DEFAULT_AMD_NULL_VALUE.
Definition DEFAULT_AMD_HESIOD_BASE : cstring := str "automount".
Definition DEFAULT_AMD_LDAP_BASE : option cstring := DEFAULT_AMD_NULL_VALUE.
Definition DEFAULT_AMD_LDAP_HOSTPORTS : option cstring := DEFAULT_AMD_NULL_VALUE.
Definition DEFAULT_AMD_LDAP_PROTO_VERSION : cstring := str "2".
Definition DEFAULT_AMD_SUB_DOMAIN : option cstring := DEFAULT_AMD_NULL_VALUE.
Definition DEFAULT_AMD_LOCALHOST_ADDRESS : cstring := str "localhost".
Definition DEFAULT_AMD_LOG_OPTIONS : cstring := str "defaults".
Definition DEFAULT_AMD_MAP_DEFAULTS : option cstring := DEFAULT_AMD_NULL_VALUE.
Definition DEFAULT_AMD_MAP_OPTIONS : option cstring := DEFAULT_AMD_NULL_VALUE.
Definition DEFAULT_AMD_MAP_TYPE : option cstring := DEFAULT_AMD_NULL_VALUE.
Definition DEFAULT_AMD_NIS_DOMAIN : option cstring := DEFAULT_AMD_NULL_VALUE.
Definition DEFAULT_AMD_NORMALIZE_HOSTNAMES : cstring := str "no".
Definition DEFAULT_AMD_NORMALIZE_SLASHES : cstring := str "yes".
Definition DEFAULT_AMD_RESTART_MOUNTS : cstring := str "no".
Definition DEFAULT_AMD_SEARCH_PATH : option cstring := DEFAULT_AMD_NULL_VALUE.
Definition DEFAULT_AMD_SELECTORS_IN_DEFAULTS : cstring := str "no".
Definition DEFAULT_AMD_UMOUNT_ON_EXIT : cstring := str "yes".
Definition DEFAULT_AMD_VENDOR : cstring := str "unknown".
Definition DEFAULT_AMD_LINUX_UFS_MOUNT_TYPE : cstring := str "ext3".

(** ** The flags of an option *)

Definition CONF_NONE : Z := 0x00000000.
Definition CONF_ENV : Z := 0x00000001.
Definition CONF_BROWSABLE_DIRS : Z := 0x00000008.
Definition CONF_MOUNT_TYPE_AUTOFS : Z := 0x00000010.
Definition CONF_SELECTORS_IN_DEFAULTS : Z := 0x00000020.
Definition CONF_NORMALIZE_HOSTNAMES : Z := 0x00000040.
Definition CONF_RESTART_EXISTING_MOUNTS : Z := 0x00000100.
Definition CONF_FULLY_QUALIFIED_HOSTS : Z := 0x00000400.
Definition CONF_UNMOUNT_ON_EXIT : Z := 0x00000800.
Definition CONF_AUTOFS_USE_LOFS : Z := 0x00001000.
Definition CONF_DOMAIN_STRIP : Z := 0x00002000.
Definition CONF_NORMALIZE_SLASHES : Z := 0x00004000.
Definition CONF_FORCED_UNMOUNTS : Z := 0x00008000.

(** * The configuration (lib/defaults.c): the table of options

    The options of the configuration files are objects linked in a hash table of
    128 buckets; the hash of an option is that of its name in lower case. An
    option belongs to a section. [conf_add] appends an option, [conf_update] sets
    the value of the first one that a lookup finds, and a lookup that finds nothing
    tries the name with or without the prefix of old configurations. The mutex of
    the table is left out: each operation runs while it is held. *)

(** ** Data *)

Definition CFG_OK : Z := 0.
Definition CFG_FAIL : Z := 1.
Definition CFG_TABLE_SIZE : Z := 128.

Definition autofs_gbl_sec : cstring := str "autofs".
Definition amd_gbl_sec : cstring := str "amd".

(** [struct conf_option]; the strings belong to the option and live as long as it. *)
Record conf_option := CO {
  co_section : cstring;
  co_name : option cstring;
  co_value : option cstring;
  co_flags : Z;
  co_next : ptr
}.

Definition set_co_next (n : ptr) (o : conf_option) : conf_option :=
  CO (co_section o) (co_name o) (co_value o) (co_flags o) n.
Definition set_co_value (v : option cstring) (o : conf_option) : conf_option :=
  CO (co_section o) (co_name o) v (co_flags o) (co_next o).
Definition set_co_flags (f : Z) (o : conf_option) : conf_option :=
  CO (co_section o) (co_name o) (co_value o) f (co_next o).

#[export] Instance conf_option_node : Node conf_option.
Proof. refine {| link := co_next; set_link := set_co_next |}; [done|by intros []|done]. Defined.

Record conf_cache := CC { cc_hash : list ptr; cc_modified : Z }.

(** The static variable [config], the options, and the environment. *)
Record cfstate := CfS {
  cf_config : option conf_cache;
  cf_heap : gmap positive conf_option;
  cf_env : gmap cstring cstring
}.

#[export] Instance cfstate_heap : HasHeap cfstate conf_option.
Proof.
  by refine {| heap := cf_heap; put_heap := fun h s => CfS (cf_config s) h (cf_env s) |}.
Defined.

Abbreviation CfM := (M cfstate).

(** ** The table *)

(** [config->...]. *)
Definition get_config : CfM conf_cache := s ← get_state; from_option_M (cf_config s).

Definition put_config (c : option conf_cache) : CfM unit :=
  modify (fun s => CfS c (cf_heap s) (cf_env s)).

(** [config->hash[i]]. *)
Definition get_bucket (i : Z) : CfM ptr :=
  cc ← get_config; from_option_M (cc_hash cc !! Z.to_nat i).

Definition set_bucket (i : Z) (p : ptr) : CfM unit :=
  cc ← get_config; put_config (Some (CC (<[Z.to_nat i := p]> (cc_hash cc)) (cc_modified cc))).

Definition conf_init : CfM Z :=
  cc ← malloc;
  if negb cc then mret CFG_FAIL else
  h ← malloc;
  if negb h then mret CFG_FAIL else
  put_config (Some (CC (replicate (Z.to_nat CFG_TABLE_SIZE) None) 0));;
  mret CFG_OK.

(** The options of a list are freed. *)
Fixpoint free_options (fuel : nat) (co : ptr) : CfM unit :=
  match co with
  | None => mret ()
  | Some a =>
      match fuel with
      | O => stuck
      | S fuel =>
          o ← load a;
          free_obj a;;
          free_options fuel (co_next o)
      end
  end.

Fixpoint conf_release_buckets (n : nat) (i : Z) : CfM unit :=
  match n with
  | O => mret ()
  | S n =>
      co ← get_bucket i;
      match co with
      | None => mret ()
      | Some _ =>
          fuel ← heap_fuel;
          free_options fuel co;;
          set_bucket i None
      end;;
      conf_release_buckets n (i + 1)
  end.

Definition __conf_release : CfM unit :=
  conf_release_buckets (Z.to_nat CFG_TABLE_SIZE) 0;;
  put_config None.

(** The buffer for the name in lower case has [PATH_MAX + 1] characters. *)
Definition get_hash (key : cstring) (size : Z) : CfM Z :=
  if PATH_MAX <? strlen key then stuck else mret (hash (tolower <$> key) size).

(** ** The environment *)

Definition getenv (name : cstring) : CfM (option cstring) :=
  s ← get_state; mret (cf_env s !! name).

(** [setenv(name, value, 0)]: a variable that is set is left alone, and so is the
    environment when the name is not valid or memory runs out. *)
Definition setenv (name : option cstring) (value : cstring) : CfM unit :=
  match name with
  | None => mret ()
  | Some name =>
      if bool_decide (name = []) || bool_decide ("="%char ∈ name) then mret () else
      v ← getenv name;
      match v with
      | Some _ => mret ()
      | None =>
          ok ← malloc;
          if negb ok then mret ()
          else modify (fun s => CfS (cf_config s) (cf_heap s) (<[name := value]> (cf_env s)))
      end
  end.

Definition conf_env (flags : Z) : bool := negb (Z.land flags CONF_ENV =? 0).

(** The value of an option: that of the environment or the given one; [None] when
    it cannot be copied. *)
Definition conf_value (key : cstring) (value : option cstring) (flags : Z) :
    CfM (option (option cstring)) :=
  tmp ← (if conf_env flags then getenv key else mret None);
  match tmp, value with
  | None, None => mret (Some None)
  | Some v, _ | None, Some v =>
      ok ← malloc;
      if negb ok then mret None else mret (Some (Some v))
  end.

(** ** Adding and deleting options *)

Definition conf_add (section key : cstring) (value : option cstring) (flags : Z) : CfM Z :=
  v ← conf_value key value flags;
  match v with
  | None => mret CFG_FAIL
  | Some val =>
      n ← malloc;
      let name := if n : bool then Some key else None in
      sec ← malloc;
      if negb sec then mret CFG_FAIL else
      ok ← malloc;
      if negb ok then mret CFG_FAIL else
      co ← new_obj (CO section name val flags None);
      match conf_env flags, value with
      | true, Some value => setenv name value
      | _, _ => mret ()
      end;;
      key_hash ← get_hash key CFG_TABLE_SIZE;
      first ← get_bucket key_hash;
      match first with
      | None => set_bucket key_hash (Some co)
      | Some _ =>
          fuel ← heap_fuel;
          lt ← seek fuel (fun _ _ => false) None first;
          last ← from_option_M lt.1;
          update last (set_co_next (Some co))
      end;;
      mret CFG_OK
  end.

(** [strcasecmp] with the name of an option, which must not be null. *)
Definition name_is (key : cstring) (o : conf_option) : CfM bool :=
  name ← from_option_M (co_name o); mret (strcaseeq key name).

(** The loop of [conf_delete]: the options [last] and [co]. *)
Fixpoint delete_loop (fuel : nat) (section key : cstring) (last co : ptr) : CfM (ptr * ptr) :=
  match co with
  | None => mret (last, co)
  | Some a =>
      o ← load a;
      match fuel with
      | O => stuck
      | S fuel =>
          if negb (strcaseeq section (co_section o))
          then delete_loop fuel section key last (co_next o)
          else
            e ← name_is key o;
            if e : bool then mret (last, co)
            else delete_loop fuel section key co (co_next o)
      end
  end.

Definition conf_delete (section key : cstring) : CfM unit :=
  key_hash ← get_hash key CFG_TABLE_SIZE;
  first ← get_bucket key_hash;
  fuel ← heap_fuel;
  lc ← delete_loop fuel section key None first;
  match lc with
  | (_, None) => mret ()
  | (last, Some co) =>
      o ← load co;
      match last with
      | Some last => update last (set_co_next (co_next o))
      | None => set_bucket key_hash (co_next o)
      end;;
      free_obj co
  end.

(** ** Lookup *)

Fixpoint lookup_loop (fuel : nat) (section key : cstring) (co : ptr) : CfM ptr :=
  match co with
  | None => mret None
  | Some a =>
      o ← load a;
      match fuel with
      | O => stuck
      | S fuel =>
          if negb (strcaseeq section (co_section o)) then lookup_loop fuel section key (co_next o)
          else
            e ← name_is key o;
            if e : bool then mret co else lookup_loop fuel section key (co_next o)
      end
  end.

Definition conf_lookup_key (section key : cstring) : CfM ptr :=
  key_hash ← get_hash key CFG_TABLE_SIZE;
  first ← get_bucket key_hash;
  fuel ← heap_fuel;
  lookup_loop fuel section key first.

(** [strncasecmp("DEFAULT_", key, 8) == 0]. *)
Definition default_prefix (key : cstring) : bool := strcaseeq (str "DEFAULT_") (take 8 key).

(** The buffer for the old name has [PATH_MAX + 1] characters. *)
Definition conf_lookup (section key : option cstring) : CfM ptr :=
  match key, section with
  | Some key, Some section =>
      if PATH_MAX <? strlen key then mret None else
      co ← conf_lookup_key section key;
      match co with
      | Some _ => mret co
      | None =>
          if (8 <? strlen key) && default_prefix key then conf_lookup_key section (drop 8 key)
          else
            let old_key := str "DEFAULT_" ++ key in
            if PATH_MAX <? strlen old_key then stuck else conf_lookup_key section old_key
      end
  | _, _ => mret None
  end.

Definition conf_update (section key : cstring) (value : option cstring) (flags : Z) : CfM Z :=
  co ← conf_lookup (Some section) (Some key);
  match co with
  | None => conf_add section key value flags
  | Some co =>
      v ← conf_value key value flags;
      match v with
      | None => mret CFG_FAIL
      | Some val =>
          update co (set_co_value val);;
          (if flags =? 0 then mret () else update co (set_co_flags flags));;
          match conf_env flags, value with
          | true, Some value => setenv (Some key) value
          | _, _ => mret ()
          end;;
          mret CFG_OK
      end
  end.

(** ** The sections of amd mounts *)

(** The loop over a bucket: [this->section] of the options whose section begins
    with a slash, without those equal to the one before; [emit] is what is done
    with a section. *)
Fixpoint sections_loop {A} (emit : cstring -> A -> CfM (option A)) (fuel : nat)
    (last : option cstring) (acc : A) (this : ptr) : CfM (option cstring * option A) :=
  match this with
  | None => mret (last, Some acc)
  | Some a =>
      o ← load a;
      match fuel with
      | O => stuck
      | S fuel =>
          if negb (hd_char (co_section o) =a "/") then sections_loop emit fuel last acc (co_next o)
          else
            acc' ← (if bool_decide (last = Some (co_section o)) then mret (Some acc)
                    else emit (co_section o) acc);
            match acc' with
            | None => mret (last, None)
            | Some acc => sections_loop emit fuel (Some (co_section o)) acc (co_next o)
            end
      end
  end.

Fixpoint sections_buckets {A} (emit : cstring -> A -> CfM (option A)) (n : nat) (i : Z)
    (last : option cstring) (acc : A) : CfM (option A) :=
  match n with
  | O => mret (Some acc)
  | S n =>
      this ← get_bucket i;
      fuel ← heap_fuel;
      r ← sections_loop emit fuel last acc this;
      match r with
      | (_, None) => mret None
      | (last, Some acc) => sections_buckets emit n (i + 1) last acc
      end
  end.

Definition count_section (_ : cstring) (count : Z) : CfM (option Z) := mret (Some (u32 (count + 1))).

(** [paths[j++] = strdup(this->section)] in an array of [count] pointers. *)
Definition add_section (count : Z) (section : cstring) (paths : list cstring) :
    CfM (option (list cstring)) :=
  ok ← malloc;
  if negb ok then mret None
  else if count <=? Z.of_nat (length paths) then stuck
  else mret (Some (paths ++ [section])).

Definition conf_enumerate_amd_mount_sections : CfM (option (list cstring)) :=
  count ← sections_buckets count_section (Z.to_nat CFG_TABLE_SIZE) 0 None 0;
  match count with
  | None | Some 0 => mret None
  | Some count =>
      ok ← malloc;
      if negb ok then mret None
      else sections_buckets (add_section count) (Z.to_nat CFG_TABLE_SIZE) 0 None []
  end.

Definition conf_section_exists (section : option cstring) : CfM Z :=
  match section with
  | None => mret 0
  | Some _ =>
      co ← conf_lookup section section;
      mret (if (co : ptr) then 1 else 0)
  end.

(** ** Values *)

(** The option that a lookup finds, with its value. *)
Definition find_value (section name : cstring) : CfM (option cstring) :=
  co ← conf_lookup (Some section) (Some name);
  match co with
  | None => mret None
  | Some co => o ← load co; mret (co_value o)
  end.

Definition conf_get_string (section name : cstring) : CfM (option cstring) :=
  v ← find_value section name;
  match v with
  | None => mret None
  | Some v => ok ← malloc; mret (if ok : bool then Some v else None)
  end.

Definition conf_get_number (section name : cstring) : CfM Z :=
  v ← find_value section name;
  mret (match v with Some v => atol v | None => -1 end).

Definition conf_get_yesno (section name : cstring) : CfM Z :=
  v ← find_value section name;
  mret (match v with
        | Some v =>
            if isdigit (hd_char v) then atoi v
            else if strcaseeq v (str "yes") then 1
            else if strcaseeq v (str "no") then 0
            else -1
        | None => -1
        end).
