(* ===== verification/ConfigRead.v ===== *)
(** * The configuration (lib/defaults.c): defaults and configuration files

    [defaults_read_config] sets the defaults and reads the configuration file and
    the old configuration file. A file is the list of its characters, a line the
    buffer that [fgets] filled; [parse_line] works in the buffer, in which
    positions are pointers, and a read or write outside of it is an error ([None]).
    A read error ends a file like its end. *)

From S2P Require Import Prelude CString Hash Memory CatPath Macros ConfigNames.
Open Scope Z_scope.

(** ** The defaults *)

(** A sequence of calls of [conf_update] up to the first that fails. *)
Fixpoint update_all (sec : cstring) (flags : Z) (table : list (cstring * option cstring)) : CfM bool :=
  match table with
  | [] => mret true
  | (name, value) :: table =>
      ret ← conf_update sec name value flags;
      if ret =? CFG_FAIL then mret false else update_all sec flags table
  end.

(** [while ((co = conf_lookup(sec, key))) conf_delete(co->section, co->name);] *)
Fixpoint delete_all (fuel : nat) (sec key : cstring) : CfM unit :=
  co ← conf_lookup (Some sec) (Some key);
  match co with
  | None => mret ()
  | Some co =>
      match fuel with
      | O => stuck
      | S fuel =>
          o ← load co;
          name ← from_option_M (co_name o);
          conf_delete (co_section o) name;;
          delete_all fuel sec key
      end
  end.

Section Defaults.
(** [AUTOFS_MAP_DIR], and the result and the answer of [uname]. *)
Context (map_dir : cstring) (uname : Z * utsname).

Definition autofs_defaults : list (cstring * option cstring) :=
  [(NAME_OPEN_FILE_LIMIT, Some DEFAULT_OPEN_FILE_LIMIT);
   (NAME_TIMEOUT, Some DEFAULT_TIMEOUT);
   (NAME_MASTER_WAIT, Some DEFAULT_MASTER_WAIT);
   (NAME_NEGATIVE_TIMEOUT, Some DEFAULT_NEGATIVE_TIMEOUT);
   (NAME_BROWSE_MODE, Some DEFAULT_BROWSE_MODE);
   (NAME_LOGGING, Some DEFAULT_LOGGING);
   (NAME_LDAP_TIMEOUT, Some DEFAULT_LDAP_TIMEOUT);
   (NAME_LDAP_NETWORK_TIMEOUT, Some DEFAULT_LDAP_NETWORK_TIMEOUT);
   (NAME_APPEND_OPTIONS, Some DEFAULT_APPEND_OPTIONS);
   (NAME_MOUNT_VERBOSE, Some DEFAULT_MOUNT_VERBOSE);
   (NAME_MOUNT_WAIT, Some DEFAULT_MOUNT_WAIT);
   (NAME_UMOUNT_WAIT, Some DEFAULT_UMOUNT_WAIT);
   (NAME_AUTH_CONF_FILE, Some (DEFAULT_AUTH_CONF_FILE map_dir));
   (NAME_MOUNT_NFS_DEFAULT_PROTOCOL, Some DEFAULT_MOUNT_NFS_DEFAULT_PROTOCOL);
   (NAME_USE_HOSTNAME_FOR_MOUNTS, Some DEFAULT_USE_HOSTNAME_FOR_MOUNTS);
   (NAME_DISABLE_NOT_FOUND_MESSAGE, Some DEFAULT_DISABLE_NOT_FOUND_MESSAGE);
   (NAME_USE_IGNORE_MOUNT_OPTION, Some DEFAULT_USE_IGNORE_MOUNT_OPTION);
   (NAME_SSS_MASTER_MAP_WAIT, Some DEFAULT_SSS_MASTER_MAP_WAIT);
   (NAME_USE_MOUNT_REQUEST_LOG_ID, Some DEFAULT_USE_MOUNT_REQUEST_LOG_ID)].

Definition conf_load_autofs_defaults : CfM bool :=
  ok ← update_all autofs_gbl_sec CONF_ENV autofs_defaults;
  if negb ok then mret false else
  fuel ← heap_fuel;
  delete_all fuel autofs_gbl_sec NAME_LDAP_URI;;
  delete_all fuel autofs_gbl_sec NAME_SEARCH_BASE;;
  mret true.

Definition amd_defaults (host_os_name host_os_version host_arch : option cstring) :
    list (cstring * option cstring) :=
  [(NAME_AMD_ARCH, host_arch);
   (NAME_AMD_KARCH, host_arch);
   (NAME_AMD_OS, host_os_name);
   (NAME_AMD_OSVER, host_os_version);
   (NAME_AMD_AUTO_DIR, Some DEFAULT_AMD_AUTO_DIR);
   (NAME_AMD_AUTOFS_USE_LOFS, Some DEFAULT_AMD_AUTO_DIR);
   (NAME_AMD_BROWSABLE_DIRS, Some DEFAULT_AMD_BROWSABLE_DIRS);
   (NAME_AMD_CLUSTER, DEFAULT_AMD_CLUSTER);
   (NAME_AMD_DOMAIN_STRIP, Some DEFAULT_AMD_DOMAIN_STRIP);
   (NAME_AMD_EXEC_MAP_TIMEOUT, Some DEFAULT_AMD_EXEC_MAP_TIMEOUT);
   (NAME_AMD_FORCED_UMOUNTS, Some DEFAULT_AMD_FORCED_UMOUNTS);
   (NAME_AMD_FULLY_QUALIFIED_HOSTS, Some DEFAULT_AMD_FULLY_QUALIFIED_HOSTS);
   (NAME_AMD_FULL_OS, DEFAULT_AMD_FULL_OS);
   (NAME_AMD_HESIOD_BASE, Some DEFAULT_AMD_HESIOD_BASE);
   (NAME_AMD_KARCH, host_arch);
   (NAME_AMD_LDAP_BASE, DEFAULT_AMD_LDAP_BASE);
   (NAME_AMD_LDAP_HOSTPORTS, DEFAULT_AMD_LDAP_HOSTPORTS);
   (NAME_AMD_SUB_DOMAIN, DEFAULT_AMD_SUB_DOMAIN);
   (NAME_AMD_LOCALHOST_ADDRESS, Some DEFAULT_AMD_LOCALHOST_ADDRESS);
   (NAME_AMD_LOG_OPTIONS, Some DEFAULT_AMD_LOG_OPTIONS);
   (NAME_AMD_MAP_DEFAULTS, DEFAULT_AMD_MAP_DEFAULTS);
   (NAME_AMD_MAP_OPTIONS, DEFAULT_AMD_MAP_OPTIONS);
   (NAME_AMD_MAP_TYPE, DEFAULT_AMD_MAP_TYPE);
   (NAME_AMD_NIS_DOMAIN, DEFAULT_AMD_NIS_DOMAIN);
   (NAME_AMD_NORMALIZE_HOSTNAMES, Some DEFAULT_AMD_NORMALIZE_HOSTNAMES);
   (NAME_AMD_NORMALIZE_SLASHES, Some DEFAULT_AMD_NORMALIZE_SLASHES);
   (NAME_AMD_OS, host_os_name);
   (NAME_AMD_RESTART_MOUNTS, Some DEFAULT_AMD_RESTART_MOUNTS);
   (NAME_AMD_SEARCH_PATH, DEFAULT_AMD_SEARCH_PATH);
   (NAME_AMD_SELECTORS_ON_DEFAULT, Some DEFAULT_AMD_SELECTORS_IN_DEFAULTS);
   (NAME_AMD_SELECTORS_IN_DEFAULTS, Some DEFAULT_AMD_SELECTORS_IN_DEFAULTS);
   (NAME_AMD_UMOUNT_ON_EXIT, Some DEFAULT_AMD_UMOUNT_ON_EXIT);
   (NAME_AMD_VENDOR, Some DEFAULT_AMD_VENDOR);
   (NAME_AMD_LINUX_UFS_MOUNT_TYPE, Some DEFAULT_AMD_LINUX_UFS_MOUNT_TYPE)].

(** [uname] returns 0 when it succeeds. *)
Definition conf_load_amd_defaults : CfM bool :=
  let '(ret, uts) := uname in
  let '(os, ver, arch) :=
    if negb (ret =? 0) then (Some (sysname uts), Some (release uts), Some (machine uts))
    else (None, None, None) in
  update_all amd_gbl_sec CONF_NONE (amd_defaults os ver arch).

Definition reset_defaults : CfM bool :=
  ret ← conf_load_autofs_defaults;
  if negb ret then mret false else conf_load_amd_defaults.

End Defaults.

(** ** Lines *)

(** The number of characters at the beginning that satisfy a test. *)
Fixpoint span (p : ascii -> bool) (s : cstring) : nat :=
  match s with
  | c :: s' => if p c then S (span p s') else O
  | [] => O
  end.

(** [while (p of tmp's character) { *tmp = 0; tmp--; }] *)
Fixpoint zero_back (p : ascii -> bool) (buf : list ascii) (tmp : nat) : option (list ascii) :=
  match buf !! tmp with
  | None => None
  | Some c =>
      if p c then
        match tmp with
        | O => None
        | S tmp' => zero_back p (<[tmp := NUL]> buf) tmp'
        end
      else Some buf
  end.

Definition quote_or_blank (c : ascii) : bool := bool_decide (c = QUOTE) || isblank c.

(** What [parse_line] returns 1 with: the position of a section, or those of a key
    and its value. *)
Inductive parsed := SectionAt (sec : nat) | SettingAt (res value : nat).

Definition parse_section (buf : list ascii) : option (option parsed * list ascii) :=
  let key := span (fun c => (c =a "[") || isblank c) (cstr_at buf 0) in
  match find_pos (fun c => c =a "]") (cstr_at buf key) with
  | None => Some (None, buf)
  | Some o =>
      let tmp := (key + o)%nat in
      buf ← zero_back isblank (<[tmp := " "%char]> buf) tmp;
      Some (Some (SectionAt key), buf)
  end.

(** The value of the setting with its [=] at position [eq]. *)
Definition parse_value (buf : list ascii) (eq : nat) : option (nat * list ascii) :=
  let val := (S eq + span quote_or_blank (cstr_at buf (S eq)))%nat in
  let len := length (cstr_at buf val) in
  c ← buf !! (val + len - 1)%nat;
  let '(buf, len) :=
    if bool_decide (c = NEWLINE) then (<[(val + len - 1)%nat := NUL]> buf, (len - 1)%nat)
    else (buf, len) in
  let trailer :=
    match find_pos (fun c => c =a "#") (cstr_at buf val) with
    | None => (val + len - 1)%nat
    | Some o => (val + o - 1)%nat
    end in
  buf ← zero_back quote_or_blank buf trailer;
  Some (val, buf).

(** The result is what is found ([None] when the return value is 0) and the
    buffer. *)
Definition parse_line (line : list ascii) : option (option parsed * list ascii) :=
  c ← line !! 0%nat;
  if (c =a "#") || (negb (c =a "[") && negb (isalpha c)) then Some (None, line)
  else if c =a "[" then parse_section line
  else
    match find_pos (fun c => c =a "=") (cstr_at line 0) with
    | None => Some (None, line)
    | Some eq =>
        match eq with
        | O => None
        | S tmp =>
            line ← zero_back isblank (<[eq := NUL]> line) tmp;
            '(val, line) ← parse_value line eq;
            Some (Some (SettingAt 0 val), line)
        end
    end.

(** ** Files *)

Definition MAX_LINE_LEN : Z := 256.
Definition MAX_SECTION_NAME : Z := MAX_LINE_LEN.

(** [fgets] with room for [n] characters: the characters read and the rest of the
    file. *)
Fixpoint fgets (n : nat) (f : list ascii) : list ascii * list ascii :=
  match n, f with
  | S n, c :: f =>
      if bool_decide (c = NEWLINE) then ([c], f)
      else let '(l, f) := fgets n f in (c :: l, f)
  | _, _ => ([], f)
  end.

Definition check_set_config_value (section : option cstring) (res value : cstring) : CfM Z :=
  let sec := default autofs_gbl_sec section in
  if strcaseeq res NAME_LDAP_URI then conf_add sec res (Some value) 0
  else if strcaseeq res NAME_SEARCH_BASE then conf_add sec res (Some value) 0
  else conf_update sec res (Some value) 0.

(** The names of amd that are not used. *)
Definition ignored_names : list cstring :=
  [NAME_AMD_MOUNT_TYPE; NAME_AMD_PID_FILE; NAME_AMD_RESTART_MOUNTS;
   NAME_AMD_USE_TCPWRAPPERS; NAME_AMD_AUTO_ATTRCACHE; NAME_AMD_PRINT_PID; NAME_AMD_PRINT_VERSION;
   NAME_AMD_LOG_FILE; NAME_AMD_PREFERRED_AMQ_PORT; NAME_AMD_TRUNCATE_LOG; NAME_AMD_DEBUG_MTAB_FILE;
   NAME_AMD_DEBUG_OPTIONS; NAME_AMD_SUN_MAP_SYNTAX; NAME_AMD_PORTMAP_PROGRAM; NAME_AMD_NFS_VERS;
   NAME_AMD_NFS_VERS_PING; NAME_AMD_NFS_PROTO; NAME_AMD_NFS_ALLOW_ANY_INTERFACE;
   NAME_AMD_NFS_ALLOW_INSECURE_PORT; NAME_AMD_NFS_RETRANSMIT_COUNTER;
   NAME_AMD_NFS_RETRANSMIT_COUNTER_UDP; NAME_AMD_NFS_RETRANSMIT_COUNTER_TCP;
   NAME_AMD_NFS_RETRANSMIT_COUNTER_TOPLVL; NAME_AMD_NFS_RETRY_INTERVAL;
   NAME_AMD_NFS_RETRY_INTERVAL_UDP; NAME_AMD_NFS_RETRY_INTERVAL_TCP;
   NAME_AMD_NFS_RETRY_INTERVAL_TOPLVL; NAME_AMD_LDAP_CACHE_MAXMEM; NAME_AMD_LDAP_CACHE_SECONDS;
   NAME_AMD_LDAP_PROTO_VERSION; NAME_AMD_SHOW_STATFS_ENTRIES; NAME_AMD_CACHE_DURATION;
   NAME_AMD_MAP_RELOAD_INTERVAL; NAME_AMD_MAP_OPTIONS; NAME_AMD_PLOCK].

(** One line: the new value of [new_sec]. *)
Definition config_line (new_sec : option cstring) (line : list ascii) : CfM (option cstring) :=
  let buf := line ++ [NUL] in
  if MAX_LINE_LEN <? strlen (cstr_at buf 0) then mret new_sec else
  r ← from_option_M (parse_line buf);
  match r with
  | (None, _) => mret new_sec
  | (Some (SectionAt sec), buf) =>
      let sec := cstr_at buf sec in
      if MAX_SECTION_NAME <=? strlen sec then stuck
      else
        conf_update sec sec None 0;;
        mret (Some sec)
  | (Some (SettingAt key value), buf) =>
      let res := cstr_at buf 0 in
      if existsb (strcaseeq res) ignored_names then mret new_sec
      else
        check_set_config_value new_sec (cstr_at buf key) (cstr_at buf value);;
        mret new_sec
  end.

Fixpoint read_loop (fuel : nat) (f : list ascii) (new_sec : option cstring) : CfM unit :=
  match f, fuel with
  | [], _ => mret ()
  | _, O => stuck
  | _, S fuel =>
      let '(line, f) := fgets (Z.to_nat MAX_LINE_LEN) f in
      new_sec ← config_line new_sec line;
      read_loop fuel f new_sec
  end.

Definition read_config (f : list ascii) : CfM unit := read_loop (length f) f None.

(** ** The lists of LDAP options *)

(** The loop of [save_ldap_option_list]: the list it makes is [head], its last
    option [this]. *)
Fixpoint save_loop (fuel : nat) (key : cstring) (key_hash : Z) (head this last co : ptr) : CfM ptr :=
  match co with
  | None => mret head
  | Some a =>
      match fuel with
      | O => stuck
      | S fuel =>
          o ← load a;
          if negb (strcaseeq autofs_gbl_sec (co_section o))
          then save_loop fuel key key_hash head this co (co_next o)
          else
            e ← name_is key o;
            if e : bool then
              first ← get_bucket key_hash;
              (if bool_decide (co = first) then set_bucket key_hash (co_next o)
               else l ← from_option_M last; update l (set_co_next (co_next o)));;
              o ← load a;
              let last := co_next o in
              update a (set_co_next None);;
              match this with
              | Some t => update t (set_co_next co)
              | None => mret ()
              end;;
              save_loop fuel key key_hash (match head with None => co | _ => head end) co last last
            else save_loop fuel key key_hash head this last (co_next o)
      end
  end.

Definition save_ldap_option_list (key : cstring) : CfM ptr :=
  key_hash ← get_hash key CFG_TABLE_SIZE;
  co ← get_bucket key_hash;
  match co with
  | None => mret None
  | Some _ =>
      fuel ← heap_fuel;
      save_loop fuel key key_hash None None co co
  end.

Definition restore_ldap_option_list (list : ptr) : CfM unit :=
  match list with
  | None => mret ()
  | Some l =>
      fuel ← heap_fuel;
      lt ← seek fuel (fun _ _ => false) None list;
      last ← from_option_M lt.1;
      o ← load l;
      name ← from_option_M (co_name o);
      key_hash ← get_hash name CFG_TABLE_SIZE;
      co ← get_bucket key_hash;
      set_bucket key_hash list;;
      match co with
      | Some _ => update last (set_co_next co)
      | None => mret ()
      end
  end.

Definition free_ldap_option_list (list : ptr) : CfM unit :=
  fuel ← heap_fuel; free_options fuel list.

Definition clean_ldap_multi_option (key : cstring) : CfM unit :=
  fuel ← heap_fuel; delete_all fuel autofs_gbl_sec key.

(** ** The configuration *)

(** A file that can be opened: its characters, and its modification time when
    [fstat] succeeds. *)
Record cffile := CfFile { f_data : list ascii; f_mtime : option Z }.

Section Read.
Context (map_dir : cstring) (uname : Z * utsname).
(** What the stack holds at [stb.st_mtime] and [oldstb.st_mtime]. *)
Context (junk oldjunk : Z).

(** The saved list is put back or freed after the old configuration was read. *)
Definition settle_ldap_list (saved : ptr) (key : cstring) : CfM unit :=
  match saved with
  | None => mret ()
  | Some _ =>
      co ← conf_lookup (Some amd_gbl_sec) (Some key);
      match co with
      | Some _ => free_ldap_option_list saved
      | None => restore_ldap_option_list saved
      end
  end.

Definition read_old_config (f : list ascii) : CfM unit :=
  ldap_search_base ← save_ldap_option_list NAME_SEARCH_BASE;
  match ldap_search_base with Some _ => clean_ldap_multi_option NAME_SEARCH_BASE | None => mret () end;;
  ldap_uris ← save_ldap_option_list NAME_LDAP_URI;
  match ldap_uris with Some _ => clean_ldap_multi_option NAME_LDAP_URI | None => mret () end;;
  read_config f;;
  settle_ldap_list ldap_search_base NAME_SEARCH_BASE;;
  settle_ldap_list ldap_uris NAME_LDAP_URI.

(** The tests of the modification times, with [stat] and [oldstat] as the C code
    assigns them: whether neither file was changed, and [stat], [oldstat], and the
    times. *)
Definition check_times (conf oldconf : option cffile) (modified : Z) : bool * Z * Z * Z * Z :=
  match conf, oldconf with
  | Some c, Some o =>
      let stat := if f_mtime c then 1 else 0 in
      let mtime := default junk (f_mtime c) in
      if negb (stat =? 0) && (mtime <=? modified) then
        let oldstat := if f_mtime o then 0 else 1 in
        let oldmtime := default oldjunk (f_mtime o) in
        (negb (oldstat =? 0) && (oldmtime <=? modified), stat, oldstat, mtime, oldmtime)
      else (false, stat, -1, mtime, oldjunk)
  | _, _ => (false, -1, -1, junk, oldjunk)
  end.

Definition defaults_read_config (conf oldconf : option cffile) : CfM Z :=
  s ← get_state;
  init ← (match cf_config s with None => conf_init | Some _ => mret 0 end);
  if negb (init =? 0) then mret 0 else
  cc ← get_config;
  let '(unchanged, stat, oldstat, mtime, oldmtime) := check_times conf oldconf (cc_modified cc) in
  if unchanged : bool then mret 1 else
  ok ← (match conf, oldconf with
        | None, None => mret true
        | _, _ => reset_defaults map_dir uname
        end);
  if negb ok then mret 0 else
  (if stat =? -1 then mret ()
   else
     cc ← get_config;
     let modified :=
       if oldstat =? -1 then mtime else if oldmtime <? mtime then oldmtime else mtime in
     put_config (Some (CC (cc_hash cc) modified)));;
  match conf with Some c => read_config (f_data c) | None => mret () end;;
  match oldconf with Some o => read_old_config (f_data o) | None => mret () end;;
  mret 1.

End Read.
