(* ===== verification/ConfigGet.v ===== *)
(** * The configuration (lib/defaults.c): the values the rest of the program asks for

    Each accessor reads an option and falls back to a default. The conversions of
    C are written out: [u32] is a conversion to [unsigned int], [i32] one to [int],
    [u64] one to [unsigned long]. *)

From S2P Require Import Prelude CString Hash Memory CatPath Macros ConfigNames ConfigRead.
Open Scope Z_scope.

Definition LOGOPT_NONE : Z := 0.
Definition LOGOPT_DEBUG : Z := 1.
Definition LOGOPT_VERBOSE : Z := 2.

(** The levels of syslog. *)
Definition LOG_CRIT : Z := 2.
Definition LOG_ERR : Z := 3.
Definition LOG_WARNING : Z := 4.
Definition LOG_NOTICE : Z := 5.
Definition LOG_INFO : Z := 6.
Definition LOG_DEBUG : Z := 7.

(** [strdup] of a constant. *)
Definition strdup (s : cstring) : CfM (option cstring) :=
  ok ← malloc; mret (if ok : bool then Some s else None).

(** ** LDAP *)

(** [new = malloc(...); if (!new) continue;] without progress: the allocation is
    repeated until it succeeds. *)
Definition malloc_retry : CfM unit := fun s m => Some ((), s, tail (snd (split_at (fun b => b) m))).

(** The parts of a string between blanks that [strtok_r] returns. *)
Fixpoint strtok (s tok : cstring) : list cstring :=
  let emit := if bool_decide (tok = []) then [] else [tok] in
  match s with
  | [] => emit
  | c :: s => if c =a " " then emit ++ strtok s [] else strtok s (tok ++ [c])
  end.

Fixpoint uri_loop (toks uris : list cstring) : CfM (list cstring) :=
  match toks with
  | [] => mret uris
  | tok :: toks =>
      malloc_retry;;
      uri ← malloc;
      uri_loop toks (if uri : bool then uris ++ [tok] else uris)
  end.

Definition add_uris (value : cstring) (uris : list cstring) : CfM (list cstring) :=
  str ← malloc;
  if negb str then mret uris else uri_loop (strtok value []) uris.

(** The loop over the options from one on; [f] gets the values that are wanted, and
    can end the loop. *)
Fixpoint values_loop {A} (wanted : conf_option -> CfM (option cstring))
    (f : cstring -> A -> CfM (option A)) (fuel : nat) (acc : A) (co : ptr) : CfM (option A) :=
  match co with
  | None => mret (Some acc)
  | Some a =>
      match fuel with
      | O => stuck
      | S fuel =>
          o ← load a;
          v ← wanted o;
          match v with
          | None => values_loop wanted f fuel acc (co_next o)
          | Some v =>
              r ← f v acc;
              match r with
              | None => mret None
              | Some acc => values_loop wanted f fuel acc (co_next o)
              end
          end
      end
  end.

Definition wanted_uri (o : conf_option) : CfM (option cstring) :=
  e ← name_is NAME_LDAP_URI o;
  mret (if e : bool then co_value o else None).

Definition wanted_dn (o : conf_option) : CfM (option cstring) :=
  match co_value o with
  | None => mret None
  | Some v =>
      e ← name_is NAME_SEARCH_BASE o;
      mret (if e : bool then Some v else None)
  end.

Section Get.
Context (map_dir : cstring) (uname : Z * utsname) (junk oldjunk : Z).
Context (conf oldconf : option cffile).

Definition defaults_get_uris : CfM (option (list cstring)) :=
  ok ← malloc;
  if negb ok then mret None else
  r ← defaults_read_config map_dir uname junk oldjunk conf oldconf;
  if r =? 0 then mret None else
  co ← conf_lookup (Some autofs_gbl_sec) (Some NAME_LDAP_URI);
  match co with
  | None => mret None
  | Some _ =>
      fuel ← heap_fuel;
      l ← values_loop wanted_uri (fun v l => l ← add_uris v l; mret (Some l)) fuel [] co;
      mret (match l with Some (_ :: _) => l | _ => None end)
  end.

Definition alloc_searchdn (value : cstring) : CfM (option cstring) :=
  sdn ← malloc;
  if negb sdn then mret None else strdup value.

Definition add_searchdn (value : cstring) (sdns : list cstring) : CfM (option (list cstring)) :=
  new ← alloc_searchdn value;
  mret (match new with Some dn => Some (sdns ++ [dn]) | None => None end).

(** The list of search bases; [None] and the empty list are the null pointer. *)
Definition defaults_get_searchdns : CfM (option (list cstring)) :=
  r ← defaults_read_config map_dir uname junk oldjunk conf oldconf;
  if r =? 0 then mret None else
  co ← conf_lookup (Some autofs_gbl_sec) (Some NAME_SEARCH_BASE);
  match co with
  | None => mret None
  | Some _ => fuel ← heap_fuel; values_loop wanted_dn add_searchdn fuel [] co
  end.

End Get.

Record ldap_schema := Schema {
  map_class : cstring; map_attr : cstring; entry_class : cstring; entry_attr : cstring;
  value_attr : cstring
}.

(** Five strings in order, and the structure; the strings are freed when one is missing. *)
Definition make_schema (mc ma ec ea va : CfM (option cstring)) : CfM (option ldap_schema) :=
  mc ← mc;
  match mc with None => mret None | Some mc =>
  ma ← ma;
  match ma with None => mret None | Some ma =>
  ec ← ec;
  match ec with None => mret None | Some ec =>
  ea ← ea;
  match ea with None => mret None | Some ea =>
  va ← va;
  match va with None => mret None | Some va =>
  ok ← malloc;
  mret (if ok : bool then Some (Schema mc ma ec ea va) else None)
  end end end end end.

Definition defaults_get_default_schema : CfM (option ldap_schema) :=
  make_schema (strdup DEFAULT_MAP_OBJ_CLASS) (strdup DEFAULT_MAP_ATTR)
    (strdup DEFAULT_ENTRY_OBJ_CLASS) (strdup DEFAULT_ENTRY_ATTR) (strdup DEFAULT_VALUE_ATTR).

Definition defaults_get_schema : CfM (option ldap_schema) :=
  make_schema (conf_get_string autofs_gbl_sec NAME_MAP_OBJ_CLASS)
    (conf_get_string autofs_gbl_sec NAME_MAP_ATTR)
    (conf_get_string autofs_gbl_sec NAME_ENTRY_OBJ_CLASS)
    (conf_get_string autofs_gbl_sec NAME_ENTRY_ATTR)
    (conf_get_string autofs_gbl_sec NAME_VALUE_ATTR).

(** ** The options of autofs *)

Definition defaults_get_master_map : CfM (option cstring) :=
  master ← conf_get_string autofs_gbl_sec NAME_MASTER_MAP;
  match master with None => strdup DEFAULT_MASTER_MAP_NAME | Some _ => mret master end.

Definition defaults_master_set : CfM Z :=
  co ← conf_lookup (Some autofs_gbl_sec) (Some NAME_MASTER_MAP);
  mret (if (co : ptr) then 1 else 0).

Definition defaults_get_open_file_limit : CfM Z :=
  limit ← conf_get_number autofs_gbl_sec NAME_OPEN_FILE_LIMIT;
  mret (u64 (if limit <? 0 then atol DEFAULT_OPEN_FILE_LIMIT else limit)).

Definition defaults_get_timeout : CfM Z :=
  timeout ← conf_get_number autofs_gbl_sec NAME_TIMEOUT;
  mret (u32 (if timeout <? 0 then atol DEFAULT_TIMEOUT else timeout)).

Definition defaults_get_master_wait : CfM Z :=
  wait ← conf_get_number autofs_gbl_sec NAME_MASTER_WAIT;
  mret (i32 (if wait <? 0 then atol DEFAULT_MASTER_WAIT else wait)).

Definition defaults_get_negative_timeout : CfM Z :=
  n_timeout ← conf_get_number autofs_gbl_sec NAME_NEGATIVE_TIMEOUT;
  mret (u32 (if n_timeout <=? 0 then atol DEFAULT_NEGATIVE_TIMEOUT else n_timeout)).

Definition defaults_get_positive_timeout : CfM Z :=
  p_timeout ← conf_get_number autofs_gbl_sec NAME_POSITIVE_TIMEOUT;
  mret (u32 (if p_timeout <=? 0 then atol DEFAULT_POSITIVE_TIMEOUT else p_timeout)).

(** A yes or no option with a default. *)
Definition get_yesno (name dflt : cstring) : CfM Z :=
  res ← conf_get_yesno autofs_gbl_sec name;
  mret (u32 (if res <? 0 then atoi dflt else res)).

Definition defaults_get_browse_mode : CfM Z := get_yesno NAME_BROWSE_MODE DEFAULT_BROWSE_MODE.

Definition defaults_get_logging : CfM Z :=
  res ← conf_get_string autofs_gbl_sec NAME_LOGGING;
  match res with
  | None => mret LOGOPT_NONE
  | Some res =>
      if strcaseeq res (str "none") then mret LOGOPT_NONE
      else
        let logging := LOGOPT_NONE in
        let logging := if strcaseeq res (str "verbose") then Z.lor logging LOGOPT_VERBOSE else logging in
        let logging := if strcaseeq res (str "debug") then Z.lor logging LOGOPT_DEBUG else logging in
        mret logging
  end.

Definition defaults_force_std_prog_map_env : CfM Z :=
  get_yesno NAME_FORCE_STD_PROG_MAP_ENV DEFAULT_FORCE_STD_PROG_MAP_ENV.

Definition defaults_get_ldap_timeout : CfM Z :=
  res ← conf_get_number autofs_gbl_sec NAME_LDAP_TIMEOUT;
  let res := i32 res in
  mret (u32 (if res <? 0 then atoi DEFAULT_LDAP_TIMEOUT else res)).

Definition defaults_get_ldap_network_timeout : CfM Z :=
  res ← conf_get_number autofs_gbl_sec NAME_LDAP_NETWORK_TIMEOUT;
  let res := i32 res in
  mret (u32 (if res <? 0 then atoi DEFAULT_LDAP_NETWORK_TIMEOUT else res)).

Definition defaults_get_mount_nfs_default_proto : CfM Z :=
  proto ← conf_get_number autofs_gbl_sec NAME_MOUNT_NFS_DEFAULT_PROTOCOL;
  let proto := i32 proto in
  mret (u32 (if (proto <? 2) || (4 <? proto) then atoi DEFAULT_MOUNT_NFS_DEFAULT_PROTOCOL else proto)).

Definition defaults_get_append_options : CfM Z := get_yesno NAME_APPEND_OPTIONS DEFAULT_APPEND_OPTIONS.
Definition defaults_get_mount_verbose : CfM Z := get_yesno NAME_MOUNT_VERBOSE DEFAULT_MOUNT_VERBOSE.

Definition defaults_get_mount_wait : CfM Z :=
  wait ← conf_get_number autofs_gbl_sec NAME_MOUNT_WAIT;
  mret (u32 (if wait <? 0 then atoi DEFAULT_MOUNT_WAIT else wait)).

Definition defaults_get_umount_wait : CfM Z :=
  wait ← conf_get_number autofs_gbl_sec NAME_UMOUNT_WAIT;
  mret (u32 (if wait <? 0 then atoi DEFAULT_UMOUNT_WAIT else wait)).

Definition defaults_get_auth_conf_file (map_dir : cstring) : CfM (option cstring) :=
  cf ← conf_get_string autofs_gbl_sec NAME_AUTH_CONF_FILE;
  match cf with None => strdup (DEFAULT_AUTH_CONF_FILE map_dir) | Some _ => mret cf end.

Definition defaults_get_map_hash_table_size : CfM Z :=
  size ← conf_get_number autofs_gbl_sec NAME_MAP_HASH_TABLE_SIZE;
  mret (u32 (if size <? 0 then atoi DEFAULT_MAP_HASH_TABLE_SIZE else size)).

Definition defaults_use_hostname_for_mounts : CfM Z :=
  get_yesno NAME_USE_HOSTNAME_FOR_MOUNTS DEFAULT_USE_HOSTNAME_FOR_MOUNTS.
Definition defaults_disable_not_found_message : CfM Z :=
  get_yesno NAME_DISABLE_NOT_FOUND_MESSAGE DEFAULT_DISABLE_NOT_FOUND_MESSAGE.
Definition defaults_get_use_ignore_mount_option : CfM Z :=
  get_yesno NAME_USE_IGNORE_MOUNT_OPTION DEFAULT_USE_IGNORE_MOUNT_OPTION.
Definition defaults_get_sss_master_map_wait : CfM Z :=
  get_yesno NAME_SSS_MASTER_MAP_WAIT DEFAULT_SSS_MASTER_MAP_WAIT.
Definition defaults_get_use_mount_request_log_id : CfM Z :=
  get_yesno NAME_USE_MOUNT_REQUEST_LOG_ID DEFAULT_USE_MOUNT_REQUEST_LOG_ID.

(** ** The options of amd *)

Definition conf_amd_mount_section_exists (section : option cstring) : CfM Z := conf_section_exists section.
Definition conf_amd_get_mount_paths : CfM (option (list cstring)) := conf_enumerate_amd_mount_sections.

Definition conf_amd_get_arch : CfM (option cstring) := conf_get_string amd_gbl_sec NAME_AMD_ARCH.

Definition conf_amd_get_karch : CfM (option cstring) :=
  tmp ← conf_get_string amd_gbl_sec NAME_AMD_KARCH;
  match tmp with None => conf_amd_get_arch | Some _ => mret tmp end.

Definition conf_amd_get_os : CfM (option cstring) := conf_get_string amd_gbl_sec NAME_AMD_OS.
Definition conf_amd_get_os_ver : CfM (option cstring) := conf_get_string amd_gbl_sec NAME_AMD_OSVER.
Definition conf_amd_get_vendor : CfM (option cstring) := conf_get_string amd_gbl_sec NAME_AMD_VENDOR.
Definition conf_amd_get_full_os : CfM (option cstring) := conf_get_string amd_gbl_sec NAME_AMD_FULL_OS.

Definition conf_amd_get_auto_dir : CfM (option cstring) :=
  tmp ← conf_get_string amd_gbl_sec NAME_AMD_AUTO_DIR;
  match tmp with None => strdup DEFAULT_AMD_AUTO_DIR | Some _ => mret tmp end.

Definition conf_amd_get_cluster : CfM (option cstring) := conf_get_string amd_gbl_sec NAME_AMD_CLUSTER.

Definition conf_amd_get_exec_map_timeout : CfM Z :=
  tmp ← conf_get_number amd_gbl_sec NAME_AMD_EXEC_MAP_TIMEOUT;
  mret (u32 (if tmp =? -1 then atoi DEFAULT_AMD_EXEC_MAP_TIMEOUT else tmp)).

Definition conf_amd_get_hesiod_base : CfM (option cstring) := conf_get_string amd_gbl_sec NAME_AMD_HESIOD_BASE.
Definition conf_amd_get_ldap_base : CfM (option cstring) := conf_get_string amd_gbl_sec NAME_AMD_LDAP_BASE.
Definition conf_amd_get_ldap_hostports : CfM (option cstring) :=
  conf_get_string amd_gbl_sec NAME_AMD_LDAP_HOSTPORTS.

Definition conf_amd_get_ldap_proto_version : CfM Z :=
  tmp ← conf_get_number amd_gbl_sec NAME_AMD_LDAP_PROTO_VERSION;
  mret (u32 (if tmp =? -1 then atoi DEFAULT_AMD_LDAP_PROTO_VERSION else tmp)).

Definition conf_amd_get_sub_domain : CfM (option cstring) := conf_get_string amd_gbl_sec NAME_AMD_SUB_DOMAIN.
Definition conf_amd_get_localhost_address : CfM (option cstring) :=
  conf_get_string amd_gbl_sec NAME_AMD_LOCALHOST_ADDRESS.

Definition has_str (s : cstring) (t : string) : bool := if strstr s (str t) then true else false.

(** [if (log_level < level) log_level = level;] under a condition. *)
Definition raise_level (c : bool) (level log_level : Z) : Z :=
  if c && (log_level <? level) then level else log_level.

Definition conf_amd_get_log_options : CfM Z :=
  tmp ← conf_get_string amd_gbl_sec NAME_AMD_LOG_OPTIONS;
  let log_level :=
    match tmp with
    | None => -1
    | Some tmp =>
        let l := -1 in
        let l := raise_level (has_str tmp "debug" || has_str tmp "all") LOG_DEBUG l in
        let l := raise_level (has_str tmp "info" || has_str tmp "user" || negb (streq tmp (str "defaults")))
                   LOG_INFO l in
        let l := raise_level (has_str tmp "notice") LOG_NOTICE l in
        let l := raise_level (has_str tmp "warn" || has_str tmp "map" || has_str tmp "stats" ||
                              has_str tmp "warning") LOG_WARNING l in
        let l := raise_level (has_str tmp "error") LOG_ERR l in
        raise_level (has_str tmp "fatal") LOG_CRIT l
    end in
  mret (u32 (if log_level =? -1 then LOG_ERR else log_level)).

Definition conf_amd_get_nis_domain : CfM (option cstring) := conf_get_string amd_gbl_sec NAME_AMD_NIS_DOMAIN.

Definition conf_amd_set_nis_domain (domain : cstring) : CfM Z :=
  conf_update amd_gbl_sec NAME_AMD_NIS_DOMAIN (Some domain) CONF_NONE.

(** A string of a mount section. *)
Definition section_string (section : option cstring) (name : cstring) : CfM (option cstring) :=
  match section with Some section => conf_get_string section name | None => mret None end.

(** ... or of the section [amd]. *)
Definition section_or_global (section : option cstring) (name : cstring) : CfM (option cstring) :=
  tmp ← section_string section name;
  match tmp with None => conf_get_string amd_gbl_sec name | Some _ => mret tmp end.

Definition conf_amd_get_map_defaults (section : option cstring) : CfM (option cstring) :=
  section_or_global section NAME_AMD_MAP_DEFAULTS.
Definition conf_amd_get_map_name (section : option cstring) : CfM (option cstring) :=
  section_string section NAME_AMD_MAP_NAME.
Definition conf_amd_get_map_options (section : option cstring) : CfM (option cstring) :=
  section_string section NAME_AMD_MAP_OPTIONS.
Definition conf_amd_get_map_type (section : option cstring) : CfM (option cstring) :=
  section_or_global section NAME_AMD_MAP_TYPE.
Definition conf_amd_get_search_path (section : option cstring) : CfM (option cstring) :=
  section_or_global section NAME_AMD_SEARCH_PATH.

Definition conf_amd_get_dismount_interval (section : option cstring) : CfM Z :=
  tmp ← (match section with
         | Some section => conf_get_number section NAME_AMD_DISMOUNT_INTERVAL
         | None => mret (-1)
         end);
  tmp ← (if tmp =? -1 then conf_get_number amd_gbl_sec NAME_AMD_DISMOUNT_INTERVAL else mret tmp);
  tmp ← (if tmp =? -1 then defaults_get_timeout else mret tmp);
  mret (u32 (if tmp =? -1 then atoi DEFAULT_TIMEOUT else tmp)).

Definition conf_amd_get_linux_ufs_mount_type : CfM (option cstring) :=
  conf_get_string amd_gbl_sec NAME_AMD_LINUX_UFS_MOUNT_TYPE.

(** [tmp] is an [unsigned long] to which the result of [conf_get_yesno] is
    assigned; a flag of the section [amd]. *)
Definition amd_flag (name : cstring) (f flags : Z) : CfM Z :=
  tmp ← conf_get_yesno amd_gbl_sec name;
  mret (if u64 tmp =? 0 then flags else Z.lor flags f).

(** ... of a mount section or else of the section [amd]. *)
Definition section_flag (section : option cstring) (name : cstring) (f flags : Z) : CfM Z :=
  tmp ← (match section with
         | Some section => tmp ← conf_get_yesno section name; mret (u64 tmp)
         | None => mret (u64 (-1))
         end);
  tmp ← (if tmp =? u64 (-1) then tmp ← conf_get_yesno amd_gbl_sec name; mret (u64 tmp) else mret tmp);
  mret (if tmp =? 0 then flags else Z.lor flags f).

Definition conf_amd_get_flags (section : option cstring) : CfM Z :=
  flags ← section_flag section NAME_AMD_BROWSABLE_DIRS CONF_BROWSABLE_DIRS CONF_MOUNT_TYPE_AUTOFS;
  flags ← section_flag section NAME_AMD_SELECTORS_IN_DEFAULTS CONF_SELECTORS_IN_DEFAULTS flags;
  flags ← amd_flag NAME_AMD_NORMALIZE_HOSTNAMES CONF_NORMALIZE_HOSTNAMES flags;
  flags ← amd_flag NAME_AMD_RESTART_MOUNTS CONF_RESTART_EXISTING_MOUNTS flags;
  flags ← amd_flag NAME_AMD_FULLY_QUALIFIED_HOSTS CONF_FULLY_QUALIFIED_HOSTS flags;
  flags ← amd_flag NAME_AMD_UMOUNT_ON_EXIT CONF_UNMOUNT_ON_EXIT flags;
  flags ← section_flag section NAME_AMD_AUTOFS_USE_LOFS CONF_AUTOFS_USE_LOFS flags;
  flags ← amd_flag NAME_AMD_DOMAIN_STRIP CONF_DOMAIN_STRIP flags;
  flags ← amd_flag NAME_AMD_NORMALIZE_SLASHES CONF_NORMALIZE_SLASHES flags;
  amd_flag NAME_AMD_FORCED_UMOUNTS CONF_FORCED_UNMOUNTS flags.
