(* ===== verification/ConfigProps.v ===== *)
(** * The table of options refines a map from names to lists of values

    The abstract configuration gives for a section and a name, whose case does not
    matter, the list of their values with their flags. [models] relates the table
    to it; lookups, [conf_add] and [conf_update] are the operations of the abstract
    configuration. *)

From S2P Require Import Prelude CString Hash Memory CatPath Macros ConfigNames.
Open Scope Z_scope.

(** ** The abstract configuration *)

Abbreviation entry := (option cstring * Z)%type.
Definition aconf : Type := cstring -> cstring -> list entry.

(** The same section and name up to case. *)
Definition same_key (sec key sec' key' : cstring) : bool := strcaseeq sec sec' && strcaseeq key key'.

(** The other name under which a lookup tries to find an option. *)
Definition alt_key (key : cstring) : cstring :=
  if (8 <? strlen key) && default_prefix key then drop 8 key else str "DEFAULT_" ++ key.

(** The name under which a lookup finds an option. *)
Definition resolve (E : aconf) (sec key : cstring) : option cstring :=
  match E sec key, E sec (alt_key key) with
  | _ :: _, _ => Some key
  | [], _ :: _ => Some (alt_key key)
  | [], [] => None
  end.

Definition alookup (E : aconf) (sec key : cstring) : option entry :=
  k ← resolve E sec key; head (E sec k).

Definition aappend (E : aconf) (sec key : cstring) (e : entry) : aconf := fun sec' key' =>
  E sec' key' ++ (if same_key sec key sec' key' then [e] else []).

Definition aset_first (E : aconf) (sec key : cstring) (f : entry -> entry) : aconf := fun sec' key' =>
  if same_key sec key sec' key' then
    match E sec' key' with
    | e :: l => f e :: l
    | [] => []
    end
  else E sec' key'.

(** The value that is stored: the environment overrides the given one. *)
Definition avalue (env : gmap cstring cstring) (key : cstring) (value : option cstring) (flags : Z) :
    option cstring :=
  match (if conf_env flags then env !! key else None) with
  | Some t => Some t
  | None => value
  end.

Definition aupdate (E : aconf) (env : gmap cstring cstring) (sec key : cstring) (value : option cstring)
    (flags : Z) : aconf :=
  let val := avalue env key value flags in
  match resolve E sec key with
  | Some k => aset_first E sec k (fun e => (val, if flags =? 0 then e.2 else flags))
  | None => aappend E sec key (val, flags)
  end.

(** The environment afterwards. *)
Definition asetenv (env : gmap cstring cstring) (key : cstring) (value : option cstring) (flags : Z) :
    gmap cstring cstring :=
  match conf_env flags, value, env !! key with
  | true, Some v, None =>
      if bool_decide (key = []) || bool_decide ("="%char ∈ key) then env else <[key := v]> env
  | _, _, _ => env
  end.

(** ** The table *)

Definition bucket_of (key : cstring) : nat := Z.to_nat (hash (tolower <$> key) CFG_TABLE_SIZE).

Definition matches (sec key : cstring) (o : conf_option) : bool :=
  strcaseeq sec (co_section o) && from_option (strcaseeq key) false (co_name o).

(** The well-formed table with the options [bs] in its buckets. *)
Record table (s : cfstate) (cc : conf_cache) (bs : list (list positive)) : Prop := {
  tb_config : cf_config s = Some cc;
  tb_size : length (cc_hash cc) = Z.to_nat CFG_TABLE_SIZE;
  tb_buckets : length bs = Z.to_nat CFG_TABLE_SIZE;
  tb_chain : forall i l, bs !! i = Some l ->
    exists p, cc_hash cc !! i = Some p /\ chain (cf_heap s) p l;
  tb_name : forall i l a, bs !! i = Some l -> a ∈ l ->
    exists o n, cf_heap s !! a = Some o /\ co_name o = Some n /\ bucket_of n = i;
  tb_owned : forall a, is_Some (cf_heap s !! a) -> exists i l, bs !! i = Some l /\ a ∈ l
}.

Definition entry_at (h : gmap positive conf_option) (sec key : cstring) (a : positive) : option entry :=
  match h !! a with
  | Some o => if matches sec key o then Some (co_value o, co_flags o) else None
  | None => None
  end.

Definition entries (h : gmap positive conf_option) (bs : list (list positive)) : aconf := fun sec key =>
  omap (entry_at h sec key) (default [] (bs !! bucket_of key)).

(** The table holds the abstract configuration. *)
Definition models (s : cfstate) (E : aconf) : Prop :=
  exists cc bs, table s cc bs /\ forall sec key, entries (cf_heap s) bs sec key = E sec key.

(** ** Names *)

Lemma strcaseeq_spec s t : reflect (tolower <$> s = tolower <$> t) (strcaseeq s t).
Proof. apply bool_decide_reflect. Qed.

Lemma strcaseeq_refl s : strcaseeq s s = true.
Proof. by apply bool_decide_eq_true. Qed.

Lemma strcaseeq_length s t : strcaseeq s t = true -> length s = length t.
Proof. intros H%bool_decide_eq_true%(f_equal length). by rewrite !length_fmap in H. Qed.

Lemma strcaseeq_l s t u : strcaseeq s t = true -> strcaseeq u s = strcaseeq u t.
Proof.
  intros H%bool_decide_eq_true. unfold strcaseeq. by rewrite H.
Qed.

Lemma strcaseeq_sym s t : strcaseeq s t = strcaseeq t s.
Proof. unfold strcaseeq. by apply bool_decide_ext. Qed.

Lemma bucket_of_case key key' : strcaseeq key key' = true -> bucket_of key = bucket_of key'.
Proof. intros H%bool_decide_eq_true. unfold bucket_of. by rewrite H. Qed.

Lemma hash_nonneg key : 0 <= hash key CFG_TABLE_SIZE < CFG_TABLE_SIZE.
Proof. unfold hash. by apply Z.mod_pos_bound. Qed.

Lemma bucket_of_lt key : (bucket_of key < Z.to_nat CFG_TABLE_SIZE)%nat.
Proof. unfold bucket_of. pose proof (hash_nonneg (tolower <$> key)). lia. Qed.

(** An option that matches is found by the names that are the same as its own. *)
Lemma matches_same sec key o sec' key' :
  matches sec key o = true -> matches sec' key' o = same_key sec key sec' key'.
Proof.
  unfold matches, same_key. intros [Hs Hk]%andb_true_iff.
  destruct (co_name o) as [n|]; [|done]. simpl in *.
  rewrite strcaseeq_sym in Hs. rewrite strcaseeq_sym in Hk.
  rewrite (strcaseeq_l _ _ sec' Hs), (strcaseeq_l _ _ key' Hk).
  by rewrite (strcaseeq_sym sec'), (strcaseeq_sym key').
Qed.

Lemma entry_at_links h h' sec key a :
  same_but_links h h' -> entry_at h sec key a = entry_at h' sec key a.
Proof.
  intros H. specialize (H a). unfold entry_at.
  destruct (h !! a) as [o|], (h' !! a) as [o'|]; simplify_eq/=; [|done].
  destruct o, o'. unfold matches. cbn in *. simplify_eq. done.
Qed.

(** ** Reading the table *)

Section Table.
Context (s : cfstate) (cc : conf_cache) (bs : list (list positive)) (T : table s cc bs).

Lemma get_config_reads : reads get_config s cc.
Proof. intros m. unfold get_config. mread. by rewrite (tb_config _ _ _ T). Qed.

Lemma bucket_lookup key : exists l, bs !! bucket_of key = Some l.
Proof. apply lookup_lt_is_Some. rewrite (tb_buckets _ _ _ T). apply bucket_of_lt. Qed.

Lemma get_hash_reads key :
  strlen key <= PATH_MAX -> reads (get_hash key CFG_TABLE_SIZE) s (hash (tolower <$> key) CFG_TABLE_SIZE).
Proof. intros H m. unfold get_hash. by destruct (Z.ltb_spec PATH_MAX (strlen key)); [lia|]. Qed.

Lemma get_bucket_reads key l p :
  bs !! bucket_of key = Some l -> cc_hash cc !! bucket_of key = Some p ->
  reads (get_bucket (hash (tolower <$> key) CFG_TABLE_SIZE)) s p.
Proof.
  intros Hl Hp m. unfold get_bucket. rewrite (reads_bind _ _ _ _ _ get_config_reads).
  change (Z.to_nat _) with (bucket_of key). by rewrite Hp.
Qed.

Lemma lookup_loop_reads sec key l fuel p :
  chain (cf_heap s) p l -> (length l <= fuel)%nat ->
  (forall a, a ∈ l -> exists o n, cf_heap s !! a = Some o /\ co_name o = Some n) ->
  reads (lookup_loop fuel sec key p) s
    (head (split_at (fun a => bool_decide (is_Some (entry_at (cf_heap s) sec key a))) l).2).
Proof.
  induction l as [|a l IH] in fuel, p |- *; intros Hc Hf Hn m.
  - inversion Hc. by destruct fuel.
  - destruct Hc as [-> (o & Ha & Hc)]. destruct fuel as [|fuel]; simpl in Hf; [lia|].
    destruct (Hn a ltac:(set_solver)) as (o' & n & Ha' & Hname). rewrite Ha in Ha'. injection Ha' as <-. simpl.
    rewrite (bind_load (S := cfstate) _ _ _ _ o) by done.
    assert (bool_decide (is_Some (entry_at (cf_heap s) sec key a)) = matches sec key o) as ->.
    { unfold entry_at. rewrite Ha. destruct (matches sec key o); [by apply bool_decide_eq_true|].
      apply bool_decide_eq_false. by intros [? ?]. }
    unfold matches. rewrite Hname. simpl.
    assert (forall m, lookup_loop fuel sec key (co_next o) s m =
      Some (head (split_at (fun a => bool_decide (is_Some (entry_at (cf_heap s) sec key a))) l).2, s, m)) as Hrec.
    { intros m'. apply IH; [done|lia|]. intros b Hb. apply Hn. set_solver. }
    destruct (strcaseeq sec (co_section o)); simpl; [|rewrite Hrec; by destruct (split_at _ l)].
    unfold name_is. rewrite Hname. unfold mbind, M_bind; simpl.
    destruct (strcaseeq key n); [done|]. rewrite Hrec. by destruct (split_at _ l).
Qed.

(** The option that is found for a section and a name. *)
Definition found (sec key : cstring) : ptr :=
  head (split_at (fun a => bool_decide (is_Some (entry_at (cf_heap s) sec key a)))
    (default [] (bs !! bucket_of key))).2.

Lemma found_None sec key : found sec key = None <-> entries (cf_heap s) bs sec key = [].
Proof.
  unfold found, entries. induction (default [] (bs !! bucket_of key)) as [|a l IH]; [done|]. simpl.
  destruct (entry_at (cf_heap s) sec key a) eqn:E; simpl.
  - done.
  - destruct (split_at _ l). exact IH.
Qed.

(** The first of the options, before which none matches. *)
Lemma found_Some sec key a :
  found sec key = Some a ->
  exists o n l1 l2, cf_heap s !! a = Some o /\ co_name o = Some n /\ matches sec key o = true /\
    bs !! bucket_of key = Some (l1 ++ a :: l2) /\ omap (entry_at (cf_heap s) sec key) l1 = [] /\
    entries (cf_heap s) bs sec key
    = (co_value o, co_flags o) :: omap (entry_at (cf_heap s) sec key) l2.
Proof.
  unfold found, entries. destruct (bucket_lookup key) as [l Hl]. rewrite Hl. simpl. intros Hh.
  set (p := fun a => _) in Hh. pose proof (split_at_head _ _ _ Hh) as Hp.
  pose proof (split_at_before p l) as Hb. pose proof (split_at_app p l) as Happ.
  destruct (split_at p l) as [l1 [|x l2]]; simplify_eq/=.
  unfold p, entry_at in Hp. apply bool_decide_eq_true in Hp as [e He].
  destruct (cf_heap s !! a) as [o|] eqn:Ha; [|done].
  destruct (matches sec key o) eqn:Hm; [|done].
  assert (exists n, co_name o = Some n) as [n Hn].
  { unfold matches in Hm. destruct (co_name o); [eauto|]. by rewrite andb_false_r in Hm. }
  assert (omap (entry_at (cf_heap s) sec key) l1 = []) as Hno.
  { clear -Hb. induction Hb as [|b l1 H _ IH]; [done|]. unfold p in H. simpl.
    destruct (entry_at _ _ _ b); [by rewrite bool_decide_eq_true_2 in H|done]. }
  exists o, n, l1, l2. rewrite omap_app, Hno. simpl. unfold entry_at at 1. rewrite Ha, Hm. eauto 8.
Qed.

Lemma conf_lookup_key_reads sec key :
  strlen key <= PATH_MAX -> reads (conf_lookup_key sec key) s (found sec key).
Proof.
  intros Hk m. unfold conf_lookup_key, found. rewrite (reads_bind _ _ _ _ _ (get_hash_reads _ Hk)).
  destruct (bucket_lookup key) as [l Hl]. destruct (tb_chain _ _ _ T _ _ Hl) as (p & Hp & Hc).
  rewrite (reads_bind _ _ _ _ _ (get_bucket_reads _ _ _ Hl Hp)), bind_heap_fuel, Hl.
  apply lookup_loop_reads; [done|by eapply chain_length|].
  intros a Ha. destruct (tb_name _ _ _ T _ _ _ Hl Ha) as (o & n & ? & ? & _). eauto.
Qed.

Lemma alt_key_strlen key : strlen key <= PATH_MAX - 8 -> strlen (alt_key key) <= PATH_MAX.
Proof.
  unfold alt_key, strlen. destruct (_ && _); rewrite ?length_drop, ?length_app; simpl; lia.
Qed.

Lemma conf_lookup_reads sec key :
  strlen key <= PATH_MAX - 8 ->
  reads (conf_lookup (Some sec) (Some key)) s
    (match found sec key with Some a => Some a | None => found sec (alt_key key) end).
Proof.
  intros Hk m. unfold conf_lookup.
  destruct (Z.ltb_spec PATH_MAX (strlen key)); [unfold PATH_MAX in *; lia|].
  rewrite (reads_bind _ _ _ _ _ (conf_lookup_key_reads sec key ltac:(lia))).
  destruct (found sec key); [done|]. pose proof (alt_key_strlen key Hk) as Ha. unfold alt_key in *.
  destruct ((8 <? strlen key) && default_prefix key); [by apply conf_lookup_key_reads|].
  destruct (Z.ltb_spec PATH_MAX (strlen (str "DEFAULT_" ++ key))); [lia|].
  by apply conf_lookup_key_reads.
Qed.

End Table.

(** ** Appending an option *)

Lemma table_env s cc bs env :
  table s cc bs -> table (CfS (cf_config s) (cf_heap s) env) cc bs.
Proof. intros [? ? ? ? ? ?]. by split. Qed.

Lemma table_disjoint s cc bs i j l l' a :
  table s cc bs -> bs !! i = Some l -> bs !! j = Some l' -> a ∈ l -> a ∈ l' -> i = j.
Proof.
  intros T Hi Hj Ha Ha'. destruct (tb_name _ _ _ T _ _ _ Hi Ha) as (o & n & ? & ? & <-).
  destruct (tb_name _ _ _ T _ _ _ Hj Ha') as (o' & n' & ? & ? & <-). by simplify_eq.
Qed.

Lemma entry_at_ne h sec key a o b : a <> b -> entry_at (<[a := o]> h) sec key b = entry_at h sec key b.
Proof. intros H. unfold entry_at. by rewrite lookup_insert_ne. Qed.

Lemma omap_entry_ext h h' sec key (l : list positive) :
  (forall a, a ∈ l -> entry_at h sec key a = entry_at h' sec key a) ->
  omap (entry_at h sec key) l = omap (entry_at h' sec key) l.
Proof.
  induction l as [|a l IH]; intros H; [done|]. pose proof (IH ltac:(set_solver)) as IH'.
  unfold omap in *. simpl. rewrite H by set_solver. by rewrite IH'.
Qed.

(** The store and the buckets after an option was linked behind a list. *)
Definition link_last (h : gmap positive conf_option) (l : list positive) (a : positive) :
    gmap positive conf_option :=
  match last l with
  | Some b => alter (set_co_next (Some a)) b h
  | None => h
  end.

Definition head_after (cc : conf_cache) (i : nat) (l : list positive) (a : positive) : conf_cache :=
  match l with
  | [] => CC (<[i := Some a]> (cc_hash cc)) (cc_modified cc)
  | _ => cc
  end.

Lemma link_last_links h l a : same_but_links (NA := conf_option_node) h (link_last h l a).
Proof.
  unfold link_last. destruct (last l) as [b|]; [|done].
  intros c. destruct (decide (b = c)) as [->|].
  - rewrite lookup_alter_eq. by destruct (h !! c).
  - by rewrite lookup_alter_ne.
Qed.

Section Append.
Context (s : cfstate) (cc : conf_cache) (bs : list (list positive)) (T : table s cc bs).
Context (a : positive) (new : conf_option) (n : cstring) (l : list positive) (p : ptr).
Context (Hfresh : cf_heap s !! a = None) (Hname : co_name new = Some n) (Hnext : co_next new = None).
Context (Hl : bs !! bucket_of n = Some l) (Hp : cc_hash cc !! bucket_of n = Some p).

Definition append_heap : gmap positive conf_option := link_last (<[a := new]> (cf_heap s)) l a.
Definition append_buckets : list (list positive) := <[bucket_of n := l ++ [a]]> bs.

Lemma fresh_not_in i l' : bs !! i = Some l' -> a ∉ l'.
Proof.
  intros Hi Ha. destruct (tb_name _ _ _ T _ _ _ Hi Ha) as (o & ? & Ho & _). congruence.
Qed.

Lemma append_links b : set_co_next None <$> append_heap !! b = set_co_next None <$> <[a := new]> (cf_heap s) !! b.
Proof. symmetry. apply (link_last_links (<[a := new]> (cf_heap s)) l a b). Qed.

Lemma append_chain_new :
  exists q, cc_hash (head_after cc (bucket_of n) l a) !! bucket_of n = Some q /\
    chain append_heap q (l ++ [a]).
Proof.
  pose proof (fresh_not_in _ _ Hl) as Ha. destruct (tb_chain _ _ _ T _ _ Hl) as (p' & Hp' & Hc).
  rewrite Hp in Hp'. injection Hp' as <-.
  unfold append_heap, link_last. destruct l as [|c l'] eqn:El.
  - exists (Some a). simpl. split.
    + apply list_lookup_insert_eq. rewrite (tb_size _ _ _ T). apply bucket_of_lt.
    + split; [done|]. exists new. rewrite lookup_insert_eq. done.
  - rewrite <- El in *. exists p. split; [by rewrite El|].
    destruct (exists_last (l := l)) as (l0 & b & E); [by rewrite El|]. rewrite E, last_snoc.
    rewrite E in Hc, Ha. assert (a <> b) as Hab by set_solver.
    assert (exists o, cf_heap s !! b = Some o) as [o Ho].
    { eapply (lseg_live _ _ _ _ b) in Hc as [o Ho]; [eauto|set_solver]. }
    assert (alter (set_co_next (Some a)) b (<[a:=new]> (cf_heap s))
      = <[b := set_link (Some a) o]> (<[a:=new]> (cf_heap s))) as ->.
    { apply map_eq. intros c'. destruct (decide (c' = b)) as [->|].
      - by rewrite lookup_alter_eq, lookup_insert_eq, lookup_insert_ne, Ho.
      - by rewrite lookup_alter_ne, (lookup_insert_ne _ b) by done. }
    apply lseg_app. exists (Some a). split.
    + eapply lseg_redirect; [by eapply chain_NoDup|by apply lseg_insert|].
      by rewrite lookup_insert_ne.
    + split; [done|]. exists new. rewrite lookup_insert_ne, lookup_insert_eq by done. done.
Qed.

Lemma append_chain_old i l' :
  i <> bucket_of n -> bs !! i = Some l' ->
  exists q, cc_hash (head_after cc (bucket_of n) l a) !! i = Some q /\ chain append_heap q l'.
Proof.
  intros Hi Hl'. destruct (tb_chain _ _ _ T _ _ Hl') as (q & Hq & Hc). exists q. split.
  - unfold head_after. destruct l; [|done]. simpl. by rewrite list_lookup_insert_ne.
  - eapply lseg_ext; [|exact Hc]. intros b Hb. unfold append_heap, link_last.
    pose proof (fresh_not_in _ _ Hl') as Ha. assert (a <> b) by set_solver.
    destruct (last l) as [c|] eqn:El; [|by rewrite lookup_insert_ne].
    assert (c <> b) as Hcb.
    { intros ->. apply Hi. eapply (table_disjoint _ _ _ i (bucket_of n) l' l b T); [done..|].
      apply last_Some in El as [l0 ->]. set_solver. }
    by rewrite lookup_alter_ne, lookup_insert_ne.
Qed.

Lemma append_table env :
  table (CfS (Some (head_after cc (bucket_of n) l a)) append_heap env)
    (head_after cc (bucket_of n) l a) append_buckets.
Proof.
  assert (bucket_of n < length bs)%nat as Hlt by by eapply lookup_lt_Some.
  split; simpl.
  - done.
  - rewrite <- (tb_size _ _ _ T). unfold head_after. destruct l; [|done]. simpl. by rewrite length_insert.
  - unfold append_buckets. rewrite length_insert. apply T.
  - intros i l' Hi. unfold append_buckets in Hi. destruct (decide (i = bucket_of n)) as [->|].
    + rewrite list_lookup_insert_eq in Hi by done. injection Hi as <-. apply append_chain_new.
    + rewrite list_lookup_insert_ne in Hi by done. by apply append_chain_old.
  - intros i l' b Hi Hb.
    assert (exists o m, <[a := new]> (cf_heap s) !! b = Some o /\ co_name o = Some m /\ bucket_of m = i)
      as (o & m & Ho & Hm & Hbi).
    { unfold append_buckets in Hi. destruct (decide (b = a)) as [->|Hba].
      - exists new, n. rewrite lookup_insert_eq. split; [done|]. split; [done|].
        destruct (decide (i = bucket_of n)) as [|Hne]; [done|].
        rewrite list_lookup_insert_ne in Hi by done. by destruct (fresh_not_in _ _ Hi).
      - rewrite lookup_insert_ne by done. destruct (decide (i = bucket_of n)) as [->|Hne].
        + rewrite list_lookup_insert_eq in Hi by done. injection Hi as <-.
          apply (tb_name _ _ _ T _ l); set_solver.
        + rewrite list_lookup_insert_ne in Hi by done. by eapply (tb_name _ _ _ T). }
    pose proof (append_links b) as Hk. rewrite Ho in Hk. destruct (append_heap !! b) as [o'|]; [|done].
    exists o', m. split; [done|]. destruct o, o'. by simplify_eq/=.
  - intros b Hb. assert (is_Some (<[a := new]> (cf_heap s) !! b)) as Hb'.
    { pose proof (append_links b) as Hk. destruct Hb as [o' Ho']. simpl in Ho'. rewrite Ho' in Hk.
      destruct (<[a := new]> (cf_heap s) !! b); [eauto|done]. }
    destruct (decide (b = a)) as [->|Hne].
    + exists (bucket_of n), (l ++ [a]). unfold append_buckets. rewrite list_lookup_insert_eq by done. set_solver.
    + rewrite lookup_insert_ne in Hb' by done. destruct (tb_owned _ _ _ T _ Hb') as (i & l' & Hi & Hin).
      unfold append_buckets. destruct (decide (i = bucket_of n)) as [->|].
      * exists (bucket_of n), (l ++ [a]). rewrite list_lookup_insert_eq by done.
        rewrite Hl in Hi. injection Hi as <-. set_solver.
      * exists i, l'. by rewrite list_lookup_insert_ne.
Qed.

Lemma append_entries sec key :
  entries append_heap append_buckets sec key
  = entries (cf_heap s) bs sec key ++ (if matches sec key new then [(co_value new, co_flags new)] else []).
Proof.
  unfold entries. rewrite (omap_entry_ext append_heap (<[a := new]> (cf_heap s))).
  2:{ intros b _. symmetry. apply entry_at_links, link_last_links. }
  assert (forall i l', bs !! i = Some l' ->
    omap (entry_at (<[a := new]> (cf_heap s)) sec key) l' = omap (entry_at (cf_heap s) sec key) l') as Hold.
  { intros i l' Hi. apply omap_entry_ext. intros b Hb. apply entry_at_ne.
    pose proof (fresh_not_in _ _ Hi). set_solver. }
  unfold append_buckets. destruct (decide (bucket_of key = bucket_of n)) as [E|E].
  - rewrite E, list_lookup_insert_eq, Hl by (by eapply lookup_lt_Some). simpl.
    rewrite omap_app, (Hold _ _ Hl). f_equal. simpl. unfold entry_at. rewrite lookup_insert_eq.
    by destruct (matches sec key new).
  - rewrite list_lookup_insert_ne by done. destruct (bs !! bucket_of key) as [l'|] eqn:Hk; simpl.
    + rewrite (Hold _ _ Hk). destruct (matches sec key new) eqn:Hm; [|by rewrite app_nil_r].
      unfold matches in Hm. rewrite Hname in Hm. apply andb_true_iff in Hm as [_ Hm]. simpl in Hm.
      by destruct E; apply bucket_of_case.
    + apply lookup_ge_None in Hk. rewrite (tb_buckets _ _ _ T) in Hk. pose proof (bucket_of_lt key). lia.
Qed.

End Append.
