(* ===== verification/ConfigUpdate.v ===== *)
(** * The operations on the table of options

    [conf_add] and [conf_update] refine the operations of the abstract
    configuration when memory does not run out; [conf_add] leaves the table alone
    when it does, unless the name is what cannot be copied. *)

From S2P Require Import Prelude CString Hash Memory CatPath Macros ConfigNames ConfigProps.
Open Scope Z_scope.

(** ** Steps *)

Lemma conf_value_run key value flags s :
  conf_value key value flags s [] = Some (Some (avalue (cf_env s) key value flags), s, []).
Proof.
  unfold conf_value, avalue, getenv, mbind, M_bind, get_state. destruct (conf_env flags); simpl.
  - destruct (cf_env s !! key), value; done.
  - by destruct value.
Qed.

Definition after_env (key : cstring) (value : option cstring) (flags : Z) (s : cfstate) : cfstate :=
  CfS (cf_config s) (cf_heap s) (asetenv (cf_env s) key value flags).

Lemma cfstate_eta s : CfS (cf_config s) (cf_heap s) (cf_env s) = s.
Proof. by destruct s. Qed.

Lemma setenv_run {B} key value flags (k : unit -> CfM B) s :
  ((match conf_env flags, value with
    | true, Some value => setenv (Some key) value
    | _, _ => mret ()
    end) ≫= k) s [] = k () (after_env key value flags s) [].
Proof.
  unfold after_env, asetenv. destruct (conf_env flags); [|by rewrite cfstate_eta].
  destruct value as [v|]; [|by rewrite cfstate_eta]. unfold setenv.
  destruct (bool_decide (key = []) || bool_decide ("="%char ∈ key)).
  - destruct (cf_env s !! key); by rewrite cfstate_eta.
  - unfold getenv, mbind, M_bind, get_state. simpl.
    destruct (cf_env s !! key); simpl; by rewrite ?cfstate_eta.
Qed.

Lemma bind_malloc_nil {B} (k : bool -> CfM B) s : (malloc ≫= k) s [] = k true s [].
Proof. reflexivity. Qed.

Lemma split_at_never (h : gmap positive conf_option) l :
  split_at (stops h (fun _ _ => false)) l = (l, []).
Proof.
  induction l as [|x l IH]; [done|]. simpl. rewrite IH. unfold stops. by destruct (h !! x).
Qed.

(** Linking a new option behind its list. *)
Lemma link_run {B} (s : cfstate) cc bs a new n l p env (k : unit -> CfM B) m :
  table s cc bs -> cf_heap s !! a = None -> bs !! bucket_of n = Some l ->
  cc_hash cc !! bucket_of n = Some p -> strlen n <= PATH_MAX ->
  (key_hash ← get_hash n CFG_TABLE_SIZE;
   first ← get_bucket key_hash;
   match first with
   | None => set_bucket key_hash (Some a)
   | Some _ =>
       fuel ← heap_fuel;
       lt ← seek fuel (fun _ _ => false) None first;
       last ← from_option_M lt.1;
       update last (set_co_next (Some a))
   end ≫= k) (CfS (Some cc) (<[a := new]> (cf_heap s)) env) m
  = k () (CfS (Some (head_after cc (bucket_of n) l a)) (append_heap s a new l) env) m.
Proof.
  intros T Hf Hl Hp Hn. set (s1 := CfS _ _ _).
  destruct (tb_chain _ _ _ T _ _ Hl) as (p' & Hp' & Hc). rewrite Hp in Hp'. injection Hp' as <-.
  rewrite (reads_bind _ _ s1 _ _ (get_hash_reads s1 n Hn)).
  assert (reads (get_bucket (hash (tolower <$> n) CFG_TABLE_SIZE)) s1 p) as Hb.
  { intros m'. unfold get_bucket, get_config, mbind, M_bind, get_state. simpl.
    change (Z.to_nat _) with (bucket_of n). by rewrite Hp. }
  rewrite (reads_bind _ _ _ _ _ Hb).
  assert (a ∉ l) as Ha by by eapply fresh_not_in.
  assert (chain (heap s1) p l) as Hc1 by by apply lseg_insert.
  unfold append_heap, link_last, head_after. destruct l as [|c l'] eqn:El.
  - inversion Hc; subst p. simpl. done.
  - destruct Hc as [-> _]. rewrite <- El in *. unfold mbind at 1, M_bind at 1. rewrite bind_heap_fuel.
    rewrite (reads_bind _ _ _ _ _ (seek_reads _ (fun _ _ => false) s1 None _ l Hc1 (chain_length _ _ _ Hc1))).
    rewrite split_at_never. destruct (exists_last (l := l)) as (l0 & b & E); [by rewrite El|].
    simpl. rewrite E, last_snoc. simpl.
    assert (exists o, heap s1 !! b = Some o) as [o Ho].
    { apply (lseg_live _ _ _ _ b) in Hc1 as [o Ho]; [eauto|]. rewrite E. set_solver. }
    unfold from_option_M, mbind, M_bind. rewrite (update_run (HH := cfstate_heap) _ _ _ _ _ Ho). simpl.
    do 2 f_equal. apply map_eq. intros d. simpl in Ho. destruct (decide (b = d)) as [->|].
    + by rewrite lookup_insert_eq, lookup_alter_eq, Ho.
    + by rewrite lookup_insert_ne, lookup_alter_ne.
Qed.

Lemma conf_add_run s cc bs sec key value flags :
  table s cc bs -> strlen key <= PATH_MAX ->
  exists a l,
    let s' := after_env key value flags s in
    let new := CO sec (Some key) (avalue (cf_env s) key value flags) flags None in
    cf_heap s !! a = None /\ bs !! bucket_of key = Some l /\
    conf_add sec key value flags s []
    = Some (CFG_OK, CfS (Some (head_after cc (bucket_of key) l a)) (append_heap s a new l) (cf_env s'), []).
Proof.
  intros T Hk. destruct (bucket_lookup _ _ _ T key) as [l Hl].
  destruct (tb_chain _ _ _ T _ _ Hl) as (p & Hp & _).
  exists (fresh (dom (cf_heap s))), l. simpl.
  assert (cf_heap s !! fresh (dom (cf_heap s)) = None) as Hf by apply (heap_fresh (HH := cfstate_heap) s).
  split; [done|]. split; [done|]. unfold conf_add.
  rewrite (bind_some _ _ _ _ _ _ _ (conf_value_run key value flags s)).
  repeat (rewrite bind_malloc_nil; cbn [negb]). rewrite bind_new_obj, setenv_run.
  unfold after_env. simpl heap. simpl put_heap. rewrite (tb_config _ _ _ T). simpl.
  by rewrite (link_run s cc bs _ _ key l p) by done.
Qed.

Lemma matches_own sec key v f nx sec' key' :
  matches sec' key' (CO sec (Some key) v f nx) = same_key sec key sec' key'.
Proof. apply matches_same. unfold matches. simpl. by rewrite !strcaseeq_refl. Qed.

(** ** Refinement *)

Lemma conf_add_models s E sec key value flags :
  models s E -> strlen key <= PATH_MAX ->
  exists s', conf_add sec key value flags s [] = Some (CFG_OK, s', []) /\
    models s' (aappend E sec key (avalue (cf_env s) key value flags, flags)) /\
    cf_env s' = asetenv (cf_env s) key value flags.
Proof.
  intros (cc & bs & T & HE) Hk. destruct (conf_add_run s cc bs sec key value flags T Hk) as (a & l & Hf & Hl & Hrun).
  simpl in Hrun. destruct (tb_chain _ _ _ T _ _ Hl) as (p & Hp & _).
  eexists. split; [exact Hrun|]. split; [|done].
  eexists _, (append_buckets bs a key l). split.
  - by eapply append_table.
  - intros sec' key'. simpl. rewrite (append_entries _ cc _ T _ _ key _ p) by done.
    rewrite HE, matches_own. unfold aappend. done.
Qed.

(** *** Changing the value of an option *)

Lemma set_table s cc bs a o o' env :
  table s cc bs -> cf_heap s !! a = Some o -> co_name o' = co_name o -> co_next o' = co_next o ->
  table (CfS (cf_config s) (<[a := o']> (cf_heap s)) env) cc bs.
Proof.
  intros T Ha Hn Hx. split; simpl; try apply T.
  - intros i l Hi. destruct (tb_chain _ _ _ T _ _ Hi) as (p & Hp & Hc). exists p. split; [done|].
    by eapply lseg_update.
  - intros i l b Hi Hb. destruct (tb_name _ _ _ T _ _ _ Hi Hb) as (ob & n & Hob & Hnb & E).
    destruct (decide (a = b)) as [->|].
    + exists o', n. rewrite lookup_insert_eq, Hn. simplify_eq. done.
    + exists ob, n. by rewrite lookup_insert_ne.
  - intros b Hb. apply (tb_owned _ _ _ T). destruct (decide (a = b)) as [->|]; [by eexists|].
    by rewrite lookup_insert_ne in Hb.
Qed.

Lemma matches_ext sec key sec' key' o :
  same_key sec key sec' key' = true -> matches sec' key' o = matches sec key o.
Proof.
  unfold same_key, matches. intros [Hs Hk]%andb_true_iff.
  rewrite (strcaseeq_sym sec'), (strcaseeq_sym sec), (strcaseeq_l _ _ _ Hs). f_equal.
  destruct (co_name o) as [n|]; [|done]. simpl.
  by rewrite (strcaseeq_sym key'), (strcaseeq_sym key), (strcaseeq_l _ _ _ Hk).
Qed.

Lemma entries_same h bs sec key sec' key' :
  same_key sec key sec' key' = true -> entries h bs sec' key' = entries h bs sec key.
Proof.
  intros H. unfold entries. pose proof H as [_ Hk]%andb_true_iff. rewrite (bucket_of_case _ _ Hk).
  induction (default [] (bs !! bucket_of key')) as [|a l IH]; [done|].
  unfold omap in *. simpl. rewrite IH. unfold entry_at. destruct (h !! a) as [o|]; [|done].
  by rewrite (matches_ext sec key sec' key' o).
Qed.

Lemma set_entries s cc bs sec key a o o' sec' key' :
  table s cc bs -> found s bs sec key = Some a -> cf_heap s !! a = Some o ->
  co_name o' = co_name o -> co_section o' = co_section o ->
  entries (<[a := o']> (cf_heap s)) bs sec' key'
  = aset_first (entries (cf_heap s) bs) sec key (fun _ => (co_value o', co_flags o')) sec' key'.
Proof.
  intros T Hf Ha Hn Hs. destruct (found_Some _ _ _ T _ _ _ Hf) as (o1 & n & l1 & l2 & Ho1 & _ & Hm & Hl & Hno & HE).
  rewrite Ha in Ho1. injection Ho1 as <-.
  assert (forall sec key, matches sec key o' = matches sec key o) as Hm' by (intros; unfold matches; by rewrite Hn, Hs).
  unfold aset_first. destruct (same_key sec key sec' key') eqn:Hsame.
  - rewrite !(entries_same _ bs _ _ _ _ Hsame), HE. unfold entries. rewrite Hl. simpl.
    destruct (tb_chain _ _ _ T _ _ Hl) as (p & _ & Hc%chain_NoDup).
    apply NoDup_app in Hc as (_ & Hd & Hc). apply NoDup_cons in Hc as [Hd2 _].
    rewrite omap_app, (omap_entry_ext _ (cf_heap s) sec key l1), Hno.
    2:{ intros b Hb. apply entry_at_ne. intros <-. apply (Hd a); set_solver. }
    simpl. unfold entry_at at 1. rewrite lookup_insert_eq, Hm', Hm. f_equal.
    apply omap_entry_ext. intros b Hb. apply entry_at_ne. by intros <-.
  - apply omap_entry_ext. intros b _. destruct (decide (a = b)) as [->|]; [|by apply entry_at_ne].
    unfold entry_at. rewrite lookup_insert_eq, Ha, Hm'.
    by rewrite (matches_same sec key o sec' key' Hm), Hsame.
Qed.

(** *** Lookup *)

Lemma resolve_found s cc bs E sec key :
  table s cc bs -> (forall sec key, entries (cf_heap s) bs sec key = E sec key) ->
  match resolve E sec key with
  | Some k => exists a, found s bs sec k = Some a /\
      (match found s bs sec key with Some a => Some a | None => found s bs sec (alt_key key) end) = Some a
  | None => found s bs sec key = None /\ found s bs sec (alt_key key) = None
  end.
Proof.
  intros T HE. pose proof (found_None s bs sec key) as H1. pose proof (found_None s bs sec (alt_key key)) as H2.
  rewrite HE in H1, H2. unfold resolve.
  destruct (found s bs sec key) as [a|] eqn:F1, (found s bs sec (alt_key key)) as [b|] eqn:F2,
    (E sec key), (E sec (alt_key key));
    try (by destruct H1 as [_ H1]; discriminate H1); try (by destruct H1 as [H1 _]; discriminate H1);
    try (by destruct H2 as [_ H2]; discriminate H2); try (by destruct H2 as [H2 _]; discriminate H2);
    eauto.
Qed.

Lemma find_value_reads s E sec key :
  models s E -> strlen key <= PATH_MAX - 8 ->
  reads (find_value sec key) s (e ← alookup E sec key; fst e).
Proof.
  intros (cc & bs & T & HE) Hk m. unfold find_value, alookup.
  rewrite (reads_bind _ _ _ _ _ (conf_lookup_reads _ _ _ T sec key Hk)).
  pose proof (resolve_found _ _ _ _ sec key T HE) as Hr. destruct (resolve E sec key) as [k|].
  - destruct Hr as (a & Hf & ->). destruct (found_Some _ _ _ T _ _ _ Hf) as (o & n & l1 & l2 & Ho & _ & _ & _ & _ & He).
    rewrite (bind_load (HH := cfstate_heap) _ _ _ _ o) by done. simpl. by rewrite <- HE, He.
  - by destruct Hr as [-> ->].
Qed.

Lemma conf_update_models s E sec key value flags :
  models s E -> strlen key <= PATH_MAX - 8 ->
  exists s', conf_update sec key value flags s [] = Some (CFG_OK, s', []) /\
    models s' (aupdate E (cf_env s) sec key value flags) /\
    cf_env s' = asetenv (cf_env s) key value flags.
Proof.
  intros M Hk. pose proof M as (cc & bs & T & HE). unfold conf_update, aupdate.
  rewrite (reads_bind _ _ _ _ _ (conf_lookup_reads _ _ _ T sec key Hk)).
  pose proof (resolve_found _ _ _ _ sec key T HE) as Hr. destruct (resolve E sec key) as [k|].
  2:{ destruct Hr as [-> ->]. apply conf_add_models; [done|lia]. }
  destruct Hr as (a & Hf & ->). destruct (found_Some _ _ _ T _ _ _ Hf) as (o & n & l1 & l2 & Ho & _ & _ & _ & _ & He).
  rewrite (bind_some _ _ _ _ _ _ _ (conf_value_run key value flags s)).
  set (val := avalue _ _ _ _). rewrite (bind_update (HH := cfstate_heap) _ _ _ _ o) by done.
  set (o' := if flags =? 0 then set_co_value val o else set_co_flags flags (set_co_value val o)).
  exists (CfS (cf_config s) (<[a := o']> (cf_heap s)) (asetenv (cf_env s) key value flags)).
  split; [|split; [|done]].
  - transitivity ((match conf_env flags, value with
      | true, Some value => setenv (Some key) value
      | _, _ => mret ()
      end ≫= fun _ => mret CFG_OK) (CfS (cf_config s) (<[a := o']> (cf_heap s)) (cf_env s)) []).
    + unfold o'. destruct (flags =? 0); [done|].
      rewrite (bind_update (HH := cfstate_heap) _ _ _ _ (set_co_value val o)) by apply lookup_insert_eq.
      simpl. by rewrite insert_insert_eq.
    + by rewrite setenv_run.
  - exists cc, bs. split; [eapply set_table; [done..| |]; unfold o'; by destruct (flags =? 0)|].
    intros sec' key'. simpl. rewrite (set_entries s cc bs sec k a o o') by (done || (unfold o'; by destruct (flags =? 0))).
    unfold aset_first. rewrite !HE. destruct (same_key sec k sec' key') eqn:Hs; [|done].
    rewrite <- HE, (entries_same _ _ _ _ _ _ Hs), He. simpl. unfold o'. by destruct (flags =? 0).
Qed.

(** ** The empty table *)

Definition empty_table (env : gmap cstring cstring) : cfstate :=
  CfS (Some (CC (replicate (Z.to_nat CFG_TABLE_SIZE) None) 0)) ∅ env.

Lemma empty_is_table env :
  table (empty_table env) (CC (replicate (Z.to_nat CFG_TABLE_SIZE) None) 0) (replicate (Z.to_nat CFG_TABLE_SIZE) []).
Proof.
  split; cbn [cf_config cf_heap cc_hash empty_table].
  - done.
  - by rewrite length_replicate.
  - by rewrite length_replicate.
  - intros i l [-> Hi]%lookup_replicate. exists None. split; [by apply lookup_replicate_2|done].
  - intros i l a [-> _]%lookup_replicate Ha. by apply elem_of_nil in Ha.
  - intros a [o Ho]. done.
Qed.

Lemma empty_models env : models (empty_table env) (fun _ _ => []).
Proof.
  eexists _, _. split; [apply empty_is_table|].
  intros sec key. unfold entries. rewrite lookup_replicate_2 by apply bucket_of_lt. done.
Qed.

(** ** Facts on the abstract configuration *)

Lemma models_same s E sec key sec' key' :
  models s E -> same_key sec key sec' key' = true -> E sec' key' = E sec key.
Proof. intros (cc & bs & T & HE) H. rewrite <- !HE. by apply entries_same. Qed.

Lemma default_prefix_case key key' :
  strcaseeq key key' = true -> default_prefix key' = default_prefix key.
Proof.
  intros H%bool_decide_eq_true. unfold default_prefix, strcaseeq.
  by rewrite !fmap_take, H.
Qed.

Lemma alt_key_case key key' : strcaseeq key key' = true -> strcaseeq (alt_key key) (alt_key key') = true.
Proof.
  intros H. unfold alt_key, strlen. rewrite (default_prefix_case _ _ H), <- (strcaseeq_length _ _ H).
  apply bool_decide_eq_true in H.
  destruct (_ && _); apply bool_decide_eq_true; [by rewrite !fmap_drop, H|by rewrite !fmap_app, H].
Qed.

Lemma alt_key_other key : strcaseeq (alt_key key) key = false.
Proof.
  destruct (strcaseeq (alt_key key) key) eqn:H; [|done]. apply strcaseeq_length in H. revert H.
  unfold alt_key, strlen. destruct (8 <? Z.of_nat (length key)) eqn:E; simpl.
  - apply Z.ltb_lt in E. destruct (default_prefix key); [rewrite length_drop|simpl]; lia.
  - simpl. lia.
Qed.

Lemma same_key_refl sec key : same_key sec key sec key = true.
Proof. unfold same_key. by rewrite !strcaseeq_refl. Qed.

Lemma same_key_sec sec key key' : same_key sec key sec key' = strcaseeq key key'.
Proof. unfold same_key. by rewrite strcaseeq_refl. Qed.

Lemma alookup_same s E sec key sec' key' :
  models s E -> same_key sec key sec' key' = true -> alookup E sec' key' = alookup E sec key.
Proof.
  intros M H. assert (same_key sec (alt_key key) sec' (alt_key key') = true) as H'.
  { unfold same_key in *. apply andb_true_iff in H as [-> H]. by rewrite (alt_key_case _ _ H). }
  unfold alookup, resolve. rewrite (models_same _ _ _ _ _ _ M H), (models_same _ _ _ _ _ _ M H').
  destruct (E sec key) eqn:E1, (E sec (alt_key key)) eqn:E2; simpl;
    by rewrite ?(models_same _ _ _ _ _ _ M H), ?(models_same _ _ _ _ _ _ M H').
Qed.

(** The value that was stored is found. *)
Lemma aupdate_lookup E env sec key value flags :
  fst <$> alookup (aupdate E env sec key value flags) sec key = Some (avalue env key value flags).
Proof.
  unfold alookup, aupdate. set (val := avalue _ _ _ _). destruct (resolve E sec key) as [k|] eqn:Hr; unfold resolve in *.
  - unfold aset_first. destruct (E sec key) as [|e l] eqn:E1.
    + destruct (E sec (alt_key key)) as [|e l] eqn:E2; [done|]. injection Hr as <-.
      rewrite !same_key_sec, alt_key_other, strcaseeq_refl. simpl.
      by rewrite same_key_refl, E2.
    + injection Hr as <-. rewrite !same_key_refl. simpl. rewrite same_key_refl. by rewrite E1.
  - destruct (E sec key) eqn:E1; [|done]. unfold aappend. rewrite E1, same_key_refl. simpl.
    by rewrite same_key_refl, E1.
Qed.

(** The names that a lookup of [key'] tries are not those that one of [key] tries. *)
Definition unrelated (sec key sec' key' : cstring) : bool :=
  negb (same_key sec key sec' key') && negb (same_key sec key sec' (alt_key key')) &&
  negb (same_key sec (alt_key key) sec' key') && negb (same_key sec (alt_key key) sec' (alt_key key')).

Lemma aupdate_other E env sec key value flags sec' key' :
  unrelated sec key sec' key' = true ->
  alookup (aupdate E env sec key value flags) sec' key' = alookup E sec' key'.
Proof.
  unfold unrelated. intros H. boolify.
  assert (aupdate E env sec key value flags sec' key' = E sec' key' /\
          aupdate E env sec key value flags sec' (alt_key key') = E sec' (alt_key key')) as [A1 A2].
  { unfold aupdate. destruct (resolve E sec key) as [k|] eqn:Hr.
    - assert (k = key \/ k = alt_key key) as [-> | ->].
      { unfold resolve in Hr. destruct (E sec key), (E sec (alt_key key)); simplify_eq; eauto. }
      all: unfold aset_first; repeat match goal with H : same_key _ _ _ _ = false |- _ => rewrite H; clear H end; done.
    - unfold aappend. repeat match goal with H : same_key _ _ _ _ = false |- _ => rewrite H; clear H end.
      by rewrite !app_nil_r. }
  unfold alookup, resolve. rewrite A1, A2.
  destruct (E sec' key') eqn:E1, (E sec' (alt_key key')) eqn:E2; simpl; congruence.
Qed.

Lemma conf_get_string_run s E sec key :
  models s E -> strlen key <= PATH_MAX - 8 ->
  conf_get_string sec key s [] = Some (e ← alookup E sec key; fst e, s, []).
Proof.
  intros M Hk. unfold conf_get_string. rewrite (reads_bind _ _ _ _ _ (find_value_reads s E sec key M Hk)).
  by destruct (alookup E sec key) as [[[v|] f]|].
Qed.

(** ** Properties *)

(** C13. On a table that holds an abstract configuration, [conf_update] returns OK
    and leaves a well-formed table that owns all options and holds the updated
    configuration: the value of the first option that a lookup resolves to is
    replaced, and if there is none an option is added, the environment having
    precedence for options that it may override; such a default is exported to the
    environment. *)
Theorem conf_update_refines s E sec key value flags :
  models s E -> strlen key <= PATH_MAX - 8 ->
  exists s', conf_update sec key value flags s [] = Some (CFG_OK, s', []) /\
    models s' (aupdate E (cf_env s) sec key value flags) /\
    cf_env s' = asetenv (cf_env s) key value flags.
Proof. apply conf_update_models. Qed.

Lemma conf_update_refines_witness :
  exists s', conf_update (str "autofs") (str "timeout") (Some (str "300")) 0 (empty_table ∅) [] = Some (CFG_OK, s', []) /\
    models s' (aupdate (fun _ _ => []) ∅ (str "autofs") (str "timeout") (Some (str "300")) 0) /\
    cf_env s' = ∅.
Proof.
  apply (conf_update_refines (empty_table ∅) (fun _ _ => []) (str "autofs") (str "timeout") (Some (str "300")) 0).
  - apply empty_models.
  - vm_compute. discriminate.
Defined.

(** C32. After [conf_update] a lookup of the section and the name in any case gives
    the value, and lookups of every section and name that do not try the same names
    give what they gave before. *)
Theorem conf_update_get s E sec key v :
  models s E -> strlen key <= PATH_MAX - 8 ->
  exists s', conf_update sec key (Some v) CONF_NONE s [] = Some (CFG_OK, s', []) /\
    (forall sec' key', same_key sec key sec' key' = true -> strlen key' <= PATH_MAX - 8 ->
       conf_get_string sec' key' s' [] = Some (Some v, s', [])) /\
    (forall sec' key', unrelated sec key sec' key' = true -> strlen key' <= PATH_MAX - 8 ->
       exists r, conf_get_string sec' key' s [] = Some (r, s, []) /\
                 conf_get_string sec' key' s' [] = Some (r, s', [])).
Proof.
  intros M Hk. destruct (conf_update_models s E sec key (Some v) CONF_NONE M Hk) as (s' & Hrun & M' & _).
  exists s'. split; [done|]. split; intros sec' key' Hs Hk'.
  - rewrite (conf_get_string_run s' _ _ _ M' Hk'), (alookup_same s' _ _ _ _ _ M' Hs).
    pose proof (aupdate_lookup E (cf_env s) sec key (Some v) CONF_NONE) as Hl.
    destruct (alookup _ sec key) as [[w f]|]; simplify_eq/=. done.
  - eexists. split; [by apply (conf_get_string_run s E)|].
    by rewrite (conf_get_string_run s' _ _ _ M' Hk'), aupdate_other.
Qed.

Lemma conf_update_get_witness :
  exists s', conf_update (str "autofs") (str "timeout") (Some (str "300")) CONF_NONE (empty_table ∅) []
      = Some (CFG_OK, s', []) /\
    conf_get_string (str "AutoFS") (str "TIMEOUT") s' [] = Some (Some (str "300"), s', []).
Proof.
  destruct (conf_update_get (empty_table ∅) (fun _ _ => []) (str "autofs") (str "timeout") (str "300"))
    as (s' & H1 & H2 & _).
  - apply empty_models.
  - vm_compute. discriminate.
  - exists s'. split; [exact H1|]. apply H2; vm_compute; [reflexivity|discriminate].
Defined.
