(* ===== verification/ConfigLine.v ===== *)
(** * Lines of a configuration file

    [parse_line] stays in its buffer for every line, and it finds the key and the
    value of a setting. *)

From S2P Require Import Prelude CString Hash Memory CatPath Macros ConfigNames ConfigRead.
Open Scope Z_scope.

(** ** Buffers *)

(** A buffer of [n] characters and a NUL. *)
Record line_buf (n : nat) (buf : list ascii) : Prop := {
  lb_length : length buf = S n;
  lb_end : buf !! n = Some NUL
}.

Lemma line_buf_make line : line_buf (length line) (line ++ [NUL]).
Proof.
  split; [rewrite length_app; simpl; lia|]. rewrite lookup_app_r by lia. by rewrite Nat.sub_diag.
Qed.

Lemma line_buf_nul n buf i : line_buf n buf -> line_buf n (<[i := NUL]> buf).
Proof.
  intros [Hl He]. split; [by rewrite length_insert|]. destruct (decide (i = n)) as [->|].
  - apply list_lookup_insert_eq. lia.
  - by rewrite list_lookup_insert_ne.
Qed.

Lemma cstr_at_end n buf p : line_buf n buf -> (p <= n)%nat -> (p + length (cstr_at buf p) <= n)%nat.
Proof.
  intros [Hl He] Hp. enough (length (cstr_at buf p) <= n - p)%nat by lia.
  apply before_length. rewrite lookup_drop. by replace (p + (n - p))%nat with n by lia.
Qed.

Lemma span_length p s : (span p s <= length s)%nat.
Proof. induction s as [|c s IH]; simpl; [lia|]. destruct (p c); lia. Qed.

Lemma find_pos_lt p s i : find_pos p s = Some i -> (i < length s)%nat.
Proof. intros (c & H & _)%find_pos_Some. by eapply lookup_lt_Some. Qed.

(** The walk back stops at a character that does not satisfy the test. *)
Lemma zero_back_stops p n buf tmp j c :
  line_buf n buf -> (tmp <= n)%nat -> (j <= tmp)%nat -> buf !! j = Some c -> p c = false ->
  exists buf', zero_back p buf tmp = Some buf' /\ line_buf n buf' /\
    forall k, (k <= j)%nat -> buf' !! k = buf !! k.
Proof.
  revert buf. induction tmp as [|tmp IH]; intros buf Hb Ht Hj Hc Hp; simpl.
  - assert (j = O) as -> by lia. rewrite Hc, Hp. eauto.
  - destruct (buf !! S tmp) as [d|] eqn:Ed.
    2:{ apply lookup_ge_None in Ed. rewrite (lb_length _ _ Hb) in Ed. lia. }
    destruct (p d) eqn:Epd; [|eauto]. assert (j <> S tmp) by congruence.
    destruct (IH (<[S tmp := NUL]> buf)) as (buf' & H1 & H2 & H3).
    + by apply line_buf_nul.
    + lia.
    + lia.
    + by rewrite list_lookup_insert_ne.
    + done.
    + exists buf'. split; [done|]. split; [done|]. intros k Hk. rewrite H3 by lia.
      by rewrite list_lookup_insert_ne by lia.
Qed.

(** ... and changes nothing behind where it starts. *)
Lemma zero_back_keeps p buf tmp buf' k :
  zero_back p buf tmp = Some buf' -> (tmp < k)%nat -> buf' !! k = buf !! k.
Proof.
  revert buf. induction tmp as [|tmp IH]; intros buf Hz Hk; simpl in Hz.
  - destruct (buf !! 0%nat) as [c|]; [|done]. destruct (p c); [done|]. by injection Hz as <-.
  - destruct (buf !! S tmp) as [c|]; [|done]. destruct (p c); [|by injection Hz as <-].
    rewrite (IH _ Hz) by lia. by rewrite list_lookup_insert_ne by lia.
Qed.

(** ** Safety *)

Definition parsed_in (n : nat) (r : option parsed) : Prop :=
  match r with
  | None => True
  | Some (SectionAt sec) => (1 <= sec <= n)%nat
  | Some (SettingAt res value) => (res <= n)%nat /\ (value <= n)%nat
  end.

Lemma parse_section_safe n buf :
  line_buf n buf -> buf !! 0%nat = Some "["%char ->
  exists r buf', parse_section buf = Some (r, buf') /\ line_buf n buf' /\ parsed_in n r.
Proof.
  intros Hb H0. unfold parse_section. set (key := span _ _).
  assert (key <= n)%nat as Hkey.
  { pose proof (span_length (fun c => (c =a "[") || isblank c) (cstr_at buf 0)).
    pose proof (cstr_at_end n buf 0 Hb). lia. }
  assert (1 <= key)%nat as Hkey1.
  { unfold key, cstr_at. destruct buf as [|c buf']; [done|]. injection H0 as ->. simpl. lia. }
  destruct (find_pos _ (cstr_at buf key)) as [o|] eqn:Eo; [|by exists None, buf].
  apply find_pos_lt in Eo. pose proof (cstr_at_end n buf key Hb Hkey) as Hend.
  set (buf1 := <[(key + o)%nat := " "%char]> buf).
  assert (line_buf n buf1) as Hb1.
  { destruct Hb as [Hl He]. split; unfold buf1; [by rewrite length_insert|].
    rewrite list_lookup_insert_ne by lia. done. }
  destruct (zero_back_stops isblank n buf1 (key + o) 0 "["%char) as (buf' & Hz & Hb' & _); try done; try lia.
  { unfold buf1. rewrite list_lookup_insert_ne by lia. done. }
  rewrite Hz. simpl. exists (Some (SectionAt key)), buf'. done.
Qed.

Lemma parse_value_safe n buf eq :
  line_buf n buf -> (eq < n)%nat -> buf !! eq = Some NUL ->
  exists val buf', parse_value buf eq = Some (val, buf') /\ line_buf n buf' /\ (val <= n)%nat.
Proof.
  intros Hb Heq Hnul. unfold parse_value. set (val := (S eq + span _ _)%nat).
  assert (S eq <= val <= n)%nat as Hval.
  { pose proof (span_length quote_or_blank (cstr_at buf (S eq))).
    pose proof (cstr_at_end n buf (S eq) Hb). lia. }
  pose proof (cstr_at_end n buf val Hb ltac:(lia)) as Hend. set (len := length (cstr_at buf val)) in *.
  destruct (buf !! (val + len - 1)%nat) as [c|] eqn:Ec.
  2:{ apply lookup_ge_None in Ec. rewrite (lb_length _ _ Hb) in Ec. lia. }
  assert (forall buf1 len1, line_buf n buf1 -> buf1 !! eq = Some NUL -> (val + len1 - 1 <= n)%nat ->
    exists buf', zero_back quote_or_blank buf1
      (match find_pos (fun c => c =a "#") (cstr_at buf1 val) with
       | None => (val + len1 - 1)%nat
       | Some o => (val + o - 1)%nat
       end) = Some buf' /\ line_buf n buf') as Htrail.
  { intros buf1 len1 Hb1 Hn1 Hl1. set (t := match _ with None => _ | Some _ => _ end).
    assert (eq <= t <= n)%nat.
    { unfold t. destruct (find_pos _ _) as [o|] eqn:Eo; [|lia]. apply find_pos_lt in Eo.
      pose proof (cstr_at_end n buf1 val Hb1 ltac:(lia)). lia. }
    destruct (zero_back_stops quote_or_blank n buf1 t eq NUL) as (buf' & ? & ? & _); try done; try lia. eauto. }
  unfold mbind, option_bind. case_bool_decide.
  - assert (eq <> val + len - 1)%nat.
    { intros E. rewrite <- E, Hnul in Ec. injection Ec as <-. discriminate. }
    destruct (Htrail (<[(val + len - 1)%nat := NUL]> buf) (len - 1)%nat) as (buf' & Hz & Hb').
    + by apply line_buf_nul.
    + by rewrite list_lookup_insert_ne.
    + lia.
    + rewrite Hz. exists val, buf'. split; [done|]. split; [done|]. simpl; lia.
  - destruct (Htrail buf len Hb Hnul ltac:(lia)) as (buf' & Hz & Hb'). rewrite Hz.
    exists val, buf'. split; [done|]. split; [done|]. simpl; lia.
Qed.

Lemma isalpha_not_blank c : isalpha c = true -> isblank c = false /\ c <> "="%char.
Proof.
  unfold isalpha, isblank. intros H. split.
  - apply orb_false_iff. split; apply bool_decide_eq_false; intros E; rewrite E in H; discriminate H.
  - intros ->. discriminate H.
Qed.

Lemma parse_line_runs n buf :
  line_buf n buf ->
  exists r buf', parse_line buf = Some (r, buf') /\ line_buf n buf' /\ parsed_in n r.
Proof.
  intros Hb. unfold parse_line. destruct (buf !! 0%nat) as [c|] eqn:E0.
  2:{ apply lookup_ge_None in E0. rewrite (lb_length _ _ Hb) in E0. lia. }
  simpl. destruct (_ || _) eqn:Etest; [by exists None, buf|].
  apply orb_false_iff in Etest as [_ Etest].
  destruct (decide (c = "["%char)) as [->|Hc]; [by apply parse_section_safe|].
  rewrite bool_decide_eq_false_2 in Etest |- * by done. simpl in Etest. apply negb_false_iff in Etest.
  destruct (isalpha_not_blank _ Etest) as [Hblank Hne].
  destruct (find_pos _ (cstr_at buf 0)) as [eq|] eqn:Ee; [|by exists None, buf].
  pose proof (find_pos_lt _ _ _ Ee) as Hlt. pose proof (cstr_at_end n buf 0 Hb ltac:(lia)) as Hend.
  destruct eq as [|tmp].
  { destruct Hne. assert (cstr_at buf 0 !! 0%nat = Some c) as H0.
    { unfold cstr_at in *. destruct buf as [|d buf]; [done|]. injection E0 as ->. simpl in *.
      destruct (decide (c = NUL)); simpl in *; [lia|done]. }
    apply find_pos_Some in Ee as (d & Hd & E%bool_decide_eq_true). congruence. }
  destruct (zero_back_stops isblank n (<[S tmp := NUL]> buf) tmp 0 c) as (buf1 & Hz & Hb1 & Hsame).
  { by apply line_buf_nul. } { lia. } { lia. } { by rewrite list_lookup_insert_ne. } { done. }
  rewrite Hz. simpl.
  assert (buf1 !! S tmp = Some NUL) as Hnul.
  { pose proof (zero_back_keeps isblank (<[S tmp := NUL]> buf) tmp buf1 (S tmp) Hz ltac:(lia)) as ->.
    apply list_lookup_insert_eq. rewrite (lb_length _ _ Hb). lia. }
  destruct (parse_value_safe n buf1 (S tmp) Hb1 ltac:(lia) Hnul) as (val & buf2 & Hv & Hb2 & Hval).
  rewrite Hv. simpl. exists (Some (SettingAt 0 val)), buf2. split; [done|]. split; [done|]. simpl; lia.
Qed.

(** [parse_line] returns for every line, and stays in the buffer: it reads and
    writes only the characters of the line and the NUL behind them, keeps the NUL,
    and what it returns lies in the line. *)
Theorem parse_line_safe line :
  exists r buf, parse_line (line ++ [NUL]) = Some (r, buf) /\
    length buf = S (length line) /\ buf !! length line = Some NUL /\ parsed_in (length line) r.
Proof.
  destruct (parse_line_runs _ _ (line_buf_make line)) as (r & buf & H & [Hl He] & Hr). eauto 8.
Qed.

(** ** Settings *)

Lemma zero_back_here p buf tmp x :
  buf !! tmp = Some x -> p x = false -> zero_back p buf tmp = Some buf.
Proof. intros H Hx. destruct tmp; simpl; by rewrite H, Hx. Qed.

Lemma zero_back_app p A x B C :
  p x = false -> Forall (fun c => p c = true) B ->
  zero_back p (A ++ x :: B ++ C) (length A + length B) = Some (A ++ x :: replicate (length B) NUL ++ C).
Proof.
  intros Hx. revert C. induction B as [|y B IH] using rev_ind; intros C HB.
  - rewrite Nat.add_0_r. apply zero_back_here with x; [|done].
    by rewrite lookup_app_r, Nat.sub_diag by lia.
  - apply Forall_app in HB as [HB Hy]. rewrite Forall_singleton in Hy.
    rewrite length_app. simpl. replace (length A + (length B + 1))%nat with (S (length A + length B)) by lia.
    simpl. rewrite <- app_assoc. simpl.
    assert ((A ++ x :: B ++ y :: C) !! S (length A + length B) = Some y) as Hget.
    { rewrite lookup_app_r by lia. replace (S (length A + length B) - length A)%nat with (S (length B)) by lia.
      simpl. rewrite lookup_app_r, Nat.sub_diag by lia. done. }
    rewrite Hget, Hy.
    assert (<[S (length A + length B) := NUL]> (A ++ x :: B ++ y :: C) = A ++ x :: B ++ NUL :: C) as ->.
    { rewrite insert_app_r_alt by lia. replace (S (length A + length B) - length A)%nat with (S (length B)) by lia.
      simpl. rewrite insert_app_r_alt, Nat.sub_diag by lia. done. }
    rewrite IH by done. by rewrite replicate_add, <- app_assoc.
Qed.

Lemma span_app p A B :
  Forall (fun c => p c = true) A -> match B with c :: _ => p c = false | [] => True end ->
  span p (A ++ B) = length A.
Proof. intros HA HB. induction HA as [|c A Hc _ IH]; simpl; [by destruct B; simpl; [|rewrite HB]|]. by rewrite Hc, IH. Qed.

Lemma find_pos_none p A : Forall (fun c => p c = false) A -> find_pos p A = None.
Proof. intros HA. induction HA as [|c A Hc _ IH]; simpl; [done|]. by rewrite Hc, IH. Qed.

(** A line of a key and a value, with blanks around the key, blanks and quotes
    around the value, and a comment and a newline at its end. *)
Record setting (key sp1 sp2 v sp3 comment nl : cstring) : Prop := {
  se_alpha : isalpha (hd_char key) = true;
  se_key : "="%char ∉ key /\ NUL ∉ key;
  se_key_end : exists k x, key = k ++ [x] /\ isblank x = false;
  se_sp1 : Forall (fun c => isblank c = true) sp1;
  se_sp2 : Forall (fun c => quote_or_blank c = true) sp2;
  se_v : NUL ∉ v /\ NEWLINE ∉ v /\ "#"%char ∉ v;
  se_v_start : quote_or_blank (hd_char v) = false;
  se_v_end : exists w y, v = w ++ [y] /\ quote_or_blank y = false;
  se_sp3 : Forall (fun c => quote_or_blank c = true) sp3;
  se_comment : comment = [] \/ (sp3 <> [] /\ exists c, comment = "#"%char :: c /\ NUL ∉ c /\ NEWLINE ∉ c);
  se_nl : nl = [] \/ nl = [NEWLINE]
}.

Definition setting_line (key sp1 sp2 v sp3 comment nl : cstring) : cstring :=
  key ++ sp1 ++ "="%char :: sp2 ++ v ++ sp3 ++ comment ++ nl.

Lemma blank_facts c : quote_or_blank c = true -> c <> NUL /\ c <> NEWLINE /\ c <> "#"%char.
Proof. intros H. repeat split; intros ->; discriminate H. Qed.

Lemma isblank_facts c : isblank c = true -> c <> NUL /\ c <> "="%char.
Proof. intros H. repeat split; intros ->; discriminate H. Qed.

Section Setting.
Context (key sp1 sp2 v sp3 comment nl : cstring) (Hset : setting key sp1 sp2 v sp3 comment nl).

(** The value and what is behind it. *)
Lemma parse_value_setting P :
  exists buf, parse_value (P ++ NUL :: sp2 ++ v ++ sp3 ++ comment ++ nl ++ [NUL]) (length P)
    = Some (S (length P) + length sp2, P ++ buf)%nat /\
    buf = NUL :: sp2 ++ v ++ replicate (length sp3) NUL ++ comment ++ (if decide (nl = []) then [] else [NUL]) ++ [NUL].
Proof.
  destruct Hset as [_ _ _ _ Hsp2 (Hv0 & Hvn & Hvc) Hv1 (w & y & -> & Hy) Hsp3 Hcom Hnl].
  assert (forall l, Forall (fun c => quote_or_blank c = true) l -> NUL ∉ l /\ NEWLINE ∉ l /\ "#"%char ∉ l) as Hb.
  { intros l Hl. rewrite Forall_forall in Hl. repeat split; intros H%Hl%blank_facts; naive_solver. }
  destruct (Hb _ Hsp2) as (Hz2 & Hn2 & Hc2). destruct (Hb _ Hsp3) as (Hz3 & Hn3 & Hc3).
  assert (NUL ∉ comment /\ NEWLINE ∉ comment) as [Hzc Hnc].
  { destruct Hcom as [->|(_ & c & -> & ? & ?)]; split; [apply not_elem_of_nil..| |];
    intros [E|E]%elem_of_cons; done. }
  assert (NUL ∉ nl) as Hznl by (destruct Hnl as [->| ->]; set_solver).
  set (W0 := (w ++ [y]) ++ sp3 ++ comment).
  assert (NUL ∉ W0) as HzW by (unfold W0; set_solver).
  assert (P ++ NUL :: sp2 ++ (w ++ [y]) ++ sp3 ++ comment ++ nl ++ [NUL]
    = (P ++ [NUL]) ++ (sp2 ++ W0 ++ nl) ++ NUL :: []) as EL.
  { unfold W0. by rewrite <- !app_assoc. }
  unfold parse_value. rewrite EL.
  assert (S (length P) = length (P ++ [NUL])) as EP by (rewrite length_app; simpl; lia).
  rewrite EP, cstr_middle by set_solver.
  rewrite (span_app quote_or_blank sp2 (W0 ++ nl)); [|done|].
  2:{ unfold W0. destruct w as [|w0 w]; simpl; [done|]. done. }
  set (Q := (P ++ [NUL]) ++ sp2). assert (length (P ++ [NUL]) + length sp2 = length Q)%nat as -> by (unfold Q; by rewrite (length_app (P ++ [NUL]) sp2)).
  assert ((P ++ [NUL]) ++ (sp2 ++ W0 ++ nl) ++ [NUL] = Q ++ (W0 ++ nl) ++ NUL :: []) as ->
    by (unfold Q; by rewrite <- !app_assoc).
  rewrite cstr_middle by set_solver.
  assert (forall Z, (Z = [NUL] \/ Z = [NUL; NUL]) ->
    zero_back quote_or_blank (Q ++ W0 ++ Z)
      (match find_pos (fun c => c =a "#") (cstr_at (Q ++ W0 ++ Z) (length Q)) with
       | None => (length Q + length W0 - 1)%nat
       | Some o => (length Q + o - 1)%nat
       end) = Some (P ++ NUL :: sp2 ++ (w ++ [y]) ++ replicate (length sp3) NUL ++ comment ++ Z)) as Hzero.
  { intros Z HZ. assert (exists Z', Z = NUL :: Z') as [Z' ->] by (destruct HZ as [->| ->]; eauto).
    rewrite cstr_middle by done.
    assert ((match find_pos (fun c => c =a "#") W0 with
       | None => (length Q + length W0 - 1)%nat
       | Some o => (length Q + o - 1)%nat
       end) = length (Q ++ w) + length sp3)%nat as ->.
    { assert (Forall (fun c => (c =a "#") = false) ((w ++ [y]) ++ sp3)) as HF.
      { apply Forall_forall. intros c Hc. apply bool_decide_eq_false. intros ->. set_solver. }
      unfold W0. rewrite !length_app. destruct Hcom as [->|(_ & c & -> & _)].
      - rewrite app_nil_r, find_pos_none by done. simpl. lia.
      - rewrite app_assoc, find_pos_app by done. rewrite !length_app. simpl. lia. }
    assert (Q ++ W0 ++ NUL :: Z' = (Q ++ w) ++ y :: sp3 ++ comment ++ NUL :: Z') as ->
      by (unfold W0; by rewrite <- !app_assoc).
    rewrite zero_back_app by done. unfold Q. by rewrite <- !app_assoc. }
  unfold mbind, option_bind. destruct Hnl as [->| ->].
  - rewrite app_nil_r. destruct (exists_last (l := W0)) as (W1 & z & EW).
    { unfold W0. intros E. apply app_eq_nil in E as [E _]. by apply app_eq_nil in E as [_ ?]. }
    assert (z <> NEWLINE) as Hz.
    { intros ->. assert (NEWLINE ∈ W0) as H by (rewrite EW; set_solver). unfold W0 in H. set_solver. }
    assert ((Q ++ W0 ++ [NUL]) !! (length Q + length W0 - 1)%nat = Some z) as ->.
    { rewrite lookup_app_r by (rewrite EW, length_app; simpl; lia).
      rewrite EW, length_app. simpl. rewrite <- app_assoc, lookup_app_r by lia.
      by replace (length Q + (length W1 + 1) - 1 - length Q - length W1)%nat with 0%nat by lia. }
    rewrite bool_decide_eq_false_2 by done. rewrite Hzero by eauto.
    eexists. split; [done|]. done.
  - assert ((Q ++ (W0 ++ [NEWLINE]) ++ [NUL]) !! (length Q + length (W0 ++ [NEWLINE]) - 1)%nat = Some NEWLINE) as ->.
    { rewrite lookup_app_r by (rewrite length_app; simpl; lia). rewrite length_app. simpl.
      rewrite <- app_assoc, lookup_app_r by lia.
      by replace (length Q + (length W0 + 1) - 1 - length Q - length W0)%nat with 0%nat by lia. }
    rewrite bool_decide_eq_true_2 by done.
    assert (length (W0 ++ [NEWLINE]) - 1 = length W0)%nat as -> by (rewrite length_app; simpl; lia).
    assert (<[(length Q + length (W0 ++ [NEWLINE]) - 1)%nat := NUL]> (Q ++ (W0 ++ [NEWLINE]) ++ [NUL])
      = Q ++ W0 ++ [NUL; NUL]) as ->.
    { rewrite insert_app_r_alt by (rewrite length_app; simpl; lia). rewrite length_app. simpl. f_equal.
      rewrite <- app_assoc, insert_app_r_alt by lia.
      by replace (length Q + (length W0 + 1) - 1 - length Q - length W0)%nat with 0%nat by lia. }
    rewrite Hzero by eauto. eexists. split; [done|]. done.
Qed.

Lemma parse_line_setting :
  exists buf pos, parse_line (setting_line key sp1 sp2 v sp3 comment nl ++ [NUL]) = Some (Some (SettingAt 0 pos), buf) /\
    cstr_at buf 0 = key /\ cstr_at buf pos = v.
Proof.
  pose proof Hset as [Halpha [Hkeq Hkz] (k & x & Ek & Hx) Hsp1 Hsp2 (Hv0 & Hvn & Hvc) Hv1 _ Hsp3 Hcom Hnl].
  set (T := sp2 ++ v ++ sp3 ++ comment ++ nl).
  assert (setting_line key sp1 sp2 v sp3 comment nl ++ [NUL] = (key ++ sp1) ++ "="%char :: T ++ [NUL]) as ->.
  { unfold setting_line, T. rewrite <- !app_assoc. simpl. by rewrite <- !app_assoc. }
  assert (exists c, ((key ++ sp1) ++ "="%char :: T ++ [NUL]) !! 0%nat = Some c /\ isalpha c = true) as (c & E0 & Hc).
  { destruct key as [|c key']; [discriminate Halpha|]. exists c. done. }
  assert (c <> "#"%char /\ c <> "["%char) as [Hc1 Hc2] by (split; intros ->; discriminate Hc).
  assert (find_pos (fun c => c =a "=") (cstr_at ((key ++ sp1) ++ "="%char :: T ++ [NUL]) 0)
    = Some (length (key ++ sp1))) as Hfind.
  { assert (exists r, cstr_at ((key ++ sp1) ++ "="%char :: T ++ [NUL]) 0 = (key ++ sp1) ++ "="%char :: r) as [r ->].
    { unfold cstr_at. rewrite drop_0. assert (NUL ∉ key ++ sp1) as Hz.
      { rewrite Forall_forall in Hsp1. intros [?|H%Hsp1%isblank_facts]%elem_of_app; [done|]. naive_solver. }
      revert Hz. generalize (key ++ sp1). intros A. induction A as [|d A IH]; intros Hz; simpl.
      - eauto.
      - destruct (decide (d = NUL)) as [->|]; [set_solver|]. destruct IH as [r ->]; [set_solver|]. eauto. }
    apply find_pos_app; [|done]. apply Forall_app. rewrite !Forall_forall in *. split; intros d Hd; apply bool_decide_eq_false.
    - by intros ->.
    - intros ->. apply Hsp1, isblank_facts in Hd. naive_solver. }
  unfold parse_line. rewrite E0. unfold mbind at 1, option_bind at 1.
  rewrite (bool_decide_eq_false_2 (c = "#"%char)), (bool_decide_eq_false_2 (c = "["%char)), Hc by done. simpl orb. cbv iota.
  rewrite Hfind. assert (length (key ++ sp1) = S (length k + length sp1)) as El by (rewrite Ek, !length_app; simpl; lia).
  rewrite El.
  assert (<[S (length k + length sp1) := NUL]> ((key ++ sp1) ++ "="%char :: T ++ [NUL])
    = k ++ x :: sp1 ++ NUL :: T ++ [NUL]) as ->.
  { rewrite insert_app_r_alt, El, Nat.sub_diag by lia. simpl. rewrite Ek. by rewrite <- !app_assoc. }
  rewrite zero_back_app by done.
  assert (k ++ x :: replicate (length sp1) NUL ++ NUL :: T ++ [NUL]
    = (key ++ replicate (length sp1) NUL) ++ NUL :: T ++ [NUL]) as -> by (rewrite Ek; by rewrite <- !app_assoc).
  set (P := key ++ replicate (length sp1) NUL).
  assert (S (length k + length sp1) = length P) as -> by (unfold P; rewrite Ek, !length_app, length_replicate; simpl; lia).
  destruct (parse_value_setting P) as (buf & Hpv & Hbuf).
  assert (T ++ [NUL] = sp2 ++ v ++ sp3 ++ comment ++ nl ++ [NUL]) as -> by (unfold T; by rewrite <- !app_assoc).
  unfold mbind, option_bind. rewrite Hpv. eexists _, _. split; [reflexivity|]. split.
  - unfold P. rewrite <- app_assoc. unfold cstr_at. rewrite drop_0.
    assert (exists r, replicate (length sp1) NUL ++ buf = NUL :: r) as [r ->].
    { rewrite Hbuf. destruct (length sp1); simpl; eauto. }
    by apply before_app.
  - assert (exists r, replicate (length sp3) NUL ++ comment ++ (if decide (nl = []) then [] else [NUL]) ++ [NUL] = NUL :: r) as [r Hr].
    { destruct sp3 as [|]; simpl; [|eauto]. destruct Hcom as [->|[? _]]; [|done]. destruct (decide (nl = [])); simpl; eauto. }
    rewrite Hbuf, Hr. assert (P ++ NUL :: sp2 ++ v ++ NUL :: r = (P ++ NUL :: sp2) ++ v ++ NUL :: r) as ->.
    { by rewrite <- app_assoc, <- app_comm_cons. }
    replace (S (length P) + length sp2)%nat with (length (P ++ NUL :: sp2)) by (rewrite length_app; simpl; lia).
    by apply cstr_middle.
Qed.

End Setting.

(** A line with a key and a value is taken apart into them: blanks before the
    equals sign, blanks and quotes around the value, a comment behind a blank and
    the newline are left out. *)
Theorem parse_line_roundtrip key sp1 sp2 v sp3 comment nl :
  setting key sp1 sp2 v sp3 comment nl ->
  exists buf pos, parse_line (setting_line key sp1 sp2 v sp3 comment nl ++ [NUL]) = Some (Some (SettingAt 0 pos), buf) /\
    cstr_at buf 0 = key /\ cstr_at buf pos = v.
Proof. intros H. by apply parse_line_setting. Qed.

Lemma parse_line_roundtrip_witness :
  exists buf pos,
    parse_line (setting_line (str "timeout") (str " ") [" "; QUOTE]%char (str "300") [QUOTE; " "]%char
                  (str "# seconds") [NEWLINE] ++ [NUL]) = Some (Some (SettingAt 0 pos), buf) /\
    cstr_at buf 0 = str "timeout" /\ cstr_at buf pos = str "300".
Proof.
  apply parse_line_roundtrip. constructor.
  - vm_compute. reflexivity.
  - split; refine (bool_decide_eq_true_1 _ _); vm_compute; reflexivity.
  - exists (str "timeou"), "t"%char. split; vm_compute; reflexivity.
  - repeat constructor.
  - repeat constructor.
  - split; [|split]; refine (bool_decide_eq_true_1 _ _); vm_compute; reflexivity.
  - vm_compute. reflexivity.
  - exists (str "30"), "0"%char. split; vm_compute; reflexivity.
  - repeat constructor.
  - right. split; [discriminate|]. exists (str " seconds").
    split; [reflexivity|split]; refine (bool_decide_eq_true_1 _ _); vm_compute; reflexivity.
  - right. reflexivity.
Defined.

(** A comment that follows the equals sign is taken as the value. *)
Theorem comment_as_value :
  exists buf pos, parse_line (str "logging = # none" ++ [NUL]) = Some (Some (SettingAt 0 pos), buf) /\
    cstr_at buf 0 = str "logging" /\ cstr_at buf pos = str "# none".
Proof. eexists _, _. split; [vm_compute; reflexivity|split; vm_compute; reflexivity]. Qed.
