(* ===== verification/ConfigFile.v ===== *)
(** * Reading the configuration refines the abstract configuration

    [read_config] is a fold over the lines of the file, and the first call of
    [defaults_read_config] gives the defaults changed by the file. *)

From S2P Require Import Prelude CString Hash Memory CatPath Macros ConfigNames ConfigRead.
From S2P Require Import ConfigProps ConfigUpdate ConfigLine.
Open Scope Z_scope.

(** ** Lines *)

Definition aset (E : aconf) (section : option cstring) (key value : cstring) : aconf :=
  let sec := default autofs_gbl_sec section in
  if strcaseeq key NAME_LDAP_URI || strcaseeq key NAME_SEARCH_BASE
  then aappend E sec key (Some value, 0)
  else aupdate E ∅ sec key (Some value) 0.

Definition aline (E : aconf) (new_sec : option cstring) (line : cstring) : aconf * option cstring :=
  match parse_line (line ++ [NUL]) with
  | Some (Some (SectionAt p), buf) =>
      let sec := cstr_at buf p in (aupdate E ∅ sec sec None 0, Some sec)
  | Some (Some (SettingAt k v), buf) =>
      if existsb (strcaseeq (cstr_at buf 0)) ignored_names then (E, new_sec)
      else (aset E new_sec (cstr_at buf k) (cstr_at buf v), new_sec)
  | _ => (E, new_sec)
  end.

(** The lines of a file as [fgets] returns them. *)
Fixpoint lines_of (fuel : nat) (f : cstring) : list cstring :=
  match f, fuel with
  | [], _ | _, O => []
  | _, S fuel => let '(line, f) := fgets (Z.to_nat MAX_LINE_LEN) f in line :: lines_of fuel f
  end.

Definition aread (E : aconf) (f : cstring) : aconf :=
  fst (foldl (fun '(E, sec) line => aline E sec line) (E, None) (lines_of (length f) f)).

Lemma check_set_models s E section key value :
  models s E -> strlen key <= PATH_MAX - 8 ->
  exists ret s', check_set_config_value section key value s [] = Some (ret, s', []) /\
    models s' (aset E section key value) /\ cf_env s' = cf_env s.
Proof.
  intros M Hk. unfold check_set_config_value, aset. set (sec := default _ _).
  assert (forall s'', cf_env s'' = asetenv (cf_env s) key (Some value) 0 -> cf_env s'' = cf_env s) as Henv by done.
  destruct (strcaseeq key NAME_LDAP_URI), (strcaseeq key NAME_SEARCH_BASE); simpl orb; cbv iota.
  1,2,3: destruct (conf_add_models s E sec key (Some value) 0 M ltac:(lia)) as (s' & H1 & H2 & H3); eauto 8.
  destruct (conf_update_models s E sec key (Some value) 0 M Hk) as (s' & H1 & H2 & H3). eauto 8.
Qed.

Lemma cstr_at_strlen n buf p : line_buf n buf -> (p <= n)%nat -> strlen (cstr_at buf p) <= Z.of_nat (n - p).
Proof. intros Hb Hp. pose proof (cstr_at_end n buf p Hb Hp). unfold strlen. lia. Qed.

Lemma config_line_models s E new_sec line :
  models s E -> Z.of_nat (length line) <= MAX_LINE_LEN ->
  exists s', config_line new_sec line s [] = Some (snd (aline E new_sec line), s', []) /\
    models s' (fst (aline E new_sec line)) /\ cf_env s' = cf_env s.
Proof.
  intros M Hlen. unfold config_line, aline, MAX_LINE_LEN, MAX_SECTION_NAME in *.
  pose proof (line_buf_make line) as Hb. pose proof (cstr_at_strlen _ _ 0 Hb ltac:(lia)) as Hs0.
  destruct (Z.ltb_spec 256 (strlen (cstr_at (line ++ [NUL]) 0))); [lia|].
  destruct (parse_line_runs _ _ Hb) as (r & buf & Hr & Hb' & Hin). rewrite Hr.
  unfold from_option_M, mbind at 1, M_bind at 1. destruct r as [[p|k v]|]; simpl in Hin.
  - pose proof (cstr_at_strlen _ _ p Hb' ltac:(lia)) as Hsl.
    unfold MAX_LINE_LEN. destruct (Z.leb_spec 256 (strlen (cstr_at buf p))); [lia|].
    destruct (conf_update_models s E (cstr_at buf p) (cstr_at buf p) None 0 M) as (s' & H1 & H2 & H3);
      [unfold PATH_MAX; lia|].
    rewrite (bind_some _ _ _ _ _ _ _ H1). exists s'. done.
  - destruct Hin as [Hk Hv]. destruct (existsb _ _); [by exists s|].
    pose proof (cstr_at_strlen _ _ k Hb' Hk) as Hsl.
    destruct (check_set_models s E new_sec (cstr_at buf k) (cstr_at buf v) M) as (ret & s' & H1 & H2 & H3);
      [unfold PATH_MAX; lia|].
    rewrite (bind_some _ _ _ _ _ _ _ H1). exists s'. done.
  - by exists s.
Qed.

Lemma fgets_spec n f line f' :
  fgets (S n) f = (line, f') -> f <> [] ->
  line ++ f' = f /\ (length line <= S n)%nat /\ (length f' < length f)%nat.
Proof.
  intros Hf Hne. assert (line ++ f' = f /\ (length line <= S n)%nat) as [H1 H2].
  { clear Hne. revert f line f' Hf. induction n as [|n IH]; intros [|c f] line f'; simpl; intros Hf; simplify_eq/=; [eauto with lia| |eauto with lia|].
    - case_bool_decide; simplify_eq/=; eauto with lia.
    - case_bool_decide; simplify_eq/=; [eauto with lia|].
      destruct (fgets (S n) f) as [l f1] eqn:E. simpl in E. rewrite E in Hf. simplify_eq/=.
      destruct (IH _ _ _ E) as [<- ?]. split; [done|]. simpl. lia. }
  split; [done|]. split; [done|]. destruct f as [|c f]; [done|].
  assert (line <> []) as Hl by (intros ->; simpl in Hf; case_bool_decide; [done|]; by destruct (fgets n f)).
  destruct line as [|d line]; [done|]. apply (f_equal length) in H1. rewrite length_app in H1. simpl in *. lia.
Qed.

Lemma read_loop_models fuel f : forall s E new_sec,
  models s E -> (length f <= fuel)%nat ->
  exists s', read_loop fuel f new_sec s [] = Some ((), s', []) /\
    models s' (fst (foldl (fun '(E, sec) line => aline E sec line) (E, new_sec) (lines_of fuel f))) /\
    cf_env s' = cf_env s.
Proof.
  revert f. induction fuel as [|fuel IH]; intros f s E new_sec M Hf.
  - destruct f; simpl in Hf; [|lia]. by exists s.
  - destruct f as [|c f]; [by exists s|].
    assert (lines_of (S fuel) (c :: f) =
      let '(line, f) := fgets (Z.to_nat MAX_LINE_LEN) (c :: f) in line :: lines_of fuel f) as -> by done.
    assert (read_loop (S fuel) (c :: f) new_sec =
      let '(line, f') := fgets (Z.to_nat MAX_LINE_LEN) (c :: f) in
      new_sec ← config_line new_sec line; read_loop fuel f' new_sec) as -> by done.
    destruct (fgets (Z.to_nat MAX_LINE_LEN) (c :: f)) as [line f'] eqn:Eg.
    change (Z.to_nat MAX_LINE_LEN) with (S 255) in Eg.
    destruct (fgets_spec _ _ _ _ Eg ltac:(done)) as (_ & Hl & Hf'). simpl in Hf, Hf'.
    destruct (config_line_models s E new_sec line M) as (s1 & H1 & M1 & Henv); [unfold MAX_LINE_LEN; lia|].
    rewrite (bind_some _ _ _ _ _ _ _ H1). simpl foldl. destruct (aline E new_sec line) as [E1 sec1]. simpl in *.
    destruct (IH f' s1 E1 sec1 M1 ltac:(lia)) as (s' & H2 & M2 & Henv2). exists s'.
    split; [exact H2|]. split; [exact M2|congruence].
Qed.



(** ** Defaults *)

Fixpoint aupdate_all (E : aconf) (env : gmap cstring cstring) (sec : cstring) (flags : Z)
    (tbl : list (cstring * option cstring)) : aconf * gmap cstring cstring :=
  match tbl with
  | [] => (E, env)
  | (name, value) :: tbl =>
      aupdate_all (aupdate E env sec name value flags) (asetenv env name value flags) sec flags tbl
  end.

Lemma update_all_models tbl : forall s E sec flags,
  models s E -> Forall (fun e => strlen e.1 <= PATH_MAX - 8) tbl ->
  exists s', update_all sec flags tbl s [] = Some (true, s', []) /\
    models s' (fst (aupdate_all E (cf_env s) sec flags tbl)) /\
    cf_env s' = snd (aupdate_all E (cf_env s) sec flags tbl).
Proof.
  induction tbl as [|[name value] tbl IH]; intros s E sec flags M Hall; [by exists s|].
  apply Forall_cons in Hall as [Hn Hall]. simpl in Hn.
  destruct (conf_update_models s E sec name value flags M Hn) as (s1 & H1 & M1 & Henv).
  destruct (IH s1 _ sec flags M1 Hall) as (s' & H2 & M2 & Henv2). rewrite Henv in M2, Henv2.
  exists s'. simpl update_all. rewrite (bind_some _ _ _ _ _ _ _ H1). done.
Qed.

Lemma aupdate_nil E env sec key value flags sec' key' :
  E sec' key' = [] -> same_key sec key sec' key' = false -> aupdate E env sec key value flags sec' key' = [].
Proof.
  intros HE Hs. unfold aupdate. destruct (resolve E sec key) as [k|].
  - unfold aset_first. rewrite HE. by destruct (same_key sec k sec' key').
  - unfold aappend. by rewrite HE, Hs.
Qed.

Lemma aupdate_all_nil tbl : forall E env sec flags sec' key',
  E sec' key' = [] -> Forall (fun e => same_key sec e.1 sec' key' = false) tbl ->
  fst (aupdate_all E env sec flags tbl) sec' key' = [].
Proof.
  induction tbl as [|[name value] tbl IH]; intros E env sec flags sec' key' HE Hall; [done|].
  apply Forall_cons in Hall as [Hn Hall]. apply IH; [|done]. by apply aupdate_nil.
Qed.

Lemma delete_all_none s E fuel sec key :
  models s E -> strlen key <= PATH_MAX - 8 -> E sec key = [] -> E sec (alt_key key) = [] ->
  delete_all fuel sec key s [] = Some ((), s, []).
Proof.
  intros (cc & bs & T & HE) Hk H1 H2.
  assert (delete_all fuel sec key = co ← conf_lookup (Some sec) (Some key);
    match co with
    | None => mret ()
    | Some co =>
      match fuel with
      | O => stuck
      | S fuel =>
          o ← load co;
          name ← from_option_M (co_name o);
          conf_delete (co_section o) name;;
          delete_all fuel sec key
      end
    end) as -> by by destruct fuel.
  rewrite (reads_bind _ _ _ _ _ (conf_lookup_reads _ _ _ T sec key Hk)).
  rewrite <- HE in H1, H2. apply found_None in H1, H2. by rewrite H1, H2.
Qed.

Section First.
Context (map_dir : cstring) (uname : Z * utsname) (env : gmap cstring cstring).

(** The defaults as an abstract configuration. *)
Definition adefaults : aconf :=
  let '(E, env) := aupdate_all (fun _ _ => []) env autofs_gbl_sec CONF_ENV (autofs_defaults map_dir) in
  let '(ret, uts) := uname in
  let '(os, ver, arch) :=
    if negb (ret =? 0) then (Some (sysname uts), Some (release uts), Some (machine uts))
    else (None, None, None) in
  fst (aupdate_all E env amd_gbl_sec CONF_NONE (amd_defaults os ver arch)).

Lemma autofs_no_ldap key :
  key = NAME_LDAP_URI \/ key = NAME_SEARCH_BASE ->
  let E := fst (aupdate_all (fun _ _ => []) env autofs_gbl_sec CONF_ENV (autofs_defaults map_dir)) in
  E autofs_gbl_sec key = [] /\ E autofs_gbl_sec (alt_key key) = [].
Proof.
  intros Hk. split; (apply aupdate_all_nil; [done|]);
    (destruct Hk as [->| ->]); repeat constructor.
Qed.

Lemma reset_defaults_models :
  exists s, reset_defaults map_dir uname (empty_table env) [] = Some (true, s, []) /\ models s adefaults.
Proof.
  unfold reset_defaults, adefaults.
  destruct (update_all_models (autofs_defaults map_dir) (empty_table env) (fun _ _ => []) autofs_gbl_sec CONF_ENV
    (empty_models env)) as (s1 & H1 & M1 & Henv1); [repeat constructor; discriminate|].
  assert (conf_load_autofs_defaults map_dir (empty_table env) [] = Some (true, s1, [])) as Hx.
  { unfold conf_load_autofs_defaults. rewrite (bind_some _ _ _ _ _ _ _ H1). cbv beta iota delta [negb].
    rewrite bind_heap_fuel.
    assert (forall key, key = NAME_LDAP_URI \/ key = NAME_SEARCH_BASE -> strlen key <= PATH_MAX - 8 ->
      delete_all (size (heap s1)) autofs_gbl_sec key s1 [] = Some ((), s1, [])) as Hd.
    { intros key Hkey Hlen. destruct (autofs_no_ldap key Hkey) as [Hn1 Hn2].
      exact (delete_all_none s1 _ _ _ _ M1 Hlen Hn1 Hn2). }
    rewrite (bind_some _ _ _ _ _ _ _ (Hd NAME_LDAP_URI (or_introl eq_refl) ltac:(discriminate))).
    rewrite (bind_some _ _ _ _ _ _ _ (Hd NAME_SEARCH_BASE (or_intror eq_refl) ltac:(discriminate))). done. }
  rewrite (bind_some _ _ _ _ _ _ _ Hx). cbv beta iota delta [negb]. unfold conf_load_amd_defaults. destruct uname as [ret uts].
  set (osva := if negb (ret =? 0) then _ else _).
  assert (osva = if if ret =? 0 then false else true then (Some (sysname uts), Some (release uts), Some (machine uts))
    else (None, None, None)) as <- by done.
  destruct osva as [[os ver] arch].
  simpl cf_env in *. destruct (aupdate_all _ env autofs_gbl_sec CONF_ENV _) as [E1 env1]. simpl in M1, Henv1.
  destruct (update_all_models (amd_defaults os ver arch) s1 E1 amd_gbl_sec CONF_NONE M1) as (s2 & H2 & M2 & _);
    [repeat constructor; discriminate|].
  rewrite Henv1 in M2. exists s2. split; [exact H2|exact M2].
Qed.

Lemma defaults_read_config_models junk oldjunk f mtime :
  exists s, defaults_read_config map_dir uname junk oldjunk (Some (CfFile f mtime)) None (CfS None ∅ env) []
      = Some (1, s, []) /\
    models s (aread adefaults f).
Proof.
  destruct reset_defaults_models as (s1 & H1 & M1).
  destruct (read_loop_models (length f) f s1 _ None M1 ltac:(lia)) as (s2 & H2 & M2 & _).
  exists s2. split; [|exact M2]. unfold defaults_read_config.
  rewrite (reads_bind _ _ _ _ _ (reads_get _)). simpl cf_config. cbv iota.
  assert (conf_init (CfS None ∅ env) [] = Some (CFG_OK, empty_table env, [])) as Hx by done.
  rewrite (bind_some _ _ _ _ _ _ _ Hx). change (negb (CFG_OK =? 0)) with false. cbv beta iota.
  assert (get_config (empty_table env) [] = Some (CC (replicate (Z.to_nat CFG_TABLE_SIZE) None) 0, empty_table env, []))
    as Hy by done.
  rewrite (bind_some _ _ _ _ _ _ _ Hy). unfold check_times. cbv beta iota. rewrite (bind_some _ _ _ _ _ _ _ H1). cbv beta iota delta [negb].
  unfold mbind, M_bind. simpl. unfold read_config. rewrite H2. done.
Qed.

End First.

