(* ===== verification/ConfigTable.v ===== *)
(** * Deleting, enumerating and releasing the options of the table *)

From S2P Require Import Prelude CString Hash Memory Macros CatPath ConfigNames ConfigRead ConfigGet ConfigProps ConfigUpdate.
Open Scope Z_scope.

(** ** Deleting *)

Definition adelete (E : aconf) (sec key : cstring) : aconf := fun sec' key' =>
  if same_key sec key sec' key' then tail (E sec' key') else E sec' key'.

Definition in_section (h : gmap positive conf_option) (sec : cstring) (a : positive) : bool :=
  match h !! a with
  | Some o => strcaseeq sec (co_section o)
  | None => false
  end.

Definition is_entry (h : gmap positive conf_option) (sec key : cstring) (a : positive) : bool :=
  bool_decide (is_Some (entry_at h sec key a)).

(** The options of other sections before the one that is found are passed over. *)
Lemma delete_loop_reads s sec key l : forall fuel last p,
  chain (cf_heap s) p l -> (length l <= fuel)%nat ->
  (forall a, a ∈ l -> exists o n, cf_heap s !! a = Some o /\ co_name o = Some n) ->
  reads (delete_loop fuel sec key last p) s
    (match list.last (filter (fun a => in_section (cf_heap s) sec a = true)
             (split_at (is_entry (cf_heap s) sec key) l).1) with
     | Some a => Some a
     | None => last
     end,
     head (split_at (is_entry (cf_heap s) sec key) l).2).
Proof.
  induction l as [|a l IH]; intros fuel last p Hc Hf Hn m.
  - inversion Hc. by destruct fuel.
  - destruct Hc as [-> (o & Ha & Hc)]. destruct fuel as [|fuel]; simpl in Hf; [lia|].
    destruct (Hn a ltac:(set_solver)) as (o' & n & Ha' & Hname). rewrite Ha in Ha'. injection Ha' as <-.
    simpl delete_loop. rewrite (bind_load (HH := cfstate_heap) _ _ _ _ o) by done.
    assert (is_entry (cf_heap s) sec key a = matches sec key o) as Hm.
    { unfold is_entry, entry_at. rewrite Ha. destruct (matches sec key o); [by apply bool_decide_eq_true|].
      apply bool_decide_eq_false. by intros [? ?]. }
    assert (in_section (cf_heap s) sec a = strcaseeq sec (co_section o)) as Hi by (unfold in_section; by rewrite Ha).
    simpl split_at. rewrite Hm. unfold matches. rewrite Hname. simpl from_option.
    assert (forall b, b ∈ l -> exists o n, cf_heap s !! b = Some o /\ co_name o = Some n) as Hn' by (intros; apply Hn; set_solver).
    destruct (strcaseeq sec (co_section o)) eqn:Es; simpl.
    + unfold name_is. rewrite Hname. unfold mbind, M_bind; simpl. destruct (strcaseeq key n); [done|].
      rewrite (IH fuel (Some a) (co_next o) Hc ltac:(lia) Hn' m).
      destruct (split_at _ l) as [l1 l2]. simpl. rewrite filter_cons_True by done.
      destruct (filter _ l1) as [|b r]; [done|]. change (list.last (a :: b :: r)) with (list.last (b :: r)).
      destruct (list.last (b :: r)) eqn:El; [done|]. by apply last_None in El.
    + rewrite (IH fuel last (co_next o) Hc ltac:(lia) Hn' m).
      destruct (split_at _ l) as [l1 l2]. simpl. rewrite filter_cons_False; [done|]. by rewrite Hi.
Qed.

Section Delete.
Context (s : cfstate) (cc : conf_cache) (bs : list (list positive)) (T : table s cc bs).
Context (sec key : cstring) (l1 : list positive) (a : positive) (l2 : list positive) (o : conf_option).
Context (Hl : bs !! bucket_of key = Some (l1 ++ a :: l2)) (Ha : cf_heap s !! a = Some o).
Context (Hm : matches sec key o = true) (Hno : omap (entry_at (cf_heap s) sec key) l1 = []).

(** The table without an option. *)
Definition unlink_heap : gmap positive conf_option :=
  delete a (match last l1 with Some b => alter (set_co_next (co_next o)) b (cf_heap s) | None => cf_heap s end).
Definition unlink_config : conf_cache :=
  match last l1 with
  | Some _ => cc
  | None => CC (<[bucket_of key := co_next o]> (cc_hash cc)) (cc_modified cc)
  end.
Definition unlink_buckets : list (list positive) := <[bucket_of key := l1 ++ l2]> bs.

Lemma unlink_nodup : a ∉ l1 /\ a ∉ l2 /\ NoDup (l1 ++ l2) /\ forall b, b ∈ l1 -> b ∉ l2.
Proof.
  destruct (tb_chain _ _ _ T _ _ Hl) as (p & _ & Hc%chain_NoDup).
  apply NoDup_app in Hc as (H1 & Hd & [H2 H3]%NoDup_cons). split; [|split; [done|split]].
  - intros H. apply (Hd a H). set_solver.
  - apply NoDup_app. split; [done|]. split; [|done]. intros b Hb Hb2. apply (Hd b Hb). set_solver.
  - intros b Hb Hb2. apply (Hd b Hb). set_solver.
Qed.

Lemma unlink_lookup b :
  b <> a -> set_co_next None <$> unlink_heap !! b = set_co_next None <$> cf_heap s !! b.
Proof.
  intros Hb. unfold unlink_heap. rewrite lookup_delete_ne by done. destruct (last l1) as [c|]; [|done].
  destruct (decide (c = b)) as [->|]; [rewrite lookup_alter_eq|by rewrite lookup_alter_ne].
  by destruct (cf_heap s !! b).
Qed.

Lemma unlink_chain_here :
  exists q, cc_hash unlink_config !! bucket_of key = Some q /\ chain unlink_heap q (l1 ++ l2).
Proof.
  destruct (tb_chain _ _ _ T _ _ Hl) as (p & Hp & Hc). destruct unlink_nodup as (Hd1 & Hd2 & Hnd & Hd).
  apply lseg_app in Hc as (r & Hc1 & [-> (o' & Ha' & Hc2)]). simpl in Ha', Hc2. rewrite Ha in Ha'. injection Ha' as <-.
  unfold unlink_config, unlink_heap. destruct (last l1) as [b|] eqn:El.
  - exists p. split; [done|]. apply last_Some in El as [l0 ->].
    assert (exists ob, cf_heap s !! b = Some ob) as [ob Hob] by (apply (lseg_live _ _ _ _ b) in Hc1 as [x ?]; [eauto|set_solver]).
    assert (alter (set_co_next (co_next o)) b (cf_heap s) = <[b := set_link (co_next o) ob]> (cf_heap s)) as ->.
    { apply map_eq. intros c. destruct (decide (c = b)) as [->|].
      - by rewrite lookup_alter_eq, lookup_insert_eq, Hob.
      - by rewrite lookup_alter_ne, lookup_insert_ne by done. }
    apply lseg_delete; [set_solver|]. apply lseg_app. exists (co_next o). split.
    + apply (lseg_redirect (NA := conf_option_node) _ _ l0 b (Some a)); [|done..]. by apply NoDup_app in Hnd as [? _].
    + apply lseg_insert; [|done]. apply Hd. set_solver.
  - apply last_None in El as ->. exists (co_next o). simpl in *. split.
    + apply list_lookup_insert_eq. rewrite (tb_size _ _ _ T). apply bucket_of_lt.
    + by apply lseg_delete.
Qed.

Lemma unlink_chain_old i l :
  i <> bucket_of key -> bs !! i = Some l ->
  exists q, cc_hash unlink_config !! i = Some q /\ chain unlink_heap q l.
Proof.
  intros Hi Hli. destruct (tb_chain _ _ _ T _ _ Hli) as (q & Hq & Hc). exists q. split.
  - unfold unlink_config. destruct (last l1); [done|]. simpl. by rewrite list_lookup_insert_ne.
  - assert (forall b, b ∈ l -> b ∉ l1 ++ a :: l2) as Hout.
    { intros b Hb Hb'. apply Hi. by eapply (table_disjoint _ _ _ i _ l _ b T). }
    unfold unlink_heap. apply lseg_delete; [intros H; apply (Hout a H); set_solver|].
    destruct (last l1) as [c|] eqn:El; [|done]. eapply lseg_ext; [|exact Hc]. intros b Hb.
    rewrite lookup_alter_ne; [done|]. intros ->. apply last_Some in El as [l0 ->]. apply (Hout b Hb). set_solver.
Qed.

Lemma unlink_table env : table (CfS (Some unlink_config) unlink_heap env) unlink_config unlink_buckets.
Proof.
  destruct unlink_nodup as (Hd1 & Hd2 & Hnd & Hd). assert (bucket_of key < length bs)%nat as Hlt by by eapply lookup_lt_Some.
  assert (forall i l, unlink_buckets !! i = Some l ->
    (i = bucket_of key /\ l = l1 ++ l2) \/ (i <> bucket_of key /\ bs !! i = Some l)) as Hbs.
  { intros i l Hi. unfold unlink_buckets in Hi. destruct (decide (i = bucket_of key)) as [->|].
    - rewrite list_lookup_insert_eq in Hi by done. injection Hi as <-. eauto.
    - rewrite list_lookup_insert_ne in Hi by done. eauto. }
  split; cbn [cf_config cf_heap].
  - done.
  - rewrite <- (tb_size _ _ _ T). unfold unlink_config. destruct (last l1); [done|]. simpl. by rewrite length_insert.
  - unfold unlink_buckets. rewrite length_insert. apply T.
  - intros i l [[-> ->]|[Hi Hil]]%Hbs; [apply unlink_chain_here|by apply unlink_chain_old].
  - intros i l b Hil Hb. assert (b <> a /\ exists l', bs !! i = Some l' /\ b ∈ l') as (Hba & l' & Hl' & Hb').
    { apply Hbs in Hil as [[-> ->]|[Hi Hil]].
      - split; [intros ->; set_solver|]. exists (l1 ++ a :: l2). split; [done|]. set_solver.
      - split; [|by exists l]. intros ->. apply Hi. eapply (table_disjoint _ _ _ i _ l _ a T); [done..|]. set_solver. }
    destruct (tb_name _ _ _ T _ _ _ Hl' Hb') as (ob & n & Hob & Hn & Hbi).
    pose proof (unlink_lookup b Hba) as Hk. rewrite Hob in Hk. destruct (unlink_heap !! b) as [ob'|]; [|done].
    exists ob', n. split; [done|]. destruct ob, ob'. by simplify_eq/=.
  - intros b [ob' Hob']. assert (b <> a) as Hba by (intros ->; unfold unlink_heap in Hob'; by rewrite lookup_delete_eq in Hob').
    pose proof (unlink_lookup b Hba) as Hk. rewrite Hob' in Hk. destruct (cf_heap s !! b) as [ob|] eqn:Hob; [|done].
    destruct (tb_owned _ _ _ T b ltac:(eauto)) as (i & l & Hi & Hb). unfold unlink_buckets.
    destruct (decide (i = bucket_of key)) as [->|].
    + exists (bucket_of key), (l1 ++ l2). rewrite list_lookup_insert_eq by done. rewrite Hl in Hi. injection Hi as <-.
      split; [done|]. set_solver.
    + exists i, l. by rewrite list_lookup_insert_ne.
Qed.

Lemma unlink_entries sec' key' :
  entries unlink_heap unlink_buckets sec' key' = adelete (entries (cf_heap s) bs) sec key sec' key'.
Proof.
  destruct unlink_nodup as (Hd1 & Hd2 & _ & _).
  assert (forall l : list positive, a ∉ l -> omap (entry_at unlink_heap sec' key') l = omap (entry_at (cf_heap s) sec' key') l) as Hold.
  { intros l Hal. apply omap_entry_ext. intros b Hb. assert (b <> a) as Hba by (intros ->; done).
    pose proof (unlink_lookup b Hba) as Hk. unfold entry_at.
    destruct (unlink_heap !! b) as [x|], (cf_heap s !! b) as [y|]; simplify_eq/=; [|done].
    destruct x, y. unfold matches. cbn in *. by simplify_eq. }
  unfold entries, adelete, unlink_buckets. pose proof (matches_same _ _ _ sec' key' Hm) as Hms.
  assert (entry_at (cf_heap s) sec' key' a = if same_key sec key sec' key' then Some (co_value o, co_flags o) else None) as Hea
    by (unfold entry_at; by rewrite Ha, Hms).
  destruct (decide (bucket_of key' = bucket_of key)) as [E|E].
  - rewrite E, list_lookup_insert_eq by (by eapply lookup_lt_Some). rewrite Hl. simpl default.
    rewrite Hold by set_solver. rewrite !omap_app. simpl. rewrite Hea.
    destruct (same_key sec key sec' key') eqn:Hs; [|done].
    assert (omap (entry_at (cf_heap s) sec' key') l1 = []) as ->; [|done].
    rewrite <- Hno. clear -Hs. induction l1 as [|b l IH]; [done|]. unfold omap in *. simpl. rewrite IH.
    unfold entry_at. destruct (cf_heap s !! b) as [x|]; [|done]. by rewrite (matches_ext sec key sec' key' x Hs).
  - rewrite list_lookup_insert_ne by done. destruct (bs !! bucket_of key') as [l|] eqn:Hk.
    2:{ apply lookup_ge_None in Hk. rewrite (tb_buckets _ _ _ T) in Hk. pose proof (bucket_of_lt key'). lia. }
    simpl default. rewrite Hold.
    2:{ intros Hal. apply E. eapply (table_disjoint _ _ _ _ _ l _ a T); [done..|]. set_solver. }
    destruct (same_key sec key sec' key') eqn:Hs; [|done]. destruct E. symmetry. apply bucket_of_case.
    by apply andb_true_iff in Hs as [_ ?].
Qed.

End Delete.

(** [conf_delete] deletes the first option of a section and a name, when the
    options before it in its bucket are of the same section: the table stays
    well-formed, the option is freed, and the other options stay. Without such an
    option it does nothing. *)
Theorem conf_delete_refines s cc bs sec key m :
  table s cc bs -> strlen key <= PATH_MAX ->
  Forall (fun a => in_section (cf_heap s) sec a = true)
    (split_at (is_entry (cf_heap s) sec key) (default [] (bs !! bucket_of key))).1 ->
  exists s', conf_delete sec key s m = Some ((), s', m) /\
    models s' (adelete (entries (cf_heap s) bs) sec key) /\
    match found s bs sec key with
    | Some a => dom (cf_heap s') = dom (cf_heap s) ∖ {[a]}
    | None => s' = s
    end.
Proof.
  intros T Hk Hsec. unfold conf_delete. rewrite (reads_bind _ _ _ _ _ (get_hash_reads s key Hk)).
  destruct (bucket_lookup _ _ _ T key) as [l Hl]. rewrite Hl in Hsec. simpl in Hsec.
  destruct (tb_chain _ _ _ T _ _ Hl) as (p & Hp & Hc).
  rewrite (reads_bind _ _ _ _ _ (get_bucket_reads _ _ _ T _ _ _ Hl Hp)), bind_heap_fuel.
  assert (forall a, a ∈ l -> exists o n, cf_heap s !! a = Some o /\ co_name o = Some n) as Hn.
  { intros a Ha. destruct (tb_name _ _ _ T _ _ _ Hl Ha) as (o & n & ? & ? & _). eauto. }
  rewrite (reads_bind _ _ _ _ _ (delete_loop_reads s sec key l _ None p Hc (chain_length _ _ _ Hc) Hn)).
  rewrite filter_all by (by apply Forall_forall).
  assert (found s bs sec key = head (split_at (is_entry (cf_heap s) sec key) l).2) as Hf
    by (unfold found; by rewrite Hl).
  rewrite <- Hf. destruct (found s bs sec key) as [a|] eqn:Ef.
  - destruct (found_Some _ _ _ T _ _ _ Ef) as (o & n & l1 & l2 & Ho & Hname & Hm & Hl' & Hno & _).
    rewrite Hl in Hl'. injection Hl' as ->.
    assert ((split_at (is_entry (cf_heap s) sec key) (l1 ++ a :: l2)).1 = l1) as ->.
    { assert (is_entry (cf_heap s) sec key a = true) as Hia.
      { unfold is_entry, entry_at. rewrite Ho, Hm. by apply bool_decide_eq_true. }
      clear -Hno Hia. induction l1 as [|b l1 IH]; simpl; [by rewrite Hia|].
      unfold omap in Hno. simpl in Hno. unfold is_entry in *.
      destruct (entry_at (cf_heap s) sec key b) eqn:Eb; [done|]. rewrite bool_decide_eq_false_2 by (by intros [? ?]).
      specialize (IH Hno). destruct (split_at _ _). simpl in *. by rewrite IH. }
    rewrite (bind_load (HH := cfstate_heap) _ _ _ _ o) by done.
    exists (CfS (Some (unlink_config cc key l1 o)) (unlink_heap s l1 a o) (cf_env s)). split; [|split].
    + unfold unlink_config, unlink_heap. destruct (unlink_nodup s cc bs T sec key l1 a l2 o Hl Ho Hm Hno) as (Hd1 & _).
      destruct (last l1) as [b|] eqn:El.
      * assert (exists ob, cf_heap s !! b = Some ob) as [ob Hob].
        { destruct (Hn b) as (ob & ? & ? & _); [|eauto]. apply last_Some in El as [l0 ->]. set_solver. }
        rewrite (bind_update (HH := cfstate_heap) _ _ _ _ ob) by done.
        assert (a <> b) by (intros ->; apply last_Some in El as [l0 ->]; set_solver).
        rewrite (free_obj_run (HH := cfstate_heap) _ _ _ o) by (simpl; by rewrite lookup_insert_ne). simpl.
        rewrite (tb_config _ _ _ T).
        enough (<[b := set_co_next (co_next o) ob]> (cf_heap s) = alter (set_co_next (co_next o)) b (cf_heap s)) as -> by done.
        apply map_eq. intros c. destruct (decide (c = b)) as [->|].
        -- by rewrite lookup_insert_eq, lookup_alter_eq, Hob.
        -- by rewrite lookup_insert_ne, lookup_alter_ne by done.
      * unfold set_bucket. unfold mbind, M_bind. rewrite (get_config_reads _ _ _ T). simpl.
        change (Z.to_nat _) with (bucket_of key).
        by rewrite (free_obj_run (HH := cfstate_heap) _ _ _ o) by done.
    + eexists _, (unlink_buckets bs key l1 l2). split; [by eapply unlink_table|].
      intros sec' key'. simpl. by eapply unlink_entries.
    + simpl. unfold unlink_heap. rewrite dom_delete_L. by destruct (last l1); rewrite ?dom_alter_L.
  - exists s. split; [done|]. split; [|done]. exists cc, bs. split; [done|]. intros sec' key'.
    unfold adelete. destruct (same_key sec key sec' key') eqn:Hs; [|done].
    apply found_None in Ef. by rewrite (entries_same _ _ _ _ _ _ Hs), Ef.
Qed.

(** A table of one option. *)
Definition one_option (sec key : cstring) (value : option cstring) : conf_option := CO sec (Some key) value 0 None.
Definition one_config (key : cstring) : conf_cache :=
  head_after (CC (replicate (Z.to_nat CFG_TABLE_SIZE) None) 0) (bucket_of key) [] 1.
Definition one_buckets (key : cstring) : list (list positive) :=
  append_buckets (replicate (Z.to_nat CFG_TABLE_SIZE) []) 1 key [].
Definition one_state (sec key : cstring) (value : option cstring) : cfstate :=
  CfS (Some (one_config key)) (append_heap (empty_table ∅) 1 (one_option sec key value) []) ∅.

Lemma one_table sec key value : table (one_state sec key value) (one_config key) (one_buckets key).
Proof.
  apply (append_table (empty_table ∅) (CC (replicate (Z.to_nat CFG_TABLE_SIZE) None) 0)
    (replicate (Z.to_nat CFG_TABLE_SIZE) []) (empty_is_table ∅) 1 (one_option sec key value) key [] None).
  - done.
  - done.
  - done.
  - apply lookup_replicate_2, bucket_of_lt.
  - unfold cc_hash. apply lookup_replicate_2, bucket_of_lt.
Qed.

Lemma conf_delete_refines_witness :
  exists s', conf_delete (str "autofs") (str "timeout") (one_state (str "autofs") (str "timeout") (Some (str "1"))) []
      = Some ((), s', []) /\
    models s' (adelete (entries (cf_heap (one_state (str "autofs") (str "timeout") (Some (str "1"))))
                 (one_buckets (str "timeout"))) (str "autofs") (str "timeout")).
Proof.
  destruct (conf_delete_refines (one_state (str "autofs") (str "timeout") (Some (str "1")))
    (one_config (str "timeout")) (one_buckets (str "timeout")) (str "autofs") (str "timeout") [])
    as (s' & H1 & H2 & _).
  - apply one_table.
  - vm_compute. discriminate.
  - vm_compute. constructor.
  - exists s'. split; [exact H1|exact H2].
Defined.

(** ** Releasing *)

Lemma free_options_run l : forall (s : cfstate) fuel p m,
  chain (cf_heap s) p l -> (length l <= fuel)%nat ->
  free_options fuel p s m
  = Some ((), CfS (cf_config s) (foldr delete (cf_heap s) l) (cf_env s), m).
Proof.
  induction l as [|a l IH]; intros s fuel p m Hc Hf.
  - inversion Hc. destruct fuel; simpl; by rewrite cfstate_eta.
  - pose proof (chain_NoDup _ _ _ Hc) as [Hnd _]%NoDup_cons. destruct Hc as [-> (o & Ha & Hc)].
    destruct fuel as [|fuel]; simpl in Hf; [lia|]. simpl free_options.
    rewrite (bind_load (HH := cfstate_heap) _ _ _ _ o), (bind_free_obj (HH := cfstate_heap) _ _ _ _ o) by done.
    rewrite IH; [|by apply lseg_delete|lia]. simpl. do 3 f_equal. f_equal.
    clear. induction l as [|b l IH]; [done|]. simpl. rewrite IH. apply delete_delete.
Qed.

Lemma foldr_delete_lookup (h : gmap positive conf_option) l a :
  foldr delete h l !! a = if decide (a ∈ l) then None else h !! a.
Proof.
  induction l as [|b l IH]; simpl.
  - done.
  - destruct (decide (b = a)) as [->|].
    + rewrite lookup_delete_eq. rewrite decide_True; [done|]. set_solver.
    + rewrite lookup_delete_ne, IH by done. repeat case_decide; set_solver.
Qed.

(** What the loop has done up to a bucket: the options of the buckets before it are
    gone. *)
Definition released (s : cfstate) (bs : list (list positive)) (i : nat) : gmap positive conf_option :=
  foldr delete (cf_heap s) (concat (take i bs)).

Lemma release_buckets_run s cc bs m n : forall i h',
  table s cc bs -> (n + i = Z.to_nat CFG_TABLE_SIZE)%nat ->
  h' = replicate i None ++ drop i (cc_hash cc) ->
  exists h'' env, conf_release_buckets n (Z.of_nat i) (CfS (Some (CC h' (cc_modified cc))) (released s bs i) (cf_env s)) m
    = Some ((), CfS (Some (CC h'' (cc_modified cc))) (released s bs (n + i)) env, m).
Proof.
  induction n as [|n IH]; intros i h' T Hni Hh'; [simpl; eauto|].
  assert (i < length bs)%nat as Hlt by (rewrite (tb_buckets _ _ _ T); lia).
  destruct (lookup_lt_is_Some_2 _ _ Hlt) as [l Hl]. destruct (tb_chain _ _ _ T _ _ Hl) as (p & Hp & Hc).
  assert (take (S i) bs = take i bs ++ [l]) as Htake by by apply take_S_r.
  assert (h' !! i = Some p) as Hp'.
  { rewrite Hh', lookup_app_r, length_replicate, Nat.sub_diag by (rewrite length_replicate; lia).
    by rewrite lookup_drop, Nat.add_0_r. }
  assert (forall a, a ∈ l -> a ∉ concat (take i bs)) as Hdis.
  { intros a Ha (l' & Hl' & Ha')%elem_of_concat. apply list_elem_of_lookup in Hl' as [j Hj].
    apply lookup_take_Some in Hj as [Hj Hji]. pose proof (table_disjoint _ _ _ i j l l' a T Hl Hj Ha Ha'). lia. }
  assert (chain (released s bs i) p l) as Hc'.
  { eapply lseg_ext; [|exact Hc]. intros a Ha. unfold released. rewrite foldr_delete_lookup, decide_False; [done|]. by apply Hdis. }
  assert (released s bs (S i) = foldr delete (released s bs i) l) as Hrel.
  { unfold released. rewrite Htake, concat_app. simpl. rewrite app_nil_r. apply map_eq. intros a.
    rewrite !foldr_delete_lookup. repeat case_decide; set_solver. }
  simpl conf_release_buckets. set (s1 := CfS _ _ _).
  assert (get_bucket (Z.of_nat i) s1 m = Some (p, s1, m)) as Hb.
  { unfold get_bucket, get_config, mbind, M_bind, get_state. simpl. by rewrite Nat2Z.id, Hp'. }
  rewrite (bind_some _ _ _ _ _ _ _ Hb). replace (Z.of_nat i + 1) with (Z.of_nat (S i)) by lia.
  assert (drop i (cc_hash cc) = p :: drop (S i) (cc_hash cc)) as Hdrop by by apply drop_S.
  destruct p as [a|].
  - unfold mbind at 1, M_bind at 1. rewrite bind_heap_fuel.
    rewrite (bind_some _ _ _ _ _ _ _ (free_options_run l s1 _ _ m Hc' (chain_length _ _ _ Hc'))).
    unfold set_bucket, get_config, mbind, M_bind, get_state. simpl. rewrite Nat2Z.id. rewrite <- Hrel.
    destruct (IH (S i) (<[i := None]> h') T ltac:(lia)) as (h'' & env & Hrun).
    { rewrite Hh', Hdrop, insert_app_r_alt, length_replicate, Nat.sub_diag by (rewrite length_replicate; lia).
      rewrite replicate_S_end, <- app_assoc. done. }
    exists h'', env. rewrite Hrun. do 4 f_equal. f_equal. lia.
  - apply chain_None in Hc as ->. subst h'. simpl in Hrel. destruct (IH (S i) (replicate i None ++ drop i (cc_hash cc)) T ltac:(lia)) as (h'' & env & Hrun).
    { by rewrite Hdrop, replicate_S_end, <- app_assoc. }
    exists h'', env. unfold mbind, M_bind. simpl. rewrite Hrel in Hrun. unfold s1. rewrite Hrun. do 4 f_equal. f_equal. lia.
Qed.

(** [__conf_release] frees every option of the table and the table, and nothing
    else is freed twice or left behind. *)
Theorem conf_release_frees s cc bs m :
  table s cc bs ->
  exists s', __conf_release s m = Some ((), s', m) /\ cf_config s' = None /\ cf_heap s' = ∅.
Proof.
  intros T. destruct (release_buckets_run s cc bs m (Z.to_nat CFG_TABLE_SIZE) 0 (cc_hash cc) T ltac:(lia))
    as (h & env & Hrun); [by rewrite drop_0|].
  unfold __conf_release.
  assert (CfS (Some (CC (cc_hash cc) (cc_modified cc))) (released s bs 0) (cf_env s) = s) as Hs.
  { pose proof (tb_config _ _ _ T) as Hc. destruct s as [c hp e], cc. unfold released. simpl in *. by subst. }
  rewrite Hs in Hrun. rewrite (bind_some _ _ _ _ _ _ _ Hrun). eexists. split; [done|]. split; [done|].
  cbn [cf_heap put_config modify]. rewrite Nat.add_0_r. apply map_eq. intros a. unfold released.
  rewrite foldr_delete_lookup, lookup_empty. case_decide as Hin; [done|].
  destruct (cf_heap s !! a) eqn:Ha; [|done]. destruct (tb_owned _ _ _ T a ltac:(eauto)) as (i & l & Hi & Hl).
  destruct Hin. apply elem_of_concat. exists l. split; [|done].
  rewrite <- (tb_buckets _ _ _ T), take_ge by lia. by eapply list_elem_of_lookup_2.
Qed.

Lemma conf_release_frees_witness :
  exists s', __conf_release (one_state (str "autofs") (str "timeout") (Some (str "1"))) [] = Some ((), s', []) /\
    cf_config s' = None /\ cf_heap s' = ∅.
Proof.
  apply (conf_release_frees _ (one_config (str "timeout")) (one_buckets (str "timeout"))). apply one_table.
Defined.

(** ** The sections of amd mounts *)

(** The sections that begin with a slash, without one equal to the one before. *)
Fixpoint asections (last : option cstring) (secs : list cstring) : list cstring :=
  match secs with
  | [] => []
  | x :: secs =>
      if negb (hd_char x =a "/") then asections last secs
      else (if bool_decide (last = Some x) then [] else [x]) ++ asections (Some x) secs
  end.

Fixpoint alast (last : option cstring) (secs : list cstring) : option cstring :=
  match secs with
  | [] => last
  | x :: secs => if negb (hd_char x =a "/") then alast last secs else alast (Some x) secs
  end.

Lemma asections_app last A B : asections last (A ++ B) = asections last A ++ asections (alast last A) B.
Proof.
  revert last. induction A as [|x A IH]; intros last; [done|]. simpl. destruct (negb _); [done|].
  by rewrite IH, <- app_assoc.
Qed.

Lemma alast_app last A B : alast last (A ++ B) = alast (alast last A) B.
Proof. revert last. induction A as [|x A IH]; intros last; [done|]. simpl. by destruct (negb _). Qed.

Lemma asections_elem last A x :
  (x ∈ asections last A -> x ∈ A /\ hd_char x = "/"%char) /\
  (x ∈ A -> hd_char x = "/"%char -> x ∈ asections last A \/ last = Some x).
Proof.
  revert last. induction A as [|y A IH]; intros last; simpl; [split; [by intros ?%elem_of_nil|by intros ?%elem_of_nil]|].
  destruct (hd_char y =a "/") eqn:Ey; simpl.
  - apply bool_decide_eq_true in Ey. destruct (IH (Some y)) as [IH1 IH2]. split.
    + intros [Hx|Hx]%elem_of_app; [|set_solver]. case_bool_decide; [by apply elem_of_nil in Hx|].
      apply list_elem_of_singleton in Hx as ->. set_solver.
    + intros Hx Hs. case_bool_decide as Hl; simpl.
      * apply elem_of_cons in Hx as [->|Hx]; [eauto|]. destruct (IH2 Hx Hs) as [|E]; [eauto|]. right. congruence.
      * left. apply elem_of_cons in Hx as [->|Hx]; [set_solver|]. destruct (IH2 Hx Hs) as [|E]; [set_solver|].
        injection E as ->. set_solver.
  - apply bool_decide_eq_false in Ey. destruct (IH last) as [IH1 IH2]. split; [set_solver|].
    intros [->|Hx]%elem_of_cons Hs; [done|eauto].
Qed.

Definition section_of (h : gmap positive conf_option) (a : positive) : cstring :=
  from_option co_section [] (h !! a).

Section Enumerate.
Context (s : cfstate) (cc : conf_cache) (bs : list (list positive)) (T : table s cc bs).
Context {A : Type} (emit : cstring -> A -> CfM (option A)).
(** [Inv done acc]: the sections [done] were emitted, with the result [acc]; [total]
    are all that will be. *)
Context (Inv : list cstring -> A -> Prop) (total : list cstring).
Context (Hemit : forall done acc x, Inv done acc -> done ++ [x] `prefix_of` total ->
  exists acc', emit x acc s [] = Some (Some acc', s, []) /\ Inv (done ++ [x]) acc').

Lemma sections_loop_run l : forall fuel last acc done p,
  chain (cf_heap s) p l -> (length l <= fuel)%nat -> Inv done acc ->
  done ++ asections last (section_of (cf_heap s) <$> l) `prefix_of` total ->
  exists acc', sections_loop emit fuel last acc p s []
      = Some ((alast last (section_of (cf_heap s) <$> l), Some acc'), s, []) /\
    Inv (done ++ asections last (section_of (cf_heap s) <$> l)) acc'.
Proof.
  induction l as [|a l IH]; intros fuel last acc dn p Hc Hf Hinv Hpre.
  - inversion Hc. destruct fuel; simpl; rewrite app_nil_r; eauto.
  - destruct Hc as [-> (o & Ha & Hc)]. destruct fuel as [|fuel]; simpl in Hf; [lia|]. simpl sections_loop.
    rewrite (bind_load (HH := cfstate_heap) _ _ _ _ o) by done.
    rewrite fmap_cons in Hpre |- *. simpl in Hpre |- *.
    assert (section_of (cf_heap s) a = co_section o) as Hso by (unfold section_of; by rewrite Ha).
    rewrite Hso in *. destruct (negb (hd_char (co_section o) =a "/")); [apply IH; [done|lia|done|done]|].
    case_bool_decide as Hl; simpl in *.
    + apply IH; [done|lia|done|done].
    + destruct (Hemit dn acc (co_section o) Hinv) as (acc1 & He & Hinv1).
      { etrans; [|exact Hpre]. apply prefix_app. by apply prefix_cons, prefix_nil. }
      rewrite (bind_some _ _ _ _ _ _ _ He).
      rewrite (cons_middle (co_section o) dn), app_assoc in Hpre |- *. apply IH; [done|lia|done|done].
Qed.

Lemma sections_buckets_run n : forall i last acc done,
  (n + i = length bs)%nat -> Inv done acc ->
  done ++ asections last (section_of (cf_heap s) <$> concat (drop i bs)) `prefix_of` total ->
  exists acc', sections_buckets emit n (Z.of_nat i) last acc s [] = Some (Some acc', s, []) /\
    Inv (done ++ asections last (section_of (cf_heap s) <$> concat (drop i bs))) acc'.
Proof.
  induction n as [|n IH]; intros i last acc dn Hni Hinv Hpre.
  - rewrite drop_ge by lia. simpl. rewrite app_nil_r. eauto.
  - destruct (lookup_lt_is_Some_2 bs i ltac:(lia)) as [l Hl]. destruct (tb_chain _ _ _ T _ _ Hl) as (p & Hp & Hc).
    assert (drop i bs = l :: drop (S i) bs) as Hd by by apply drop_S.
    rewrite Hd in Hpre |- *. simpl concat in *. rewrite fmap_app, asections_app in Hpre |- *.
    rewrite app_assoc in Hpre |- *. simpl sections_buckets.
    assert (get_bucket (Z.of_nat i) s [] = Some (p, s, [])) as Hb.
    { unfold get_bucket. rewrite (reads_bind _ _ _ _ _ (get_config_reads _ _ _ T)). by rewrite Nat2Z.id, Hp. }
    rewrite (bind_some _ _ _ _ _ _ _ Hb), bind_heap_fuel.
    destruct (sections_loop_run l (size (cf_heap s)) last acc dn p Hc) as (acc1 & H1 & Hinv1).
    { by eapply chain_length. } { done. } { etrans; [|exact Hpre]. by apply prefix_app_r. }
    rewrite (bind_some _ _ _ _ _ _ _ H1). replace (Z.of_nat i + 1) with (Z.of_nat (S i)) by lia.
    apply IH; [lia|done|done].
Qed.

End Enumerate.

Lemma asections_length last secs : (length (asections last secs) <= length secs)%nat.
Proof.
  revert last. induction secs as [|x secs IH]; intros last; simpl; [lia|].
  destruct (negb _); [specialize (IH last); lia|]. rewrite length_app. specialize (IH (Some x)).
  destruct (bool_decide _); simpl; lia.
Qed.

Lemma concat_buckets_length s cc bs : table s cc bs -> (length (concat bs) <= size (cf_heap s))%nat.
Proof.
  intros T. assert (NoDup (concat bs)) as Hnd.
  { pose proof (tb_chain _ _ _ T) as Hc. pose proof (fun i j l l' a => table_disjoint s cc bs i j l l' a T) as Hd.
    clear T. revert Hc Hd. generalize (cc_hash cc). induction bs as [|l bs' IH]; intros hs Hc Hd; [constructor|].
    simpl. apply NoDup_app. split; [|split].
    - destruct (Hc 0%nat l eq_refl) as (p & _ & H). by eapply chain_NoDup.
    - intros a Ha (l' & [j Hj]%list_elem_of_lookup & Ha')%elem_of_concat.
      specialize (Hd 0%nat (S j) l l' a eq_refl Hj Ha Ha'). done.
    - apply (IH (tail hs)).
      + intros i l' Hi. destruct (Hc (S i) l' Hi) as (p & Hp & H). exists p. split; [|done].
        destruct hs; [done|exact Hp].
      + intros i j l1 l2 a Hi Hj H1 H2. specialize (Hd (S i) (S j) l1 l2 a Hi Hj H1 H2). by injection Hd. }
  rewrite <- (size_list_to_set (C := gset positive) (concat bs)), <- size_dom by done. apply subseteq_size.
  intros a (l & [i Hi]%list_elem_of_lookup & Ha)%elem_of_list_to_set%elem_of_concat. apply elem_of_dom.
  destruct (tb_name _ _ _ T _ _ _ Hi Ha) as (o & ? & ? & _). eauto.
Qed.

Lemma enumerate_run s cc bs :
  table s cc bs -> Z.of_nat (size (cf_heap s)) < 2 ^ 32 ->
  let total := asections None (section_of (cf_heap s) <$> concat bs) in
  conf_enumerate_amd_mount_sections s []
  = Some (if bool_decide (total = []) then None else Some total, s, []).
Proof.
  intros T Hsize total. assert (Z.of_nat (length total) < 2 ^ 32) as Htot.
  { unfold total. pose proof (asections_length None (section_of (cf_heap s) <$> concat bs)) as H.
    rewrite length_fmap in H. pose proof (concat_buckets_length _ _ _ T). lia. }
  assert (Z.to_nat CFG_TABLE_SIZE + 0 = length bs)%nat as Hn by (rewrite (tb_buckets _ _ _ T); lia).
  unfold conf_enumerate_amd_mount_sections.
  destruct (sections_buckets_run s cc bs T count_section (fun dn acc => acc = Z.of_nat (length dn)) total)
    with (n := Z.to_nat CFG_TABLE_SIZE) (i := 0%nat) (last := @None cstring) (acc := 0) (done := @nil cstring)
    as (count & H1 & Hcount); [|done..|].
  { intros dn acc x -> Hpre%prefix_length. rewrite length_app in *. simpl in *. eexists. split; [done|].
    rewrite u32_small; lia. }
  rewrite (bind_some _ _ _ _ _ _ _ H1). rewrite drop_0 in Hcount. simpl app in Hcount. fold total in Hcount. subst count.
  destruct total as [|t0 total'] eqn:Et; [done|]. rewrite <- Et in *.
  assert (Z.of_nat (length total) = Z.pos (Pos.of_succ_nat (length total'))) as Hpos by (rewrite Et; done).
  rewrite Hpos. rewrite bind_malloc_nil. cbn [negb].
  destruct (sections_buckets_run s cc bs T (add_section (Z.of_nat (length total))) (fun dn acc => acc = dn) total)
    with (n := Z.to_nat CFG_TABLE_SIZE) (i := 0%nat) (last := @None cstring) (acc := @nil cstring) (done := @nil cstring)
    as (paths & H2 & Hpaths); [|done..|].
  { intros dn acc x -> Hpre%prefix_length. rewrite length_app in *. simpl in *. eexists. split; [|done].
    unfold add_section. rewrite bind_malloc_nil. cbn [negb].
    by destruct (Z.leb_spec (Z.of_nat (length total)) (Z.of_nat (length dn))); [lia|]. }
  change (Z.of_nat 0) with 0 in H2. rewrite Hpos in H2. rewrite H2, Hpaths, drop_0. simpl app. fold total.
  by rewrite bool_decide_eq_false_2 by (by rewrite Et).
Qed.

(** [conf_enumerate_amd_mount_sections] fills exactly the array it allocates and
    returns the sections of the options that begin with a slash, and every one of
    them. *)
Theorem conf_enumerate_sections s cc bs :
  table s cc bs -> Z.of_nat (size (cf_heap s)) < 2 ^ 32 ->
  exists r, conf_enumerate_amd_mount_sections s [] = Some (r, s, []) /\
    forall x, x ∈ default [] r <->
      hd_char x = "/"%char /\ exists a o, cf_heap s !! a = Some o /\ co_section o = x.
Proof.
  intros T Hsize. eexists. split; [by eapply enumerate_run|]. intros x.
  set (total := asections None _). assert (default [] (if bool_decide (total = []) then None else Some total) = total) as ->
    by by case_bool_decide.
  pose proof (asections_elem None (section_of (cf_heap s) <$> concat bs) x) as [H1 H2]. fold total in H1, H2.
  assert (x ∈ section_of (cf_heap s) <$> concat bs <-> exists a o, cf_heap s !! a = Some o /\ co_section o = x) as Hx.
  { rewrite list_elem_of_fmap. split.
    - intros (a & -> & (l & [i Hi]%list_elem_of_lookup & Ha)%elem_of_concat).
      destruct (tb_name _ _ _ T _ _ _ Hi Ha) as (o & n & Ho & _). exists a, o. unfold section_of. by rewrite Ho.
    - intros (a & o & Ho & <-). exists a. unfold section_of. rewrite Ho. split; [done|]. apply elem_of_concat.
      destruct (tb_owned _ _ _ T a ltac:(eauto)) as (i & l & Hi & Ha). exists l. split; [|done].
      by eapply list_elem_of_lookup_2. }
  split.
  - intros [Hin Hs]%H1. split; [done|]. by apply Hx.
  - intros [Hs Hin%Hx]. by destruct (H2 Hin Hs) as [|[=]].
Qed.

Lemma conf_enumerate_sections_witness :
  exists r, conf_enumerate_amd_mount_sections (one_state (str "/home") (str "map_name") (Some (str "amd.home"))) []
      = Some (r, one_state (str "/home") (str "map_name") (Some (str "amd.home")), []) /\ r = Some [str "/home"].
Proof.
  destruct (conf_enumerate_sections (one_state (str "/home") (str "map_name") (Some (str "amd.home")))
    (one_config (str "map_name")) (one_buckets (str "map_name"))) as (r & H1 & _).
  - apply one_table.
  - vm_compute. reflexivity.
  - exists r. split; [exact H1|]. vm_compute in H1. injection H1 as <-. reflexivity.
Defined.

(** ** Values *)

(** Whatever the configuration says, the default NFS protocol is 2, 3 or 4, and
    the timeouts of the cache are positive numbers that fit an [unsigned int] when
    they are set to such numbers or not set. *)
Theorem config_values_bounded s E :
  models s E ->
  (exists p, defaults_get_mount_nfs_default_proto s [] = Some (p, s, []) /\ 2 <= p <= 4) /\
  (exists t, defaults_get_negative_timeout s [] = Some (t, s, []) /\ 0 <= t < 2 ^ 32 /\
     (forall v f, alookup E autofs_gbl_sec NAME_NEGATIVE_TIMEOUT = Some (Some v, f) -> 0 < atol v < 2 ^ 32 -> t = atol v) /\
     (alookup E autofs_gbl_sec NAME_NEGATIVE_TIMEOUT = None -> t = 60)).
Proof.
  intros M. split.
  - unfold defaults_get_mount_nfs_default_proto, conf_get_number.
    eexists. split.
    + unfold mbind at 1, M_bind at 1.
      rewrite (reads_bind _ _ _ _ _ (find_value_reads s E autofs_gbl_sec NAME_MOUNT_NFS_DEFAULT_PROTOCOL M ltac:(vm_compute; discriminate))). reflexivity.
    + cbv zeta. set (x := i32 _). destruct ((x <? 2) || (4 <? x)) eqn:Ex.
      * vm_compute. split; discriminate.
      * apply orb_false_iff in Ex as [?%Z.ltb_ge ?%Z.ltb_ge]. rewrite u32_small; lia.
  - unfold defaults_get_negative_timeout, conf_get_number. eexists. split.
    + unfold mbind at 1, M_bind at 1.
      rewrite (reads_bind _ _ _ _ _ (find_value_reads s E autofs_gbl_sec NAME_NEGATIVE_TIMEOUT M ltac:(vm_compute; discriminate))). reflexivity.
    + split; [apply u32_range|]. split.
      * intros v f -> Hv. cbn. destruct (Z.leb_spec (atol v) 0); [lia|]. rewrite u32_small; lia.
      * intros ->. reflexivity.
Qed.

Lemma config_values_bounded_witness :
  exists p, defaults_get_mount_nfs_default_proto (empty_table ∅) [] = Some (p, empty_table ∅, []) /\ 2 <= p <= 4.
Proof. destruct (config_values_bounded (empty_table ∅) (fun _ _ => []) (empty_models ∅)) as [H _]. exact H. Defined.

(** * Cases in which the configuration is not what it should be

    Runs of the operations of lib/defaults.c on small inputs. *)

Definition file (lines : list string) : cffile :=
  CfFile (foldr (fun l f => str l ++ NEWLINE :: f) [] lines) (Some 1).

Definition linux : Z * utsname :=
  (0, UTS (str "Linux") (str "box") (str "5.10") (str "#1") (str "x86_64")).

Definition no_config : cfstate := CfS None ∅ ∅.

(** The configuration read from a file and an old file, and then a question. *)
Definition read_and {A} (conf oldconf : option cffile) (c : CfM A) : option A :=
  match (r ← defaults_read_config (str "/etc") linux 0 0 conf oldconf; c) no_config [] with
  | Some (x, _, _) => Some x
  | None => None
  end.

(** The option of another section before the deleted one is cut off: it is not
    found any more, and it is not freed. *)
Theorem delete_loses_option :
  exists s1 s2,
    (_ ← conf_add amd_gbl_sec (str "search_base") (Some (str "x")) 0;
     conf_add autofs_gbl_sec (str "search_base") (Some (str "y")) 0) (empty_table ∅) [] = Some (CFG_OK, s1, []) /\
    conf_get_string amd_gbl_sec (str "search_base") s1 [] = Some (Some (str "x"), s1, []) /\
    conf_delete autofs_gbl_sec (str "search_base") s1 [] = Some ((), s2, []) /\
    conf_get_string amd_gbl_sec (str "search_base") s2 [] = Some (None, s2, []) /\
    size (cf_heap s2) = 1%nat.
Proof.
  eexists _, _. split; [vm_compute; reflexivity|]. split; [vm_compute; reflexivity|].
  split; [vm_compute; reflexivity|]. split; vm_compute; reflexivity.
Qed.

(** When the name of an option cannot be copied it is added without a name, and the
    next lookup that meets it dereferences a null pointer. *)
Theorem null_name_crash :
  exists s1, conf_add autofs_gbl_sec (str "timeout") (Some (str "1")) 0 (empty_table ∅) [true; false; true; true]
      = Some (CFG_OK, s1, []) /\
    conf_lookup (Some autofs_gbl_sec) (Some (str "timeout")) s1 [] = None.
Proof. eexists. split; vm_compute; reflexivity. Qed.

(** A name of more than [PATH_MAX - 8] characters that is not found overruns the
    buffer for its old form. *)
Theorem long_key_overrun :
  strlen (replicate 4090 "k"%char) <= PATH_MAX /\
  conf_lookup (Some autofs_gbl_sec) (Some (replicate 4090 "k"%char)) (empty_table ∅) [] = None.
Proof. split; [vm_compute; discriminate|vm_compute; reflexivity]. Qed.

(** Two search bases behind one of another section: the second one is in the table
    and in the saved list, and is freed twice. *)
Theorem saved_list_crash :
  read_and (Some (file ["[amd]"; "search_base = x"; "[autofs]"; "search_base = a"; "search_base = b"]%string))
    (Some (file [])) (conf_get_string autofs_gbl_sec NAME_SEARCH_BASE) = None.
Proof. vm_compute. reflexivity. Qed.

(** The LDAP options of the old configuration file do not override those of the new
    one, which is put before them, although other options do. *)
Theorem old_config_no_override :
  let conf := file ["search_base = new"; "timeout = 1"]%string in
  let old := file ["search_base = old"; "timeout = 2"]%string in
  read_and (Some conf) (Some old) (conf_get_string autofs_gbl_sec NAME_SEARCH_BASE) = Some (Some (str "new")) /\
  read_and (Some conf) (Some old) (conf_get_string autofs_gbl_sec NAME_TIMEOUT) = Some (Some (str "2")).
Proof. split; vm_compute; reflexivity. Qed.

(** A line of more than 256 characters is not ignored: its end is a line of its own. *)
Theorem long_comment_read :
  read_and (Some (CfFile (replicate 256 "#"%char ++ str "timeout = 7") (Some 1))) None
    defaults_get_timeout = Some 7.
Proof. vm_compute. reflexivity. Qed.

(** The defaults for the architecture and the operating system are set when [uname]
    fails and not when it succeeds. *)
Theorem uname_inverted :
  read_and (Some (file [])) None conf_amd_get_arch = Some None /\
  read_and (Some (file [])) None conf_amd_get_os = Some None.
Proof. split; vm_compute; reflexivity. Qed.

(** The default of [autofs_use_lofs] is that of [auto_dir], which is neither yes nor
    no; and what is neither yes nor no counts as set. *)
Theorem use_lofs_default :
  read_and (Some (file [])) None (conf_get_string amd_gbl_sec NAME_AMD_AUTOFS_USE_LOFS) = Some (Some (str "/a")) /\
  read_and (Some (file ["[amd]"; "browsable_dirs = never"]%string)) None
    (flags ← conf_amd_get_flags None; mret (Z.land flags CONF_BROWSABLE_DIRS)) = Some CONF_BROWSABLE_DIRS.
Proof. split; vm_compute; reflexivity. Qed.

(** The level of the log options is the information level for all but the defaults. *)
Theorem log_options_inverted :
  read_and (Some (file [])) None conf_amd_get_log_options = Some LOG_ERR /\
  read_and (Some (file ["[amd]"; "log_options = fatal"]%string)) None conf_amd_get_log_options = Some LOG_INFO.
Proof. split; vm_compute; reflexivity. Qed.

(** The search bases of other sections are used, too. *)
Theorem searchdns_other_section :
  (match (defaults_get_searchdns (str "/etc") linux 0 0
            (Some (file ["search_base = a"; "[amd]"; "search_base = b"]%string)) None) no_config [] with
   | Some (r, _, _) => Some r
   | None => None
   end) = Some (Some [str "a"; str "b"]).
Proof. vm_compute. reflexivity. Qed.

(** The configuration is read again although neither file has changed: the test of
    the old file asks whether [fstat] fails. *)
Theorem unchanged_files_read_again f g mtime oldmtime modified junk oldjunk :
  fst (fst (fst (fst (check_times junk oldjunk (Some (CfFile f (Some mtime))) (Some (CfFile g (Some oldmtime))) modified))))
  = false.
Proof. simpl. by destruct (mtime <=? modified). Qed.
