(* ===== verification/MntTable.v ===== *)
(** * The tables of mounts (lib/mounts.c)

    Mounts are counted objects in a hash table by path; an autofs mount point has
    lists of its submounts, its mounted mounts and its amd mounts. External mounts
    of amd maps are counted in a table of their own. The hash chains and the lists
    are lists of addresses, and an object knows the lists it is on. The tables have
    a mutex each: to lock one that is locked is to wait for ever ([None]), since
    these operations are called by one thread at a time in the model. *)

From S2P Require Import Prelude CString Hash Memory CatPath.
Open Scope Z_scope.

(** ** Data *)

Definition MNTS_AUTOFS : Z := 0x4.
Definition MNTS_OFFSET : Z := 0x20.
Definition MNTS_AMD_MOUNT : Z := 0x40.
Definition MNTS_MOUNTED : Z := 0x80.
Definition EXT_MOUNTS_HASH_BITS : Z := 6.
Definition MNTS_HASH_BITS : Z := 7.
Definition ext_hash_size : Z := Z.shiftl 1 EXT_MOUNTS_HASH_BITS.
Definition mnts_hash_size : Z := Z.shiftl 1 MNTS_HASH_BITS.

Record ext_mount := ExtMount { em_ref : Z; em_mp : cstring; em_umount : option cstring }.

(** [struct mnt_list]; [m_mount], [m_submount] and [m_amdmount] are the autofs mount
    points on whose lists it is. *)
Record mnt_list := Mnt {
  m_mp : cstring;
  m_len : Z;
  m_flags : Z;
  m_ref : Z;
  m_ap : ptr;
  m_ext_mp : option cstring;
  m_amd_pref : option cstring;
  m_amd_type : option cstring;
  m_amd_opts : option cstring;
  m_amd_cache_opts : Z;
  m_mount : ptr;
  m_submount : ptr;
  m_amdmount : ptr
}.

Definition set_m_flags (f : Z) (m : mnt_list) : mnt_list :=
  Mnt (m_mp m) (m_len m) f (m_ref m) (m_ap m) (m_ext_mp m) (m_amd_pref m) (m_amd_type m) (m_amd_opts m)
    (m_amd_cache_opts m) (m_mount m) (m_submount m) (m_amdmount m).
Definition set_m_ref (r : Z) (m : mnt_list) : mnt_list :=
  Mnt (m_mp m) (m_len m) (m_flags m) r (m_ap m) (m_ext_mp m) (m_amd_pref m) (m_amd_type m) (m_amd_opts m)
    (m_amd_cache_opts m) (m_mount m) (m_submount m) (m_amdmount m).
Definition set_m_ap (a : ptr) (m : mnt_list) : mnt_list :=
  Mnt (m_mp m) (m_len m) (m_flags m) (m_ref m) a (m_ext_mp m) (m_amd_pref m) (m_amd_type m) (m_amd_opts m)
    (m_amd_cache_opts m) (m_mount m) (m_submount m) (m_amdmount m).
Definition set_m_amd (ext pref type opts : option cstring) (cache : Z) (m : mnt_list) : mnt_list :=
  Mnt (m_mp m) (m_len m) (m_flags m) (m_ref m) (m_ap m) ext pref type opts cache
    (m_mount m) (m_submount m) (m_amdmount m).
Definition set_m_mount (p : ptr) (m : mnt_list) : mnt_list :=
  Mnt (m_mp m) (m_len m) (m_flags m) (m_ref m) (m_ap m) (m_ext_mp m) (m_amd_pref m) (m_amd_type m) (m_amd_opts m)
    (m_amd_cache_opts m) p (m_submount m) (m_amdmount m).
Definition set_m_submount (p : ptr) (m : mnt_list) : mnt_list :=
  Mnt (m_mp m) (m_len m) (m_flags m) (m_ref m) (m_ap m) (m_ext_mp m) (m_amd_pref m) (m_amd_type m) (m_amd_opts m)
    (m_amd_cache_opts m) (m_mount m) p (m_amdmount m).
Definition set_m_amdmount (p : ptr) (m : mnt_list) : mnt_list :=
  Mnt (m_mp m) (m_len m) (m_flags m) (m_ref m) (m_ap m) (m_ext_mp m) (m_amd_pref m) (m_amd_type m) (m_amd_opts m)
    (m_amd_cache_opts m) (m_mount m) (m_submount m) p.

(** What the operations use of an autofs mount point. *)
Record apoint := AP {
  ap_path : cstring;
  ap_parent : ptr;
  ap_dev : Z;
  ap_mounts : list positive;
  ap_submounts : list positive;
  ap_amdmounts : list positive
}.

Definition set_ap_mounts (l : list positive) (a : apoint) : apoint :=
  AP (ap_path a) (ap_parent a) (ap_dev a) l (ap_submounts a) (ap_amdmounts a).
Definition set_ap_submounts (l : list positive) (a : apoint) : apoint :=
  AP (ap_path a) (ap_parent a) (ap_dev a) (ap_mounts a) l (ap_amdmounts a).
Definition set_ap_amdmounts (l : list positive) (a : apoint) : apoint :=
  AP (ap_path a) (ap_parent a) (ap_dev a) (ap_mounts a) (ap_submounts a) l.

Record mstate := MS {
  ms_heap : gmap positive mnt_list;
  ms_hash : list (list positive);
  ms_aps : gmap positive apoint;
  ms_ext : list (list ext_mount);
  ms_locked : bool;
  ms_ext_locked : bool
}.

#[export] Instance mstate_heap : HasHeap mstate mnt_list.
Proof.
  by refine {| heap := ms_heap;
    put_heap := fun h s => MS h (ms_hash s) (ms_aps s) (ms_ext s) (ms_locked s) (ms_ext_locked s) |}.
Defined.

Abbreviation MM := (M mstate).

Definition put_hash (h : list (list positive)) (s : mstate) : mstate :=
  MS (ms_heap s) h (ms_aps s) (ms_ext s) (ms_locked s) (ms_ext_locked s).
Definition put_aps (a : gmap positive apoint) (s : mstate) : mstate :=
  MS (ms_heap s) (ms_hash s) a (ms_ext s) (ms_locked s) (ms_ext_locked s).
Definition put_ext (e : list (list ext_mount)) (s : mstate) : mstate :=
  MS (ms_heap s) (ms_hash s) (ms_aps s) e (ms_locked s) (ms_ext_locked s).
Definition put_locked (b : bool) (s : mstate) : mstate :=
  MS (ms_heap s) (ms_hash s) (ms_aps s) (ms_ext s) b (ms_ext_locked s).
Definition put_ext_locked (b : bool) (s : mstate) : mstate :=
  MS (ms_heap s) (ms_hash s) (ms_aps s) (ms_ext s) (ms_locked s) b.

Definition load_ap (p : positive) : MM apoint := fun s m =>
  match ms_aps s !! p with
  | Some a => Some (a, s, m)
  | None => None
  end.

Definition update_ap (p : positive) (f : apoint -> apoint) : MM unit :=
  modify (fun s => put_aps (alter f p (ms_aps s)) s).

(** ** External mounts *)

Definition ext_mount_hash_mutex_lock : MM unit :=
  s ← get_state; if ms_ext_locked s then stuck else modify (put_ext_locked true).
Definition ext_mount_hash_mutex_unlock : MM unit := modify (put_ext_locked false).

Definition ext_bucket (mp : cstring) : nat := Z.to_nat (hash mp ext_hash_size).

Fixpoint ext_find (mp : cstring) (l : list ext_mount) : option ext_mount :=
  match l with
  | [] => None
  | this :: l => if streq (em_mp this) mp then Some this else ext_find mp l
  end.

Definition ext_mount_lookup (mp : cstring) : MM (option ext_mount) :=
  s ← get_state; mret (ext_find mp (default [] (ms_ext s !! ext_bucket mp))).

(** A change of the first mount of a path in its chain; [None] removes it. *)
Fixpoint ext_change (mp : cstring) (f : ext_mount -> option ext_mount) (l : list ext_mount) : list ext_mount :=
  match l with
  | [] => []
  | this :: l =>
      if streq (em_mp this) mp then match f this with Some e => e :: l | None => l end
      else this :: ext_change mp f l
  end.

Definition ext_set (mp : cstring) (f : ext_mount -> option ext_mount) : MM unit :=
  modify (fun s => put_ext (alter (ext_change mp f) (ext_bucket mp) (ms_ext s)) s).

Definition ext_mount_add (path : cstring) (umount : option cstring) : MM Z :=
  ext_mount_hash_mutex_lock;;
  em ← ext_mount_lookup path;
  ret ←
    match em with
    | Some em => ext_set path (fun e => Some (ExtMount (u32 (em_ref e + 1)) (em_mp e) (em_umount e)));; mret 1
    | None =>
        ok ← malloc;
        if negb ok then mret 0 else
        ok ← malloc;
        if negb ok then mret 0 else
        ok ← match umount with Some _ => malloc | None => mret true end;
        if negb ok then mret 0 else
        modify (fun s => put_ext (alter (cons (ExtMount 1 path umount)) (ext_bucket path) (ms_ext s)) s);;
        mret 1
    end;
  ext_mount_hash_mutex_unlock;;
  mret ret.

Definition ext_mount_remove (path : cstring) : MM Z :=
  ext_mount_hash_mutex_lock;;
  em ← ext_mount_lookup path;
  ret ←
    match em with
    | None => mret 0
    | Some em =>
        let ref := u32 (em_ref em - 1) in
        if negb (ref =? 0)
        then ext_set path (fun e => Some (ExtMount ref (em_mp e) (em_umount e)));; mret 0
        else ext_set path (fun _ => None);; mret 1
    end;
  ext_mount_hash_mutex_unlock;;
  mret ret.

(** [ret] is an [int]. *)
Definition ext_mount_inuse (path : cstring) : MM Z :=
  ext_mount_hash_mutex_lock;;
  em ← ext_mount_lookup path;
  ext_mount_hash_mutex_unlock;;
  mret (match em with Some em => i32 (em_ref em) | None => 0 end).

(** ** Mounts *)

Definition mnts_hash_mutex_lock : MM unit :=
  s ← get_state; if ms_locked s then stuck else modify (put_locked true).
Definition mnts_hash_mutex_unlock : MM unit := modify (put_locked false).

Definition mnts_bucket (mp : cstring) : nat := Z.to_nat (hash mp mnts_hash_size).

Fixpoint mnts_find (mp : cstring) (l : list positive) : MM ptr :=
  match l with
  | [] => mret None
  | a :: l =>
      this ← load a;
      if streq (m_mp this) mp && negb (m_ref this =? 0) then mret (Some a) else mnts_find mp l
  end.

Definition mnts_lookup (mp : cstring) : MM ptr :=
  s ← get_state; mnts_find mp (default [] (ms_hash s !! mnts_bucket mp)).

Definition mnts_alloc_mount (mp : cstring) : MM ptr :=
  ok ← malloc;
  if negb ok then mret None else
  ok ← malloc;
  if negb ok then mret None else
  a ← new_obj (Mnt mp (strlen mp) 0 1 None None None None None 0 None None None);
  mret (Some a).

Definition __mnts_get_mount (mnt : positive) : MM unit :=
  update mnt (fun m => set_m_ref (u32 (m_ref m + 1)) m).

(** [hash_del]: an object is on at most one chain. *)
Definition hash_del (a : positive) : MM unit :=
  modify (fun s => put_hash ((fun l => filter (fun b => b <> a) l) <$> ms_hash s) s).

Definition __mnts_put_mount (mnt : positive) : MM unit :=
  update mnt (fun m => set_m_ref (u32 (m_ref m - 1)) m);;
  m ← load mnt;
  if m_ref m =? 0 then hash_del mnt;; free_obj mnt else mret ().

Definition hash_add_str (a : positive) (mp : cstring) : MM unit :=
  modify (fun s => put_hash (alter (cons a) (mnts_bucket mp) (ms_hash s)) s).

Definition mnts_new_mount (mp : cstring) : MM ptr :=
  this ← mnts_lookup mp;
  match this with
  | Some a => __mnts_get_mount a;; mret this
  | None =>
      this ← mnts_alloc_mount mp;
      match this with
      | None => mret None
      | Some a => hash_add_str a mp;; mret this
      end
  end.

Definition mnts_get_mount (mp : cstring) : MM ptr :=
  this ← mnts_lookup mp;
  match this with
  | Some a => __mnts_get_mount a;; mret this
  | None => mnts_new_mount mp
  end.

Definition __mnts_lookup_mount (mp : cstring) : MM ptr :=
  this ← mnts_lookup mp;
  match this with
  | Some a => __mnts_get_mount a;; mret this
  | None => mret None
  end.

Definition mnts_lookup_mount (mp : cstring) : MM ptr :=
  mnts_hash_mutex_lock;;
  this ← __mnts_lookup_mount mp;
  mnts_hash_mutex_unlock;;
  mret this.

Definition mnts_put_mount (mnt : ptr) : MM unit :=
  match mnt with
  | None => mret ()
  | Some a =>
      mnts_hash_mutex_lock;;
      __mnts_put_mount a;;
      mnts_hash_mutex_unlock
  end.

Definition has_flag (x mask : Z) : bool := negb (Z.land x mask =? 0).

(** A mount that is found with a flag, or [NULL] and no reference. *)
Definition find_with_flag (path : cstring) (flag : Z) : MM ptr :=
  mnt ← mnts_lookup_mount path;
  match mnt with
  | None => mnts_put_mount None;; mret None
  | Some a =>
      m ← load a;
      if has_flag (m_flags m) flag then mret mnt else mnts_put_mount mnt;; mret None
  end.

Definition mnts_find_submount (path : cstring) : MM ptr := find_with_flag path MNTS_AUTOFS.
Definition mnts_find_amdmount (path : cstring) : MM ptr := find_with_flag path MNTS_AMD_MOUNT.

(** The two functions call each other; the inner call locks the mutex again. *)
Fixpoint __mnt_find_submount_by_devid (fuel : nat) (submounts : list positive) (devid : Z) : MM ptr :=
  match fuel, submounts with
  | _, [] => mret None
  | O, _ => stuck
  | S fuel, this :: rest =>
      m ← load this;
      apa ← from_option_M (m_ap m);
      ap ← load_ap apa;
      if ap_dev ap =? devid then mret (Some apa)
      else
        mnts_hash_mutex_lock;;
        r ← __mnt_find_submount_by_devid fuel (ap_submounts ap) devid;
        mnts_hash_mutex_unlock;;
        match r with
        | Some _ => mret r
        | None => __mnt_find_submount_by_devid fuel rest devid
        end
  end.

Definition mnt_find_submount_by_devid (fuel : nat) (submounts : list positive) (devid : Z) : MM ptr :=
  mnts_hash_mutex_lock;;
  ap ← __mnt_find_submount_by_devid fuel submounts devid;
  mnts_hash_mutex_unlock;;
  mret ap.

(** ** Submounts *)

(** [list_del_init] of the three lists. *)
Definition del_submount (a : positive) : MM unit :=
  m ← load a;
  match m_submount m with
  | None => mret ()
  | Some ap =>
      update_ap ap (fun p => set_ap_submounts (filter (fun b => b <> a) (ap_submounts p)) p);;
      update a (set_m_submount None)
  end.
Definition del_amdmount (a : positive) : MM unit :=
  m ← load a;
  match m_amdmount m with
  | None => mret ()
  | Some ap =>
      update_ap ap (fun p => set_ap_amdmounts (filter (fun b => b <> a) (ap_amdmounts p)) p);;
      update a (set_m_amdmount None)
  end.
Definition del_mount (a : positive) : MM unit :=
  m ← load a;
  match m_mount m with
  | None => mret ()
  | Some ap =>
      update_ap ap (fun p => set_ap_mounts (filter (fun b => b <> a) (ap_mounts p)) p);;
      update a (set_m_mount None)
  end.

Definition mnts_add_submount (ap : positive) : MM ptr :=
  mnts_hash_mutex_lock;;
  p ← load_ap ap;
  this ← mnts_get_mount (ap_path p);
  match this with
  | None => mnts_hash_mutex_unlock;; mret None
  | Some a =>
      m ← load a;
      conflict ←
        match m_ap m with
        | None => update a (set_m_ap (Some ap));; mret false
        | Some other =>
            if negb (bool_decide (other = ap)) then mret true
            else
              o ← load_ap other;
              mret (negb (bool_decide (ap_parent o = ap_parent p)))
        end;
      if conflict : bool then
        __mnts_put_mount a;;
        mnts_hash_mutex_unlock;;
        mret this
      else
        update a (fun m => set_m_flags (Z.lor (m_flags m) MNTS_AUTOFS) m);;
        m ← load a;
        match m_submount m with
        | Some _ => mret ()
        | None =>
            parent ← from_option_M (ap_parent p);
            _ ← load_ap parent;
            update_ap parent (fun p => set_ap_submounts (ap_submounts p ++ [a]) p);;
            update a (set_m_submount (Some parent))
        end;;
        mnts_hash_mutex_unlock;;
        mret this
  end.

(** [flags &= ~f]. *)
Definition clear_flags (f : Z) (m : mnt_list) : mnt_list := set_m_flags (Z.ldiff (m_flags m) f) m.

Definition mnts_remove_submount (mp : cstring) : MM unit :=
  mnts_hash_mutex_lock;;
  this ← mnts_lookup mp;
  match this with
  | None => mret ()
  | Some a =>
      m ← load a;
      if has_flag (m_flags m) MNTS_AUTOFS then
        update a (clear_flags MNTS_AUTOFS);;
        update a (set_m_ap None);;
        del_submount a;;
        __mnts_put_mount a
      else mret ()
  end;;
  mnts_hash_mutex_unlock.

(** ** Mounts of amd maps *)

(** What is used of [struct amd_entry]. *)
Record amd_entry := AmdEntry {
  e_path : cstring; e_fs : option cstring; e_pref : option cstring; e_type : option cstring;
  e_opts : option cstring; e_cache_opts : Z
}.

(** [if (s) { d = strdup(s); if (!d) goto fail; }] *)
Definition dup (s : option cstring) : MM bool := match s with None => mret true | Some _ => malloc end.

Definition mnts_add_amdmount (ap : positive) (entry : amd_entry) : MM ptr :=
  ok ← dup (e_fs entry);
  if negb ok then mret None else
  ok ← dup (e_pref entry);
  if negb ok then mret None else
  ok ← dup (e_type entry);
  if negb ok then mret None else
  ok ← dup (e_opts entry);
  if negb ok then mret None else
  mnts_hash_mutex_lock;;
  this ← mnts_get_mount (e_path entry);
  match this with
  | None => mret None
  | Some a =>
      update a (set_m_amd (e_fs entry) (e_pref entry) (e_type entry) (e_opts entry) (e_cache_opts entry));;
      update a (fun m => set_m_flags (Z.lor (m_flags m) MNTS_AMD_MOUNT) m);;
      m ← load a;
      match m_amdmount m with
      | Some _ => mret ()
      | None =>
          _ ← load_ap ap;
          update_ap ap (fun p => set_ap_amdmounts (ap_amdmounts p ++ [a]) p);;
          update a (set_m_amdmount (Some ap))
      end;;
      mnts_hash_mutex_unlock;;
      mret this
  end.

Definition __mnts_remove_amdmount (mp : cstring) : MM unit :=
  this ← mnts_lookup mp;
  match this with
  | None => mret ()
  | Some a =>
      m ← load a;
      if negb (has_flag (m_flags m) MNTS_AMD_MOUNT) then mret ()
      else
        update a (clear_flags MNTS_AMD_MOUNT);;
        del_amdmount a;;
        update a (set_m_amd None None None None 0);;
        __mnts_put_mount a
  end.

Definition mnts_remove_amdmount (mp : cstring) : MM unit :=
  mnts_hash_mutex_lock;;
  __mnts_remove_amdmount mp;;
  mnts_hash_mutex_unlock.

(** The loop takes the next mount before the current one is removed. *)
Fixpoint remove_amd_loop (l : list positive) : MM unit :=
  match l with
  | [] => mret ()
  | a :: l =>
      mnt ← load a;
      ext ← from_option_M (m_ext_mp mnt);
      _ ← ext_mount_remove ext;
      __mnts_remove_amdmount (m_mp mnt);;
      remove_amd_loop l
  end.

Definition mnts_remove_amdmounts (ap : positive) : MM unit :=
  mnts_hash_mutex_lock;;
  p ← load_ap ap;
  remove_amd_loop (ap_amdmounts p);;
  mnts_hash_mutex_unlock.

(** ** Mounted mounts *)

Definition mnts_add_mount (ap : positive) (name : cstring) (flags : Z) : MM ptr :=
  p ← load_ap ap;
  let mp := if hd_char name =a "/" then name else ap_path p ++ str "/" ++ name in
  ok ← malloc;
  if negb ok then mret None else
  mnts_hash_mutex_lock;;
  this ← mnts_get_mount mp;
  match this with
  | None => mret ()
  | Some a =>
      update a (fun m => set_m_flags (Z.lor (m_flags m) flags) m);;
      m ← load a;
      match m_mount m with
      | Some _ => mret ()
      | None =>
          if has_flag (m_flags m) MNTS_MOUNTED then
            update_ap ap (fun p => set_ap_mounts (a :: ap_mounts p) p);;
            update a (set_m_mount (Some ap))
          else mret ()
      end
  end;;
  mnts_hash_mutex_unlock;;
  mret this.

Definition mnts_remove_mount (mp : cstring) (flags : Z) : MM unit :=
  mnts_hash_mutex_lock;;
  this ← mnts_lookup mp;
  match this with
  | None => mret ()
  | Some a =>
      m ← load a;
      if has_flag (m_flags m) flags then
        update a (clear_flags flags);;
        m ← load a;
        (if has_flag (m_flags m) MNTS_MOUNTED then mret () else del_mount a);;
        __mnts_put_mount a
      else mret ()
  end;;
  mnts_hash_mutex_unlock.

Definition mnts_set_mounted_mount (ap : positive) (name : cstring) (flags : Z) : MM unit :=
  _ ← mnts_add_mount ap name flags; mret ().

Definition mnts_has_mounted_mounts (ap : positive) : MM Z :=
  mnts_hash_mutex_lock;;
  p ← load_ap ap;
  mnts_hash_mutex_unlock;;
  mret (match ap_mounts p with [] => 0 | _ => 1 end).
