(* ===== verification/MntProps.v ===== *)
(** * The invariant of the table of mounts

    Every reference that the flags and the callers hold is counted, a mount is in
    the table as long as its count is not 0, there is one mount for a path, and the
    lists of an autofs mount point have mounts of the table only. *)

From S2P Require Import Prelude CString Hash Memory CatPath MntTable.
Open Scope Z_scope.

(** ** The three lists *)

Inductive kind := KMount | KSub | KAmd.

#[export] Instance kind_eq_dec : EqDecision kind.
Proof. solve_decision. Defined.

Definition k_flag (k : kind) : Z :=
  match k with KMount => MNTS_MOUNTED | KSub => MNTS_AUTOFS | KAmd => MNTS_AMD_MOUNT end.
Definition k_list (k : kind) (p : apoint) : list positive :=
  match k with KMount => ap_mounts p | KSub => ap_submounts p | KAmd => ap_amdmounts p end.
Definition k_set_list (k : kind) (l : list positive) (p : apoint) : apoint :=
  match k with KMount => set_ap_mounts l p | KSub => set_ap_submounts l p | KAmd => set_ap_amdmounts l p end.
Definition k_fld (k : kind) (m : mnt_list) : ptr :=
  match k with KMount => m_mount m | KSub => m_submount m | KAmd => m_amdmount m end.
Definition k_set_fld (k : kind) (p : ptr) (m : mnt_list) : mnt_list :=
  match k with KMount => set_m_mount p m | KSub => set_m_submount p m | KAmd => set_m_amdmount p m end.

Lemma k_list_set k k' l p : k_list k (k_set_list k' l p) = if decide (k = k') then l else k_list k p.
Proof. by destruct k, k'. Qed.
Lemma k_fld_set k k' q m : k_fld k (k_set_fld k' q m) = if decide (k = k') then q else k_fld k m.
Proof. by destruct k, k'. Qed.
Lemma k_set_fld_keeps k q m :
  m_mp (k_set_fld k q m) = m_mp m /\ m_flags (k_set_fld k q m) = m_flags m /\ m_ref (k_set_fld k q m) = m_ref m.
Proof. by destruct k. Qed.

Definition on (k : kind) (m : mnt_list) : bool := has_flag (m_flags m) (k_flag k).

Definition bit (b : bool) : Z := if b then 1 else 0.

(** The references that the flags of a mount hold. *)
Definition bits (m : mnt_list) : Z := bit (on KMount m) + bit (on KSub m) + bit (on KAmd m).

Lemma bits_nonneg m : 0 <= bits m.
Proof. unfold bits, bit. repeat case_match; lia. Qed.

(** ** The invariant *)

(** The references that are held by callers. *)
Definition refs : Type := positive -> Z.
Definition take_ref (a : positive) (held : refs) : refs := fun b => if decide (b = a) then held b + 1 else held b.
Definition drop_ref (a : positive) (held : refs) : refs := fun b => if decide (b = a) then held b - 1 else held b.

(** [n] bounds the counts. *)
Record table_inv (n : Z) (s : mstate) (held : refs) : Prop := {
  ti_size : length (ms_hash s) = Z.to_nat mnts_hash_size;
  ti_ref : forall a m, ms_heap s !! a = Some m -> 0 < m_ref m <= n /\ bits m + held a <= m_ref m;
  ti_hashed : forall a m, ms_heap s !! a = Some m -> exists l, ms_hash s !! mnts_bucket (m_mp m) = Some l /\ a ∈ l;
  ti_chain : forall i l, ms_hash s !! i = Some l -> NoDup l /\
    forall a, a ∈ l -> exists m, ms_heap s !! a = Some m /\ mnts_bucket (m_mp m) = i;
  ti_unique : forall a b m m', ms_heap s !! a = Some m -> ms_heap s !! b = Some m' -> m_mp m = m_mp m' -> a = b;
  ti_fld : forall a m k p, ms_heap s !! a = Some m -> k_fld k m = Some p -> on k m = true /\ is_Some (ms_aps s !! p);
  ti_lists : forall p P k, ms_aps s !! p = Some P -> NoDup (k_list k P) /\
    forall a, a ∈ k_list k P <-> exists m, ms_heap s !! a = Some m /\ k_fld k m = Some p;
  ti_held : forall a, 0 <= held a /\ (0 < held a -> is_Some (ms_heap s !! a));
  ti_unlocked : ms_ext_locked s = false
}.

Lemma mnts_bucket_lt mp : (mnts_bucket mp < Z.to_nat mnts_hash_size)%nat.
Proof.
  unfold mnts_bucket, hash. pose proof (Z.mod_pos_bound (hash_final (hash_loop 0 mp)) mnts_hash_size ltac:(done)).
  lia.
Qed.

(** A change of one mount that keeps its path, and a change of the lists of the
    mount points that follows it. *)
Lemma table_inv_set n s held n' s' held' a m m' :
  table_inv n s held -> ms_heap s !! a = Some m ->
  ms_heap s' = <[a := m']> (ms_heap s) -> ms_hash s' = ms_hash s -> ms_ext_locked s' = ms_ext_locked s ->
  n <= n' -> m_mp m' = m_mp m -> 0 < m_ref m' <= n' -> bits m' + held' a <= m_ref m' -> 0 <= held' a ->
  (forall b, b <> a -> held' b = held b) ->
  (forall k p, k_fld k m' = Some p -> on k m' = true /\ is_Some (ms_aps s !! p)) ->
  (forall p, is_Some (ms_aps s' !! p) <-> is_Some (ms_aps s !! p)) ->
  (forall p P' k, ms_aps s' !! p = Some P' -> exists P, ms_aps s !! p = Some P /\ NoDup (k_list k P') /\
     (a ∈ k_list k P' <-> k_fld k m' = Some p) /\ forall b, b <> a -> b ∈ k_list k P' <-> b ∈ k_list k P) ->
  table_inv n' s' held'.
Proof.
  intros T Ha Hh Hx Hl Hn Hmp Hr Hb H0 Hother Hf Haps Hlists. split.
  - rewrite Hx. apply T.
  - intros b mb Hmb. rewrite Hh in Hmb. destruct (decide (b = a)) as [->|].
    + rewrite lookup_insert_eq in Hmb. by injection Hmb as <-.
    + rewrite lookup_insert_ne in Hmb by done. destruct (ti_ref _ _ _ T _ _ Hmb). rewrite Hother by done. lia.
  - intros b mb Hmb. rewrite Hx. rewrite Hh in Hmb. destruct (decide (b = a)) as [->|].
    + rewrite lookup_insert_eq in Hmb. injection Hmb as <-. rewrite Hmp. by apply (ti_hashed _ _ _ T).
    + rewrite lookup_insert_ne in Hmb by done. by apply (ti_hashed _ _ _ T).
  - intros i l Hi. rewrite Hx in Hi. destruct (ti_chain _ _ _ T _ _ Hi) as [Hnd Hc]. split; [done|].
    intros b Hbl. destruct (Hc b Hbl) as (mb & Hmb & E). rewrite Hh. destruct (decide (b = a)) as [->|].
    + exists m'. rewrite lookup_insert_eq, Hmp. by simplify_eq.
    + exists mb. by rewrite lookup_insert_ne.
  - intros b c mb mc Hmb Hmc E. rewrite Hh in Hmb, Hmc.
    destruct (decide (b = a)) as [->|], (decide (c = a)) as [->|]; [done|..];
      simplify_map_eq.
    + eapply (ti_unique _ _ _ T); [exact Ha|exact Hmc|congruence].
    + eapply (ti_unique _ _ _ T); [exact Hmb|exact Ha|congruence].
    + by eapply (ti_unique _ _ _ T).
  - intros b mb k p Hmb Hk. rewrite Hh in Hmb. destruct (decide (b = a)) as [->|].
    + rewrite lookup_insert_eq in Hmb. injection Hmb as <-. rewrite Haps. by apply Hf.
    + rewrite lookup_insert_ne in Hmb by done. rewrite Haps. by eapply (ti_fld _ _ _ T).
  - intros p P' k HP'. destruct (Hlists p P' k HP') as (P & HP & Hnd & Ha' & Hb'). split; [done|].
    intros b. rewrite Hh. destruct (decide (b = a)) as [->|].
    + rewrite Ha'. rewrite lookup_insert_eq. naive_solver.
    + rewrite Hb', lookup_insert_ne by done. by apply (ti_lists _ _ _ T).
  - intros b. rewrite Hh. destruct (decide (b = a)) as [->|].
    + split; [done|]. intros _. rewrite lookup_insert_eq. by eexists.
    + rewrite lookup_insert_ne, Hother by done. apply T.
  - rewrite Hl. apply T.
Qed.

(** The same without a change of the lists. *)
Lemma table_inv_node n s held n' held' a m m' :
  table_inv n s held -> ms_heap s !! a = Some m ->
  n <= n' -> m_mp m' = m_mp m -> 0 < m_ref m' <= n' -> bits m' + held' a <= m_ref m' -> 0 <= held' a ->
  (forall b, b <> a -> held' b = held b) -> (forall k, k_fld k m' = k_fld k m) ->
  (forall k, on k m = true -> on k m' = true) ->
  table_inv n' (put_heap (<[a := m']> (ms_heap s)) s) held'.
Proof.
  intros T Ha Hn Hmp Hr Hb H0 Hother Hf Hon.
  eapply (table_inv_set n s held); try done.
  - intros k p Hk. rewrite Hf in Hk. destruct (ti_fld _ _ _ T _ _ _ _ Ha Hk). auto.
  - intros p P k HP. exists P. split; [done|]. destruct (ti_lists _ _ _ T _ _ k HP) as [Hnd Hl].
    split; [done|]. split; [|done]. rewrite Hl, Hf. naive_solver.
Qed.

(** ** Lookup *)

Definition path_is (s : mstate) (mp : cstring) (a : positive) : Prop :=
  exists m, ms_heap s !! a = Some m /\ m_mp m = mp.

Lemma mnts_lookup_reads n s held mp :
  table_inv n s held ->
  exists r, reads (mnts_lookup mp) s r /\
    match r with
    | Some a => path_is s mp a
    | None => forall a, ~ path_is s mp a
    end.
Proof.
  intros T. assert (mnts_bucket mp < length (ms_hash s))%nat as Hlt by (rewrite (ti_size _ _ _ T); apply mnts_bucket_lt).
  destruct (lookup_lt_is_Some_2 _ _ Hlt) as [l Hl]. destruct (ti_chain _ _ _ T _ _ Hl) as [_ Hc].
  assert (exists r, reads (mnts_find mp l) s r /\
    match r with Some a => path_is s mp a | None => forall a, a ∈ l -> ~ path_is s mp a end) as (r & Hr & Hspec).
  { clear Hl. induction l as [|a l IH].
    - exists None. split; [done|]. intros a Ha. by apply elem_of_nil in Ha.
    - destruct (Hc a ltac:(set_solver)) as (m & Ha & _). destruct IH as (r & Hr & Hspec); [intros; apply Hc; set_solver|].
      destruct (ti_ref _ _ _ T _ _ Ha) as [[Hpos _] _].
      destruct (streq_spec (m_mp m) mp) as [E|E].
      + exists (Some a). split; [|by exists m]. intros al. simpl. rewrite (bind_load (HH := mstate_heap) _ _ _ _ m) by done.
        rewrite (proj2 (streq_true _ _) E). destruct (Z.eqb_spec (m_ref m) 0); [lia|done].
      + exists r. split.
        * intros al. simpl. rewrite (bind_load (HH := mstate_heap) _ _ _ _ m) by done.
          rewrite (proj2 (streq_false _ _) E). simpl. apply Hr.
        * destruct r; [done|]. intros b [->|Hb]%elem_of_cons; [|by apply Hspec]. intros (m' & Hm' & E'). simplify_eq. }
  exists r. split.
  - intros al. unfold mnts_lookup. mread. by rewrite Hl.
  - destruct r; [done|]. intros a (m & Ha & <-). destruct (ti_hashed _ _ _ T _ _ Ha) as (l' & Hl' & Hin).
    simplify_eq. eapply Hspec; [done|]. by exists m.
Qed.

(** ** References *)

Lemma take_ref_eq a held : take_ref a held a = held a + 1.
Proof. unfold take_ref. by rewrite decide_True. Qed.
Lemma take_ref_ne a b held : b <> a -> take_ref a held b = held b.
Proof. intros. unfold take_ref. by rewrite decide_False. Qed.
Lemma drop_ref_eq a held : drop_ref a held a = held a - 1.
Proof. unfold drop_ref. by rewrite decide_True. Qed.
Lemma drop_ref_ne a b held : b <> a -> drop_ref a held b = held b.
Proof. intros. unfold drop_ref. by rewrite decide_False. Qed.

Lemma on_set_ref k r m : on k (set_m_ref r m) = on k m.
Proof. done. Qed.
Lemma bits_set_ref r m : bits (set_m_ref r m) = bits m.
Proof. done. Qed.

Definition bump (m : mnt_list) : mnt_list := set_m_ref (u32 (m_ref m + 1)) m.

Lemma get_ref_inv n s held a m :
  table_inv n s held -> n < 2 ^ 32 - 1 -> ms_heap s !! a = Some m ->
  table_inv (n + 1) (put_heap (<[a := bump m]> (ms_heap s)) s) (take_ref a held).
Proof.
  intros T Hn Ha. destruct (ti_ref _ _ _ T _ _ Ha) as [Hr Hb]. pose proof (proj1 (ti_held _ _ _ T a)) as H0.
  assert (u32 (m_ref m + 1) = m_ref m + 1) as Hu by (apply u32_small; lia).
  eapply table_inv_node; [done|done|..]; unfold bump; cbn [m_mp m_ref set_m_ref]; rewrite ?Hu; try lia; try done.
  - rewrite take_ref_eq, bits_set_ref. lia.
  - rewrite take_ref_eq. lia.
  - intros b Hb'. by apply take_ref_ne.
Qed.

Definition fresh_mnt (mp : cstring) : mnt_list :=
  Mnt mp (strlen mp) 0 1 None None None None None 0 None None None.

(** A new mount in the table. *)
Lemma new_mount_inv n s held a mp :
  table_inv n s held -> 0 <= n -> ms_heap s !! a = None -> (forall b, ~ path_is s mp b) ->
  table_inv (n + 1)
    (put_hash (alter (cons a) (mnts_bucket mp) (ms_hash s)) (put_heap (<[a := fresh_mnt mp]> (ms_heap s)) s))
    (take_ref a held).
Proof.
  intros T Hn Ha Hnew. assert (held a = 0) as Hh.
  { destruct (ti_held _ _ _ T a) as [H0 H1]. destruct (Z.eq_dec (held a) 0); [done|]. destruct H1 as [? ?]; [lia|congruence]. }
  assert (forall i l, ms_hash s !! i = Some l -> a ∉ l) as Hout.
  { intros i l Hi Hin. destruct (ti_chain _ _ _ T _ _ Hi) as [_ Hc]. destruct (Hc a Hin) as (m & Hm & _). congruence. }
  split; cbn [ms_heap ms_hash ms_aps ms_ext_locked put_hash put_heap mstate_heap].
  - rewrite length_alter. apply T.
  - intros b m Hm. destruct (decide (b = a)) as [->|].
    + rewrite lookup_insert_eq in Hm. injection Hm as <-. rewrite take_ref_eq, Hh. split; [simpl; lia|]. vm_compute. discriminate.
    + rewrite lookup_insert_ne in Hm by done. rewrite take_ref_ne by done. destruct (ti_ref _ _ _ T _ _ Hm). split; lia.
  - intros b m Hm. destruct (decide (b = a)) as [->|].
    + rewrite lookup_insert_eq in Hm. injection Hm as <-. simpl m_mp.
      assert (mnts_bucket mp < length (ms_hash s))%nat as Hlt by (rewrite (ti_size _ _ _ T); apply mnts_bucket_lt).
      destruct (lookup_lt_is_Some_2 _ _ Hlt) as [l Hl]. exists (a :: l). rewrite list_lookup_alter_eq, Hl. split; [done|]. set_solver.
    + rewrite lookup_insert_ne in Hm by done. destruct (ti_hashed _ _ _ T _ _ Hm) as (l & Hl & Hin).
      destruct (decide (mnts_bucket mp = mnts_bucket (m_mp m))) as [E|E].
      * exists (a :: l). rewrite E, list_lookup_alter_eq, Hl. split; [done|]. set_solver.
      * exists l. by rewrite list_lookup_alter_ne.
  - intros i l Hi. destruct (decide (mnts_bucket mp = i)) as [<-|E].
    + rewrite list_lookup_alter_eq in Hi. destruct (ms_hash s !! mnts_bucket mp) as [l0|] eqn:Hl0; [|done].
      injection Hi as <-. destruct (ti_chain _ _ _ T _ _ Hl0) as [Hnd Hc]. split; [constructor; [by eapply Hout|done]|].
      intros b [->|Hb]%elem_of_cons.
      * exists (fresh_mnt mp). by rewrite lookup_insert_eq.
      * destruct (Hc b Hb) as (m & Hm & E). exists m. split; [|done]. rewrite lookup_insert_ne; [done|]. intros ->. congruence.
    + rewrite list_lookup_alter_ne in Hi by done. destruct (ti_chain _ _ _ T _ _ Hi) as [Hnd Hc]. split; [done|].
      intros b Hb. destruct (Hc b Hb) as (m & Hm & E'). exists m. split; [|done]. rewrite lookup_insert_ne; [done|]. intros ->. congruence.
  - intros b c m m' Hb Hc E. destruct (decide (b = a)) as [->|], (decide (c = a)) as [->|]; [done|..];
      simplify_map_eq.
    + destruct (Hnew c). exists m'. done.
    + destruct (Hnew b). exists m. done.
    + by eapply (ti_unique _ _ _ T).
  - intros b m k p Hm Hk. destruct (decide (b = a)) as [->|].
    + rewrite lookup_insert_eq in Hm. injection Hm as <-. by destruct k.
    + rewrite lookup_insert_ne in Hm by done. by eapply (ti_fld _ _ _ T).
  - intros p P k HP. destruct (ti_lists _ _ _ T _ _ k HP) as [Hnd Hl]. split; [done|]. intros b. rewrite Hl.
    destruct (decide (b = a)) as [->|]; [|by rewrite lookup_insert_ne].
    rewrite lookup_insert_eq, Ha. split; [by intros (m & ? & _)|]. intros (m & [= <-] & Hk). by destruct k.
  - intros b. destruct (decide (b = a)) as [->|].
    + rewrite lookup_insert_eq, take_ref_eq, Hh. split; [lia|]. by eexists.
    + rewrite lookup_insert_ne, take_ref_ne by done. apply T.
  - apply T.
Qed.

(** ** Flags *)

Definition k_bit (k : kind) : Z := match k with KMount => 7 | KSub => 2 | KAmd => 6 end.

Lemma has_flag_bit x i : 0 <= i -> has_flag x (2 ^ i) = Z.testbit x i.
Proof.
  intros Hi. unfold has_flag. destruct (Z.testbit x i) eqn:Hb.
  - apply negb_true_iff, Z.eqb_neq. intros E. assert (Z.testbit (Z.land x (2 ^ i)) i = true) as H.
    { rewrite Z.land_spec, Hb, Z.pow2_bits_true by done. done. }
    rewrite E, Z.bits_0 in H. done.
  - apply negb_false_iff, Z.eqb_eq. apply Z.bits_inj'. intros j Hj. rewrite Z.land_spec, Z.bits_0.
    destruct (Z.eq_dec i j) as [<-|]; [by rewrite Hb|]. rewrite Z.pow2_bits_false by done. apply andb_false_r.
Qed.

Lemma has_k_flag k x : has_flag x (k_flag k) = Z.testbit x (k_bit k).
Proof.
  assert (k_flag k = 2 ^ k_bit k) as -> by by destruct k. apply has_flag_bit. by destruct k.
Qed.

Lemma on_bit k m : on k m = Z.testbit (m_flags m) (k_bit k).
Proof. apply has_k_flag. Qed.

Lemma k_flag_bit k k' : Z.testbit (k_flag k) (k_bit k') = bool_decide (k = k').
Proof. by destruct k, k'. Qed.

Lemma on_lor k f m : on k (set_m_flags (Z.lor (m_flags m) f) m) = on k m || has_flag f (k_flag k).
Proof. rewrite !on_bit, has_k_flag. cbn [m_flags set_m_flags]. apply Z.lor_spec. Qed.

Lemma on_clear k k' m : on k (clear_flags (k_flag k') m) = on k m && negb (bool_decide (k' = k)).
Proof.
  rewrite !on_bit. unfold clear_flags. cbn [m_flags set_m_flags]. rewrite Z.ldiff_spec by (by destruct k).
  by rewrite k_flag_bit.
Qed.

Lemma k_flag_other k k' : has_flag (k_flag k) (k_flag k') = bool_decide (k = k').
Proof. by destruct k, k'. Qed.

(** ** Dropping a reference *)

Lemma held_live n s held a : table_inv n s held -> 0 < held a -> exists m, ms_heap s !! a = Some m.
Proof. intros T H. by destruct (proj2 (ti_held _ _ _ T a) H) as [m ?]; exists m. Qed.

Lemma last_ref_unlisted n s held a m :
  table_inv n s held -> ms_heap s !! a = Some m -> 0 < held a -> m_ref m = 1 ->
  held a = 1 /\ (forall k, k_fld k m = None).
Proof.
  intros T Ha Hh Hr. destruct (ti_ref _ _ _ T _ _ Ha) as [_ Hb]. pose proof (bits_nonneg m).
  split; [lia|]. intros k. destruct (k_fld k m) as [p|] eqn:Ek; [|done].
  destruct (ti_fld _ _ _ T _ _ _ _ Ha Ek) as [Hon _]. assert (1 <= bits m); [|lia].
  unfold bits, bit. destruct k; rewrite Hon; repeat case_match; lia.
Qed.

Lemma free_mount_inv n s held a m :
  table_inv n s held -> ms_heap s !! a = Some m -> held a = 1 -> (forall k, k_fld k m = None) ->
  table_inv n (put_heap (delete a (ms_heap s)) (put_hash ((fun l => filter (fun b => b <> a) l) <$> ms_hash s) s))
    (drop_ref a held).
Proof.
  intros T Ha Hh Hk. split; cbn [ms_heap ms_hash ms_aps ms_ext_locked put_hash put_heap mstate_heap].
  - rewrite length_fmap. apply T.
  - intros b mb Hb. apply lookup_delete_Some in Hb as [Hne Hb]. rewrite drop_ref_ne by done. by apply (ti_ref _ _ _ T).
  - intros b mb Hb. apply lookup_delete_Some in Hb as [Hne Hb]. destruct (ti_hashed _ _ _ T _ _ Hb) as (l & Hl & Hin).
    exists (filter (fun b => b <> a) l). rewrite list_lookup_fmap, Hl. split; [done|]. apply list_elem_of_filter. done.
  - intros i l Hi. rewrite list_lookup_fmap in Hi. destruct (ms_hash s !! i) as [l0|] eqn:Hl0; [|done]. injection Hi as <-.
    destruct (ti_chain _ _ _ T _ _ Hl0) as [Hnd Hc]. split; [by apply NoDup_filter|].
    intros b [Hne Hb]%list_elem_of_filter. destruct (Hc b Hb) as (mb & Hmb & E). exists mb. split; [|done].
    by rewrite lookup_delete_ne.
  - intros b c mb mc Hb Hc E. apply lookup_delete_Some in Hb as [_ Hb]. apply lookup_delete_Some in Hc as [_ Hc].
    by eapply (ti_unique _ _ _ T).
  - intros b mb k p Hb Hf. apply lookup_delete_Some in Hb as [_ Hb]. by eapply (ti_fld _ _ _ T).
  - intros p P k HP. destruct (ti_lists _ _ _ T _ _ k HP) as [Hnd Hl]. split; [done|]. intros b. rewrite Hl. split.
    + intros (mb & Hb & Hf). exists mb. split; [|done]. rewrite lookup_delete_ne; [done|]. intros ->.
      rewrite Ha in Hb. injection Hb as <-. by rewrite Hk in Hf.
    + intros (mb & Hb & Hf). apply lookup_delete_Some in Hb as [_ Hb]. eauto.
  - intros b. destruct (decide (b = a)) as [->|].
    + rewrite drop_ref_eq, Hh. split; lia.
    + rewrite drop_ref_ne, lookup_delete_ne by done. apply T.
  - apply T.
Qed.

(** What an operation leaves alone besides the invariant. *)
Definition keeps (s s' : mstate) : Prop :=
  ms_locked s' = ms_locked s /\ ms_ext s' = ms_ext s /\
  forall p, (fun P => (ap_path P, ap_parent P, ap_dev P)) <$> ms_aps s' !! p
            = (fun P => (ap_path P, ap_parent P, ap_dev P)) <$> ms_aps s !! p.

#[export] Instance keeps_preorder : PreOrder keeps.
Proof.
  split; [by intros s|]. intros s1 s2 s3 (H1 & H2 & H3) (H1' & H2' & H3'). split; [congruence|].
  split; [congruence|]. intros p. by rewrite H3', H3.
Qed.

Lemma put_mount_run n s held a al :
  table_inv n s held -> 0 < held a -> n < 2 ^ 32 ->
  exists s', __mnts_put_mount a s al = Some ((), s', al) /\ table_inv n s' (drop_ref a held) /\ keeps s s' /\
    (forall b, b <> a -> ms_heap s' !! b = ms_heap s !! b) /\
    (forall m m' k, ms_heap s !! a = Some m -> ms_heap s' !! a = Some m' -> on k m' = on k m).
Proof.
  intros T Hh Hn. destruct (held_live _ _ _ _ T Hh) as [m Ha]. destruct (ti_ref _ _ _ T _ _ Ha) as [Hr Hb].
  unfold __mnts_put_mount. rewrite (bind_update (HH := mstate_heap) _ _ _ _ m) by done.
  set (m' := set_m_ref _ m). assert (m_ref m' = m_ref m - 1) as Hr' by (apply u32_small; lia).
  rewrite (bind_load (HH := mstate_heap) _ _ _ _ m') by apply lookup_insert_eq.
  destruct (Z.eqb_spec (m_ref m') 0) as [E|E].
  - destruct (last_ref_unlisted _ _ _ _ _ T Ha Hh ltac:(lia)) as [H1 Hk]. unfold hash_del. rewrite bind_modify.
    rewrite (free_obj_run (HH := mstate_heap) _ _ _ m') by apply lookup_insert_eq. eexists. split; [reflexivity|].
    cbn [heap put_heap mstate_heap put_hash ms_heap ms_hash ms_aps ms_ext ms_locked ms_ext_locked].
    rewrite delete_insert_eq. split; [by apply (free_mount_inv n s held a m)|]. split; [done|].
    split; [intros b Hb'; by apply lookup_delete_ne|]. intros m1 m2 k _ H2. cbn in H2. by rewrite lookup_delete_eq in H2.
  - eexists. split; [reflexivity|]. split; [|split; [done|split; [intros b Hb'; by apply lookup_insert_ne|]]].
    2: { intros m1 m2 k H1 H2. cbn in H2. rewrite lookup_insert_eq in H2. by simplify_eq. }
    eapply (table_inv_node n s held); [done|done|lia|done|lia| | | |done|done].
    + rewrite drop_ref_eq, Hr'. unfold m'. rewrite bits_set_ref. lia.
    + rewrite drop_ref_eq. lia.
    + intros b Hb'. by apply drop_ref_ne.
Qed.

(** ** Taking a reference by the path *)

Lemma get_ref_run n s held a m al :
  table_inv n s held -> n < 2 ^ 32 - 1 -> ms_heap s !! a = Some m ->
  exists s', __mnts_get_mount a s al = Some ((), s', al) /\ table_inv (n + 1) s' (take_ref a held) /\ keeps s s' /\
    ms_heap s' !! a = Some (bump m) /\ forall b, b <> a -> ms_heap s' !! b = ms_heap s !! b.
Proof.
  intros T Hn Ha. unfold __mnts_get_mount. rewrite (update_run (HH := mstate_heap) _ _ _ m) by done.
  eexists. split; [reflexivity|]. split; [by apply get_ref_inv|]. split; [done|].
  split; [apply lookup_insert_eq|]. intros b Hb. by apply lookup_insert_ne.
Qed.

Lemma mnts_get_mount_run n s held mp al :
  table_inv n s held -> 0 <= n < 2 ^ 32 - 1 ->
  exists r s' al', mnts_get_mount mp s al = Some (r, s', al') /\ keeps s s' /\ (al = [] -> al' = [] /\ r <> None) /\
    match r with
    | None => s' = s
    | Some a => table_inv (n + 1) s' (take_ref a held) /\ exists m, ms_heap s' !! a = Some m /\ m_mp m = mp /\
        (m = fresh_mnt mp \/ exists m0, ms_heap s !! a = Some m0 /\ m = bump m0) /\
        forall b, b <> a -> ms_heap s' !! b = ms_heap s !! b
    end.
Proof.
  intros T Hn. unfold mnts_get_mount. destruct (mnts_lookup_reads n s held mp T) as (r & Hr & Hspec).
  rewrite (reads_bind _ _ _ _ _ Hr). destruct r as [a|].
  - destruct Hspec as (m & Ha & Hmp). destruct (get_ref_run n s held a m al T ltac:(lia) Ha) as (s' & H1 & H2 & H3 & H4 & H5).
    rewrite (bind_some _ _ _ _ _ _ _ H1). exists (Some a), s', al. split; [done|]. split; [done|].
    split; [done|]. split; [done|]. exists (bump m). do 2 (split; [done|]). split; [|done]. right. by exists m.
  - unfold mnts_new_mount. rewrite (reads_bind _ _ _ _ _ Hr). unfold mnts_alloc_mount.
    assert (ms_heap s !! fresh (dom (ms_heap s)) = None) as Hf by apply (heap_fresh (HH := mstate_heap) s).
    pose proof (new_mount_inv n s held _ mp T ltac:(lia) Hf Hspec) as Hinv.
    set (a := fresh (dom (ms_heap s))) in *.
    assert (exists al', (this ← (ok ← malloc; if negb ok then mret None else
        ok ← malloc; if negb ok then mret None else a ← new_obj (fresh_mnt mp); mret (Some a));
      match this with None => mret None | Some a => hash_add_str a mp;; mret this end) s al
      = Some (None, s, al') /\ al <> [] \/
      (this ← (ok ← malloc; if negb ok then mret None else
        ok ← malloc; if negb ok then mret None else a ← new_obj (fresh_mnt mp); mret (Some a));
      match this with None => mret None | Some a => hash_add_str a mp;; mret this end) s al
      = Some (Some a, put_hash (alter (cons a) (mnts_bucket mp) (ms_hash s)) (put_heap (<[a := fresh_mnt mp]> (ms_heap s)) s), al')
      /\ (al = [] -> al' = [])) as (al' & Hrun).
    { destruct al as [|[] [|[] al]]; eexists; (right; split; [reflexivity|done]) || (left; split; [reflexivity|done]). }
    destruct Hrun as [[Hrun Hal]|[Hrun Hal]].
    + exists None, s, al'. done.
    + eexists (Some a), _, al'. split; [exact Hrun|]. split; [done|]. split; [naive_solver|]. split; [exact Hinv|].
      exists (fresh_mnt mp). split; [apply lookup_insert_eq|]. split; [done|]. split; [by left|].
      intros b Hb. by apply lookup_insert_ne.
Qed.
