(* ===== verification/MntOps.v ===== *)
(** * The operations of the table of mounts keep its invariant *)

From S2P Require Import Prelude CString Hash Memory CatPath MntTable MntProps.
Open Scope Z_scope.

(** ** Lists *)

Lemma link_inv n s held a m k p P g :
  table_inv n s held -> ms_heap s !! a = Some m -> on k m = true -> k_fld k m = None ->
  ms_aps s !! p = Some P -> (forall l, g l ≡ₚ a :: l) ->
  table_inv n (put_heap (<[a := k_set_fld k (Some p) m]> (ms_heap s))
    (put_aps (alter (fun P => k_set_list k (g (k_list k P)) P) p (ms_aps s)) s)) held.
Proof.
  intros T Ha Hon Hk HP Hg. destruct (ti_ref _ _ _ T _ _ Ha) as [Hr Hb].
  destruct (k_set_fld_keeps k (Some p) m) as (E1 & E2 & E3).
  assert (forall k', on k' (k_set_fld k (Some p) m) = on k' m) as Eon by (intros; unfold on; by rewrite E2).
  assert (forall Q, k_list k Q ≡ₚ k_list k Q) by done.
  eapply (table_inv_set n s held n _ held a m (k_set_fld k (Some p) m)); try done; try lia; rewrite ?E1, ?E3; try done.
  - unfold bits. by rewrite !Eon.
  - apply T.
  - intros k' q Hq. rewrite Eon. rewrite k_fld_set in Hq. case_decide as Ekk.
    + injection Hq as <-. subst k'. by rewrite HP.
    + by eapply (ti_fld _ _ _ T).
  - intros q. cbn. destruct (decide (q = p)) as [->|]; [rewrite lookup_alter_eq|by rewrite lookup_alter_ne].
    by rewrite fmap_is_Some.
  - intros q Q k' HQ. cbn in HQ. destruct (decide (q = p)) as [->|Hqp].
    + rewrite lookup_alter_eq, HP in HQ. injection HQ as <-. exists P. split; [done|]. rewrite k_list_set, k_fld_set.
      destruct (ti_lists _ _ _ T _ _ k' HP) as [Hnd Hl]. case_decide as Ekk.
      * subst k'. assert (a ∉ k_list k P) as Hnot by (intros (m1 & ? & ?)%Hl; simplify_eq; congruence).
        rewrite Hg. split; [by constructor|]. split.
        -- split; [done|]. intros _. apply elem_of_cons. by left.
        -- intros b Hb'. rewrite Hg, elem_of_cons. split; [by intros [->|]|by right].
      * split; [done|]. split; [|done]. rewrite Hl. naive_solver.
    + rewrite lookup_alter_ne in HQ by done. exists Q. split; [done|]. rewrite k_fld_set.
      destruct (ti_lists _ _ _ T _ _ k' HQ) as [Hnd Hl]. split; [done|]. split; [|done]. rewrite Hl.
      case_decide; [subst k'|]; split; intros H'.
      * destruct H' as (m1 & ? & ?). simplify_eq; congruence.
      * congruence.
      * destruct H' as (m1 & ? & ?). by simplify_eq.
      * eauto.
Qed.

(** A mount is taken off its list with the flag, whose reference the caller has now. *)
Definition off_aps (k : kind) (a : positive) (fld : ptr) (aps : gmap positive apoint) : gmap positive apoint :=
  match fld with
  | None => aps
  | Some p => alter (fun P => k_set_list k (filter (fun b => b <> a) (k_list k P)) P) p aps
  end.

Lemma unlink_inv n s held a m m' k :
  table_inv n s held -> ms_heap s !! a = Some m -> on k m = true ->
  m_mp m' = m_mp m -> m_ref m' = m_ref m -> (forall k', on k' m' = on k' m && negb (bool_decide (k = k'))) ->
  (forall k', k_fld k' m' = if decide (k' = k) then None else k_fld k' m) ->
  table_inv n (put_heap (<[a := m']> (ms_heap s)) (put_aps (off_aps k a (k_fld k m) (ms_aps s)) s)) (take_ref a held).
Proof.
  intros T Ha Hon Hmp Href Hons Hflds. destruct (ti_ref _ _ _ T _ _ Ha) as [Hr Hb].
  eapply (table_inv_set n s held n _ _ a m m'); try done; try lia; rewrite ?Href; try done.
  - rewrite take_ref_eq. enough (bits m' = bits m - 1) by lia. unfold bits. rewrite !Hons.
    destruct k; rewrite Hon; unfold bit; simpl; repeat case_match; try lia; simplify_eq/=; rewrite ?andb_true_r in *; congruence.
  - rewrite take_ref_eq. pose proof (proj1 (ti_held _ _ _ T a)). lia.
  - intros b Hb'. by apply take_ref_ne.
  - intros k' q Hq. rewrite Hflds in Hq. case_decide as E; [done|]. rewrite Hons, bool_decide_eq_false_2 by done.
    rewrite andb_true_r. by eapply (ti_fld _ _ _ T).
  - intros q. cbn. unfold off_aps. destruct (k_fld k m) as [p|]; [|done].
    destruct (decide (q = p)) as [->|]; [rewrite lookup_alter_eq|by rewrite lookup_alter_ne]. by rewrite fmap_is_Some.
  - intros q Q k' HQ. cbn in HQ. unfold off_aps in HQ. rewrite Hflds.
    destruct (k_fld k m) as [p|] eqn:Ef; [destruct (decide (q = p)) as [->|Hqp]|].
    + rewrite lookup_alter_eq in HQ. destruct (ms_aps s !! p) as [P|] eqn:HP; [|done]. injection HQ as <-.
      exists P. split; [done|]. rewrite k_list_set. destruct (ti_lists _ _ _ T _ _ k' HP) as [Hnd Hl]. case_decide as Ekk.
      * subst k'. split; [by apply NoDup_filter|]. split; [split; [by intros [? _]%list_elem_of_filter|done]|].
        intros b Hb'. rewrite list_elem_of_filter. naive_solver.
      * split; [done|]. split; [|done]. rewrite Hl. naive_solver.
    + rewrite lookup_alter_ne in HQ by done. exists Q. split; [done|]. destruct (ti_lists _ _ _ T _ _ k' HQ) as [Hnd Hl].
      split; [done|]. split; [|done]. rewrite Hl. case_decide; [subst k'|]; split; intros H'; naive_solver.
    + exists Q. split; [done|]. destruct (ti_lists _ _ _ T _ _ k' HQ) as [Hnd Hl].
      split; [done|]. split; [|done]. rewrite Hl. case_decide; [subst k'|]; split; intros H'; naive_solver.
Qed.

(** A flag is set: a new one takes the reference of the caller. *)
Definition take_flag (k : kind) (m : mnt_list) (f : Z) (a : positive) (held : refs) : refs :=
  if has_flag f (k_flag k) && negb (on k m) then drop_ref a held else held.

Lemma set_flag_inv n s held a m m' k f :
  table_inv n s held -> ms_heap s !! a = Some m -> 0 < held a ->
  (forall k', k' <> k -> has_flag f (k_flag k') = false) ->
  m_mp m' = m_mp m -> m_ref m' = m_ref m -> (forall k', k_fld k' m' = k_fld k' m) ->
  m_flags m' = Z.lor (m_flags m) f ->
  table_inv n (put_heap (<[a := m']> (ms_heap s)) s) (take_flag k m f a held).
Proof.
  intros T Ha Hh Hf Hmp Href Hfld Hfl. destruct (ti_ref _ _ _ T _ _ Ha) as [Hr Hb].
  assert (forall k', on k' m' = on k' m || has_flag f (k_flag k')) as Hon.
  { intros k'. rewrite <- on_lor. unfold on. rewrite Hfl. done. }
  assert (forall b, b <> a -> take_flag k m f a held b = held b) as Hne.
  { intros b Hb'. unfold take_flag. destruct (_ && _); [by apply drop_ref_ne|done]. }
  assert (bits m' + take_flag k m f a held a <= m_ref m /\ 0 <= take_flag k m f a held a) as [H1 H2].
  { assert (forall k', k' <> k -> bit (on k' m || has_flag f (k_flag k')) = bit (on k' m)) as Ho.
    { intros k' Hk. by rewrite (Hf k' Hk), orb_false_r. }
    assert (bit (on k m || has_flag f (k_flag k)) = bit (on k m) + bit (has_flag f (k_flag k) && negb (on k m))) as Hk
      by by destruct (on k m), (has_flag f (k_flag k)).
    assert (bits m' = bits m + bit (has_flag f (k_flag k) && negb (on k m))) as Hbits.
    { unfold bits. rewrite !Hon. destruct k; rewrite Hk, !Ho by done; lia. }
    rewrite Hbits. unfold take_flag. destruct (_ && _); unfold bit; rewrite ?drop_ref_eq; lia. }
  eapply (table_inv_node n s held); try done; try lia; rewrite ?Href; try done.
  intros k' Hk'. by rewrite Hon, Hk'.
Qed.

(** ** The mutex *)

Lemma table_inv_locked n s held b : table_inv n s held -> table_inv n (put_locked b s) held.
Proof. intros []. by split. Qed.

Lemma table_inv_ext n s held held' :
  table_inv n s held -> (forall a, held' a = held a) -> table_inv n s held'.
Proof. intros [] H. split; try done; intros; rewrite ?H; eauto. Qed.

Lemma table_inv_le n n' s held : table_inv n s held -> n <= n' -> table_inv n' s held.
Proof. intros T H. split; try apply T. intros a m Ha. destruct (ti_ref _ _ _ T _ _ Ha). split; [lia|done]. Qed.

Lemma lock_run {B} (k : unit -> MM B) s al :
  ms_locked s = false -> (mnts_hash_mutex_lock ≫= k) s al = k () (put_locked true s) al.
Proof.
  intros H. unfold mnts_hash_mutex_lock, mbind, M_bind, get_state. by rewrite H.
Qed.

Lemma unlock_run {B} (k : unit -> MM B) s al : (mnts_hash_mutex_unlock ≫= k) s al = k () (put_locked false s) al.
Proof. done. Qed.

Lemma keeps_unlock s s' : keeps (put_locked true s) s' -> ms_locked s = false -> keeps s (put_locked false s').
Proof. intros (H1 & H2 & H3) H. split; [by rewrite H|]. split; [exact H2|exact H3]. Qed.

Lemma keeps_ap s s' p P : keeps s s' -> ms_aps s !! p = Some P ->
  exists P', ms_aps s' !! p = Some P' /\ ap_path P' = ap_path P /\ ap_parent P' = ap_parent P.
Proof.
  intros (_ & _ & H) HP. specialize (H p). rewrite HP in H. destruct (ms_aps s' !! p) as [P'|]; [|done].
  simpl in H. injection H as H1 H2 _. eauto.
Qed.

Lemma load_ap_run {B} (k : apoint -> MM B) s al p P :
  ms_aps s !! p = Some P -> (load_ap p ≫= k) s al = k P s al.
Proof. intros H. unfold load_ap, mbind, M_bind. by rewrite H. Qed.

Lemma keeps_node s h : keeps s (put_heap h s).
Proof. done. Qed.

Lemma keeps_link k g p s h :
  keeps s (put_heap h (put_aps (alter (fun P => k_set_list k (g (k_list k P)) P) p (ms_aps s)) s)).
Proof.
  split; [done|]. split; [done|]. intros q. cbn. destruct (decide (q = p)) as [->|].
  - rewrite lookup_alter_eq. destruct (ms_aps s !! p) as [[]|]; [|done]. by destruct k.
  - by rewrite lookup_alter_ne.
Qed.

Lemma keeps_off k a fld s h : keeps s (put_heap h (put_aps (off_aps k a fld (ms_aps s)) s)).
Proof.
  unfold off_aps. destruct fld as [p|]; [apply keeps_link|]. done.
Qed.

(** ** Operations that look up *)

Lemma lookup_mount_run n s held mp al :
  table_inv n s held -> n < 2 ^ 32 - 1 -> ms_locked s = false ->
  exists r s', mnts_lookup_mount mp s al = Some (r, s', al) /\ keeps s s' /\
    table_inv (n + 1) s' (match r with Some a => take_ref a held | None => held end) /\
    match r with Some a => path_is s' mp a | None => s' = s end.
Proof.
  intros T Hn Hu. unfold mnts_lookup_mount. rewrite lock_run by done.
  pose proof (table_inv_locked _ _ _ true T) as T'. unfold __mnts_lookup_mount.
  destruct (mnts_lookup_reads _ _ _ mp T') as (r & Hr & Hspec).
  assert (forall k : ptr -> MM ptr, ((this ← mnts_lookup mp;
    match this with Some a => __mnts_get_mount a;; mret this | None => mret None end) ≫= k) (put_locked true s) al
    = ((match r with Some a => __mnts_get_mount a;; mret r | None => mret None end) ≫= k) (put_locked true s) al) as Hstep.
  { intros k. unfold mbind, M_bind. by rewrite Hr. }
  rewrite Hstep. destruct r as [a|].
  - destruct Hspec as (m & Ha & Hmp). destruct (get_ref_run _ _ _ a m al T' Hn Ha) as (s' & H1 & H2 & H3 & H4 & _).
    unfold mbind at 1, M_bind at 1. rewrite (bind_some _ _ _ _ _ _ _ H1). simpl.
    eexists (Some a), (put_locked false s'). split; [done|]. split; [by apply keeps_unlock|].
    split; [by apply table_inv_locked|]. by exists (bump m).
  - exists None, s. split; [|split; [done|split; [by apply (table_inv_le n); [|lia]|done]]].
    simpl. unfold mbind, M_bind. simpl. do 3 f_equal. destruct s. simpl in Hu. by rewrite Hu.
Qed.

Lemma put_run n s held a al :
  table_inv n s held -> n < 2 ^ 32 -> ms_locked s = false -> 0 < held a ->
  exists s', mnts_put_mount (Some a) s al = Some ((), s', al) /\ keeps s s' /\ table_inv n s' (drop_ref a held).
Proof.
  intros T Hn Hu Hh. unfold mnts_put_mount. rewrite lock_run by done.
  destruct (put_mount_run n _ held a al (table_inv_locked _ _ _ true T) Hh Hn) as (s' & H1 & H2 & H3 & _).
  rewrite (bind_some _ _ _ _ _ _ _ H1). exists (put_locked false s'). split; [done|].
  split; [by apply keeps_unlock|by apply table_inv_locked].
Qed.

Lemma keeps_unlocked s s' : keeps s s' -> ms_locked s = false -> ms_locked s' = false.
Proof. intros (-> & _) H. exact H. Qed.

Lemma find_with_flag_run n s held mp flag al :
  table_inv n s held -> n < 2 ^ 32 - 1 -> ms_locked s = false ->
  exists r s', find_with_flag mp flag s al = Some (r, s', al) /\ keeps s s' /\
    table_inv (n + 1) s' (match r with Some a => take_ref a held | None => held end) /\
    match r with
    | Some a => exists m, ms_heap s' !! a = Some m /\ m_mp m = mp /\ has_flag (m_flags m) flag = true
    | None => True
    end.
Proof.
  intros T Hn Hu. unfold find_with_flag.
  destruct (lookup_mount_run n s held mp al T Hn Hu) as (r & s1 & H1 & K1 & T1 & Hp).
  rewrite (bind_some _ _ _ _ _ _ _ H1). destruct r as [a|].
  - destruct Hp as (m & Ha & Hmp). rewrite (bind_load (HH := mstate_heap) _ _ _ _ m) by done.
    destruct (has_flag (m_flags m) flag) eqn:Hf.
    + exists (Some a), s1. split; [done|]. split; [done|]. split; [done|]. eauto.
    + destruct (put_run _ _ _ a al T1 ltac:(lia) (keeps_unlocked _ _ K1 Hu)) as (s2 & H2 & K2 & T2).
      { rewrite take_ref_eq. pose proof (proj1 (ti_held _ _ _ T a)). lia. }
      rewrite (bind_some _ _ _ _ _ _ _ H2). exists None, s2. split; [done|]. split; [by etrans|].
      split; [|done]. eapply table_inv_ext; [exact T2|]. intros b. unfold drop_ref, take_ref. case_decide; lia.
  - exists None, s1. split; [done|]. done.
Qed.

(** ** Operations that take a mount off a list *)

Definition del_kind (k : kind) : positive -> MM unit :=
  match k with KMount => del_mount | KSub => del_submount | KAmd => del_amdmount end.

Lemma del_run {B} k a s m al (c : unit -> MM B) :
  ms_heap s !! a = Some m ->
  (del_kind k a ≫= c) s al
  = c () (put_heap (<[a := k_set_fld k None m]> (ms_heap s)) (put_aps (off_aps k a (k_fld k m) (ms_aps s)) s)) al.
Proof.
  intros Ha. assert (k_fld k m = None -> k_set_fld k None m = m) as Hnone by (destruct m, k; simpl; by intros ->).
  destruct (k_fld k m) as [p|] eqn:Ek.
  - destruct k; simpl in *; unfold del_mount, del_submount, del_amdmount, update_ap;
      unfold mbind, M_bind, load, update; cbn [heap mstate_heap]; rewrite Ha; cbn; rewrite Ek; cbn; by rewrite Ha.
  - rewrite Hnone by done. simpl off_aps. rewrite insert_id by done.
    destruct k; simpl in *; unfold del_mount, del_submount, del_amdmount;
      unfold mbind, M_bind, load; cbn [heap mstate_heap]; rewrite Ha; cbn; rewrite Ek; cbn; by destruct s.
Qed.

Lemma unlink_put_run n s held a m m' k al :
  table_inv n s held -> n < 2 ^ 32 -> ms_heap s !! a = Some m -> on k m = true ->
  m_mp m' = m_mp m -> m_ref m' = m_ref m -> (forall k', on k' m' = on k' m && negb (bool_decide (k = k'))) ->
  (forall k', k_fld k' m' = if decide (k' = k) then None else k_fld k' m) ->
  exists s', __mnts_put_mount a (put_heap (<[a := m']> (ms_heap s)) (put_aps (off_aps k a (k_fld k m) (ms_aps s)) s)) al
    = Some ((), s', al) /\ keeps s s' /\ table_inv n s' held /\ (forall b, b <> a -> ms_heap s' !! b = ms_heap s !! b) /\
    forall m2, ms_heap s' !! a = Some m2 -> on k m2 = false.
Proof.
  intros T Hn Ha Hon Hmp Href Hons Hflds. pose proof (unlink_inv n s held a m m' k T Ha Hon Hmp Href Hons Hflds) as T1.
  destruct (put_mount_run n _ _ a al T1) as (s' & H1 & H2 & H3 & H4 & H5).
  { rewrite take_ref_eq. pose proof (proj1 (ti_held _ _ _ T a)). lia. }
  { done. }
  exists s'. split; [exact H1|]. split; [etrans; [apply (keeps_off k a (k_fld k m))|exact H3]|].
  split; [eapply table_inv_ext; [exact H2|]; intros b; unfold drop_ref, take_ref; case_decide; lia|].
  split; [intros b Hb; rewrite H4 by done; by apply lookup_insert_ne|].
  intros m2 H. rewrite (H5 m' m2 k); [|apply lookup_insert_eq|done].
  rewrite Hons, bool_decide_eq_true_2 by done. apply andb_false_r.
Qed.

(** * Every operation on the table of mounts runs and keeps the invariant *)

(** ** Removal *)

Lemma clear_keeps k m :
  m_mp (clear_flags (k_flag k) m) = m_mp m /\ m_ref (clear_flags (k_flag k) m) = m_ref m /\
  forall k', k_fld k' (clear_flags (k_flag k) m) = k_fld k' m.
Proof. split; [done|]. split; [done|]. by intros []. Qed.

(** The flag of a list is taken from the mount of a path, and its reference with it;
    [f] is what else is changed. *)
Lemma drop_kind_run n s held k mp (body : positive -> MM unit) (f : mnt_list -> mnt_list) al :
  table_inv n s held -> n < 2 ^ 32 ->
  (forall m, m_mp (f m) = m_mp m /\ m_ref (f m) = m_ref m /\ m_flags (f m) = m_flags m /\ forall k', k_fld k' (f m) = k_fld k' m) ->
  (forall a m s al, ms_heap s !! a = Some m -> on k m = true ->
     body a s al = __mnts_put_mount a
       (put_heap (<[a := f (k_set_fld k None (clear_flags (k_flag k) m))]> (ms_heap s))
         (put_aps (off_aps k a (k_fld k m) (ms_aps s)) s)) al) ->
  exists s', (this ← mnts_lookup mp;
     match this with
     | None => mret ()
     | Some a => m ← load a; if has_flag (m_flags m) (k_flag k) then body a else mret ()
     end) s al = Some ((), s', al) /\ keeps s s' /\ table_inv n s' held /\
    (forall b, (forall m, ms_heap s !! b = Some m -> m_mp m <> mp) -> ms_heap s' !! b = ms_heap s !! b) /\
    forall b m m2, ms_heap s !! b = Some m -> m_mp m = mp -> ms_heap s' !! b = Some m2 -> on k m2 = false.
Proof.
  intros T Hn Hf Hbody. destruct (mnts_lookup_reads n s held mp T) as (r & Hr & Hspec).
  rewrite (reads_bind _ _ _ _ _ Hr). destruct r as [a|].
  2: { exists s. do 4 (split; [done|]). intros b m0 m2 Hb Hmp. by destruct (Hspec b (ex_intro _ m0 (conj Hb Hmp))). }
  destruct Hspec as (m & Ha & Hmp). rewrite (bind_load (HH := mstate_heap) _ _ _ _ m) by done.
  change (has_flag (m_flags m) (k_flag k)) with (on k m). destruct (on k m) eqn:Hon.
  2: { exists s. do 4 (split; [done|]). intros b m0 m2 Hb E Hb2. assert (b = a) as -> by (eapply (ti_unique _ _ _ T); eauto; congruence).
       by simplify_eq. }
  rewrite (Hbody _ m) by done. destruct (Hf (k_set_fld k None (clear_flags (k_flag k) m))) as (F1 & F2 & F3 & F4).
  destruct (k_set_fld_keeps k None (clear_flags (k_flag k) m)) as (E1 & E2 & E3).
  destruct (unlink_put_run n s held a m (f (k_set_fld k None (clear_flags (k_flag k) m))) k al)
    as (s' & H1 & H2 & H3 & H4 & H5); [done..| | | | |].
  - by rewrite F1, E1.
  - by rewrite F2, E3.
  - intros k'. rewrite <- on_clear. unfold on. by rewrite F3, E2.
  - intros k'. rewrite F4, k_fld_set. case_decide; [done|]. apply clear_keeps.
  - exists s'. split; [exact H1|]. split; [done|]. split; [done|]. split; [intros b Hb; apply H4; intros ->; by apply (Hb m)|].
    intros b m0 m2 Hb E Hb2. assert (b = a) as -> by (eapply (ti_unique _ _ _ T); eauto; congruence). by apply H5.
Qed.

(** The state after the changes of one mount is that of one change. *)
Lemma put_heap_twice a m1 m2 h s :
  put_heap (<[a := m2]> (ms_heap (put_heap (<[a := m1]> h) s))) (put_heap (<[a := m1]> h) s) = put_heap (<[a := m2]> h) s.
Proof. cbn. by rewrite insert_insert_eq. Qed.

Lemma remove_submount_run n s held mp al :
  table_inv n s held -> n < 2 ^ 32 -> ms_locked s = false ->
  exists s', mnts_remove_submount mp s al = Some ((), s', al) /\ keeps s s' /\ table_inv n s' held.
Proof.
  intros T Hn Hu. unfold mnts_remove_submount. rewrite lock_run by done.
  destruct (drop_kind_run n (put_locked true s) held KSub mp
    (fun a => update a (clear_flags MNTS_AUTOFS);; update a (set_m_ap None);; del_submount a;; __mnts_put_mount a)
    (set_m_ap None) al (table_inv_locked _ _ _ true T) Hn) as (s' & H1 & H2 & H3 & _).
  - by intros m.
  - intros a m s0 al0 Ha Hon. rewrite (bind_update (HH := mstate_heap) _ _ _ _ m) by done.
    rewrite (bind_update (HH := mstate_heap) _ _ _ _ (clear_flags MNTS_AUTOFS m)) by apply lookup_insert_eq.
    rewrite (del_run KSub a _ (set_m_ap None (clear_flags MNTS_AUTOFS m))) by apply lookup_insert_eq.
    f_equal. cbn. by rewrite !insert_insert_eq.
  - rewrite bind_bind, (bind_some _ _ _ _ _ _ _ H1). eexists. split; [reflexivity|].
    split; [by apply keeps_unlock|by apply table_inv_locked].
Qed.

Lemma remove_mount_run n s held mp al :
  table_inv n s held -> n < 2 ^ 32 -> ms_locked s = false ->
  exists s', mnts_remove_mount mp MNTS_MOUNTED s al = Some ((), s', al) /\ keeps s s' /\ table_inv n s' held.
Proof.
  intros T Hn Hu. unfold mnts_remove_mount. rewrite lock_run by done.
  destruct (drop_kind_run n (put_locked true s) held KMount mp
    (fun a => update a (clear_flags MNTS_MOUNTED);; m ← load a;
       (if has_flag (m_flags m) MNTS_MOUNTED then mret () else del_mount a);; __mnts_put_mount a)
    id al (table_inv_locked _ _ _ true T) Hn) as (s' & H1 & H2 & H3 & _).
  - done.
  - intros a m s0 al0 Ha Hon. rewrite (bind_update (HH := mstate_heap) _ _ _ _ m) by done.
    rewrite (bind_load (HH := mstate_heap) _ _ _ _ (clear_flags MNTS_MOUNTED m)) by apply lookup_insert_eq.
    change (has_flag (m_flags (clear_flags MNTS_MOUNTED m)) MNTS_MOUNTED) with (on KMount (clear_flags (k_flag KMount) m)).
    rewrite on_clear, bool_decide_eq_true_2, andb_false_r by done.
    rewrite (del_run KMount a _ (clear_flags MNTS_MOUNTED m)) by apply lookup_insert_eq.
    f_equal. cbn. by rewrite !insert_insert_eq.
  - rewrite bind_bind, (bind_some _ _ _ _ _ _ _ H1). eexists. split; [reflexivity|].
    split; [by apply keeps_unlock|by apply table_inv_locked].
Qed.

Lemma __remove_amdmount_run n s held mp al :
  table_inv n s held -> n < 2 ^ 32 ->
  exists s', __mnts_remove_amdmount mp s al = Some ((), s', al) /\ keeps s s' /\ table_inv n s' held /\
    (forall b, (forall m, ms_heap s !! b = Some m -> m_mp m <> mp) -> ms_heap s' !! b = ms_heap s !! b) /\
    forall b m m2, ms_heap s !! b = Some m -> m_mp m = mp -> ms_heap s' !! b = Some m2 -> on KAmd m2 = false.
Proof.
  intros T Hn. destruct (drop_kind_run n s held KAmd mp
    (fun a => update a (clear_flags MNTS_AMD_MOUNT);; del_amdmount a;; update a (set_m_amd None None None None 0);;
       __mnts_put_mount a) (set_m_amd None None None None 0) al T Hn) as (s' & H1 & H2 & H3 & H4).
  - by intros m.
  - intros a m s0 al0 Ha Hon. rewrite (bind_update (HH := mstate_heap) _ _ _ _ m) by done.
    rewrite (del_run KAmd a _ (clear_flags MNTS_AMD_MOUNT m)) by apply lookup_insert_eq.
    rewrite (bind_update (HH := mstate_heap) _ _ _ _ (k_set_fld KAmd None (clear_flags MNTS_AMD_MOUNT m)))
      by apply lookup_insert_eq.
    f_equal. cbn. by rewrite !insert_insert_eq.
  - exists s'. split; [|done]. rewrite <- H1. unfold __mnts_remove_amdmount, mbind, M_bind.
    destruct (mnts_lookup mp s al) as [[[[a|] s1] al1]|]; [|done..].
    destruct (load a s1 al1) as [[[m s2] al2]|]; [|done].
    change (k_flag KAmd) with MNTS_AMD_MOUNT. by destruct (has_flag (m_flags m) MNTS_AMD_MOUNT).
Qed.

Lemma remove_amdmount_run n s held mp al :
  table_inv n s held -> n < 2 ^ 32 -> ms_locked s = false ->
  exists s', mnts_remove_amdmount mp s al = Some ((), s', al) /\ keeps s s' /\ table_inv n s' held /\
    (forall b, (forall m, ms_heap s !! b = Some m -> m_mp m <> mp) -> ms_heap s' !! b = ms_heap s !! b) /\
    forall b m m2, ms_heap s !! b = Some m -> m_mp m = mp -> ms_heap s' !! b = Some m2 -> on KAmd m2 = false.
Proof.
  intros T Hn Hu. unfold mnts_remove_amdmount. rewrite lock_run by done.
  destruct (__remove_amdmount_run n _ held mp al (table_inv_locked _ _ _ true T) Hn) as (s' & H1 & H2 & H3 & H4).
  rewrite (bind_some _ _ _ _ _ _ _ H1). eexists. split; [reflexivity|].
  split; [by apply keeps_unlock|]. split; [by apply table_inv_locked|done].
Qed.

(** ** Addition *)

Lemma table_inv_weaken n s held held' :
  table_inv n s held -> (forall b, 0 <= held' b <= held b) -> table_inv n s held'.
Proof.
  intros T H. split; try apply T.
  - intros a m Ha. destruct (ti_ref _ _ _ T _ _ Ha). specialize (H a). split; lia.
  - intros a. specialize (H a). split; [lia|]. intros ?. apply (ti_held _ _ _ T a). lia.
Qed.

Lemma take_flag_le k m f a held b :
  0 <= held b -> held b <= take_flag k m f a (take_ref a held) b <= take_ref a held b.
Proof.
  intros H. unfold take_flag. destruct (_ && _); unfold drop_ref, take_ref; repeat case_decide; subst; lia.
Qed.

Lemma take_flag_none k m f a held : has_flag f (k_flag k) = false -> take_flag k m f a held = held.
Proof. intros H. unfold take_flag. by rewrite H. Qed.

(** The references that a caller has after it added a mount with flags. *)
Definition added (flags : Z) (r : ptr) (held : refs) : refs :=
  match r with
  | Some a => if has_flag flags MNTS_MOUNTED then held else take_ref a held
  | None => held
  end.

Lemma added_inv n s held k m f a :
  (forall b, 0 <= held b) -> table_inv n s (take_flag k m f a (take_ref a held)) ->
  table_inv n s (if has_flag f (k_flag k) then held else take_ref a held).
Proof.
  intros H0 T. destruct (has_flag f (k_flag k)) eqn:Hf.
  - apply (table_inv_weaken _ _ _ _ T). intros b. pose proof (take_flag_le k m f a held b (H0 b)). specialize (H0 b). lia.
  - by rewrite take_flag_none in T.
Qed.

Lemma malloc_cases (s : mstate) al :
  (exists al1, malloc s al = Some (true, s, al1) /\ (al = [] -> al1 = [])) \/
  exists al1, malloc s al = Some (false, s, al1) /\ al <> [].
Proof. destruct al as [|[] al]; [left|left|right]; by eexists. Qed.

(** A flag is set and the mount is put on the list of a mount point, unless it is on one. *)
Lemma flag_link_inv n s held a m m2 k f p P g :
  table_inv n s (take_ref a held) -> (forall b, 0 <= held b) -> ms_heap s !! a = Some m -> ms_aps s !! p = Some P ->
  (forall k', k' <> k -> has_flag f (k_flag k') = false) -> (forall l, g l ≡ₚ a :: l) ->
  m_mp m2 = m_mp m -> m_ref m2 = m_ref m -> (forall k', k_fld k' m2 = k_fld k' m) -> m_flags m2 = Z.lor (m_flags m) f ->
  let s2 := put_heap (<[a := m2]> (ms_heap s)) s in
  let held' := if has_flag f (k_flag k) then held else take_ref a held in
  table_inv n s2 held' /\
  (on k m2 = true -> k_fld k m2 = None ->
   table_inv n (put_heap (<[a := k_set_fld k (Some p) m2]> (ms_heap s2))
     (put_aps (alter (fun P => k_set_list k (g (k_list k P)) P) p (ms_aps s2)) s2)) held').
Proof.
  intros T H0 Ha HP Hother Hg E1 E2 E3 E4 s2 held'.
  assert (table_inv n s2 held') as T2.
  { apply (added_inv n s2 held k m f a H0). eapply (set_flag_inv n s _ a m m2 k f); try done.
    rewrite take_ref_eq. specialize (H0 a). lia. }
  split; [done|]. intros Hon Hk. eapply link_inv; [exact T2|apply lookup_insert_eq|done..].
Qed.

Lemma add_flags_run n s held a m ap P flags al :
  table_inv n s (take_ref a held) -> (forall b, 0 <= held b) -> ms_heap s !! a = Some m -> ms_aps s !! ap = Some P ->
  has_flag flags MNTS_AUTOFS = false -> has_flag flags MNTS_AMD_MOUNT = false ->
  exists s', (update a (fun m => set_m_flags (Z.lor (m_flags m) flags) m);;
    m ← load a;
    match m_mount m with
    | Some _ => mret ()
    | None =>
        if has_flag (m_flags m) MNTS_MOUNTED then
          update_ap ap (fun p => set_ap_mounts (a :: ap_mounts p) p);; update a (set_m_mount (Some ap))
        else mret ()
    end) s al = Some ((), s', al) /\ keeps s s' /\ table_inv n s' (added flags (Some a) held) /\
    exists m', ms_heap s' !! a = Some m' /\ m_mp m' = m_mp m /\ (has_flag flags MNTS_MOUNTED = true -> k_fld KMount m' <> None).
Proof.
  intros T H0 Ha HP Hf1 Hf2. rewrite (bind_update (HH := mstate_heap) _ _ _ _ m) by done.
  set (m2 := set_m_flags (Z.lor (m_flags m) flags) m).
  rewrite (bind_load (HH := mstate_heap) _ _ _ _ m2) by apply lookup_insert_eq.
  destruct (flag_link_inv n s held a m m2 KMount flags ap P (cons a)) as [T2 T3]; try done; [by intros []|].
  assert (on KMount m2 = on KMount m || has_flag flags MNTS_MOUNTED) as Hon by apply (on_lor KMount).
  change (has_flag (m_flags m2) MNTS_MOUNTED) with (on KMount m2). destruct (m_mount m2) as [q|] eqn:Eq.
  - eexists. split; [reflexivity|]. split; [done|]. split; [exact T2|]. exists m2.
    split; [apply lookup_insert_eq|]. split; [done|]. intros _. change (k_fld KMount m2) with (m_mount m2). by rewrite Eq.
  - destruct (on KMount m2) eqn:Em.
    + unfold update_ap. rewrite bind_modify. rewrite (update_run (HH := mstate_heap) _ _ _ m2) by apply lookup_insert_eq.
      eexists. split; [reflexivity|]. split; [exact (keeps_link KMount (cons a) ap (put_heap (<[a := m2]> (ms_heap s)) s) _)|].
      split; [by apply T3|]. eexists. split; [apply lookup_insert_eq|]. done.
    + eexists. split; [reflexivity|]. split; [done|]. split; [exact T2|]. exists m2.
      split; [apply lookup_insert_eq|]. split; [done|]. intros Hf. by rewrite Hf, orb_true_r in Hon.
Qed.

Lemma add_mount_run n s held ap P name flags al :
  table_inv n s held -> 0 <= n < 2 ^ 32 - 1 -> ms_locked s = false -> ms_aps s !! ap = Some P ->
  has_flag flags MNTS_AUTOFS = false -> has_flag flags MNTS_AMD_MOUNT = false ->
  exists r s' al', mnts_add_mount ap name flags s al = Some (r, s', al') /\ keeps s s' /\
    table_inv (n + 1) s' (added flags r held) /\ (al = [] -> r <> None) /\
    match r with
    | Some a => exists m, ms_heap s' !! a = Some m /\
        m_mp m = (if hd_char name =a "/" then name else ap_path P ++ str "/" ++ name) /\
        (has_flag flags MNTS_MOUNTED = true -> k_fld KMount m <> None)
    | None => True
    end.
Proof.
  intros T Hn Hu HP Hf1 Hf2. unfold mnts_add_mount. rewrite (load_ap_run _ _ _ _ P) by done.
  set (mp := if hd_char name =a "/" then _ else _).
  destruct (malloc_cases s al) as [(al1 & Hm & Hal)|(al1 & Hm & Hal)].
  2: { rewrite (bind_some _ _ _ _ _ _ _ Hm). exists None, s, al1. split; [done|]. split; [done|].
       split; [by apply (table_inv_le n); [|lia]|]. done. }
  rewrite (bind_some _ _ _ _ _ _ _ Hm). cbn [negb]. rewrite lock_run by done.
  destruct (mnts_get_mount_run n _ held mp al1 (table_inv_locked _ _ _ true T) Hn) as (r & s1 & al2 & H1 & K1 & Hr & Hs).
  rewrite (bind_some _ _ _ _ _ _ _ H1). destruct r as [a|]; cycle 1.
  { subst s1. exists None. eexists _, al2. split; [reflexivity|]. split; [by apply keeps_unlock|].
    split; [do 2 apply table_inv_locked; apply (table_inv_le n); [done|lia]|]. naive_solver. }
  destruct Hs as (T1 & m & Ha & Hmp & Hold). pose proof (fun b => proj1 (ti_held _ _ _ T b)) as H0.
  destruct (keeps_ap _ _ ap P K1 HP) as (P1 & HP1 & _).
  destruct (add_flags_run (n + 1) s1 held a m ap P1 flags al2 T1 H0 Ha HP1 Hf1 Hf2) as (s2 & H2 & K2 & T2 & m' & Hm' & E & Hl).
  rewrite (bind_some _ _ _ _ _ _ _ H2). exists (Some a). eexists _, al2. split; [reflexivity|].
  split; [apply keeps_unlock; [by etrans|done]|]. split; [by apply table_inv_locked|]. split; [done|].
  exists m'. rewrite E. done.
Qed.

Lemma submount_flags_run n s held a m parent Q (p : apoint) al :
  table_inv n s (take_ref a held) -> (forall b, 0 <= held b) -> ms_heap s !! a = Some m ->
  ap_parent p = Some parent -> ms_aps s !! parent = Some Q ->
  exists s', (update a (fun m => set_m_flags (Z.lor (m_flags m) MNTS_AUTOFS) m);;
    m ← load a;
    match m_submount m with
    | Some _ => mret ()
    | None =>
        parent ← from_option_M (ap_parent p);
        _ ← load_ap parent;
        update_ap parent (fun p => set_ap_submounts (ap_submounts p ++ [a]) p);;
        update a (set_m_submount (Some parent))
    end) s al = Some ((), s', al) /\ keeps s s' /\ table_inv n s' held /\
    exists m', ms_heap s' !! a = Some m' /\ m_mp m' = m_mp m /\ m_ap m' = m_ap m /\ k_fld KSub m' <> None.
Proof.
  intros T H0 Ha Hp HQ. rewrite (bind_update (HH := mstate_heap) _ _ _ _ m) by done.
  set (m2 := set_m_flags (Z.lor (m_flags m) MNTS_AUTOFS) m).
  rewrite (bind_load (HH := mstate_heap) _ _ _ _ m2) by apply lookup_insert_eq.
  destruct (flag_link_inv n s held a m m2 KSub MNTS_AUTOFS parent Q (fun l => l ++ [a])) as [T2 T3];
    try done; [by intros []|intros l; by rewrite Permutation_app_comm|].
  assert (on KSub m2 = true) as Hon by (unfold m2; rewrite on_lor; apply orb_true_r).
  destruct (m_submount m2) as [q|] eqn:Eq.
  - eexists. split; [reflexivity|]. split; [done|]. split; [exact T2|]. exists m2.
    split; [apply lookup_insert_eq|]. split; [done|]. split; [done|].
    change (k_fld KSub m2) with (m_submount m2). by rewrite Eq.
  - rewrite Hp, bind_from_some.
    rewrite (load_ap_run _ _ _ _ Q) by done. unfold update_ap. rewrite bind_modify.
    rewrite (update_run (HH := mstate_heap) _ _ _ m2) by apply lookup_insert_eq.
    eexists. split; [reflexivity|].
    split; [exact (keeps_link KSub (fun l => l ++ [a]) parent (put_heap (<[a := m2]> (ms_heap s)) s) _)|].
    split; [by apply T3|]. eexists. split; [apply lookup_insert_eq|]. done.
Qed.

Lemma amd_flags_run n s held a m ap P entry al :
  table_inv n s (take_ref a held) -> (forall b, 0 <= held b) -> ms_heap s !! a = Some m -> ms_aps s !! ap = Some P ->
  exists s', (update a (set_m_amd (e_fs entry) (e_pref entry) (e_type entry) (e_opts entry) (e_cache_opts entry));;
    update a (fun m => set_m_flags (Z.lor (m_flags m) MNTS_AMD_MOUNT) m);;
    m ← load a;
    match m_amdmount m with
    | Some _ => mret ()
    | None =>
        _ ← load_ap ap;
        update_ap ap (fun p => set_ap_amdmounts (ap_amdmounts p ++ [a]) p);;
        update a (set_m_amdmount (Some ap))
    end) s al = Some ((), s', al) /\ keeps s s' /\ table_inv n s' held /\
    exists m', ms_heap s' !! a = Some m' /\ m_mp m' = m_mp m /\ m_ext_mp m' = e_fs entry /\ m_amd_pref m' = e_pref entry /\
      m_amd_type m' = e_type entry /\ m_amd_opts m' = e_opts entry /\ k_fld KAmd m' <> None /\
      forall b, b <> a -> ms_heap s' !! b = ms_heap s !! b.
Proof.
  intros T H0 Ha HP. rewrite (bind_update (HH := mstate_heap) _ _ _ _ m) by done.
  set (m1 := set_m_amd _ _ _ _ _ m). rewrite (bind_update (HH := mstate_heap) _ _ _ _ m1) by apply lookup_insert_eq.
  rewrite put_heap_twice. set (m2 := set_m_flags _ m1).
  rewrite (bind_load (HH := mstate_heap) _ _ _ _ m2) by apply lookup_insert_eq.
  destruct (flag_link_inv n s held a m m2 KAmd MNTS_AMD_MOUNT ap P (fun l => l ++ [a])) as [T2 T3];
    try done; [by intros []|intros l; by rewrite Permutation_app_comm|].
  assert (on KAmd m2 = true) as Hon by (unfold m2; rewrite on_lor; apply orb_true_r).
  destruct (m_amdmount m2) as [q|] eqn:Eq.
  - eexists. split; [reflexivity|]. split; [done|]. split; [exact T2|]. exists m2.
    split; [apply lookup_insert_eq|]. do 5 (split; [done|]).
    split; [change (k_fld KAmd m2) with (m_amdmount m2); by rewrite Eq|]. intros b Hb. by apply lookup_insert_ne.
  - rewrite (load_ap_run _ _ _ _ P) by done. unfold update_ap. rewrite bind_modify.
    rewrite (update_run (HH := mstate_heap) _ _ _ m2) by apply lookup_insert_eq.
    eexists. split; [reflexivity|].
    split; [exact (keeps_link KAmd (fun l => l ++ [a]) ap (put_heap (<[a := m2]> (ms_heap s)) s) _)|].
    split; [by apply T3|]. eexists. split; [apply lookup_insert_eq|]. do 6 (split; [done|]).
    intros b Hb. cbn. by rewrite !lookup_insert_ne by done.
Qed.

(** What [mnts_add_submount] does with the mount of the path. *)
Definition claim_submount (ap : positive) (p : apoint) (a : positive) (m : mnt_list) : MM bool :=
  match m_ap m with
  | None => update a (set_m_ap (Some ap));; mret false
  | Some other =>
      if negb (bool_decide (other = ap)) then mret true
      else o ← load_ap other; mret (negb (bool_decide (ap_parent o = ap_parent p)))
  end.

Lemma claim_submount_run n s held ap p p1 a m al :
  table_inv n s held -> ms_heap s !! a = Some m -> ms_aps s !! ap = Some p1 -> ap_parent p1 = ap_parent p ->
  exists c s', claim_submount ap p a m s al = Some (c, s', al) /\ keeps s s' /\ table_inv n s' held /\
    (if c : bool then exists other, m_ap m = Some other /\ other <> ap
     else exists m', ms_heap s' !! a = Some m' /\ m_mp m' = m_mp m /\ m_ap m' = Some ap).
Proof.
  intros T Ha Hp Hpp. destruct (ti_ref _ _ _ T _ _ Ha) as [Hr Hb]. unfold claim_submount. destruct (m_ap m) as [other|] eqn:Eo.
  - destruct (bool_decide_reflect (other = ap)) as [->|Hne]; simpl.
    + rewrite (load_ap_run _ _ _ _ p1) by done. rewrite bool_decide_eq_true_2 by done. simpl. exists false, s. repeat (split; [done|]). eauto.
    + exists true, s. repeat (split; [done|]). eauto.
  - rewrite (bind_update (HH := mstate_heap) _ _ _ _ m) by done. eexists false, _. split; [reflexivity|]. split; [done|]. split.
    + eapply (table_inv_node n s held); try done; try lia. apply (ti_held _ _ _ T a).
    + eexists. split; [apply lookup_insert_eq|]. done.
Qed.

(** A conflict is a path that is a submount of another mount point; the mount that is
    returned then is not one that the caller has a reference for. *)
Lemma add_submount_run n s held ap p parent al :
  table_inv n s held -> 0 <= n < 2 ^ 32 - 1 -> ms_locked s = false -> ms_aps s !! ap = Some p ->
  ap_parent p = Some parent -> is_Some (ms_aps s !! parent) ->
  exists r s' al', mnts_add_submount ap s al = Some (r, s', al') /\ keeps s s' /\ table_inv (n + 1) s' held /\
    (al = [] -> r <> None) /\
    forall a, r = Some a ->
      (exists m', ms_heap s' !! a = Some m' /\ m_mp m' = ap_path p /\ m_ap m' = Some ap /\ k_fld KSub m' <> None) \/
      exists m other, ms_heap s !! a = Some m /\ m_ap m = Some other /\ other <> ap.
Proof.
  intros T Hn Hu Hp Hpar [Q HQ]. unfold mnts_add_submount. rewrite lock_run by done. rewrite (load_ap_run _ _ _ _ p) by done.
  destruct (mnts_get_mount_run n _ held (ap_path p) al (table_inv_locked _ _ _ true T) Hn) as (r & s1 & al1 & H1 & K1 & Hr & Hs).
  rewrite (bind_some _ _ _ _ _ _ _ H1). destruct r as [a|]; cycle 1.
  { subst s1. eexists None, _, al1. split; [reflexivity|]. split; [by apply keeps_unlock|].
    split; [do 2 apply table_inv_locked; apply (table_inv_le n); [done|lia]|]. naive_solver. }
  destruct Hs as (T1 & m & Ha & Hmp & Hold). pose proof (fun b => proj1 (ti_held _ _ _ T b)) as H0.
  rewrite (bind_load (HH := mstate_heap) _ _ _ _ m) by done. fold (claim_submount ap p a m).
  destruct (keeps_ap _ _ ap p K1 Hp) as (p1 & Hp1 & _ & Ep).
  destruct (claim_submount_run (n + 1) s1 _ ap p p1 a m al1 T1 Ha Hp1 Ep) as (c & s2 & H2 & K2 & T2 & Hc).
  rewrite (bind_some _ _ _ _ _ _ _ H2). destruct c.
  - destruct (put_mount_run (n + 1) s2 _ a al1 T2) as (s3 & H3 & T3 & K3 & _); [rewrite take_ref_eq; specialize (H0 a); lia|lia|].
    rewrite (bind_some _ _ _ _ _ _ _ H3). eexists (Some a), _, al1. split; [reflexivity|].
    split; [apply keeps_unlock; [by do 2 (etrans; [eassumption|])|done]|]. split.
    { apply table_inv_locked. eapply table_inv_ext; [exact T3|]. intros b. unfold drop_ref, take_ref. case_decide; lia. }
    split; [done|]. intros ? [= <-]. right. destruct Hc as (other & Ho & Hne).
    destruct Hold as [[->|(m0 & Hm0 & ->)] _]; [done|]. exists m0, other. done.
  - destruct Hc as (m' & Ha' & Hmp' & Hap'). destruct (keeps_ap _ _ parent Q (PreOrder_Transitive _ _ _ K1 K2) HQ) as (Q2 & HQ2 & _).
    destruct (submount_flags_run (n + 1) s2 held a m' parent Q2 p al1 T2 H0 Ha' Hpar HQ2)
      as (s3 & H3 & K3 & T3 & m3 & Hm3 & E1 & E2 & E3).
    rewrite bind_bind3, (bind_some _ _ _ _ _ _ _ H3). eexists (Some a), _, al1. split; [reflexivity|].
    split; [apply keeps_unlock; [by do 2 (etrans; [eassumption|])|done]|]. split; [by apply table_inv_locked|].
    split; [done|]. intros ? [= <-]. left. exists m3. rewrite E1, E2, Hmp', Hmp. done.
Qed.

(** Allocation does not fail here: see [add_amdmount_keeps_lock]. *)
Lemma add_amdmount_run n s held ap P entry :
  table_inv n s held -> 0 <= n < 2 ^ 32 - 1 -> ms_locked s = false -> ms_aps s !! ap = Some P ->
  exists a s', mnts_add_amdmount ap entry s [] = Some (Some a, s', []) /\ keeps s s' /\ table_inv (n + 1) s' held /\
    exists m', ms_heap s' !! a = Some m' /\ m_mp m' = e_path entry /\ m_ext_mp m' = e_fs entry /\ m_amd_pref m' = e_pref entry /\
      m_amd_type m' = e_type entry /\ m_amd_opts m' = e_opts entry /\ k_fld KAmd m' <> None /\
      forall b, b <> a -> ms_heap s' !! b = ms_heap s !! b.
Proof.
  intros T Hn Hu HP. unfold mnts_add_amdmount.
  assert (forall o, dup o s [] = Some (true, s, [])) as Hd by by intros [].
  do 4 (rewrite (bind_some _ _ _ _ _ _ _ (Hd _)); cbn [negb]). rewrite lock_run by done.
  destruct (mnts_get_mount_run n _ held (e_path entry) [] (table_inv_locked _ _ _ true T) Hn) as (r & s1 & al1 & H1 & K1 & Hr & Hs).
  destruct (Hr eq_refl) as [-> Hsome]. rewrite (bind_some _ _ _ _ _ _ _ H1). destruct r as [a|]; [|done].
  destruct Hs as (T1 & m & Ha & Hmp & _ & F1). pose proof (fun b => proj1 (ti_held _ _ _ T b)) as H0.
  destruct (keeps_ap _ _ ap P K1 HP) as (P1 & HP1 & _).
  destruct (amd_flags_run (n + 1) s1 held a m ap P1 entry [] T1 H0 Ha HP1) as (s2 & H2 & K2 & T2 & m2 & Hm2 & E1 & E2 & E3 & E4 & E5 & E6 & F2).
  exists a, (put_locked false s2). split.
  - rewrite bind_bind4, (bind_some _ _ _ _ _ _ _ H2). done.
  - split; [apply keeps_unlock; [by etrans|done]|]. split; [by apply table_inv_locked|]. exists m2. rewrite E1, Hmp. do 7 (split; [done|]). intros b Hb. exact (eq_trans (F2 b Hb) (F1 b Hb)).
Qed.
