(* ===== verification/MntExt.v ===== *)
(** * External mounts are counted by path *)

From S2P Require Import Prelude CString Hash Memory CatPath MntTable.
Open Scope Z_scope.

(** ** Chains *)

(** What a path is mapped to. *)
Definition ext_get (s : mstate) (path : cstring) : option ext_mount :=
  ext_find path (default [] (ms_ext s !! ext_bucket path)).

Definition ext_count (s : mstate) (path : cstring) : Z := from_option em_ref 0 (ext_get s path).

Record ext_ok (n : Z) (s : mstate) : Prop := {
  eo_size : length (ms_ext s) = Z.to_nat ext_hash_size;
  eo_once : forall i l, ms_ext s !! i = Some l -> NoDup (em_mp <$> l);
  eo_ref : forall i l e, ms_ext s !! i = Some l -> e ∈ l -> 0 < em_ref e <= n;
  eo_unlocked : ms_ext_locked s = false
}.

Lemma ext_bucket_lt mp : (ext_bucket mp < Z.to_nat ext_hash_size)%nat.
Proof.
  unfold ext_bucket, hash. pose proof (Z.mod_pos_bound (hash_final (hash_loop 0 mp)) ext_hash_size ltac:(done)).
  lia.
Qed.

Lemma ext_chain n s mp : ext_ok n s -> exists l, ms_ext s !! ext_bucket mp = Some l.
Proof. intros H. apply lookup_lt_is_Some_2. rewrite (eo_size _ _ H). apply ext_bucket_lt. Qed.

Lemma ext_find_Some mp l e : ext_find mp l = Some e -> e ∈ l /\ em_mp e = mp.
Proof.
  induction l as [|x l IH]; [done|]. simpl. destruct (streq_spec (em_mp x) mp) as [E|E].
  - intros [= ->]. split; [by left|done].
  - intros H. destruct (IH H). split; [by right|done].
Qed.

Lemma ext_find_None mp l : ext_find mp l = None <-> mp ∉ (em_mp <$> l).
Proof.
  induction l as [|x l IH]; simpl; [set_solver|]. destruct (streq_spec (em_mp x) mp) as [E|E].
  - split; [done|]. intros H. destruct H. rewrite E. by left.
  - rewrite IH, not_elem_of_cons. naive_solver.
Qed.

Section Change.
Context (mp : cstring) (f : ext_mount -> option ext_mount).
Context (Hf : forall e e', f e = Some e' -> em_mp e' = em_mp e).

Lemma ext_find_change l mp' :
  NoDup (em_mp <$> l) ->
  ext_find mp' (ext_change mp f l) = if decide (mp' = mp) then ext_find mp l ≫= f else ext_find mp' l.
Proof using Hf.
  induction l as [|x l IH]; simpl; intros Hnd; [by case_decide|]. apply NoDup_cons in Hnd as [Hx Hnd].
  destruct (streq_spec (em_mp x) mp) as [E|E].
  - destruct (f x) as [e|] eqn:Ef; simpl; rewrite ?(Hf _ _ Ef), E.
    + case_decide; subst; [by rewrite streq_refl, Ef|]. destruct (streq_spec (em_mp x) mp'); [done|done].
    + case_decide as Em; subst; [by rewrite Ef, (proj2 (ext_find_None _ _))|].
      by destruct (streq_spec (em_mp x) mp').
  - simpl. destruct (streq_spec (em_mp x) mp') as [E'|E'].
    + rewrite decide_False by congruence. done.
    + by apply IH.
Qed.

Lemma ext_change_mps l : sublist (em_mp <$> ext_change mp f l) (em_mp <$> l).
Proof using Hf.
  induction l as [|x l IH]; simpl; [done|]. destruct (streq (em_mp x) mp).
  - destruct (f x) as [e|] eqn:Ef; simpl; rewrite ?(Hf _ _ Ef); [done|by constructor].
  - by constructor.
Qed.

Lemma ext_change_elem l e : e ∈ ext_change mp f l -> e ∈ l \/ exists e0, ext_find mp l = Some e0 /\ f e0 = Some e.
Proof using Type.
  induction l as [|x l IH]; simpl; [by left|]. destruct (streq (em_mp x) mp).
  - destruct (f x) as [e'|] eqn:Ef; [|by left; right]. intros [->|H]%elem_of_cons; [right; eauto|left; by right].
  - intros [->|H]%elem_of_cons; [left; by left|]. destruct (IH H) as [?|?]; [left; by right|by right].
Qed.
End Change.

(** ** Changes of the table *)

Lemma ext_set_ok n n' s mp f :
  ext_ok n s -> n <= n' -> (forall e e', f e = Some e' -> em_mp e' = em_mp e) ->
  (forall e e', ext_get s mp = Some e -> f e = Some e' -> 0 < em_ref e' <= n') ->
  let s' := put_ext (alter (ext_change mp f) (ext_bucket mp) (ms_ext s)) s in
  ext_ok n' s' /\ forall q, ext_get s' q = if decide (q = mp) then ext_get s mp ≫= f else ext_get s q.
Proof.
  intros H Hn Hf Hr s'. destruct (ext_chain n s mp H) as [l Hl]. assert (ext_get s mp = ext_find mp l) as Hg
    by (unfold ext_get; by rewrite Hl).
  split; [split|].
  - cbn. rewrite length_alter. apply H.
  - cbn. intros i l' Hi. destruct (decide (ext_bucket mp = i)) as [<-|E].
    + rewrite list_lookup_alter_eq, Hl in Hi. injection Hi as <-.
      eapply sublist_NoDup; [by eapply (eo_once _ _ H)|by apply ext_change_mps].
    + rewrite list_lookup_alter_ne in Hi by done. by eapply (eo_once _ _ H).
  - cbn. intros i l' e Hi He. destruct (decide (ext_bucket mp = i)) as [<-|E].
    + rewrite list_lookup_alter_eq, Hl in Hi. injection Hi as <-. apply ext_change_elem in He as [He|(e0 & E0 & E1)].
      * pose proof (eo_ref _ _ H _ _ _ Hl He). lia.
      * eapply Hr; [|done]. by rewrite Hg.
    + rewrite list_lookup_alter_ne in Hi by done. pose proof (eo_ref _ _ H _ _ _ Hi He). lia.
  - apply H.
  - intros q. unfold ext_get at 1. cbn. destruct (decide (ext_bucket mp = ext_bucket q)) as [E|E].
    + rewrite <- E, list_lookup_alter_eq, Hl. simpl. rewrite (ext_find_change mp f Hf) by by eapply (eo_once _ _ H).
      case_decide; [by rewrite Hg|]. unfold ext_get. by rewrite <- E, Hl.
    + rewrite list_lookup_alter_ne by done. rewrite decide_False by by intros ->. done.
Qed.

Lemma ext_new_ok n s mp um :
  ext_ok n s -> 0 <= n -> ext_get s mp = None ->
  let s' := put_ext (alter (cons (ExtMount 1 mp um)) (ext_bucket mp) (ms_ext s)) s in
  ext_ok (n + 1) s' /\ forall q, ext_get s' q = if decide (q = mp) then Some (ExtMount 1 mp um) else ext_get s q.
Proof.
  intros H Hn Hnone s'. destruct (ext_chain n s mp H) as [l Hl]. unfold ext_get in Hnone. rewrite Hl in Hnone.
  split; [split|].
  - cbn. rewrite length_alter. apply H.
  - cbn. intros i l' Hi. destruct (decide (ext_bucket mp = i)) as [<-|E].
    + rewrite list_lookup_alter_eq, Hl in Hi. injection Hi as <-. simpl. constructor; [by apply ext_find_None|].
      by eapply (eo_once _ _ H).
    + rewrite list_lookup_alter_ne in Hi by done. by eapply (eo_once _ _ H).
  - cbn. intros i l' e Hi He. destruct (decide (ext_bucket mp = i)) as [<-|E].
    + rewrite list_lookup_alter_eq, Hl in Hi. injection Hi as <-. apply elem_of_cons in He as [->|He]; [simpl; lia|].
      pose proof (eo_ref _ _ H _ _ _ Hl He). lia.
    + rewrite list_lookup_alter_ne in Hi by done. pose proof (eo_ref _ _ H _ _ _ Hi He). lia.
  - apply H.
  - intros q. unfold ext_get at 1. cbn. destruct (decide (ext_bucket mp = ext_bucket q)) as [E|E].
    + rewrite <- E, list_lookup_alter_eq, Hl. simpl. destruct (streq_spec mp q) as [->|]; [by rewrite decide_True|].
      rewrite decide_False by done. unfold ext_get. by rewrite <- E, Hl.
    + rewrite list_lookup_alter_ne by done. rewrite decide_False by by intros ->. done.
Qed.

Lemma ext_get_ref n s mp e : ext_ok n s -> ext_get s mp = Some e -> 0 < em_ref e <= n /\ em_mp e = mp.
Proof.
  intros H He. unfold ext_get in He. destruct (ext_chain n s mp H) as [l Hl]. rewrite Hl in He. simpl in He.
  apply ext_find_Some in He as [? ?]. split; [by eapply (eo_ref _ _ H)|done].
Qed.

(** What the operations leave alone. *)
Definition ext_keeps (s s' : mstate) : Prop :=
  ms_heap s' = ms_heap s /\ ms_hash s' = ms_hash s /\ ms_aps s' = ms_aps s /\ ms_locked s' = ms_locked s /\
  ms_ext_locked s' = ms_ext_locked s.

Lemma ext_put_locked n s b : ext_ok n s -> ms_ext_locked s = b -> put_ext_locked b s = s.
Proof. intros _ <-. by destruct s. Qed.

Lemma i32_pos x : 0 <= x < 2 ^ 31 -> i32 x = x.
Proof. intros H. unfold i32. rewrite Z.mod_small; lia. Qed.

(** ** The operations *)

#[local] Arguments ext_bucket : simpl never.
#[local] Arguments ext_find : simpl never.

(** The entry of a path after it was added once more. *)
Definition ext_more (path : cstring) (um : option cstring) (o : option ext_mount) : ext_mount :=
  match o with
  | Some e => ExtMount (em_ref e + 1) path (em_umount e)
  | None => ExtMount 1 path um
  end.

Definition ext_less (o : option ext_mount) : option ext_mount :=
  e ← o; if em_ref e =? 1 then None else Some (ExtMount (em_ref e - 1) (em_mp e) (em_umount e)).

Lemma ext_add_run n s path um al :
  ext_ok n s -> 0 <= n < 2 ^ 32 - 1 ->
  exists r s' al', ext_mount_add path um s al = Some (r, s', al') /\ ext_keeps s s' /\ ext_ok (n + 1) s' /\
    (al = [] -> r = 1 /\ al' = []) /\
    (r = 1 /\ (forall q, ext_get s' q = if decide (q = path) then Some (ext_more path um (ext_get s path)) else ext_get s q)
     \/ r = 0 /\ s' = s).
Proof.
  intros H Hn. pose proof (eo_unlocked _ _ H) as Hu.
  pose proof (ext_new_ok n s path um H ltac:(lia)) as Hnew.
  pose proof (ext_set_ok n (n + 1) s path (fun e => Some (ExtMount (u32 (em_ref e + 1)) (em_mp e) (em_umount e))) H
    ltac:(lia) ltac:(by intros ? ? [= <-])) as Hset.
  pose proof (fun e => ext_get_ref n s path e H) as Href.
  destruct (ext_get s path) as [e|] eqn:Eg.
  - destruct (Href e eq_refl) as [Hr He]. destruct Hset as [Hok Hget].
    { intros e0 e' [= <-] [= <-]. simpl. rewrite u32_small; lia. }
    eexists 1, _, al. split; [|split; [|split; [exact Hok|split; [done|left; split; [done|]]]]].
    + destruct s as [h hs aps ex lk elk]. simpl in Hu. subst elk.
      unfold ext_mount_add, ext_mount_lookup, ext_mount_hash_mutex_lock, ext_set, mbind, M_bind. cbn. unfold ext_get in Eg. cbn in Eg. rewrite Eg. done.
    + done.
    + intros q. rewrite Hget. case_decide; [|done]. simpl. by rewrite He, u32_small by lia.
  - destruct (Hnew eq_refl) as [Hok Hget].
    assert (forall al', ext_mount_add path um s al = Some (0, put_ext_locked false (put_ext_locked true s), al') -> al <> [] ->
      exists r s' al', ext_mount_add path um s al = Some (r, s', al') /\ ext_keeps s s' /\ ext_ok (n + 1) s' /\
    (al = [] -> r = 1 /\ al' = []) /\
    (r = 1 /\ (forall q, ext_get s' q = if decide (q = path) then Some (ext_more path um None) else ext_get s q)
     \/ r = 0 /\ s' = s)) as Hfail.
    { intros al' Hrun Hal. exists 0, s, al'. split; [rewrite Hrun; destruct s; cbn in *; by subst|].
      split; [done|]. split; [|split; [done|by right]]. split; try apply H. intros i l e Hi He.
      pose proof (eo_ref _ _ H _ _ _ Hi He). lia. }
    assert (forall al', ext_mount_add path um s al = Some (1,
        put_ext (alter (cons (ExtMount 1 path um)) (ext_bucket path) (ms_ext s)) s, al') -> (al = [] -> al' = []) ->
      exists r s' al', ext_mount_add path um s al = Some (r, s', al') /\ ext_keeps s s' /\ ext_ok (n + 1) s' /\
    (al = [] -> r = 1 /\ al' = []) /\
    (r = 1 /\ (forall q, ext_get s' q = if decide (q = path) then Some (ext_more path um None) else ext_get s q)
     \/ r = 0 /\ s' = s)) as Hgood.
    { intros al' Hrun Hal. eexists 1, _, al'. split; [exact Hrun|]. split; [done|]. split; [exact Hok|]. split; [auto|]. by left. }
    revert Hfail Hgood. destruct s as [h hs aps ex lk elk]. simpl in Hu. subst elk.
    unfold ext_mount_add, ext_mount_lookup, ext_mount_hash_mutex_lock, ext_set, mbind, M_bind. cbn. unfold ext_get in Eg. cbn in Eg. rewrite Eg.
    intros Hfail Hgood.
    destruct al as [|[] [|[] [|[] al]]], um; cbn in Hfail, Hgood |- *;
      (eapply Hgood; [reflexivity|done]) || (eapply Hfail; [reflexivity|done]).
Qed.

Lemma ext_remove_run n s path al :
  ext_ok n s -> n < 2 ^ 32 ->
  exists s', ext_mount_remove path s al = Some (if ext_count s path =? 1 then 1 else 0, s', al) /\ ext_keeps s s' /\
    ext_ok n s' /\ forall q, ext_get s' q = if decide (q = path) then ext_less (ext_get s path) else ext_get s q.
Proof.
  intros H Hn. pose proof (eo_unlocked _ _ H) as Hu. pose proof (fun e => ext_get_ref n s path e H) as Href.
  pose proof (fun f => ext_set_ok n n s path f H ltac:(lia)) as Hset. unfold ext_count.
  destruct (ext_get s path) as [e|] eqn:Eg; simpl.
  - destruct (Href e eq_refl) as [Hr He]. destruct (Z.eqb_spec (em_ref e) 1) as [E1|E1].
    + destruct (Hset (fun _ => None)) as [Hok Hget]; [done..|]. eexists. split; [|split; [|split; [exact Hok|exact Hget]]].
      * destruct s as [h hs aps ex lk elk]. simpl in Hu. subst elk.
        unfold ext_mount_remove, ext_mount_lookup, ext_mount_hash_mutex_lock, ext_set, mbind, M_bind. cbn. unfold ext_get in Eg. cbn in Eg. rewrite Eg.
        by rewrite E1.
      * done.
    + destruct (Hset (fun x => Some (ExtMount (u32 (em_ref e - 1)) (em_mp x) (em_umount x)))) as [Hok Hget].
      { by intros ? ? [= <-]. }
      { intros e0 e' [= <-] [= <-]. simpl. rewrite u32_small; lia. }
      eexists. split; [|split; [|split; [exact Hok|]]].
      * destruct s as [h hs aps ex lk elk]. simpl in Hu. subst elk.
        unfold ext_mount_remove, ext_mount_lookup, ext_mount_hash_mutex_lock, ext_set, mbind, M_bind. cbn. unfold ext_get in Eg. cbn in Eg. rewrite Eg.
        rewrite u32_small by lia. destruct (Z.eqb_spec (em_ref e - 1) 0); [lia|]. done.
      * done.
      * intros q. rewrite Hget. case_decide; [|done]. simpl. by rewrite u32_small by lia.
  - exists s. split; [|split; [done|split; [done|]]].
    + destruct s as [h hs aps ex lk elk]. simpl in Hu. subst elk.
      unfold ext_mount_remove, ext_mount_lookup, ext_mount_hash_mutex_lock, ext_set, mbind, M_bind. cbn. unfold ext_get in Eg. cbn in Eg. by rewrite Eg.
    + intros q. by case_decide; [subst|].
Qed.

Lemma ext_inuse_run n s path al :
  ext_ok n s -> 0 <= n < 2 ^ 31 -> ext_mount_inuse path s al = Some (ext_count s path, s, al).
Proof.
  intros H Hn. pose proof (eo_unlocked _ _ H) as Hu. pose proof (fun e => ext_get_ref n s path e H) as Href.
  unfold ext_count. destruct s as [h hs aps ex lk elk]. simpl in Hu. subst elk.
  unfold ext_mount_inuse, ext_mount_lookup, ext_mount_hash_mutex_lock, ext_set, mbind, M_bind. cbn. unfold ext_get in *. cbn in *.
  destruct (ext_find path _) as [e|]; [|done]. simpl. destruct (Href e eq_refl). by rewrite i32_pos by lia.
Qed.

(** ** Runs of operations *)

Inductive ext_op :=
  | ExtAdd (path : cstring) (umount : option cstring)
  | ExtRemove (path : cstring)
  | ExtInuse (path : cstring).

Definition ext_do (op : ext_op) : MM Z :=
  match op with
  | ExtAdd path um => ext_mount_add path um
  | ExtRemove path => ext_mount_remove path
  | ExtInuse path => ext_mount_inuse path
  end.

Fixpoint ext_run (ops : list ext_op) : MM (list Z) :=
  match ops with
  | [] => mret []
  | op :: ops => r ← ext_do op; rs ← ext_run ops; mret (r :: rs)
  end.

(** The specification: a count for every path. *)
Definition set_count (path : cstring) (n : Z) (c : cstring -> Z) : cstring -> Z :=
  fun q => if decide (q = path) then n else c q.

Definition spec_do (op : ext_op) (c : cstring -> Z) : Z * (cstring -> Z) :=
  match op with
  | ExtAdd path _ => (1, set_count path (c path + 1) c)
  | ExtRemove path => (if c path =? 1 then 1 else 0, set_count path (Z.max 0 (c path - 1)) c)
  | ExtInuse path => (c path, c)
  end.

Fixpoint spec_run (ops : list ext_op) (c : cstring -> Z) : list Z * (cstring -> Z) :=
  match ops with
  | [] => ([], c)
  | op :: ops => let '(r, c1) := spec_do op c in let '(rs, c2) := spec_run ops c1 in (r :: rs, c2)
  end.

Lemma ext_count_pos n s path : ext_ok n s -> 0 <= ext_count s path.
Proof.
  intros H. unfold ext_count. destruct (ext_get s path) as [e|] eqn:E; [|done].
  simpl. destruct (ext_get_ref _ _ _ _ H E). lia.
Qed.

Lemma ext_less_count o : from_option (fun e => 0 < em_ref e) True o -> from_option em_ref 0 (ext_less o) = Z.max 0 (from_option em_ref 0 o - 1).
Proof. destruct o as [e|]; simpl; [|done]. intros H. destruct (Z.eqb_spec (em_ref e) 1); simpl; lia. Qed.

Lemma ext_do_refines n s op c :
  ext_ok n s -> 0 <= n < 2 ^ 31 - 1 -> (forall q, ext_count s q = c q) ->
  exists s', ext_do op s [] = Some ((spec_do op c).1, s', []) /\ ext_ok (n + 1) s' /\
    forall q, ext_count s' q = (spec_do op c).2 q.
Proof.
  intros H Hn Hc. destruct op as [path um|path|path]; simpl.
  - destruct (ext_add_run n s path um [] H ltac:(lia)) as (r & s' & al' & Hrun & _ & Hok & Hal & Hcase).
    destruct (Hal eq_refl) as [-> ->]. exists s'. split; [done|]. split; [done|]. destruct Hcase as [[_ Hget]|[? _]]; [|done].
    intros q. unfold ext_count, set_count. rewrite Hget. case_decide; [|apply Hc]. rewrite <- Hc. unfold ext_count.
    by destruct (ext_get s path).
  - destruct (ext_remove_run n s path [] H ltac:(lia)) as (s' & Hrun & _ & Hok & Hget). rewrite <- Hc. exists s'.
    split; [done|]. split.
    { split; try apply Hok. intros i l e Hi He. pose proof (eo_ref _ _ Hok _ _ _ Hi He). lia. }
    intros q. unfold ext_count at 1, set_count. rewrite Hget. case_decide; [|apply Hc]. apply ext_less_count.
    destruct (ext_get s path) as [e|] eqn:E; [|done]. simpl. destruct (ext_get_ref _ _ _ _ H E). lia.
  - exists s. rewrite <- Hc. split; [apply (ext_inuse_run n s path [] H); lia|]. split; [|done].
    split; try apply H. intros i l e Hi He. pose proof (eo_ref _ _ H _ _ _ Hi He). lia.
Qed.

(** C22. The table of external mounts is a count for every path: in every run of fewer
    than 2^31 operations [ext_mount_add] adds one, [ext_mount_remove] takes one away
    and reports the last one, and [ext_mount_inuse] returns the count of its path,
    whatever other paths share its hash chain. *)
Theorem ext_mounts_refine n s ops c :
  ext_ok n s -> 0 <= n -> n + Z.of_nat (length ops) < 2 ^ 31 -> (forall q, ext_count s q = c q) ->
  exists s', ext_run ops s [] = Some ((spec_run ops c).1, s', []) /\
    ext_ok (n + Z.of_nat (length ops)) s' /\ forall q, ext_count s' q = (spec_run ops c).2 q.
Proof.
  revert n s c. induction ops as [|op ops IH]; intros n s c H H0 Hn Hc; cbn [length] in *; cbn [ext_run spec_run].
  { exists s. rewrite Z.add_0_r. done. }
  destruct (ext_do_refines n s op c H ltac:(lia) Hc) as (s1 & Hrun & Hok & Hc1).
  rewrite (bind_some _ _ _ _ _ _ _ Hrun). destruct (spec_do op c) as [r c1] eqn:Ed. simpl in *.
  destruct (IH (n + 1) s1 c1 Hok ltac:(lia) ltac:(lia) Hc1) as (s' & Hrun' & Hok' & Hc').
  rewrite (bind_some _ _ _ _ _ _ _ Hrun'). exists s'. destruct (spec_run ops c1) as [rs c2]. simpl in *.
  split; [done|]. split; [|done]. replace (n + Z.of_nat (S (length ops))) with (n + 1 + Z.of_nat (length ops)) by lia. done.
Qed.

(** The tables before the first mount. *)
Definition no_mounts (aps : gmap positive apoint) : mstate :=
  MS ∅ (replicate (Z.to_nat mnts_hash_size) []) aps (replicate (Z.to_nat ext_hash_size) []) false false.

Lemma no_mounts_ext aps : ext_ok 0 (no_mounts aps).
Proof.
  split; [apply length_replicate|..|done].
  - intros i l [-> _]%lookup_replicate. constructor.
  - intros i l e [-> _]%lookup_replicate He. by apply elem_of_nil in He.
Qed.

Lemma no_mounts_count aps q : ext_count (no_mounts aps) q = 0.
Proof.
  unfold ext_count, ext_get.
  change (ms_ext (no_mounts aps)) with (replicate (Z.to_nat ext_hash_size) (@nil ext_mount)). rewrite lookup_replicate_2; [done|]. apply ext_bucket_lt.
Qed.

Lemma ext_mounts_refine_witness :
  exists s', ext_run [ExtAdd (str "/a") None; ExtAdd (str "/a") None; ExtInuse (str "/a"); ExtRemove (str "/a"); ExtRemove (str "/a")]
    (no_mounts ∅) [] = Some ([1; 1; 2; 0; 1], s', []).
Proof.
  destruct (ext_mounts_refine 0 (no_mounts ∅) [ExtAdd (str "/a") None; ExtAdd (str "/a") None; ExtInuse (str "/a");
    ExtRemove (str "/a"); ExtRemove (str "/a")] (fun _ => 0) (no_mounts_ext ∅) ltac:(done) ltac:(done) (no_mounts_count ∅))
    as (s' & H & _). exists s'. exact H.
Defined.
