(* ===== verification/MntClaims.v ===== *)
(** * The table of mounts in every run of its operations *)

From S2P Require Import Prelude CString Hash Memory CatPath MntTable MntProps MntOps MntExt.
Open Scope Z_scope.

(** ** The amd mounts of a mount point *)

Lemma table_inv_ext_keeps n s s' held : table_inv n s held -> ext_keeps s s' -> table_inv n s' held.
Proof.
  intros T (E1 & E2 & E3 & E4 & E5). split; rewrite ?E1, ?E2, ?E3, ?E5; apply T.
Qed.

Lemma ext_ok_keeps n s s' : ext_ok n s -> ms_ext s' = ms_ext s -> ms_ext_locked s' = false -> ext_ok n s'.
Proof. intros H E1 E2. split; rewrite ?E1; try done; apply H. Qed.

Lemma ext_ok_le n n' s : ext_ok n s -> n <= n' -> ext_ok n' s.
Proof. intros H ?. split; try apply H. intros i l e Hi He. pose proof (eo_ref _ _ H _ _ _ Hi He). lia. Qed.

Lemma ext_get_same s s' q : ms_ext s' = ms_ext s -> ext_get s' q = ext_get s q.
Proof. unfold ext_get. by intros ->. Qed.

(** What every operation leaves of the mount points and of the mutex. *)
Definition kept (s s' : mstate) : Prop :=
  ms_locked s' = ms_locked s /\
  forall p, (fun P => (ap_path P, ap_parent P, ap_dev P)) <$> ms_aps s' !! p
            = (fun P => (ap_path P, ap_parent P, ap_dev P)) <$> ms_aps s !! p.

Lemma keeps_kept s s' : keeps s s' -> kept s s'.
Proof. by intros (? & _ & ?). Qed.

Lemma kept_trans s s1 s2 : kept s s1 -> kept s1 s2 -> kept s s2.
Proof. intros [H1 H2] [H3 H4]. split; [congruence|]. intros p. by rewrite H4. Qed.

Lemma ext_keeps_kept s s' : ext_keeps s s' -> kept s s'.
Proof. intros (_ & _ & E & El & _). split; [done|]. by rewrite E. Qed.

Lemma remove_amd_loop_run n e l s held al :
  NoDup l -> (forall b, b ∈ l -> exists m, ms_heap s !! b = Some m /\ is_Some (m_ext_mp m)) ->
  table_inv n s held -> ext_ok e s -> n < 2 ^ 32 -> e < 2 ^ 32 ->
  exists s', remove_amd_loop l s al = Some ((), s', al) /\ kept s s' /\ table_inv n s' held /\ ext_ok e s'.
Proof.
  intros Hnd Hl T E Hn He. revert s Hl T E. induction Hnd as [|a l Ha Hnd IH]; intros s Hl T E; simpl; [by exists s|].
  destruct (Hl a) as (m & Hm & [x Hx]); [by left|]. rewrite (bind_load (HH := mstate_heap) _ _ _ _ m) by done.
  rewrite Hx, bind_from_some. destruct (ext_remove_run e s x al E He) as (s1 & H1 & K1 & E1 & _).
  rewrite (bind_some _ _ _ _ _ _ _ H1). pose proof (table_inv_ext_keeps _ _ _ _ T K1) as T1.
  destruct (__remove_amdmount_run n s1 held (m_mp m) al T1 Hn) as (s2 & H2 & K2 & T2 & Hsame & _).
  rewrite (bind_some _ _ _ _ _ _ _ H2). destruct (IH s2) as (s' & H3 & K3 & T3 & E3).
  - intros b Hb. destruct (Hl b) as (mb & Hmb & Hext); [by right|]. exists mb. split; [|done].
    destruct K1 as (EH & _). rewrite Hsame; [by rewrite EH|]. intros m' Hm'. rewrite EH, Hmb in Hm'. injection Hm' as <-.
    intros Emp. assert (b = a) as -> by by eapply (ti_unique _ _ _ T). done.
  - done.
  - eapply ext_ok_keeps; [exact E1|apply K2|apply T2].
  - exists s'. split; [done|]. split; [|done].
    eapply kept_trans; [by apply ext_keeps_kept|]. eapply kept_trans; [by apply keeps_kept|done].
Qed.

Lemma remove_amdmounts_run n e s held ap P al :
  table_inv n s held -> ext_ok e s -> n < 2 ^ 32 -> e < 2 ^ 32 -> ms_locked s = false -> ms_aps s !! ap = Some P ->
  (forall b m, b ∈ ap_amdmounts P -> ms_heap s !! b = Some m -> is_Some (m_ext_mp m)) ->
  exists s', mnts_remove_amdmounts ap s al = Some ((), s', al) /\ kept s s' /\ table_inv n s' held /\ ext_ok e s'.
Proof.
  intros T E Hn He Hu HP Hext. unfold mnts_remove_amdmounts. rewrite lock_run by done. rewrite (load_ap_run _ _ _ _ P) by done.
  destruct (ti_lists _ _ _ T _ _ KAmd HP) as [Hnd Hin].
  destruct (remove_amd_loop_run n e (ap_amdmounts P) (put_locked true s) held al) as (s' & H1 & [_ K] & T1 & E1); try done.
  - intros b Hb. apply Hin in Hb as Hm. destruct Hm as (m & Hm & _). exists m. split; [done|]. by eapply Hext.
  - by apply table_inv_locked.
  - eapply ext_ok_keeps; [exact E|done|apply E].
  - rewrite (bind_some _ _ _ _ _ _ _ H1). eexists. split; [reflexivity|].
    split; [by split|]. split; [by apply table_inv_locked|]. eapply ext_ok_keeps; [exact E1|done|apply E1].
Qed.

(** ** Runs *)

Inductive mop :=
  | OPoint (p : positive) (P : apoint)
  | OLookup (mp : cstring)
  | OFindSub (mp : cstring)
  | OFindAmd (mp : cstring)
  | OPut (a : positive)
  | OAdd (ap : positive) (name : cstring) (flags : Z)
  | ORemove (mp : cstring)
  | OAddSub (ap : positive)
  | ORemoveSub (mp : cstring)
  | OAddAmd (ap : positive) (entry : amd_entry)
  | ORemoveAmd (mp : cstring)
  | ORemoveAmds (ap : positive)
  | OHas (ap : positive)
  | OExtAdd (path : cstring) (um : option cstring)
  | OExtRemove (path : cstring).

Definition taken (r : ptr) (held : refs) : refs := match r with Some a => take_ref a held | None => held end.

(** An operation, and the references the callers have afterwards. *)
Definition mop_run (op : mop) (held : refs) : MM refs :=
  match op with
  | OPoint p P => modify (fun s => put_aps (<[p := P]> (ms_aps s)) s);; mret held
  | OLookup mp => r ← mnts_lookup_mount mp; mret (taken r held)
  | OFindSub mp => r ← mnts_find_submount mp; mret (taken r held)
  | OFindAmd mp => r ← mnts_find_amdmount mp; mret (taken r held)
  | OPut a => mnts_put_mount (Some a);; mret (drop_ref a held)
  | OAdd ap name flags => r ← mnts_add_mount ap name flags; mret (added flags r held)
  | ORemove mp => mnts_remove_mount mp MNTS_MOUNTED;; mret held
  | OAddSub ap => _ ← mnts_add_submount ap; mret held
  | ORemoveSub mp => mnts_remove_submount mp;; mret held
  | OAddAmd ap entry => _ ← mnts_add_amdmount ap entry; mret held
  | ORemoveAmd mp => mnts_remove_amdmount mp;; mret held
  | ORemoveAmds ap => mnts_remove_amdmounts ap;; mret held
  | OHas ap => _ ← mnts_has_mounted_mounts ap; mret held
  | OExtAdd path um => _ ← ext_mount_add path um; mret held
  | OExtRemove path => _ ← ext_mount_remove path; mret held
  end.

(** What the callers keep to: they put what they hold, name mount points that exist,
    and leave the flags of submounts and of amd mounts to their own operations. The
    table of amd mounts needs an allocation that succeeds and external mounts. *)
Definition allowed (op : mop) (s : mstate) (held : refs) (al : alloc) : Prop :=
  match op with
  | OPoint p P => ms_aps s !! p = None /\ forall k, k_list k P = []
  | OPut a => 0 < held a
  | OAdd ap _ flags =>
      is_Some (ms_aps s !! ap) /\ has_flag flags MNTS_AUTOFS = false /\ has_flag flags MNTS_AMD_MOUNT = false
  | OAddSub ap => exists P parent, ms_aps s !! ap = Some P /\ ap_parent P = Some parent /\ is_Some (ms_aps s !! parent)
  | OAddAmd ap _ => is_Some (ms_aps s !! ap) /\ al = []
  | ORemoveAmds ap => exists P, ms_aps s !! ap = Some P /\
      forall b m, b ∈ ap_amdmounts P -> ms_heap s !! b = Some m -> is_Some (m_ext_mp m)
  | OHas ap => is_Some (ms_aps s !! ap)
  | _ => True
  end.

Inductive reach : Z -> mstate -> refs -> Prop :=
  | reach_start : reach 0 (no_mounts ∅) (fun _ => 0)
  | reach_op n s held op al held' s' al' :
      reach n s held -> allowed op s held al -> mop_run op held s al = Some (held', s', al') -> reach (n + 1) s' held'.

Record sound (n : Z) (s : mstate) (held : refs) : Prop := {
  so_table : table_inv n s held;
  so_ext : ext_ok n s;
  so_unlocked : ms_locked s = false
}.

Lemma sound_start : sound 0 (no_mounts ∅) (fun _ => 0).
Proof.
  split; [|apply no_mounts_ext|done]. split; [apply length_replicate|..]; try done.
  intros i l [-> _]%lookup_replicate. split; [constructor|]. intros a Ha. by apply elem_of_nil in Ha.
Qed.

Lemma sound_keeps n s s' held held' :
  sound n s held -> keeps s s' -> table_inv (n + 1) s' held' -> sound (n + 1) s' held'.
Proof.
  intros [T E U] (K1 & K2 & _) T'. split; [done| |congruence].
  apply (ext_ok_le n); [|lia]. eapply ext_ok_keeps; [exact E|exact K2|apply T'].
Qed.

Lemma point_inv n s held p P :
  table_inv n s held -> ms_aps s !! p = None -> (forall k, k_list k P = []) ->
  table_inv n (put_aps (<[p := P]> (ms_aps s)) s) held.
Proof.
  intros T Hp HP. split; try apply T.
  - intros a m k q Ha Hk. cbn. destruct (ti_fld _ _ _ T _ _ _ _ Ha Hk) as [? Hq]. split; [done|].
    destruct (decide (p = q)) as [->|]; [by rewrite lookup_insert_eq|by rewrite lookup_insert_ne].
  - intros q Q k HQ. cbn in HQ. destruct (decide (p = q)) as [->|].
    + rewrite lookup_insert_eq in HQ. injection HQ as <-. rewrite HP. split; [constructor|]. intros a. split.
      * intros H. by apply elem_of_nil in H.
      * intros (m & Ha & Hk). destruct (ti_fld _ _ _ T _ _ _ _ Ha Hk) as [_ [? ?]]. congruence.
    + rewrite lookup_insert_ne in HQ by done. by apply (ti_lists _ _ _ T).
Qed.

Section Step.
Context (n : Z) (s : mstate) (held : refs) (al : alloc).
Context (S : sound n s held) (Hn : 0 <= n < 2 ^ 32 - 1).

Definition returns (e : MM refs) : Prop :=
  exists held' s' al', e s al = Some (held', s', al') /\ sound (n + 1) s' held'.

Lemma returns_run {A} (e : MM A) f r s' al' :
  e s al = Some (r, s', al') -> sound (n + 1) s' (f r) -> returns (x ← e; mret (f x)).
Proof using Type. intros H1 H2. exists (f r), s', al'. split; [|done]. by rewrite (bind_some _ _ _ _ _ _ _ H1). Qed.

Lemma returns_grow {A} (e : MM A) f r s' al' :
  e s al = Some (r, s', al') -> keeps s s' -> table_inv (n + 1) s' (f r) -> returns (x ← e; mret (f x)).
Proof using S. intros H K T. eapply returns_run; [done|]. by eapply sound_keeps. Qed.

Lemma returns_same {A} (e : MM A) f r s' al' :
  e s al = Some (r, s', al') -> keeps s s' -> table_inv n s' (f r) -> returns (x ← e; mret (f x)).
Proof using S. intros H K T. eapply returns_grow; [done|done|]. eapply table_inv_le; [done|lia]. Qed.

Lemma returns_ext {A} (e : MM A) r s' al' :
  e s al = Some (r, s', al') -> ext_keeps s s' -> ext_ok (n + 1) s' -> returns (_ ← e; mret held).
Proof using S.
  intros H K E. eapply (returns_run _ (fun _ => held)); [done|]. split; [|done|].
  - eapply table_inv_le; [by eapply table_inv_ext_keeps; [apply S|]|lia].
  - destruct K as (_ & _ & _ & -> & _). apply S.
Qed.

Lemma returns_has ap : is_Some (ms_aps s !! ap) -> returns (_ ← mnts_has_mounted_mounts ap; mret held).
Proof using S Hn.
  intros [P HP]. eapply (returns_same _ (fun _ => held)); [|reflexivity|apply S].
  unfold mnts_has_mounted_mounts. rewrite lock_run by apply S. rewrite (load_ap_run _ _ _ _ P) by done.
  rewrite unlock_run. pose proof (so_unlocked _ _ _ S). destruct s. simpl in *. by subst.
Qed.

(** Every operation that is allowed returns, and the tables are sound afterwards. *)
Lemma mop_sound op : allowed op s held al -> returns (mop_run op held).
Proof using S Hn.
  destruct S as [T E U]. assert (0 <= n < 2 ^ 32) as Hn' by lia. assert (n < 2 ^ 32 - 1 /\ n < 2 ^ 32) as [Hn1 Hn2] by lia.
  destruct op as [p P|mp|mp|mp|a|ap name flags|mp|ap|mp|ap entry|mp|ap|ap|path um|path]; simpl; intros Hal.
  - eapply (returns_run _ (fun _ => held)); [reflexivity|]. destruct Hal as [Hp HP].
    split; [|eapply ext_ok_le; [split; apply E|lia]|done]. apply (table_inv_le n); [by apply point_inv|lia].
  - destruct (lookup_mount_run n s held mp al T Hn1 U) as (r & s' & H1 & K & T' & _). by eapply returns_grow.
  - destruct (find_with_flag_run n s held mp MNTS_AUTOFS al T Hn1 U) as (r & s' & H1 & K & T' & _). by eapply returns_grow.
  - destruct (find_with_flag_run n s held mp MNTS_AMD_MOUNT al T Hn1 U) as (r & s' & H1 & K & T' & _). by eapply returns_grow.
  - destruct (put_run n s held a al T Hn2 U Hal) as (s' & H1 & K & T'). by eapply returns_same.
  - destruct Hal as ([P HP] & F1 & F2).
    destruct (add_mount_run n s held ap P name flags al T Hn U HP F1 F2) as (r & s' & al' & H1 & K & T' & _).
    by eapply returns_grow.
  - destruct (remove_mount_run n s held mp al T Hn2 U) as (s' & H1 & K & T'). by eapply returns_same.
  - destruct Hal as (P & parent & HP & Hpar & HQ).
    destruct (add_submount_run n s held ap P parent al T Hn U HP Hpar HQ) as (r & s' & al' & H1 & K & T' & _).
    by eapply returns_grow.
  - destruct (remove_submount_run n s held mp al T Hn2 U) as (s' & H1 & K & T'). by eapply returns_same.
  - destruct Hal as [[P HP] Hal]. destruct (add_amdmount_run n s held ap P entry T Hn U HP) as (a & s' & H1 & K & T' & _).
    rewrite <- Hal in H1 at 1. by eapply returns_grow.
  - destruct (remove_amdmount_run n s held mp al T Hn2 U) as (s' & H1 & K & T' & _). by eapply returns_same.
  - destruct Hal as (P & HP & Hext).
    destruct (remove_amdmounts_run n n s held ap P al T E Hn2 Hn2 U HP Hext) as (s' & H1 & [K _] & T' & E').
    eapply (returns_run _ (fun _ => held)); [done|]. split; [eapply table_inv_le; [done|lia]|eapply ext_ok_le; [done|lia]|congruence].
  - by apply returns_has.
  - destruct (ext_add_run n s path um al E Hn) as (r & s' & al' & H1 & K & E' & _). by eapply returns_ext.
  - destruct (ext_remove_run n s path al E Hn2) as (s' & H1 & K & E' & _). eapply returns_ext; [done|done|].
    eapply ext_ok_le; [done|lia].
Qed.
End Step.

Lemma reach_sound n s held : reach n s held -> n < 2 ^ 32 -> sound n s held.
Proof.
  induction 1 as [|n s held op al held' s' al' Hr IH Hal Hrun]; intros Hn; [apply sound_start|].
  assert (0 <= n) as H0 by (clear -Hr; induction Hr; lia).
  destruct (mop_sound n s held al (IH ltac:(lia)) ltac:(lia) op Hal) as (h1 & s1 & al1 & Hrun1 & Hs).
  rewrite Hrun in Hrun1. by injection Hrun1 as -> -> ->.
Qed.


(** ** Examples *)

Definition example_ap : apoint := AP (str "/m") None 7 [] [] [].
Definition example_sub : apoint := AP (str "/m/s") (Some 1%positive) 8 [] [] [].
Definition example_entry (fs : option cstring) : amd_entry := AmdEntry (str "/m/x") fs None None None 0.


(** ** What goes wrong *)

Fixpoint mops (ops : list (mop * alloc)) (s : mstate) : option mstate :=
  match ops with
  | [] => Some s
  | (op, al) :: ops => match mop_run op (fun _ => 0) s al with Some (_, s', _) => mops ops s' | None => None end
  end.

(** When there is no memory for the mount, [mnts_add_amdmount] returns with the mutex
    locked, and the next operation waits for ever. *)
Theorem add_amdmount_keeps_lock :
  match mnts_add_amdmount 1 (example_entry None) (no_mounts {[1%positive := example_ap]}) [false] with
  | Some (None, s', _) => ms_locked s' = true /\ forall mp al, mnts_lookup_mount mp s' al = None
  | _ => False
  end.
Proof. vm_compute. done. Qed.

(** [mnt_find_submount_by_devid] locks the mutex again for the submounts of a submount:
    it does not return when the first submount has another device. *)
Theorem find_submount_by_devid_waits fuel s a l m q P devid al :
  ms_heap s !! a = Some m -> m_ap m = Some q -> ms_aps s !! q = Some P -> ap_dev P <> devid ->
  mnt_find_submount_by_devid fuel (a :: l) devid s al = None.
Proof.
  intros Ha Hq HP Hd. unfold mnt_find_submount_by_devid. destruct (ms_locked s) eqn:Hu.
  { unfold mnts_hash_mutex_lock, get_state, mbind, M_bind. by rewrite Hu. }
  rewrite lock_run by done. destruct fuel as [|fuel]; [done|]. cbn [__mnt_find_submount_by_devid].
  rewrite <- bind_bind, (bind_load (HH := mstate_heap) _ _ _ _ m) by done. rewrite Hq, <- bind_bind, bind_from_some.
  rewrite <- bind_bind, (load_ap_run _ _ _ _ P) by done. by destruct (Z.eqb_spec (ap_dev P) devid).
Qed.

Lemma find_submount_by_devid_waits_witness :
  exists s, mops [(OPoint 1 example_ap, []); (OPoint 2 example_sub, []); (OAddSub 2, [])] (no_mounts ∅) = Some s /\
    mnt_find_submount_by_devid 10 [1%positive] 9 s [] = None.
Proof.
  eexists. split; [vm_compute; reflexivity|].
  eapply find_submount_by_devid_waits; [reflexivity..|]. vm_compute. discriminate.
Defined.

(** A mount that is added to the mounted mounts twice is not freed by its removal,
    and no other removal frees it. *)
Theorem add_mount_twice_leaks :
  match mops [(OPoint 1 example_ap, []); (OAdd 1 (str "a") MNTS_MOUNTED, []); (OAdd 1 (str "a") MNTS_MOUNTED, []);
              (ORemove (str "/m/a"), []); (ORemove (str "/m/a"), [])] (no_mounts ∅) with
  | Some s => exists m, ms_heap s !! 1%positive = Some m /\ m_flags m = 0 /\ m_ref m = 1
  | None => False
  end.
Proof. vm_compute. eexists. done. Qed.

(** A submount whose path belongs to another mount point is a conflict, but the mount is
    returned as if it had been added. *)
Theorem add_submount_conflict_returned :
  match mops [(OPoint 1 example_ap, []); (OPoint 2 example_sub, []); (OPoint 3 example_sub, []); (OAddSub 2, [])] (no_mounts ∅) with
  | Some s => exists a s', mnts_add_submount 3 s [] = Some (Some a, s', []) /\
      exists m, ms_heap s' !! a = Some m /\ m_ap m = Some 2%positive
  | None => False
  end.
Proof. vm_compute. eexists _, _. split; [reflexivity|]. eexists. done. Qed.

(** An amd mount without an external mount point makes [mnts_remove_amdmounts] hash a
    null pointer. *)
Theorem remove_amdmounts_null :
  match mops [(OPoint 1 example_ap, []); (OAddAmd 1 (example_entry None), [])] (no_mounts ∅) with
  | Some s => mnts_remove_amdmounts 1 s [] = None
  | None => False
  end.
Proof. vm_compute. reflexivity. Qed.
