(* ===== verification/Trees.v ===== *)
(** * Binary trees (lib/mounts.c)

    The same functions build and walk three kinds of trees: of mounts for the order of
    an expire, of exported directories for the entry of a host, and of the offsets of a
    multi-mount. [struct tree_ops] is the class [TreeOps]: the comparison with what the
    functions on trees need of it. A node is a part of the object it belongs to, so a
    tree is a tree of objects. *)

From S2P Require Import Prelude CString.
From Stdlib Require Export Sorted.
Open Scope Z_scope.

(** ** Data and operations *)

Inductive tree (A : Type) :=
  | Leaf
  | Node (left : tree A) (x : A) (right : tree A).
Arguments Leaf {A}.
Arguments Node {A} left x right.

(** [t_cmp n ptr] is [ops->cmp]. *)
Class TreeOps (A : Type) := {
  t_key : A -> cstring;
  t_cmp : A -> A -> Z;
  t_ok : A -> Prop;
  t_cmp_zero : forall n x, t_ok n -> t_ok x -> t_cmp n x = 0 <-> t_key x = t_key n;
  t_cmp_cong : forall n x y, t_ok n -> t_ok x -> t_ok y -> t_key x = t_key y -> t_cmp n x = t_cmp n y
}.

Section Tree.
Context {A : Type} `{TreeOps A}.

(** [ops->new]: the node of the object with no children. *)
Definition tree_root (x : A) : tree A := Node Leaf x Leaf.

(** The object that is returned is the one in the tree with the key. *)
Fixpoint tree_add_node (root : tree A) (x : A) : tree A * A :=
  match root with
  | Leaf => (tree_root x, x)
  | Node l p r =>
      let eq := t_cmp p x in
      if eq =? 0 then (root, p)
      else if eq <? 0 then let '(l', n) := tree_add_node l x in (Node l' p r, n)
      else let '(r', n) := tree_add_node r x in (Node l p r', n)
  end.

Fixpoint inorder (t : tree A) : list A :=
  match t with
  | Leaf => []
  | Node l x r => inorder l ++ x :: inorder r
  end.

(** The nodes in the order in which they are given to [ops->free]. *)
Fixpoint tree_free (root : tree A) : list A :=
  match root with
  | Leaf => []
  | Node l x r => tree_free r ++ tree_free l ++ [x]
  end.

Context {S : Type}.

(** [work] returns 0 to stop. *)
Fixpoint tree_traverse_inorder (n : tree A) (work : A -> S -> Z * S) (ptr : S) : Z * S :=
  match n with
  | Leaf => (1, ptr)
  | Node l x r =>
      let '(ret, ptr) := match l with Leaf => (1, ptr) | _ => tree_traverse_inorder l work ptr end in
      if ret =? 0 then (ret, ptr) else
      let '(ret, ptr) := work x ptr in
      if ret =? 0 then (ret, ptr) else
      match r with Leaf => (ret, ptr) | _ => tree_traverse_inorder r work ptr end
  end.
End Tree.

(** ** Search trees *)

Section Facts.
Context {A : Type} `{TreeOps A}.

(** Every node has smaller objects on its left and greater ones on its right. *)
Inductive bst : tree A -> Prop :=
  | bst_leaf : bst Leaf
  | bst_node l x r :
      bst l -> bst r -> (forall y, y ∈ inorder l -> t_cmp x y < 0) -> (forall y, y ∈ inorder r -> 0 < t_cmp x y) ->
      bst (Node l x r).

Definition all_ok (t : tree A) : Prop := forall x, x ∈ inorder t -> t_ok x.

Lemma all_ok_node l x r : all_ok (Node l x r) -> all_ok l /\ t_ok x /\ all_ok r.
Proof using Type. unfold all_ok. simpl. intros Hok. split; [|split]; intros; apply Hok; set_solver. Qed.

(** What [tree_add_node] does with the objects in order. *)
Lemma add_node_inorder t x :
  exists l1 l2, inorder t = l1 ++ l2 /\
    (inorder (tree_add_node t x).1 = inorder t /\ (tree_add_node t x).2 ∈ inorder t /\
       t_cmp (tree_add_node t x).2 x = 0
     \/ inorder (tree_add_node t x).1 = l1 ++ x :: l2 /\ (tree_add_node t x).2 = x).
Proof using Type.
  induction t as [|l IHl p r IHr]; simpl.
  { exists [], []. split; [done|]. by right. }
  destruct (Z.eqb_spec (t_cmp p x) 0) as [E|E]; simpl.
  { exists (inorder l ++ p :: inorder r), []. rewrite app_nil_r. split; [done|]. left. split; [done|]. split; [set_solver|done]. }
  destruct (t_cmp p x <? 0).
  - destruct IHl as (l1 & l2 & El & Hl). destruct (tree_add_node l x) as [l' n]. simpl in *.
    exists l1, (l2 ++ p :: inorder r). split; [by rewrite El, <- app_assoc|].
    destruct Hl as [(E1 & E2 & E3)|[E1 E2]]; rewrite E1; [left|right]; [|by rewrite <- app_assoc].
    split; [done|]. split; [|done]. apply elem_of_app. by left.
  - destruct IHr as (l1 & l2 & Er & Hr). destruct (tree_add_node r x) as [r' n]. simpl in *.
    exists (inorder l ++ p :: l1), l2. split; [by rewrite Er, <- app_assoc|].
    destruct Hr as [(E1 & E2 & E3)|[E1 E2]]; rewrite E1; [left|right]; [|by rewrite <- app_assoc].
    split; [done|]. split; [|done]. apply elem_of_app. right. by right.
Qed.

Lemma elem_add t x y : y ∈ inorder (tree_add_node t x).1 -> y = x \/ y ∈ inorder t.
Proof using Type.
  destruct (add_node_inorder t x) as (l1 & l2 & E & [(-> & _)|[-> _]]); [by right|]. rewrite E. set_solver.
Qed.

Lemma add_node_bst t x : bst t -> bst (tree_add_node t x).1.
Proof using Type.
  induction 1 as [|l p r Hl IHl Hr IHr H1 H2]; simpl.
  { constructor; [constructor..| |]; intros y Hy; by apply elem_of_nil in Hy. }
  destruct (Z.eqb_spec (t_cmp p x) 0) as [E|E]; simpl; [by constructor|]. destruct (Z.ltb_spec (t_cmp p x) 0) as [E'|E'].
  - pose proof (elem_add l x) as He. destruct (tree_add_node l x) as [l' n]. simpl in *. constructor; try done.
    intros y [->|Hy]%He; [done|auto].
  - pose proof (elem_add r x) as He. destruct (tree_add_node r x) as [r' n]. simpl in *. constructor; try done.
    intros y [->|Hy]%He; [lia|auto].
Qed.

Lemma add_node_found t x :
  bst t -> all_ok t -> t_ok x -> t_key x ∈ (t_key <$> inorder t) -> inorder (tree_add_node t x).1 = inorder t.
Proof using Type.
  intros Hb Hok Hx Hin. revert Hok Hin. induction Hb as [|l p r Hl IHl Hr IHr H1 H2]; intros Hok Hin.
  { by apply elem_of_nil in Hin. }
  destruct (all_ok_node _ _ _ Hok) as (Okl & Okp & Okr). apply list_elem_of_fmap in Hin as (z & Ez & Hz).
  assert (t_ok z) as Okz by (apply Hok; done). assert (t_cmp p x = t_cmp p z) as Ec by by apply t_cmp_cong.
  pose proof (proj2 (t_cmp_zero p p Okp Okp) eq_refl) as Epp. simpl in Hz |- *. rewrite Ec. apply elem_of_app in Hz.
  destruct (Z.eqb_spec (t_cmp p z) 0) as [E|E]; [done|]. destruct (Z.ltb_spec (t_cmp p z) 0) as [E'|E'].
  - assert (z ∈ inorder l) as Hzl.
    { destruct Hz as [?|[->|Hz]%elem_of_cons]; [done|lia|]. specialize (H2 z Hz). lia. }
    specialize (IHl Okl). rewrite Ez in IHl. destruct (tree_add_node l x) as [l' n]. simpl in *.
    rewrite IHl; [done|]. by apply list_elem_of_fmap_2.
  - assert (z ∈ inorder r) as Hzr.
    { destruct Hz as [Hz|[->|?]%elem_of_cons]; [|lia|done]. specialize (H1 z Hz). lia. }
    specialize (IHr Okr). rewrite Ez in IHr. destruct (tree_add_node r x) as [r' n]. simpl in *.
    rewrite IHr; [done|]. by apply list_elem_of_fmap_2.
Qed.

(** An object is added exactly when there is none with its key. *)
Lemma add_node_key t x :
  bst t -> all_ok t -> t_ok x ->
  inorder (tree_add_node t x).1 ≡ₚ (if decide (t_key x ∈ (t_key <$> inorder t)) then inorder t else x :: inorder t).
Proof using Type.
  intros Hb Hok Hx. case_decide as Hd; [by rewrite add_node_found|].
  destruct (add_node_inorder t x) as (l1 & l2 & E & [(E1 & E2 & E3)|[E1 E2]]).
  - destruct Hd. apply (t_cmp_zero _ x) in E3; [|by apply Hok|done]. rewrite E3. by apply list_elem_of_fmap_2.
  - rewrite E1, E. by rewrite Permutation_middle.
Qed.

(** The objects are in the order of the comparison. *)
Lemma bst_sorted (R : A -> A -> Prop) `{!Transitive R} t :
  (forall n x, t_ok n -> t_ok x -> t_cmp n x < 0 -> R x n) -> (forall n x, t_ok n -> t_ok x -> 0 < t_cmp n x -> R n x) ->
  bst t -> all_ok t -> StronglySorted R (inorder t).
Proof using Type.
  intros Hlt Hgt Hb. induction Hb as [|l p r Hl IHl Hr IHr H1 H2]; intros Hok; [constructor|].
  destruct (all_ok_node _ _ _ Hok) as (Okl & Okp & Okr).
  assert (forall a, a ∈ inorder l -> R a p) as Ha by auto. assert (forall b, b ∈ inorder r -> R p b) as Hb by auto.
  simpl. specialize (IHl Okl). induction (inorder l) as [|a la IH]; simpl.
  - constructor; [auto|]. by apply Forall_forall.
  - inversion IHl as [|? ? Hs Hf]; subst. constructor.
    + apply IH; [|done|]; intros; [apply H1|apply Ha]; by right.
    + apply Forall_app. split; [done|]. assert (R a p) as Hap by (apply Ha; by left). constructor; [done|].
      apply Forall_forall. intros b Hbr. etrans; [exact Hap|auto].
Qed.

Lemma tree_free_perm (t : tree A) : tree_free t ≡ₚ inorder t.
Proof using Type.
  induction t as [|l IHl x r IHr]; simpl; [done|]. rewrite IHl, IHr. rewrite (app_assoc (inorder r)), Permutation_app_comm. simpl.
  rewrite <- Permutation_middle. apply Permutation_cons; [done|]. apply Permutation_app_comm.
Qed.
End Facts.

Lemma tree_root_bst {A} `{TreeOps A} (x : A) : bst (tree_root x).
Proof. constructor; [constructor..| |]; intros y Hy; by apply elem_of_nil in Hy. Qed.

Lemma add_node_not_leaf {A} `{TreeOps A} t (x : A) : (tree_add_node t x).1 <> Leaf.
Proof.
  destruct t as [|l p r]; [done|]. simpl. destruct (_ =? 0); [done|]. destruct (_ <? 0).
  - by destruct (tree_add_node l x).
  - by destruct (tree_add_node r x).
Qed.

(** A walk is a walk along the list of the objects in order. *)
Section Walk.
Context {A S : Type} (work : A -> S -> Z * S).

Fixpoint walk (l : list A) (ret : Z) (s : S) : Z * S :=
  match l with
  | [] => (ret, s)
  | x :: l => let '(ret, s) := work x s in if ret =? 0 then (ret, s) else walk l ret s
  end.

Lemma walk_app l1 l2 ret s :
  ret <> 0 -> walk (l1 ++ l2) ret s = let '(r, s') := walk l1 ret s in if r =? 0 then (r, s') else walk l2 r s'.
Proof using Type.
  revert ret s. induction l1 as [|x l1 IH]; intros ret s Hr; simpl.
  - by destruct (Z.eqb_spec ret 0).
  - destruct (work x s) as [r s']. destruct (Z.eqb_spec r 0) as [->|Hr']; [done|]. by apply IH.
Qed.

Lemma walk_ret l ret ret' s : l <> [] -> walk l ret s = walk l ret' s.
Proof using Type. by destruct l. Qed.

Lemma traverse_walk (t : tree A) s : tree_traverse_inorder t work s = walk (inorder t) 1 s.
Proof using Type.
  revert s. induction t as [|l IHl x r IHr]; intros s; [done|]. cbn [tree_traverse_inorder inorder].
  rewrite walk_app by done.
  assert ((match l with Leaf => (1, s) | _ => tree_traverse_inorder l work s end) = walk (inorder l) 1 s) as ->
    by (destruct l; [done|apply IHl]).
  destruct (walk (inorder l) 1 s) as [r1 s1]. destruct (r1 =? 0); [done|]. simpl. destruct (work x s1) as [r2 s2].
  destruct (r2 =? 0); [done|]. destruct r as [|rl y rr]; [done|]. rewrite IHr. apply walk_ret. simpl. by destruct (inorder rl).
Qed.

Lemma walk_fold l ret s : ret <> 0 -> (forall x s, (work x s).1 <> 0) ->
  (walk l ret s).2 = foldl (fun s x => (work x s).2) s l /\ (walk l ret s).1 <> 0.
Proof using Type.
  intros Hr Hw. revert ret s Hr. induction l as [|x l IH]; intros ret s Hr; simpl; [done|].
  specialize (Hw x s) as Hx. destruct (work x s) as [r s']. simpl in *. destruct (Z.eqb_spec r 0); [done|]. by apply IH.
Qed.
End Walk.

(** ** Sorted lists *)

Lemma StronglySorted_snoc {A} (R : A -> A -> Prop) l x :
  StronglySorted R l -> (forall y, y ∈ l -> R y x) -> StronglySorted R (l ++ [x]).
Proof.
  induction 1 as [|y l Hs IH Hf]; intros Hx; simpl; [by repeat constructor|]. constructor.
  - apply IH. intros z Hz. apply Hx. by right.
  - apply Forall_app. split; [done|]. constructor; [|done]. apply Hx. by left.
Qed.

Lemma StronglySorted_reverse {A} (R : A -> A -> Prop) l : StronglySorted R l -> StronglySorted (flip R) (reverse l).
Proof.
  induction 1 as [|x l Hs IH Hf]; [constructor|]. rewrite reverse_cons. apply StronglySorted_snoc; [done|].
  intros y Hy. rewrite Forall_forall in Hf. apply Hf. by apply elem_of_reverse.
Qed.

Lemma StronglySorted_filter {A} (R : A -> A -> Prop) P `{!forall x, Decision (P x)} (l : list A) :
  StronglySorted R l -> StronglySorted R (filter P l).
Proof.
  induction 1 as [|x l Hs IH Hf]; [constructor|]. rewrite filter_cons. case_decide; [|done]. constructor; [done|].
  rewrite Forall_forall in *. intros y [_ Hy]%list_elem_of_filter. auto.
Qed.

Lemma StronglySorted_fmap {A B} (f : A -> B) (R : A -> A -> Prop) (R' : B -> B -> Prop) l :
  (forall x y, x ∈ l -> y ∈ l -> R x y -> R' (f x) (f y)) -> StronglySorted R l -> StronglySorted R' (f <$> l).
Proof.
  intros Hf Hs. induction Hs as [|x l Hs IH Hall]; [constructor|]. rewrite fmap_cons. constructor.
  - apply IH. intros y z Hy Hz. apply Hf; by right.
  - apply Forall_forall. intros z (y & -> & Hy)%list_elem_of_fmap. rewrite Forall_forall in Hall. apply Hf; [by left|by right|auto].
Qed.
