(* ===== verification/HostExports.v ===== *)
(** * The entry of the hosts map for a host (modules/lookup_hosts.c)

    The directories a host exports are put in a tree that orders them by length, and the
    walk of the tree writes the multi-mount entry to a buffer whose size was counted
    before. What the host exports is an argument. *)

From S2P Require Import Prelude CString Trees.
Open Scope Z_scope.

(** ** Model *)

(** What is used of [struct exportinfo]. *)
Record exportinfo := ExportInfo { dir : cstring }.

Definition tree_host_cmp (n exp : exportinfo) : Z :=
  if streq (dir exp) (dir n) then 0 else if strlen (dir exp) <? strlen (dir n) then -1 else 1.

#[export] Instance host_tree_ops : TreeOps exportinfo.
Proof.
  refine {| t_key := dir; t_cmp := tree_host_cmp; t_ok := fun _ => True |}.
  - intros n x _ _. unfold tree_host_cmp. destruct (streq_spec (dir x) (dir n)); [done|]. by case_match.
  - intros n x y _ _ _ E. unfold tree_host_cmp. by rewrite E.
Defined.

Definition tree_host_add_node (root : tree exportinfo) (exp : exportinfo) : tree exportinfo :=
  (tree_add_node root exp).1.

Definition quoted (s : cstring) : cstring := QUOTE :: s ++ [QUOTE].

(** [struct work_info]: what was written to the buffer, of which [pos] is the length. A
    write past its end is [None]. *)
Definition tree_host_work (host : cstring) (size : Z) (exp : exportinfo) (wi : option cstring) : Z * option cstring :=
  match wi with
  | None => (1, None)
  | Some s =>
      let line := quoted (dir exp) ++ str " " ++ quoted (host ++ str ":" ++ dir exp) in
      let line := if strlen s =? 0 then line else str " " ++ line in
      (1, if strlen s + strlen line + 1 <=? size then Some (s ++ line) else None)
  end.

(** The loop over the exports: the tree and the length of the entry. *)
Fixpoint exports_loop (host : cstring) (this : list exportinfo) (tree : option (Trees.tree exportinfo)) (mapent_len : Z)
  : option (Trees.tree exportinfo) * Z :=
  match this with
  | [] => (tree, mapent_len)
  | exp :: this =>
      let mapent_len := mapent_len + (strlen host + 2 * (strlen (dir exp) + 2) + 3) in
      match tree with
      | None => exports_loop host this (Some (tree_root exp)) mapent_len
      | Some t => exports_loop host this (Some (tree_host_add_node t exp)) mapent_len
      end
  end.

(** [ok] is the outcome of [malloc]; [None] is a write outside of the buffer. *)
Definition get_exports (host : cstring) (exports : list exportinfo) (ok : bool) : option (option cstring) :=
  let '(tree, mapent_len) := exports_loop host exports None 0 in
  if negb ok then Some None
  else
    match tree with
    | None => Some None
    | Some t =>
        match (tree_traverse_inorder t (tree_host_work host (mapent_len + 1)) (Some [])).2 with
        | Some s => Some (Some s)
        | None => None
        end
    end.

(** ** The tree *)

Definition shorter (x y : exportinfo) : Prop := strlen (dir x) <= strlen (dir y).

#[export] Instance shorter_trans : Transitive shorter.
Proof. unfold shorter. intros x y z. lia. Qed.

Lemma host_sorted (t : tree exportinfo) : bst t -> StronglySorted shorter (inorder t).
Proof.
  intros Hb. apply (bst_sorted shorter); [..|done|done].
  - intros n x _ _. simpl. unfold tree_host_cmp, shorter. repeat case_match; boolify; lia.
  - intros n x _ _. simpl. unfold tree_host_cmp, shorter. repeat case_match; boolify; lia.
Qed.

(** The bytes an export may need. *)
Definition room (host : cstring) (exp : exportinfo) : Z := strlen host + 2 * (strlen (dir exp) + 2) + 3.
Definition rooms (host : cstring) (l : list exportinfo) : Z := foldr (fun e n => room host e + n) 0 l.

Lemma rooms_perm host l l' : l ≡ₚ l' -> rooms host l = rooms host l'.
Proof. induction 1; simpl; lia. Qed.

Lemma room_pos host e : 0 < room host e.
Proof. unfold room. pose proof (strlen_nonneg host). pose proof (strlen_nonneg (dir e)). lia. Qed.

Lemma rooms_nonneg host l : 0 <= rooms host l.
Proof. induction l as [|a l IH]; simpl; [done|]. pose proof (room_pos host a). lia. Qed.

Record good_tree (host : cstring) (t : tree exportinfo) (seen : list exportinfo) (len : Z) : Prop := {
  gt_bst : bst t;
  gt_nodup : NoDup (dir <$> inorder t);
  gt_dirs : forall d, d ∈ (dir <$> inorder t) <-> d ∈ (dir <$> seen);
  gt_room : rooms host (inorder t) <= len
}.

Lemma good_add host t seen len e :
  good_tree host t seen len -> good_tree host (tree_host_add_node t e) (seen ++ [e]) (len + room host e).
Proof.
  intros [H1 H2 H3 H4]. pose proof (add_node_key t e H1 ltac:(done) I) as Hp. pose proof (room_pos host e).
  assert (forall d, d ∈ (dir <$> seen ++ [e]) <-> d = dir e \/ d ∈ (dir <$> inorder t)) as Hseen.
  { intros d. rewrite fmap_app, elem_of_app, H3. change (dir <$> [e]) with [dir e]. rewrite list_elem_of_singleton. naive_solver. }
  split; [by apply add_node_bst|..].
  - unfold tree_host_add_node. rewrite Hp. case_decide; [done|]. simpl. by constructor.
  - intros d. unfold tree_host_add_node. rewrite Hp, Hseen. case_decide as Hd; [naive_solver|]. simpl. apply elem_of_cons.
  - unfold tree_host_add_node. rewrite (rooms_perm _ _ _ Hp). case_decide; simpl; lia.
Qed.

Lemma host_root host e : good_tree host (tree_root e) [e] (room host e).
Proof.
  split; [apply tree_root_bst|apply NoDup_singleton|done|simpl; lia].
Qed.

Lemma exports_loop_good host l t seen len :
  good_tree host t seen len ->
  exists t' len', exports_loop host l (Some t) len = (Some t', len') /\ good_tree host t' (seen ++ l) len'.
Proof.
  revert t seen len. induction l as [|e l IH]; intros t seen len Hg; simpl.
  { exists t, len. by rewrite app_nil_r. }
  destruct (IH _ _ _ (good_add host t seen len e Hg)) as (t' & len' & H1 & H2). exists t', len'.
  rewrite <- app_assoc in H2. done.
Qed.

(** ** The entry *)

(** What is written for a list of exports. *)
Definition export_line (host : cstring) (e : exportinfo) : cstring :=
  quoted (dir e) ++ str " " ++ quoted (host ++ str ":" ++ dir e).

Fixpoint export_lines (host : cstring) (l : list exportinfo) : cstring :=
  match l with
  | [] => []
  | [e] => export_line host e
  | e :: l => export_line host e ++ str " " ++ export_lines host l
  end.

Lemma export_line_len host e : strlen (export_line host e) = room host e - 1.
Proof.
  unfold export_line, quoted, room, strlen. change (str " ") with [" "%char]. change (str ":") with [":"%char].
  repeat first [rewrite length_app | progress cbn [length app]]. lia.
Qed.

Lemma work_fold host size l s :
  s <> [] -> strlen s + rooms host l + 1 <= size ->
  foldl (fun s x => (tree_host_work host size x s).2) (Some s) l
  = Some (match l with [] => s | _ => s ++ str " " ++ export_lines host l end).
Proof.
  revert s. induction l as [|e l IH]; intros s Hs Hsz; [done|]. cbn [foldl]. simpl in Hsz.
  assert (0 <= rooms host l) as Hnn by apply rooms_nonneg.
  assert ((tree_host_work host size e (Some s)).2 = Some (s ++ str " " ++ export_line host e)) as ->.
  { unfold tree_host_work. fold (export_line host e). pose proof (export_line_len host e).
    destruct (Z.eqb_spec (strlen s) 0) as [E|_]; [by destruct s|]. cbn [snd].
    rewrite strlen_app. change (strlen (str " ")) with 1. by destruct (Z.leb_spec (strlen s + (1 + strlen (export_line host e)) + 1) size); [|lia]. }
  rewrite IH.
  - f_equal. destruct l; [done|]. cbn [export_lines]. by rewrite <- !app_assoc.
  - by destruct s.
  - rewrite !strlen_app, export_line_len. change (strlen (str " ")) with 1. lia.
Qed.

(** The entry for the exports of a host fits the buffer that was counted for it, and
    names every exported directory once, in the order of their lengths, so that a
    directory comes before those below it. *)
Theorem get_exports_fits host exports :
  exports <> [] ->
  exists l, get_exports host exports true = Some (Some (export_lines host l)) /\
    NoDup (dir <$> l) /\ (forall d, d ∈ (dir <$> l) <-> d ∈ (dir <$> exports)) /\ StronglySorted shorter l.
Proof.
  intros Hne. destruct exports as [|e exports]; [done|]. unfold get_exports. cbn [exports_loop].
  change (0 + _) with (room host e).
  destruct (exports_loop_good host exports _ _ _ (host_root host e)) as (t & len & -> & [H1 H2 H3 H4]).
  exists (inorder t). split; [|split; [done|split; [done|by apply host_sorted]]]. simpl.
  rewrite traverse_walk. destruct (walk_fold (tree_host_work host (len + 1)) (inorder t) 1 (Some [])) as [-> _].
  { done. }
  { by intros x [s|]. }
  assert (dir e ∈ (dir <$> inorder t)) as Hin by (apply H3; by left).
  destruct (inorder t) as [|x l] eqn:Et; [by apply elem_of_nil in Hin|]. cbn [foldl]. simpl in H4.
  assert (0 <= rooms host l) as Hnn by apply rooms_nonneg.
  assert ((tree_host_work host (len + 1) x (Some [])).2 = Some (export_line host x)) as ->.
  { unfold tree_host_work. fold (export_line host x). pose proof (export_line_len host x). cbn [snd].
    change (strlen []) with 0. cbn [Z.eqb].
    destruct (Z.leb_spec (0 + strlen (export_line host x) + 1) (len + 1)); [reflexivity|]. lia. }
  rewrite work_fold.
  - by destruct l.
  - done.
  - rewrite export_line_len. lia.
Qed.

Lemma get_exports_fits_witness :
  get_exports (str "h") [ExportInfo (str "/a/b"); ExportInfo (str "/a"); ExportInfo (str "/a")] true
  = Some (Some (QUOTE :: str "/a" ++ [QUOTE] ++ str " " ++ QUOTE :: str "h:/a" ++ [QUOTE] ++ str " " ++
      QUOTE :: str "/a/b" ++ [QUOTE] ++ str " " ++ QUOTE :: str "h:/a/b" ++ [QUOTE])) /\
  exists l, get_exports (str "h") [ExportInfo (str "/a/b"); ExportInfo (str "/a"); ExportInfo (str "/a")] true
    = Some (Some (export_lines (str "h") l)).
Proof.
  split; [reflexivity|].
  destruct (get_exports_fits (str "h") [ExportInfo (str "/a/b"); ExportInfo (str "/a"); ExportInfo (str "/a")] ltac:(done))
    as (l & H & _). by exists l.
Defined.
