(* ===== verification/MntExpire.v ===== *)
(** * The list of mounts to expire (lib/mounts.c)

    [mnts_get_expire_list] takes a reference to every mounted mount of a mount point and
    orders them with a tree by the length of the path; [mnts_put_expire_list] gives the
    references back. An element of the tree is the address of a mount and the mount. *)

From S2P Require Import Prelude CString Hash Memory CatPath MntTable MntProps MntOps MntExt Trees.
Open Scope Z_scope.

(** ** Model *)

Definition tree_mnt_cmp (n mnt : mnt_list) : Z :=
  if streq (m_mp mnt) (m_mp n) then 0 else if m_len mnt <? m_len n then -1 else 1.

#[export] Instance mnt_tree_ops : TreeOps (positive * mnt_list).
Proof.
  refine {| t_key := fun n => m_mp n.2; t_cmp := fun n x => tree_mnt_cmp n.2 x.2;
            t_ok := fun n => m_len n.2 = strlen (m_mp n.2) |}.
  - intros n x _ _. unfold tree_mnt_cmp. destruct (streq_spec (m_mp x.2) (m_mp n.2)); [done|]. by case_match.
  - intros n x y Hn Hx Hy E. unfold tree_mnt_cmp. by rewrite Hx, Hy, E.
Defined.

(** The character before the terminating NUL; there is none for an empty path. *)
Definition tree_mnt_expire_list_work (n : positive * mnt_list) (mnts : option (list positive)) : Z * option (list positive) :=
  (1, l ← mnts; c ← m_mp n.2 !! Z.to_nat (m_len n.2 - 1); Some (if c =a "/" then l else n.1 :: l)).

Fixpoint expire_loop (l : list positive) (tree : option (Trees.tree (positive * mnt_list)))
  : MM (option (Trees.tree (positive * mnt_list))) :=
  match l with
  | [] => mret tree
  | a :: l =>
      mnt ← load a;
      if negb (has_flag (m_flags mnt) MNTS_MOUNTED) then expire_loop l tree
      else
        __mnts_get_mount a;;
        match tree with
        | None => expire_loop l (Some (tree_root (a, mnt)))
        | Some t => expire_loop l (Some (tree_add_node t (a, mnt)).1)
        end
  end.

Definition mnts_get_expire_list (mnts : list positive) (ap : positive) : MM (list positive) :=
  mnts_hash_mutex_lock;;
  p ← load_ap ap;
  tree ← expire_loop (ap_mounts p) None;
  mnts ← match tree with
         | None => mret mnts
         | Some t => from_option_M (tree_traverse_inorder t tree_mnt_expire_list_work (Some mnts)).2
         end;
  mnts_hash_mutex_unlock;;
  mret mnts.

Fixpoint put_expire_loop (mnts : list positive) : MM unit :=
  match mnts with
  | [] => mret ()
  | a :: mnts => __mnts_put_mount a;; put_expire_loop mnts
  end.

Definition mnts_put_expire_list (mnts : list positive) : MM unit :=
  mnts_hash_mutex_lock;;
  put_expire_loop mnts;;
  mnts_hash_mutex_unlock.

(** ** The loop *)

(** Every mount has a path, and its length. *)
Definition paths_ok (s : mstate) : Prop :=
  forall a m, ms_heap s !! a = Some m -> m_len m = strlen (m_mp m) /\ m_mp m <> [].

Definition take_refs (l : list positive) (held : refs) : refs := foldr take_ref held l.

Definition same_paths (s s' : mstate) : Prop :=
  forall a m', ms_heap s' !! a = Some m' -> exists m, ms_heap s !! a = Some m /\ m_mp m' = m_mp m /\ m_len m' = m_len m /\
    m_flags m' = m_flags m.

Lemma same_paths_bump s a m : ms_heap s !! a = Some m -> same_paths s (put_heap (<[a := bump m]> (ms_heap s)) s).
Proof.
  intros Ha b mb Hb. cbn in Hb. destruct (decide (b = a)) as [->|].
  - rewrite lookup_insert_eq in Hb. injection Hb as <-. eauto.
  - rewrite lookup_insert_ne in Hb by done. eauto.
Qed.

Lemma same_paths_trans s1 s2 s3 : same_paths s1 s2 -> same_paths s2 s3 -> same_paths s1 s3.
Proof.
  intros H1 H2 a m3 H3. destruct (H2 a m3 H3) as (m2 & Ha2 & ? & ? & ?). destruct (H1 a m2 Ha2) as (m1 & ? & ? & ? & ?).
  exists m1. repeat split; congruence.
Qed.

Definition add_to_tree (tree : option (Trees.tree (positive * mnt_list))) (x : positive * mnt_list) : Trees.tree (positive * mnt_list) :=
  match tree with None => tree_root x | Some t => (tree_add_node t x).1 end.

Definition tree_nodes (tree : option (Trees.tree (positive * mnt_list))) : list (positive * mnt_list) :=
  from_option inorder [] tree.

(** The tree has the mounts that were seen, with their paths. *)
Record expire_tree (s : mstate) (tree : option (Trees.tree (positive * mnt_list))) (seen : list positive) : Prop := {
  et_bst : forall t, tree = Some t -> bst t /\ t <> Leaf;
  et_seen : (tree_nodes tree).*1 ≡ₚ seen;
  et_mnt : forall a m, (a, m) ∈ tree_nodes tree -> exists m0, ms_heap s !! a = Some m0 /\ m_mp m = m_mp m0 /\ m_len m = m_len m0
}.

Lemma expire_tree_add n s held tree seen a m :
  table_inv n s held -> paths_ok s -> expire_tree s tree seen -> ms_heap s !! a = Some m -> a ∉ seen ->
  expire_tree s (Some (add_to_tree tree (a, m))) (a :: seen).
Proof.
  intros T Hp [E1 E2 E3] Ha Hnot.
  assert (forall b mb, (b, mb) ∈ tree_nodes tree -> m_mp mb <> m_mp m /\ m_len mb = strlen (m_mp mb)) as Hother.
  { intros b mb Hb. destruct (E3 b mb Hb) as (m0 & Hm0 & Emp & Elen). destruct (Hp b m0 Hm0) as [Hl _]. split; [|congruence].
    intros E. assert (b = a) as -> by (eapply (ti_unique _ _ _ T); [exact Hm0|exact Ha|congruence]).
    destruct Hnot. rewrite <- E2. apply list_elem_of_fmap. exists (a, mb). done. }
  assert (inorder (add_to_tree tree (a, m)) ≡ₚ (a, m) :: tree_nodes tree) as Hperm.
  { destruct tree as [t|]; [|done]. simpl in *. destruct (E1 t eq_refl) as [Hb _]. rewrite (add_node_key t (a, m) Hb).
    - rewrite decide_False; [done|]. intros Hin. apply list_elem_of_fmap in Hin as ([b mb] & Eb & Hb'). simpl in Eb.
      by destruct (Hother b mb Hb') as [? _].
    - intros [b mb] Hb'. apply (Hother b mb Hb').
    - apply (Hp a m Ha). }
  split.
  - intros t [= <-]. destruct tree as [t|]; simpl; [|split; [apply tree_root_bst|done]].
    split; [by apply add_node_bst, E1|apply add_node_not_leaf].
  - simpl. rewrite Hperm. simpl. by rewrite E2.
  - intros b mb Hb. simpl in Hb. rewrite Hperm in Hb. apply elem_of_cons in Hb as [[= -> ->]|Hb]; [eauto|by apply E3].
Qed.

Lemma expire_tree_nil s : expire_tree s None [].
Proof. split; [done|done|]. intros a m Hin. by apply elem_of_nil in Hin. Qed.

Lemma expire_tree_bump s tree seen a m :
  ms_heap s !! a = Some m -> expire_tree s tree seen -> expire_tree (put_heap (<[a := bump m]> (ms_heap s)) s) tree seen.
Proof.
  intros Ha [E1 E2 E3]. split; [done|done|]. intros b mb Hb. destruct (E3 b mb Hb) as (m0 & Hm0 & ? & ?). cbn.
  destruct (decide (b = a)) as [->|]; [|exists m0; by rewrite lookup_insert_ne].
  exists (bump m). rewrite lookup_insert_eq. by simplify_eq.
Qed.

Lemma take_ref_add a held b : take_ref a held b = held b + (if decide (b = a) then 1 else 0).
Proof. unfold take_ref. case_decide; lia. Qed.

Lemma take_refs_comm l a held b : take_refs l (take_ref a held) b = take_ref a (take_refs l held) b.
Proof.
  induction l as [|c l IH]; [done|]. cbn [take_refs foldr]. fold (take_refs l held) (take_refs l (take_ref a held)).
  rewrite !take_ref_add, IH, take_ref_add. lia.
Qed.

Lemma paths_ok_same s s' : paths_ok s -> same_paths s s' -> paths_ok s'.
Proof.
  intros H E a m' Ha. destruct (E a m' Ha) as (m & Hm & E1 & E2 & _). rewrite E1, E2. by apply (H a).
Qed.

Lemma expire_loop_run l n s held tree seen al :
  NoDup l -> (forall a, a ∈ l -> a ∉ seen /\ exists m, ms_heap s !! a = Some m /\ on KMount m = true) ->
  table_inv n s held -> 0 <= n -> n + Z.of_nat (length l) < 2 ^ 32 -> paths_ok s -> expire_tree s tree seen ->
  exists tree' s', expire_loop l tree s al = Some (tree', s', al) /\ keeps s s' /\ same_paths s s' /\
    table_inv (n + Z.of_nat (length l)) s' (take_refs l held) /\
    expire_tree s' tree' (reverse l ++ seen).
Proof.
  intros Hnd. revert n s held tree seen. induction Hnd as [|a l Ha Hnd IH]; intros n s held tree seen Hl T H0 Hn Hp E.
  { exists tree, s. split; [done|]. split; [done|]. split; [intros b m Hb; eauto|]. rewrite Z.add_0_r. done. }
  destruct (Hl a) as [Hs (m & Hm & Hon)]; [by left|]. cbn [expire_loop].
  rewrite (bind_load (HH := mstate_heap) _ _ _ _ m) by done. change (has_flag (m_flags m) MNTS_MOUNTED) with (on KMount m).
  rewrite Hon. cbn [negb]. cbn [length] in Hn.
  assert (__mnts_get_mount a s al = Some ((), put_heap (<[a := bump m]> (ms_heap s)) s, al)) as Hget
    by apply (update_run (HH := mstate_heap) _ _ _ m _ Hm).
  rewrite (bind_some _ _ _ _ _ _ _ Hget). set (s1 := put_heap _ s).
  assert (same_paths s s1) as Hsame by by apply same_paths_bump.
  assert (table_inv (n + 1) s1 (take_ref a held)) as T1 by (apply get_ref_inv; [done|lia|done]).
  assert (expire_tree s1 (Some (add_to_tree tree (a, m))) (a :: seen)) as E1
    by (eapply expire_tree_bump; [done|]; by eapply expire_tree_add).
  destruct (IH (n + 1) s1 (take_ref a held) (Some (add_to_tree tree (a, m))) (a :: seen))
    as (tree' & s' & Hrun & K & Hs' & T' & E'); [..|lia|lia|by eapply paths_ok_same|done|].
  - intros b Hb. destruct (Hl b) as [Hb1 (mb & Hmb & Honb)]; [by right|].
    assert (b <> a) as Hne by (intros ->; done). split; [by rewrite not_elem_of_cons|].
    exists mb. cbn. by rewrite lookup_insert_ne.
  - done.
  - exists tree', s'. split; [by destruct tree|]. split; [done|]. split; [by eapply same_paths_trans|]. split.
    + replace (n + Z.of_nat (length (a :: l))) with (n + 1 + Z.of_nat (length l)) by (cbn [length]; lia).
      eapply table_inv_ext; [exact T'|]. intros b. simpl. symmetry. apply take_refs_comm.
    + rewrite reverse_cons, <- app_assoc. done.
Qed.

(** ** The list *)

Definition ends_slash (mp : cstring) : bool := bool_decide (last mp = Some "/"%char).

Lemma last_char m : m_len m = strlen (m_mp m) -> m_mp m <> [] ->
  exists c, m_mp m !! Z.to_nat (m_len m - 1) = Some c /\ (c =a "/") = ends_slash (m_mp m).
Proof.
  intros Hl Hne. assert (Z.to_nat (m_len m - 1) = pred (length (m_mp m))) as -> by (rewrite Hl; unfold strlen; lia).
  unfold ends_slash. rewrite last_lookup. destruct (lookup_lt_is_Some_2 (m_mp m) (pred (length (m_mp m)))) as [c Hc].
  { destruct (m_mp m); [done|]. simpl. lia. }
  exists c. split; [done|]. rewrite Hc. apply bool_decide_ext. split; [by intros ->|by intros [= ->]].
Qed.

Definition kept_nodes (l : list (positive * mnt_list)) : list (positive * mnt_list) :=
  filter (fun n => ends_slash (m_mp n.2) = false) l.

Lemma work_list_fold l mnts :
  (forall n, n ∈ l -> m_len n.2 = strlen (m_mp n.2) /\ m_mp n.2 <> []) ->
  foldl (fun s x => (tree_mnt_expire_list_work x s).2) (Some mnts) l = Some (reverse (kept_nodes l).*1 ++ mnts).
Proof.
  revert mnts. induction l as [|n l IH]; intros mnts Hl; [done|]. cbn [foldl].
  destruct (Hl n) as [H1 H2]; [by left|]. destruct (last_char n.2 H1 H2) as (c & Hc & Ec).
  unfold tree_mnt_expire_list_work at 2. cbn [snd]. simpl. rewrite Hc. simpl. rewrite Ec, IH by (intros; apply Hl; by right).
  unfold kept_nodes. rewrite filter_cons. destruct (ends_slash (m_mp n.2)); [rewrite decide_False by done; done|].
  rewrite decide_True by done. rewrite fmap_cons, reverse_cons, <- app_assoc. done.
Qed.

Definition mnt_len (s : mstate) (a : positive) : Z := from_option m_len 0 (ms_heap s !! a).
Definition slashed (s : mstate) (a : positive) : bool := from_option (fun m => ends_slash (m_mp m)) false (ms_heap s !! a).

Definition longer (n x : positive * mnt_list) : Prop := m_len n.2 <= m_len x.2.
#[export] Instance longer_trans : Transitive longer.
Proof. unfold longer. intros x y z. lia. Qed.

Lemma expire_tree_list s t seen :
  paths_ok s -> expire_tree s (Some t) seen ->
  exists l, (forall mnts, (tree_traverse_inorder t tree_mnt_expire_list_work (Some mnts)).2 = Some (l ++ mnts)) /\
    l ≡ₚ filter (fun a => slashed s a = false) seen /\ StronglySorted (fun a b => mnt_len s b <= mnt_len s a) l.
Proof.
  intros Hp [E1 E2 E3]. destruct (E1 t eq_refl) as [Hb _]. simpl in *.
  assert (forall n, n ∈ inorder t -> m_len n.2 = strlen (m_mp n.2) /\ m_mp n.2 <> [] /\ mnt_len s n.1 = m_len n.2 /\
    slashed s n.1 = ends_slash (m_mp n.2)) as Hn.
  { intros [a m] Ha. destruct (E3 a m Ha) as (m0 & Hm0 & Em & El). simpl. unfold mnt_len, slashed. rewrite Hm0. simpl.
    rewrite Em, El. destruct (Hp a m0 Hm0). done. }
  exists (reverse (kept_nodes (inorder t)).*1). split; [|split].
  - intros mnts. rewrite traverse_walk. destruct (walk_fold tree_mnt_expire_list_work (inorder t) 1 (Some mnts)) as [-> _]; [done..|].
    apply work_list_fold. intros n Hin. by destruct (Hn n Hin) as (? & ? & _).
  - rewrite reverse_Permutation, <- E2. clear -Hn. induction (inorder t) as [|n l IH]; [done|].
    unfold kept_nodes. rewrite filter_cons, fmap_cons, filter_cons. destruct (Hn n) as (_ & _ & _ & Es); [by left|]. rewrite Es.
    case_decide; [rewrite fmap_cons; apply Permutation_cons; [done|]|]; (apply IH; intros; apply Hn; by right).
  - apply StronglySorted_reverse. eapply (StronglySorted_fmap fst longer).
    + intros x y Hx Hy Hlen. unfold kept_nodes in *. apply list_elem_of_filter in Hx as [_ Hx], Hy as [_ Hy]. unfold flip.
      destruct (Hn x Hx) as (_ & _ & -> & _), (Hn y Hy) as (_ & _ & -> & _). exact Hlen.
    + apply StronglySorted_filter, bst_sorted; try done.
      * apply _.
      * intros n x _ _. simpl. unfold tree_mnt_cmp, longer. repeat case_match; boolify; lia.
      * intros n x _ _. simpl. unfold tree_mnt_cmp, longer. repeat case_match; boolify; lia.
      * intros n Hin. by destruct (Hn n Hin).
Qed.

(** ** Taking and giving back *)

Lemma filter_same (f g : positive -> bool) (l : list positive) :
  (forall a, a ∈ l -> f a = g a) -> filter (fun a => f a = false) l = filter (fun a => g a = false) l.
Proof.
  induction l as [|a l IH]; intros H; [done|]. rewrite !filter_cons, (H a) by by left.
  rewrite IH by (intros; apply H; by right). done.
Qed.

Section Expire.
Context (n : Z) (s : mstate) (held : refs) (ap : positive) (P : apoint) (al : alloc).
Context (T : table_inv n s held) (H0 : 0 <= n) (Hn : n + Z.of_nat (length (ap_mounts P)) < 2 ^ 32).
Context (Hu : ms_locked s = false) (HP : ms_aps s !! ap = Some P) (Hp : paths_ok s).

Lemma get_expire_list_run mnts :
  exists l s', mnts_get_expire_list mnts ap s al = Some (l ++ mnts, s', al) /\ keeps s s' /\ same_paths s s' /\
    table_inv (n + Z.of_nat (length (ap_mounts P))) s' (take_refs (ap_mounts P) held) /\
    l ≡ₚ filter (fun a => slashed s a = false) (ap_mounts P) /\ StronglySorted (fun a b => mnt_len s b <= mnt_len s a) l.
Proof using T H0 Hn Hu HP Hp.
  unfold mnts_get_expire_list. rewrite lock_run by done. rewrite (load_ap_run _ _ _ _ P) by done.
  destruct (ti_lists _ _ _ T _ _ KMount HP) as [Hnd Hl].
  destruct (expire_loop_run (ap_mounts P) n (put_locked true s) held None [] al) as (tree & s1 & H1 & K & Hs & T1 & E);
    [done| |by apply table_inv_locked|done|done|done|apply expire_tree_nil|].
  { intros a Ha. split; [set_solver|]. apply Hl in Ha as (m & Hm & Hk). exists m. split; [done|].
    by eapply (ti_fld _ _ _ T). }
  rewrite (bind_some _ _ _ _ _ _ _ H1).
  assert (forall a, a ∈ ap_mounts P -> exists m m1, ms_heap s !! a = Some m /\ ms_heap s1 !! a = Some m1 /\
    m_mp m1 = m_mp m /\ m_len m1 = m_len m) as Hboth.
  { intros a Ha. destruct tree as [t|]; destruct E as [_ E2 E3]; rewrite app_nil_r in E2.
    - assert (a ∈ (inorder t).*1) as Hin by (simpl in E2; rewrite E2; by apply elem_of_reverse).
      apply list_elem_of_fmap in Hin as ([b m2] & -> & Hin). destruct (E3 b m2 Hin) as (m1 & Hm1 & _).
      destruct (Hs b m1 Hm1) as (m & Hm & ? & ? & _). exists m, m1. done.
    - simpl in E2. symmetry in E2. apply Permutation_nil_r, (f_equal reverse) in E2. rewrite reverse_involutive in E2.
      rewrite E2 in Ha. by apply elem_of_nil in Ha. }
  assert (forall a, a ∈ ap_mounts P -> slashed s1 a = slashed s a /\ mnt_len s1 a = mnt_len s a) as Hsame.
  { intros a Ha. destruct (Hboth a Ha) as (m & m1 & E1 & E1' & E2 & E3). unfold slashed, mnt_len. rewrite E1, E1'. simpl.
    by rewrite E2, E3. }
  destruct tree as [t|].
  - destruct (expire_tree_list s1 t (reverse (ap_mounts P) ++ [])) as (l & Hlist & Hperm & Hsort); [by eapply paths_ok_same|done|].
    rewrite Hlist. exists l, (put_locked false s1). split; [done|]. split; [by apply keeps_unlock|].
    split; [done|]. split; [by apply table_inv_locked|]. rewrite app_nil_r, reverse_Permutation in Hperm. split.
    + rewrite Hperm. erewrite filter_same; [done|]. intros a Ha. apply (Hsame a Ha).
    + rewrite <- (list_fmap_id l). eapply StronglySorted_fmap; [|exact Hsort]. intros a b Ha Hb. simpl.
      rewrite Hperm in Ha, Hb. apply list_elem_of_filter in Ha as [_ Ha], Hb as [_ Hb].
      by rewrite (proj2 (Hsame a Ha)), (proj2 (Hsame b Hb)).
  - exists [], (put_locked false s1). split; [done|]. split; [by apply keeps_unlock|]. split; [done|].
    split; [by apply table_inv_locked|]. destruct E as [_ E2 _]. rewrite app_nil_r in E2. simpl in E2. symmetry in E2.
    apply Permutation_nil_r, (f_equal reverse) in E2. rewrite reverse_involutive in E2. rewrite E2. split; [done|constructor].
Qed.
End Expire.

Lemma take_refs_count l held b : take_refs l held b = held b + Z.of_nat (length (filter (fun a => a = b) l)).
Proof.
  induction l as [|a l IH]; simpl; [lia|]. rewrite take_ref_add, IH, filter_cons.
  repeat case_decide; subst; cbn [length]; try done; lia.
Qed.

Lemma put_expire_run l n s held al :
  table_inv n s (take_refs l held) -> (forall b, 0 <= held b) -> n < 2 ^ 32 ->
  exists s', put_expire_loop l s al = Some ((), s', al) /\ keeps s s' /\ table_inv n s' held.
Proof.
  intros T H0 Hn. revert s T. induction l as [|a l IH]; intros s T; simpl; [by exists s|].
  destruct (put_mount_run n s _ a al T) as (s1 & H1 & T1 & K1 & _); [|done|].
  { simpl. rewrite take_ref_eq, take_refs_count. specialize (H0 a). lia. }
  rewrite (bind_some _ _ _ _ _ _ _ H1). destruct (IH s1) as (s' & H2 & K2 & T2).
  - eapply table_inv_ext; [exact T1|]. intros b. simpl. unfold drop_ref, take_ref. case_decide; lia.
  - exists s'. split; [done|]. split; [by etrans|done].
Qed.

(** C24. The expire list of a mount point has its mounted mounts, less those whose path
    ends in a slash, each once, and no mount is behind one that it is below: nested
    mounts come first. *)
Theorem expire_list_inner_first n s held ap P al :
  table_inv n s held -> 0 <= n -> n + Z.of_nat (length (ap_mounts P)) < 2 ^ 32 -> ms_locked s = false ->
  ms_aps s !! ap = Some P -> paths_ok s ->
  exists l s', mnts_get_expire_list [] ap s al = Some (l, s', al) /\
    l ≡ₚ filter (fun a => slashed s a = false) (ap_mounts P) /\
    forall l1 b l2 a ma mb t, l = l1 ++ b :: l2 -> a ∈ l2 -> ms_heap s !! a = Some ma -> ms_heap s !! b = Some mb ->
      t <> [] -> m_mp ma <> m_mp mb ++ t.
Proof.
  intros T H0 Hn Hu HP Hp. destruct (get_expire_list_run n s held ap P al T H0 Hn Hu HP Hp []) as (l & s' & Hrun & _ & _ & _ & Hperm & Hs).
  exists l, s'. rewrite app_nil_r in Hrun. split; [done|]. split; [done|].
  intros l1 b l2 a ma mb t -> Ha Hma Hmb Ht E.
  assert (mnt_len s a <= mnt_len s b) as Hlen.
  { clear -Hs Ha. induction l1 as [|x l1 IH]; simpl in Hs; inversion Hs as [|? ? Hs' Hf]; subst; [|by apply IH].
    rewrite Forall_forall in Hf. auto. }
  unfold mnt_len in Hlen. rewrite Hma, Hmb in Hlen. simpl in Hlen. destruct (Hp a ma Hma) as [E1 _], (Hp b mb Hmb) as [E2 _].
  rewrite E1, E2, E, strlen_app in Hlen. destruct t; [done|]. unfold strlen in Hlen. simpl in Hlen. lia.
Qed.

(** To take the expire list and to give it back is balanced: both return, and the
    callers hold afterwards what they held before, if no path ends in a slash. *)
Theorem expire_list_balanced n s held ap P al :
  table_inv n s held -> 0 <= n -> n + Z.of_nat (length (ap_mounts P)) < 2 ^ 32 -> ms_locked s = false ->
  ms_aps s !! ap = Some P -> paths_ok s -> (forall a, a ∈ ap_mounts P -> slashed s a = false) ->
  exists s', (l ← mnts_get_expire_list [] ap; mnts_put_expire_list l) s al = Some ((), s', al) /\
    table_inv (n + Z.of_nat (length (ap_mounts P))) s' held /\ ms_locked s' = false.
Proof.
  intros T H0 Hn Hu HP Hp Hsl. pose proof (fun b => proj1 (ti_held _ _ _ T b)) as Hh.
  destruct (get_expire_list_run n s held ap P al T H0 Hn Hu HP Hp []) as (l & s1 & Hrun & K & _ & T1 & Hperm & _).
  rewrite app_nil_r in Hrun. rewrite (bind_some _ _ _ _ _ _ _ Hrun). unfold mnts_put_expire_list.
  rewrite lock_run by by eapply keeps_unlocked.
  assert (l ≡ₚ ap_mounts P) as Hl.
  { rewrite Hperm. clear -Hsl. induction (ap_mounts P) as [|a l IH]; [done|]. rewrite filter_cons, decide_True by (apply Hsl; by left).
    apply Permutation_cons; [done|]. apply IH. intros; apply Hsl; by right. }
  destruct (put_expire_run l (n + Z.of_nat (length (ap_mounts P))) (put_locked true s1) held al) as (s' & H2 & K2 & T2).
  - apply table_inv_locked. eapply table_inv_ext; [exact T1|]. intros b. rewrite !take_refs_count.
    by rewrite (Permutation_length (filter_Permutation _ _ _ Hl)).
  - done.
  - lia.
  - rewrite (bind_some _ _ _ _ _ _ _ H2). eexists. split; [reflexivity|]. split; [by apply table_inv_locked|done].
Qed.

(** ** Examples *)

Definition expire_ap : apoint := AP (str "/m") None 7 [] [] [].

Fixpoint add_all (names : list cstring) : MM unit :=
  match names with
  | [] => mret ()
  | name :: names => _ ← mnts_add_mount 1 name MNTS_MOUNTED; add_all names
  end.

(** The state after some mounts were added, which is well formed. *)
Definition expire_state (names : list cstring) : mstate :=
  match add_all names (no_mounts {[1%positive := expire_ap]}) [] with
  | Some (_, s, _) => s
  | None => no_mounts ∅
  end.

(** A mount whose path ends in a slash is not on the list, but its reference was taken:
    it is never given back. *)
Theorem expire_list_leaks_slash :
  match (l ← mnts_get_expire_list [] 1; mnts_put_expire_list l) (expire_state [str "/m/a/"]) [] with
  | Some (_, s', _) =>
      exists m m', ms_heap (expire_state [str "/m/a/"]) !! 1%positive = Some m /\ ms_heap s' !! 1%positive = Some m' /\
        m_ref m = 1 /\ m_ref m' = 2
  | None => False
  end.
Proof. vm_compute. eexists _, _. done. Qed.

Lemma no_points_inv aps : (forall p P k, aps !! p = Some P -> k_list k P = []) -> table_inv 0 (no_mounts aps) (fun _ => 0).
Proof.
  intros H. split; [apply length_replicate|..]; try done.
  - intros i l [-> _]%lookup_replicate. split; [constructor|]. intros a Ha. by apply elem_of_nil in Ha.
  - intros p P k HP. rewrite (H p P k HP). split; [constructor|]. intros a. split; [intros Ha; by apply elem_of_nil in Ha|].
    by intros (m & Hm & _).
Qed.

Lemma add_all_inv names n s held al :
  table_inv n s held -> 0 <= n -> n + Z.of_nat (length names) < 2 ^ 32 -> ms_locked s = false ->
  is_Some (ms_aps s !! 1%positive) ->
  exists s' al', add_all names s al = Some ((), s', al') /\ table_inv (n + Z.of_nat (length names)) s' held.
Proof.
  revert n s al. induction names as [|name names IH]; intros n s al T H0 Hn Hu [P HP]; cbn [add_all].
  { exists s, al. by rewrite Z.add_0_r. }
  cbn [length] in *.
  destruct (add_mount_run n s held 1 P name MNTS_MOUNTED al T ltac:(lia) Hu HP eq_refl eq_refl) as (r & s1 & al1 & H1 & K & T1 & _).
  rewrite (bind_some _ _ _ _ _ _ _ H1). destruct (keeps_ap _ _ _ _ K HP) as (P1 & HP1 & _).
  destruct (IH (n + 1) s1 al1) as (s' & al' & H2 & T2); [by destruct r|lia|lia|by eapply keeps_unlocked|by eexists|].
  exists s', al'. split; [done|]. by replace (n + Z.of_nat (S (length names))) with (n + 1 + Z.of_nat (length names)) by lia.
Qed.

Lemma expire_state_inv names :
  Z.of_nat (length names) < 2 ^ 32 -> table_inv (Z.of_nat (length names)) (expire_state names) (fun _ => 0).
Proof.
  intros Hn. unfold expire_state.
  destruct (add_all_inv names 0 (no_mounts {[1%positive := expire_ap]}) (fun _ => 0) []) as (s' & al' & -> & T).
  - apply no_points_inv. intros p P k. rewrite lookup_singleton. case_decide; [|done]. intros [= <-]. by destruct k.
  - done.
  - lia.
  - done.
  - by eexists.
  - exact T.
Qed.

Definition expire_example : mstate := Eval vm_compute in expire_state [str "a"; str "a/b"].

Lemma expire_example_inv : table_inv 2 expire_example (fun _ => 0).
Proof.
  assert (expire_state [str "a"; str "a/b"] = expire_example) as <- by (vm_compute; reflexivity).
  apply (expire_state_inv [str "a"; str "a/b"]). done.
Qed.

Definition all_paths_ok (s : mstate) : bool :=
  forallb (fun am => (m_len am.2 =? strlen (m_mp am.2)) && negb (bool_decide (m_mp am.2 = []))) (map_to_list (ms_heap s)).

Lemma all_paths_ok_spec s : all_paths_ok s = true -> paths_ok s.
Proof.
  unfold all_paths_ok. intros H%Is_true_true a m Ha. apply forallb_True in H. rewrite Forall_forall in H.
  apply elem_of_map_to_list, H, Is_true_true in Ha. simpl in Ha. by boolify.
Qed.

Lemma expire_list_inner_first_witness :
  exists P l s', ms_aps expire_example !! 1%positive = Some P /\ mnts_get_expire_list [] 1 expire_example [] = Some (l, s', []) /\
    l = [2%positive; 1%positive] /\ l ≡ₚ filter (fun a => slashed expire_example a = false) (ap_mounts P).
Proof.
  exists (default expire_ap (ms_aps expire_example !! 1%positive)).
  edestruct (expire_list_inner_first 2 expire_example (fun _ => 0) 1
    (default expire_ap (ms_aps expire_example !! 1%positive)) [] expire_example_inv) as (l & s' & Hrun & Hp & _).
  { lia. }
  { vm_compute. reflexivity. }
  { reflexivity. }
  { vm_compute. reflexivity. }
  { apply all_paths_ok_spec. vm_compute. reflexivity. }
  exists l, s'. split; [vm_compute; reflexivity|]. split; [exact Hrun|]. split; [|exact Hp].
  vm_compute in Hrun. by injection Hrun as <- _.
Defined.

Lemma expire_list_balanced_witness :
  exists s', (l ← mnts_get_expire_list [] 1; mnts_put_expire_list l) expire_example [] = Some ((), s', []).
Proof.
  edestruct (expire_list_balanced 2 expire_example (fun _ => 0) 1
    (default expire_ap (ms_aps expire_example !! 1%positive)) [] expire_example_inv) as (s' & Hrun & _).
  { lia. }
  { vm_compute. reflexivity. }
  { reflexivity. }
  { vm_compute. reflexivity. }
  { apply all_paths_ok_spec. vm_compute. reflexivity. }
  { intros a Ha. vm_compute in Ha. repeat (apply elem_of_cons in Ha as [->|Ha]; [vm_compute; reflexivity|]).
    by apply elem_of_nil in Ha. }
  exists s'. exact Hrun.
Defined.
