(* ===== verification/Offsets.v ===== *)
(** * The tree of the offsets of a multi-mount (lib/mounts.c, modules/parse_sun.c)

    The offsets of a multi-mount are entries of the cache; the entry of the key of the
    multi-mount is the root of a tree of them, ordered by their keys. A mount of an
    offset mounts the offsets directly below it, which are found by a walk of the part of
    the tree below its node. *)

From S2P Require Import Prelude CString Hash Cache CacheInv CacheOps CacheProps CacheUpdate CatPath Trees.
Open Scope Z_scope.

(** ** Comparison *)

(** The sign of [strcmp]. *)
Fixpoint strcmp (s t : cstring) : Z :=
  match s, t with
  | [], [] => 0
  | [], _ => -1
  | _, [] => 1
  | a :: s, b :: t => if uchar a <? uchar b then -1 else if uchar b <? uchar a then 1 else strcmp s t
  end.

Definition tree_mapent_cmp (n me : mapent) : Z :=
  if strneq (me_key me) (me_key n) (Z.to_nat (me_len n)) then
    if me_len me <? me_len n then -1
    else if me_len n <? me_len me then 1
    else strcmp (me_key me) (me_key n)
  else strcmp (me_key me) (me_key n).

Lemma strcmp_zero s t : strcmp s t = 0 <-> s = t.
Proof.
  revert t. induction s as [|a s IH]; intros [|b t]; simpl; try done.
  destruct (Z.ltb_spec (uchar a) (uchar b)) as [E|E]; [split; [done|]; intros [= -> _]; lia|].
  destruct (Z.ltb_spec (uchar b) (uchar a)) as [E'|E']; [split; [done|]; intros [= -> _]; lia|].
  assert (a = b) as -> by (apply uchar_inj; lia). rewrite IH. split; [by intros ->|by intros [= ->]].
Qed.

Lemma strcmp_anti s t : strcmp s t = - strcmp t s.
Proof.
  revert t. induction s as [|a s IH]; intros [|b t]; simpl; try done.
  destruct (Z.ltb_spec (uchar a) (uchar b)), (Z.ltb_spec (uchar b) (uchar a)); try done; lia.
Qed.

Lemma strcmp_trans s t u : strcmp s t < 0 -> strcmp t u < 0 -> strcmp s u < 0.
Proof.
  revert t u. induction s as [|a s IH]; intros [|b t] [|c u]; simpl; try lia.
  destruct (Z.ltb_spec (uchar a) (uchar b)), (Z.ltb_spec (uchar b) (uchar a)); try lia;
    destruct (Z.ltb_spec (uchar b) (uchar c)), (Z.ltb_spec (uchar c) (uchar b)); try lia;
    destruct (Z.ltb_spec (uchar a) (uchar c)), (Z.ltb_spec (uchar c) (uchar a)); try lia.
  apply IH.
Qed.

Lemma strcmp_app s t : t <> [] -> strcmp s (s ++ t) < 0.
Proof.
  intros Ht. induction s as [|a s IH]; simpl; [by destruct t|]. destruct (Z.ltb_spec (uchar a) (uchar a)); [lia|]. exact IH.
Qed.

(** What is between a path and one below it has the path as a prefix. *)
Lemma strcmp_between b p t : strcmp b p < 0 -> strcmp p (b ++ t) < 0 -> exists u, p = b ++ u.
Proof.
  revert p. induction b as [|a b IH]; intros p; [by exists p|]. destruct p as [|c p]; simpl; [lia|].
  destruct (Z.ltb_spec (uchar a) (uchar c)), (Z.ltb_spec (uchar c) (uchar a)); try lia.
  assert (a = c) as -> by (apply uchar_inj; lia). intros H1 H2. destruct (IH p H1 H2) as [u ->]. by exists u.
Qed.

(** The comparison of two keys is that of [strcmp]: the length decides nothing that the
    characters do not. *)
Lemma tree_mapent_cmp_sgn n me :
  me_len n = strlen (me_key n) -> me_len me = strlen (me_key me) ->
  Z.sgn (tree_mapent_cmp n me) = Z.sgn (strcmp (me_key me) (me_key n)).
Proof.
  intros Hn Hm. unfold tree_mapent_cmp, strneq. rewrite Hn, Hm. unfold strlen. rewrite Nat2Z.id.
  case_bool_decide as E; [|done]. rewrite (take_ge (me_key n)) in E by done.
  assert (exists t, me_key me = me_key n ++ t) as [t Et].
  { exists (drop (length (me_key n)) (me_key me)). rewrite <- E at 1. by rewrite take_drop. }
  rewrite Et, length_app. destruct t as [|c t].
  - rewrite app_nil_r. simpl. rewrite Nat.add_0_r. by rewrite Z.ltb_irrefl.
  - simpl length. destruct (Z.ltb_spec (Z.of_nat (length (me_key n) + S (length t))) (Z.of_nat (length (me_key n)))); [lia|].
    destruct (Z.ltb_spec (Z.of_nat (length (me_key n))) (Z.of_nat (length (me_key n) + S (length t)))); [|lia].
    rewrite strcmp_anti. pose proof (strcmp_app (me_key n) (c :: t) ltac:(done)). lia.
Qed.

#[export] Instance mapent_tree_ops : TreeOps (addr * mapent).
Proof.
  refine {| t_key := fun n => me_key n.2; t_cmp := fun n x => tree_mapent_cmp n.2 x.2;
            t_ok := fun n => me_len n.2 = strlen (me_key n.2) |}.
  - intros n x Hn Hx. rewrite <- strcmp_zero. pose proof (tree_mapent_cmp_sgn n.2 x.2 Hn Hx).
    by rewrite <- Z.sgn_null_iff, <- (Z.sgn_null_iff (strcmp _ _)), H.
  - intros n x y Hn Hx Hy E. unfold tree_mapent_cmp. by rewrite Hx, Hy, E.
Defined.

(** ** The part of the tree below a node *)

Abbreviation otree := (tree (addr * mapent)).

Fixpoint node_of (a : addr) (t : otree) : option otree :=
  match t with
  | Leaf => None
  | Node l x r => if bool_decide (x.1 = a) then Some t else
      match node_of a l with Some n => Some n | None => node_of a r end
  end.

Definition klen (n : addr * mapent) : Z := strlen (me_key n.2).

(** No node is longer than one below it in the tree. *)
Fixpoint short_first (t : otree) : Prop :=
  match t with
  | Leaf => True
  | Node l x r => short_first l /\ short_first r /\ forall y, y ∈ inorder l ++ inorder r -> klen x <= klen y
  end.

Lemma add_short_first t x :
  short_first t -> (forall y, y ∈ inorder t -> klen y <= klen x) -> short_first (tree_add_node t x).1.
Proof.
  induction t as [|l IHl p r IHr]; simpl; intros Hs Hx.
  { repeat split. intros y Hy. by apply elem_of_nil in Hy. }
  destruct Hs as (Hl & Hr & Hp). destruct (_ =? 0); [done|].
  assert (klen p <= klen x) as Hpx by (apply Hx; set_solver).
  destruct (_ <? 0).
  - pose proof (elem_add l x) as He. destruct (tree_add_node l x) as [l' n]. simpl in *. split; [|split; [done|]].
    + apply IHl; [done|]. intros y Hy. apply Hx. set_solver.
    + intros y [[->|Hy]%He|Hy]%elem_of_app; [done|apply Hp; set_solver..].
  - pose proof (elem_add r x) as He. destruct (tree_add_node r x) as [r' n]. simpl in *. split; [done|split].
    + apply IHr; [done|]. intros y Hy. apply Hx. set_solver.
    + intros y [Hy|[->|Hy]%He]%elem_of_app; [apply Hp; set_solver|done|apply Hp; set_solver].
Qed.

Lemma node_of_elem a t n : node_of a t = Some n -> forall x, x ∈ inorder n -> x ∈ inorder t.
Proof.
  revert n. induction t as [|l IHl p r IHr]; simpl; intros n Hn x Hx; [done|]. case_bool_decide; [by injection Hn as <-|].
  destruct (node_of a l) as [n'|] eqn:El.
  - injection Hn as <-. apply elem_of_app. left. by eapply IHl.
  - apply elem_of_app. right. right. by eapply IHr.
Qed.

Lemma node_of_None a t : node_of a t = None <-> a ∉ (inorder t).*1.
Proof.
  induction t as [|l IHl p r IHr]; simpl; [set_solver|]. rewrite fmap_app, fmap_cons. case_bool_decide as E.
  - split; [done|]. intros H. destruct H. rewrite <- E. set_solver.
  - destruct (node_of a l) as [n|] eqn:El.
    + split; [done|]. intros H. assert (a ∉ (inorder l).*1) as H1 by set_solver. by apply IHl in H1.
    + assert (a ∉ (inorder l).*1) by by apply IHl. rewrite IHr. set_solver.
Qed.

Definition below (b k : addr * mapent) : Prop := exists t, t <> [] /\ me_key k.2 = me_key b.2 ++ t.

Lemma cmp_lt n x : t_ok n -> t_ok x -> t_cmp n x < 0 -> strcmp (me_key x.2) (me_key n.2) < 0.
Proof. intros Hn Hx H. pose proof (tree_mapent_cmp_sgn n.2 x.2 Hn Hx). simpl in H. lia. Qed.

Lemma cmp_gt n x : t_ok n -> t_ok x -> 0 < t_cmp n x -> strcmp (me_key n.2) (me_key x.2) < 0.
Proof.
  intros Hn Hx H. pose proof (tree_mapent_cmp_sgn n.2 x.2 Hn Hx). rewrite strcmp_anti. simpl in H. lia.
Qed.

(** A node between an offset and one below it in the order of the keys cannot be above
    the offset in the tree, since it is longer. *)
Lemma below_not_split b k p :
  below b k -> strcmp (me_key b.2) (me_key p.2) < 0 -> strcmp (me_key p.2) (me_key k.2) < 0 -> klen b < klen p.
Proof.
  intros (t & Ht & Ek) H1 H2. rewrite Ek in H2. destruct (strcmp_between _ _ _ H1 H2) as [u Eu]. unfold klen. rewrite Eu, strlen_app.
  destruct u as [|c u]; [|unfold strlen; simpl; lia].
  rewrite app_nil_r in Eu. rewrite Eu in H1. pose proof (proj2 (strcmp_zero (me_key b.2) (me_key b.2)) eq_refl). lia.
Qed.

Lemma subtree_has_below t b k :
  bst t -> all_ok t -> short_first t -> NoDup (inorder t).*1 -> b ∈ inorder t -> k ∈ inorder t -> below b k ->
  exists n, node_of b.1 t = Some n /\ k ∈ inorder n.
Proof.
  intros Hb Hok Hs Hnd Hbin Hkin Hbelow. induction Hb as [|l p r Hl IHl Hr IHr H1 H2]; [by apply elem_of_nil in Hbin|].
  destruct (all_ok_node _ _ _ Hok) as (Okl & Okp & Okr). destruct Hs as (Sl & Sr & Sp).
  simpl in Hnd, Hbin, Hkin |- *. rewrite fmap_app, fmap_cons in Hnd.
  apply NoDup_app in Hnd as (NDl & Hdis & [Hp NDr]%NoDup_cons).
  assert (klen b < klen k) as Hlen.
  { destruct Hbelow as (t & Ht & E). unfold klen. rewrite E, strlen_app. destruct t; [done|]. unfold strlen. simpl. lia. }
  assert (strcmp (me_key b.2) (me_key k.2) < 0) as Hlt by (destruct Hbelow as (t & Ht & ->); by apply strcmp_app).
  apply elem_of_app in Hbin, Hkin. case_bool_decide as Ep.
  { eexists. split; [done|]. simpl. apply elem_of_app. done. }
  assert (b <> p) as Hbp by by intros ->.
  assert (k <> p) as Hkp.
  { intros ->. assert (b ∈ inorder l ++ inorder r) as Hin by (apply elem_of_app; set_solver). specialize (Sp b Hin). lia. }
  assert (b ∈ inorder l \/ b ∈ inorder r) as [Hbl|Hbr] by set_solver;
    assert (k ∈ inorder l \/ k ∈ inorder r) as [Hkl|Hkr] by set_solver.
  - destruct (IHl Okl Sl NDl Hbl Hkl) as (n & -> & Hn). by exists n.
  - assert (klen b < klen p) as Hbp'.
    { apply (below_not_split b k p Hbelow); [apply cmp_lt|apply cmp_gt]; auto. }
    assert (klen p <= klen b) by (apply Sp; set_solver). lia.
  - assert (strcmp (me_key k.2) (me_key b.2) < 0) as Hgt.
    { eapply strcmp_trans; [apply (cmp_lt p k); auto|apply (cmp_gt p b); auto]. }
    rewrite strcmp_anti in Hgt. lia.
  - destruct (IHr Okr Sr NDr Hbr Hkr) as (n & Hn & Hin).
    assert (node_of b.1 l = None) as -> by (apply node_of_None; intros Hin'; apply (Hdis b.1 Hin'); set_solver).
    by exists n.
Qed.

(** * Building, walking and deleting the tree of offsets (lib/mounts.c, modules/parse_sun.c) *)

(** ** Building *)

Definition set_mm_root (r : option addr) (me : mapent) : mapent :=
  Mapent (me_next me) (me_source me) r (me_mm_parent me) (me_key me) (me_len me)
    (me_mapent me) (me_stack me) (me_age me) (me_status me) (me_flags me) (me_ioctlfd me) (me_dev me) (me_ino me).
Definition set_mm_parent (p : option addr) (me : mapent) : mapent :=
  Mapent (me_next me) (me_source me) (me_mm_root me) p (me_key me) (me_len me)
    (me_mapent me) (me_stack me) (me_age me) (me_status me) (me_flags me) (me_ioctlfd me) (me_dev me) (me_ino me).

(** [MAPENT_SET_ROOT(me, tree_mapent_root(me))]. *)
Definition make_root (a : addr) : CM otree :=
  store a (set_mm_root (Some a));;
  me ← deref a;
  mret (tree_root (a, me)).

(** [root] is the address of the entry whose node is the root of the tree. *)
Definition tree_mapent_add_node (root : addr) (t : otree) (a : addr) : CM otree :=
  me ← deref a;
  let t := (tree_add_node t (a, me)).1 in
  store a (set_mm_root (Some root));;
  parent ← cache_get_offset_parent (me_key me);
  store a (set_mm_parent (match parent with None => Some root | Some p => Some p end));;
  mret t.

(** ** The list of the offsets of an entry (modules/parse_sun.c) *)

Definition MAPENT_MAX_LEN : Z := 16384.

(** The walk from the end of the list: [back] is what was not yet looked at, last
    first, [behind] is what was. *)
Fixpoint place (back behind : list addr) (a : addr) (len : Z) : CM (list addr) :=
  match back with
  | [] => mret (a :: behind)
  | last :: back =>
      this ← deref last;
      if me_len this <=? len then
        mret (match behind with
              | [] => reverse back ++ [last; a]
              | _ => reverse back ++ a :: last :: behind
              end)
      else place back (last :: behind) a len
  end.

(** [m_offset] without trailing slashes, but for the first character. *)
Fixpoint trim_slashes (rev : cstring) : cstring :=
  match rev with
  | c :: ((_ :: _) as rev') => if c =a "/" then trim_slashes rev' else rev
  | _ => rev
  end.

Definition update_offset_entry (type : option cstring) (offsets : list addr) (name m_root m_offset myoptions : cstring)
  (loc : option cstring) (age : Z) : CM (Z * list addr) :=
  let noloc := match loc with None => true | Some l => bool_decide (l = []) end in
  let ishosts := match type with Some t => streq t (str "hosts") | None => false end in
  if noloc && negb ishosts then mret (CHE_FAIL, offsets) else
  if bool_decide (m_offset = []) then mret (CHE_FAIL, offsets) else
  let off := reverse (trim_slashes (reverse m_offset)) in
  if PATH_MAX <? strlen m_root + strlen off then mret (CHE_FAIL, offsets) else
  let m_key := m_root ++ off in
  let m_options_len := if bool_decide (myoptions = []) then 0 else strlen myoptions + 2 in
  let m_mapent_len := from_option strlen 0 loc in
  if MAPENT_MAX_LEN <? m_mapent_len + m_options_len then mret (CHE_FAIL, offsets) else
  let m_mapent :=
    if bool_decide (myoptions = []) then default [] loc
    else str "-" ++ myoptions ++ match loc with Some l => str " " ++ l | None => [] end in
  ret ← cache_update_offset name m_key m_mapent age;
  me ← cache_lookup_distinct (Some m_key);
  offsets ← match me with
            | None => mret offsets
            | Some a =>
                if bool_decide (a ∈ offsets) then mret offsets
                else e ← deref a; place (reverse offsets) [] a (me_len e)
            end;
  mret (if ret =? CHE_DUPLICATE then CHE_OK else if ret =? CHE_FAIL then CHE_FAIL else CHE_OK, offsets).

(** ** Walking *)

Definition tree_mapent_is_root (a : addr) (oe : mapent) : bool :=
  bool_decide (last (me_key oe) = Some "/"%char) || bool_decide (me_mm_root oe = Some a).

(** [ctxt->base] and [ctxt->strict]; [sel] is the test of a node, which reads the entry. *)
Section Subtree.
Context {A S : Type} (sel : A -> S -> bool) (work : A -> S -> Z * S) (strict : bool).

Fixpoint tree_mapent_traverse_subtree (n : tree A) (s : S) : Z * S :=
  match n with
  | Leaf => (-1, s)
  | Node l x r =>
      let '(ret, s) := match l with Leaf => (-1, s) | _ => tree_mapent_traverse_subtree l s end in
      if (ret =? 0) && strict then (ret, s) else
      let '(ret, s) := if sel x s then work x s else (ret, s) in
      if (ret =? 0) && strict then (ret, s) else
      match r with Leaf => (ret, s) | _ => tree_mapent_traverse_subtree r s end
  end.

(** What a walk does: it works on the nodes of a list until one fails, if it is strict. *)
Fixpoint visit (l : list A) (s : S) : bool * S :=
  match l with
  | [] => (true, s)
  | x :: l => let '(ret, s) := work x s in if (ret =? 0) && strict then (false, s) else visit l s
  end.

Lemma visit_app l1 l2 s : visit (l1 ++ l2) s = let '(ok, s') := visit l1 s in if ok then visit l2 s' else (false, s').
Proof using Type.
  revert s. induction l1 as [|x l1 IH]; intros s; simpl; [by destruct (visit l2 s)|].
  destruct (work x s) as [ret s']. destruct (_ && _); [done|]. apply IH.
Qed.

Context (test : A -> bool) (Hsel : forall x s, sel x s = test x).

(** The walk works on the nodes that pass the test, in their order. *)
Lemma traverse_subtree_visit t s :
  let '(ret, s') := tree_mapent_traverse_subtree t s in
  visit (filter (fun x => test x = true) (inorder t)) s = (negb ((ret =? 0) && strict), s').
Proof using Hsel.
  revert s. induction t as [|l IHl x r IHr]; intros s; [done|]. cbn [tree_mapent_traverse_subtree inorder].
  rewrite filter_app, filter_cons, visit_app.
  assert (exists ret1 s1, (match l with Leaf => (-1, s) | _ => tree_mapent_traverse_subtree l s end) = (ret1, s1) /\
    visit (filter (fun x => test x = true) (inorder l)) s = (negb ((ret1 =? 0) && strict), s1)) as (ret1 & s1 & -> & ->).
  { specialize (IHl s). destruct l; [by exists (-1), s|]. destruct (tree_mapent_traverse_subtree _ s) as [ret1 s1]. by exists ret1, s1. }
  destruct ((ret1 =? 0) && strict) eqn:E1; cbn [negb]; [by rewrite E1|].
  assert (forall ret2 s2, (ret2 =? 0) && strict = false ->
    let '(ret, s') := match r with Leaf => (ret2, s2) | _ => tree_mapent_traverse_subtree r s2 end in
    visit (filter (fun x => test x = true) (inorder r)) s2 = (negb ((ret =? 0) && strict), s')) as Hr.
  { intros ret2 s2 E. specialize (IHr s2). destruct r; [simpl; by rewrite E|done]. }
  rewrite Hsel. destruct (test x).
  - rewrite decide_True by done. simpl. destruct (work x s1) as [ret2 s2]. destruct ((ret2 =? 0) && strict) eqn:E2; [by rewrite E2|].
    by apply Hr.
  - rewrite decide_False by done. rewrite E1. by apply Hr.
Qed.
End Subtree.

(** ** Deleting *)

(** The result is 1 when all of it was deleted, with what is left of the tree. *)
Fixpoint tree_mapent_delete_offset_tree (root : otree) : CM (Z * otree) :=
  match root with
  | Leaf => mret (1, Leaf)
  | Node l (a, e) r =>
      '(ret, l) ← match l with Leaf => mret (1, Leaf) | _ => tree_mapent_delete_offset_tree l end;
      if ret =? 0 then mret (0, Node l (a, e) r) else
      '(ret, r) ← match r with Leaf => mret (1, Leaf) | _ => tree_mapent_delete_offset_tree r end;
      if ret =? 0 then mret (0, Node Leaf (a, e) r) else
      me ← deref a;
      if negb (bool_decide (me_mm_root me = Some a)) then
        ok ← malloc;
        if negb ok then mret (0, Node Leaf (a, e) Leaf) else
        store a (set_mm_root None);;
        ret ← cache_delete (me_key me);
        if negb (ret =? CHE_OK) then
          store a (set_mm_root (me_mm_root me));;
          mret (0, Node Leaf (a, e) Leaf)
        else mret (1, Leaf)
      else
        store a (set_mm_root None);;
        store a (set_mm_parent None);;
        mret (1, Node Leaf (a, e) Leaf)
  end.

(** [tree_of] gives the tree of an entry that is the root of one. *)
Definition tree_mapent_delete_offsets (tree_of : addr -> otree) (key : cstring) : CM Z :=
  me ← cache_lookup_distinct (Some key);
  match me with
  | None => mret 0
  | Some a =>
      e ← deref a;
      if negb (bool_decide (me_mm_root e = Some a)) then mret 0
      else
        '(ret, _) ← tree_mapent_delete_offset_tree (tree_of a);
        if ret =? 0 then mret 0 else mret 1
  end.
