(* ===== verification/OffsetClaims.v ===== *)
(** * Theorems on the offsets of a multi-mount *)

From S2P Require Import Prelude CString Hash Cache CacheInv CacheOps CacheProps CacheUpdate Trees Offsets.
Open Scope Z_scope.

(** ** The tree of offsets that were added in order *)

Definition build (root : addr * mapent) (l : list (addr * mapent)) : otree :=
  foldl (fun t x => (tree_add_node t x).1) (tree_root root) l.

Definition len_le (x y : addr * mapent) : Prop := klen x <= klen y.
Definition key_lt (x y : addr * mapent) : Prop := strcmp (me_key x.2) (me_key y.2) < 0.

#[export] Instance key_lt_trans : Transitive key_lt.
Proof. intros x y z. unfold key_lt. apply strcmp_trans. Qed.

Record good_offsets (t : otree) (l : list (addr * mapent)) : Prop := {
  go_bst : bst t;
  go_short : short_first t;
  go_perm : inorder t ≡ₚ l
}.

Lemma good_root x : good_offsets (tree_root x) [x].
Proof. split; [apply tree_root_bst| |done]. repeat split. intros y Hy. by apply elem_of_nil in Hy. Qed.

Lemma good_add_offset t l x :
  good_offsets t l -> (forall y, y ∈ l -> t_ok y) -> t_ok x -> (forall y, y ∈ l -> klen y <= klen x) ->
  t_key x ∉ (t_key <$> l) -> good_offsets (tree_add_node t x).1 (l ++ [x]).
Proof.
  intros [H1 H2 H3] Hok Hx Hlen Hnew. split.
  - by apply add_node_bst.
  - apply add_short_first; [done|]. intros y Hy. apply Hlen. by rewrite <- H3.
  - rewrite add_node_key; [|done|intros y Hy; apply Hok; by rewrite <- H3|done].
    rewrite decide_False by by rewrite H3. rewrite H3. by rewrite Permutation_app_comm.
Qed.

Lemma build_good root l :
  (forall x, x ∈ root :: l -> t_ok x) -> NoDup (t_key <$> root :: l) -> StronglySorted len_le (root :: l) ->
  good_offsets (build root l) (root :: l).
Proof.
  intros Hok Hnd Hs. unfold build. change (root :: l) with ([root] ++ l) in *. pose proof (good_root root) as Hg.
  revert Hok Hnd Hs Hg. generalize (tree_root root) as t. generalize [root] as done. induction l as [|x l IH]; intros seen t Hok Hnd Hs Hg.
  { by rewrite app_nil_r. }
  simpl. assert (seen ++ x :: l = (seen ++ [x]) ++ l) as E by by rewrite <- app_assoc. rewrite E in *. apply IH; try done.
  rewrite <- E in *. rewrite fmap_app, fmap_cons in Hnd. apply NoDup_app in Hnd as (_ & Hdis & _).
  apply good_add_offset; [done|intros y Hy; apply Hok; set_solver|apply Hok; set_solver| |].
  - intros y Hy. clear -Hs Hy. induction seen as [|z seen IH]; [by apply elem_of_nil in Hy|].
    simpl in Hs. inversion Hs as [|? ? Hs' Hf]; subst. apply elem_of_cons in Hy as [->|Hy]; [|by apply IH].
    rewrite Forall_forall in Hf. apply Hf. set_solver.
  - intros Hin. apply (Hdis _ Hin). by left.
Qed.

Lemma node_of_bst a t n : bst t -> node_of a t = Some n -> bst n.
Proof.
  intros Hb. revert n. induction Hb as [|l p r Hl IHl Hr IHr H1 H2]; simpl; intros n Hn; [done|].
  case_bool_decide; [injection Hn as <-; by constructor|]. destruct (node_of a l) as [n'|]; [injection Hn as <-|]; auto.
Qed.

Lemma node_of_sublist a t n : node_of a t = Some n -> sublist (inorder n) (inorder t).
Proof.
  revert n. induction t as [|l IHl p r IHr]; simpl; intros n Hn; [done|]. case_bool_decide; [injection Hn as <-; done|].
  destruct (node_of a l) as [n'|].
  - injection Hn as <-. apply sublist_inserts_r. auto.
  - apply sublist_inserts_l, sublist_cons. auto.
Qed.


Definition offset_node (a : addr) (key : string) : addr * mapent := (a, new_mapent 1 (str key) None 0).


(** ** The list of offsets *)

Lemma place_run mc (lens : addr -> Z) back behind a len :
  (forall x, x ∈ back -> exists e, mc_heap mc !! x = Some e /\ me_len e = lens x) ->
  exists l, reads (place back behind a len) mc l /\ l ≡ₚ a :: reverse back ++ behind /\
    (behind = [] -> (forall x, x ∈ back -> lens x <= len) -> l = reverse back ++ [a]) /\
    ((forall x, x ∈ back -> len < lens x) -> l = a :: reverse back ++ behind).
Proof.
  revert behind. induction back as [|x back IH]; intros behind Hl; cbn [place].
  { exists (a :: behind). split; [done|]. split; [done|]. split; [by intros ->|done]. }
  destruct (Hl x) as (e & He & Elen); [by left|]. rewrite reverse_cons.
  destruct (Z.leb_spec (me_len e) len) as [Hle|Hgt].
  - eexists. split; [|split; [|split]].
    + intros m. rewrite (reads_bind _ _ _ _ _ (deref_reads mc x e He)). destruct (Z.leb_spec (me_len e) len); [reflexivity|lia].
    + destruct behind as [|y behind].
      * rewrite app_nil_r. change [x; a] with ([x] ++ [a]). rewrite app_assoc. by rewrite Permutation_app_comm.
      * rewrite <- app_assoc. by rewrite <- Permutation_middle.
    + intros -> _. by rewrite <- app_assoc.
    + intros Hall. specialize (Hall x ltac:(by left)). lia.
  - destruct (IH (x :: behind)) as (l & Hr & Hp & H1 & H2); [intros; apply Hl; by right|]. exists l. split; [|split; [|split]].
    + intros m. rewrite (reads_bind _ _ _ _ _ (deref_reads mc x e He)). destruct (Z.leb_spec (me_len e) len); [lia|apply Hr].
    + rewrite Hp. by rewrite <- app_assoc.
    + intros _ Hall. specialize (Hall x ltac:(by left)). lia.
    + intros Hall. rewrite <- app_assoc. apply H2. intros y Hy. apply Hall. by right.
Qed.

(** ** A list that is not in order *)

Definition offset_step (name off : cstring) (offsets : list addr) : CM (list addr) :=
  '(_, offsets) ← update_offset_entry None offsets name name off [] (Some (str "s:/x")) 1; mret offsets.

Fixpoint offset_steps (name : cstring) (offs : list cstring) (offsets : list addr) : CM (list addr) :=
  match offs with
  | [] => mret offsets
  | off :: offs => offsets ← offset_step name off offsets; offset_steps name offs offsets
  end.

Fixpoint add_nodes (root : addr) (t : otree) (l : list addr) : CM otree :=
  match l with
  | [] => mret t
  | a :: l => t ← tree_mapent_add_node root t a; add_nodes root t l
  end.

(** What [parse_mount] does with the offsets of an entry: it reads them, makes the list
    and the tree. *)
Definition multi_mount (name : cstring) (offs : list cstring) : CM (list addr * otree) :=
  _ ← cache_update 1 name (Some (str "entry")) 1;
  offsets ← offset_steps name offs [];
  root ← cache_lookup_distinct (Some name);
  root ← from_option_M root;
  t ← make_root root;
  t ← add_nodes root t offsets;
  mret (offsets, t).

Definition keys_of (mc : mapent_cache) (l : list addr) : list cstring :=
  omap (fun a => me_key <$> mc_heap mc !! a) l.

(** The offsets /a, /a/b/c and /a/b are put in the list as /a/b, /a, /a/b/c: an offset
    that is neither the longest nor the shortest is put before the last one that is not
    longer, not behind it. The offset /a/b is directly below /a but is not in the part of
    the tree at /a, so that it is not mounted together with /a. *)
Theorem offset_out_of_order :
  match multi_mount (str "/m") [str "/a"; str "/a/b/c"; str "/a/b"] (one_bucket None ∅) [] with
  | Some (offsets, t, mc, _) =>
      keys_of mc offsets = [str "/m/a/b"; str "/m/a"; str "/m/a/b/c"] /\
      exists a b e n, cache_lookup_distinct (Some (str "/m/a")) mc [] = Some (Some a, mc, []) /\
        cache_lookup_distinct (Some (str "/m/a/b")) mc [] = Some (Some b, mc, []) /\
        mc_heap mc !! b = Some e /\ me_mm_parent e = Some a /\ node_of a t = Some n /\ b ∉ (inorder n).*1
  | None => False
  end.
Proof.
  vm_compute. split; [reflexivity|]. eexists _, _, _, _. repeat (split; [reflexivity|]).
  intros H. by repeat (apply elem_of_cons in H as [?|H]; [done|]); apply elem_of_nil in H.
Qed.

(** ** Deletion *)

(** The entries of the nodes of a tree: one for each key, part of the multi-mount. *)
Definition node_live (mc : mapent_cache) (cs : list (list addr)) (root : addr) (n : addr * mapent) : Prop :=
  exists e, mc_heap mc !! n.1 = Some e /\ me_key e = me_key n.2 /\ me_mm_root e = Some root /\
    entries mc cs (me_key n.2) = [n.1].

(** What a deletion of keys leaves of the others. *)
Definition others_kept (keys : list cstring) (mc : mapent_cache) (cs : list (list addr)) (mc' : mapent_cache) (cs' : list (list addr)) : Prop :=
  forall key, key ∉ keys -> entries mc' cs' key = entries mc cs key /\
    forall b, b ∈ entries mc cs key -> payload <$> mc_heap mc' !! b = payload <$> mc_heap mc !! b.

Lemma others_kept_trans k1 k2 mc cs mc1 cs1 mc2 cs2 :
  others_kept k1 mc cs mc1 cs1 -> others_kept k2 mc1 cs1 mc2 cs2 -> others_kept (k1 ++ k2) mc cs mc2 cs2.
Proof.
  intros H1 H2 key Hk. destruct (H1 key) as [E1 P1]; [set_solver|]. destruct (H2 key) as [E2 P2]; [set_solver|].
  split; [congruence|]. intros b Hb. rewrite P2 by by rewrite E1. by apply P1.
Qed.

Lemma node_live_kept keys mc cs mc' cs' root n :
  others_kept keys mc cs mc' cs' -> me_key n.2 ∉ keys -> node_live mc cs root n -> node_live mc' cs' root n.
Proof.
  intros H Hk (e & He & Ek & Er & En). destruct (H _ Hk) as [E P].
  specialize (P n.1 ltac:(rewrite En; by left)). rewrite He in P. simpl in P.
  destruct (mc_heap mc' !! n.1) as [e'|] eqn:E'; [|done]. simpl in P.
  destruct (payload_fields e e') as [Ek' Er']; [by apply (inj Some) in P|]. exists e'. split; [done|]. rewrite E. split_and!; congruence.
Qed.

(** One offset is deleted. *)
Lemma delete_node_run mc cs root a e key :
  wf mc cs -> mc_heap mc !! a = Some e -> me_key e = key -> entries mc cs key = [a] -> a <> root -> me_mm_root e = Some root ->
  exists mc' cs', (store a (set_mm_root None);; cache_delete key) mc [] = Some (CHE_OK, mc', []) /\ wf mc' cs' /\
    entries mc' cs' key = [] /\ others_kept [key] mc cs mc' cs'.
Proof.
  intros W He Hk Hent Hne Hr. set (e1 := set_mm_root None e). set (mc1 := with_heap (<[a := e1]> (mc_heap mc)) mc).
  assert (wf mc1 cs) as W1 by (apply (wf_update mc cs a e e1); done).
  assert (forall k, entries mc1 cs k = entries mc cs k) as E1 by (intros k; by apply (entries_update mc cs a e e1)).
  destruct (cache_delete_run mc1 cs key [] W1) as (mc' & cs' & Hrun & W' & Hnil & Hoth & Hkp & _).
  { rewrite E1, Hent. intros b ->%list_elem_of_singleton. unfold sat. cbn. by rewrite lookup_insert_eq. }
  exists mc', cs'. split; [by rewrite (bind_store a e)|]. split; [done|]. split; [done|].
  intros key' Hk'. rewrite not_elem_of_cons in Hk'. destruct Hk' as [Hk' _]. rewrite Hoth by done. split; [apply E1|].
  intros b Hb. assert (b <> a) as Hba.
  { intros ->. unfold entries in Hb. apply list_elem_of_filter in Hb as [Hs _]. unfold sat, has_key in Hs. rewrite He in Hs.
    apply streq_true in Hs. congruence. }
  rewrite Hkp; [cbn; by rewrite lookup_insert_ne|]. split.
  - unfold entries in Hb. by apply list_elem_of_filter in Hb as [_ ?].
  - rewrite E1, Hent. by rewrite list_elem_of_singleton.
Qed.

Lemma delete_tree_run (t : otree) root mc cs :
  wf mc cs -> (forall n, n ∈ inorder t -> node_live mc cs root n /\ n.1 <> root) -> NoDup (t_key <$> inorder t) ->
  exists mc' cs', tree_mapent_delete_offset_tree t mc [] = Some ((1, Leaf), mc', []) /\ wf mc' cs' /\
    (forall n, n ∈ inorder t -> entries mc' cs' (me_key n.2) = []) /\ others_kept (t_key <$> inorder t) mc cs mc' cs'.
Proof.
  revert mc cs. induction t as [|l IHl [a x] r IHr]; intros mc cs W Hl Hnd.
  { exists mc, cs. split; [done|]. split; [done|]. split; [intros n Hn; by apply elem_of_nil in Hn|done]. }
  cbn [inorder] in Hl, Hnd |- *. rewrite fmap_app, fmap_cons in Hnd. apply NoDup_app in Hnd as (NDl & Hdis & [Hx NDr]%NoDup_cons).
  destruct (IHl mc cs W) as (mc1 & cs1 & H1 & W1 & N1 & K1); [intros; apply Hl; set_solver|done|].
  assert (forall n, n ∈ inorder r -> t_key n ∉ (t_key <$> inorder l)) as Hrl.
  { intros n Hn Hin. apply (Hdis _ Hin). right. by apply list_elem_of_fmap_2. }
  destruct (IHr mc1 cs1 W1) as (mc2 & cs2 & H2 & W2 & N2 & K2).
  { intros n Hn. destruct (Hl n) as [Hlv ?]; [set_solver|]. split; [|done]. eapply node_live_kept; [exact K1|by apply Hrl|done]. }
  { done. }
  destruct (Hl (a, x)) as [Hlx Hax]; [set_solver|]. cbn [fst] in Hax. pose proof (others_kept_trans _ _ _ _ _ _ _ _ K1 K2) as K12.
  assert (me_key x ∉ (t_key <$> inorder l) ++ (t_key <$> inorder r)) as Hx'.
  { rewrite elem_of_app. intros [Hin|Hin]; [|done]. apply (Hdis _ Hin). by left. }
  apply (node_live_kept _ _ _ _ _ _ (a, x) K12 Hx') in Hlx as (e & He & Ek & Er & Een).
  destruct (delete_node_run mc2 cs2 root a e (me_key x) W2 He Ek Een Hax Er) as (mc3 & cs3 & H3 & W3 & N3 & K3).
  exists mc3, cs3. split.
  { cbn [tree_mapent_delete_offset_tree].
    assert ((match l with Leaf => mret (1, Leaf) | _ => tree_mapent_delete_offset_tree l end) mc [] = Some ((1, Leaf), mc1, [])) as Hl'
      by by destruct l.
    assert ((match r with Leaf => mret (1, Leaf) | _ => tree_mapent_delete_offset_tree r end) mc1 [] = Some ((1, Leaf), mc2, [])) as Hr'
      by by destruct r.
    rewrite (bind_some _ _ _ _ _ _ _ Hl'). cbn [Z.eqb]. rewrite (bind_some _ _ _ _ _ _ _ Hr'). cbn [Z.eqb].
    rewrite (reads_bind _ _ _ _ _ (deref_reads _ _ _ He)). rewrite Er, bool_decide_eq_false_2 by congruence. cbn [negb].
    rewrite (bind_some malloc _ _ _ true mc2 []) by done. cbn [negb]. rewrite Ek.
    rewrite bind_bind, (bind_some _ _ _ _ _ _ _ H3). done. }
  split; [done|]. pose proof (others_kept_trans _ _ _ _ _ _ _ _ K12 K3) as K. split.
  - intros n [Hn|[->|Hn]%elem_of_cons]%elem_of_app; [|done|].
    + destruct (K2 (me_key n.2)) as [E2 _]; [intros Hin; apply (Hdis (t_key n)); [by apply list_elem_of_fmap_2|by right]|].
      destruct (K3 (me_key n.2)) as [E3 _].
      { rewrite list_elem_of_singleton. intros E. apply (Hdis (t_key n)); [by apply list_elem_of_fmap_2|]. simpl. rewrite E. by left. }
      rewrite E3, E2. by apply N1.
    + destruct (K3 (me_key n.2)) as [E3 _]; [|rewrite E3; by apply N2].
      rewrite list_elem_of_singleton. intros E. apply Hx. change (t_key (a, x)) with (me_key x). rewrite <- E.
      change (me_key n.2) with (t_key n). by apply list_elem_of_fmap_2.
  - intros key Hkey. apply K. rewrite fmap_app, fmap_cons in Hkey. set_solver.
Qed.

(** C23. To delete the offsets of a multi-mount removes exactly the entries of its tree:
    the call succeeds, no offset is found any more, the entry of the multi-mount is none
    any more but is kept, and all other entries are as before. *)
Theorem delete_offsets_complete mc cs (tree_of : addr -> otree) key root x l r :
  wf mc cs -> tree_of root = Node l (root, x) r -> me_key x = key ->
  (forall n, n ∈ inorder (tree_of root) -> node_live mc cs root n) ->
  (forall n, n ∈ inorder l ++ inorder r -> n.1 <> root) -> NoDup (t_key <$> inorder (tree_of root)) ->
  exists mc' cs' e, tree_mapent_delete_offsets tree_of key mc [] = Some (1, mc', []) /\ wf mc' cs' /\
    (forall n, n ∈ inorder l ++ inorder r -> forall m, cache_lookup_distinct (Some (me_key n.2)) mc' m = Some (None, mc', m)) /\
    entries mc' cs' key = [root] /\ mc_heap mc' !! root = Some e /\ me_mm_root e = None /\ me_mm_parent e = None /\
    (forall key', key' ∉ (t_key <$> inorder (tree_of root)) -> entries mc' cs' key' = entries mc cs key').
Proof.
  intros W Et Hkey Hlive Hne Hnd. rewrite Et in *. cbn [inorder] in *.
  assert (t_key (root, x) = key) as Hkey' by done.
  assert (forall n, n ∈ inorder l ++ inorder r -> n ∈ inorder l ++ (root, x) :: inorder r) as Hin by set_solver.
  rewrite fmap_app, fmap_cons in Hnd. apply NoDup_app in Hnd as (NDl & Hdis & [Hx NDr]%NoDup_cons).
  destruct (delete_tree_run l root mc cs W) as (mc1 & cs1 & H1 & W1 & N1 & K1); [|done|].
  { intros n Hn. split; [apply Hlive, Hin|apply Hne]; set_solver. }
  destruct (delete_tree_run r root mc1 cs1 W1) as (mc2 & cs2 & H2 & W2 & N2 & K2); [|done|].
  { intros n Hn. split; [|apply Hne; set_solver]. eapply node_live_kept; [exact K1| |apply Hlive, Hin; set_solver].
    intros Hin'. apply (Hdis _ Hin'). right. change (me_key n.2) with (t_key n). by apply list_elem_of_fmap_2. }
  pose proof (others_kept_trans _ _ _ _ _ _ _ _ K1 K2) as K.
  assert (key ∉ (t_key <$> inorder l) ++ (t_key <$> inorder r)) as Hk.
  { rewrite elem_of_app. intros [Hl|Hr]; [apply (Hdis _ Hl); rewrite Hkey'; by left|]. apply Hx. by rewrite Hkey'. }
  destruct (Hlive (root, x)) as (e0 & He0 & _ & Er0 & Een0); [set_solver|]. cbn [fst snd] in *. rewrite Hkey in Een0.
  assert (node_live mc2 cs2 root (root, x)) as (e & He & Ek & Er & Een).
  { apply (node_live_kept _ _ _ _ _ _ (root, x) K); [simpl; by rewrite Hkey|]. apply Hlive. set_solver. }
  cbn [fst snd] in *. set (e1 := set_mm_parent None (set_mm_root None e)).
  set (mc3 := with_heap (<[root := e1]> (mc_heap mc2)) mc2).
  assert (forall k, entries mc3 cs2 k = entries mc2 cs2 k) as E3 by (intros k; by apply (entries_update mc2 cs2 root e e1)).
  assert (wf mc3 cs2) as W3 by by apply (wf_update mc2 cs2 root e e1).
  exists mc3, cs2, e1. split; [|split; [done|split; [|split; [|split; [|split; [done|split; [done|]]]]]]].
  - unfold tree_mapent_delete_offsets. rewrite (reads_bind _ _ _ _ _ (lookup_distinct_reads _ _ W key)), Een0. cbn [head].
    rewrite (reads_bind _ _ _ _ _ (deref_reads _ _ _ He0)), Er0, bool_decide_eq_true_2 by done. cbn [negb]. rewrite Et.
    cbn [tree_mapent_delete_offset_tree].
    assert ((match l with Leaf => mret (1, Leaf) | _ => tree_mapent_delete_offset_tree l end) mc [] = Some ((1, Leaf), mc1, [])) as Hl'
      by by destruct l.
    assert ((match r with Leaf => mret (1, Leaf) | _ => tree_mapent_delete_offset_tree r end) mc1 [] = Some ((1, Leaf), mc2, [])) as Hr'
      by by destruct r.
    rewrite <- bind_bind, (bind_some _ _ _ _ _ _ _ Hl'). cbn [Z.eqb].
    rewrite <- bind_bind, (bind_some _ _ _ _ _ _ _ Hr'). cbn [Z.eqb].
    rewrite <- bind_bind, (reads_bind _ _ _ _ _ (deref_reads _ _ _ He)), Er, bool_decide_eq_true_2 by done. cbn [negb].
    rewrite <- bind_bind, (bind_store root e) by done. rewrite <- bind_bind.
    rewrite (bind_store root (set_mm_root None e)) by apply lookup_insert_eq.
    unfold mc3, e1, with_heap. cbn. by rewrite insert_insert_eq.
  - intros n Hn m. rewrite (lookup_distinct_reads _ _ W3 (me_key n.2) m), E3.
    apply elem_of_app in Hn as [Hn|Hn]; [|by rewrite N2]. destruct (K2 (me_key n.2)) as [-> _]; [|by rewrite N1].
    intros Hr'. apply (Hdis (t_key n)); [by apply list_elem_of_fmap_2|by right].
  - rewrite E3, <- Hkey. done.
  - apply lookup_insert_eq.
  - intros key' Hk'. rewrite E3. apply K. rewrite fmap_app, fmap_cons in Hk'. set_solver.
Qed.

Definition mm_node (next : option addr) (key : string) : mapent := set_mm_root (Some 1%positive) (set_next (new_mapent 1 (str key) None 0) next).

Definition mm_cache : mapent_cache :=
  one_bucket (Some 1%positive) {[ 1%positive := mm_node (Some 2%positive) "/m"; 2%positive := mm_node None "/m/a" ]}.

Definition mm_tree (_ : addr) : otree := Node Leaf (1%positive, mm_node None "/m") (Node Leaf (2%positive, mm_node None "/m/a") Leaf).

Lemma mm_cache_wf : wf mm_cache [[1%positive; 2%positive]].
Proof. apply wf_one_bucket. simpl. split; [done|]. eexists. split; [reflexivity|]. split; [done|]. by eexists. Qed.

Lemma delete_offsets_complete_witness :
  exists mc' cs', tree_mapent_delete_offsets mm_tree (str "/m") mm_cache [] = Some (1, mc', []) /\ wf mc' cs' /\
    cache_lookup_distinct (Some (str "/m/a")) mc' [] = Some (None, mc', []).
Proof.
  destruct (delete_offsets_complete mm_cache [[1%positive; 2%positive]] mm_tree (str "/m") 1 (mm_node None "/m") Leaf
    (Node Leaf (2%positive, mm_node None "/m/a") Leaf) mm_cache_wf) as (mc' & cs' & e & H1 & H2 & H3 & _).
  - reflexivity.
  - reflexivity.
  - intros n Hn. repeat (apply elem_of_cons in Hn as [->|Hn]; [eexists; repeat split; vm_compute; reflexivity|]).
    by apply elem_of_nil in Hn.
  - intros n Hn. repeat (apply elem_of_cons in Hn as [->|Hn]; [done|]). by apply elem_of_nil in Hn.
  - apply (bool_decide_unpack (NoDup _)). vm_compute. exact I.
  - exists mc', cs'. split; [exact H1|]. split; [exact H2|]. apply (H3 (2%positive, mm_node None "/m/a")). by left.
Defined.
