(* ===== verification/Master.v ===== *)
(** * The master map (daemon/master.c)

    The entries of the master map with their mount points and the sources of their maps.
    Sources are counted and linked: an entry has a list of them, and a source can have a
    list of instances, one for each name service it was found in, which share its cache.
    The state machine of the mount points is another component; what the functions here
    ask it for is kept in order. The read and write locks and the mutexes are not part of
    the model, nor are the handles of the lookup modules, of which a source only knows
    whether it has one. *)

From S2P Require Import Prelude CString Hash Memory Args Cache StateQueue Lexer MountNfs MntTable ConfigNames ConfigGet.
Open Scope Z_scope.

(** ** Data *)

Definition MAP_FLAG_FORMAT_AMD : Z := 0x1.
Definition MOUNT_FLAG_IGNORE : Z := 0x1000.
Definition MOUNT_FLAG_AMD_CACHE_ALL : Z := 0x80.

(** [struct map_source]; [s_mc] is the address of its cache. *)
Record map_source := MapSource {
  s_ref : Z;
  s_flags : Z;
  s_type : option cstring;
  s_format : option cstring;
  s_name : option cstring;
  s_exp_timeout : Z;
  s_age : Z;
  s_line : Z;
  s_mc : ptr;
  s_stale : bool;
  s_lookup : bool;
  s_argc : nat;
  s_argv : vector;
  s_instance : ptr;
  s_next : ptr;
  s_depth : Z;
  s_recurse : bool
}.

(** [struct master_mapent]. *)
Record master_mapent := MasterEnt {
  ent_path : cstring;
  ent_age : Z;
  ent_maps : ptr;
  ent_ap : ptr
}.

(** What is used of [struct autofs_point]. *)
Record point := Point {
  p_path : cstring;
  p_state : states;
  p_type : Z;
  p_flags : Z;
  p_logopt : Z;
  p_thid : Z;
  p_submount : bool;
  p_shutdown : bool;
  p_exp_timeout : Z;
  p_negative_timeout : Z;
  p_positive_timeout : Z
}.

(** [struct master] with the objects it leads to; [d_tasks] are the tasks that were
    given to the state machine, the last one at the end. *)
Record dstate := DS {
  d_src : gmap positive map_source;
  d_mc : gmap positive mapent_cache;
  d_ent : gmap positive master_mapent;
  d_ap : gmap positive point;
  d_mounts : list positive;
  d_completed : list positive;
  d_nc : option mapent_cache;
  d_readall : bool;
  d_read_fail : bool;
  d_tasks : list (positive * states)
}.

Abbreviation MM := (M dstate).

Definition set_src h s := DS h (d_mc s) (d_ent s) (d_ap s) (d_mounts s) (d_completed s) (d_nc s) (d_readall s) (d_read_fail s) (d_tasks s).
Definition set_caches c s := DS (d_src s) c (d_ent s) (d_ap s) (d_mounts s) (d_completed s) (d_nc s) (d_readall s) (d_read_fail s) (d_tasks s).
Definition set_ent e s := DS (d_src s) (d_mc s) e (d_ap s) (d_mounts s) (d_completed s) (d_nc s) (d_readall s) (d_read_fail s) (d_tasks s).
Definition set_points a s := DS (d_src s) (d_mc s) (d_ent s) a (d_mounts s) (d_completed s) (d_nc s) (d_readall s) (d_read_fail s) (d_tasks s).
Definition set_mounts l s := DS (d_src s) (d_mc s) (d_ent s) (d_ap s) l (d_completed s) (d_nc s) (d_readall s) (d_read_fail s) (d_tasks s).
Definition set_completed l s := DS (d_src s) (d_mc s) (d_ent s) (d_ap s) (d_mounts s) l (d_nc s) (d_readall s) (d_read_fail s) (d_tasks s).
Definition set_nc c s := DS (d_src s) (d_mc s) (d_ent s) (d_ap s) (d_mounts s) (d_completed s) c (d_readall s) (d_read_fail s) (d_tasks s).
Definition set_read_fail b s := DS (d_src s) (d_mc s) (d_ent s) (d_ap s) (d_mounts s) (d_completed s) (d_nc s) (d_readall s) b (d_tasks s).
Definition set_tasks t s := DS (d_src s) (d_mc s) (d_ent s) (d_ap s) (d_mounts s) (d_completed s) (d_nc s) (d_readall s) (d_read_fail s) t.

#[export] Instance src_heap : HasHeap dstate map_source.
Proof. by refine {| heap := d_src; put_heap := set_src |}. Defined.
#[export] Instance mc_heap_of : HasHeap dstate mapent_cache.
Proof. by refine {| heap := d_mc; put_heap := set_caches |}. Defined.
#[export] Instance ent_heap : HasHeap dstate master_mapent.
Proof. by refine {| heap := d_ent; put_heap := set_ent |}. Defined.
#[export] Instance point_heap : HasHeap dstate point.
Proof. by refine {| heap := d_ap; put_heap := set_points |}. Defined.

Definition set_s_next (p : ptr) (s : map_source) : map_source :=
  MapSource (s_ref s) (s_flags s) (s_type s) (s_format s) (s_name s) (s_exp_timeout s) (s_age s) (s_line s) (s_mc s)
    (s_stale s) (s_lookup s) (s_argc s) (s_argv s) (s_instance s) p (s_depth s) (s_recurse s).
Definition set_s_instance (p : ptr) (s : map_source) : map_source :=
  MapSource (s_ref s) (s_flags s) (s_type s) (s_format s) (s_name s) (s_exp_timeout s) (s_age s) (s_line s) (s_mc s)
    (s_stale s) (s_lookup s) (s_argc s) (s_argv s) p (s_next s) (s_depth s) (s_recurse s).
Definition set_s_ref (r : Z) (s : map_source) : map_source :=
  MapSource r (s_flags s) (s_type s) (s_format s) (s_name s) (s_exp_timeout s) (s_age s) (s_line s) (s_mc s)
    (s_stale s) (s_lookup s) (s_argc s) (s_argv s) (s_instance s) (s_next s) (s_depth s) (s_recurse s).
Definition set_s_age (a : Z) (s : map_source) : map_source :=
  MapSource (s_ref s) (s_flags s) (s_type s) (s_format s) (s_name s) (s_exp_timeout s) a (s_line s) (s_mc s)
    (s_stale s) (s_lookup s) (s_argc s) (s_argv s) (s_instance s) (s_next s) (s_depth s) (s_recurse s).
Definition set_s_stale (b : bool) (s : map_source) : map_source :=
  MapSource (s_ref s) (s_flags s) (s_type s) (s_format s) (s_name s) (s_exp_timeout s) (s_age s) (s_line s) (s_mc s)
    b (s_lookup s) (s_argc s) (s_argv s) (s_instance s) (s_next s) (s_depth s) (s_recurse s).
Definition set_s_mc (p : ptr) (s : map_source) : map_source :=
  MapSource (s_ref s) (s_flags s) (s_type s) (s_format s) (s_name s) (s_exp_timeout s) (s_age s) (s_line s) p
    (s_stale s) (s_lookup s) (s_argc s) (s_argv s) (s_instance s) (s_next s) (s_depth s) (s_recurse s).
Definition set_s_lookup (b : bool) (s : map_source) : map_source :=
  MapSource (s_ref s) (s_flags s) (s_type s) (s_format s) (s_name s) (s_exp_timeout s) (s_age s) (s_line s) (s_mc s)
    (s_stale s) b (s_argc s) (s_argv s) (s_instance s) (s_next s) (s_depth s) (s_recurse s).
Definition set_s_timeout (t l : Z) (s : map_source) : map_source :=
  MapSource (s_ref s) (s_flags s) (s_type s) (s_format s) (s_name s) t (s_age s) l (s_mc s)
    (s_stale s) (s_lookup s) (s_argc s) (s_argv s) (s_instance s) (s_next s) (s_depth s) (s_recurse s).

Definition set_s_depth (d : Z) (r : bool) (s : map_source) : map_source :=
  MapSource (s_ref s) (s_flags s) (s_type s) (s_format s) (s_name s) (s_exp_timeout s) (s_age s) (s_line s) (s_mc s)
    (s_stale s) (s_lookup s) (s_argc s) (s_argv s) (s_instance s) (s_next s) d r.

#[export] Instance source_node : Node map_source.
Proof. by refine {| link := s_next; set_link := set_s_next |}; [|intros []|]. Defined.

Definition set_e_maps (p : ptr) (e : master_mapent) : master_mapent := MasterEnt (ent_path e) (ent_age e) p (ent_ap e).
Definition set_e_age (a : Z) (e : master_mapent) : master_mapent := MasterEnt (ent_path e) a (ent_maps e) (ent_ap e).
Definition set_e_ap (p : ptr) (e : master_mapent) : master_mapent := MasterEnt (ent_path e) (ent_age e) (ent_maps e) p.

Definition set_p_flags (f : Z) (p : point) : point :=
  Point (p_path p) (p_state p) (p_type p) f (p_logopt p) (p_thid p) (p_submount p) (p_shutdown p) (p_exp_timeout p)
    (p_negative_timeout p) (p_positive_timeout p).
Definition set_p_shutdown (b : bool) (p : point) : point :=
  Point (p_path p) (p_state p) (p_type p) (p_flags p) (p_logopt p) (p_thid p) (p_submount p) b (p_exp_timeout p)
    (p_negative_timeout p) (p_positive_timeout p).
Definition set_p_thid (t : Z) (p : point) : point :=
  Point (p_path p) (p_state p) (p_type p) (p_flags p) (p_logopt p) t (p_submount p) (p_shutdown p) (p_exp_timeout p)
    (p_negative_timeout p) (p_positive_timeout p).
Definition set_p_log (l t : Z) (p : point) : point :=
  Point (p_path p) (p_state p) (p_type p) (p_flags p) l (p_thid p) (p_submount p) (p_shutdown p) t
    (p_negative_timeout p) (p_positive_timeout p).

(** [st_add_task] and [__st_add_task]. *)
Definition add_task (ap : positive) (st : states) : MM unit := modify (fun s => set_tasks (d_tasks s ++ [(ap, st)]) s).

(** An operation of the cache of a source, and of the cache of null entries. *)
Definition with_mc {A} (a : positive) (c : M mapent_cache A) : MM A := fun s m =>
  match d_mc s !! a with
  | Some mc =>
      match c mc m with
      | Some (x, mc', m') => Some (x, set_caches (<[a := mc']> (d_mc s)) s, m')
      | None => None
      end
  | None => None
  end.

Definition with_nc {A} (c : M mapent_cache A) : MM A := fun s m =>
  match d_nc s with
  | Some mc =>
      match c mc m with
      | Some (x, mc', m') => Some (x, set_nc (Some mc') s, m')
      | None => None
      end
  | None => None
  end.

Definition ap_of (entry : positive) : MM positive :=
  e ← load (HH := ent_heap) entry;
  from_option_M (ent_ap e).

(** ** Sources *)

Definition same_opt (o p : option cstring) : bool :=
  match o, p with
  | Some s, Some t => streq s t
  | None, None => true
  | _, _ => false
  end.

Definition compare_source_type_and_format (map : map_source) (type format : option cstring) : bool :=
  same_opt (s_type map) type && same_opt (s_format map) format.

(** The walk along the sources from [map] on; [argv] is [None] when the arguments are
    not compared. *)
Fixpoint find_map (fuel : nat) (map : ptr) (type format : option cstring) (args : option (nat * vector)) : MM ptr :=
  match map with
  | None => mret None
  | Some a =>
      match fuel with
      | O => stuck
      | S fuel =>
          s ← load a;
          if negb (compare_source_type_and_format s type format) then find_map fuel (s_next s) type format args
          else
            match args with
            | None => mret (Some a)
            | Some (argc, argv) =>
                res ← from_option_M (compare_argv (s_argc s) (s_argv s) argc argv);
                if (res : bool) then mret (Some a) else find_map fuel (s_next s) type format args
            end
      end
  end.

Definition src_fuel : MM nat := heap_fuel (HH := src_heap).

Definition __master_find_map_source (entry : positive) (type format : option cstring) (argc : nat) (argv : vector) : MM ptr :=
  e ← load (HH := ent_heap) entry;
  fuel ← src_fuel;
  find_map fuel (ent_maps e) type format (Some (argc, argv)).

Definition master_find_map_source := __master_find_map_source.

Definition master_get_map_source (entry : positive) (type format : option cstring) (argc : nat) (argv : vector) : MM ptr :=
  source ← __master_find_map_source entry type format argc argv;
  match source with
  | None => mret None
  | Some a => update a (fun s => set_s_ref (u32 (s_ref s + 1)) s);; mret source
  end.

(** The lookup modules of the instances are closed. *)
Fixpoint close_instances (fuel : nat) (instance : ptr) : MM unit :=
  match instance with
  | None => mret ()
  | Some a =>
      match fuel with
      | O => stuck
      | S fuel =>
          s ← load (HH := src_heap) a;
          (if s_lookup s then update a (set_s_lookup false) else mret ());;
          close_instances fuel (s_next s)
      end
  end.

(** An instance is freed with its own instances before the next one. *)
Fixpoint free_source (fuel : nat) (source : positive) (free_cache : bool) : MM unit :=
  match fuel with
  | O => stuck
  | S fuel =>
      s ← load (HH := src_heap) source;
      let ref := u32 (s_ref s - 1) in
      (if s_ref s =? 0 then mret () else update source (set_s_ref ref));;
      if negb (s_ref s =? 0) && negb (ref =? 0) then mret ()
      else
        match s_mc s with
        | Some mc => if free_cache then free_obj (HH := mc_heap_of) mc else mret ()
        | None => mret ()
        end;;
        (if s_lookup s then close_instances fuel (s_instance s);; update source (set_s_lookup false) else mret ());;
        (fix go (n : nat) (p : ptr) : MM unit :=
           match p with
           | None => mret ()
           | Some a =>
               match n with
               | O => stuck
               | S n =>
                   i ← load (HH := src_heap) a;
                   free_source fuel a false;;
                   go n (s_next i)
               end
           end) fuel (s_instance s);;
        free_obj (HH := src_heap) source
  end.

Definition master_free_map_source (source : positive) (free_cache : bool) : MM unit :=
  fuel ← src_fuel;
  free_source (S fuel) source free_cache.

(** The memory of a source with the strings it is given: the address, or [None]. *)
Definition new_source (ref : Z) (type format : option cstring) (age : Z) (argc : nat) (argv : vector)
    (name : vector -> option cstring) (mc : ptr) (timeout : Z) : MM ptr :=
  ok ← malloc;
  if negb ok then mret None else
  a ← new_obj (HH := src_heap) (MapSource ref 0 None None None 0 0 0 None false false 0 [] None None 0 false);
  ok ← match type with Some _ => malloc | None => mret true end;
  if negb ok then master_free_map_source a false;; mret None else
  ok ← match format with Some _ => malloc | None => mret true end;
  if negb ok then master_free_map_source a false;; mret None else
  let flags := match format with Some f => if streq f (str "amd") then MAP_FLAG_FORMAT_AMD else 0 | None => 0 end in
  tmpargv ← copy_argv argc argv;
  match tmpargv with
  | None => master_free_map_source a false;; mret None
  | Some tmpargv =>
      nm ← match name tmpargv with Some n => ok ← malloc; mret (if (ok : bool) then Some n else None) | None => mret None end;
      update (HH := src_heap) a (fun _ => MapSource ref flags type format nm timeout age 0 mc true false argc tmpargv None None 0 false);;
      mret (Some a)
  end.

(** [source->argv[0]]. *)
Definition first_arg (argv : vector) : option cstring := match argv with Ptr s :: _ => Some s | _ => None end.

(** [cache_init], on a source that has no cache. [size] is the configured table size. *)
Definition source_cache (size : Z) (a : positive) : MM bool := fun s m =>
  match cache_init None size m with
  | Some (Some mc, m) =>
      (c ← new_obj (HH := mc_heap_of) mc; update (HH := src_heap) a (set_s_mc (Some c));; mret true) s m
  | Some (None, m) => Some (false, s, m)
  | None => None
  end.

(** The last source of a list. *)
Fixpoint last_source (fuel : nat) (a : positive) : MM positive :=
  match fuel with
  | O => stuck
  | S fuel =>
      s ← load (HH := src_heap) a;
      match s_next s with
      | None => mret a
      | Some n => last_source fuel n
      end
  end.

Definition master_add_map_source (size : Z) (entry : positive) (type format : option cstring) (age : Z)
    (argc : nat) (argv : vector) : MM ptr :=
  source ← new_source 1 type format age argc argv first_arg None 0;
  match source with
  | None => mret None
  | Some a =>
      e ← load (HH := ent_heap) entry;
      match ent_maps e with
      | None =>
          ok ← source_cache size a;
          if negb ok then master_free_map_source a false;; mret None
          else update entry (set_e_maps (Some a));; mret (Some a)
      | Some first =>
          s ← load (HH := src_heap) a;
          this ← __master_find_map_source entry type format argc (s_argv s);
          match this with
          | Some t =>
              ap ← ap_of entry;
              _ ← load (HH := point_heap) ap;
              update (HH := src_heap) t (set_s_age age);;
              master_free_map_source a false;;
              mret (Some t)
          | None =>
              ok ← source_cache size a;
              if negb ok then master_free_map_source a false;; mret None
              else
                fuel ← src_fuel;
                last ← last_source fuel first;
                update (HH := src_heap) last (set_s_next (Some a));;
                mret (Some a)
          end
      end
  end.

(** ** Instances *)

Definition master_find_source_instance (source : positive) (type format : option cstring) (args : option (nat * vector)) : MM ptr :=
  s ← load (HH := src_heap) source;
  fuel ← src_fuel;
  find_map fuel (s_instance s) type format args.

Definition master_add_source_instance (source : positive) (type format : option cstring) (age : Z) (argc : nat) (argv : vector) : MM ptr :=
  instance ← master_find_source_instance source type format (Some (argc, argv));
  match instance with
  | Some _ => mret instance
  | None =>
      s ← load (HH := src_heap) source;
      new ← new_source 0 type format age argc argv (fun _ => s_name s) (s_mc s) (s_exp_timeout s);
      match new with
      | None => mret None
      | Some a =>
          s ← load (HH := src_heap) source;
          update (HH := src_heap) a (set_s_next (s_instance s));;
          update (HH := src_heap) source (set_s_instance (Some a));;
          mret new
      end
  end.

(** Instances of instances are looked at before the next instance. *)
Fixpoint check_stale_instances (fuel : nat) (source : positive) : MM bool :=
  match fuel with
  | O => stuck
  | S fuel =>
      s ← load (HH := src_heap) source;
      (fix go (n : nat) (p : ptr) : MM bool :=
         match p with
         | None => mret false
         | Some a =>
             match n with
             | O => stuck
             | S n =>
                 i ← load (HH := src_heap) a;
                 if s_stale i then mret true
                 else
                   b ← check_stale_instances fuel a;
                   if (b : bool) then mret true else go n (s_next i)
             end
         end) fuel (s_instance s)
  end.

Fixpoint clear_stale_instances (fuel : nat) (source : positive) : MM unit :=
  match fuel with
  | O => stuck
  | S fuel =>
      s ← load (HH := src_heap) source;
      (fix go (n : nat) (p : ptr) : MM unit :=
         match p with
         | None => mret ()
         | Some a =>
             match n with
             | O => stuck
             | S n =>
                 clear_stale_instances fuel a;;
                 i ← load (HH := src_heap) a;
                 (if s_stale i then update a (set_s_stale false) else mret ());;
                 go n (s_next i)
             end
         end) fuel (s_instance s)
  end.

Fixpoint need_update (fuel : nat) (map : ptr) : MM bool :=
  match map with
  | None => mret false
  | Some a =>
      match fuel with
      | O => stuck
      | S n =>
          depth ← src_fuel;
          b ← check_stale_instances (S depth) a;
          (if (b : bool) then update (HH := src_heap) a (set_s_stale true) else mret ());;
          s ← load (HH := src_heap) a;
          if s_stale s then mret true else need_update n (s_next s)
      end
  end.

Definition send_map_update_request (ap entry : positive) : MM unit :=
  e ← load (HH := ent_heap) entry;
  fuel ← src_fuel;
  b ← need_update fuel (ent_maps e);
  if (b : bool) then add_task ap ST_READMAP else mret ().
