(* ===== verification/MasterEntries.v ===== *)
(** * The entries of the master map and what is done with them (daemon/master.c) *)

From S2P Require Import Prelude CString Hash Memory Args Cache StateQueue Lexer MountNfs MntTable ConfigNames ConfigGet Master.
Open Scope Z_scope.

Abbreviation MM := (M dstate).

(** ** Mount points *)

(** What the configuration and the command line say. *)
Record settings := Settings {
  g_negative : Z; g_positive : Z;
  d_negative : Z; d_positive : Z; d_timeout : Z; d_ignore : bool; d_size : Z
}.

Definition master_add_autofs_point (g : settings) (entry : positive) (logopt : Z) (nobind ghost : bool) (submount : bool) : MM bool :=
  e ← load (HH := ent_heap) entry;
  ok ← malloc;
  if negb ok then mret false else
  ok ← malloc;
  if negb ok then mret false else
  c ← from_option_M (if strlen (ent_path e) =? 0 then None else Some (hd_char (tail (ent_path e))));
  let flags := if d_ignore g then MOUNT_FLAG_IGNORE else 0 in
  let flags := if ghost then Z.lor flags MOUNT_FLAG_GHOST else flags in
  let flags := if nobind then Z.lor flags MOUNT_FLAG_NOBIND else flags in
  a ← new_obj (HH := point_heap)
        (Point (ent_path e) ST_INIT (if c =a "-" then LKP_DIRECT else LKP_INDIRECT) flags logopt 0 submount false (d_timeout g)
           (if g_negative g <=? 0 then d_negative g else g_negative g)
           (if g_positive g <? 0 then d_positive g else g_positive g));
  update (HH := ent_heap) entry (set_e_ap (Some a));;
  mret true.

(** The amd mounts of the mount point are another table. *)
Definition master_free_autofs_point (ap : ptr) : MM unit :=
  match ap with
  | None => mret ()
  | Some a => free_obj (HH := point_heap) a
  end.

(** ** Entries *)

Fixpoint find_mapent (l : list positive) (path : cstring) : MM ptr :=
  match l with
  | [] => mret None
  | a :: l =>
      e ← load (HH := ent_heap) a;
      if streq (ent_path e) path then mret (Some a) else find_mapent l path
  end.

Definition master_find_mapent (path : cstring) : MM ptr :=
  s ← get_state; find_mapent (d_mounts s) path.

(** [entry->path] against the path of an amd mount: [Some] is the result, [None] goes on
    with the next entry. [amd] says that the first source of the entry is an amd map. *)
Definition amd_conflict (entry : cstring) (amd : bool) (path : cstring) : option Z :=
  let cmp_len := Z.min (strlen entry) (strlen path) in
  if strneq entry path (Z.to_nat cmp_len) then
    if strlen entry =? strlen path then Some (if amd then 1 else -1)
    else if (strlen path <? strlen entry) && (hd_char (drop (length path) entry) =a "/") then Some (-1)
    else if (strlen entry <? strlen path) && (hd_char (drop (length entry) path) =a "/") then Some (-1)
    else None
  else None.

Definition is_amd (maps : ptr) : MM bool :=
  match maps with
  | None => mret false
  | Some a => s ← load (HH := src_heap) a; mret (has_flag (s_flags s) MAP_FLAG_FORMAT_AMD)
  end.

Fixpoint partial_match (l : list positive) (path : cstring) : MM Z :=
  match l with
  | [] => mret 0
  | a :: l =>
      e ← load (HH := ent_heap) a;
      amd ← is_amd (ent_maps e);
      match amd_conflict (ent_path e) amd path with
      | Some r => mret r
      | None => partial_match l path
      end
  end.

Definition master_partial_match_amd_mapent (path : cstring) : MM Z :=
  s ← get_state; partial_match (d_mounts s) path.

Definition master_new_mapent (path : cstring) (age : Z) : MM ptr :=
  ok ← malloc;
  if negb ok then mret None else
  ok ← malloc;
  if negb ok then mret None else
  a ← new_obj (HH := ent_heap) (MasterEnt path age None None);
  mret (Some a).

Definition master_add_mapent (entry : positive) : MM unit :=
  modify (fun s => set_mounts (d_mounts s ++ [entry]) s).

(** [list_del_init (&entry->list)]. *)
Definition unlist (entry : positive) : MM unit :=
  modify (fun s => set_mounts (filter (fun b => b <> entry) (d_mounts s)) s).

(** The submount that is still in use at shutdown is only reported. *)
Definition master_remove_mapent (entry : positive) : MM unit :=
  ap ← ap_of entry;
  p ← load (HH := point_heap) ap;
  if p_submount p then modify (fun s => set_completed (entry :: d_completed s) s)
  else
    s ← get_state;
    if bool_decide (entry ∈ d_mounts s) then
      unlist entry;;
      modify (fun s => set_completed (entry :: d_completed s) s)
    else mret ().

Fixpoint free_maps (fuel : nat) (m : ptr) (free_cache : bool) : MM unit :=
  match m with
  | None => mret ()
  | Some a =>
      match fuel with
      | O => stuck
      | S fuel =>
          s ← load (HH := src_heap) a;
          master_free_map_source a free_cache;;
          free_maps fuel (s_next s) free_cache
      end
  end.

Definition master_free_mapent_sources (entry : positive) (free_cache : bool) : MM unit :=
  e ← load (HH := ent_heap) entry;
  match ent_maps e with
  | None => mret ()
  | Some _ =>
      fuel ← src_fuel;
      free_maps fuel (ent_maps e) free_cache;;
      update (HH := ent_heap) entry (set_e_maps None)
  end.

Definition master_free_mapent (entry : positive) : MM unit :=
  e ← load (HH := ent_heap) entry;
  master_free_autofs_point (ent_ap e);;
  free_obj (HH := ent_heap) entry.

Definition __master_list_empty : MM bool := s ← get_state; mret (bool_decide (d_mounts s = [])).
Definition master_list_empty := __master_list_empty.

(** The threads of the completed entries are joined. *)
Fixpoint done_loop (l : list positive) : MM unit :=
  match l with
  | [] => mret ()
  | entry :: l =>
      modify (fun s => set_completed (filter (fun b => b <> entry) (d_completed s)) s);;
      _ ← ap_of entry;
      master_free_mapent_sources entry true;;
      master_free_mapent entry;;
      done_loop l
  end.

Definition master_done : MM bool :=
  s ← get_state;
  done_loop (d_completed s);;
  __master_list_empty.

(** ** The sections of amd mounts in the configuration *)

(** What the configuration says of an amd mount. *)
Record amd_section := AmdSection {
  c_map : option cstring; c_type : option cstring; c_flags : Z; c_options : option cstring; c_interval : Z
}.

Definition amd_logopt (loglevel m_logopt : Z) : Z :=
  if (loglevel <=? LOG_DEBUG) && (LOG_INFO <? loglevel) then LOGOPT_DEBUG
  else if (loglevel <=? LOG_INFO) && (LOG_ERR <? loglevel) then LOGOPT_VERBOSE
  else m_logopt.

Definition cache_all (opts : option cstring) : bool :=
  match opts with Some o => bool_decide (is_Some (strstr o (str "cache:=all"))) | None => false end.

Definition point_flag (ap : positive) (b : bool) (f : Z) : MM unit :=
  if b then update (HH := point_heap) ap (fun p => set_p_flags (Z.lor (p_flags p) f) p) else mret ().

Definition set_exp_timeout (ap : positive) (source : positive) (timeout : Z) : MM unit :=
  update (HH := point_heap) ap (fun p => set_p_log (p_logopt p) timeout p);;
  update (HH := src_heap) source (fun s => set_s_timeout timeout (s_line s) s).

Definition set_line (source : positive) (line : Z) : MM unit :=
  update (HH := src_heap) source (fun s => set_s_timeout (s_exp_timeout s) line s).

Definition one_arg (map : cstring) : vector := [Ptr map; Null].

Definition master_update_amd_mount_section_mount (g : settings) (conf : cstring -> amd_section) (loglevel m_logopt : Z)
    (path : cstring) (age : Z) : MM unit :=
  entry ← master_find_mapent path;
  match entry with
  | None => mret ()
  | Some entry =>
      match c_map (conf path) with
      | None => mret ()
      | Some map =>
          e ← load (HH := ent_heap) entry;
          source ← from_option_M (ent_maps e);
          s ← load (HH := src_heap) source;
          name ← from_option_M (s_name s);
          source ← (if streq name map then mret (Some source)
                    else
                      new ← master_add_map_source (d_size g) entry (c_type (conf path)) (Some (str "amd")) age 1 (one_arg map);
                      match new with
                      | None => mret None
                      | Some n =>
                          master_free_map_source source false;;
                          update (HH := ent_heap) entry (set_e_maps (Some n));;
                          mret (Some n)
                      end);
          match source with
          | None => mret ()
          | Some source =>
              ap ← ap_of entry;
              point_flag ap (has_flag (c_flags (conf path)) CONF_BROWSABLE_DIRS) MOUNT_FLAG_GHOST;;
              point_flag ap (cache_all (c_options (conf path))) MOUNT_FLAG_AMD_CACHE_ALL;;
              update (HH := point_heap) ap (fun p => set_p_log (amd_logopt loglevel m_logopt) (p_exp_timeout p) p);;
              set_exp_timeout ap source (c_interval (conf path));;
              set_line source 0;;
              update (HH := ent_heap) entry (set_e_age age)
          end
      end
  end.

(** One path of the configuration. *)
Definition amd_section_mount (g : settings) (conf : cstring -> amd_section) (loglevel m_logopt : Z) (age : Z) (path : cstring) : MM unit :=
  ret ← master_partial_match_amd_mapent path;
  if negb (ret =? 0) then
    if ret =? 1 then master_update_amd_mount_section_mount g conf loglevel m_logopt path age else mret ()
  else
    match c_map (conf path) with
    | None => mret ()
    | Some map =>
        entry ← master_new_mapent path age;
        match entry with
        | None => mret ()
        | Some entry =>
            ok ← master_add_autofs_point g entry (amd_logopt loglevel m_logopt) false
                   (has_flag (c_flags (conf path)) CONF_BROWSABLE_DIRS) false;
            if negb ok then master_free_mapent entry else
            ap ← ap_of entry;
            point_flag ap (cache_all (c_options (conf path))) MOUNT_FLAG_AMD_CACHE_ALL;;
            source ← master_add_map_source (d_size g) entry (c_type (conf path)) (Some (str "amd")) age 1 (one_arg map);
            match source with
            | None => master_free_mapent entry
            | Some source =>
                set_exp_timeout ap source (c_interval (conf path));;
                set_line source 0;;
                update (HH := ent_heap) entry (set_e_age age);;
                master_add_mapent entry
            end
        end
    end.

Fixpoint amd_sections_loop (g : settings) (conf : cstring -> amd_section) (loglevel m_logopt : Z) (age : Z) (paths : list cstring) : MM unit :=
  match paths with
  | [] => mret ()
  | path :: paths => amd_section_mount g conf loglevel m_logopt age path;; amd_sections_loop g conf loglevel m_logopt age paths
  end.

Definition master_add_amd_mount_section_mounts := amd_sections_loop.

(** ** Mounting the entries *)

(** The loop over the sources of an entry: [last] is the source before. The result says
    that a source is stale. *)
Fixpoint update_sources (fuel : nat) (entry : positive) (readall : bool) (last source : ptr) (stale : bool) : MM bool :=
  match source with
  | None => mret stale
  | Some a =>
      match fuel with
      | O => stuck
      | S fuel =>
          (if readall then update (HH := src_heap) a (set_s_stale true) else mret ());;
          s ← load (HH := src_heap) a;
          e ← load (HH := ent_heap) entry;
          if s_age s <? ent_age e then
            mc ← from_option_M (s_mc s);
            me ← with_mc mc cache_lookup_first;
            match me with
            | None =>
                let next := s_next s in
                match last with
                | None => update (HH := ent_heap) entry (set_e_maps next)
                | Some l => update (HH := src_heap) l (set_s_next next)
                end;;
                e ← load (HH := ent_heap) entry;
                (if bool_decide (ent_maps e = Some a) then update (HH := ent_heap) entry (set_e_maps next) else mret ());;
                master_free_map_source a true;;
                update_sources fuel entry readall last next stale
            | Some _ =>
                update (HH := src_heap) a (set_s_stale true);;
                s ← load (HH := src_heap) a;
                update_sources fuel entry readall (Some a) (s_next s) true
            end
          else update_sources fuel entry readall (Some a) (s_next s) stale
      end
  end.

Definition check_update_map_sources (entry : positive) (readall : bool) : MM unit :=
  ap ← ap_of entry;
  e ← load (HH := ent_heap) entry;
  fuel ← src_fuel;
  stale ← update_sources fuel entry readall None (ent_maps e) readall;
  if (stale : bool) then add_task ap ST_READMAP else mret ().

(** [thread] is the thread that handles the mount, when it could be started and its
    mount succeeded. *)
Definition master_do_mount (thread : option Z) (entry : positive) : MM bool :=
  ap ← ap_of entry;
  match thread with
  | None => mret false
  | Some thid => update (HH := point_heap) ap (set_p_thid thid);; mret true
  end.

(** The entry is deleted. *)
Definition forget_mapent (entry : positive) : MM unit :=
  unlist entry;;
  master_free_mapent_sources entry true;;
  master_free_mapent entry.

Section Mount.
Context (threads : positive -> option Z).

(** An entry that is started or whose sources are checked. *)
Definition mount_or_update (entry ap : positive) : MM unit :=
  p ← load (HH := point_heap) ap;
  s ← get_state;
  if negb (p_thid p =? 0) && negb (bool_decide (p_state p = ST_INIT)) then check_update_map_sources entry (d_readall s)
  else
    ok ← master_do_mount (threads entry) entry;
    if (ok : bool) then mret () else forget_mapent entry.

Definition mount_entry (age : Z) (entry : positive) : MM unit :=
  this ← load (HH := ent_heap) entry;
  ap ← from_option_M (ent_ap this);
  if ent_age this <? age then add_task ap ST_SHUTDOWN_PENDING
  else
    ne ← with_nc (cache_lookup_distinct (Some (ent_path this)));
    match ne with
    | Some n =>
        e ← with_nc (deref n);
        first ← from_option_M (ent_maps this);
        s ← load (HH := src_heap) first;
        if s_line s <? u32 (me_age e) then mount_or_update entry ap
        else
          p ← load (HH := point_heap) ap;
          if negb (bool_decide (p_state p = ST_INIT)) then add_task ap ST_SHUTDOWN_PENDING
          else forget_mapent entry
    | None =>
        nested ← with_nc (cache_partial_match (ent_path this));
        match nested with
        | Some n => e ← with_nc (deref n); _ ← with_nc (cache_delete (me_key e)); mret ()
        | None => mret ()
        end;;
        mount_or_update entry ap
    end.

(** The next entry is taken from the list before the current one can be deleted. *)
Fixpoint mounts_loop (age : Z) (l : list positive) : MM unit :=
  match l with
  | [] => mret ()
  | entry :: l => mount_entry age entry;; mounts_loop age l
  end.

Definition master_mount_mounts (age : Z) : MM unit :=
  s ← get_state; mounts_loop age (d_mounts s).

(** [read] is what [lookup_nss_read_master] does. *)
Definition master_read_master (read : MM unit) (g : settings) (conf : cstring -> amd_section) (paths : list cstring)
    (loglevel m_logopt : Z) (age : Z) : MM bool :=
  s ← get_state;
  ok ← match d_nc s with
       | Some _ => with_nc cache_clean_null_cache;; mret true
       | None => fun s m =>
           match cache_init_null_cache m with
           | (Some nc, m) => Some (true, set_nc (Some nc) s, m)
           | (None, m) => Some (false, s, m)
           end
       end;
  if negb ok then mret false else
  read;;
  master_add_amd_mount_section_mounts g conf loglevel m_logopt age paths;;
  s ← get_state;
  if negb (d_read_fail s) then master_mount_mounts age;; mret true
  else
    modify (set_read_fail false);;
    if negb (d_readall s) then mret false
    else master_mount_mounts age;; mret true.
End Mount.

(** ** Signals *)

Inductive signal := SIGTERM | SIGINT | SIGUSR1 | SIGUSR2.

(** [forced] is ENABLE_FORCED_SHUTDOWN; an assertion that fails leaves the program. *)
Definition notify_entry (forced : bool) (sig : signal) (entry : positive) : MM unit :=
  ap ← ap_of entry;
  p ← load (HH := point_heap) ap;
  let closing := bool_decide (p_state p = ST_SHUTDOWN_PENDING) || bool_decide (p_state p = ST_SHUTDOWN_FORCE) in
  if bool_decide (p_state p = ST_SHUTDOWN) then mret ()
  else
    match sig with
    | SIGTERM | SIGINT =>
        if closing then mret ()
        else update (HH := point_heap) ap (set_p_shutdown true);; add_task ap ST_SHUTDOWN_PENDING
    | SIGUSR2 =>
        if negb forced || closing then mret ()
        else update (HH := point_heap) ap (set_p_shutdown true);; add_task ap ST_SHUTDOWN_FORCE
    | SIGUSR1 => if bool_decide (p_state p = ST_READY) then add_task ap ST_PRUNE else stuck
    end.

Fixpoint notify_loop (forced : bool) (sig : signal) (l : list positive) : MM unit :=
  match l with
  | [] => mret ()
  | entry :: l => notify_entry forced sig entry;; notify_loop forced sig l
  end.

Definition master_notify_state_change (forced : bool) (sig : signal) : MM unit :=
  s ← get_state; notify_loop forced sig (d_mounts s).

(** ** The names of maps *)

Definition match_type (source type : cstring) : bool :=
  streq source type || (strneq source type 4 && (strlen source <=? 5)).

(** GNU [basename]: what is behind the last slash. *)
Definition basename (s : cstring) : cstring := match strrchr s "/"%char with Some t => tail t | None => s end.

Definition get_map_name (string : cstring) : cstring :=
  let base := basename string in
  let pre := take (length string - length base) string in
  let base := before base ","%char in
  match strchr (pre ++ base) "="%char with
  | Some t => tail t
  | None => match strrchr base ":"%char with Some t => tail t | None => base end
  end.

(** The cells of the arguments from [i] on; [first] says that [i] is 0. *)
Fixpoint match_args (args : vector) (first : bool) (name : cstring) : option bool :=
  match args with
  | [] => Some false
  | Uninit :: _ => None
  | c :: args' =>
      let starts := match c with Ptr s => streq s (str "--") | _ => false end in
      if first then
        match c with
        | Ptr s => if negb (hd_char s =a "-") && streq (get_map_name s) name then Some true else match_args args' false name
        | _ => match_args args' false name
        end
      else
        match c with
        | Null => None
        | _ =>
            if starts then
              match args' with
              | [] => Some false
              | Uninit :: _ => None
              | Null :: args'' => match_args args'' false name
              | Ptr s :: args'' =>
                  if negb (hd_char s =a "-") && streq (get_map_name s) name then Some true else match_args args'' false name
              end
            else match_args args' false name
        end
  end.

Definition match_name (source : map_source) (name : cstring) : option bool :=
  match_args (take (s_argc source) (s_argv source)) true name.
