(* ===== verification/MasterProps.v ===== *)
(** * Sources and what is freed with them *)

From S2P Require Import Prelude CString Hash Args Cache CacheInv StateQueue Lexer MountNfs MntTable ConfigNames ConfigGet Memory Master MasterEntries.
Open Scope Z_scope.

Abbreviation sources := (gmap positive map_source).

(** ** Deleting several objects *)

Section Deletes.
Context {A : Type}.
Implicit Types (h : gmap positive A) (l : list positive).

Abbreviation deletes := (fun h l => foldr delete h l).

Lemma lookup_deletes h l a : foldr delete h l !! a = if bool_decide (a ∈ l) then None else h !! a.
Proof.
  case_bool_decide; [by apply lookup_foldr_delete|by apply lookup_foldr_delete_not_elem_of].
Qed.

(** What remains does not depend on what the deleted objects were. *)
Lemma deletes_ext h h' l l' :
  (forall a, a ∈ l <-> a ∈ l') -> (forall a, a ∉ l -> h !! a = h' !! a) -> foldr delete h l = foldr delete h' l'.
Proof.
  intros Hl Hh. apply map_eq. intros a. rewrite !lookup_deletes.
  rewrite (bool_decide_ext (a ∈ l') (a ∈ l)) by (by rewrite Hl). case_bool_decide; [done|by apply Hh].
Qed.

Lemma deletes_app h l l' : foldr delete h (l ++ l') = foldr delete (foldr delete h l) l'.
Proof.
  apply map_eq. intros a. rewrite !lookup_deletes.
  repeat case_bool_decide; set_solver.
Qed.

Lemma lseg_deletes {NA : Node A} h p l q l' : l ## l' -> lseg h p l q -> lseg (foldr delete h l') p l q.
Proof.
  intros Hd. apply lseg_ext. intros a Ha. rewrite lookup_deletes, bool_decide_false by set_solver. done.
Qed.
End Deletes.

(** ** The view of an entry *)

(** A source of an entry, its instances and its cache. *)
Record block := Block { b_src : positive; b_inst : list positive; b_mc : positive }.

Definition b_all (b : block) : list positive := b_src b :: b_inst b.

(** An instance is not counted and has no instances. *)
Definition leaf (h : sources) (a : positive) : Prop :=
  exists x, h !! a = Some x /\ s_ref x = 0 /\ s_instance x = None.

Definition source_ok (h : sources) (b : block) : Prop :=
  exists s, h !! b_src b = Some s /\ s_ref s = 1 /\ s_mc s = Some (b_mc b) /\
    chain h (s_instance s) (b_inst b) /\ Forall (leaf h) (b_inst b).

Record sources_ok (h : sources) (c : gmap positive mapent_cache) (p : ptr) (bs : list block) : Prop := {
  ok_chain : chain h p (b_src <$> bs);
  ok_blocks : Forall (source_ok h) bs;
  ok_live : Forall (fun b => is_Some (c !! b_mc b)) bs
}.

(** The objects of several sources. *)
Definition objects (bs : list block) : list positive := mbind b_all bs.

(** A source depends on its objects only, and not on whether modules are open, on its age
    and on whether it is stale. *)
Definition closed (s : map_source) : map_source := set_s_age 0 (set_s_stale false (set_s_lookup false s)).

Lemma leaf_ext h h' a : closed <$> h !! a = closed <$> h' !! a -> leaf h a -> leaf h' a.
Proof.
  intros E (x & Hx & ? & ?). rewrite Hx in E. destruct (h' !! a) as [x'|] eqn:E'; [|done].
  injection E. intros. exists x'. split_and!; congruence.
Qed.

Lemma same_link (h h' : sources) a : closed <$> h !! a = closed <$> h' !! a -> link <$> h !! a = link <$> h' !! a.
Proof. destruct (h !! a) as [[]|], (h' !! a) as [[]|]; intros; by simplify_eq/=. Qed.

(** What matters of the source itself. *)
Definition body (s : map_source) : Z * ptr * ptr := (s_ref s, s_mc s, s_instance s).

Lemma source_ok_body h h' b :
  body <$> h !! b_src b = body <$> h' !! b_src b ->
  (forall a, a ∈ b_inst b -> closed <$> h !! a = closed <$> h' !! a) -> source_ok h b -> source_ok h' b.
Proof.
  intros E1 E (s & Hs & ? & ? & Hc & Hl). rewrite Hs in E1. destruct (h' !! b_src b) as [s'|] eqn:E'; [|done].
  injection E1. intros. exists s'. split_and!; try congruence.
  - replace (s_instance s') with (s_instance s) by congruence. revert Hc. apply lseg_ext.
    intros a Ha. by apply same_link, E.
  - rewrite Forall_forall in Hl |- *. intros a Ha. apply (leaf_ext h); [|by apply Hl]. by apply E.
Qed.

Lemma source_ok_ext h h' b :
  (forall a, a ∈ b_all b -> closed <$> h !! a = closed <$> h' !! a) -> source_ok h b -> source_ok h' b.
Proof.
  intros E. apply source_ok_body; [|intros a Ha; apply E; by right]. specialize (E (b_src b) ltac:(by left)).
  destruct (h !! b_src b) as [[]|], (h' !! b_src b) as [[]|]; by simplify_eq/=.
Qed.

(** ** Freeing *)

Lemma close_instances_run fuel p l s m :
  chain (d_src s) p l -> (length l <= fuel)%nat ->
  exists h', close_instances fuel p s m = Some ((), set_src h' s, m) /\
    (forall a, closed <$> h' !! a = closed <$> d_src s !! a) /\ (forall a, a ∉ l -> h' !! a = d_src s !! a).
Proof.
  induction l as [|a l IH] in fuel, p, s |- *; intros Hc Hf.
  - inversion Hc. exists (d_src s). destruct s; by destruct fuel.
  - destruct Hc as [-> (x & Ha & Hc)]. destruct fuel as [|fuel]; simpl in Hf; [lia|]. cbn [close_instances].
    rewrite (bind_load (HH := src_heap) _ _ _ _ x) by done.
    destruct (s_lookup x) eqn:El.
    + rewrite (bind_update (HH := src_heap) _ _ _ _ x) by done. cbn.
      destruct (IH fuel (s_next x) (set_src (<[a := set_s_lookup false x]> (d_src s)) s)) as (h' & Hr & H1 & H2); [|lia|].
      { cbn. by apply lseg_update with x. }
      exists h'. split; [done|]. split; intros b.
      * rewrite H1. cbn. destruct (decide (a = b)) as [<-|]; [|by rewrite lookup_insert_ne].
        rewrite lookup_insert_eq, Ha. by destruct x.
      * intros Hb%not_elem_of_cons. rewrite H2 by naive_solver. cbn. apply lookup_insert_ne. naive_solver.
    + rewrite bind_ret_l. destruct (IH fuel (s_next x) s Hc) as (h' & Hr & H1 & H2); [lia|].
      exists h'. split_and!; [done..|]. intros b Hb%not_elem_of_cons. apply H2. naive_solver.
Qed.

Lemma free_leaf fuel a s m :
  leaf (d_src s) a -> free_source (S (S fuel)) a false s m = Some ((), set_src (delete a (d_src s)) s, m).
Proof.
  intros (x & Ha & Hr & Hi). cbn [free_source]. rewrite (bind_load (HH := src_heap) _ _ _ _ x) by done.
  rewrite Hr. cbn [Z.eqb negb andb]. rewrite bind_ret_l, Hi.
  assert (forall k : unit -> MM unit, ((match s_mc x with Some _ => mret () | None => mret () end : MM unit) ≫= k) s m = k () s m) as ->
    by (by intros k; destruct (s_mc x)).
  destruct (s_lookup x); cbn.
  - unfold mbind, M_bind, update, free_obj. cbn. rewrite Ha. cbn. rewrite lookup_insert_eq. cbn. by rewrite delete_insert_eq.
  - unfold mbind, M_bind, free_obj. cbn. by rewrite Ha.
Qed.

Definition free_instances (fuel : nat) : nat -> ptr -> MM unit :=
  fix go (n : nat) (p : ptr) : MM unit :=
    match p with
    | None => mret ()
    | Some a =>
        match n with
        | O => stuck
        | S n => i ← load (HH := src_heap) a; free_source fuel a false;; go n (s_next i)
        end
    end.

Lemma free_instances_run fuel n p l s m :
  chain (d_src s) p l -> Forall (leaf (d_src s)) l -> (length l <= n)%nat ->
  free_instances (S (S fuel)) n p s m = Some ((), set_src (foldr delete (d_src s) l) s, m).
Proof.
  induction l as [|a l IH] in n, p, s |- *; intros Hc Hl Hn.
  - inversion Hc. destruct s. by destruct n.
  - pose proof (chain_NoDup _ _ _ Hc) as Hnd. destruct Hc as [-> (x & Ha & Hc)]. destruct n as [|n]; simpl in Hn; [lia|].
    apply Forall_cons in Hl as [Hla Hl]. apply NoDup_cons in Hnd as [Hnot _]. cbn [free_instances].
    rewrite (bind_load (HH := src_heap) _ _ _ _ x) by done.
    rewrite (bind_some _ _ _ _ _ _ _ (free_leaf fuel a s m Hla)).
    rewrite IH; cbn; [|by apply lseg_delete| |lia].
    + pose proof (deletes_app (d_src s) [a] l) as E. cbn in E. by rewrite E.
    + rewrite Forall_forall in Hl |- *. intros b Hb. apply (leaf_ext (d_src s)); [|by apply Hl].
      rewrite lookup_delete_ne; [done|]. by intros ->.
Qed.

(** A source that loses its last reference is freed with its instances, and with the
    cache when that is asked for. *)
Definition drop_cache (free_cache : bool) (b : block) (s : dstate) : dstate :=
  if free_cache then set_caches (delete (b_mc b) (d_mc s)) s else s.

(** There is fuel for the instances of a source. *)
Lemma instances_fuel (h : sources) a l p :
  is_Some (h !! a) -> a ∉ l -> chain h p l -> l = [] \/ (2 <= size h)%nat.
Proof.
  intros Ha Hnot Hc. destruct l as [|i l]; [by left|]. right.
  transitivity (size ({[a; i]} : gset positive)).
  { rewrite size_union by set_solver. by rewrite !size_singleton. }
  rewrite <- size_dom. apply subseteq_size. intros b [Hb|Hb]%elem_of_union;
    apply elem_of_singleton in Hb as ->; apply elem_of_dom; [done|]. eapply lseg_live; [exact Hc|by left].
Qed.

(** The modules of a source are closed. *)
Lemma close_source_run fuel a x l s m :
  d_src s !! a = Some x -> a ∉ l -> chain (d_src s) (s_instance x) l -> (length l <= fuel)%nat ->
  exists h', (if s_lookup x then close_instances fuel (s_instance x);; update a (set_s_lookup false) else mret ()) s m
    = Some ((), set_src h' s, m) /\
    (forall b, b ∈ l -> closed <$> h' !! b = closed <$> d_src s !! b) /\
    (forall b, b ∉ a :: l -> h' !! b = d_src s !! b) /\ is_Some (h' !! a).
Proof.
  intros Ha Hnot Hc Hf. destruct (s_lookup x).
  - destruct (close_instances_run fuel (s_instance x) l s m Hc Hf) as (h1 & Hrun & H1 & H2).
    rewrite (bind_some _ _ _ _ _ _ _ Hrun).
    assert (h1 !! a = Some x) as Hb by (by rewrite H2).
    rewrite (update_run (HH := src_heap) _ _ _ x) by done. eexists. split; [done|]. split_and!.
    + intros b Hb'. rewrite <- H1. cbn. rewrite lookup_insert_ne; [done|]. by intros ->.
    + intros b [? ?]%not_elem_of_cons. cbn. rewrite lookup_insert_ne by done. by apply H2.
    + cbn. rewrite lookup_insert_eq. eauto.
  - exists (d_src s). destruct s. eauto.
Qed.

Lemma free_block_run b free_cache s m :
  source_ok (d_src s) b -> NoDup (b_all b) -> is_Some (d_mc s !! b_mc b) ->
  master_free_map_source (b_src b) free_cache s m
  = Some ((), set_src (foldr delete (d_src s) (b_all b)) (drop_cache free_cache b s), m).
Proof.
  intros (x & Hx & Hr & Hmc & Hc & Hl) Hnd [mc Hlive].
  apply NoDup_cons in Hnd as [Hnot _]. pose proof (chain_length _ _ _ Hc) as Hlen.
  pose proof (instances_fuel _ _ _ _ (mk_is_Some _ _ Hx) Hnot Hc) as Hsz.
  unfold master_free_map_source, src_fuel. rewrite bind_heap_fuel. change (heap s) with (d_src s).
  cbn [free_source]. fold (free_instances (size (d_src s))).
  rewrite (bind_load (HH := src_heap) _ _ _ _ x) by done. rewrite Hr. cbn [Z.eqb negb].
  rewrite (bind_update (HH := src_heap) _ _ _ _ x) by done. change (u32 (1 - 1)) with 0. cbn [Z.eqb negb andb].
  rewrite Hmc. set (s1 := put_heap _ s).
  assert (Hs1 : d_src s1 = <[b_src b := set_s_ref 0 x]> (d_src s)) by done.
  assert ((if free_cache then free_obj (HH := mc_heap_of) (b_mc b) else mret ()) s1 m
    = Some ((), drop_cache free_cache b s1, m)) as Hrun.
  { destruct free_cache; [|done]. by rewrite (free_obj_run (HH := mc_heap_of) _ _ _ mc) by done. }
  rewrite (bind_some _ _ _ _ _ _ _ Hrun). clear Hrun. set (s2 := drop_cache free_cache b s1).
  assert (Hd2 : d_src s2 = d_src s1) by (subst s2; by destruct free_cache).
  destruct (close_source_run (size (d_src s)) (b_src b) (set_s_ref 0 x) (b_inst b) s2 m) as (h' & Hrun & H1 & H2 & [y Hy]);
    [rewrite Hd2, Hs1; apply lookup_insert_eq|done|rewrite Hd2, Hs1; apply lseg_insert; [done|exact Hc]|done|].
  change (s_lookup (set_s_ref 0 x)) with (s_lookup x) in Hrun. change (s_instance (set_s_ref 0 x)) with (s_instance x) in Hrun.
  rewrite (bind_some _ _ _ _ _ _ _ Hrun). clear Hrun.
  assert (Hrun : free_instances (size (d_src s)) (size (d_src s)) (s_instance x) (set_src h' s2) m
    = Some ((), set_src (foldr delete h' (b_inst b)) (set_src h' s2), m)).
  { destruct Hsz as [E|Hsz].
    - rewrite E in Hc |- *. assert (s_instance x = None) as -> by exact Hc. by destruct (size (d_src s)).
    - destruct (size (d_src s)) as [|[|n]] eqn:En; [lia..|]. apply free_instances_run; [| |lia].
      + cbn. revert Hc. apply lseg_ext. intros a Ha. apply same_link. rewrite H1, Hd2, Hs1 by done.
        rewrite lookup_insert_ne; [done|]. by intros <-.
      + cbn. rewrite Forall_forall in Hl |- *. intros a Ha. apply (leaf_ext (d_src s)); [|by apply Hl].
        rewrite H1, Hd2, Hs1 by done. rewrite lookup_insert_ne; [done|]. by intros <-. }
  rewrite (bind_some _ _ _ _ _ _ _ Hrun). clear Hrun.
  rewrite (free_obj_run (HH := src_heap) _ _ _ y).
  2: { cbn. rewrite lookup_deletes, bool_decide_false by done. done. }
  enough (foldr delete h' (b_all b) = foldr delete (d_src s) (b_all b)) as E.
  { cbn in E |- *. rewrite E. by destruct free_cache. }
  apply deletes_ext; [done|]. intros a Ha. rewrite H2, Hd2, Hs1 by done.
  apply lookup_insert_ne. intros <-. apply Ha. by left.
Qed.

Lemma sources_ok_ext h h' c c' p bs :
  (forall a, a ∈ objects bs -> h !! a = h' !! a) ->
  (forall b, b ∈ bs -> is_Some (c !! b_mc b) -> is_Some (c' !! b_mc b)) ->
  sources_ok h c p bs -> sources_ok h' c' p bs.
Proof.
  intros Hh Hc [H1 H2 H3]. rewrite Forall_forall in H2, H3. split.
  - revert H1. apply lseg_ext. intros a (b & -> & Hb)%list_elem_of_fmap. f_equal. apply Hh.
    apply list_elem_of_bind. exists b. split; [by left|done].
  - apply Forall_forall. intros b Hb. apply (source_ok_ext h); [|by apply H2]. intros a Ha. f_equal. apply Hh.
    apply list_elem_of_bind. eauto.
  - apply Forall_forall. eauto.
Qed.

Lemma sources_ok_cons h c p b bs :
  sources_ok h c p (b :: bs) ->
  p = Some (b_src b) /\ source_ok h b /\ is_Some (c !! b_mc b) /\
  exists x, h !! b_src b = Some x /\ sources_ok h c (s_next x) bs.
Proof.
  intros [[-> (x & Hx & H1)] [H2 H2']%Forall_cons [H3 H3']%Forall_cons]. split_and!; [done..|]. eauto 8 using Build_sources_ok.
Qed.

Lemma objects_cons b bs : objects (b :: bs) = b_all b ++ objects bs.
Proof. done. Qed.

Lemma free_maps_run fuel p bs s m :
  sources_ok (d_src s) (d_mc s) p bs -> NoDup (objects bs) -> NoDup (b_mc <$> bs) -> (length bs <= fuel)%nat ->
  free_maps fuel p true s m
  = Some ((), set_src (foldr delete (d_src s) (objects bs)) (set_caches (foldr delete (d_mc s) (b_mc <$> bs)) s), m).
Proof.
  induction bs as [|b bs IH] in fuel, p, s |- *; intros Hok Hnd Hcs Hf.
  - destruct Hok as [Hc _ _]. assert (p = None) as -> by exact Hc. destruct s. by destruct fuel.
  - destruct (sources_ok_cons _ _ _ _ _ Hok) as (-> & Hb & Hlive & x & Hx & Hok').
    destruct fuel as [|fuel]; simpl in Hf; [lia|]. rewrite objects_cons in Hnd |- *.
    apply NoDup_app in Hnd as (Hnd1 & Hdis & Hnd2). rewrite fmap_cons in Hcs |- *.
    apply NoDup_cons in Hcs as [Hmc Hcs]. cbn [free_maps].
    rewrite (bind_load (HH := src_heap) _ _ _ _ x) by done.
    rewrite (bind_some _ _ _ _ _ _ _ (free_block_run b true s m Hb Hnd1 Hlive)).
    rewrite IH; cbn -[b_all]; [|..|done|done|lia].
    + rewrite deletes_app. pose proof (deletes_app (d_mc s) [b_mc b] (b_mc <$> bs)) as E. cbn in E. by rewrite E.
    + revert Hok'. apply sources_ok_ext.
      * intros a Ha. rewrite lookup_deletes, bool_decide_false; [done|]. intros Ha'. by apply (Hdis a).
      * intros b' Hb' Hl. rewrite lookup_delete_ne; [done|]. intros E. apply Hmc. rewrite E. by apply list_elem_of_fmap_2.
Qed.
