(* ===== verification/MasterUpdate.v ===== *)
(** * Sources that are gone from the master map *)

From S2P Require Import Prelude CString Hash Args Cache CacheInv CacheUpdate StateQueue Lexer MountNfs MntTable ConfigNames ConfigGet Memory Master MasterEntries MasterProps.
Open Scope Z_scope.

(** ** What the loop over the sources decides *)

Definition outdated (h : sources) (age : Z) (b : block) : bool :=
  match h !! b_src b with Some x => s_age x <? age | None => false end.

Definition no_entries (c : gmap positive mapent_cache) (b : block) : bool :=
  match c !! b_mc b with
  | Some mc => match cache_lookup_first mc [] with Some (None, _, _) => true | _ => false end
  | None => false
  end.

(** A source is dropped when it is older than the entry and has no map entries. *)
Definition dead (h : sources) (c : gmap positive mapent_cache) (age : Z) (b : block) : bool :=
  outdated h age b && no_entries c b.

Definition dropped h c age (bs : list block) : list block := filter (fun b => dead h c age b = true) bs.
Definition retained h c age (bs : list block) : list block := filter (fun b => dead h c age b = false) bs.

Definition unlinked (x : map_source) : map_source := set_s_next None x.
Lemma unlinked_body (o o' : option map_source) : body ∘ unlinked <$> o = body ∘ unlinked <$> o' -> body <$> o = body <$> o'.
Proof. by destruct o as [[]|], o' as [[]|]. Qed.

Definition mark (readall : bool) (age : Z) (x : map_source) : map_source :=
  if readall || (s_age x <? age) then set_s_stale true x else x.

Record updated (readall : bool) (entry : positive) (e : master_mapent) (kept rest : list block) (s s' : dstate) : Prop := {
  up_maps : exists p', d_ent s' = <[entry := set_e_maps p' e]> (d_ent s) /\
    chain (d_src s') p' (b_src <$> kept ++ retained (d_src s) (d_mc s) (ent_age e) rest);
  up_caches : d_mc s' = foldr delete (d_mc s) (b_mc <$> dropped (d_src s) (d_mc s) (ent_age e) rest);
  up_gone : forall a, a ∈ objects (dropped (d_src s) (d_mc s) (ent_age e) rest) -> d_src s' !! a = None;
  up_same : forall a, a ∉ b_src <$> kept ++ rest ->
    a ∉ objects (dropped (d_src s) (d_mc s) (ent_age e) rest) -> d_src s' !! a = d_src s !! a;
  up_kept : forall b, b ∈ kept -> unlinked <$> d_src s' !! b_src b = unlinked <$> d_src s !! b_src b;
  up_rest : forall b, b ∈ retained (d_src s) (d_mc s) (ent_age e) rest ->
    unlinked <$> d_src s' !! b_src b = unlinked <$> (mark readall (ent_age e) <$> d_src s !! b_src b);
  up_other : s' = set_ent (d_ent s') (set_caches (d_mc s') (set_src (d_src s') s))
}.

Lemma with_mc_first s b mc cs :
  d_mc s !! b_mc b = Some mc -> wf mc cs ->
  exists r, reads (with_mc (b_mc b) cache_lookup_first) s r /\ no_entries (d_mc s) b = match r with None => true | _ => false end.
Proof.
  intros Hmc W. pose proof (lookup_first_reads mc cs W) as Hr. eexists. split.
  - intros m. unfold with_mc. rewrite Hmc, Hr. rewrite insert_id by done. by destruct s.
  - unfold no_entries. by rewrite Hmc, Hr.
Qed.

(** The decisions do not depend on the marks and on other sources. *)
Lemma dead_ext h h' c c' age b :
  s_age <$> h !! b_src b = s_age <$> h' !! b_src b -> c !! b_mc b = c' !! b_mc b -> dead h c age b = dead h' c' age b.
Proof.
  intros Hh Hc. unfold dead, outdated, no_entries. rewrite Hc.
  destruct (h !! b_src b), (h' !! b_src b); simplify_eq/=; congruence.
Qed.

Lemma dropped_ext h h' c c' age bs :
  (forall b, b ∈ bs -> s_age <$> h !! b_src b = s_age <$> h' !! b_src b /\ c !! b_mc b = c' !! b_mc b) ->
  dropped h c age bs = dropped h' c' age bs /\ retained h c age bs = retained h' c' age bs.
Proof.
  intros H. split; apply filter_ext_in; intros b Hb; destruct (H b Hb); by rewrite (dead_ext h h' c c').
Qed.

Lemma objects_src b bs : b ∈ bs -> b_src b ∈ objects bs.
Proof. intros Hb. apply list_elem_of_bind. exists b. split; [by left|done]. Qed.

Lemma objects_sub bs bs' a : (forall b, b ∈ bs -> b ∈ bs') -> a ∈ objects bs -> a ∈ objects bs'.
Proof. intros H (b & Ha & Hb)%list_elem_of_bind. apply list_elem_of_bind. eauto. Qed.

Lemma objects_srcs a bs : a ∈ b_src <$> bs -> a ∈ objects bs.
Proof. intros (b & -> & Hb)%list_elem_of_fmap. by apply objects_src. Qed.

Lemma objects_app bs bs' : objects (bs ++ bs') = objects bs ++ objects bs'.
Proof. apply bind_app. Qed.

(** The list of the sources with distinct objects. *)
Lemma srcs_NoDup bs : NoDup (objects bs) -> NoDup (b_src <$> bs).
Proof.
  induction bs as [|b bs IH]; [constructor|]. rewrite objects_cons, fmap_cons.
  intros (_ & Hd & Hn)%NoDup_app. constructor; [|by apply IH]. intros Ha. apply (Hd (b_src b)); [by left|by apply objects_srcs].
Qed.

(** A source that stays: its mark is changed, then the loop goes on behind it. *)
Lemma updated_keep readall entry e kept b rest s s1 s' x :
  NoDup (objects (kept ++ b :: rest)) ->
  d_src s !! b_src b = Some x -> d_ent s !! entry = Some e -> dead (d_src s) (d_mc s) (ent_age e) b = false ->
  s1 = set_src (<[b_src b := mark readall (ent_age e) x]> (d_src s)) s ->
  updated readall entry e (kept ++ [b]) rest s1 s' -> updated readall entry e kept (b :: rest) s s'.
Proof.
  intros Hnd Hx He Hdead -> U. pose proof (srcs_NoDup _ Hnd) as Hnd'.
  set (s1 := set_src _ s) in *.
  assert (forall b', b' ∈ rest -> b_src b' <> b_src b) as Hne.
  { intros b' Hb' E. rewrite fmap_app, fmap_cons in Hnd'. apply NoDup_app in Hnd' as (_ & _ & [Hn _]%NoDup_cons).
    apply Hn. rewrite <- E. by apply list_elem_of_fmap_2. }
  assert (forall b', b' ∈ kept -> b_src b' <> b_src b) as Hne'.
  { intros b' Hb' E. rewrite fmap_app, fmap_cons in Hnd'. apply NoDup_app in Hnd' as (_ & Hd & _).
    apply (Hd (b_src b')); [by apply list_elem_of_fmap_2|rewrite E; by left]. }
  destruct (dropped_ext (d_src s1) (d_src s) (d_mc s1) (d_mc s) (ent_age e) rest) as [Ed Er].
  { intros b' Hb'. split; [|done]. cbn. rewrite lookup_insert_ne; [done|]. by apply not_eq_sym, Hne. }
  assert (dropped (d_src s) (d_mc s) (ent_age e) (b :: rest) = dropped (d_src s) (d_mc s) (ent_age e) rest) as Ed'
    by (unfold dropped; by rewrite filter_cons_False by congruence).
  assert (retained (d_src s) (d_mc s) (ent_age e) (b :: rest) = b :: retained (d_src s) (d_mc s) (ent_age e) rest) as Er'
    by (unfold retained; by rewrite filter_cons_True by done).
  destruct U as [(p' & Up1 & Up2) Uc Ug Us Uk Ur Uo]. rewrite ?Ed, ?Er in *. constructor; rewrite ?Ed', ?Er'.
  - exists p'. split; [done|]. by rewrite <- app_assoc in Up2.
  - done.
  - done.
  - intros a Ha Hd. rewrite Us; [|by rewrite <- app_assoc|done]. cbn. apply lookup_insert_ne.
    intros <-. apply Ha. rewrite fmap_app, fmap_cons. apply elem_of_app. right. by left.
  - intros b' Hb'. rewrite Uk by set_solver. cbn. rewrite lookup_insert_ne; [done|]. by apply not_eq_sym, Hne'.
  - intros b' [->|Hb']%elem_of_cons.
    + rewrite Uk by set_solver. cbn. by rewrite lookup_insert_eq, Hx.
    + rewrite Ur by done. cbn. rewrite lookup_insert_ne; [done|]. apply not_eq_sym, Hne. by apply list_elem_of_filter in Hb' as [_ ?].
  - rewrite Uo. done.
Qed.

(** A source that is dropped is taken from the list first. *)
Record unlinks (entry : positive) (e e1 : master_mapent) (kept : list block) (b : block) (next : ptr) (s s1 : dstate) : Prop := {
  ul_ent : exists q, e1 = set_e_maps q e /\ d_ent s1 = <[entry := e1]> (d_ent s) /\ lseg (d_src s1) q (b_src <$> kept) next;
  ul_same : forall a, a ∉ b_src <$> kept -> a <> b_src b -> d_src s1 !! a = d_src s !! a;
  ul_src : closed <$> d_src s1 !! b_src b = closed <$> d_src s !! b_src b;
  ul_kept : forall b', b' ∈ kept -> unlinked <$> d_src s1 !! b_src b' = unlinked <$> d_src s !! b_src b';
  ul_other : s1 = set_ent (d_ent s1) (set_src (d_src s1) s)
}.

Lemma updated_drop readall entry e e1 kept b rest next s s1 s' :
  NoDup (objects (kept ++ b :: rest)) -> NoDup (b_mc <$> b :: rest) ->
  dead (d_src s) (d_mc s) (ent_age e) b = true -> unlinks entry e e1 kept b next s s1 ->
  updated readall entry e1 kept rest (set_src (foldr delete (d_src s1) (b_all b)) (set_caches (delete (b_mc b) (d_mc s)) s1)) s' ->
  updated readall entry e kept (b :: rest) s s'.
Proof.
  intros Hnd Hcs Hdead [(q & -> & Hent & _) Hsame _ Hkept Hoth] U. set (s2 := set_src _ _) in U.
  rewrite objects_app, objects_cons in Hnd. apply NoDup_app in Hnd as (_ & Hdk & (_ & Hdb & Hndr)%NoDup_app).
  assert (forall a, a ∉ objects kept -> a ∉ b_all b -> d_src s2 !! a = d_src s !! a) as Hs2.
  { intros a Ha Hb. cbn -[b_all]. rewrite lookup_deletes, bool_decide_false by done. apply Hsame; [by intros ?%objects_srcs|]. intros ->. apply Hb. by left. }
  assert (forall b', b' ∈ kept -> d_src s2 !! b_src b' = d_src s1 !! b_src b') as Hs2k.
  { intros b' Hb'. cbn -[b_all]. rewrite lookup_deletes, bool_decide_false; [done|].
    intros Ha. apply (Hdk (b_src b')); [by apply objects_src|]. apply elem_of_app. by left. }
  assert (forall b', b' ∈ rest -> d_src s2 !! b_src b' = d_src s !! b_src b') as Hs2r.
  { intros b' Hb'. apply Hs2; intros Ha; [apply (Hdk _ Ha)|apply (Hdb _ Ha)]; rewrite ?elem_of_app; auto using objects_src. }
  destruct (dropped_ext (d_src s2) (d_src s) (d_mc s2) (d_mc s) (ent_age e) rest) as [Ed Er].
  { intros b' Hb'. split; [by rewrite Hs2r|]. cbn. apply lookup_delete_ne. intros E. rewrite fmap_cons in Hcs.
    apply NoDup_cons in Hcs as [Hn _]. apply Hn. rewrite E. by apply list_elem_of_fmap_2. }
  assert (dropped (d_src s) (d_mc s) (ent_age e) (b :: rest) = b :: dropped (d_src s) (d_mc s) (ent_age e) rest) as Ed'
    by (unfold dropped; by rewrite filter_cons_True by done).
  assert (retained (d_src s) (d_mc s) (ent_age e) (b :: rest) = retained (d_src s) (d_mc s) (ent_age e) rest) as Er'
    by (unfold retained; by rewrite filter_cons_False by congruence).
  assert (forall a, a ∈ objects (dropped (d_src s) (d_mc s) (ent_age e) rest) -> a ∈ objects rest) as Hsub.
  { intros a. apply objects_sub. by intros b' [_ ?]%list_elem_of_filter. }
  destruct U as [(p' & Up1 & Up2) Uc Ug Us Uk Ur Uo].
  change (ent_age (set_e_maps q e)) with (ent_age e) in *. rewrite ?Ed, ?Er in *. constructor; rewrite ?Ed', ?Er'.
  - exists p'. split; [|done]. rewrite Up1. change (d_ent s2) with (d_ent s1). rewrite Hent. by rewrite insert_insert_eq.
  - rewrite Uc, fmap_cons. symmetry. apply (deletes_app (d_mc s) [b_mc b]).
  - intros a. rewrite objects_cons. intros [Ha|Ha]%elem_of_app; [|by apply Ug].
    rewrite Us; [cbn -[b_all]; by rewrite lookup_deletes, bool_decide_true| |].
    + intros Hk%objects_srcs. rewrite objects_app in Hk. apply elem_of_app in Hk as [Hk|Hk]; [|by apply (Hdb a)].
      apply (Hdk a Hk). apply elem_of_app. by left.
    + intros Hk%Hsub. by apply (Hdb a).
  - intros a Ha. rewrite objects_cons. intros [Hb Hd]%not_elem_of_app. rewrite fmap_app, fmap_cons in Ha.
    apply not_elem_of_app in Ha as [Hk [_ Hr]%not_elem_of_cons].
    rewrite Us; [|by rewrite fmap_app, not_elem_of_app|done]. cbn -[b_all].
    rewrite lookup_deletes, bool_decide_false by done. apply Hsame; [done|]. intros ->. apply Hb. by left.
  - intros b' Hb'. by rewrite Uk, Hs2k, Hkept.
  - intros b' Hb'. rewrite Ur by done. rewrite Hs2r; [done|]. by apply list_elem_of_filter in Hb' as [_ ?].
  - rewrite Uo. subst s2. rewrite Hoth. by destruct s.
Qed.

(** [last] is the last source that was kept. *)
Definition unlink (entry : positive) (last next : ptr) : MM unit :=
  match last with
  | None => update (HH := ent_heap) entry (set_e_maps next)
  | Some l => update (HH := src_heap) l (set_s_next next)
  end.

Lemma unlink_run entry e kept b p next s m :
  NoDup (objects (kept ++ [b])) -> d_ent s !! entry = Some e -> lseg (d_src s) (ent_maps e) (b_src <$> kept) p ->
  exists e1 s1, unlink entry (last (b_src <$> kept)) next s m = Some ((), s1, m) /\ unlinks entry e e1 kept b next s s1 /\
    ent_maps e1 = match kept with [] => next | k :: _ => Some (b_src k) end /\
    (forall a, a ∉ b_src <$> kept -> d_src s1 !! a = d_src s !! a).
Proof.
  intros Hnd%srcs_NoDup He Hl. rewrite fmap_app in Hnd. apply NoDup_app in Hnd as (Hnd & Hnot & _).
  assert (b_src b ∉ b_src <$> kept) as Hb by (intros Hb; apply (Hnot _ Hb); by left). clear Hnot.
  destruct (decide (kept = [])) as [->|Hk].
  - cbn. rewrite (update_run (HH := ent_heap) _ _ _ e) by done. exists (set_e_maps next e). eexists. split; [done|]. split; [|done].
    constructor; [by exists next|done..].
  - destruct (exists_last Hk) as (k0 & l & ->). rewrite fmap_app in Hl |- *. cbn in Hl |- *. rewrite last_snoc. cbn [unlink].
    assert (NoDup ((b_src <$> k0) ++ [b_src l])) as Hnd' by (by rewrite fmap_app in Hnd).
    pose proof Hl as Hl'. apply lseg_app in Hl' as (r & Hk0 & [-> (x & Hx & _)]).
    rewrite (update_run (HH := src_heap) _ _ _ x) by done. exists e. eexists. split; [done|]. split.
    + constructor; cbn.
      * exists (ent_maps e). split; [by destruct e|]. split; [by rewrite insert_id|].
        rewrite fmap_app. pose proof (lseg_redirect (d_src s) (ent_maps e) (b_src <$> k0) (b_src l) p next x Hnd' Hl Hx) as Hr. cbn in Hr. exact Hr.
      * intros a Ha _. apply lookup_insert_ne. intros <-. apply Ha. rewrite fmap_app. apply elem_of_app. right. by left.
      * rewrite lookup_insert_ne; [done|]. intros E. apply Hb. rewrite <- E, fmap_app. apply elem_of_app. right. by left.
      * intros b' Hb'. destruct (decide (b_src l = b_src b')) as [E|]; [|by rewrite lookup_insert_ne].
        rewrite <- E, lookup_insert_eq, Hx. by destruct x.
      * by destruct s.
    + split; [destruct k0 as [|k k0]; cbn in Hl |- *; by destruct Hl as [-> _]|].
      intros a Ha. cbn. apply lookup_insert_ne. intros <-. apply Ha. apply elem_of_app. right. by left.
Qed.

(** The mark of the source that is dropped does not matter. *)
Lemma unlinks_marked entry e e1 kept b next s0 s s1 :
  NoDup (objects (kept ++ [b])) -> (forall a, a <> b_src b -> d_src s !! a = d_src s0 !! a) ->
  closed <$> d_src s !! b_src b = closed <$> d_src s0 !! b_src b -> s = set_src (d_src s) s0 ->
  unlinks entry e e1 kept b next s s1 -> unlinks entry e e1 kept b next s0 s1.
Proof.
  intros Hnd%srcs_NoDup Hs Hsb Es [(q & He1 & Hent & Hl) Hsame Hsrc Hkept Hoth]. rewrite fmap_app in Hnd.
  apply NoDup_app in Hnd as (_ & Hd & _). constructor.
  - exists q. split_and!; [done| |done]. rewrite Hent, Es. done.
  - intros a Ha Hb. rewrite Hsame, Hs by done. done.
  - by rewrite Hsrc, Hsb.
  - intros b' Hb'. rewrite Hkept by done. rewrite Hs; [done|]. intros E. apply (Hd (b_src b')); [by apply list_elem_of_fmap_2|].
    rewrite E. by left.
  - rewrite Hoth, Es. done.
Qed.

Lemma lseg_nil {A} {NA : Node A} (h : gmap positive A) p q : lseg h p [] q -> p = q.
Proof. done. Qed.

(** The rest of the turn that drops a source. *)
Definition drop_source (entry a : positive) (next : ptr) : MM unit :=
  e ← load (HH := ent_heap) entry;
  (if bool_decide (ent_maps e = Some a) then update (HH := ent_heap) entry (set_e_maps next) else mret ());;
  master_free_map_source a true.

Lemma drop_source_run entry e e1 kept b next s s1 m :
  NoDup (objects (kept ++ [b])) -> source_ok (d_src s) b -> is_Some (d_mc s !! b_mc b) ->
  unlinks entry e e1 kept b next s s1 -> ent_maps e1 <> Some (b_src b) ->
  drop_source entry (b_src b) next s1 m
  = Some ((), set_src (foldr delete (d_src s1) (b_all b)) (set_caches (delete (b_mc b) (d_mc s)) s1), m).
Proof.
  intros Hnd Hb Hlive [(q & -> & Hent & _) Hsame Hsrc _ Hoth] Hne. unfold drop_source.
  rewrite (bind_load (HH := ent_heap) _ _ _ _ (set_e_maps q e)) by (cbn; rewrite Hent; apply lookup_insert_eq).
  rewrite bool_decide_false by done. rewrite bind_ret_l.
  rewrite objects_app in Hnd. apply NoDup_app in Hnd as (_ & Hd & Hndb). cbn -[b_all] in Hd, Hndb. rewrite app_nil_r in Hd, Hndb.
  assert (d_mc s1 = d_mc s) as Emc by (by rewrite Hoth).
  rewrite (free_block_run b true s1 m); [cbn; by rewrite Emc| |done|by rewrite Emc].
  revert Hb. apply source_ok_ext. intros a [->|Ha]%elem_of_cons; [done|]. f_equal. symmetry. apply Hsame.
  - intros Hk%objects_srcs. apply (Hd a Hk). by right.
  - intros ->. by apply NoDup_cons in Hndb as [? _].
Qed.

Definition caches_ok (c : gmap positive mapent_cache) : Prop := forall a mc, c !! a = Some mc -> exists cs, wf mc cs.

Lemma caches_ok_deletes c l : caches_ok c -> caches_ok (foldr delete c l).
Proof. intros H a mc. rewrite lookup_deletes. case_bool_decide; [done|]. apply H. Qed.

Lemma mark_link readall age x : s_next (mark readall age x) = s_next x.
Proof. unfold mark. by destruct (_ || _). Qed.

(** The state in which a source has its mark. *)
Definition marked (readall : bool) (age : Z) (a : positive) (x : map_source) (s : dstate) : dstate :=
  set_src (<[a := mark readall age x]> (d_src s)) s.

Lemma sources_ok_mark readall age h c p kept b rest x :
  NoDup (objects (kept ++ b :: rest)) -> h !! b_src b = Some x -> sources_ok h c p rest ->
  sources_ok (<[b_src b := mark readall age x]> h) c p rest.
Proof.
  intros Hnd Hx. apply sources_ok_ext; [|done]. intros a Ha. rewrite lookup_insert_ne; [done|]. intros <-.
  rewrite objects_app, objects_cons in Hnd. apply NoDup_app in Hnd as (_ & _ & (_ & Hd & _)%NoDup_app).
  apply (Hd (b_src b)); [by left|done].
Qed.

(** One turn for a source that stays. *)
Lemma updated_keep_next readall entry e kept b rest x s :
  d_ent s !! entry = Some e -> lseg (d_src s) (ent_maps e) (b_src <$> kept) (Some (b_src b)) ->
  d_src s !! b_src b = Some x -> sources_ok (d_src s) (d_mc s) (s_next x) rest -> NoDup (objects (kept ++ b :: rest)) ->
  lseg (d_src (marked readall (ent_age e) (b_src b) x s)) (ent_maps e) (b_src <$> kept ++ [b]) (s_next x) /\
  sources_ok (d_src (marked readall (ent_age e) (b_src b) x s)) (d_mc s) (s_next x) rest /\
  NoDup (objects ((kept ++ [b]) ++ rest)) /\
  retained (d_src s) (d_mc s) (ent_age e) rest = retained (d_src (marked readall (ent_age e) (b_src b) x s)) (d_mc s) (ent_age e) rest /\
  existsb (outdated (d_src s) (ent_age e)) (retained (d_src s) (d_mc s) (ent_age e) rest)
  = existsb (outdated (d_src (marked readall (ent_age e) (b_src b) x s)) (ent_age e)) (retained (d_src s) (d_mc s) (ent_age e) rest).
Proof.
  intros He Hl Hx Hok Hnd.
  assert (forall b', b' ∈ rest -> d_src s !! b_src b' = d_src (marked readall (ent_age e) (b_src b) x s) !! b_src b') as Hsame.
  { intros b' Hb'. cbn. rewrite lookup_insert_ne; [done|]. intros E. apply srcs_NoDup in Hnd.
    rewrite fmap_app, fmap_cons in Hnd. apply NoDup_app in Hnd as (_ & _ & [Hn _]%NoDup_cons). apply Hn. rewrite E. by apply list_elem_of_fmap_2. }
  split_and!.
  - rewrite fmap_app. apply lseg_app. exists (Some (b_src b)). split.
    + apply lseg_update with x; [done|apply mark_link|done].
    + split; [done|]. exists (mark readall (ent_age e) x). split; [apply lookup_insert_eq|apply mark_link].
  - by apply sources_ok_mark with kept.
  - by rewrite <- app_assoc.
  - apply dropped_ext. intros b' Hb'. by rewrite Hsame.
  - assert (forall bs, (forall b', b' ∈ bs -> b' ∈ rest) -> existsb (outdated (d_src s) (ent_age e)) bs
      = existsb (outdated (d_src (marked readall (ent_age e) (b_src b) x s)) (ent_age e)) bs) as E; [|apply E; by intros b' [_ ?]%list_elem_of_filter].
    induction bs as [|b' bs IH]; intros Hbs; [done|]. cbn [existsb]. unfold outdated at 1 3. rewrite Hsame by (apply Hbs; by left).
    rewrite IH; [done|]. intros. apply Hbs. by right.
Qed.

(** One turn for a source that is dropped; [s1] is the state after the mark. *)
Lemma update_drop_run entry (readall : bool) kept b rest e x s s1 m :
  d_ent s !! entry = Some e -> lseg (d_src s) (ent_maps e) (b_src <$> kept) (Some (b_src b)) ->
  source_ok (d_src s) b -> d_src s !! b_src b = Some x -> sources_ok (d_src s) (d_mc s) (s_next x) rest ->
  is_Some (d_mc s !! b_mc b) -> NoDup (objects (kept ++ b :: rest)) -> NoDup (b_mc <$> b :: rest) ->
  s1 = (if readall then set_src (<[b_src b := set_s_stale true x]> (d_src s)) s else s) ->
  exists e1 s2, (unlink entry (last (b_src <$> kept)) (s_next x);; drop_source entry (b_src b) (s_next x)) s1 m
    = Some ((), set_src (foldr delete (d_src s2) (b_all b)) (set_caches (delete (b_mc b) (d_mc s)) s2), m) /\
    unlinks entry e e1 kept b (s_next x) s s2 /\ ent_age e1 = ent_age e.
Proof.
  intros He Hl Hb Hx Hok Hlive Hnd Hcs Es1.
  assert (NoDup (objects (kept ++ [b]))) as Hndkb.
  { rewrite objects_app, objects_cons, app_assoc in Hnd. apply NoDup_app in Hnd as (Hnd & _ & _).
    rewrite objects_app. cbn -[b_all]. by rewrite app_nil_r. }
  assert (lseg (d_src s1) (ent_maps e) (b_src <$> kept) (Some (b_src b)) /\ d_ent s1 = d_ent s) as [Hl1 Eent].
  { rewrite Es1. destruct readall; [|done]. split; [|done]. by apply lseg_update with x. }
  destruct (unlink_run entry e kept b (Some (b_src b)) (s_next x) s1 m Hndkb) as (e1 & s2 & Hrun & U1 & Emaps & _);
    [by rewrite Eent|done|].
  assert (unlinks entry e e1 kept b (s_next x) s s2) as Hul.
  { apply (unlinks_marked _ _ _ _ _ _ s s1); try done; rewrite Es1; destruct readall; try done; [|cbn; by rewrite lookup_insert_eq, Hx|by destruct s].
    intros a Ha. cbn. by apply lookup_insert_ne. }
  exists e1, s2. rewrite (bind_some _ _ _ _ _ _ _ Hrun). split; [|split; [done|by destruct Hul as [(q & -> & _) _ _ _ _]]].
  apply (drop_source_run entry e e1 kept b (s_next x) s s2 m); try done.
  apply srcs_NoDup in Hnd. rewrite Emaps. destruct kept as [|k kept].
  - intros E. destruct rest as [|b' rest]; [destruct Hok as [Hc _ _]; apply lseg_nil in Hc; congruence|].
    apply sources_ok_cons in Hok as (E' & _). rewrite E in E'. injection E' as E'. cbn in Hnd. rewrite E' in Hnd.
    apply NoDup_cons in Hnd as [Hn _]. apply Hn. by left.
  - intros [= E]. rewrite fmap_app, fmap_cons in Hnd. cbn in Hnd. rewrite E in Hnd. apply NoDup_cons in Hnd as [Hn _].
    apply Hn. apply elem_of_app. right. by left.
Qed.

Lemma drop_assoc {B} entry a last next (k : MM B) s m :
  (unlink entry last next;;
   e ← load (HH := ent_heap) entry;
   (if bool_decide (ent_maps e = Some a) then update (HH := ent_heap) entry (set_e_maps next) else mret ());;
   master_free_map_source a true;; k) s m
  = ((unlink entry last next;; drop_source entry a next);; k) s m.
Proof.
  unfold mbind, M_bind. destruct (unlink entry last next s m) as [[[? s1] m1]|]; [|done].
  unfold drop_source, mbind, M_bind. destruct (load (HH := ent_heap) entry s1 m1) as [[[e s2] m2]|]; [|done].
  case_bool_decide; [|done]. by destruct (update (HH := ent_heap) entry (set_e_maps next) s2 m2) as [[[? s3] m3]|].
Qed.

Lemma existsb_outdated h h' age bs :
  (forall b, b ∈ bs -> s_age <$> h !! b_src b = s_age <$> h' !! b_src b) ->
  existsb (outdated h age) bs = existsb (outdated h' age) bs.
Proof.
  induction bs as [|b bs IH]; intros Hbs; [done|]. cbn [existsb]. rewrite IH by (intros; apply Hbs; by right). f_equal.
  specialize (Hbs b ltac:(by left)). unfold outdated. destruct (h !! b_src b), (h' !! b_src b); by simplify_eq/=; congruence.
Qed.

(** The state from which the loop goes on behind a dropped source. *)
Lemma updated_drop_next entry e e1 kept b rest next s s2 :
  NoDup (objects (kept ++ b :: rest)) -> NoDup (b_mc <$> b :: rest) -> sources_ok (d_src s) (d_mc s) next rest ->
  unlinks entry e e1 kept b next s s2 ->
  let s3 := set_src (foldr delete (d_src s2) (b_all b)) (set_caches (delete (b_mc b) (d_mc s)) s2) in
  d_ent s3 !! entry = Some e1 /\ lseg (d_src s3) (ent_maps e1) (b_src <$> kept) next /\ sources_ok (d_src s3) (d_mc s3) next rest /\
  NoDup (objects (kept ++ rest)) /\
  existsb (outdated (d_src s) (ent_age e)) (retained (d_src s) (d_mc s) (ent_age e) rest)
  = existsb (outdated (d_src s3) (ent_age e)) (retained (d_src s3) (d_mc s3) (ent_age e) rest).
Proof.
  intros Hnd Hcs Hok [(q & -> & Hent & Hl) Hsame Hsrc _ Hoth] s3.
  rewrite objects_app, objects_cons in Hnd. apply NoDup_app in Hnd as (Hndk & Hdk & (Hndb & Hdb & Hndr)%NoDup_app).
  assert (forall a, a ∈ objects rest -> d_src s !! a = d_src s3 !! a) as Hr.
  { intros a Ha. cbn -[b_all]. rewrite lookup_deletes, bool_decide_false by (intros Hb; by apply (Hdb a)). symmetry. apply Hsame.
    - intros Hk%objects_srcs. apply (Hdk a Hk). apply elem_of_app. by right.
    - intros ->. apply (Hdb (b_src b)); [by left|done]. }
  assert (forall b', b' ∈ rest -> d_mc s !! b_mc b' = d_mc s3 !! b_mc b') as Hmc.
  { intros b' Hb'. cbn. rewrite lookup_delete_ne; [done|]. intros E. apply NoDup_cons in Hcs as [Hn _]. apply Hn. rewrite E.
    by apply list_elem_of_fmap_2. }
  split_and!.
  - cbn. rewrite Hent. apply lookup_insert_eq.
  - apply lseg_deletes; [|done]. intros a Ha Hb. apply (Hdk a); [by apply objects_srcs|]. apply elem_of_app. by left.
  - revert Hok. apply sources_ok_ext; [done|]. intros b' Hb'. by rewrite Hmc.
  - rewrite objects_app. apply NoDup_app. split_and!; [done| |done]. intros a Ha Hr'. apply (Hdk a Ha). apply elem_of_app. by right.
  - destruct (dropped_ext (d_src s) (d_src s3) (d_mc s) (d_mc s3) (ent_age e) rest) as [_ <-].
    { intros b' Hb'. split; [|by apply Hmc]. by rewrite Hr by (by apply objects_src). }
    apply existsb_outdated. intros b' [_ Hb']%list_elem_of_filter. by rewrite Hr by (by apply objects_src).
Qed.

Lemma update_sources_run fuel entry readall kept rest p stale e s m :
  d_ent s !! entry = Some e -> lseg (d_src s) (ent_maps e) (b_src <$> kept) p -> sources_ok (d_src s) (d_mc s) p rest ->
  NoDup (objects (kept ++ rest)) -> NoDup (b_mc <$> rest) -> caches_ok (d_mc s) -> (length rest <= fuel)%nat ->
  exists s', update_sources fuel entry readall (last (b_src <$> kept)) p stale s m
    = Some (stale || existsb (outdated (d_src s) (ent_age e)) (retained (d_src s) (d_mc s) (ent_age e) rest), s', m) /\
    updated readall entry e kept rest s s'.
Proof.
  induction rest as [|b rest IH] in fuel, kept, p, stale, e, s |- *; intros He Hl Hok Hnd Hcs Hco Hf.
  - destruct Hok as [Hc _ _]. assert (p = None) as -> by exact Hc. exists s. split.
    { cbn. rewrite orb_false_r. by destruct fuel. }
    constructor; cbn; try done; [|by intros a ?%elem_of_nil|by intros b ?%elem_of_nil|by destruct s]. exists (ent_maps e). rewrite app_nil_r. split; [|done].
    rewrite insert_id; [done|]. rewrite He. by destruct e.
  - destruct (sources_ok_cons _ _ _ _ _ Hok) as (-> & Hb & [mc Hmc] & x & Hx & Hok').
    destruct fuel as [|fuel]; simpl in Hf; [lia|]. cbn [update_sources].
    destruct (Hco _ _ Hmc) as [cs W].
    set (s1 := if readall then set_src (<[b_src b := set_s_stale true x]> (d_src s)) s else s).
    set (x1 := if readall then set_s_stale true x else x).
    assert (forall (k : unit -> MM bool), ((if readall then update (HH := src_heap) (b_src b) (set_s_stale true) else mret ()) ≫= k) s m = k () s1 m) as ->.
    { intros k. subst s1. destruct readall; [by rewrite (bind_update (HH := src_heap) _ _ _ _ x)|done]. }
    assert (d_src s1 !! b_src b = Some x1) as Hx1 by (subst s1 x1; destruct readall; [apply lookup_insert_eq|done]).
    assert (d_mc s1 = d_mc s /\ d_ent s1 = d_ent s) as [Emc Eent] by (subst s1; by destruct readall).
    rewrite (bind_load (HH := src_heap) _ _ _ _ x1) by done.
    rewrite (bind_load (HH := ent_heap) _ _ _ _ e) by (cbn; by rewrite Eent).
    assert (s_age x1 = s_age x /\ s_mc x1 = Some (b_mc b) /\ s_next x1 = s_next x) as (Eage & Esmc & Enext).
    { destruct Hb as (x' & Hx' & _ & Hm & _). assert (x' = x) as -> by congruence. subst x1. by destruct readall. }
    assert (outdated (d_src s) (ent_age e) b = (s_age x <? ent_age e)) as Eout by (unfold outdated; by rewrite Hx).
    assert (Hstay : forall stale', dead (d_src s) (d_mc s) (ent_age e) b = false ->
      stale' = stale || (s_age x <? ent_age e) ->
      exists s', update_sources fuel entry readall (Some (b_src b)) (s_next x) stale' (marked readall (ent_age e) (b_src b) x s) m
        = Some (stale || existsb (outdated (d_src s) (ent_age e)) (retained (d_src s) (d_mc s) (ent_age e) (b :: rest)), s', m) /\
        updated readall entry e kept (b :: rest) s s').
    { intros stale' Hdead ->.
      destruct (updated_keep_next readall entry e kept b rest x s He Hl Hx Hok' Hnd) as (H1 & H2 & H3 & H4 & H5).
      destruct (IH fuel (kept ++ [b]) (s_next x) (stale || (s_age x <? ent_age e)) e (marked readall (ent_age e) (b_src b) x s))
        as (s' & Hrun & U); try done; [by apply NoDup_cons in Hcs as [_ ?]|lia|].
      exists s'. split; [|by eapply updated_keep]. rewrite fmap_app in Hrun. cbn in Hrun. rewrite last_snoc in Hrun. rewrite Hrun.
      unfold retained at 2. rewrite filter_cons_True by done. cbn [existsb]. rewrite Eout. fold (retained (d_src s) (d_mc s) (ent_age e) rest).
      rewrite H5, H4. by rewrite orb_assoc. }
    rewrite Eage, Enext. destruct (s_age x <? ent_age e) eqn:Eold.
    2: { destruct (Hstay stale) as (s' & Hrun & U); [unfold dead; by rewrite Eout|by rewrite orb_false_r|].
      exists s'. split; [|done]. rewrite <- Hrun. f_equal. subst s1. unfold marked, mark. rewrite Eold, orb_false_r.
      destruct readall; [done|]. rewrite insert_id by done. by destruct s. }
    rewrite Esmc, bind_from_some.
    destruct (with_mc_first s1 b mc cs) as (r & Hr & Hno); [by rewrite Emc|done|].
    rewrite (reads_bind _ _ _ _ _ Hr). rewrite Emc in Hno. destruct r as [me|].
    { rewrite (bind_update (HH := src_heap) _ _ _ _ x1) by done.
      rewrite (bind_load (HH := src_heap) _ _ _ _ (set_s_stale true x1)) by apply lookup_insert_eq.
      destruct (Hstay true) as (s' & Hrun & U); [unfold dead; by rewrite Eout, Hno|by rewrite orb_true_r|].
      exists s'. split; [|done]. rewrite <- Hrun. change (s_next (set_s_stale true x1)) with (s_next x1). rewrite Enext.
      f_equal. subst s1 x1. unfold marked, mark. rewrite Eold, orb_true_r. destruct readall; [|done]. cbn. by rewrite insert_insert_eq. }
    assert (dead (d_src s) (d_mc s) (ent_age e) b = true) as Hdead by (unfold dead; by rewrite Eout, Hno).
    fold (unlink entry (last (b_src <$> kept)) (s_next x)).
    destruct (update_drop_run entry readall kept b rest e x s s1 m) as (e1 & s2 & Hrun & Hul & Eage2); try done.
    rewrite (drop_assoc _ _ _ _ (update_sources fuel entry readall (last (b_src <$> kept)) (s_next x) stale)).
    rewrite (bind_some _ _ _ _ _ _ _ Hrun).
    destruct (updated_drop_next entry e e1 kept b rest (s_next x) s s2) as (H1 & H2 & H3 & H4 & H5); try done.
    destruct (IH fuel kept (s_next x) stale e1 (set_src (foldr delete (d_src s2) (b_all b)) (set_caches (delete (b_mc b) (d_mc s)) s2)))
      as (s' & Hrun' & U); try done; [by apply NoDup_cons in Hcs as [_ ?]|by apply (caches_ok_deletes (d_mc s) [b_mc b])|lia|].
    exists s'. split; [|by eapply updated_drop]. rewrite Hrun'. do 3 f_equal. rewrite Eage2.
    unfold retained at 2. rewrite filter_cons_False by congruence. symmetry. f_equal. apply H5.
Qed.

(** ** [check_update_map_sources] *)

Lemma elem_objects_ne bs b b' a :
  NoDup (objects bs) -> b ∈ bs -> b' ∈ bs -> a ∈ b_all b -> a ∈ b_all b' -> b = b'.
Proof.
  induction bs as [|c bs IH]; intros Hnd Hb Hb' Ha Ha'; [by apply elem_of_nil in Hb|].
  rewrite objects_cons in Hnd. apply NoDup_app in Hnd as (_ & Hd & Hnd).
  apply elem_of_cons in Hb as [->|Hb]; apply elem_of_cons in Hb' as [->|Hb']; try done.
  - destruct (Hd a Ha). apply list_elem_of_bind. eauto.
  - destruct (Hd a Ha'). apply list_elem_of_bind. eauto.
  - by apply IH.
Qed.

Lemma block_NoDup bs b : NoDup (objects bs) -> b ∈ bs -> NoDup (b_all b).
Proof.
  intros Hnd (l1 & l2 & ->)%list_elem_of_split. rewrite objects_app, objects_cons in Hnd.
  by apply NoDup_app in Hnd as (_ & _ & (? & _ & _)%NoDup_app).
Qed.

(** An instance of a source that stays is not changed. *)
Lemma updated_instance readall entry e bs s s' b a :
  NoDup (objects bs) -> updated readall entry e [] bs s s' ->
  b ∈ retained (d_src s) (d_mc s) (ent_age e) bs -> a ∈ b_inst b -> d_src s' !! a = d_src s !! a.
Proof.
  intros Hnd U [Hdead Hb]%list_elem_of_filter Ha. apply (up_same _ _ _ _ _ _ _ U).
  - intros (b' & -> & Hb')%list_elem_of_fmap. assert (b = b') as <-.
    { apply (elem_objects_ne bs b b' (b_src b')); try done; [by right|by left]. }
    pose proof (block_NoDup bs b Hnd Hb) as [? _]%NoDup_cons. done.
  - intros (b' & Ha' & [Hdead' Hb']%list_elem_of_filter)%list_elem_of_bind. assert (b = b') as <-; [|congruence].
    apply (elem_objects_ne bs b b' a); try done. by right.
Qed.

Lemma updated_sources_ok readall entry e bs p' s s' :
  NoDup (objects bs) -> NoDup (b_mc <$> bs) -> sources_ok (d_src s) (d_mc s) (ent_maps e) bs ->
  updated readall entry e [] bs s s' ->
  chain (d_src s') p' (b_src <$> retained (d_src s) (d_mc s) (ent_age e) bs) ->
  sources_ok (d_src s') (d_mc s') p' (retained (d_src s) (d_mc s) (ent_age e) bs).
Proof.
  intros Hnd Hcs [_ Hblocks Hlive] U Hc. rewrite Forall_forall in Hblocks, Hlive. split; [done|..]; apply Forall_forall; intros b Hb.
  - pose proof Hb as [_ Hb0]%list_elem_of_filter. apply (source_ok_body (d_src s)); [| |by apply Hblocks].
    + pose proof (up_rest _ _ _ _ _ _ _ U b Hb) as Hu. symmetry. apply unlinked_body. rewrite !option_fmap_compose, Hu. unfold mark.
      destruct (d_src s !! b_src b) as [x|]; [|done]. cbn. by destruct (readall || _).
    + intros a Ha. by rewrite (updated_instance readall entry e bs s s' b a).
  - rewrite (up_caches _ _ _ _ _ _ _ U), lookup_deletes. pose proof Hb as [Hd Hb0]%list_elem_of_filter.
    rewrite bool_decide_false; [by apply Hlive|]. intros (b' & E & [Hd' Hb']%list_elem_of_filter)%list_elem_of_fmap.
    assert (b = b') as <-; [|congruence].
    apply list_elem_of_lookup in Hb0 as [i Hi]. apply list_elem_of_lookup in Hb' as [j Hj].
    assert (i = j) as <-; [|congruence]. apply (NoDup_lookup (b_mc <$> bs) i j (b_mc b)); [done|..].
    + by rewrite list_lookup_fmap, Hi.
    + rewrite list_lookup_fmap, Hj. cbn. by rewrite E.
Qed.

Definition stale_request (ap : positive) (b : bool) : list (positive * states) := if b then [(ap, ST_READMAP)] else [].

(** The state [s'] after the sources of an entry have been checked in [s]. *)
Record checked (readall : bool) (entry ap : positive) (e : master_mapent) (bs : list block) (s s' : dstate) : Prop := {
  ch_entry : exists p', d_ent s' = <[entry := set_e_maps p' e]> (d_ent s) /\
    sources_ok (d_src s') (d_mc s') p' (retained (d_src s) (d_mc s) (ent_age e) bs);
  ch_caches : d_mc s' = foldr delete (d_mc s) (b_mc <$> dropped (d_src s) (d_mc s) (ent_age e) bs);
  ch_freed : forall a, a ∈ objects (dropped (d_src s) (d_mc s) (ent_age e) bs) -> d_src s' !! a = None;
  ch_kept : forall b, b ∈ retained (d_src s) (d_mc s) (ent_age e) bs ->
    unlinked <$> d_src s' !! b_src b = unlinked <$> (mark readall (ent_age e) <$> d_src s !! b_src b) /\
    forall a, a ∈ b_inst b -> d_src s' !! a = d_src s !! a;
  ch_frame : forall a, a ∉ objects bs -> d_src s' !! a = d_src s !! a;
  ch_tasks : d_tasks s' = d_tasks s ++ stale_request ap (readall || existsb (outdated (d_src s) (ent_age e)) (retained (d_src s) (d_mc s) (ent_age e) bs));
  ch_other : s' = set_tasks (d_tasks s') (set_ent (d_ent s') (set_caches (d_mc s') (set_src (d_src s') s)))
}.

Lemma check_update_run readall entry ap e bs s m :
  d_ent s !! entry = Some e -> ent_ap e = Some ap -> sources_ok (d_src s) (d_mc s) (ent_maps e) bs ->
  NoDup (objects bs) -> NoDup (b_mc <$> bs) -> caches_ok (d_mc s) ->
  exists s', check_update_map_sources entry readall s m = Some ((), s', m) /\ checked readall entry ap e bs s s'.
Proof.
  intros He Hap Hok Hnd Hcs Hco. pose proof (chain_length _ _ _ (ok_chain _ _ _ _ Hok)) as Hlen. rewrite length_fmap in Hlen.
  destruct (update_sources_run (size (d_src s)) entry readall [] bs (ent_maps e) readall e s m) as (s1 & Hrun & U); try done.
  unfold check_update_map_sources, ap_of. rewrite <- bind_bind, (bind_load (HH := ent_heap) _ _ _ _ e) by done.
  rewrite Hap, bind_from_some, (bind_load (HH := ent_heap) _ _ _ _ e) by done.
  unfold src_fuel. rewrite bind_heap_fuel. cbn in Hrun |- *. rewrite (bind_some _ _ _ _ _ _ _ Hrun).
  set (st := readall || _).
  exists (set_tasks (d_tasks s ++ stale_request ap st) s1).
  pose proof (up_maps _ _ _ _ _ _ _ U) as (p' & Hent & Hc). rewrite app_nil_l in Hc.
  assert (d_tasks s1 = d_tasks s) as Et by (by rewrite (up_other _ _ _ _ _ _ _ U)).
  split.
  - destruct st; cbn; [by unfold add_task, modify; rewrite Et|]. rewrite app_nil_r, <- Et. by destruct s1.
  - constructor; cbn.
    + exists p'. split; [done|]. by apply (updated_sources_ok readall entry e bs p' s s1).
    + apply (up_caches _ _ _ _ _ _ _ U).
    + apply (up_gone _ _ _ _ _ _ _ U).
    + intros b Hb. split; [by apply (up_rest _ _ _ _ _ _ _ U)|]. intros a. by apply (updated_instance readall entry e bs s s1 b a).
    + intros a Ha. apply (up_same _ _ _ _ _ _ _ U); [by intros ?%objects_srcs|]. intros Hd. apply Ha. revert Hd. apply objects_sub.
      by intros b [_ ?]%list_elem_of_filter.
    + done.
    + rewrite (up_other _ _ _ _ _ _ _ U). done.
Qed.
