(* ===== verification/MasterInv.v ===== *)
(** * The invariant of the master map *)

From S2P Require Import Prelude CString Hash Args Cache CacheInv CacheOps CacheUpdate StateQueue Lexer MountNfs MntTable ConfigNames ConfigGet Memory Master MasterEntries MasterProps MasterUpdate.
Open Scope Z_scope.

(** ** The invariant *)

(** An entry, its mount point and its sources. *)
Record view := View { v_ent : positive; v_ap : positive; v_blocks : list block }.

Definition v_objects (v : view) : list positive := objects (v_blocks v).
Definition v_caches (v : view) : list positive := b_mc <$> v_blocks v.

(** An entry has a mount point and at least one source of its own age. *)
Definition entry_ok (s : dstate) (v : view) : Prop :=
  exists e, d_ent s !! v_ent v = Some e /\ ent_ap e = Some (v_ap v) /\
    sources_ok (d_src s) (d_mc s) (ent_maps e) (v_blocks v) /\
    Exists (fun b => outdated (d_src s) (ent_age e) b = false) (v_blocks v).

(** No null entry is part of a multi-mount. *)
Definition null_ok (nc : mapent_cache) : Prop :=
  exists cs, wf nc cs /\ forall a, a ∈ concat cs -> sat (mc_heap nc) in_mm a = false.

(** The entries of the master map share nothing, and what is allocated belongs to one
    of them. *)
Record master_ok (s : dstate) (vs : list view) : Prop := {
  mo_listed : v_ent <$> vs ≡ₚ d_mounts s ++ d_completed s;
  mo_entries : Forall (entry_ok s) vs;
  mo_nodup_ent : NoDup (v_ent <$> vs);
  mo_nodup_ap : NoDup (v_ap <$> vs);
  mo_nodup_src : NoDup (vs ≫= v_objects);
  mo_nodup_mc : NoDup (vs ≫= v_caches);
  mo_live_ent : forall a, is_Some (d_ent s !! a) <-> a ∈ v_ent <$> vs;
  mo_live_ap : forall a, is_Some (d_ap s !! a) <-> a ∈ v_ap <$> vs;
  mo_live_src : forall a, is_Some (d_src s !! a) <-> a ∈ vs ≫= v_objects;
  mo_live_mc : forall a, is_Some (d_mc s !! a) <-> a ∈ vs ≫= v_caches;
  mo_caches : caches_ok (d_mc s);
  mo_null : exists nc, d_nc s = Some nc /\ null_ok nc
}.

#[export] Instance master_ok_proper s : Proper ((≡ₚ) ==> iff) (master_ok s).
Proof.
  assert (forall vs vs', vs ≡ₚ vs' -> master_ok s vs -> master_ok s vs') as H.
  { intros vs vs' E []. constructor; try done.
    - by rewrite <- E.
    - by rewrite <- E.
    - by rewrite <- E.
    - by rewrite <- E.
    - by rewrite <- E.
    - by rewrite <- E.
    - intros a. by rewrite <- E.
    - intros a. by rewrite <- E.
    - intros a. by rewrite <- E.
    - intros a. by rewrite <- E. }
  intros vs vs' E. split; by apply H.
Qed.

(** What an entry needs of the state. *)
Lemma entry_ok_ext s s' v :
  d_ent s !! v_ent v = d_ent s' !! v_ent v -> (forall a, a ∈ v_objects v -> d_src s !! a = d_src s' !! a) ->
  (forall c, c ∈ v_caches v -> is_Some (d_mc s !! c) -> is_Some (d_mc s' !! c)) -> entry_ok s v -> entry_ok s' v.
Proof.
  intros He Hs Hc (e & Hent & Hap & Hok & Hex). exists e. split_and!; [by rewrite <- He|done|..].
  - revert Hok. apply sources_ok_ext; [done|]. intros b Hb. apply Hc. by apply list_elem_of_fmap_2.
  - apply Exists_exists in Hex as (b & Hb & Hout). apply Exists_exists. exists b. split; [done|].
    unfold outdated in *. by rewrite <- Hs by (by apply objects_src).
Qed.

(** The other entries are apart from the one at the head. *)
Lemma apart {A} (f : view -> list A) v vs v' a :
  NoDup ((v :: vs) ≫= f) -> v' ∈ vs -> a ∈ f v' -> a ∉ f v.
Proof.
  intros (_ & Hd & _)%NoDup_app Hv' Ha Ha'. apply (Hd a Ha'). apply list_elem_of_bind. eauto.
Qed.

Lemma NoDup_bind_head {A} (f : view -> list A) v vs : NoDup ((v :: vs) ≫= f) -> NoDup (f v) /\ NoDup (vs ≫= f).
Proof. by intros (? & _ & ?)%NoDup_app. Qed.

Lemma entry_ne v vs v' : NoDup (v_ent <$> v :: vs) -> v' ∈ vs -> v_ent v' <> v_ent v.
Proof. intros [Hn _]%NoDup_cons Hv' E. apply Hn. rewrite <- E. by apply list_elem_of_fmap_2. Qed.

Lemma filter_ne_perm (l l' : list positive) a : NoDup l -> l ≡ₚ a :: l' -> filter (fun b => b <> a) l ≡ₚ l'.
Proof.
  intros Hnd E. rewrite E in Hnd |- *. apply NoDup_cons in Hnd as [Hn _].
  rewrite filter_cons_False by naive_solver. rewrite filter_all; [done|]. intros b Hb ->. done.
Qed.

(** ** An entry is deleted *)

Lemma free_mapent_sources_run s e entry bs m :
  d_ent s !! entry = Some e -> sources_ok (d_src s) (d_mc s) (ent_maps e) bs -> NoDup (objects bs) -> NoDup (b_mc <$> bs) ->
  master_free_mapent_sources entry true s m
  = Some ((), set_ent (<[entry := set_e_maps None e]> (d_ent s))
       (set_src (foldr delete (d_src s) (objects bs)) (set_caches (foldr delete (d_mc s) (b_mc <$> bs)) s)), m).
Proof.
  intros He Hok Hnd Hcs. unfold master_free_mapent_sources. rewrite (bind_load (HH := ent_heap) _ _ _ _ e) by done.
  destruct (ent_maps e) as [p|] eqn:Ep.
  - unfold src_fuel. rewrite bind_heap_fuel. pose proof (chain_length _ _ _ (ok_chain _ _ _ _ Hok)) as Hlen. rewrite length_fmap in Hlen.
    rewrite (bind_some _ _ _ _ _ _ _ (free_maps_run (size (d_src s)) (Some p) bs s m Hok Hnd Hcs Hlen)).
    by rewrite (update_run (HH := ent_heap) _ _ _ e).
  - destruct bs as [|b bs]; [|apply sources_ok_cons in Hok as [[=] _]]. rewrite insert_id; [by destruct s|].
    rewrite He. f_equal. destruct e. cbn in *. by subst.
Qed.

(** What a deletion leaves of the state. *)
Definition without (v : view) (s : dstate) : dstate :=
  DS (foldr delete (d_src s) (v_objects v)) (foldr delete (d_mc s) (v_caches v)) (delete (v_ent v) (d_ent s)) (delete (v_ap v) (d_ap s))
    (filter (fun b => b <> v_ent v) (d_mounts s)) (d_completed s) (d_nc s) (d_readall s) (d_read_fail s) (d_tasks s).

Lemma forget_mapent_run s v vs m : master_ok s (v :: vs) -> forget_mapent (v_ent v) s m = Some ((), without v s, m).
Proof.
  intros []. apply Forall_cons in mo_entries0 as [(e & He & Hap & Hok & _) _].
  apply NoDup_bind_head in mo_nodup_src0 as [Hs _], mo_nodup_mc0 as [Hc _].
  unfold forget_mapent, unlist. rewrite bind_modify.
  set (s1 := set_mounts _ s).
  rewrite (bind_some _ _ _ _ _ _ _ (free_mapent_sources_run s1 e (v_ent v) (v_blocks v) m He Hok Hs Hc)).
  unfold master_free_mapent. rewrite (bind_load (HH := ent_heap) _ _ _ _ (set_e_maps None e)) by apply lookup_insert_eq.
  destruct (proj2 (mo_live_ap0 (v_ap v)) ltac:(by left)) as [p Hp].
  cbn [ent_ap set_e_maps]. rewrite Hap. cbn [master_free_autofs_point].
  rewrite (bind_free_obj (HH := point_heap) _ _ _ _ p) by done.
  rewrite (free_obj_run (HH := ent_heap) _ _ _ (set_e_maps None e)) by apply lookup_insert_eq.
  unfold without. cbn. by rewrite delete_insert_eq.
Qed.

Lemma live_deletes {A} (h : gmap positive A) l l' :
  NoDup (l ++ l') -> (forall a, is_Some (h !! a) <-> a ∈ l ++ l') -> forall a, is_Some (foldr delete h l !! a) <-> a ∈ l'.
Proof.
  intros (_ & Hd & _)%NoDup_app H a. rewrite lookup_deletes. case_bool_decide as Ha.
  - split; [by intros [? ?]|]. intros Ha'. by destruct (Hd a Ha).
  - rewrite H, elem_of_app. naive_solver.
Qed.

Lemma without_ok s v vs : master_ok s (v :: vs) -> v_ent v ∈ d_mounts s -> master_ok (without v s) vs.
Proof.
  intros [] Hin. pose proof mo_nodup_ent0 as Hne.
  assert (forall v', v' ∈ vs -> entry_ok s v' -> entry_ok (without v s) v') as Hext.
  { intros v' Hv'. apply entry_ok_ext; cbn.
    - rewrite lookup_delete_ne; [done|]. by apply not_eq_sym, (entry_ne v vs v').
    - intros a Ha. rewrite lookup_deletes, bool_decide_false; [done|]. by apply (apart _ _ _ _ _ mo_nodup_src0 Hv').
    - intros c Hc Hl. rewrite lookup_deletes, bool_decide_false; [done|]. by apply (apart _ _ _ _ _ mo_nodup_mc0 Hv'). }
  assert (v_ent v ∉ d_completed s) as Hnc.
  { rewrite mo_listed0 in Hne. apply NoDup_app in Hne as (_ & Hd & _). by apply Hd. }
  constructor; cbn.
  - rewrite <- (filter_all (fun b => b <> v_ent v) (d_completed s)) by (by intros b Hb ->).
    rewrite <- filter_app, <- mo_listed0. symmetry. apply (filter_ne_perm _ (v_ent <$> vs)); done.
  - apply Forall_cons in mo_entries0 as [_ H]. rewrite Forall_forall in H |- *. auto.
  - by apply NoDup_cons in mo_nodup_ent0 as [_ ?].
  - by apply NoDup_cons in mo_nodup_ap0 as [_ ?].
  - by apply NoDup_bind_head in mo_nodup_src0 as [_ ?].
  - by apply NoDup_bind_head in mo_nodup_mc0 as [_ ?].
  - by apply (live_deletes (d_ent s) [v_ent v]).
  - by apply (live_deletes (d_ap s) [v_ap v]).
  - by apply live_deletes.
  - by apply live_deletes.
  - by apply caches_ok_deletes.
  - done.
Qed.

(** ** The sources of an entry are checked *)

Lemma split_blocks h c age bs : bs ≡ₚ dropped h c age bs ++ retained h c age bs.
Proof.
  unfold dropped, retained. induction bs as [|b bs IH]; [done|]. destruct (dead h c age b) eqn:E.
  - rewrite filter_cons_True, filter_cons_False by congruence. cbn. by rewrite <- IH.
  - rewrite filter_cons_False, filter_cons_True by congruence. rewrite <- Permutation_middle. by rewrite <- IH.
Qed.

#[export] Instance objects_proper : Proper ((≡ₚ) ==> (≡ₚ)) objects.
Proof. intros bs bs' E. unfold objects. by rewrite E. Qed.

(** The entry with the sources it keeps. *)
Definition checked_view (s : dstate) (age : Z) (v : view) : view :=
  View (v_ent v) (v_ap v) (retained (d_src s) (d_mc s) age (v_blocks v)).

Lemma checked_objects s age v vs :
  (v :: vs) ≫= v_objects ≡ₚ objects (dropped (d_src s) (d_mc s) age (v_blocks v)) ++ (checked_view s age v :: vs) ≫= v_objects.
Proof.
  rewrite !bind_cons. rewrite app_assoc. f_equiv. unfold v_objects, checked_view. cbn [v_blocks].
  rewrite (split_blocks (d_src s) (d_mc s) age (v_blocks v)) at 1. by rewrite objects_app.
Qed.

Lemma checked_caches s age v vs :
  (v :: vs) ≫= v_caches ≡ₚ (b_mc <$> dropped (d_src s) (d_mc s) age (v_blocks v)) ++ (checked_view s age v :: vs) ≫= v_caches.
Proof.
  rewrite !bind_cons. rewrite app_assoc. f_equiv. unfold v_caches, checked_view. cbn [v_blocks].
  rewrite (split_blocks (d_src s) (d_mc s) age (v_blocks v)) at 1. by rewrite fmap_app.
Qed.

Lemma mark_age readall age x : s_age (mark readall age x) = s_age x.
Proof. unfold mark. by destruct (_ || _). Qed.

Lemma checked_live readall entry ap e bs s s' b :
  checked readall entry ap e bs s s' -> b ∈ retained (d_src s) (d_mc s) (ent_age e) bs ->
  forall a, a ∈ b_all b -> is_Some (d_src s !! a) <-> is_Some (d_src s' !! a).
Proof.
  intros C Hb a Ha. destruct (ch_kept _ _ _ _ _ _ _ C b Hb) as [H1 H2].
  apply elem_of_cons in Ha as [->|Ha]; [|by rewrite H2].
  destruct (d_src s !! b_src b), (d_src s' !! b_src b); cbn in H1; try done; split; eauto; by intros [].
Qed.

Lemma checked_age readall entry ap e bs s s' b :
  checked readall entry ap e bs s s' -> b ∈ retained (d_src s) (d_mc s) (ent_age e) bs ->
  outdated (d_src s') (ent_age e) b = outdated (d_src s) (ent_age e) b.
Proof.
  intros C Hb. destruct (ch_kept _ _ _ _ _ _ _ C b Hb) as [H1 _]. unfold outdated.
  destruct (d_src s !! b_src b) as [x|], (d_src s' !! b_src b) as [x'|]; cbn in H1; try done.
  apply (inj Some) in H1. apply (f_equal s_age) in H1. cbn in H1. by rewrite H1, mark_age.
Qed.

Lemma checked_entry readall s s' v e ap :
  d_ent s !! v_ent v = Some e -> ent_ap e = Some (v_ap v) ->
  Exists (fun b => outdated (d_src s) (ent_age e) b = false) (v_blocks v) ->
  checked readall (v_ent v) ap e (v_blocks v) s s' -> entry_ok s' (checked_view s (ent_age e) v).
Proof.
  intros He Hap Hex C. destruct (ch_entry _ _ _ _ _ _ _ C) as (p' & Hent & Hok).
  exists (set_e_maps p' e). split_and!; [cbn; rewrite Hent; apply lookup_insert_eq|done|done|].
  apply Exists_exists in Hex as (b & Hb & Hout). apply Exists_exists. exists b.
  assert (b ∈ retained (d_src s) (d_mc s) (ent_age e) (v_blocks v)) as Hr.
  { apply list_elem_of_filter. split; [|done]. unfold dead. by rewrite Hout. }
  split; [done|]. cbn. by rewrite (checked_age readall (v_ent v) ap e (v_blocks v) s s' b).
Qed.

Lemma checked_live_src readall s s' v vs e ap :
  NoDup ((v :: vs) ≫= v_objects) -> (forall a, is_Some (d_src s !! a) <-> a ∈ (v :: vs) ≫= v_objects) ->
  checked readall (v_ent v) ap e (v_blocks v) s s' ->
  forall a, is_Some (d_src s' !! a) <-> a ∈ (checked_view s (ent_age e) v :: vs) ≫= v_objects.
Proof.
  intros Hnd Hlive C a. rewrite (checked_objects s (ent_age e)) in Hnd.
  assert (Hl : is_Some (d_src s !! a) <-> a ∈ objects (dropped (d_src s) (d_mc s) (ent_age e) (v_blocks v)) \/
    a ∈ (checked_view s (ent_age e) v :: vs) ≫= v_objects) by (by rewrite Hlive, (checked_objects s (ent_age e)), elem_of_app).
  apply NoDup_app in Hnd as (_ & Hd & _).
  destruct (decide (a ∈ objects (dropped (d_src s) (d_mc s) (ent_age e) (v_blocks v)))) as [Hg|Hg].
  { rewrite (ch_freed _ _ _ _ _ _ _ C a Hg). split; [by intros []|]. intros Ha. by destruct (Hd a Hg). }
  enough (is_Some (d_src s' !! a) <-> is_Some (d_src s !! a)) as -> by naive_solver.
  destruct (decide (a ∈ objects (retained (d_src s) (d_mc s) (ent_age e) (v_blocks v)))) as [Hr|Hr].
  - apply list_elem_of_bind in Hr as (b & Ha & Hb). symmetry. by apply (checked_live readall (v_ent v) ap e (v_blocks v) s s' b).
  - rewrite (ch_frame _ _ _ _ _ _ _ C); [done|]. intros Ha. unfold objects in Ha, Hg, Hr.
    rewrite (split_blocks (d_src s) (d_mc s) (ent_age e) (v_blocks v)), bind_app, elem_of_app in Ha. tauto.
Qed.

Lemma checked_ok readall s s' v vs e :
  master_ok s (v :: vs) -> d_ent s !! v_ent v = Some e -> checked readall (v_ent v) (v_ap v) e (v_blocks v) s s' ->
  master_ok s' (checked_view s (ent_age e) v :: vs).
Proof.
  intros [] He C. pose proof mo_entries0 as [(e' & He' & Hap & _ & Hex) _]%Forall_cons. assert (e' = e) as -> by congruence.
  destruct (ch_entry _ _ _ _ _ _ _ C) as (p' & Hent & _). pose proof (ch_other _ _ _ _ _ _ _ C) as Ho.
  assert (d_mounts s' = d_mounts s /\ d_completed s' = d_completed s /\ d_ap s' = d_ap s /\ d_nc s' = d_nc s) as (E1 & E2 & E3 & E4)
    by (rewrite Ho; by destruct s).
  constructor; rewrite ?E1, ?E2, ?E3, ?E4; try done.
  - apply Forall_cons. split; [by eapply checked_entry|]. apply Forall_cons in mo_entries0 as [_ H].
    rewrite Forall_forall in H |- *. intros v' Hv'. specialize (H v' Hv'). revert H. apply entry_ok_ext.
    + rewrite Hent. rewrite lookup_insert_ne; [done|]. by apply not_eq_sym, (entry_ne v vs v').
    + intros a Ha. symmetry. apply (ch_frame _ _ _ _ _ _ _ C). by apply (apart _ _ _ _ _ mo_nodup_src0 Hv').
    + intros c Hc Hl. rewrite (ch_caches _ _ _ _ _ _ _ C), lookup_deletes, bool_decide_false; [done|]. intros Hd.
      apply (apart _ _ _ _ _ mo_nodup_mc0 Hv' Hc). unfold v_caches.
      rewrite (split_blocks (d_src s) (d_mc s) (ent_age e) (v_blocks v)), fmap_app. apply elem_of_app. by left.
  - rewrite (checked_objects s (ent_age e)) in mo_nodup_src0. by apply NoDup_app in mo_nodup_src0 as (_ & _ & ?).
  - rewrite (checked_caches s (ent_age e)) in mo_nodup_mc0. by apply NoDup_app in mo_nodup_mc0 as (_ & _ & ?).
  - intros a. rewrite Hent. rewrite <- mo_live_ent0. destruct (decide (v_ent v = a)) as [<-|]; [|by rewrite lookup_insert_ne].
    rewrite lookup_insert_eq, He. split; eauto.
  - by apply checked_live_src with readall (v_ap v).
  - rewrite (ch_caches _ _ _ _ _ _ _ C). apply live_deletes; [by rewrite <- checked_caches|].
    intros a. by rewrite mo_live_mc0, (checked_caches s (ent_age e)).
  - rewrite (ch_caches _ _ _ _ _ _ _ C). by apply caches_ok_deletes.
Qed.
