(* ===== verification/MasterClaims.v ===== *)
(** * What the master map guarantees *)

From S2P Require Import Prelude CString Hash Args Cache CacheInv CacheOps CacheUpdate StateQueue Lexer MountNfs MntTable ConfigNames ConfigGet Memory Master MasterEntries MasterProps MasterUpdate MasterInv.
Open Scope Z_scope.

(** ** The null entries *)

Lemma with_nc_reads {A} (c : M mapent_cache A) nc s r : d_nc s = Some nc -> reads c nc r -> reads (with_nc c) s r.
Proof. intros Hn Hr m. unfold with_nc. rewrite Hn, Hr. f_equal. f_equal. f_equal. destruct s; cbn in *. by subst. Qed.

Lemma null_live nc a : null_ok nc -> (exists cs, wf nc cs /\ a ∈ concat cs) -> exists e, reads (deref a) nc e.
Proof.
  intros _ (cs & W & (c & Hc & Ha)%elem_of_concat). destruct (wf_live _ _ W c a Hc Ha) as [e He]. exists e. by apply deref_reads.
Qed.

Lemma null_distinct nc key :
  null_ok nc -> exists r, reads (cache_lookup_distinct (Some key)) nc r /\ forall a, r = Some a -> exists e, reads (deref a) nc e.
Proof.
  intros N. pose proof N as (cs & W & Hmm). eexists. split; [by apply lookup_distinct_reads|]. intros a Ha. apply null_live; [done|].
  exists cs. split; [done|]. apply head_Some_elem_of in Ha. by apply elem_of_entries in Ha as [? _].
Qed.

Lemma ffind_elem h test l a : ffind h test l = Some a -> a ∈ l.
Proof. intros (x & y & -> & _)%ffind_split. set_solver. Qed.

Lemma null_partial nc path :
  null_ok nc -> exists r, reads (cache_partial_match path) nc r /\ forall a, r = Some a -> exists e, reads (deref a) nc e.
Proof.
  intros N. pose proof N as (cs & W & Hmm). eexists. split; [by apply partial_match_reads|]. intros a Ha%ffind_elem.
  apply null_live; [done|]. eauto.
Qed.

Lemma null_delete nc key m : null_ok nc -> exists nc', cache_delete key nc m = Some (CHE_OK, nc', m) /\ null_ok nc'.
Proof.
  intros (cs & W & Hmm).
  destruct (cache_delete_run nc cs key m W) as (nc' & cs' & Hrun & W' & Hnil & Hoth & Hkp & _).
  { intros a [Ha _]%elem_of_entries. by apply Hmm. }
  exists nc'. split; [done|]. exists cs'. split; [done|]. intros a Ha.
  pose proof Ha as (c & Hc & Hac)%elem_of_concat. destruct (wf_live _ _ W' c a Hc Hac) as [e He].
  assert (a ∈ entries nc' cs' (me_key e)) as Hent by (apply elem_of_entries; eauto).
  assert (me_key e <> key) as Hne by (intros E; rewrite E, Hnil in Hent; by apply elem_of_nil in Hent).
  rewrite Hoth in Hent by done. apply elem_of_entries in Hent as (Ha0 & e0 & He0 & Hk0).
  rewrite (sat_payload _ (mc_heap nc)); [by apply Hmm| |done]. apply Hkp. split; [done|].
  intros (_ & e1 & He1 & Hk1)%elem_of_entries. congruence.
Qed.

(** ** One entry of the list *)

(** What is kept of an entry that is not deleted. *)
Record info := Info { i_age : Z; i_ap : positive; i_state : states; i_thid : Z }.

Definition info_of (s : dstate) (entry : positive) : option info :=
  e ← d_ent s !! entry;
  ap ← ent_ap e;
  p ← d_ap s !! ap;
  Some (Info (ent_age e) ap (p_state p) (p_thid p)).

(** A mount point that is handled by a thread. *)
Definition running (i : info) : bool := negb (i_thid i =? 0) && negb (bool_decide (i_state i = ST_INIT)).

(** The step for [entry] from [s] to [s']: the other entries keep what they have, and so
    does an entry that must not be deleted. *)
Record stepped (keep : info -> bool) (entry : positive) (s s' : dstate) : Prop := {
  sp_mounts : d_mounts s' = d_mounts s \/ d_mounts s' = filter (fun b => b <> entry) (d_mounts s);
  sp_completed : d_completed s' = d_completed s;
  sp_others : forall en, en <> entry -> en ∈ d_mounts s -> info_of s' en = info_of s en;
  sp_self : forall i, info_of s entry = Some i -> keep i = true -> d_mounts s' = d_mounts s /\ info_of s' entry = Some i;
  sp_tasks : d_tasks s `prefix_of` d_tasks s'
}.

Lemma info_of_ext s s' entry :
  ent_age <$> d_ent s !! entry = ent_age <$> d_ent s' !! entry -> ent_ap <$> d_ent s !! entry = ent_ap <$> d_ent s' !! entry ->
  (forall e ap, d_ent s !! entry = Some e -> ent_ap e = Some ap -> d_ap s !! ap = d_ap s' !! ap) ->
  info_of s entry = info_of s' entry.
Proof.
  intros H1 H2 H3. unfold info_of.
  destruct (d_ent s !! entry) as [e|], (d_ent s' !! entry) as [e'|]; cbn in *; try done.
  injection H1 as H1. injection H2 as H2. rewrite <- H2. destruct (ent_ap e) as [ap|] eqn:E; cbn; [|done].
  rewrite <- (H3 e ap) by done. by rewrite H1.
Qed.

(** A mount point belongs to one entry. *)
Lemma other_entry s v vs en e ap :
  master_ok s (v :: vs) -> d_ent s !! en = Some e -> ent_ap e = Some ap -> en <> v_ent v -> ap <> v_ap v.
Proof.
  intros [] He Hap Hne. assert (en ∈ v_ent <$> v :: vs) as Hin by (apply mo_live_ent; eauto).
  apply elem_of_cons in Hin as [?|Hin]; [done|]. apply list_elem_of_fmap in Hin as (v' & -> & Hv').
  rewrite Forall_forall in mo_entries. destruct (mo_entries v') as (e' & He' & Hap' & _); [by right|].
  assert (ap = v_ap v') as -> by congruence. apply NoDup_cons in mo_nodup_ap as [Hn _]. intros E. apply Hn. rewrite <- E.
  by apply list_elem_of_fmap_2.
Qed.

Lemma without_stepped keep s v vs i :
  master_ok s (v :: vs) -> info_of s (v_ent v) = Some i -> keep i = false -> stepped keep (v_ent v) s (without v s).
Proof.
  intros Hok Hi Hk. constructor; cbn; [by right|done|..].
  - intros en Hne Hin. symmetry. apply info_of_ext; cbn; rewrite ?lookup_delete_ne by done; [done..|].
    intros e ap He Hap. rewrite lookup_delete_ne; [done|]. by apply not_eq_sym, (other_entry s v vs en e).
  - intros i' Hi' Hk'. congruence.
  - done.
Qed.

Lemma checked_stepped keep readall s s' v e :
  d_ent s !! v_ent v = Some e -> checked readall (v_ent v) (v_ap v) e (v_blocks v) s s' -> stepped keep (v_ent v) s s'.
Proof.
  intros He C. destruct (ch_entry _ _ _ _ _ _ _ C) as (p' & Hent & _). pose proof (ch_other _ _ _ _ _ _ _ C) as Ho.
  assert (d_mounts s' = d_mounts s /\ d_completed s' = d_completed s /\ d_ap s' = d_ap s) as (E1 & E2 & E3) by (rewrite Ho; by destruct s).
  assert (forall en, info_of s' en = info_of s en) as Hi.
  { intros en. apply info_of_ext; rewrite ?E3, Hent; [..|done];
      (destruct (decide (v_ent v = en)) as [<-|]; [by rewrite lookup_insert_eq, He|by rewrite lookup_insert_ne]). }
  constructor; [by left|done|done|..].
  - intros i Hi' _. by rewrite Hi.
  - rewrite (ch_tasks _ _ _ _ _ _ _ C). by apply prefix_app_r.
Qed.

Lemma task_ok s vs t : master_ok s vs -> master_ok (set_tasks t s) vs.
Proof. by intros []. Qed.

Lemma task_stepped keep s entry ap st :
  stepped keep entry s (set_tasks (d_tasks s ++ [(ap, st)]) s).
Proof. constructor; cbn; [by left|done..|by apply prefix_app_r]. Qed.

(** A thread is started for the mount point. *)
Definition started (ap : positive) (p : point) (thid : Z) (s : dstate) : dstate := set_points (<[ap := set_p_thid thid p]> (d_ap s)) s.

Lemma started_ok s v vs p thid : master_ok s (v :: vs) -> d_ap s !! v_ap v = Some p -> master_ok (started (v_ap v) p thid s) (v :: vs).
Proof.
  intros [] Hp. constructor; try done. cbn. intros a. rewrite <- mo_live_ap.
  destruct (decide (v_ap v = a)) as [<-|]; [|by rewrite lookup_insert_ne]. rewrite lookup_insert_eq, Hp. split; eauto.
Qed.

Lemma started_stepped keep s v vs p thid i :
  master_ok s (v :: vs) -> info_of s (v_ent v) = Some i -> keep i = false -> stepped keep (v_ent v) s (started (v_ap v) p thid s).
Proof.
  intros Hok Hi Hk. constructor; cbn; [by left|done|..|done].
  - intros en Hne Hin. symmetry. apply info_of_ext; cbn; [done..|]. intros e ap He Hap. rewrite lookup_insert_ne; [done|].
    by apply not_eq_sym, (other_entry s v vs en e).
  - intros i' Hi' Hk'. congruence.
Qed.

Lemma info_of_view s v vs p :
  master_ok s (v :: vs) -> d_ap s !! v_ap v = Some p ->
  exists e, d_ent s !! v_ent v = Some e /\ ent_ap e = Some (v_ap v) /\
    info_of s (v_ent v) = Some (Info (ent_age e) (v_ap v) (p_state p) (p_thid p)).
Proof.
  intros [] Hp. apply Forall_cons in mo_entries as [(e & He & Hap & _) _]. exists e. split_and!; [done..|].
  unfold info_of. rewrite He. cbn. rewrite Hap. cbn. by rewrite Hp.
Qed.

Section Mounts.
Context (threads : positive -> option Z).

Lemma mount_or_update_run keep s v vs m i :
  master_ok s (v :: vs) -> v_ent v ∈ d_mounts s -> info_of s (v_ent v) = Some i -> keep i = running i ->
  exists s' vs', mount_or_update threads (v_ent v) (v_ap v) s m = Some ((), s', m) /\ master_ok s' vs' /\
    stepped keep (v_ent v) s s'.
Proof.
  intros Hok Hin Hi Hk. destruct (proj2 (mo_live_ap _ _ Hok (v_ap v)) ltac:(by left)) as [p Hp].
  destruct (info_of_view s v vs p Hok Hp) as (e & He & Hap & Hi'). rewrite Hi in Hi'. injection Hi' as Ei.
  unfold mount_or_update. rewrite (bind_load (HH := point_heap) _ _ _ _ p) by done. rewrite (reads_bind _ _ _ _ _ (reads_get s)).
  change (negb (p_thid p =? 0) && _) with (running (Info (ent_age e) (v_ap v) (p_state p) (p_thid p))). rewrite <- Ei.
  destruct (running i) eqn:Er.
  - pose proof (mo_entries _ _ Hok) as [(e' & He' & Hap' & Hso & _) _]%Forall_cons. assert (e' = e) as -> by congruence.
    destruct (NoDup_bind_head _ _ _ (mo_nodup_src _ _ Hok)) as [Hn1 _], (NoDup_bind_head _ _ _ (mo_nodup_mc _ _ Hok)) as [Hn2 _].
    destruct (check_update_run (d_readall s) (v_ent v) (v_ap v) e (v_blocks v) s m He Hap Hso Hn1 Hn2 (mo_caches _ _ Hok)) as (s' & Hrun & C).
    exists s', (checked_view s (ent_age e) v :: vs). split_and!; [done|by eapply checked_ok|by eapply checked_stepped].
  - assert (Hap_of : forall {B} (k : positive -> MM B), (ap_of (v_ent v) ≫= k) s m = k (v_ap v) s m).
    { intros B k. unfold ap_of. rewrite <- bind_bind, (bind_load (HH := ent_heap) _ _ _ _ e) by done. by rewrite Hap. }
    unfold master_do_mount. rewrite <- bind_bind, Hap_of. destruct (threads (v_ent v)) as [thid|].
    + rewrite <- bind_bind, (bind_update (HH := point_heap) _ _ _ _ p) by done. rewrite bind_ret_l.
      exists (started (v_ap v) p thid s), (v :: vs). split_and!; [done|by apply started_ok|by eapply started_stepped].
    + rewrite bind_ret_l. exists (without v s), vs.
      split_and!; [by eapply forget_mapent_run|by apply without_ok|by eapply without_stepped].
Qed.

Lemma nc_ok_set s vs nc : null_ok nc -> master_ok s vs -> master_ok (set_nc (Some nc) s) vs.
Proof. intros Hn []. constructor; try done. eauto. Qed.

Lemma nc_stepped keep entry s s' nc : stepped keep entry (set_nc nc s) s' -> stepped keep entry s s'.
Proof. by intros []. Qed.

(** The entry of a view, taken to the front. *)
Lemma master_ok_front s vs entry :
  master_ok s vs -> entry ∈ d_mounts s -> exists v vs', v_ent v = entry /\ master_ok s (v :: vs').
Proof.
  intros Hok Hin. assert (entry ∈ v_ent <$> vs) as Hv by (rewrite (mo_listed _ _ Hok); apply elem_of_app; by left).
  apply list_elem_of_fmap in Hv as (v & -> & (vs' & E)%elem_of_Permutation). exists v, vs'. by rewrite <- E.
Qed.

Definition kept_by (age : Z) (i : info) : bool := (i_age i <? age) || running i.

Lemma mount_entry_run age s v vs m :
  master_ok s (v :: vs) -> v_ent v ∈ d_mounts s ->
  exists s' vs', mount_entry threads age (v_ent v) s m = Some ((), s', m) /\ master_ok s' vs' /\
    stepped (kept_by age) (v_ent v) s s' /\
    (forall i, info_of s (v_ent v) = Some i -> i_age i < age -> (i_ap i, ST_SHUTDOWN_PENDING) ∈ d_tasks s').
Proof.
  intros Hok Hin. destruct (proj2 (mo_live_ap _ _ Hok (v_ap v)) ltac:(by left)) as [p Hp].
  destruct (info_of_view s v vs p Hok Hp) as (e & He & Hap & Hi).
  unfold mount_entry. rewrite (bind_load (HH := ent_heap) _ _ _ _ e) by done. rewrite Hap, bind_from_some.
  destruct (ent_age e <? age) eqn:Eage.
  { do 2 eexists. split; [done|]. split_and!; [by apply task_ok|apply task_stepped|].
    intros i' Hi' _. rewrite Hi in Hi'. injection Hi' as <-. cbn. set_solver. }
  set (i := Info _ _ _ _) in Hi.
  assert (kept_by age i = running i) as Hk by (unfold kept_by; cbn; by rewrite Eage).
  assert (forall i', info_of s (v_ent v) = Some i' -> i_age i' < age -> False) as Hno.
  { intros i' Hi' Hlt. rewrite Hi in Hi'. injection Hi' as <-. apply Z.ltb_ge in Eage. cbn in Hlt. lia. }
  destruct (mo_null _ _ Hok) as (nc & Hnc & Hn).
  destruct (null_distinct nc (ent_path e) Hn) as (r & Hr & Hlive).
  rewrite (reads_bind _ _ _ _ _ (with_nc_reads _ _ _ _ Hnc Hr)). destruct r as [n|].
  - destruct (Hlive n eq_refl) as [en Hen]. rewrite (reads_bind _ _ _ _ _ (with_nc_reads _ _ _ _ Hnc Hen)).
    pose proof (mo_entries _ _ Hok) as [(e' & He' & _ & Hso & Hex) _]%Forall_cons. assert (e' = e) as -> by congruence.
    destruct (v_blocks v) as [|b bs] eqn:Eb; [by apply Exists_nil in Hex|].
    apply sources_ok_cons in Hso as (-> & _ & _ & x & Hx & _). rewrite bind_from_some, (bind_load (HH := src_heap) _ _ _ _ x) by done.
    destruct (s_line x <? u32 (me_age en)).
    { destruct (mount_or_update_run (kept_by age) s v vs m i) as (s' & vs' & H1 & H2 & H3); try done.
      exists s', vs'. split_and!; try done. intros i' ? ?. by destruct (Hno i'). }
    rewrite (bind_load (HH := point_heap) _ _ _ _ p) by done. case_bool_decide as Est; cbn [negb].
    + exists (without v s), vs. split_and!; [by eapply forget_mapent_run|by apply without_ok| |by intros i' ? ?; destruct (Hno i')].
      eapply without_stepped; [done..|]. rewrite Hk. unfold running. cbn. rewrite Est, bool_decide_true by done. by rewrite andb_false_r.
    + do 2 eexists. split; [done|]. split_and!; [by apply task_ok|apply task_stepped|by intros i' ? ?; destruct (Hno i')].
  - destruct (null_partial nc (ent_path e) Hn) as (r & Hr2 & Hlive2).
    rewrite (reads_bind _ _ _ _ _ (with_nc_reads _ _ _ _ Hnc Hr2)). destruct r as [n|].
    + destruct (Hlive2 n eq_refl) as [en Hen]. destruct (null_delete nc (me_key en) m Hn) as (nc' & Hdel & Hn').
      rewrite <- bind_bind, (reads_bind _ _ _ _ _ (with_nc_reads _ _ _ _ Hnc Hen)).
      assert (with_nc (cache_delete (me_key en)) s m = Some (CHE_OK, set_nc (Some nc') s, m)) as Hrun by (unfold with_nc; by rewrite Hnc, Hdel).
      rewrite <- bind_bind, (bind_some _ _ _ _ _ _ _ Hrun), bind_ret_l.
      destruct (mount_or_update_run (kept_by age) (set_nc (Some nc') s) v vs m i) as (s' & vs' & H1 & H2 & H3); try done; [by apply nc_ok_set|].
      exists s', vs'. split_and!; [done..|by eapply nc_stepped|]. intros i' ? ?. by destruct (Hno i').
    + rewrite bind_ret_l. destruct (mount_or_update_run (kept_by age) s v vs m i) as (s' & vs' & H1 & H2 & H3); try done.
      exists s', vs'. split_and!; try done. intros i' ? ?. by destruct (Hno i').
Qed.

Lemma mounts_loop_run age l s vs m :
  master_ok s vs -> NoDup l -> (forall en, en ∈ l -> en ∈ d_mounts s) ->
  exists s' vs', mounts_loop threads age l s m = Some ((), s', m) /\ master_ok s' vs' /\
    d_mounts s' `sublist_of` d_mounts s /\ d_completed s' = d_completed s /\ d_tasks s `prefix_of` d_tasks s' /\
    (forall en i, en ∈ d_mounts s -> info_of s en = Some i -> en ∉ l \/ kept_by age i = true -> en ∈ d_mounts s' /\ info_of s' en = Some i) /\
    (forall en i, en ∈ l -> info_of s en = Some i -> i_age i < age -> (i_ap i, ST_SHUTDOWN_PENDING) ∈ d_tasks s').
Proof.
  induction l as [|entry l IH] in s, vs |- *; intros Hok Hnd Hl.
  { exists s, vs. split_and!; try done. by intros en i ?%elem_of_nil. }
  apply NoDup_cons in Hnd as [Hnot Hnd]. assert (entry ∈ d_mounts s) as Hin by (apply Hl; by left).
  destruct (master_ok_front s vs entry Hok Hin) as (v & vs0 & <- & Hok0).
  destruct (mount_entry_run age s v vs0 m Hok0 Hin) as (s1 & vs1 & Hrun & Hok1 & [Hm Hc Hoth Hself Ht] & Hpend).
  assert (forall en, en ∈ d_mounts s -> en <> v_ent v -> en ∈ d_mounts s1) as Hstay.
  { intros en Hen Hne. destruct Hm as [->| ->]; [done|]. by apply list_elem_of_filter. }
  destruct (IH s1 vs1 Hok1 Hnd) as (s' & vs' & Hrun' & Hok' & Hsub & Hc' & Ht' & Hkeep & Hpend').
  { intros en Hen. apply Hstay; [apply Hl; by right|]. by intros ->. }
  exists s', vs'. cbn [mounts_loop]. rewrite (bind_some _ _ _ _ _ _ _ Hrun). split_and!; [done|done| |congruence|by etrans|..].
  - rewrite Hsub. destruct Hm as [->| ->]; [done|apply sublist_filter].
  - intros en i Hen Hi Hk. destruct (decide (en = v_ent v)) as [->|Hne].
    + assert (kept_by age i = true) as Hk' by (destruct Hk as [Hk|]; [destruct Hk; by left|done]).
      destruct (Hself i Hi Hk') as [E Hi1]. apply Hkeep; [by rewrite E|done|by left].
    + apply Hkeep; [by apply Hstay|by rewrite Hoth|]. destruct Hk as [Hk|]; [left|by right]. by apply not_elem_of_cons in Hk as [_ ?].
  - intros en i [->|Hen]%elem_of_cons Hi Hlt.
    + specialize (Hpend i Hi Hlt). destruct Ht' as [t ->]. apply elem_of_app. by left.
    + apply (Hpend' en i Hen); [|done]. rewrite Hoth; [done| |apply Hl; by right]. by intros ->.
Qed.

End Mounts.


(** Two entries, the second with two sources: the first is gone from the map. *)
Definition empty_cache : mapent_cache := MC 1 [None] [[]] ∅.

Definition sample_source (age : Z) (ref : Z) (mc : positive) (inst next : ptr) : map_source :=
  MapSource ref 0 (Some (str "file")) None None 0 age 0 (Some mc) false false 1 (argvec [Some (str "/etc/auto.home")]) inst next 0 false.

Definition sample_point (thid : Z) : point := Point (str "/home") (if thid =? 0 then ST_INIT else ST_READY) LKP_INDIRECT 0 0 thid false false 600 60 0.

Definition sample_master : dstate :=
  (DS (<[1 := sample_source 4 1 1 (Some 2) None]> (<[2 := sample_source 4 0 1 None None]>
       (<[3 := sample_source 4 1 2 None (Some 4)]> {[4 := sample_source 5 1 3 None None]})))
    (<[1 := empty_cache]> (<[2 := empty_cache]> {[3 := empty_cache]}))
    (<[1 := MasterEnt (str "/home") 4 (Some 1) (Some 1)]> {[2 := MasterEnt (str "/misc") 5 (Some 3) (Some 2)]})
    (<[1 := sample_point 9]> {[2 := sample_point 8]})
    [1; 2] [] (Some empty_cache) false false [])%positive.

Definition sample_views : list view :=
  [View 1 1 [Block 1 [2] 1]; View 2 2 [Block 3 [] 2; Block 4 [] 3]]%positive.

Lemma wf_empty_cache : wf empty_cache [[]].
Proof.
  constructor; [cbn; lia|done|done|by repeat constructor|constructor|..].
  - intros i c a me Hc Ha. destruct i as [|i]; [|done]. injection Hc as <-. by apply elem_of_nil in Ha.
  - intros l a Hl Ha. apply list_elem_of_singleton in Hl as ->. by apply elem_of_nil in Ha.
Qed.

Lemma sample_live {A} (h : gmap positive A) l :
  bool_decide (dom h = list_to_set l) = true -> forall a, is_Some (h !! a) <-> a ∈ l.
Proof.
  intros H%bool_decide_eq_true a. rewrite <- elem_of_dom, H. apply elem_of_list_to_set.
Qed.

Lemma sample_master_ok : master_ok sample_master sample_views.
Proof.
  constructor.
  - done.
  - repeat constructor.
    + eexists. split; [vm_compute; reflexivity|]. split; [done|]. split.
      * split; [|repeat constructor; eexists; split_and!; try (vm_compute; reflexivity)|repeat constructor; by eexists].
        { split; [done|]. eexists. by split; [vm_compute; reflexivity|]. }
        { split; [done|]. eexists. by split; [vm_compute; reflexivity|]. }
        { repeat constructor. eexists. by split; [vm_compute; reflexivity|]. }
      * constructor. vm_compute. reflexivity.
    + eexists. split; [vm_compute; reflexivity|]. split; [done|]. split.
      * split; [|repeat constructor; eexists; split_and!; try (vm_compute; reflexivity); constructor|repeat constructor; by eexists].
        split; [done|]. eexists. split; [vm_compute; reflexivity|]. split; [done|]. eexists. by split; [vm_compute; reflexivity|].
      * apply Exists_cons. right. constructor. vm_compute. reflexivity.
  - apply (bool_decide_unpack (NoDup _)). vm_compute. exact I.
  - apply (bool_decide_unpack (NoDup _)). vm_compute. exact I.
  - apply (bool_decide_unpack (NoDup _)). vm_compute. exact I.
  - apply (bool_decide_unpack (NoDup _)). vm_compute. exact I.
  - apply sample_live. vm_compute. reflexivity.
  - apply sample_live. vm_compute. reflexivity.
  - apply sample_live. vm_compute. reflexivity.
  - apply sample_live. vm_compute. reflexivity.
  - intros a mc. unfold sample_master. cbn [d_mc]. rewrite !lookup_insert_Some, lookup_singleton_Some.
    intros [[_ <-]|[_ [[_ <-]|[_ [_ <-]]]]]; eauto using wf_empty_cache.
  - exists empty_cache. split; [done|]. exists [[]]. split; [apply wf_empty_cache|]. intros a Ha. by apply elem_of_nil in Ha.
Qed.

