(* ===== verification/MasterSources.v ===== *)
(** * The sources of an entry as a table *)

From S2P Require Import Prelude CString Hash Args Cache CacheInv CacheUpdate StateQueue Lexer MountNfs MntTable ConfigNames ConfigGet Memory Master MasterEntries MasterProps MasterUpdate MasterInv MasterClaims.
Open Scope Z_scope.

(** ** Keys *)

(** A source is known by its type, its format and its arguments. *)
Abbreviation key := (option cstring * option cstring * list (option cstring))%type.

Definition has_args (x : map_source) (args : list (option cstring)) : Prop := s_argc x = length args /\ s_argv x = argvec args.

Definition keyed (h : sources) (b : block) (k : key) : Prop :=
  exists x, h !! b_src b = Some x /\ s_type x = k.1.1 /\ s_format x = k.1.2 /\ has_args x k.2.

(** The table of an entry: the keys and ages of its sources with their addresses. *)
Definition listed (h : sources) (bs : list block) (t : list (key * Z)) : Prop :=
  Forall2 (fun b kt => keyed h b kt.1 /\ s_age <$> h !! b_src b = Some kt.2) bs t.

Lemma same_opt_spec o p : same_opt o p = bool_decide (o = p).
Proof.
  destruct o, p; cbn; try done. unfold streq. apply bool_decide_ext. split; congruence.
Qed.

Lemma compare_source x (k : key) type format : s_type x = k.1.1 -> s_format x = k.1.2 ->
  compare_source_type_and_format x type format = bool_decide (k.1 = (type, format)).
Proof.
  intros H1 H2. unfold compare_source_type_and_format. rewrite H1, H2, !same_opt_spec. destruct k as [[t f] args]. cbn.
  repeat case_bool_decide; naive_solver congruence.
Qed.

(** The position of a key. *)
Definition key_index_of (k : key) (t : list (key * Z)) : option nat := fst <$> list_find (fun kt => kt.1 = k) t.

Lemma find_map_run fuel p bs t type format args s :
  chain (d_src s) p (b_src <$> bs) -> listed (d_src s) bs t -> (length bs <= fuel)%nat ->
  reads (find_map fuel p type format (Some (length args, argvec args))) s
    (i ← key_index_of (type, format, args) t; b ← bs !! i; Some (b_src b)).
Proof.
  induction bs as [|b bs IH] in fuel, p, t |- *; intros Hc Hl Hf m.
  - assert (p = None) as -> by exact Hc. apply Forall2_nil_inv_l in Hl as ->. by destruct fuel.
  - apply Forall2_cons_inv_l in Hl as ([k age] & t' & [(x & Hx & H1 & H2 & H3 & H4) _] & Hl & ->). cbn in H1, H2, H3, H4.
    destruct Hc as [-> (x' & Hx' & Hc)]. assert (x' = x) as -> by congruence.
    destruct fuel as [|fuel]; cbn in Hf; [lia|]. cbn [find_map].
    rewrite (bind_load (HH := src_heap) _ _ _ _ x) by done. rewrite (compare_source x k) by done.
    pose proof (IH fuel (s_next x) t' Hc Hl ltac:(lia) m) as IH'.
    unfold key_index_of. cbn [list_find fst].
    assert (forall (o : option (nat * (key * Z))) , (i ← fst <$> (prod_map S id <$> o); b ← (b :: bs) !! i; Some (b_src b))
      = (i ← fst <$> o; b ← bs !! i; Some (b_src b))) as Eo by (by intros [[i kt]|]).
    case_bool_decide as E; cbn [negb].
    + rewrite H3, H4. unfold compare_argv. assert (k = (type, format, k.2)) as Ek by (by rewrite <- E; destruct k as [[] ]).
      case_bool_decide as El.
      * unfold argvec. rewrite compare_args by done. cbn [from_option_M]. rewrite bind_from_some. case_bool_decide as Ea.
        -- rewrite decide_True by (rewrite Ek; congruence). done.
        -- rewrite decide_False by (intros ->; by cbn in Ea). by rewrite Eo.
      * rewrite bind_from_some. rewrite decide_False by (intros ->; by cbn in El). by rewrite Eo.
    + rewrite decide_False by (intros ->; by cbn in E). by rewrite Eo.
Qed.

(** ** Adding a source *)

Definition source_flags (format : option cstring) : Z :=
  match format with Some f => if streq f (str "amd") then MAP_FLAG_FORMAT_AMD else 0 | None => 0 end.

Definition fresh_source (ref : Z) (k : key) (name : option cstring) (age timeout : Z) (mc : ptr) : map_source :=
  MapSource ref (source_flags k.1.2) k.1.1 k.1.2 name timeout age 0 mc true false (length k.2) (argvec k.2) None None 0 false.

Lemma malloc_ok {B} (k : bool -> MM B) s : (malloc ≫= k) s [] = k true s [].
Proof. done. Qed.

Lemma string_ok {B} (o : option cstring) (k : bool -> MM B) s :
  ((match o with Some _ => malloc | None => mret true end : MM bool) ≫= k) s [] = k true s [].
Proof. by destruct o. Qed.

(** Everything can be allocated. *)
Lemma new_source_run ref (k : key) age name mc timeout s :
  let a := fresh (dom (d_src s)) in
  new_source ref k.1.1 k.1.2 age (length k.2) (argvec k.2) name mc timeout s []
  = Some (Some a, set_src (<[a := fresh_source ref k (name (argvec k.2)) age timeout mc]> (d_src s)) s, []).
Proof.
  intros a. unfold new_source. rewrite malloc_ok. cbn [negb]. rewrite bind_new_obj. fold a.
  rewrite string_ok. cbn [negb]. rewrite string_ok. cbn [negb].
  rewrite (bind_some _ _ _ _ _ _ _ (copy_argvec k.2 _)).
  assert (forall (K : option cstring -> MM ptr) s,
    (match name (argvec k.2) with Some n => ok ← malloc; mret (if (ok : bool) then Some n else None) | None => mret None end ≫= K) s []
    = K (name (argvec k.2)) s []) as E by (by intros K s'; destruct (name (argvec k.2))).
  rewrite E. rewrite (bind_update (HH := src_heap) _ _ _ _ (MapSource ref 0 None None None 0 0 0 None false false 0 [] None None 0 false))
    by apply lookup_insert_eq. cbn. by rewrite insert_insert_eq.
Qed.

(** A source without instances that only its creator holds. *)
Lemma free_new_run s a x m :
  d_src s !! a = None -> s_ref x = 1 -> s_lookup x = false -> s_instance x = None ->
  master_free_map_source a false (set_src (<[a := x]> (d_src s)) s) m = Some ((), s, m).
Proof.
  intros Ha Hr Hlk Hi. unfold master_free_map_source, src_fuel. rewrite bind_heap_fuel. cbn [free_source].
  rewrite (bind_load (HH := src_heap) _ _ _ _ x) by apply lookup_insert_eq. rewrite Hr. cbn [Z.eqb negb].
  rewrite (bind_update (HH := src_heap) _ _ _ _ x) by apply lookup_insert_eq. change (u32 (1 - 1)) with 0. cbn [Z.eqb negb andb].
  assert (forall (k : unit -> MM unit) s, ((match s_mc x with Some _ => mret () | None => mret () end : MM unit) ≫= k) s m = k () s m) as E
    by (by intros k s'; destruct (s_mc x)).
  rewrite E, Hlk, bind_ret_l, Hi.
  destruct (size _) as [|n]; cbn; unfold mbind, M_bind, free_obj; cbn; rewrite insert_insert_eq, lookup_insert_eq; cbn;
    rewrite delete_insert_id by done; by destruct s.
Qed.

Lemma last_source_run fuel a l x m s :
  chain (d_src s) (Some a) (l ++ [x]) -> (length l < fuel)%nat -> last_source fuel a s m = Some (x, s, m).
Proof.
  induction l as [|b l IH] in fuel, a |- *; intros Hc Hf; destruct fuel as [|fuel]; cbn in Hf; try lia.
  - destruct Hc as [[= ->] (y & Hy & Hn)]. cbn [last_source]. rewrite (bind_load (HH := src_heap) _ _ _ _ y) by done.
    assert (s_next y = None) as -> by exact Hn. done.
  - destruct Hc as [[= ->] (y & Hy & Hn)]. cbn [last_source]. rewrite (bind_load (HH := src_heap) _ _ _ _ y) by done.
    assert (exists n, s_next y = Some n) as [n En].
    { destruct l as [|c l]; destruct Hn as [E _]; eauto. }
    rewrite En. apply IH; [|lia]. change (link y) with (s_next y) in Hn. by rewrite En in Hn.
Qed.

(** The table with a key at its end, or with a new age. *)
Definition add_key (k : key) (age : Z) (t : list (key * Z)) : list (key * Z) :=
  match key_index_of k t with
  | Some i => alter (fun kt => (kt.1, age)) i t
  | None => t ++ [(k, age)]
  end.

Lemma listed_ext h h' bs t :
  (forall b, b ∈ bs -> unlinked <$> h !! b_src b = unlinked <$> h' !! b_src b) -> listed h bs t -> listed h' bs t.
Proof.
  intros H Hl. induction Hl as [|b kt bs t [(x & Hx & Hk) Ha] Hl IH]; constructor.
  - specialize (H b ltac:(by left)). rewrite Hx in H, Ha. destruct (h' !! b_src b) as [x'|] eqn:E; [|done].
    apply (inj Some) in H. destruct x, x'. unfold keyed, has_args in *. cbn in *. simplify_eq. rewrite E. split; [by eexists|done].
  - apply IH. intros b' Hb'. apply H. by right.
Qed.

(** One source with a new age. *)
Lemma listed_age h bs t i b x age :
  NoDup (b_src <$> bs) -> bs !! i = Some b -> h !! b_src b = Some x -> listed h bs t ->
  listed (<[b_src b := set_s_age age x]> h) bs (alter (fun kt => (kt.1, age)) i t).
Proof.
  intros Hnd Hi Hx Hl. apply Forall2_same_length_lookup in Hl as [Hlen Hl].
  apply Forall2_same_length_lookup. rewrite length_alter. split; [done|]. intros j b' kt Hj Hkt.
  rewrite list_lookup_alter in Hkt. case_decide as E.
  - subst j. assert (b' = b) as -> by congruence. destruct (t !! i) as [kt0|] eqn:Et; [|done]. injection Hkt as <-.
    destruct (Hl i b kt0 Hi Et) as [(x' & Hx' & Hk1 & Hk2 & Hk3) _]. assert (x' = x) as -> by congruence.
    unfold keyed. rewrite lookup_insert_eq. split; [|done]. by exists (set_s_age age x).
  - unfold keyed. rewrite lookup_insert_ne; [by apply (Hl j)|]. intros Eb. apply E.
    apply (NoDup_lookup (b_src <$> bs) i j (b_src b)); [done|..]; rewrite list_lookup_fmap; [by rewrite Hi|by rewrite Hj, Eb].
Qed.

(** ** The contract *)

(** Where the new source goes. *)
Record added (size : Z) (entry : positive) (e : master_mapent) (k : key) (age : Z) (bs : list block) (t : list (key * Z))
    (s s' : dstate) (a : positive) (bs' : list block) : Prop := {
  ad_table : listed (d_src s') bs' (add_key k age t);
  ad_entry : exists p', d_ent s' = <[entry := set_e_maps p' e]> (d_ent s) /\ sources_ok (d_src s') (d_mc s') p' bs';
  ad_distinct : NoDup (objects bs');
  ad_source : exists x, d_src s' !! a = Some x /\ a ∈ b_src <$> bs' /\ s_age x = age;
  ad_frame : forall b, b ∉ b_src <$> bs' -> d_src s' !! b = d_src s !! b;
  ad_blocks : match key_index_of k t with
              | Some i => bs' = bs /\ d_mc s' = d_mc s
              | None => exists c, bs' = bs ++ [Block a [] c] /\ d_mc s !! c = None /\
                  d_mc s' = <[c := MC size (replicate (Z.to_nat size) None) (replicate (Z.to_nat size) []) ∅]> (d_mc s)
              end
}.

(** A source that is there already. *)
Definition refreshed (age : Z) (a : positive) (x : map_source) (s : dstate) : dstate :=
  set_src (<[a := set_s_age age x]> (d_src s)) s.

Lemma sources_ok_refreshed age h c p bs a x :
  h !! a = Some x -> sources_ok h c p bs -> sources_ok (<[a := set_s_age age x]> h) c p bs.
Proof.
  intros Hx [H1 H2 H3]. split; [by apply lseg_update with x| |done]. rewrite Forall_forall in H2 |- *. intros b Hb.
  apply (source_ok_ext h); [|by apply H2]. intros a' _. destruct (decide (a = a')) as [<-|]; [|by rewrite lookup_insert_ne].
  by rewrite lookup_insert_eq, Hx.
Qed.

Lemma refreshed_added size entry e k age bs t s i b x :
  d_ent s !! entry = Some e -> sources_ok (d_src s) (d_mc s) (ent_maps e) bs -> NoDup (objects bs) -> listed (d_src s) bs t ->
  key_index_of k t = Some i -> bs !! i = Some b -> d_src s !! b_src b = Some x ->
  added size entry e k age bs t s (refreshed age (b_src b) x s) (b_src b) bs.
Proof.
  intros He Hok Hnd Hl Hf Hi Hx. constructor; unfold refreshed; cbn.
  - unfold add_key. rewrite Hf. by apply listed_age; [apply srcs_NoDup|..].
  - exists (ent_maps e). split; [|by apply sources_ok_refreshed]. rewrite insert_id; [done|]. rewrite He. by destruct e.
  - done.
  - eexists. split; [apply lookup_insert_eq|]. split; [|done]. apply list_elem_of_fmap_2. by eapply list_elem_of_lookup_2.
  - intros b' Hb'. apply lookup_insert_ne. intros <-. apply Hb'. apply list_elem_of_fmap_2. by eapply list_elem_of_lookup_2.
  - by rewrite Hf.
Qed.

Lemma sources_live h c p bs a : sources_ok h c p bs -> a ∈ objects bs -> is_Some (h !! a).
Proof.
  intros [_ H _] (b & Ha & Hb)%list_elem_of_bind. rewrite Forall_forall in H. destruct (H b Hb) as (x & Hx & _ & _ & Hc & Hl).
  apply elem_of_cons in Ha as [->|Ha]; [eauto|]. by eapply lseg_live.
Qed.

(** A source that is new: it is linked behind the last one. *)
Definition with_source (a c : positive) (n : map_source) (mc : mapent_cache) (s : dstate) : dstate :=
  set_src (<[a := n]> (d_src s)) (set_caches (<[c := mc]> (d_mc s)) s).

Lemma appended_added size entry e k age bs t s a c name m :
  d_ent s !! entry = Some e -> sources_ok (d_src s) (d_mc s) (ent_maps e) bs -> NoDup (objects bs) -> listed (d_src s) bs t ->
  key_index_of k t = None -> d_src s !! a = None -> d_mc s !! c = None ->
  exists s', unlink entry (last (b_src <$> bs)) (Some a)
      (with_source a c (fresh_source 1 k name age 0 (Some c)) (MC size (replicate (Z.to_nat size) None) (replicate (Z.to_nat size) []) ∅) s) m
    = Some ((), s', m) /\ added size entry e k age bs t s s' a (bs ++ [Block a [] c]).
Proof.
  intros He Hok Hnd Hl Hf Ha Hc. set (n := fresh_source _ _ _ _ _ _). set (mc := MC _ _ _ _).
  assert (forall a', a' ∈ objects bs -> a' <> a) as Hne.
  { intros a' Ha' ->. destruct (sources_live _ _ _ _ _ Hok Ha'). congruence. }
  assert (NoDup (objects (bs ++ [Block a [] c]))) as Hnd'.
  { rewrite objects_app. apply NoDup_app. split_and!; [done| |by apply NoDup_singleton].
    intros a' Ha' ->%list_elem_of_singleton. by apply (Hne a). }
  destruct (unlink_run entry e bs (Block a [] c) None (Some a) (with_source a c n mc s) m) as (e1 & s2 & Hrun & U & _ & Hrest).
  { done. }
  { done. }
  { cbn. apply lseg_insert; [|apply Hok]. intros Hin%objects_srcs. by apply (Hne a). }
  exists s2. split; [done|]. destruct U as [(q & -> & Hent & Hseg) Hsame _ Hkept Hoth].
  assert (a ∉ b_src <$> bs) as Hna by (intros Hin%objects_srcs; by apply (Hne a)).
  assert (d_src s2 !! a = Some n) as Hn by (rewrite Hrest by done; apply lookup_insert_eq).
  assert (d_mc s2 = <[c := mc]> (d_mc s)) as Emc by (by rewrite Hoth).
  assert (forall b, b ∈ bs -> unlinked <$> d_src s2 !! b_src b = unlinked <$> d_src s !! b_src b) as Hbs.
  { intros b Hb. rewrite Hkept by done. cbn. rewrite lookup_insert_ne; [done|]. apply not_eq_sym, Hne. by apply objects_src. }
  constructor.
  - unfold add_key. rewrite Hf. apply Forall2_app.
    + revert Hl. apply listed_ext. intros b Hb. symmetry. by apply Hbs.
    + repeat constructor; cbn; [|by rewrite Hn]. by exists n.
  - exists q. split; [done|]. destruct Hok as [Hch Hbl Hlv]. rewrite Emc. split.
    + rewrite fmap_app. apply lseg_app. exists (Some a). split; [done|]. split; [done|]. by exists n.
    + apply Forall_app. split; [|repeat constructor; exists n; by split_and!; [..|constructor]].
      rewrite Forall_forall in Hbl |- *. intros b Hb. apply (source_ok_body (d_src s)); [| |by apply Hbl].
      * apply unlinked_body. by rewrite !option_fmap_compose, Hbs.
      * intros a' Ha'. f_equal. symmetry. rewrite Hrest; [cbn; apply lookup_insert_ne, not_eq_sym, Hne|].
        { apply list_elem_of_bind. exists b. split; [by right|done]. }
        intros (b' & -> & Hb')%list_elem_of_fmap. assert (b = b') as <-.
        { apply (elem_objects_ne bs b b' (b_src b')); try done; [by right|by left]. }
        pose proof (block_NoDup bs b Hnd Hb) as [? _]%NoDup_cons. done.
    + apply Forall_app. split; [|repeat constructor; cbn; rewrite lookup_insert_eq; eauto].
      rewrite Forall_forall in Hlv |- *. intros b Hb. rewrite lookup_insert_ne; [by apply Hlv|]. intros ->. destruct (Hlv b Hb). congruence.
  - done.
  - exists n. split_and!; [done| |done]. rewrite fmap_app. apply elem_of_app. right. by left.
  - intros b. rewrite fmap_app. intros [Hb1 Hb2]%not_elem_of_app. rewrite Hrest by done. cbn. apply lookup_insert_ne.
    intros <-. apply Hb2. by left.
  - rewrite Hf. eauto.
Qed.

Lemma key_index_of_cons (k : key) kt t :
  key_index_of k (kt :: t) = if decide (kt.1 = k) then Some 0%nat else S <$> key_index_of k t.
Proof.
  unfold key_index_of. cbn [list_find]. destruct (decide (kt.1 = k)); [done|]. by destruct (list_find _ t) as [[]|].
Qed.

Lemma key_index_of_add k age t : key_index_of k (add_key k age t) = Some (default (length t) (key_index_of k t)).
Proof.
  unfold add_key. induction t as [|kt t IH].
  - unfold key_index_of. cbn. by rewrite decide_True.
  - rewrite key_index_of_cons. destruct (decide (kt.1 = k)) as [E|E].
    + cbn [default alter list_alter]. rewrite key_index_of_cons. by rewrite decide_True.
    + destruct (key_index_of k t) as [i|]; cbn [fmap option_fmap option_map default from_option app length] in IH |- *.
      * change (alter (fun kt => (kt.1, age)) (S i) (kt :: t)) with (kt :: alter (fun kt => (kt.1, age)) i t).
        rewrite key_index_of_cons, decide_False by done. by rewrite IH.
      * rewrite key_index_of_cons, decide_False by done. by rewrite IH.
Qed.

Lemma key_index_of_lookup k t i : key_index_of k t = Some i -> exists age, t !! i = Some (k, age).
Proof.
  unfold key_index_of. destruct (list_find (fun kt => kt.1 = k) t) as [[j [k' age]]|] eqn:E; [|done]. intros [= <-].
  apply list_find_Some in E as (Hj & Ek & _). cbn in Ek. subst. eauto.
Qed.

Lemma source_cache_run size a n s :
  source_cache size a (set_src (<[a := n]> (d_src s)) s) []
  = Some (true, with_source a (fresh (dom (d_mc s))) (set_s_mc (Some (fresh (dom (d_mc s)))) n)
      (MC size (replicate (Z.to_nat size) None) (replicate (Z.to_nat size) []) ∅) s, []).
Proof.
  unfold source_cache.
  change (cache_init None size []) with (Some (Some (MC size (replicate (Z.to_nat size) None) (replicate (Z.to_nat size) []) ∅), @nil bool)).
  cbv beta iota. rewrite bind_new_obj.
  rewrite (bind_update (HH := src_heap) _ _ _ _ n) by apply lookup_insert_eq. cbn. by rewrite insert_insert_eq.
Qed.

Lemma find_map_source_run entry e bs t (k : key) s :
  d_ent s !! entry = Some e -> sources_ok (d_src s) (d_mc s) (ent_maps e) bs -> listed (d_src s) bs t ->
  reads (__master_find_map_source entry k.1.1 k.1.2 (length k.2) (argvec k.2)) s (i ← key_index_of k t; b ← bs !! i; Some (b_src b)).
Proof.
  intros He Hok Hl m. unfold __master_find_map_source. rewrite (bind_load (HH := ent_heap) _ _ _ _ e) by done.
  unfold src_fuel. rewrite bind_heap_fuel. pose proof (chain_length _ _ _ (ok_chain _ _ _ _ Hok)) as Hlen. rewrite length_fmap in Hlen.
  rewrite (find_map_run _ _ bs t k.1.1 k.1.2 k.2 s (ok_chain _ _ _ _ Hok) Hl Hlen). by destruct k as [[] ].
Qed.

(** The source is linked behind the last one. *)
Lemma link_last_run entry p bs a c x mc s s' :
  let s1 := with_source a c x mc s in
  chain (d_src s1) (Some p) (b_src <$> bs) ->
  unlink entry (last (b_src <$> bs)) (Some a) s1 [] = Some ((), s', []) ->
  (last ← last_source (size (d_src s1)) p; update (HH := src_heap) last (set_s_next (Some a));; mret (Some a)) s1 []
  = Some (Some a, s', []).
Proof.
  intros s1 Hc. pose proof (chain_length _ _ _ Hc) as Hlen. destruct (decide (bs = [])) as [->|Hne]; [by apply lseg_nil in Hc|].
  destruct (exists_last Hne) as (bs0 & l & ->). rewrite fmap_app in Hc, Hlen |- *. change (b_src <$> [l]) with [b_src l] in *.
  rewrite length_app in Hlen. cbn [length] in Hlen. rewrite last_snoc. intros Hrun.
  rewrite (bind_some _ _ _ _ _ _ _ (last_source_run (size (d_src s1)) p (b_src <$> bs0) (b_src l) [] s1 Hc ltac:(lia))).
  cbn [unlink] in Hrun. by rewrite (bind_some _ _ _ _ _ _ _ Hrun).
Qed.

Lemma add_map_source_run size entry e ap bs t (k : key) age s :
  d_ent s !! entry = Some e -> ent_ap e = Some ap -> is_Some (d_ap s !! ap) -> sources_ok (d_src s) (d_mc s) (ent_maps e) bs -> NoDup (objects bs) -> listed (d_src s) bs t ->
  exists a s' bs', master_add_map_source size entry k.1.1 k.1.2 age (length k.2) (argvec k.2) s [] = Some (Some a, s', []) /\
    added size entry e k age bs t s s' a bs' /\ (exists b, bs' !! default (length t) (key_index_of k t) = Some b /\ b_src b = a).
Proof.
  intros He Hap [pt Hpt] Hok Hnd Hl. set (a := fresh (dom (d_src s))). set (n := fresh_source 1 k (first_arg (argvec k.2)) age 0 None).
  assert (d_src s !! a = None) as Ha by (apply not_elem_of_dom, is_fresh).
  assert (length bs = length t) as Hlen by (by eapply Forall2_length).
  unfold master_add_map_source. rewrite (bind_some _ _ _ _ _ _ _ (new_source_run 1 k age first_arg None 0 s)). fold a n.
  set (s1 := set_src (<[a := n]> (d_src s)) s). rewrite (bind_load (HH := ent_heap) _ _ _ _ e) by done.
  assert (forall a', a' ∈ objects bs -> d_src s !! a' = d_src s1 !! a') as Hsame.
  { intros a' Ha'. cbn. rewrite lookup_insert_ne; [done|]. intros <-. destruct (sources_live _ _ _ _ _ Hok Ha'). congruence. }
  assert (sources_ok (d_src s1) (d_mc s1) (ent_maps e) bs) as Hok1 by (revert Hok; by apply sources_ok_ext).
  assert (listed (d_src s1) bs t) as Hl1. { revert Hl. apply listed_ext. intros b Hb. by rewrite Hsame by (by apply objects_src). }
  assert (Happ : key_index_of k t = None -> exists s',
    unlink entry (last (b_src <$> bs)) (Some a) (with_source a (fresh (dom (d_mc s))) (set_s_mc (Some (fresh (dom (d_mc s)))) n)
      (MC size (replicate (Z.to_nat size) None) (replicate (Z.to_nat size) []) ∅) s) [] = Some ((), s', []) /\
    added size entry e k age bs t s s' a (bs ++ [Block a [] (fresh (dom (d_mc s)))]) /\
    exists b, (bs ++ [Block a [] (fresh (dom (d_mc s)))]) !! default (length t) (key_index_of k t) = Some b /\ b_src b = a).
  { intros Hf. destruct (appended_added size entry e k age bs t s a (fresh (dom (d_mc s))) (first_arg (argvec k.2)) [])
      as (s' & Hrun & Hadd); try done; [apply not_elem_of_dom, is_fresh|].
    exists s'. split_and!; [done..|]. rewrite Hf. cbn [default from_option]. rewrite lookup_app_r, Hlen, Nat.sub_diag by lia. by eexists. }
  destruct (ent_maps e) as [p|] eqn:Ep.
  - rewrite (bind_load (HH := src_heap) _ _ _ _ n) by apply lookup_insert_eq. change (s_argv n) with (argvec k.2). rewrite <- Ep in Hok1.
    rewrite (reads_bind _ _ _ _ _ (find_map_source_run entry e bs t k s1 He Hok1 Hl1)).
    destruct (key_index_of k t) as [i|] eqn:Ef.
    + destruct (key_index_of_lookup _ _ _ Ef) as [age0 Hi]. destruct (Forall2_lookup_r _ _ _ _ _ Hl Hi) as (b & Hb & (x & Hx & _) & _).
      assert (b ∈ bs) as Hbin by (by eapply list_elem_of_lookup_2). cbn. rewrite Hb. cbn.
      assert (d_src s1 !! b_src b = Some x) as Hx1 by (by rewrite <- Hsame by (by apply objects_src)).
      unfold ap_of. rewrite <- bind_bind, (bind_load (HH := ent_heap) _ _ _ _ e) by done.
      rewrite Hap, bind_from_some, (bind_load (HH := point_heap) _ _ _ _ pt) by done.
      rewrite (bind_update (HH := src_heap) _ _ _ _ x) by done.
      assert (Est : put_heap (HasHeap := src_heap) (<[b_src b := set_s_age age x]> (heap s1)) s1
        = set_src (<[a := n]> (d_src (refreshed age (b_src b) x s))) (refreshed age (b_src b) x s)).
      { unfold refreshed. cbn. rewrite insert_insert_ne; [done|]. intros E. congruence. }
      rewrite Est. rewrite (bind_some _ _ _ _ _ _ _ (free_new_run (refreshed age (b_src b) x s) a n [] ltac:(unfold refreshed; cbn; rewrite lookup_insert_ne; [done|congruence]) eq_refl eq_refl eq_refl)).
      rewrite <- Ep in Hok. exists (b_src b), (refreshed age (b_src b) x s), bs. split_and!; [done|by eapply refreshed_added|]. eauto.
    + cbn. rewrite (bind_some _ _ _ _ _ _ _ (source_cache_run size a n s)). cbn [negb].
      destruct (Happ eq_refl) as (s' & Hrun & Hadd & Hb). exists a, s', (bs ++ [Block a [] (fresh (dom (d_mc s)))]). split_and!; [|done|done].
      unfold src_fuel. rewrite bind_heap_fuel. rewrite Ep in Hok1.
      apply (link_last_run entry p bs a); [|exact Hrun]. apply lseg_insert; [|apply (ok_chain _ _ _ _ Hok)].
      intros Hin%objects_srcs. destruct (sources_live _ _ _ _ _ Hok Hin). congruence.
  - destruct bs as [|b bs]; [|apply sources_ok_cons in Hok as [[=] _]]. apply Forall2_nil_inv_l in Hl as ->.
    rewrite (bind_some _ _ _ _ _ _ _ (source_cache_run size a n s)). cbn [negb].
    destruct (Happ eq_refl) as (s' & Hrun & Hadd & Hb). exists a, s', ([] ++ [Block a [] (fresh (dom (d_mc s)))]). split_and!; [|done|done].
    cbn [unlink last fmap list_fmap] in Hrun. by rewrite (bind_some _ _ _ _ _ _ _ Hrun).
Qed.

(** C5. With memory, [master_add_map_source] treats the sources of an entry as a table whose
    keys are a type, a format and arguments: a key that is there gets the new age and
    keeps its source and cache, another one is added at the end with an empty cache of
    its own; the list stays a list of distinct live sources, the sources of other entries
    are not touched, and [master_find_map_source] then finds the source that was
    returned. *)
Theorem master_add_map_source_table size entry e ap bs t (k : key) age s :
  d_ent s !! entry = Some e -> ent_ap e = Some ap -> is_Some (d_ap s !! ap) -> sources_ok (d_src s) (d_mc s) (ent_maps e) bs -> NoDup (objects bs) -> listed (d_src s) bs t ->
  exists a s' bs', master_add_map_source size entry k.1.1 k.1.2 age (length k.2) (argvec k.2) s [] = Some (Some a, s', []) /\
    added size entry e k age bs t s s' a bs' /\
    reads (master_find_map_source entry k.1.1 k.1.2 (length k.2) (argvec k.2)) s' (Some a).
Proof.
  intros He Hap Hpt Hok Hnd Hl. destruct (add_map_source_run size entry e ap bs t k age s He Hap Hpt Hok Hnd Hl) as (a & s' & bs' & Hrun & Hadd & b & Hb & Eb).
  exists a, s', bs'. split_and!; [done..|]. destruct (ad_entry _ _ _ _ _ _ _ _ _ _ _ Hadd) as (p' & Hent & Hok').
  pose proof (find_map_source_run entry (set_e_maps p' e) bs' (add_key k age t) k s') as Hr.
  rewrite key_index_of_add in Hr. cbn in Hr. rewrite Hb in Hr. cbn in Hr. rewrite Eb in Hr. apply Hr; [|done|apply Hadd].
  rewrite Hent. apply lookup_insert_eq.
Qed.

Lemma master_add_map_source_table_witness :
  let k : key := (Some (str "yp"), None, [Some (str "auto.misc")]) in
  exists a s' bs' t, master_add_map_source 1024 2 (Some (str "yp")) None 6 1 (argvec [Some (str "auto.misc")]) sample_master [] = Some (Some a, s', []) /\
    added 1024 2 (MasterEnt (str "/misc") 5 (Some 3%positive) (Some 2%positive)) k 6 [Block 3 [] 2; Block 4 [] 3] t sample_master s' a bs' /\
    reads (master_find_map_source 2 (Some (str "yp")) None 1 (argvec [Some (str "auto.misc")])) s' (Some a).
Proof.
  intros k. pose (home := (Some (str "file"), @None cstring, [Some (str "/etc/auto.home")])).
  assert (entry_ok sample_master (View 2 2 [Block 3 [] 2; Block 4 [] 3])) as (e & He & _ & Hok & _).
  { pose proof (mo_entries _ _ sample_master_ok) as H. apply Forall_cons in H as [_ H]. by apply Forall_cons in H as [H _]. }
  vm_compute in He. injection He as <-.
  pose proof (master_add_map_source_table 1024 2 _ 2 [Block 3 [] 2; Block 4 [] 3] [(home, 4); (home, 5)] k 6 sample_master eq_refl eq_refl (mk_is_Some _ _ eq_refl) Hok) as H.
  destruct H as (a & s' & bs' & H1 & H2 & H3).
  - apply (bool_decide_unpack (NoDup _)). vm_compute. exact I.
  - apply Forall2_cons. split; [split; [eexists; split; [vm_compute; reflexivity|]; repeat split|vm_compute; reflexivity]|].
    apply Forall2_cons. split; [split; [eexists; split; [vm_compute; reflexivity|]; repeat split|vm_compute; reflexivity]|].
    constructor.
  - exists a, s', bs', [(home, 4); (home, 5)]. split; [exact H1|]. split; [exact H2|exact H3].
Defined.

(** * Entries of the master map: nested mounts, and cases with surprising results *)

(** ** Paths of amd mounts *)

(** [p] is [q] or a directory above it. *)
Definition above (p q : cstring) : Prop := q = p \/ exists rest, q = p ++ "/"%char :: rest.

Definition related (p q : cstring) : Prop := above p q \/ above q p.

#[export] Instance above_dec p q : Decision (above p q).
Proof.
  destruct (decide (q = p)) as [?|Hn]; [by left; left|]. destruct (decide ((p ++ ["/"%char]) `prefix_of` q)) as [H|H].
  - left. right. destruct H as [r ->]. exists r. by rewrite <- app_assoc.
  - right. intros [?|[r ->]]; [done|]. apply H. exists r. by rewrite <- app_assoc.
Defined.

#[export] Instance related_dec p q : Decision (related p q).
Proof. unfold related. apply _. Defined.

(** The comparison of the first characters of the longer path with the shorter one. *)
Lemma longer_above (p q : cstring) :
  (length p < length q)%nat -> above p q <-> take (length p) q = p /\ hd_char (drop (length p) q) = "/"%char.
Proof.
  intros Hl. split.
  - intros [->|[rest ->]]; [lia|]. rewrite take_app_le, take_ge, drop_app_ge, Nat.sub_diag by lia. done.
  - intros [Ht Hh]. right. destruct (drop (length p) q) as [|c rest] eqn:E.
    { apply (f_equal length) in E. rewrite length_drop in E. cbn in E. lia. }
    exists rest. rewrite <- Ht at 1. cbn in Hh. rewrite <- Hh, <- E. by rewrite take_drop.
Qed.

Lemma longer_not_above (p q : cstring) : (length p < length q)%nat -> ~ above q p.
Proof. intros Hl [->|[rest ->]]; [lia|]. rewrite length_app in Hl. cbn in Hl. lia. Qed.

Lemma strneq_shorter (p q : cstring) : (length p <= length q)%nat -> strneq p q (length p) = bool_decide (take (length p) q = p).
Proof. intros Hl. unfold strneq. rewrite take_ge by lia. apply bool_decide_ext. split; congruence. Qed.

(** What an entry means for the path of an amd mount. *)
Lemma amd_conflict_spec (entry path : cstring) amd :
  (amd_conflict entry amd path = None <-> ~ related entry path) /\
  (amd_conflict entry amd path = Some 1 <-> entry = path /\ amd = true) /\
  (amd_conflict entry amd path = None \/ amd_conflict entry amd path = Some 1 \/ amd_conflict entry amd path = Some (-1)).
Proof.
  unfold amd_conflict, related. destruct (decide (length entry = length path)) as [Hl|Hl].
  - replace (Z.to_nat (Z.min (strlen entry) (strlen path))) with (length entry) by (unfold strlen; lia).
    rewrite strneq_shorter by lia. rewrite (take_ge path) by lia.
    replace (strlen entry =? strlen path) with true by (symmetry; apply Z.eqb_eq; unfold strlen; lia).
    assert (above entry path \/ above path entry <-> path = entry) as ->.
    { unfold above. split; [|by left; left]. intros [[?|[r E]]|[?|[r E]]]; try done;
        apply (f_equal length) in E; rewrite length_app in E; cbn in E; lia. }
    case_bool_decide; destruct amd; naive_solver.
  - replace (strlen entry =? strlen path) with false by (symmetry; apply Z.eqb_neq; unfold strlen; lia).
    destruct (decide (length entry < length path)%nat) as [Hs|Hs].
    + replace (Z.to_nat (Z.min (strlen entry) (strlen path))) with (length entry) by (unfold strlen; lia).
      rewrite strneq_shorter by lia.
      replace (strlen path <? strlen entry) with false by (symmetry; apply Z.ltb_ge; unfold strlen; lia).
      replace (strlen entry <? strlen path) with true by (symmetry; apply Z.ltb_lt; unfold strlen; lia).
      rewrite longer_above by done. pose proof (longer_not_above entry path Hs) as Hn. cbn [andb].
      case_bool_decide as Ht; [|naive_solver]. destruct (hd_char _ =a _) eqn:Eh; boolify; naive_solver.
    + assert (length path < length entry)%nat as Hs' by lia.
      replace (Z.to_nat (Z.min (strlen entry) (strlen path))) with (length path) by (unfold strlen; lia).
      assert (strneq entry path (length path) = bool_decide (take (length path) entry = path)) as ->.
      { unfold strneq. rewrite (take_ge path) by lia. done. }
      replace (strlen path <? strlen entry) with true by (symmetry; apply Z.ltb_lt; unfold strlen; lia).
      replace (strlen entry <? strlen path) with false by (symmetry; apply Z.ltb_ge; unfold strlen; lia).
      rewrite (longer_above path entry) by done. pose proof (longer_not_above path entry Hs') as Hn. cbn [andb].
      case_bool_decide as Ht; [|naive_solver]. destruct (hd_char _ =a _) eqn:Eh; boolify; naive_solver.
Qed.

(** The paths of the entries in the list. *)
Definition paths_of (s : dstate) (l : list positive) (ps : list (cstring * bool)) : Prop :=
  Forall2 (fun en pa => exists e, d_ent s !! en = Some e /\ ent_path e = pa.1 /\ reads (is_amd (ent_maps e)) s pa.2) l ps.

Fixpoint first_conflict (ps : list (cstring * bool)) (path : cstring) : Z :=
  match ps with
  | [] => 0
  | (p, amd) :: ps => default (first_conflict ps path) (amd_conflict p amd path)
  end.

Lemma partial_match_run s l ps path : paths_of s l ps -> reads (partial_match l path) s (first_conflict ps path).
Proof.
  induction 1 as [|en [p amd] l ps (e & He & Hp & Ha) Hl IH]; intros m; [done|]. cbn [partial_match first_conflict].
  rewrite (bind_load (HH := ent_heap) _ _ _ _ e) by done. cbn in Hp, Ha. rewrite (reads_bind _ _ _ _ _ Ha). rewrite Hp.
  destruct (amd_conflict p amd path); [done|apply IH].
Qed.

(** [master_partial_match_amd_mapent] finds every entry of the master map that is in the
    way of an amd mount at a path: the result is 0 exactly when no entry has that path, a
    path above it or a path below it (by whole components), and 1 only when an entry that
    can be updated is there, an amd map at the path itself. *)
Theorem partial_match_finds s ps path :
  paths_of s (d_mounts s) ps ->
  exists r, reads (master_partial_match_amd_mapent path) s r /\ (r = 0 \/ r = 1 \/ r = -1) /\
    (r = 0 <-> forall p amd, (p, amd) ∈ ps -> ~ related p path) /\ (r = 1 -> (path, true) ∈ ps).
Proof.
  intros Hp. exists (first_conflict ps path). split.
  { intros m. unfold master_partial_match_amd_mapent. rewrite (reads_bind _ _ _ _ _ (reads_get s)). by apply partial_match_run. }
  clear Hp. induction ps as [|[p amd] ps (IH1 & IH2 & IH3)].
  - cbn. split_and!; [by left| |done]. split; [|done]. intros _ p amd Hin. by apply elem_of_nil in Hin.
  - cbn [first_conflict]. destruct (amd_conflict_spec p path amd) as (H1 & H2 & [E|[E|E]]); rewrite E in *; cbn [default from_option].
    + split_and!; [done| |by intros ?%IH3; right]. rewrite IH2. split.
      * intros H p' amd' [[= -> ->]|Hin]%elem_of_cons; [by apply H1|by apply (H p' amd')].
      * intros H p' amd' Hin. apply (H p' amd'). by right.
    + destruct (proj1 H2 eq_refl) as [-> ->]. split_and!; [by right; left| |intros _; by left]. split; [done|].
      intros H. destruct (H path true); [by left|by left; left].
    + split_and!; [by right; right| |done]. split; [done|]. intros H. destruct (H p amd); [by left|].
      apply dec_stable. intros Hn. by apply H1 in Hn.
Qed.

Lemma partial_match_finds_witness :
  exists r, reads (master_partial_match_amd_mapent (str "/home/x")) sample_master r /\
    (r = 0 <-> forall p amd, (p, amd) ∈ [(str "/home", false); (str "/misc", false)] -> ~ related p (str "/home/x")).
Proof.
  pose proof (partial_match_finds sample_master [(str "/home", false); (str "/misc", false)] (str "/home/x")) as H.
  destruct H as (r & H1 & _ & H2 & _).
  - apply Forall2_cons. split; [eexists; split; [vm_compute; reflexivity|]; split; [reflexivity|intros m; vm_compute; reflexivity]|].
    apply Forall2_cons. split; [eexists; split; [vm_compute; reflexivity|]; split; [reflexivity|intros m; vm_compute; reflexivity]|].
    constructor.
  - exists r. split; [exact H1|exact H2].
Defined.

(** ** Surprising cases *)

(** An entry for an amd mount whose map changes: the old source is freed without its cache,
    and a second source the entry has is not reachable any more. *)
Definition amd_master : dstate :=
  (DS (<[1 := MapSource 1 MAP_FLAG_FORMAT_AMD (Some (str "file")) (Some (str "amd")) (Some (str "old")) 0 4 0 (Some 1) false false 1 (argvec [Some (str "old")]) None (Some 2) 0 false]>
       {[2 := sample_source 4 1 2 None None]})
    (<[1 := empty_cache]> {[2 := empty_cache]})
    {[1 := MasterEnt (str "/home") 4 (Some 1) (Some 1)]} {[1 := sample_point 9]}
    [1] [] (Some empty_cache) false false [])%positive.

Definition amd_settings : settings := Settings 0 0 60 0 600 false 4.
Definition amd_conf (path : cstring) : amd_section := AmdSection (Some (str "new")) (Some (str "file")) 0 None 300.

(** The caches that belong to no source, and the sources that are on no list. *)
Definition orphans (s : dstate) : list positive :=
  filter (fun c => Forall (fun x => s_mc x.2 <> Some c) (map_to_list (d_src s))) (map_to_list (d_mc s)).*1.

(** The cache of a replaced amd source and a second source are leaked. *)
Theorem amd_section_leaks_cache :
  match master_update_amd_mount_section_mount amd_settings amd_conf 0 0 (str "/home") 5 amd_master [] with
  | Some ((), s', _) => orphans amd_master = [] /\ orphans s' = [1%positive] /\
      ent_maps <$> d_ent s' !! 1%positive = Some (Some 3%positive) /\ is_Some (d_src s' !! 2%positive) /\
      s_next <$> d_src s' !! 3%positive = Some None
  | None => False
  end.
Proof. vm_compute. split_and!; try reflexivity. by eexists. Qed.

(** A SIGUSR1 ends the program by the assertion unless every mount point is ready. *)
Theorem usr1_asserts :
  let s := set_points (<[2%positive := set_p_thid 0 (sample_point 0)]> (d_ap sample_master)) sample_master in
  master_notify_state_change true SIGUSR1 s [] = None /\
  exists s', master_notify_state_change true SIGTERM s [] = Some ((), s', []).
Proof. split; [vm_compute; reflexivity|]. eexists. vm_compute. reflexivity. Qed.
