(* ===== verification/MemOk.v ===== *)
(** * Computations that keep the memory they are given

    A computation that starts when every allocation succeeds leaves the allocator so. *)

From S2P Require Import Prelude CString Hash CatPath Cache Trees Offsets.
Open Scope Z_scope.

Definition mem_ok {S A} (c : M S A) : Prop := forall s x s' m, c s [] = Some (x, s', m) -> m = [].

Section Basic.
Context {S : Type}.

Lemma mem_ret {A} (x : A) : mem_ok (S := S) (mret x).
Proof. by intros s y s' m [= _ _ <-]. Qed.

Lemma mem_bind {A B} (c : M S A) (f : A -> M S B) : mem_ok c -> (forall x, mem_ok (f x)) -> mem_ok (c ≫= f).
Proof.
  intros Hc Hf s y s' m. unfold mbind, M_bind. destruct (c s []) as [[[x s1] m1]|] eqn:E; [|done].
  apply Hc in E as ->. apply Hf.
Qed.

Lemma mem_malloc : mem_ok (S := S) malloc.
Proof. by intros s y s' m [= _ _ <-]. Qed.

Lemma mem_get : mem_ok (S := S) get_state.
Proof. by intros s y s' m [= _ _ <-]. Qed.

Lemma mem_modify f : mem_ok (S := S) (modify f).
Proof. by intros s y s' m [= _ _ <-]. Qed.

Lemma mem_stuck {A} : mem_ok (S := S) (A := A) stuck.
Proof. by intros s y s' m. Qed.

Lemma mem_from_option {A} (o : option A) : mem_ok (S := S) (from_option_M o).
Proof. destruct o; intros s y s' m; [|done]. by intros [= _ _ <-]. Qed.
End Basic.

Create HintDb mem.
#[export] Hint Resolve mem_ret mem_malloc mem_get mem_modify mem_stuck mem_from_option : mem.

(** One step: a bind, a case or a known computation. *)
Ltac mem :=
  repeat (first
    [ done
    | solve [eauto with mem]
    | apply mem_bind; [|intros ?]
    | match goal with
      | |- mem_ok (match ?x with _ => _ end) => destruct x
      end ]).

Lemma mem_deref p : mem_ok (deref p).
Proof. intros s y s' m. unfold deref. destruct (mc_heap s !! p); [|done]. by intros [= _ _ <-]. Qed.

Lemma mem_store p f : mem_ok (store p f).
Proof. intros s y s' m. unfold store. destruct (mc_heap s !! p); [|done]. by intros [= _ <-]. Qed.

Lemma mem_bucket i : mem_ok (bucket i).
Proof. intros s y s' m. unfold bucket. destruct (mc_hash s !! _); [|done]. by intros [= _ _ <-]. Qed.

Lemma mem_new_entry e : mem_ok (new_entry e).
Proof. by intros s y s' m [= _ _ <-]. Qed.

Lemma mem_fuel : mem_ok chain_fuel.
Proof. by intros s y s' m [= _ _ <-]. Qed.

#[export] Hint Resolve mem_deref mem_store mem_bucket mem_new_entry mem_fuel : mem.

Lemma mem_find_chain fuel test : forall p, mem_ok (find_chain fuel test p).
Proof. induction fuel; intros [a|]; cbn [find_chain]; mem. Qed.

#[export] Hint Resolve mem_find_chain : mem.

Lemma mem_find_buckets n test : forall i, mem_ok (find_buckets n i test).
Proof. induction n; intros i; cbn [find_buckets]; mem. Qed.

Lemma mem_find_key key : mem_ok (find_key key).
Proof. unfold find_key. mem. Qed.

#[export] Hint Resolve mem_find_buckets mem_find_key : mem.

Lemma mem_lookup_distinct key : mem_ok (cache_lookup_distinct key).
Proof. unfold cache_lookup_distinct. mem. Qed.

Lemma mem_lookup key : mem_ok (cache_lookup key).
Proof. unfold cache_lookup, cache_lookup_first. mem. Qed.

Lemma mem_key_next_loop fuel mm key : forall p, mem_ok (key_next_loop fuel mm key p).
Proof. induction fuel; intros [a|]; cbn [key_next_loop]; mem. Qed.

#[export] Hint Resolve mem_lookup_distinct mem_lookup mem_key_next_loop : mem.

Lemma mem_lookup_key_next p : mem_ok (cache_lookup_key_next p).
Proof. unfold cache_lookup_key_next. mem. Qed.

#[export] Hint Resolve mem_lookup_key_next : mem.

Lemma mem_last_of_key fuel : forall a, mem_ok (last_of_key fuel a).
Proof. induction fuel; intros a; cbn [last_of_key]; mem. Qed.

Lemma mem_find_source fuel ms : forall p, mem_ok (find_source fuel ms p).
Proof. induction fuel; intros [a|]; cbn [find_source]; mem. Qed.

#[export] Hint Resolve mem_last_of_key mem_find_source : mem.

Lemma mem_cache_add ms key ent age : mem_ok (cache_add ms key ent age).
Proof. unfold cache_add, cache_link, set_bucket. mem. Qed.

#[export] Hint Resolve mem_cache_add : mem.

Lemma mem_cache_update ms key ent age : mem_ok (cache_update ms key ent age).
Proof. unfold cache_update. mem. Qed.

#[export] Hint Resolve mem_cache_update : mem.

Lemma mem_cache_update_offset mkey key ent age : mem_ok (cache_update_offset mkey key ent age).
Proof. unfold cache_update_offset. mem. Qed.

#[export] Hint Resolve mem_cache_update_offset : mem.

Lemma mem_place back : forall behind a len, mem_ok (place back behind a len).
Proof. induction back; intros behind b len; cbn [place]; mem. Qed.

#[export] Hint Resolve mem_place : mem.

Lemma mem_update_offset_entry type offsets name m_root m_offset myoptions loc age :
  mem_ok (update_offset_entry type offsets name m_root m_offset myoptions loc age).
Proof. unfold update_offset_entry. cbv zeta. mem. Qed.

#[export] Hint Resolve mem_update_offset_entry : mem.
