(* ===== verification/SunExpand.v ===== *)
(** * Expansion of Sun map entries (modules/parse_sun.c) *)

From S2P Require Import Prelude CString Lexer LexerProps Macros AmdExpand.
Open Scope Z_scope.

Definition isalnum (c : ascii) : bool := isalpha c || isdigit c.

(** The length of the key with its escapes as it is counted, and the text written. *)
Fixpoint key_extra (keyp : cstring) : Z :=
  match keyp with
  | [] => 0
  | c :: keyp => if isspace c then 1 + key_extra keyp else key_extra keyp
  end.

Fixpoint key_text (keyp : cstring) : cstring :=
  match keyp with
  | [] => []
  | c :: keyp => if isspace c then BACKSLASH :: c :: key_text keyp else c :: key_text keyp
  end.

(** The characters of a name. *)
Fixpoint name_span (p : cstring) : nat :=
  match p with
  | c :: p => if isalnum c || (c =a "_") then S (name_span p) else O
  | [] => O
  end.

(** [n] is counted for the text [s]. *)
Definition put (dst : bool) (n : Z) (s : cstring) (r : Z * cstring) : Z * cstring :=
  (n + fst r, if dst then s ++ snd r else snd r).

(** The inner loop over a quoted part: what it copies, and the rest from the quote on. *)
Definition quoted_part (src : cstring) : cstring := before src QUOTE.

Section Expand.
Context (getenv : option (cstring -> option cstring)) (svc : table) (key : cstring) (slashify_colons : bool).

(** Each round consumes a character, so the length of the entry bounds the rounds. *)
Fixpoint sun_loop (fuel : nat) (dst seen_colons : bool) (src : cstring) : TM (Z * cstring) :=
  match src with
  | [] => mret (0, [])
  | ch :: src =>
      match fuel with
      | O => stuck
      | S fuel =>
          let cont (n : Z) (s : cstring) (seen : bool) (rest : cstring) : TM (Z * cstring) :=
            r ← sun_loop fuel dst seen rest; mret (put dst n s r) in
          let subst (sv : option substvar) (rest : cstring) : TM (Z * cstring) :=
            match sv with
            | Some sv => cont (strlen (sv_val sv)) (sv_val sv) seen_colons rest
            | None => cont 0 [] seen_colons rest
            end in
          if ch =a "&" then cont (strlen key + key_extra key) (key_text key) seen_colons src
          else if ch =a "$" then
            if hd_char src =a "{" then
              let src := tail src in
              match after_first src "}"%char with
              | None => mret (0, [])
              | Some rest => sv ← macro_findvar getenv svc src (length (before src "}"%char)); subst sv rest
              end
            else if isblank (hd_char src) || bool_decide (src = []) then cont 1 [ch] seen_colons src
            else
              let len := name_span src in
              sv ← macro_findvar getenv svc src len; subst sv (drop len src)
          else if ch =a BACKSLASH then
            match src with
            | c :: rest => cont 2 [ch; c] seen_colons rest
            | [] => cont 1 [ch] seen_colons []
            end
          else if ch =a QUOTE then
            let inner := quoted_part src in
            match drop (length inner) src with
            | c :: rest => cont (1 + strlen inner + 1) (ch :: inner ++ [c]) seen_colons rest
            | [] => cont (1 + strlen inner) (ch :: inner) seen_colons []
            end
          else if ch =a ":" then
            cont 1 [if seen_colons && slashify_colons then "/"%char else ":"%char]
              (if hd_char src =a "/" then true else seen_colons) src
          else cont 1 [ch] (if isspace ch then false else seen_colons) src
      end
  end.

Definition expandsunent (dst : bool) (src : cstring) : TM (Z * cstring) := sun_loop (length src) dst false src.

(** Writing more than was counted leaves the model. *)
Definition do_expandsunent (src : cstring) : TM (option cstring) :=
  r ← expandsunent false src;
  if fst r =? 0 then mret None
  else
    ok ← malloc;
    if negb ok then mret None
    else
      r' ← expandsunent true src;
      if fst r <? strlen (snd r') then stuck else mret (Some (snd r')).

End Expand.

(** ** The two passes agree *)

Lemma key_text_length key : strlen (key_text key) = strlen key + key_extra key.
Proof.
  unfold strlen. induction key as [|c key IH]; [done|]. cbn [key_text key_extra]. destruct (isspace c); cbn [length]; lia.
Qed.

Lemma name_span_le s : (name_span s <= length s)%nat.
Proof. induction s as [|c s IH]; [done|]. cbn [name_span]. destruct (_ || _); cbn [length]; lia. Qed.

Lemma findvar_reads svc s len sys : exists o, reads (macro_findvar None svc s len) sys o.
Proof.
  unfold macro_findvar. destruct (sv_find s len svc) as [sv|] eqn:E1; [exists (Some sv)|].
  - intros m. by rewrite (reads_bind _ _ _ _ _ (reads_get sys)).
  - destruct (sv_find s len sys) as [sv|] eqn:E2; [exists (Some sv)|exists None]; intros m;
      rewrite (reads_bind _ _ _ _ _ (reads_get sys)); by rewrite E2.
Qed.

Section Passes.
Context (svc : table) (key : cstring) (slash : bool) (sys : table).

Abbreviation agree := (fun (c : bool -> TM (Z * cstring)) => exists out, forall dst : bool, reads (c dst) sys (strlen out, if dst then out else [])).

Lemma put_agree fuel n s seen rest :
  n = strlen s -> agree (fun dst => sun_loop None svc key slash fuel dst seen rest) ->
  agree (fun dst => r ← sun_loop None svc key slash fuel dst seen rest; mret (put dst n s r)).
Proof.
  intros -> (out & Hout). exists (s ++ out). intros dst m. rewrite (reads_bind _ _ _ _ _ (Hout dst)).
  unfold put. cbn [fst snd]. rewrite strlen_app. by destruct dst.
Qed.

Lemma find_agree s len (k : bool -> option substvar -> TM (Z * cstring)) :
  (forall o, agree (fun dst => k dst o)) -> agree (fun dst => sv ← macro_findvar None svc s len; k dst sv).
Proof.
  intros H. destruct (findvar_reads svc s len sys) as [o Ho]. destruct (H o) as (out & Hout). exists out.
  intros dst m. rewrite (reads_bind _ _ _ _ _ Ho). apply Hout.
Qed.

Lemma sun_loop_agree fuel : forall seen src,
  (length src <= fuel)%nat -> agree (fun dst => sun_loop None svc key slash fuel dst seen src).
Proof.
  induction fuel as [|fuel IH]; intros seen src Hf.
  { destruct src; [|cbn in Hf; lia]. exists []. by intros [] m. }
  destruct src as [|ch src]; [exists []; by intros [] m|]. cbn [length] in Hf.
  assert (forall n s q rest, n = strlen s -> (length rest <= fuel)%nat ->
    agree (fun dst => r ← sun_loop None svc key slash fuel dst q rest; mret (put dst n s r))) as Hcont.
  { intros n s q rest Hn Hl. apply put_agree; [done|]. by apply IH. }
  assert (forall (o : option substvar) rest, (length rest <= fuel)%nat -> agree (fun dst =>
    match o with
    | Some sv => r ← sun_loop None svc key slash fuel dst seen rest; mret (put dst (strlen (sv_val sv)) (sv_val sv) r)
    | None => r ← sun_loop None svc key slash fuel dst seen rest; mret (put dst 0 [] r)
    end)) as Hsub by (intros [sv|] rest Hl; by apply Hcont).
  cbn [sun_loop]. destruct (ch =a "&"); [apply Hcont; [by rewrite key_text_length|lia]|].
  destruct (ch =a "$").
  { destruct (hd_char src =a "{").
    - destruct (after_first (tail src) "}"%char) as [rest|] eqn:Ea; [|exists []; by intros [] m].
      apply find_agree. intros o. apply Hsub. unfold after_first in Ea.
      destruct (strchr (tail src) "}"%char) as [[|x t]|] eqn:E; try done. injection Ea as ->.
      apply strchr_Some in E as (p & E & _). apply (f_equal length) in E. rewrite length_app in E. cbn in E.
      destruct src; cbn in *; lia.
    - destruct (_ || _); [apply Hcont; [done|lia]|]. apply find_agree. intros o. apply Hsub. rewrite length_drop. lia. }
  destruct (ch =a BACKSLASH).
  { destruct src as [|c rest]; apply Hcont; cbn in *; by try lia. }
  destruct (ch =a QUOTE).
  { destruct (drop _ src) as [|c rest] eqn:Ed; apply Hcont; unfold strlen; cbn [length]; rewrite ?length_app; cbn [length]; try lia.
    apply (f_equal length) in Ed. rewrite length_drop in Ed. cbn in Ed. lia. }
  destruct (ch =a ":"); apply Hcont; by try lia.
Qed.
End Passes.

(** C34. The pass of [expandsunent] that counts and the pass that writes agree for every map
    entry, key and table of variables: the writing pass produces exactly as many
    characters as were counted, so that [do_expandsunent] does not write outside of its
    buffer and returns the expansion, and fails only without memory or when the expansion
    is empty. *)
Theorem do_expandsunent_fits svc key slash src sys m :
  exists out, reads (expandsunent None svc key slash false src) sys (strlen out, []) /\
    reads (expandsunent None svc key slash true src) sys (strlen out, out) /\
    exists r m', do_expandsunent None svc key slash src sys m = Some (r, sys, m') /\
      (r = None \/ r = Some out) /\ (m = [] -> r = None <-> out = []).
Proof.
  destruct (sun_loop_agree svc key slash sys (length src) false src) as (out & Hout); [done|]. exists out.
  split; [apply (Hout false)|]. split; [apply (Hout true)|]. unfold do_expandsunent.
  rewrite (reads_bind _ _ _ _ _ (Hout false)). cbn [fst]. destruct (strlen out =? 0) eqn:E.
  - exists None, m. split_and!; [done|by left|]. intros _. split; [|done]. boolify. unfold strlen in E. by destruct out.
  - destruct (bind_malloc (fun ok : bool => if negb ok then mret None
      else r' ← expandsunent None svc key slash true src;
        if strlen out <? strlen (snd r') then stuck else mret (Some (snd r'))) sys m) as (b & m' & Hb & Hnil).
    rewrite Hb. destruct b; cbn [negb].
    + rewrite (reads_bind _ _ _ _ _ (Hout true)). cbn [snd]. rewrite Z.ltb_irrefl. do 2 eexists. split; [done|].
      split; [by right|]. intros _. split; [done|]. intros ->. done.
    + exists None, m'. split_and!; [done|by left|]. intros [? _]%Hnil. done.
Qed.

(** ** The key in a location *)

(** Characters without a meaning for the lexical functions, and those that also stand for
    themselves in an expansion. *)
Definition solid (c : ascii) : Prop := c ∉ ["\"; "034"; ":"]%char /\ is_ws c = false.
Definition literal (c : ascii) : Prop := solid c /\ c <> "&"%char /\ c <> "$"%char.

#[export] Instance solid_dec c : Decision (solid c).
Proof. unfold solid. apply _. Defined.
#[export] Instance literal_dec c : Decision (literal c).
Proof. unfold literal. apply _. Defined.

Lemma solid_tests c : solid c -> (c =a BACKSLASH) = false /\ (c =a QUOTE) = false /\ (c =a ":") = false /\ isspace c = false.
Proof.
  intros [H Hw]. rewrite !bool_decide_eq_false. unfold BACKSLASH, QUOTE. split_and!; [set_solver..|].
  unfold is_ws, isspace in *. case_bool_decide; boolify; lia.
Qed.

Lemma solids s : Forall literal s -> Forall solid s.
Proof. intros H. eapply Forall_impl; [exact H|]. by intros c []. Qed.

Section Key.
Context (svc : table) (key : cstring) (slash : bool) (sys : table).

Definition expands (seen : bool) (src out : cstring) : Prop :=
  forall fuel (dst : bool), (length src <= fuel)%nat ->
    reads (sun_loop None svc key slash fuel dst seen src) sys (strlen out, if dst then out else []).


Lemma expands_nil seen : expands seen [] [].
Proof. by intros [|fuel] [] _ m. Qed.

Lemma expands_literal seen c src out : literal c -> expands seen src out -> expands seen (c :: src) (c :: out).
Proof.
  intros Hl H fuel dst Hf m. destruct fuel as [|fuel]; cbn in Hf; [lia|]. cbn [sun_loop].
  destruct Hl as (Hl & H1 & H2). rewrite (bool_decide_false (c = "&"%char)), (bool_decide_false (c = "$"%char)) by done.
  pose proof (solid_tests c Hl) as (-> & -> & -> & ->).
  rewrite (reads_bind _ _ _ _ _ (H fuel dst ltac:(lia))). unfold put, strlen. cbn [fst snd length].
  replace (Z.of_nat (S (length out))) with (1 + Z.of_nat (length out)) by lia. by destruct dst.
Qed.

Lemma expands_amp seen src out : expands seen src out -> expands seen ("&"%char :: src) (key_text key ++ out).
Proof.
  intros H fuel dst Hf m. destruct fuel as [|fuel]; cbn in Hf; [lia|]. cbn [sun_loop].
  rewrite bool_decide_true by done. rewrite (reads_bind _ _ _ _ _ (H fuel dst ltac:(lia))). unfold put. cbn [fst snd].
  rewrite strlen_app, key_text_length. by destruct dst.
Qed.

Lemma expands_literals seen s src out : Forall literal s -> expands seen src out -> expands seen (s ++ src) (s ++ out).
Proof. induction 1; cbn; [done|]. intros. apply expands_literal; auto. Qed.
End Key.

Lemma expands_colon svc key slash sys src out :
  hd_char src = "/"%char -> expands svc key slash sys true src out ->
  expands svc key slash sys false (":"%char :: src) (":"%char :: out).
Proof.
  intros Hs H fuel dst Hf m. destruct fuel as [|fuel]; cbn in Hf; [lia|]. cbn [sun_loop].
  rewrite Hs. rewrite (bool_decide_true ("/"%char = "/"%char)) by done. rewrite (bool_decide_true (":"%char = ":"%char)) by done.
  rewrite !bool_decide_false by done. rewrite (reads_bind _ _ _ _ _ (H fuel dst ltac:(lia))). unfold put, strlen. cbn [fst snd length andb].
  replace (Z.of_nat (S (length out))) with (1 + Z.of_nat (length out)) by lia. by destruct dst.
Qed.

(** The two passes over a text with a known expansion. *)
Lemma do_expandsunent_run svc key slash sys src out :
  expands svc key slash sys false src out -> out <> [] ->
  do_expandsunent None svc key slash src sys [] = Some (Some out, sys, []).
Proof.
  intros He Hne. unfold do_expandsunent, expandsunent. rewrite (reads_bind _ _ _ _ _ (He (length src) false ltac:(lia))). cbn [fst].
  destruct (strlen out =? 0) eqn:E; [boolify; unfold strlen in E; destruct out; [done|cbn in E; lia]|].
  rewrite (bind_some malloc _ sys [] true sys []) by done. cbn [negb].
  rewrite (reads_bind _ _ _ _ _ (He (length src) true ltac:(lia))). cbn [snd]. by rewrite Z.ltb_irrefl.
Qed.

(** ** The chunk of a location *)

(** A key that can be looked up: no quotes, no backslashes, no backspace. *)
Definition key_char (c : ascii) : Prop := c <> QUOTE /\ c <> BACKSLASH /\ uchar c <> 8.

#[export] Instance key_char_dec c : Decision (key_char c).
Proof. unfold key_char. apply _. Defined.

Lemma chunk_solid c rest n colon :
  solid c -> chunk_loop (c :: rest) n false colon false = chunk_loop rest (n + 1) false colon false.
Proof.
  intros Hl. pose proof (solid_tests c Hl) as (H1 & H2 & H3 & _). cbn [chunk_loop]. rewrite H1, H2, H3.
  destruct Hl as [_ Hw]. rewrite Hw. unfold is_ws in Hw. apply orb_false_iff in Hw as [-> Hw].
  destruct (uchar c =? 9) eqn:E9; [boolify; lia|]. done.
Qed.

Lemma chunk_solids s rest n colon :
  Forall solid s -> chunk_loop (s ++ rest) n false colon false = chunk_loop rest (n + strlen s) false colon false.
Proof.
  intros H. revert n. induction H as [|c s Hc H IH]; intros n; [f_equal; unfold strlen; cbn; lia|].
  cbn [app]. rewrite chunk_solid, IH by done. f_equal. unfold strlen. cbn [length]. lia.
Qed.

Lemma chunk_colon r n : chunk_loop (str ":/" ++ r) n false true false = chunk_loop ("/"%char :: r) (n + 1) false false false.
Proof. done. Qed.

Lemma chunk_key s rest n :
  Forall key_char s -> chunk_loop (key_text s ++ rest) n false false false = chunk_loop rest (n + strlen (key_text s)) false false false.
Proof.
  intros H. revert n. induction H as [|c s (Hq & Hb & H8) H IH]; intros n; [f_equal; unfold strlen; cbn; lia|].
  cbn [key_text]. destruct (isspace c) eqn:E.
  - cbn [app chunk_loop]. rewrite (bool_decide_true (BACKSLASH = BACKSLASH)) by done.
    assert (c <> ":"%char) as Hc by (intros ->; done). rewrite !bool_decide_false by done. cbn [andb negb].
    rewrite andb_false_r. replace (if is_ws c then _ else _) with (chunk_loop (key_text s ++ rest) (n + 1 + 1) false false false)
      by (by destruct (is_ws c)).
    rewrite IH. f_equal. unfold strlen. cbn [length]. lia.
  - cbn [app chunk_loop]. rewrite !(bool_decide_false (c = QUOTE)), !(bool_decide_false (c = BACKSLASH)) by done. cbn [andb negb].
    rewrite andb_false_r.
    assert (is_ws c = false) as ->.
    { unfold is_ws, isspace in *. apply orb_false_iff in E as [E1 E2]. apply bool_decide_eq_false in E1.
      apply orb_false_iff. split; [by apply Z.eqb_neq|]. apply andb_false_iff. apply andb_false_iff in E2 as [E2|E2]; [left|by right].
      apply Z.leb_gt. apply Z.leb_gt in E2. lia. }
    replace (if c =a ":" then _ else _) with (chunk_loop (key_text s ++ rest) (n + 1) false false false)
      by (by destruct (c =a ":")).
    rewrite IH. f_equal. unfold strlen. cbn [length]. lia.
Qed.

(** Characters that [dequote] copies. *)
Definition unquoted (c : ascii) : Prop := c <> QUOTE /\ c <> BACKSLASH.

#[export] Instance unquoted_dec c : Decision (unquoted c).
Proof. unfold unquoted. apply _. Defined.

Lemma solid_unquoted s : Forall solid s -> Forall unquoted s.
Proof.
  intros H. eapply Forall_impl; [exact H|]. intros c Hc. pose proof (solid_tests c Hc) as (H1 & H2 & _).
  apply bool_decide_eq_false in H1, H2. by split.
Qed.

Lemma dequote_plain s rest : Forall unquoted s ->
  dequote_loop (s ++ rest) false false = (s ++ fst (dequote_loop rest false false), snd (dequote_loop rest false false)).
Proof.
  induction 1 as [|c s [H1 H2] H IH]; [apply surjective_pairing|]. cbn [app dequote_loop].
  rewrite (bool_decide_false (c = QUOTE)), (bool_decide_false (c = BACKSLASH)) by done. cbn [andb negb]. by rewrite IH.
Qed.

Lemma dequote_key s rest : Forall key_char s ->
  dequote_loop (key_text s ++ rest) false false = (s ++ fst (dequote_loop rest false false), snd (dequote_loop rest false false)).
Proof.
  induction 1 as [|c s (Hq & Hb & H8) H IH]; [apply surjective_pairing|]. cbn [key_text]. destruct (isspace c).
  - cbn [app dequote_loop]. rewrite (bool_decide_true (BACKSLASH = BACKSLASH)) by done.
    rewrite (bool_decide_false (BACKSLASH = QUOTE)) by done. cbn [andb negb]. rewrite IH. done.
  - cbn [app dequote_loop]. rewrite (bool_decide_false (c = QUOTE)), (bool_decide_false (c = BACKSLASH)) by done. cbn [andb negb].
    by rewrite IH.
Qed.

(** The end of a text with a key is not cut off. *)
Lemma strip_end_key pre key post :
  (2 <= length pre)%nat -> Forall (fun c => isspace c = false) pre -> Forall solid post ->
  strip_end (pre ++ key_text key ++ post) (length (pre ++ key_text key ++ post)) = Some (length (pre ++ key_text key ++ post)).
Proof.
  intros Hl Hpre Hpost. destruct post as [|c post _] using rev_ind.
  - rewrite app_nil_r. destruct key as [|c key _] using rev_ind.
    + cbn [key_text]. rewrite app_nil_r. destruct pre as [|c pre _] using rev_ind; [cbn in Hl; lia|].
      apply strip_end_nonspace. by apply Forall_app in Hpre as [_ [? _]%Forall_cons].
    + assert (key_text (key ++ [c]) = key_text key ++ if isspace c then [BACKSLASH; c] else [c]) as ->.
      { clear. induction key as [|d key IH]; [cbn; by destruct (isspace c)|]. cbn. rewrite IH. by destruct (isspace d). }
      rewrite app_assoc. destruct (isspace c) eqn:E; [|by apply strip_end_nonspace].
      apply strip_end_escaped. destruct pre; [cbn in Hl; lia|done].
  - rewrite !app_assoc. apply strip_end_nonspace. apply Forall_app in Hpost as [_ [Hc _]%Forall_cons]. by apply solid_tests.
Qed.

(** C35. A key keeps its white space in a location: for an entry [host:/dir&rest] the
    expansion puts backslashes before it, so that [chunklen] takes the whole location as
    one chunk and [dequote] gives back the location with the key itself. *)
Theorem location_keeps_key svc key slash host dir rest sys :
  Forall literal host -> Forall literal dir -> Forall literal rest -> Forall key_char key ->
  exists out, do_expandsunent None svc key slash (host ++ str ":/" ++ dir ++ str "&" ++ rest) sys [] = Some (Some out, sys, []) /\
    chunklen out (check_colon out) = Some (strlen out) /\
    dequote out (length out) true = Some (Some (host ++ str ":/" ++ dir ++ key ++ rest)).
Proof.
  intros Hh Hd Hr Hk. assert (solid "/"%char) as Hs by (split; [set_solver|done]).
  pose proof (solids _ Hh) as Sh. pose proof (solids _ Hd) as Sd. pose proof (solids _ Hr) as Sr.
  set (out := host ++ str ":/" ++ dir ++ key_text key ++ rest). exists out.
  set (src := host ++ _).
  assert (expands svc key slash sys false src out) as He.
  { apply expands_literals; [done|]. apply expands_colon; [done|]. apply expands_literal; [by split_and!|]. apply expands_literals; [done|].
    apply expands_amp. rewrite <- (app_nil_r rest). apply expands_literals; [done|apply expands_nil]. }
  assert (out <> []) as Hne by (unfold out; by destruct host).
  split_and!.
  - by apply do_expandsunent_run.
  - assert (check_colon out = true) as ->.
    { apply check_colon_spec. by exists host, (dir ++ key_text key ++ rest). }
    unfold chunklen, out. rewrite chunk_solids by done. rewrite chunk_colon, chunk_solid by done.
    rewrite chunk_solids, chunk_key by done. rewrite <- (app_nil_r rest) at 1. rewrite chunk_solids by done. cbn [chunk_loop].
    f_equal. unfold strlen. rewrite !length_app. cbn [length str String.list_ascii_of_string]. lia.
  - unfold dequote. cbn [negb].
    assert (strip_end out (length out) = Some (length out)) as ->.
    { replace out with ((host ++ str ":/" ++ dir) ++ key_text key ++ rest) by (unfold out; by rewrite <- !app_assoc).
      assert (forall l, Forall solid l -> Forall (fun c => isspace c = false) l) as Hsp.
      { intros l Hl. eapply Forall_impl; [exact Hl|]. intros c Hc. by apply solid_tests. }
      apply strip_end_key; [rewrite !length_app; cbn; lia| |done]. rewrite !Forall_app. split_and!; [by apply Hsp|by repeat constructor|by apply Hsp]. }
    rewrite firstn_all. unfold out. rewrite dequote_plain by (by apply solid_unquoted).
    rewrite (dequote_plain (str ":/")) by (by repeat constructor). rewrite dequote_plain by (by apply solid_unquoted). rewrite dequote_key by done.
    assert (dequote_loop rest false false = (rest, false)) as Er.
    { pose proof (dequote_plain rest [] (solid_unquoted _ Sr)) as E. rewrite app_nil_r in E. by rewrite E, app_nil_r. }
    cbn. by rewrite Er.
Qed.

Lemma location_keeps_key_witness :
  exists out, do_expandsunent None [] (str "my key") true (str "srv:/home/&/x") [] [] = Some (Some out, [], []) /\
    chunklen out (check_colon out) = Some (strlen out) /\
    dequote out (length out) true = Some (Some (str "srv:/home/my key/x")).
Proof.
  pose proof (location_keeps_key [] (str "my key") true (str "srv") (str "home/") (str "/x") []) as H.
  apply H; by apply (bool_decide_unpack _).
Defined.
