(* ===== verification/SunParse.v ===== *)
(** * The parser of Sun map entries (modules/parse_sun.c)

    A pointer into the buffer of an entry is the pair of the text before it and the text
    from it on. Pointers that leave the buffer leave the model. *)

From S2P Require Import Prelude CString Cache Macros CatPath Args Lexer Replicated MountNfs Trees Offsets Master SunExpand.
Open Scope Z_scope.

Abbreviation pos := (cstring * cstring)%type.

Definition advance (n : nat) (p : pos) : pos := (p.1 ++ take n p.2, drop n p.2).

(** [p = skipspace(p)]. *)
Definition skip (p : pos) : pos := advance (length p.2 - length (skipspace p.2)) p.

Section Parse.
Context {S : Type}.

(** [chunklen]. *)
Definition chunk (p : pos) (expect_colon : bool) : M S nat :=
  n ← from_option_M (chunklen p.2 expect_colon);
  mret (Z.to_nat n).

(** [dequote]: the loop that strips white space can run on into the text before. *)
Definition dequote_at (p : pos) (len : nat) : M S (option cstring) :=
  ok ← malloc;
  match dequote p.2 len ok with
  | Some r => mret r
  | None => if existsb (fun c => negb (isspace c)) p.1 then mret (Some []) else stuck
  end.

(** ** Options *)

(** The options, when the text begins with them, and the rest. *)
Definition parse_options (p : pos) (ret : option cstring) : M S (pos * option cstring) :=
  if negb (hd_char p.2 =a "-") then mret (p, ret)
  else
    let cp := advance 1 p in
    len ← chunk cp false;
    ret ← dequote_at cp len;
    mret (advance len cp, ret).

Definition empty_opt (o : option cstring) : bool := match o with None | Some [] => true | _ => false end.

(** The result, and whether [errno] was set. *)
Definition concat_options (left right : option cstring) : M S (option cstring * bool) :=
  let dup (o : option cstring) : M S (option cstring * bool) :=
    ok ← malloc; mret (if (ok : bool) then (o, false) else (None, true)) in
  if empty_opt left then if empty_opt right then mret (None, false) else dup right
  else if empty_opt right then dup left
  else
    ok ← malloc;
    mret (if (ok : bool) then (Some (default [] left ++ str "," ++ default [] right), false) else (None, true)).

(** [strstr (s, t)] as a test; a null pointer must not be given to it. *)
Definition has_str (s t : option cstring) : M S bool :=
  match s, t with
  | Some s, Some t => mret (bool_decide (is_Some (strstr s t)))
  | _, _ => stuck
  end.

(** The options of an entry that come together: [None] is an error. *)
Definition gather (myoptions newopt : option cstring) : M S (option (option cstring)) :=
  match newopt with
  | None => mret (Some myoptions)
  | Some _ =>
      b ← has_str newopt myoptions;
      if (b : bool) then mret (Some newopt)
      else
        '(tmp, errno) ← concat_options myoptions newopt;
        mret (if bool_decide (tmp = None) && errno then None else Some tmp)
  end.

(** ** Locations *)

Definition location_char (c : ascii) : bool :=
  isalnum c || bool_decide (c ∈ str "-._,()#@:[]%").

Definition starts_with (s : cstring) (t : string) : bool := strneq s (str t) (length (str t)).

Fixpoint host_loop (ptr : cstring) : option cstring :=
  match ptr with
  | [] => Some []
  | c :: rest =>
      if colon_slash ptr then Some ptr
      else if negb (location_char c) then None
      else if (c =a ",") && ((hd_char rest =a ",") || (hd_char rest =a ":")) then None
      else host_loop rest
  end.

Definition validate_location (loc : cstring) : bool :=
  if hd_char loc =a ":" then true
  else if hd_char loc =a "," then false
  else if negb (check_colon loc) then
    bool_decide (strchr loc ":" = None) ||
    match strchr loc BACKSLASH with Some (_ :: c :: _) => c =a ":" | _ => false end ||
    existsb (starts_with loc) ["file:"; "yp:"; "nis:"; "nisplus:"; "ldap:"; "ldaps:"; "sss:"; "dir:"]%string
  else
    match host_loop loc with
    | None => false
    | Some ptr =>
        let ptr := if negb (bool_decide (ptr = [])) && colon_slash ptr then tail ptr else ptr in
        negb (bool_decide (ptr = []))
    end.

(** The loop that steps over options. *)
Fixpoint skip_options (fuel : nat) (p : pos) : M S pos :=
  if negb (hd_char p.2 =a "-") then mret p
  else
    match fuel with
    | O => stuck
    | Datatypes.S fuel =>
        n ← chunk p false;
        skip_options fuel (skip (advance n p))
    end.

Fixpoint multi_loop (fuel : nat) (p : pos) (not_first_chunk : bool) : M S bool :=
  if bool_decide (p.2 = []) then mret false
  else
    match fuel with
    | O => stuck
    | Datatypes.S fuel =>
        let p := skip p in
        let p := if not_first_chunk && (hd_char p.2 =a QUOTE) then advance 1 p else p in
        let p := if not_first_chunk && (hd_char p.2 =a "-") then advance 1 p else p in
        if not_first_chunk && (hd_char p.2 =a "/") then mret true
        else
          p ← skip_options (length p.2) p;
          n ← chunk p (check_colon p.2);
          multi_loop fuel (advance n p) true
    end.

(** Each round but one that only steps over a quote consumes a character. *)
Definition check_is_multi (mapent : pos) : M S bool :=
  let p := if hd_char mapent.2 =a QUOTE then advance 1 mapent else mapent in
  if hd_char p.2 =a "/" then mret true else multi_loop (2 * length p.2 + 2) p false.

(** ** An entry *)

(** The loop over the options: [None] is an error. *)
Fixpoint mapent_options (fuel : nat) (p : pos) (myoptions : option cstring) : M S (option (pos * option cstring)) :=
  if negb (hd_char p.2 =a "-") then mret (Some (p, myoptions))
  else
    match fuel with
    | O => stuck
    | Datatypes.S fuel =>
        '(p, newopt) ← parse_options p None;
        opts ← gather myoptions newopt;
        match opts with
        | None => mret None
        | Some opts => mapent_options fuel (skip p) opts
        end
    end.

Definition is_hosts (myoptions : option cstring) : M S bool :=
  b ← has_str myoptions (Some (str "fstype=autofs"));
  if negb b then mret false else has_str myoptions (Some (str "hosts")).

(** The text does not begin with a slash, also not inside of a quote. *)
Definition not_offset (p : pos) : bool :=
  if hd_char p.2 =a QUOTE then negb (hd_char (tail p.2) =a "/") else negb (hd_char p.2 =a "/").

(** The loop over further locations: [None] is an error. *)
Fixpoint more_locations (fuel : nat) (p : pos) (myoptions : option cstring) (loc : cstring) : M S (option (pos * cstring)) :=
  if bool_decide (p.2 = []) || negb (not_offset p) then mret (Some (p, loc))
  else
    match fuel with
    | O => stuck
    | Datatypes.S fuel =>
        l ← chunk p (check_colon p.2);
        ent_chunk ← dequote_at p l;
        match ent_chunk with
        | None =>
            b ← is_hosts myoptions;
            if (b : bool) then mret None else more_locations fuel (skip (advance l p)) myoptions loc
        | Some c =>
            if hd_char p.2 =a "/" then mret None
            else if negb (validate_location c) then mret None
            else
              ok ← malloc;
              if negb ok then mret None
              else more_locations fuel (skip (advance l p)) myoptions (loc ++ str " " ++ c)
        end
    end.

(** The characters read, 0 for an error, with the options and the location. *)
Definition parse_mapent (ent : pos) (g_options : option cstring) : M S (nat * option cstring * option cstring) :=
  let fail := (O, None, None) in
  g ← from_option_M g_options;
  ok ← malloc;
  if negb ok then mret fail else
  r ← mapent_options (length ent.2) ent (Some g);
  match r with
  | None => mret fail
  | Some (p, myoptions) =>
      l ← chunk p (check_colon p.2);
      loc ← dequote_at p l;
      match loc with
      | None =>
          b ← is_hosts myoptions;
          if (b : bool) then mret fail else mret ((length ent.2 - length p.2)%nat, myoptions, None)
      | Some loc =>
          if hd_char p.2 =a "/" then mret fail
          else if negb (validate_location loc) then mret fail
          else
            r ← more_locations (length p.2) (skip (advance l p)) myoptions loc;
            match r with
            | None => mret fail
            | Some (p, loc) => mret ((length ent.2 - length p.2)%nat, myoptions, Some loc)
            end
      end
  end.

End Parse.

(** * Mounting Sun map entries (modules/parse_sun.c)

    The cache of the source, the trees of its multi-mounts and the variables are the state
    here. What the mount modules and the mounts of the offsets return are arguments; the
    mounts that are asked for are kept in order. *)

(** ** The options of a mount *)

(** The variables that the options set, and what is written to [noptions]. *)
Record sun_opts := SunOpts { so_fstype : cstring; so_nonstrict : bool; so_weight : Z; so_out : list ascii }.

Fixpoint skip_commas (s : cstring) : cstring :=
  match s with
  | c :: s' => if c =a "," then skip_commas s' else s
  | [] => []
  end.

(** The option at [cp], which has the characters [tok]; [term] is the character behind it. *)
Definition sun_option (cp tok : cstring) (term : ascii) (o : sun_opts) : sun_opts :=
  let opt (s : string) (n : Z) := _strncmp (str s) cp n =? 0 in
  let copied := SunOpts (so_fstype o) (so_nonstrict o) (so_weight o) (so_out o ++ tok ++ [term]) in
  if opt "fstype=" 7 then SunOpts (drop 7 tok) (so_nonstrict o) (so_weight o) (so_out o)
  else if opt "nonstrict" 9 then SunOpts (so_fstype o) true (so_weight o) (so_out o)
  else if opt "strict" 6 && (strlen tok =? 6) then SunOpts (so_fstype o) false (so_weight o) (so_out o)
  else if opt "nobrowse" 8 || opt "browse" 6 || opt "timeout=" 8 then
    if streq (so_fstype o) (str "autofs") || bool_decide (is_Some (strstr cp (str "fstype=autofs"))) then copied else o
  else if opt "no-use-weight-only" 18 then SunOpts (so_fstype o) (so_nonstrict o) (-1) (so_out o)
  else if opt "use-weight-only" 15 then SunOpts (so_fstype o) (so_nonstrict o) MOUNT_FLAG_USE_WEIGHT_ONLY (so_out o)
  else if opt "bg" 2 || opt "nofg" 4 then o
  else copied.

(** Each round consumes a character. *)
Fixpoint sun_opts_loop (fuel : nat) (comma : cstring) (o : sun_opts) : sun_opts :=
  match fuel, comma with
  | S fuel, _ :: _ =>
      let cp := skip_commas comma in
      let tok := before cp ","%char in
      let comma := drop (length tok) cp in
      sun_opts_loop fuel comma (sun_option cp tok (hd_char comma) o)
  | _, _ => o
  end.

(** [noptions] after the loop: writing behind its [len] characters leaves the model. *)
Definition noptions (len : nat) (out : list ascii) : option cstring :=
  if (len <? length out)%nat then None
  else Some (before (take (length out - 1) out) NUL).

Record parse_context := Ctxt { optstr : option cstring; macros : option cstring; subst : table; slashify_colons : bool }.

(** A mount that is asked for; [m_nfs] is the cached module of NFS. *)
Record sun_call := SunCall { m_nfs : bool; m_root : cstring; m_name : cstring; m_what : option cstring; m_fstype : cstring; m_options : option cstring }.

(** What is used of the mount point and its first source. *)
Record sun_point := SunPoint { sp_path : cstring; sp_type : option cstring; sp_flags : Z; sp_amd : bool }.

(** The state of the module: [x_trees] are the trees of the roots of multi-mounts. *)
Record sun_state := Sun { x_mc : mapent_cache; x_trees : gmap addr otree; x_subst : table; x_sys : table; x_calls : list sun_call }.

Abbreviation SM := (M sun_state).

Definition set_x_mc mc s := Sun mc (x_trees s) (x_subst s) (x_sys s) (x_calls s).
Definition set_x_tree a t s := Sun (x_mc s) (<[a := t]> (x_trees s)) (x_subst s) (x_sys s) (x_calls s).
Definition set_x_subst t s := Sun (x_mc s) (x_trees s) t (x_sys s) (x_calls s).
Definition add_x_call c s := Sun (x_mc s) (x_trees s) (x_subst s) (x_sys s) (x_calls s ++ [c]).

(** Operations of the cache and of the system variables. *)
Definition on_cache {A} (c : CM A) : SM A := fun s m =>
  match c (x_mc s) m with
  | Some (x, mc, m) => Some (x, set_x_mc mc s, m)
  | None => None
  end.

Definition on_vars {A} (c : TM A) : SM A := fun s m =>
  match c (x_sys s) m with
  | Some (x, sys, m) => Some (x, Sun (x_mc s) (x_trees s) (x_subst s) sys (x_calls s), m)
  | None => None
  end.

(** The options "nosuid" and "nodev" for the hosts map. *)
Definition hosts_options (options : option cstring) : option cstring :=
  match options with
  | Some ((_ :: _) as o) =>
      let has s := bool_decide (is_Some (strstr o (str s))) in
      Some (o ++ (if has "suid"%string then [] else str ",nosuid") ++ (if has "dev"%string then [] else str ",nodev"))
  | _ => Some (str "nosuid,nodev")
  end.

Definition weight_options (use_weight_only : Z) (options : option cstring) : option cstring :=
  if use_weight_only =? 0 then options
  else
    let w := if use_weight_only =? MOUNT_FLAG_USE_WEIGHT_ONLY then str "use-weight-only" else str "no-use-weight-only" in
    match options with
    | Some ((_ :: _) as o) => Some (o ++ str "," ++ w)
    | _ => Some w
    end.

(** The macros of a map are only passed on behind other options. *)
Definition macro_options (fstype : cstring) (macros options : option cstring) : option cstring :=
  match macros, options with
  | Some ms, Some ((_ :: _) as o) => if streq fstype (str "autofs") then Some (o ++ str "," ++ ms) else options
  | _, _ => options
  end.

Section Mount.
Context (ap : sun_point) (ctxt : parse_context) (mount : sun_call -> Z).

Definition sun_mount (root name : cstring) (loc : option cstring) (options : option cstring) : SM Z :=
  options ← from_option_M options;
  let init := SunOpts (str "nfs") true (Z.land (sp_flags ap) MOUNT_FLAG_USE_WEIGHT_ONLY) [] in
  let o := sun_opts_loop (length options) options init in
  options ← (if bool_decide (options = []) then mret None
             else n ← from_option_M (noptions (S (length options)) (so_out o)); mret (Some n));
  let options := macro_options (so_fstype o) (macros ctxt) options in
  let options := if same_opt (sp_type ap) (Some (str "hosts")) then hosts_options options else options in
  ok ← malloc;
  if negb ok then mret 1 else
  let nfs := streq (so_fstype o) (str "nfs") || streq (so_fstype o) (str "nfs4") in
  let call :=
    if nfs then SunCall true root name (Some (default [] loc)) (so_fstype o) (weight_options (so_weight o) options)
    else
      let what := match loc with
                  | Some (c :: l) => Some (if c =a ":" then l else c :: l)
                  | _ => None
                  end in
      SunCall false root name what (so_fstype o) options in
  modify (add_x_call call);;
  let rv := mount call in
  mret (if so_nonstrict o && negb (rv =? 0) then - rv else rv).

(** [tree_mapent_mount_offsets] on an entry. *)
Context (mount_offsets : addr -> Z).

Definition delete_offsets (name : cstring) : SM Z :=
  s ← get_state;
  on_cache (tree_mapent_delete_offsets (fun a => default Leaf (x_trees s !! a)) name).

(** The mount at the root of a multi-mount, when there is one: 1 is an error. *)
Definition root_offset (a : addr) (name : cstring) (options : option cstring) : SM (option Z) :=
  me ← on_cache (deref a);
  r ← from_option_M (mount_fullpath PATH_MAX (sp_path ap) (strlen (sp_path ap)) (me_key me));
  let '(len, path) := r in
  if len =? 0 then mret None
  else
    let key := path ++ str "/" in
    ro ← on_cache (cache_lookup_distinct (Some key));
    match ro with
    | None => mret (Some 0)
    | Some r =>
        roe ← on_cache (deref r);
        root ← from_option_M (me_mm_root me);
        rme ← on_cache (deref root);
        if negb (me_age roe =? me_age rme) then mret (Some 0)
        else
          ent ← from_option_M (me_mapent roe);
          r ← parse_mapent ([], ent) options;
          let '(n, myoptions, ro_loc) := r in
          if (n =? 0)%nat then mret None
          else rv ← sun_mount key name ro_loc myoptions; mret (Some rv)
    end.

Definition mount_subtree (name : cstring) (loc options : option cstring) : SM Z :=
  me ← on_cache (cache_lookup_distinct (Some name));
  match me with
  | None => mret 0
  | Some a =>
      e ← on_cache (deref a);
      if IS_MM_ROOT a e then
        rv ← root_offset a name options;
        match rv with
        | None => delete_offsets name;; mret 1
        | Some rv =>
            if 0 <? rv then mret rv
            else if mount_offsets a =? 0 then delete_offsets name;; mret 1
            else mret (if (rv <? 0) && (0 <? mount_offsets a) then 0 else rv)
        end
      else
        loc ← from_option_M loc;
        rv ← sun_mount name name (Some loc) options;
        if 0 <? rv then mret rv
        else if mount_offsets a =? 0 then mret 1
        else mret (if (rv <? 0) && (0 <? mount_offsets a) then 0 else rv)
  end.

End Mount.
