(* ===== verification/SunEntry.v ===== *)
(** * The entry points of the Sun map parser (modules/parse_sun.c) *)

From S2P Require Import Prelude CString CatPath Lexer Macros Args Cache Trees Offsets MountNfs Replicated Master SunExpand SunParse.
Open Scope Z_scope.

(** ** The context of a map *)

Definition default_context : parse_context := Ctxt None None [] true.

Definition set_optstr o c := Ctxt o (macros c) (subst c) (slashify_colons c).
Definition set_macros o c := Ctxt (optstr c) o (subst c) (slashify_colons c).
Definition set_subst t c := Ctxt (optstr c) (macros c) t (slashify_colons c).
Definition set_slashify b c := Ctxt (optstr c) (macros c) (subst c) b.

Section Init.
Context {S : Type}.

(** A definition of a macro: [def] is what follows [-D]. *)
Definition define_macro (def : cstring) (c : parse_context) : M S parse_context :=
  ok ← malloc;
  if negb ok then mret c else
  let name := before def "="%char in
  let val := match strchr def "="%char with Some v => tail v | None => [] end in
  t ← macro_addvar (subst c) name (length name) (Some val);
  let c := set_subst t c in
  ok ← malloc;
  if negb ok then mret c else
  let this := str "-D" ++ name ++ str "=" ++ val in
  mret (set_macros (Some (match macros c with Some ms => ms ++ str "," ++ this | None => this end)) c).

(** An option of the parser that begins with two dashes. *)
Definition parser_option (arg : cstring) (c : parse_context) : parse_context :=
  let no := starts_with (drop 2 arg) "no-" in
  let xopt := drop (if no then 5 else 2) arg in
  if strmcmp xopt (str "slashify-colons") 1 =? 0 then set_slashify (negb no) c else c.

(** The arguments of a map: [None] is an error. *)
Fixpoint init_args (argv : list cstring) (c : parse_context) : M S (option parse_context) :=
  match argv with
  | [] => mret (Some c)
  | arg :: argv =>
      if (hd_char arg =a "-") && ((hd_char (tail arg) =a "D") || (hd_char (tail arg) =a "-")) then
        if hd_char (tail arg) =a "D" then
          match drop 2 arg with
          | [] =>
              match argv with
              | [] => mret (Some c)
              | def :: argv => c ← define_macro def c; init_args argv c
              end
          | def => c ← define_macro def c; init_args argv c
          end
        else init_args argv (parser_option arg c)
      else
        let opt := if hd_char arg =a "-" then tail arg else arg in
        ok ← malloc;
        if negb ok then mret None
        else init_args argv (set_optstr (Some (match optstr c with Some o => o ++ str "," ++ opt | None => opt end)) c)
  end.

(** The options of the configuration. *)
Definition global_opts (global_options : option cstring) (append_options : bool) (c : parse_context) : M S parse_context :=
  match global_options with
  | None => mret c
  | Some g =>
      let known := match optstr c with Some o => bool_decide (is_Some (strstr o g)) | None => false end in
      if known then mret c
      else
        ok ← malloc;
        if negb ok then mret c
        else if append_options then
          '(tmp, _) ← concat_options (Some g) (optstr c);
          mret (set_optstr tmp c)
        else mret (match optstr c with None => set_optstr (Some g) c | Some _ => c end)
  end.

Definition do_init (global_options : option cstring) (append_options : bool) (argv : list cstring) (c : parse_context) :
    M S (option parse_context) :=
  r ← init_args argv c;
  match r with
  | None => mret None
  | Some c => c ← global_opts global_options append_options c; mret (Some c)
  end.

End Init.

(** The module that mounts NFS is opened once, and counted. [open] says that it can be. *)
Record modules := Modules { mount_nfs_open : bool; init_ctr : Z }.

Definition parse_init (global_options : option cstring) (append_options : bool) (open : bool) (argv : list cstring) :
    M modules (option parse_context) :=
  ok ← malloc;
  if negb ok then mret None else
  r ← do_init global_options append_options argv default_context;
  match r with
  | None => mret None
  | Some c =>
      md ← get_state;
      if mount_nfs_open md then put_state (Modules true (init_ctr md + 1));; mret (Some c)
      else if open then put_state (Modules true (init_ctr md + 1));; mret (Some c)
      else mret None
  end.

(** The context is replaced when there is a new one. *)
Definition parse_reinit (global_options : option cstring) (append_options : bool) (argv : list cstring) (c : parse_context) :
    M modules (Z * parse_context) :=
  ok ← malloc;
  if negb ok then mret (1, c) else
  r ← do_init global_options append_options argv default_context;
  mret (match r with None => (1, c) | Some new => (0, new) end).

(** [close] is what [close_mount] returns. *)
Definition parse_done (close : Z) : M modules Z :=
  md ← get_state;
  let ctr := init_ctr md - 1 in
  if ctr =? 0 then put_state (Modules false 0);; mret close
  else put_state (Modules (mount_nfs_open md) ctr);; mret 0.

(** ** An entry *)

Section Entry.
Context (getenv : option (cstring -> option cstring)) (tsv : option thread_stdenv_vars).
Context (ap : sun_point) (ctxt : parse_context) (append_options : bool).
Context (mount : sun_call -> Z) (mount_offsets : addr -> Z).

(** The entry with its variables replaced; an offset has been expanded before. *)
Definition expanded (name mapent : cstring) : SM (option cstring) :=
  offset ← (if hd_char name =a "/" then
              me ← on_cache (cache_lookup_distinct (Some name));
              match me with
              | None => mret false
              | Some a => e ← on_cache (deref a); mret (IS_MM e && negb (IS_MM_ROOT a e))
              end
            else mret false);
  if (offset : bool) then ok ← malloc; mret (if (ok : bool) then Some mapent else None)
  else
    s ← get_state;
    t ← on_vars (addstdenv getenv tsv (x_subst s) None);
    pmapent ← on_vars (do_expandsunent getenv t name (slashify_colons ctxt) mapent);
    modify (set_x_subst (removestdenv t None));;
    mret pmapent.

(** The options at the start of the entry: [None] is an error. *)
Fixpoint entry_options (fuel : nat) (p : pos) (mnt_options : option cstring) : SM (option (pos * option cstring)) :=
  if negb (hd_char p.2 =a "-") then mret (Some (p, mnt_options))
  else
    match fuel with
    | O => stuck
    | S fuel =>
        '(p, newopt) ← parse_options p None;
        opts ← match mnt_options with
               | None =>
                   match newopt with
                   | None => mret (Some None)
                   | Some _ => '(tmp, errno) ← concat_options None newopt; mret (if bool_decide (tmp = None) && errno then None else Some tmp)
                   end
               | Some _ => gather mnt_options newopt
               end;
        match opts with
        | None => mret None
        | Some opts => entry_options fuel (skip p) opts
        end
    end.

(** The options of the map and of the entry: [None] is an error. *)
Definition merge_opts (options mnt_options : option cstring) : SM (option (option cstring)) :=
  if append_options then
    match mnt_options with
    | None => mret (Some options)
    | Some _ => gather options mnt_options
    end
  else mret (Some mnt_options).

(** The offsets that were added are deleted. *)
Fixpoint cleanup_offset_entries (offsets : list addr) : SM unit :=
  match offsets with
  | [] => mret ()
  | a :: offsets =>
      me ← on_cache (deref a);
      _ ← on_cache (cache_delete (me_key me));
      cleanup_offset_entries offsets
  end.

(** The offset at [p], and the characters read. *)
Definition offset_path (mapent_len : nat) (p : pos) : SM (nat * option cstring) :=
  if not_offset p then
    r ← dequote_at ([], str "/") 1; mret (O, r)
  else
    l ← from_option_M (span_space p.2 (Z.of_nat (mapent_len - length p.1)));
    ok ← malloc;
    r ← from_option_M (sanitize_path p.2 (Z.to_nat l) LKP_MULTI ok);
    mret (Z.to_nat l, r).

(** The offsets of a multi-mount, and whether all of them were added. *)
Fixpoint offsets_loop (fuel : nat) (mapent_len : nat) (name m_root : cstring) (options : option cstring) (age : Z) (p : pos) (offsets : list addr) :
    SM (bool * list addr) :=
  match fuel with
  | O => stuck
  | S fuel =>
      '(l, m_offset) ← offset_path mapent_len p;
      match m_offset with
      | None => mret (false, offsets)
      | Some m_offset =>
          let p := skip (advance l p) in
          r ← parse_mapent p options;
          let '(l, myoptions, loc) := r in
          if (l =? 0)%nat then mret (false, offsets)
          else
            let p := skip (advance l p) in
            myoptions ← from_option_M myoptions;
            '(status, offsets) ← on_cache (update_offset_entry (sp_type ap) offsets name m_root m_offset myoptions loc age);
            if negb (status =? CHE_OK) then mret (false, offsets)
            else if negb (not_offset p) then offsets_loop fuel mapent_len name m_root options age p offsets
            else mret (true, offsets)
      end
  end.

(** The offsets are put into the tree of the entry. *)
Fixpoint add_offsets (root : addr) (offsets : list addr) : SM unit :=
  match offsets with
  | [] => mret ()
  | a :: offsets =>
      s ← get_state;
      t ← on_cache (tree_mapent_add_node root (default Leaf (x_trees s !! root)) a);
      modify (set_x_tree root t);;
      add_offsets root offsets
  end.

Definition mount_multi (name pmapent : cstring) (options : option cstring) (p : pos) : SM Z :=
  r ← from_option_M (mount_fullpath PATH_MAX (sp_path ap) (strlen (sp_path ap)) name);
  let '(m_root_len, m_root) := r in
  if m_root_len =? 0 then mret 1 else
  me ← on_cache (cache_lookup_distinct (Some name));
  match me with
  | None => mret 1
  | Some a =>
      e ← on_cache (deref a);
      if IS_MM e && sp_amd ap then mret 0
      else
        (if IS_MM e then mret () else t ← on_cache (make_root a); modify (set_x_tree a t));;
        '(ok, offsets) ← offsets_loop (length pmapent) (S (length pmapent)) name m_root options (me_age e) p [];
        if negb ok then cleanup_offset_entries offsets;; mret 1
        else
          me ← on_cache (cache_lookup_distinct (Some name));
          match me with
          | None => cleanup_offset_entries offsets;; mret 1
          | Some a =>
              e ← on_cache (deref a);
              root ← from_option_M (me_mm_root e);
              add_offsets root offsets;;
              mount_subtree ap ctxt mount mount_offsets name None options
          end
  end.

(** The locations of an entry: [None] is an error. *)
Fixpoint entry_locations (fuel : nat) (p : pos) (loc : cstring) : SM (option cstring) :=
  if bool_decide (p.2 = []) then mret (Some loc)
  else
    match fuel with
    | O => stuck
    | S fuel =>
        l ← chunk p (check_colon p.2);
        ent ← dequote_at p l;
        match ent with
        | None => mret None
        | Some ent =>
            if negb (validate_location ent) then mret None
            else
              ok ← malloc;
              if negb ok then mret None else entry_locations fuel (skip (advance l p)) (loc ++ str " " ++ ent)
        end
    end.

Definition mount_single (name : cstring) (options : option cstring) (p : pos) : SM Z :=
  offset ← (if hd_char name =a "/" then
              me ← on_cache (cache_lookup_distinct (Some name));
              match me with
              | None => mret false
              | Some a => e ← on_cache (deref a); mret (IS_MM e)
              end
            else mret false);
  if (offset : bool) then
    ok ← malloc;
    if negb ok then mret 1 else mount_subtree ap ctxt mount mount_offsets name (Some p.2) options
  else
    l ← chunk p (check_colon p.2);
    loc ← dequote_at p l;
    match loc with
    | None => mret 1
    | Some loc =>
        if hd_char p.2 =a "/" then mret 1
        else if negb (validate_location loc) then mret 1
        else
          r ← entry_locations (length p.2) (skip (advance l p)) loc;
          match r with
          | None => mret 1
          | Some loc =>
              hosts ← is_hosts options;
              if negb hosts && bool_decide (loc = []) then mret 1
              else
                let loc := if (hosts : bool) then None else Some loc in
                sun_mount ap ctxt mount (if streq (sp_path ap) (str "/-") then name else sp_path ap) name loc options
          end
    end.

Definition parse_mount (name : cstring) (mapent : option cstring) : SM Z :=
  match mapent with
  | None => mret 1
  | Some mapent =>
      pmapent ← expanded name mapent;
      match pmapent with
      | None => mret 1
      | Some pmapent =>
          ok ← malloc;
          if negb ok then mret 1 else
          let options := Some (default [] (optstr ctxt)) in
          let p := skip ([], pmapent) in
          r ← (if hd_char p.2 =a "-" then
                 r ← entry_options (length p.2) p None;
                 match r with
                 | None => mret None
                 | Some (p, mnt_options) =>
                     o ← merge_opts options mnt_options;
                     mret (match o with None => None | Some o => Some (p, o) end)
                 end
               else mret (Some (p, options)));
          match r with
          | None => mret 1
          | Some (p, options) =>
              multi ← check_is_multi p;
              if (multi : bool) then mount_multi name pmapent options p else mount_single name options p
          end
      end
  end.

End Entry.
