(* ===== verification/SunRound.v ===== *)
(** * What the Sun map parser reads from the words of an entry *)

From S2P Require Import Prelude CString CatPath Lexer LexerProps Macros Args Cache Trees Offsets MountNfs Replicated Master MemOk SunExpand SunParse SunEntry.
Open Scope Z_scope.

(** ** Words *)

(** The words of an entry with a blank between them. *)
Fixpoint unwords (ws : list cstring) : cstring :=
  match ws with
  | [] => []
  | [w] => w
  | w :: ws => w ++ str " " ++ unwords ws
  end.

(** What follows the first word. *)
Definition behind (ws : list cstring) : cstring := match ws with [] => [] | _ => str " " ++ unwords ws end.

Lemma unwords_cons w ws : unwords (w :: ws) = w ++ behind ws.
Proof. destruct ws; [|done]. by rewrite app_nil_r. Qed.

(** A word begins with a character that is not skipped. *)
Definition starts_word (w : cstring) : Prop := exists c w', w = c :: w' /\ is_ws c = false /\ c <> "#"%char.

Lemma skipspace_word w r : starts_word w -> skipspace (w ++ r) = w ++ r.
Proof. intros (c & w' & -> & Hw & Hc). cbn. by rewrite Hw, bool_decide_false. Qed.

(** The step to the next word. *)
Lemma skip_word pre w ws :
  Forall starts_word ws -> exists pre', skip (advance (length w) (pre, unwords (w :: ws))) = (pre', unwords ws) /\
    (length pre' + length (unwords ws) = length pre + length (unwords (w :: ws)))%nat.
Proof.
  intros Hs. rewrite unwords_cons. unfold advance. cbn [fst snd]. rewrite drop_app_length, take_app_length.
  unfold skip. cbn [fst snd]. destruct Hs as [|w1 ws Hw Hs].
  - cbn. unfold advance. cbn. eexists. split; [done|]. rewrite !length_app. cbn. lia.
  - unfold behind. assert (skipspace (unwords (w1 :: ws)) = unwords (w1 :: ws)) as Ht by (rewrite unwords_cons; by apply skipspace_word).
    set (t := unwords (w1 :: ws)) in *. change (str " " ++ t) with (" "%char :: t).
    change (skipspace (" "%char :: t)) with (skipspace t). rewrite Ht.
    replace (length (" "%char :: t) - length t)%nat with 1%nat by (cbn; lia).
    unfold advance. cbn [fst snd take drop]. eexists. split; [done|]. rewrite !length_app. cbn [length]. rewrite take_0. cbn [length]. lia.
Qed.

(** The first text is a word. *)
Lemma skip_first pre ws : Forall starts_word ws -> skip (pre, unwords ws) = (pre, unwords ws).
Proof.
  intros Hs. unfold skip. cbn [fst snd]. destruct Hs as [|w ws Hw Hs]; [cbn; unfold advance; cbn; by rewrite app_nil_r|].
  rewrite unwords_cons, skipspace_word by done. rewrite Nat.sub_diag. unfold advance. cbn. by rewrite app_nil_r.
Qed.

(** ** Locations and options *)

(** A location: a host and a path. *)
Definition location (tok : cstring) : Prop :=
  (exists host path, tok = host ++ str ":/" ++ path /\ Forall solid host /\ Forall solid path) /\
  hd_char tok ∉ ["#"; "-"; "/"]%char /\ validate_location tok = true.

(** An option: no blanks, no quotes. *)
Definition option_char (c : ascii) : Prop := unquoted c /\ is_ws c = false.
Definition option_word (o : cstring) : Prop := o <> [] /\ Forall option_char o.

#[export] Instance option_char_dec c : Decision (option_char c).
Proof. unfold option_char. apply _. Defined.

Lemma option_char_cases c : option_char c -> solid c \/ c = ":"%char.
Proof.
  intros [[H1 H2] Hw]. destruct (decide (c = ":"%char)); [by right|]. left. split; [|done].
  unfold QUOTE, BACKSLASH in *. set_solver.
Qed.

Lemma location_chars tok : location tok -> Forall option_char tok.
Proof.
  intros ((host & path & -> & Hh & Hp) & _). assert (forall l, Forall solid l -> Forall option_char l) as H.
  { intros l Hl. eapply Forall_impl; [exact Hl|]. intros c Hc. pose proof (solid_tests c Hc) as (H1 & H2 & _).
    apply bool_decide_eq_false in H1, H2. split; [by split|apply Hc]. }
  rewrite !Forall_app. split_and!; [by apply H|by repeat constructor|by apply H].
Qed.

Lemma word_starts w : w <> [] -> Forall option_char w -> hd_char w <> "#"%char -> starts_word w.
Proof. intros Hne Hw Hh. destruct w as [|c w]; [done|]. apply Forall_cons in Hw as [[_ ?] _]. by exists c, w. Qed.

Lemma location_ne tok : location tok -> tok <> [].
Proof. intros ((host & path & -> & _) & _). by destruct host. Qed.

Lemma location_starts tok : location tok -> starts_word tok.
Proof.
  intros H. apply word_starts; [by apply location_ne|by apply location_chars|]. destruct H as (_ & H & _). set_solver.
Qed.

(** The end of a chunk. *)
Lemma chunk_behind ws n : chunk_loop (behind ws) n false false false = Some n.
Proof. by destruct ws. Qed.

Lemma chunk_location tok ws : location tok -> chunklen (tok ++ behind ws) (check_colon (tok ++ behind ws)) = Some (strlen tok).
Proof.
  intros ((host & path & -> & Hh & Hp) & _). rewrite <- !app_assoc.
  assert (check_colon (host ++ str ":/" ++ path ++ behind ws) = true) as -> by (apply check_colon_spec; eauto).
  unfold chunklen. rewrite chunk_solids by done. rewrite chunk_colon, chunk_solid by (split; [set_solver|done]).
  rewrite chunk_solids, chunk_behind by done. f_equal. unfold strlen. rewrite !length_app. cbn. lia.
Qed.

Lemma chunk_option o ws n : Forall option_char o -> chunk_loop (o ++ behind ws) n false false false = Some (n + strlen o).
Proof.
  intros H. revert n. induction H as [|c o Hc H IH]; intros n; [cbn [app]; rewrite chunk_behind; f_equal; unfold strlen; cbn; lia|].
  cbn [app]. assert (chunk_loop (c :: o ++ behind ws) n false false false = chunk_loop (o ++ behind ws) (n + 1) false false false) as ->.
  { destruct (option_char_cases c Hc) as [Hs| ->]; [by apply chunk_solid|done]. }
  rewrite IH. f_equal. unfold strlen. cbn [length]. lia.
Qed.

Lemma dequote_word w r : w <> [] -> Forall option_char w -> dequote (w ++ r) (length w) true = Some (Some w).
Proof.
  intros Hne Hw. unfold dequote. cbn [negb]. assert (strip_end (w ++ r) (length w) = Some (length w)) as ->.
  { destruct w as [|c w _] using rev_ind; [done|]. rewrite length_app, Nat.add_1_r. cbn [strip_end].
    rewrite <- app_assoc. cbn [app]. rewrite char_at_app. apply Forall_app in Hw as [_ [[_ Hc] _]%Forall_cons].
    assert (isspace c = false) as ->; [|done]. unfold is_ws, isspace in *. case_bool_decide; boolify; lia. }
  rewrite take_app_length. assert (Forall unquoted w) as Hu by (eapply Forall_impl; [exact Hw|by intros c []]).
  pose proof (dequote_plain w [] Hu) as E. rewrite app_nil_r in E. rewrite E. cbn. by rewrite app_nil_r.
Qed.

Section Words.
Context {S : Type}.

Lemma chunk_location_run pre tok ws (s : S) m :
  location tok -> chunk (pre, tok ++ behind ws) (check_colon (tok ++ behind ws)) s m = Some (length tok, s, m).
Proof. intros H. unfold chunk. cbn [snd]. rewrite chunk_location by done. rewrite bind_from_some. unfold strlen. by rewrite Nat2Z.id. Qed.

Lemma dequote_word_run pre w r (s : S) :
  w <> [] -> Forall option_char w -> dequote_at (pre, w ++ r) (length w) s [] = Some (Some w, s, []).
Proof. intros Hne Hw. unfold dequote_at. cbn [fst snd]. rewrite (bind_some malloc _ s [] true s []) by done. by rewrite dequote_word. Qed.

(** An option word. *)
Definition dash (o : cstring) : cstring := "-"%char :: o.

Lemma dash_starts o : starts_word (dash o).
Proof. by exists "-"%char, o. Qed.

Lemma parse_option_run pre o ws ret (s : S) :
  option_word o -> Forall starts_word ws ->
  exists pre' p, parse_options (pre, unwords (dash o :: ws)) ret s [] = Some ((p, Some o), s, []) /\ skip p = (pre', unwords ws) /\
    (length pre' + length (unwords ws) = length pre + length (unwords (dash o :: ws)))%nat.
Proof.
  intros [Hne Ho] Hs. unfold parse_options. rewrite unwords_cons. cbn [fst snd hd_char head dash app default from_option].
  rewrite bool_decide_true by done. cbn [negb]. unfold advance at 1 2. cbn [fst snd take drop app].
  assert (forall B (k : nat -> M S B), (chunk (pre ++ ["-"%char], o ++ behind ws) false ≫= k) s [] = k (length o) s []) as Hc.
  { intros B k. unfold chunk. cbn [snd]. rewrite <- bind_bind. unfold chunklen. rewrite chunk_option by done. rewrite bind_from_some, bind_ret_l.
    unfold strlen. by rewrite Z.add_0_l, Nat2Z.id. }
  rewrite Hc, (bind_some _ _ _ _ _ _ _ (dequote_word_run (pre ++ ["-"%char]) o (behind ws) s Hne Ho)).
  destruct (skip_word (pre ++ ["-"%char]) o ws Hs) as (pre' & Hsk & Hlen).
  exists pre'. eexists. split; [done|]. rewrite unwords_cons in Hsk, Hlen. split; [done|].
  rewrite Hlen. cbn [length]. rewrite !length_app. cbn [length]. lia.
Qed.

(** Two lists of options: the second when it contains the first, else both. *)
Definition merged (g o : cstring) : cstring := if bool_decide (is_Some (strstr o g)) then o else g ++ str "," ++ o.

Lemma strstr_nil o : is_Some (strstr o []).
Proof. destruct o; cbn; eauto. Qed.

Lemma gather_run g o (s : S) : o <> [] -> gather (Some g) (Some o) s [] = Some (Some (Some (merged g o)), s, []).
Proof.
  intros Ho. unfold gather, has_str. rewrite bind_ret_l. unfold merged. case_bool_decide as E; [done|].
  unfold concat_options. destruct g as [|c g]; [by destruct E; apply strstr_nil|]. cbn [empty_opt].
  destruct o as [|d o]; [done|]. cbn [empty_opt default from_option]. done.
Qed.

Lemma mapent_options_run fuel : forall opts pre ws g (s : S),
  Forall option_word opts -> Forall starts_word ws -> hd_char (unwords ws) <> "-"%char -> (length opts <= fuel)%nat ->
  exists pre', mapent_options fuel (pre, unwords ((dash <$> opts) ++ ws)) (Some g) s []
    = Some (Some ((pre', unwords ws), Some (foldl merged g opts)), s, []) /\
    (length pre' + length (unwords ws) = length pre + length (unwords ((dash <$> opts) ++ ws)))%nat.
Proof.
  induction fuel as [|fuel IH]; intros opts pre ws g s Ho Hs Hh Hf.
  - destruct opts; [|cbn in Hf; lia]. exists pre. cbn [fmap list_fmap app foldl]. split; [|done]. cbn [mapent_options snd].
    rewrite bool_decide_false by done. done.
  - destruct opts as [|o opts].
    + exists pre. cbn [fmap list_fmap app foldl]. split; [|done]. cbn [mapent_options snd]. by rewrite bool_decide_false.
    + apply Forall_cons in Ho as [Ho Hos]. rewrite fmap_cons, <- app_comm_cons.
      assert (Forall starts_word ((dash <$> opts) ++ ws)) as Hs'.
      { apply Forall_app. split; [|done]. apply Forall_fmap, Forall_true. intros. apply dash_starts. }
      destruct (parse_option_run pre o ((dash <$> opts) ++ ws) None s Ho Hs') as (pre1 & p & Hrun & Hsk & Hl1).
      assert (hd_char (unwords (dash o :: (dash <$> opts) ++ ws)) = "-"%char) as Hd by (by rewrite unwords_cons).
      cbn [mapent_options snd]. rewrite Hd, bool_decide_true by done. cbn [negb]. rewrite (bind_some _ _ _ _ _ _ _ Hrun).
      rewrite (bind_some _ _ _ _ _ _ _ (gather_run g o s (proj1 Ho))). rewrite Hsk.
      destruct (IH opts pre1 ws (merged g o) s Hos Hs Hh ltac:(cbn in Hf; lia)) as (pre' & Hrun' & Hl). exists pre'. split; [done|]. lia.
Qed.

Lemma not_offset_location pre tok r : location tok -> not_offset (pre, tok ++ r) = true.
Proof.
  intros H. pose proof (location_chars tok H) as Hc. pose proof (location_ne tok H) as Hne. destruct H as (_ & H & _).
  destruct tok as [|c tok]; [done|]. cbn in H. unfold not_offset. cbn. apply Forall_cons in Hc as [[[Hq _] _] _].
  rewrite (bool_decide_false (c = QUOTE)), (bool_decide_false (c = "/"%char)) by (done || set_solver). done.
Qed.

(** The rest of the entry: nothing, or the next offset. *)
Definition next_offset (ws : list cstring) : Prop := match ws with [] => True | w :: _ => hd_char w = "/"%char end.

Lemma location_slash tok r : location tok -> (hd_char (tok ++ r) =a "/") = false.
Proof.
  intros H. pose proof (location_ne tok H). destruct H as (_ & H & _). destruct tok as [|c tok]; [done|]. cbn in H |- *.
  apply bool_decide_eq_false. set_solver.
Qed.

Lemma more_locations_run fuel : forall locs pre ws o loc (s : S),
  Forall location locs -> Forall starts_word ws -> next_offset ws -> (length locs <= fuel)%nat ->
  exists pre', more_locations fuel (pre, unwords (locs ++ ws)) o loc s []
    = Some (Some ((pre', unwords ws), loc ++ concat (map (fun l => str " " ++ l) locs)), s, []) /\
    (length pre' + length (unwords ws) = length pre + length (unwords (locs ++ ws)))%nat.
Proof.
  induction fuel as [|fuel IH]; intros locs pre ws o loc s Hlocs Hs Hn Hf.
  all: destruct locs as [|tok locs]; [|try (cbn in Hf; lia)].
  1,2: exists pre; cbn [app map concat]; rewrite app_nil_r; split; [|done]; cbn [more_locations snd];
    replace (_ || _) with true; [done|]; destruct ws as [|w ws]; [done|]; cbn in Hn; rewrite unwords_cons;
    inversion Hs as [|? ? (c & w' & -> & _)]; subst; cbn in Hn; subst c; unfold not_offset; cbn; by rewrite ?orb_true_r.
  apply Forall_cons in Hlocs as [Ht Hlocs]. rewrite <- app_comm_cons.
  assert (Forall starts_word (locs ++ ws)) as Hs'.
  { apply Forall_app. split; [|done]. eapply Forall_impl; [exact Hlocs|apply location_starts]. }
  destruct (skip_word pre tok (locs ++ ws) Hs') as (pre1 & Hsk & Hl1).
  cbn [more_locations snd]. rewrite unwords_cons in Hsk, Hl1 |- *. rewrite not_offset_location by done.
  rewrite bool_decide_false by (pose proof (location_ne tok Ht); by destruct tok). cbn [orb negb].
  rewrite (bind_some _ _ _ _ _ _ _ (chunk_location_run pre tok (locs ++ ws) s [] Ht)).
  rewrite (bind_some _ _ _ _ _ _ _ (dequote_word_run pre tok (behind (locs ++ ws)) s (location_ne _ Ht) (location_chars _ Ht))).
  rewrite location_slash by done. destruct Ht as (_ & _ & ->). cbn [negb]. rewrite (bind_some malloc _ s [] true s []) by done. cbn [negb].
  rewrite Hsk. destruct (IH locs pre1 ws o (loc ++ str " " ++ tok) s Hlocs Hs Hn ltac:(cbn in Hf; lia)) as (pre' & Hrun & Hl).
  exists pre'. split; [|lia]. rewrite Hrun. cbn [map concat]. by rewrite !app_assoc.
Qed.

Lemma unwords_concat tok locs : unwords (tok :: locs) = tok ++ concat (map (fun l => str " " ++ l) locs).
Proof.
  revert tok. induction locs as [|l locs IH]; intros tok; [cbn; by rewrite app_nil_r|].
  rewrite unwords_cons. unfold behind. rewrite IH. done.
Qed.

Lemma unwords_length w ws : (length w <= length (unwords (w :: ws)))%nat.
Proof. rewrite unwords_cons, length_app. lia. Qed.

Lemma words_fuel ws rest : Forall (fun w => w <> []) ws -> (length ws <= length (unwords (ws ++ rest)))%nat.
Proof.
  induction 1 as [|w ws Hw H IH]; [cbn; lia|]. rewrite <- app_comm_cons, unwords_cons, length_app. destruct w as [|c w]; [done|].
  cbn [length]. unfold behind. destruct (ws ++ rest) eqn:E; [destruct ws; [cbn; lia|done]|]. rewrite length_app. cbn [length str String.list_ascii_of_string]. lia.
Qed.

Lemma unwords_suffix l ws : exists x, unwords (l ++ ws) = x ++ unwords ws.
Proof.
  induction l as [|w l [x IH]]; [by exists []|]. rewrite <- app_comm_cons, unwords_cons. unfold behind.
  destruct (l ++ ws) eqn:E; [apply app_nil in E as [-> ->]; exists w; done|].
  rewrite IH. exists (w ++ str " " ++ x). by rewrite <- !app_assoc.
Qed.

(** The text that has been read is stepped over. *)
Lemma advance_words pre l ws :
  Forall starts_word ws ->
  exists pre', skip (advance (length (unwords (l ++ ws)) - length (unwords ws)) (pre, unwords (l ++ ws))) = (pre', unwords ws) /\
    (length pre' + length (unwords ws) = length pre + length (unwords (l ++ ws)))%nat.
Proof.
  intros Hs. destruct (unwords_suffix l ws) as [x Hx]. rewrite Hx, length_app, Nat.add_sub. unfold advance. cbn [fst snd].
  rewrite drop_app_length, take_app_length. exists (pre ++ x). rewrite skip_first by done. rewrite length_app. split; [done|]. lia.
Qed.

(** The options, the locations, and then the next offset or the end of the entry. *)
Lemma parse_mapent_run pre opts tok locs ws g (s : S) :
  Forall option_word opts -> location tok -> Forall location locs -> Forall starts_word ws -> next_offset ws ->
  let text := unwords ((dash <$> opts) ++ tok :: locs ++ ws) in
  exists n pre', parse_mapent (pre, text) (Some g) s [] = Some ((n, Some (foldl merged g opts), Some (unwords (tok :: locs))), s, []) /\
    n <> O /\ skip (advance n (pre, text)) = (pre', unwords ws) /\ (length pre' + length (unwords ws) = length pre + length text)%nat.
Proof.
  intros Ho Ht Hlocs Hs Hn text. unfold parse_mapent. rewrite bind_from_some, (bind_some malloc _ s [] true s []) by done. cbn [negb snd].
  assert (Forall starts_word (tok :: locs ++ ws)) as Hs1.
  { constructor; [by apply location_starts|]. apply Forall_app. split; [|done]. eapply Forall_impl; [exact Hlocs|apply location_starts]. }
  assert (hd_char (unwords (tok :: locs ++ ws)) <> "-"%char) as Hd.
  { rewrite unwords_cons. pose proof (location_ne tok Ht). destruct Ht as (_ & Hd & _). destruct tok; [done|]. cbn in Hd |- *. set_solver. }
  assert (length opts <= length text)%nat as Hf.
  { rewrite <- (length_fmap dash). apply words_fuel. apply Forall_fmap, Forall_true. done. }
  destruct (mapent_options_run (length text) opts pre (tok :: locs ++ ws) g s Ho Hs1 Hd Hf) as (pre1 & Hrun1 & Hl1).
  rewrite (bind_some _ _ _ _ _ _ _ Hrun1). cbn [snd fst].
  assert (Forall starts_word (locs ++ ws)) as Hs2 by (by apply Forall_cons in Hs1 as [_ ?]).
  destruct (skip_word pre1 tok (locs ++ ws) Hs2) as (pre2 & Hsk & Hl2).
  pose proof (words_fuel (tok :: locs) ws ltac:(constructor; [by apply location_ne|]; eapply Forall_impl; [exact Hlocs|apply location_ne])) as Hf2.
  rewrite <- app_comm_cons in Hf2. cbn [length] in Hf2.
  rewrite unwords_cons in Hsk |- *.
  rewrite (bind_some _ _ _ _ _ _ _ (chunk_location_run pre1 tok (locs ++ ws) s [] Ht)).
  rewrite (bind_some _ _ _ _ _ _ _ (dequote_word_run pre1 tok (behind (locs ++ ws)) s (location_ne _ Ht) (location_chars _ Ht))).
  rewrite location_slash by done. pose proof Ht as (_ & _ & ->). cbn [negb]. rewrite Hsk.
  rewrite unwords_cons in Hf2.
  destruct (more_locations_run (length (tok ++ behind (locs ++ ws))) locs pre2 ws (Some (foldl merged g opts)) tok s Hlocs Hs Hn ltac:(lia))
    as (pre3 & Hrun3 & Hl3).
  rewrite (bind_some _ _ _ _ _ _ _ Hrun3). cbn [snd fst].
  assert (text = unwords (((dash <$> opts) ++ tok :: locs) ++ ws)) as Et by (subst text; by rewrite <- app_assoc, <- app_comm_cons).
  destruct (advance_words pre ((dash <$> opts) ++ tok :: locs) ws Hs) as (pre' & Hadv & Hl'). rewrite <- Et in Hadv, Hl'.
  eexists _, pre'. rewrite unwords_concat. split; [reflexivity|]. split; [|done].
  destruct (unwords_suffix (dash <$> opts) (tok :: locs ++ ws)) as [x Hx]. fold text in Hx. rewrite unwords_cons in Hx.
  apply (f_equal length) in Hx. rewrite !length_app in Hx. pose proof (location_ne tok Ht). destruct tok as [|c tok]; [done|].
  unfold behind in Hx. destruct (unwords_suffix locs ws) as [y Hy]. apply (f_equal length) in Hy. rewrite length_app in Hy.
  destruct (locs ++ ws) eqn:E.
  - apply app_nil in E as [-> ->]. cbn in *. lia.
  - rewrite length_app in Hx. cbn [length] in Hx. lia.
Qed.
End Words.

(** ** The offsets of a multi-mount *)

Record offset := Offset { o_path : cstring; o_opts : list cstring; o_loc : cstring; o_more : list cstring }.

Definition offset_words (o : offset) : list cstring := o_path o :: (dash <$> o_opts o) ++ o_loc o :: o_more o.
Definition multi_words (l : list offset) : list cstring := l ≫= offset_words.

(** A path that is clean, and words that are read as they are. *)
Record offset_ok (o : offset) : Prop := {
  ok_path : hd_char (o_path o) = "/"%char /\ Forall option_char (o_path o) /\ Forall plain (o_path o) /\ collapse false (o_path o) = o_path o;
  ok_opts : Forall option_word (o_opts o);
  ok_loc : location (o_loc o);
  ok_more : Forall location (o_more o)
}.

Lemma span_word w ws : forall len maxlen,
  Forall option_char w -> len + strlen w < maxlen -> span_loop (w ++ behind ws) len maxlen false false = Some (len + strlen w).
Proof.
  induction w as [|c w IH]; intros len maxlen Hw Hl.
  - unfold strlen in *. cbn in *. destruct ws; cbn; [f_equal; lia|]. f_equal. lia.
  - apply Forall_cons in Hw as [[[Hq Hb] Hs] Hw]. cbn [app span_loop]. unfold strlen in *. cbn [length] in Hl |- *.
    assert (isblank c = false) as ->. { unfold is_ws, isblank in *. repeat case_bool_decide; boolify; try lia; done. }
    assert (len <? maxlen = true) as -> by (apply Z.ltb_lt; lia). cbn [negb orb].
    rewrite (bool_decide_false (c = QUOTE)), (bool_decide_false (c = BACKSLASH)) by done. rewrite IH; [f_equal; lia|done|lia].
Qed.

Lemma sanitize_word w r : Forall plain w -> collapse false w = w -> sanitize_path (w ++ r) (length w) LKP_MULTI true = Some (Some w).
Proof.
  intros Hp Hc. unfold sanitize_path. change (path_type_ok (w ++ r) LKP_MULTI) with true. cbn [negb].
  rewrite <- app_assoc, sanitize_loop_plain by done. by rewrite Hc.
Qed.

Lemma offset_path_run total pre w ws (s : sun_state) :
  hd_char w = "/"%char -> Forall option_char w -> Forall plain w -> collapse false w = w ->
  total = (length pre + length (unwords (w :: ws)))%nat ->
  offset_path (S total) (pre, unwords (w :: ws)) s [] = Some ((length w, Some w), s, []).
Proof.
  intros Hh Hw Hp Hc ->. unfold offset_path. destruct w as [|c w]; [done|]. cbn in Hh. subst c. rewrite unwords_cons.
  assert (not_offset (pre, ("/"%char :: w) ++ behind ws) = false) as -> by done. cbn [fst snd].
  unfold span_space. rewrite span_word by (done || (unfold strlen; rewrite length_app; lia)). rewrite bind_from_some.
  rewrite (bind_some malloc _ s [] true s []) by done. rewrite Z.add_0_l. unfold strlen. rewrite Nat2Z.id.
  rewrite sanitize_word by done. done.
Qed.

Lemma multi_starts l : Forall offset_ok l -> Forall starts_word (multi_words l) /\ next_offset (multi_words l).
Proof.
  induction 1 as [|o l [(Hh & Hw & _) Ho Hl Hm] H [IH1 IH2]]; [done|]. split.
  - unfold multi_words. rewrite bind_cons. apply Forall_app. split; [|done]. constructor.
    + apply word_starts; [by intros E; rewrite E in Hh|done|]. by rewrite Hh.
    + apply Forall_app. split; [apply Forall_fmap, Forall_true; intros; apply dash_starts|].
      constructor; [by apply location_starts|]. eapply Forall_impl; [exact Hm|apply location_starts].
  - cbn. done.
Qed.

(** What the loop does with an entry that is given by its words. *)
Fixpoint add_all (type : option cstring) (name m_root g : cstring) (age : Z) (l : list offset) (offsets : list addr) : SM (bool * list addr) :=
  match l with
  | [] => mret (true, offsets)
  | o :: l =>
      '(status, offsets) ← on_cache (update_offset_entry type offsets name m_root (o_path o) (foldl merged g (o_opts o))
          (Some (unwords (o_loc o :: o_more o))) age);
      if negb (status =? CHE_OK) then mret (false, offsets) else add_all type name m_root g age l offsets
  end.

Lemma on_cache_mem {A} (c : CM A) : mem_ok c -> mem_ok (on_cache c).
Proof.
  intros H s x s' m. unfold on_cache. destruct (c (x_mc s) []) as [[[y mc] m1]|] eqn:E; [|done]. apply H in E as ->. by intros [= _ _ <-].
Qed.

Lemma offsets_loop_run ap name m_root g age total l : forall fuel pre offsets s,
  l <> [] -> Forall offset_ok l -> (length l <= fuel)%nat -> total = (length pre + length (unwords (multi_words l)))%nat ->
  offsets_loop ap fuel (S total) name m_root (Some g) age (pre, unwords (multi_words l)) offsets s []
  = add_all (sp_type ap) name m_root g age l offsets s [].
Proof.
  induction l as [|o l IH]; intros fuel pre offsets s Hne Hl Hf Ht; [done|]. clear Hne.
  destruct fuel as [|fuel]; cbn in Hf; [lia|].
  pose proof Hl as [[(Hh & Hw & Hp & Hc) Ho Hloc Hmore] Hl']%Forall_cons.
  destruct (multi_starts l Hl') as [Hs Hn].
  assert (multi_words (o :: l) = o_path o :: (dash <$> o_opts o) ++ o_loc o :: o_more o ++ multi_words l) as Ew.
  { unfold multi_words. rewrite bind_cons. cbn. by rewrite <- app_assoc. }
  assert (Forall starts_word ((dash <$> o_opts o) ++ o_loc o :: o_more o ++ multi_words l)) as Hs1.
  { destruct (multi_starts (o :: l) Hl) as [H _]. rewrite Ew in H. by apply Forall_cons in H as [_ H]. }
  cbn [offsets_loop add_all]. rewrite Ew in Ht |- *.
  rewrite (bind_some _ _ _ _ _ _ _ (offset_path_run total pre (o_path o) _ s Hh Hw Hp Hc Ht)).
  destruct (skip_word pre (o_path o) _ Hs1) as (pre1 & -> & Hl1).
  destruct (parse_mapent_run pre1 (o_opts o) (o_loc o) (o_more o) (multi_words l) g s Ho Hloc Hmore Hs Hn) as (n & pre2 & Hrun & Hn0 & Hsk & Hl2).
  rewrite (bind_some _ _ _ _ _ _ _ Hrun). destruct (n =? 0)%nat eqn:En; [apply Nat.eqb_eq in En; lia|].
  rewrite Hsk, bind_from_some. unfold mbind, M_bind.
  destruct (on_cache _ s []) as [[[[status offs] s1] m1]|] eqn:Eu; [|done].
  apply (on_cache_mem _ (mem_update_offset_entry _ _ _ _ _ _ _ _)) in Eu as ->.
  destruct (negb (status =? CHE_OK)); [done|]. destruct l as [|o' l'].
  - done.
  - assert (not_offset (pre2, unwords (multi_words (o' :: l'))) = false) as ->.
    { unfold multi_words in Hn |- *. rewrite bind_cons in Hn |- *. cbn [offset_words app] in Hn |- *. rewrite unwords_cons. cbn in Hn. 
      destruct (o_path o') as [|c w]; [done|]. cbn in Hn. subst c. done. }
    apply IH; [done|done|lia|lia].
Qed.

(** C9. The entry of a multi-mount is read back from its words: for a list of offsets, each
    with its options and locations, the loop of [parse_mount] over the text of the entry
    calls [update_offset_entry] for exactly these offsets, in order, with the options of
    the map merged with those of the offset and with its locations, and stops at the
    first one that fails. *)
Theorem multi_mount_roundtrip ap name m_root g age l s :
  l <> [] -> Forall offset_ok l ->
  let text := unwords (multi_words l) in
  offsets_loop ap (length text) (S (length text)) name m_root (Some g) age ([], text) [] s []
  = add_all (sp_type ap) name m_root g age l [] s [].
Proof.
  intros Hne Hl text. apply offsets_loop_run; [done|done| |done].
  assert (Forall (fun w => w <> []) (o_path <$> l)) as Hp.
  { apply Forall_fmap. eapply Forall_impl; [exact Hl|]. intros o [(Hh & _) _ _ _] E. cbn in E. by rewrite E in Hh. }
  clear Hne. subst text. induction l as [|o l IH]; [cbn; lia|]. apply Forall_cons in Hl as [Ho Hl]. rewrite fmap_cons in Hp.
  apply Forall_cons in Hp as [Hp1 Hp]. unfold multi_words in *. rewrite bind_cons. destruct (unwords_suffix (offset_words o) (l ≫= offset_words)) as [x Hx].
  specialize (IH Hl Hp). cbn [length]. cbn [offset_words app]. rewrite unwords_cons, length_app.
  destruct (unwords_suffix ((dash <$> o_opts o) ++ o_loc o :: o_more o) (l ≫= offset_words)) as [y Hy].
  destruct (o_path o) as [|c w]; [done|]. unfold behind.
  destruct (((dash <$> o_opts o) ++ o_loc o :: o_more o) ++ (l ≫= offset_words)) eqn:E; [by destruct (o_opts o)|].
  rewrite Hy, length_app, length_app. cbn [length str String.list_ascii_of_string]. lia.
Qed.

Lemma multi_mount_roundtrip_witness :
  let l := [Offset (str "/a") [str "ro"; str "soft"] (str "srv:/a") []; Offset (str "/b/c") [] (str "h1:/b") [str "h2:/b"]] in
  let ap := SunPoint (str "/mnt") (Some (str "file")) 0 false in
  let text := unwords (multi_words l) in
  let s := Sun (MC 1 [None] [[]] ∅) ∅ [] [] [] in
  text = str "/a -ro -soft srv:/a /b/c h1:/b h2:/b" /\
  offsets_loop ap (length text) (S (length text)) (str "k") (str "/mnt/k") (Some (str "rw")) 1 ([], text) [] s []
  = add_all (Some (str "file")) (str "k") (str "/mnt/k") (str "rw") 1 l [] s [].
Proof.
  intros l ap text s. split; [vm_compute; reflexivity|].
  pose proof (multi_mount_roundtrip ap (str "k") (str "/mnt/k") (str "rw") 1 l s) as H. apply H; [done|].
  assert (forall host path tok, tok = host ++ str ":/" ++ path /\ Forall solid host /\ Forall solid path /\ hd_char tok ∉ ["#"; "-"; "/"]%char ->
    validate_location tok = true -> location tok) as Hloc.
  { intros host path tok (E & Hh & Hp & Hc) Hv. split; [exists host, path; by split_and!|by split]. }
  assert (location (str "srv:/a")) as L1 by (apply (Hloc (str "srv") (str "a")); [apply (bool_decide_unpack _); vm_compute; exact I|vm_compute; reflexivity]).
  assert (location (str "h1:/b")) as L2 by (apply (Hloc (str "h1") (str "b")); [apply (bool_decide_unpack _); vm_compute; exact I|vm_compute; reflexivity]).
  assert (location (str "h2:/b")) as L3 by (apply (Hloc (str "h2") (str "b")); [apply (bool_decide_unpack _); vm_compute; exact I|vm_compute; reflexivity]).
  assert (Forall plain (str "/a") /\ Forall plain (str "/b/c")) as [P1 P2] by (apply (bool_decide_unpack _); vm_compute; exact I).
  assert (Forall option_char (str "/a") /\ Forall option_char (str "/b/c") /\ Forall option_char (str "ro") /\ Forall option_char (str "soft"))
    as (O1 & O2 & O3 & O4) by (apply (bool_decide_unpack _); vm_compute; exact I).
  assert (option_word (str "ro") /\ option_word (str "soft")) as [W1 W2] by (split; (split; [discriminate|assumption])).
  clear H. apply Forall_cons. split; [split|apply Forall_cons; split; [split|apply Forall_nil, I]]; cbn [o_path o_opts o_loc o_more].
  - split_and!; [reflexivity|exact O1|exact P1|vm_compute; reflexivity].
  - exact (Forall_cons_2 _ _ _ W1 (Forall_cons_2 _ _ _ W2 (Forall_nil_2 _))).
  - exact L1.
  - apply Forall_nil_2.
  - split_and!; [reflexivity|exact O2|exact P2|vm_compute; reflexivity].
  - apply Forall_nil_2.
  - exact L2.
  - exact (Forall_cons_2 _ _ _ L3 (Forall_nil_2 _)).
Defined.
