(* ===== verification/SunSingle.v ===== *)
(** * Entries with locations only *)

From S2P Require Import Prelude CString Cache Macros CatPath Args Lexer LexerProps Replicated MountNfs Trees Offsets Master MemOk SunExpand SunParse SunEntry SunRound.
Open Scope Z_scope.

(** ** The expansion of words *)

Section Expand.
Context (svc : table) (key : cstring) (slash : bool) (sys : table).

(** A word that is its own expansion. *)
Definition fixed_word (w : cstring) : Prop :=
  exists seen, forall src out, expands svc key slash sys seen src out -> expands svc key slash sys false (w ++ src) (w ++ out).

Lemma literal_fixed w : Forall literal w -> fixed_word w.
Proof. intros H. exists false. intros src out He. by apply expands_literals. Qed.

Lemma location_fixed host path : Forall literal host -> Forall literal path -> fixed_word (host ++ str ":/" ++ path).
Proof.
  intros Hh Hp. exists true. intros src out He. rewrite <- !app_assoc. apply expands_literals; [done|].
  apply expands_colon; [done|]. apply expands_literal; [split; [split; [set_solver|done]|done]|]. by apply expands_literals.
Qed.

Lemma expands_blank seen src out :
  expands svc key slash sys false src out -> expands svc key slash sys seen (" "%char :: src) (" "%char :: out).
Proof.
  intros H fuel dst Hf m. destruct fuel as [|fuel]; cbn in Hf; [lia|]. cbn [sun_loop].
  rewrite !bool_decide_false by done. change (isspace " "%char) with true. cbv iota.
  rewrite (reads_bind _ _ _ _ _ (H fuel dst ltac:(lia))). unfold put, strlen. cbn [fst snd length].
  replace (Z.of_nat (S (length out))) with (1 + Z.of_nat (length out)) by lia. by destruct dst.
Qed.

Lemma unwords_fixed ws : Forall fixed_word ws -> expands svc key slash sys false (unwords ws) (unwords ws).
Proof.
  induction 1 as [|w ws [seen Hw] H IH]; [apply expands_nil|]. rewrite unwords_cons. apply Hw. unfold behind. destruct ws; [apply expands_nil|].
  by apply expands_blank.
Qed.
End Expand.

(** ** An entry that is not a multi-mount *)

Lemma skip_behind pre ws :
  Forall starts_word ws -> ws <> [] -> exists pre', skip (pre, behind ws) = (pre', unwords ws).
Proof.
  intros Hs Hne. destruct (skip_word pre [] ws Hs) as (pre' & H & _). rewrite unwords_cons in H. cbn [length app] in H.
  unfold advance at 1 in H. cbn [fst snd] in H. rewrite drop_0, take_0, app_nil_r in H. eauto.
Qed.

Section Words.
Context {S : Type}.

Lemma location_hd tok r : location tok -> hd_char (tok ++ r) ∉ ["/"; "-"; "034"]%char.
Proof.
  intros H. pose proof (location_chars tok H) as Hc. pose proof (location_ne tok H). destruct H as (_ & H & _).
  destruct tok as [|c tok]; [done|]. apply Forall_cons in Hc as [[[Hq _] _] _]. unfold QUOTE in Hq. cbn in H |- *. set_solver.
Qed.

(** One round at a location. *)
Lemma multi_round fuel p pre tok ws not_first (s : S) :
  location tok -> p.2 <> [] -> skip p = (pre, tok ++ behind ws) ->
  multi_loop (Datatypes.S fuel) p not_first s [] = multi_loop fuel (pre ++ tok, behind ws) true s [].
Proof.
  intros Ht Hp Hsk. pose proof (location_hd tok (behind ws) Ht) as Hh. cbn [multi_loop]. cbv zeta. rewrite Hsk. cbn [snd].
  rewrite (bool_decide_false (p.2 = [])) by done.
  rewrite (bool_decide_false (_ = QUOTE)) by (unfold QUOTE; set_solver). rewrite andb_false_r.
  rewrite (bool_decide_false (hd_char _ = "-"%char)) by set_solver. rewrite andb_false_r. cbn [snd].
  rewrite (bool_decide_false (hd_char _ = "/"%char)) by set_solver. rewrite andb_false_r.
  assert (forall n, skip_options n (pre, tok ++ behind ws) s [] = Some ((pre, tok ++ behind ws), s, [])) as Ho.
  { intros n. destruct n; cbn [skip_options snd]; rewrite (bool_decide_false (hd_char _ = "-"%char)) by set_solver; done. }
  rewrite (bind_some _ _ _ _ _ _ _ (Ho _)). cbn [snd].
  rewrite (bind_some _ _ _ _ _ _ _ (chunk_location_run pre tok ws s [] Ht)). unfold advance. cbn [fst snd].
  by rewrite drop_app_length, take_app_length.
Qed.

Lemma multi_none fuel : forall pre locs (s : S),
  Forall location locs -> (length locs < fuel)%nat -> multi_loop fuel (pre, behind locs) true s [] = Some (false, s, []).
Proof.
  induction fuel as [|fuel IH]; intros pre locs s Hl Hf; [lia|]. destruct locs as [|tok locs]; [done|].
  pose proof Hl as [Ht Hl']%Forall_cons. assert (Forall starts_word (tok :: locs)) as Hs by (eapply Forall_impl; [exact Hl|apply location_starts]).
  destruct (skip_behind pre (tok :: locs) Hs) as [pre' Hsk]; [done|]. rewrite unwords_cons in Hsk.
  rewrite (multi_round _ (pre, behind (tok :: locs)) pre' tok locs) by done. apply IH; [done|cbn in Hf; lia].
Qed.

Lemma check_is_multi_none pre tok locs (s : S) :
  location tok -> Forall location locs -> check_is_multi (pre, unwords (tok :: locs)) s [] = Some (false, s, []).
Proof.
  intros Ht Hl. unfold check_is_multi. cbn [snd]. rewrite unwords_cons. pose proof (location_hd tok (behind locs) Ht) as Hh.
  rewrite (bool_decide_false (_ = QUOTE)) by (unfold QUOTE; set_solver). cbn [snd]. rewrite (bool_decide_false (hd_char _ = "/"%char)) by set_solver.
  assert (Forall starts_word (tok :: locs)) as Hs.
  { constructor; [by apply location_starts|]. eapply Forall_impl; [exact Hl|apply location_starts]. }
  pose proof (words_fuel (tok :: locs) [] ltac:(constructor; [by apply location_ne|]; eapply Forall_impl; [exact Hl|apply location_ne])) as Hf.
  rewrite app_nil_r, unwords_cons in Hf. cbn [length] in Hf.
  replace (2 * length (tok ++ behind locs) + 2)%nat with (Datatypes.S (2 * length (tok ++ behind locs) + 1)) by lia.
  rewrite (multi_round _ _ pre tok locs); [|done|by pose proof (location_ne tok Ht); destruct tok|by rewrite <- unwords_cons, skip_first].
  apply multi_none; [done|]. lia.
Qed.
End Words.

Lemma entry_locations_run fuel : forall locs pre loc s,
  Forall location locs -> (length locs <= fuel)%nat ->
  entry_locations fuel (pre, unwords locs) loc s [] = Some (Some (loc ++ concat (map (fun l => str " " ++ l) locs)), s, []).
Proof.
  induction fuel as [|fuel IH]; intros locs pre loc s Hl Hf.
  all: destruct locs as [|tok locs]; [cbn; by rewrite app_nil_r|cbn in Hf; try lia].
  apply Forall_cons in Hl as [Ht Hl]. assert (Forall starts_word locs) as Hs by (eapply Forall_impl; [exact Hl|apply location_starts]).
  destruct (skip_word pre tok locs Hs) as (pre1 & Hsk & _). cbn [entry_locations snd]. rewrite unwords_cons in Hsk |- *.
  rewrite bool_decide_false by (pose proof (location_ne tok Ht); by destruct tok).
  rewrite (bind_some _ _ _ _ _ _ _ (chunk_location_run pre tok locs s [] Ht)).
  rewrite (bind_some _ _ _ _ _ _ _ (dequote_word_run pre tok (behind locs) s (location_ne _ Ht) (location_chars _ Ht))).
  pose proof Ht as (_ & _ & ->). cbn [negb]. rewrite (bind_some malloc _ s [] true s []) by done. cbn [negb]. rewrite Hsk, IH by (done || lia).
  cbn [map concat]. by rewrite !app_assoc.
Qed.

(** The options of an entry. *)
Definition entry_opts (opts : list cstring) : option cstring :=
  match opts with [] => None | o :: opts => Some (foldl merged o opts) end.

Lemma entry_options_run fuel : forall opts pre ws mo s,
  Forall option_word opts -> Forall starts_word ws -> hd_char (unwords ws) <> "-"%char -> (length opts <= fuel)%nat ->
  exists pre', entry_options fuel (pre, unwords ((dash <$> opts) ++ ws)) mo s []
    = Some (Some ((pre', unwords ws), match mo with None => entry_opts opts | Some g => Some (foldl merged g opts) end), s, []).
Proof.
  induction fuel as [|fuel IH]; intros opts pre ws mo s Ho Hs Hh Hf.
  all: destruct opts as [|o opts]; [exists pre; cbn [fmap list_fmap app entry_options snd]; rewrite bool_decide_false by done; by destruct mo|cbn in Hf; try lia].
  apply Forall_cons in Ho as [Ho Hos]. rewrite fmap_cons, <- app_comm_cons.
  assert (Forall starts_word ((dash <$> opts) ++ ws)) as Hs'.
  { apply Forall_app. split; [|done]. apply Forall_fmap, Forall_true. intros. apply dash_starts. }
  destruct (parse_option_run pre o ((dash <$> opts) ++ ws) None s Ho Hs') as (pre1 & p & Hrun & Hsk & _).
  assert (hd_char (unwords (dash o :: (dash <$> opts) ++ ws)) = "-"%char) as Hd by (by rewrite unwords_cons).
  cbn [entry_options snd]. rewrite Hd, bool_decide_true by done. cbn [negb]. rewrite (bind_some _ _ _ _ _ _ _ Hrun).
  destruct mo as [g|].
  - rewrite (bind_some _ _ _ _ _ _ _ (gather_run g o s (proj1 Ho))). rewrite Hsk.
    destruct (IH opts pre1 ws (Some (merged g o)) s Hos Hs Hh ltac:(lia)) as (pre' & Hrun'). by exists pre'.
  - destruct o as [|c o']; [by destruct Ho|]. cbn [concat_options empty_opt]. rewrite Hsk.
    destruct (IH opts pre1 ws (Some (c :: o')) s Hos Hs Hh ltac:(lia)) as (pre' & Hrun'). exists pre'. exact Hrun'.
Qed.

(** The options of the map and those of the entry. *)
Definition all_options (append : bool) (g : cstring) (opts : list cstring) : cstring :=
  match entry_opts opts with
  | None => g
  | Some o => if append then merged g o else o
  end.

Lemma merged_ne g o : o <> [] -> merged g o <> [].
Proof. intros Ho. unfold merged. case_bool_decide; [done|]. by destruct g. Qed.

Lemma foldl_merged_ne opts : forall g, g <> [] -> Forall option_word opts -> foldl merged g opts <> [].
Proof.
  induction opts as [|o opts IH]; intros g Hg Ho; [done|]. apply Forall_cons in Ho as [[Ho _] Hos]. cbn. apply IH; [|done]. by apply merged_ne.
Qed.

Lemma merge_opts_run append g o s : o <> [] ->
  merge_opts append (Some g) (Some o) s [] = Some (Some (Some (if append then merged g o else o)), s, []).
Proof. intros Ho. unfold merge_opts. destruct append; [|done]. by apply gather_run. Qed.

(** Words that the expansion leaves alone. *)
Definition fixed_location (l : cstring) : Prop :=
  exists host path, l = host ++ str ":/" ++ path /\ Forall literal host /\ Forall literal path /\
    hd_char l ∉ ["#"; "-"; "/"]%char /\ validate_location l = true.

Definition fixed_option (o : cstring) : Prop := o <> [] /\ Forall literal o.

Lemma fixed_location_location l : fixed_location l -> location l.
Proof. intros (host & path & -> & Hh & Hp & Hc & Hv). split; [|done]. exists host, path. split_and!; [done|by apply solids..]. Qed.

Lemma fixed_option_word o : fixed_option o -> option_word o.
Proof.
  intros [Hne Ho]. split; [done|]. eapply Forall_impl; [exact Ho|]. intros c [Hc _]. pose proof (solid_tests c Hc) as (H1 & H2 & _).
  apply bool_decide_eq_false in H1, H2. split; [by split|apply Hc].
Qed.

Lemma entry_fixed svc key slash sys opts locs :
  Forall fixed_option opts -> Forall fixed_location locs ->
  expands svc key slash sys false (unwords ((dash <$> opts) ++ locs)) (unwords ((dash <$> opts) ++ locs)).
Proof.
  intros Ho Hl. apply unwords_fixed, Forall_app. split.
  - apply Forall_fmap. eapply Forall_impl; [exact Ho|]. intros o [_ H]. apply literal_fixed. constructor; [|done].
    split_and!; [split; [set_solver|done]|done..].
  - eapply Forall_impl; [exact Hl|]. intros l (host & path & -> & Hh & Hp & _). by apply location_fixed.
Qed.

Section Single.
Context (tsv : option thread_stdenv_vars) (ap : sun_point) (ctxt : parse_context) (append : bool).
Context (mount : sun_call -> Z) (mount_offsets : addr -> Z) (name : cstring).

Lemma entry_text_ne opts locs : Forall fixed_location locs -> locs <> [] -> unwords ((dash <$> opts) ++ locs) <> [].
Proof.
  intros Hl Hne. destruct opts as [|o opts]; cbn [fmap list_fmap app]; [|by rewrite unwords_cons].
  destruct locs as [|l locs]; [done|]. apply Forall_cons in Hl as [Hl _]. apply fixed_location_location, location_ne in Hl.
  rewrite unwords_cons. by destruct l.
Qed.

Lemma expanded_fixed opts locs s t :
  hd_char name <> "/"%char -> Forall fixed_option opts -> Forall fixed_location locs -> locs <> [] ->
  addstdenv None tsv (x_subst s) None (x_sys s) [] = Some (t, x_sys s, []) ->
  let text := unwords ((dash <$> opts) ++ locs) in
  expanded None tsv ctxt name text s [] = Some (Some text, set_x_subst (removestdenv t None) s, []).
Proof.
  intros Hn Ho Hl Hne Ht text. unfold expanded. rewrite (bool_decide_false (hd_char name = "/"%char)) by done.
  rewrite bind_ret_l. rewrite (bind_some get_state _ s [] s s []) by done.
  rewrite (bind_some _ _ s [] t s []) by (unfold on_vars; rewrite Ht; by destruct s).
  rewrite (bind_some _ _ s [] (Some text) s []); [done|].
  unfold on_vars. rewrite (do_expandsunent_run _ _ _ _ _ text); [by destruct s|by apply entry_fixed|by apply entry_text_ne].
Qed.

Lemma mount_single_run pre o tok locs s :
  hd_char name <> "/"%char -> location tok -> Forall location locs -> strstr o (str "fstype=autofs") = None ->
  mount_single ap ctxt mount mount_offsets name (Some o) (pre, unwords (tok :: locs)) s []
  = sun_mount ap ctxt mount (if streq (sp_path ap) (str "/-") then name else sp_path ap) name (Some (unwords (tok :: locs))) (Some o) s [].
Proof.
  intros Hn Ht Hl Hf. unfold mount_single. rewrite (bool_decide_false (hd_char name = "/"%char)) by done. rewrite bind_ret_l. cbn [snd].
  assert (Forall starts_word locs) as Hs by (eapply Forall_impl; [exact Hl|apply location_starts]).
  destruct (skip_word pre tok locs Hs) as (pre1 & Hsk & _).
  pose proof (words_fuel (tok :: locs) [] ltac:(constructor; [by apply location_ne|]; eapply Forall_impl; [exact Hl|apply location_ne])) as Hfu.
  rewrite app_nil_r in Hfu. cbn [length] in Hfu. rewrite unwords_cons in Hsk, Hfu.
  rewrite unwords_cons.
  rewrite (bind_some _ _ _ _ _ _ _ (chunk_location_run pre tok locs s [] Ht)).
  rewrite (bind_some _ _ _ _ _ _ _ (dequote_word_run pre tok (behind locs) s (location_ne _ Ht) (location_chars _ Ht))).
  rewrite location_slash by done. pose proof Ht as (_ & _ & ->). cbn [negb]. rewrite Hsk.
  rewrite (bind_some _ _ _ _ _ _ _ (entry_locations_run (length (tok ++ behind locs)) locs pre1 tok s Hl ltac:(lia))).
  rewrite (bind_some (is_hosts (Some o)) _ s [] false s []) by (unfold is_hosts, has_str; rewrite bind_ret_l, bool_decide_false by (rewrite Hf; by intros []); done).
  cbn [negb andb]. rewrite bool_decide_false by (pose proof (location_ne _ Ht); by destruct tok). by rewrite <- unwords_concat, unwords_cons.
Qed.

End Single.


(** * The bounds of the options of a mount, and particular Sun map entries *)

(** ** The buffer of the options *)

(** The characters that a round can still write. *)
Definition room (comma : cstring) : nat := match comma with [] => O | _ => S (length (skip_commas comma)) end.

Lemma skip_commas_length s : (length (skip_commas s) <= length s)%nat.
Proof. induction s as [|c s IH]; cbn; [lia|]. case_bool_decide; cbn; lia. Qed.

Lemma room_le comma : (room comma <= S (length comma))%nat.
Proof. pose proof (skip_commas_length comma). destruct comma; cbn [room] in *; lia. Qed.

(** The text behind an option is empty, or begins with the comma. *)
Lemma room_rest cp : (room (drop (length (before cp ","%char)) cp) + length (before cp ","%char) <= length cp)%nat.
Proof.
  induction cp as [|c cp IH]; [cbn; lia|]. cbn [before]. destruct (decide (c = ","%char)) as [->|]; [|cbn [length drop]; lia].
  pose proof (skip_commas_length cp). cbn [length drop room skip_commas]. rewrite bool_decide_true by done. lia.
Qed.

Lemma sun_option_length cp tok term o : (length (so_out (sun_option cp tok term o)) <= length (so_out o) + S (length tok))%nat.
Proof.
  unfold sun_option. repeat case_match; cbn [so_out]; rewrite ?length_app; cbn [length]; lia.
Qed.

Lemma sun_opts_length fuel : forall comma o, (length (so_out (sun_opts_loop fuel comma o)) <= length (so_out o) + room comma)%nat.
Proof.
  induction fuel as [|fuel IH]; intros comma o; [cbn; lia|]. destruct comma as [|c comma]; [cbn; lia|].
  cbn [sun_opts_loop]. set (cp := skip_commas (c :: comma)). pose proof (room_rest cp).
  etransitivity; [apply IH|]. pose proof (sun_option_length cp (before cp ","%char) (hd_char (drop (length (before cp ","%char)) cp)) o).
  assert (room (c :: comma) = S (length cp)) by done. lia.
Qed.


(** ** Particular entries *)

Definition quote (s : cstring) : cstring := [QUOTE] ++ s ++ [QUOTE].

(** The options of the map are lost when their text happens to be inside of the options
    of the entry: here [ro] in [proto=tcp]. *)
Lemma map_options_lost :
  parse_mapent ([], str "-proto=tcp srv:/p") (Some (str "ro")) tt []
  = Some ((17%nat, Some (str "proto=tcp"), Some (str "srv:/p")), tt, []).
Proof. vm_compute. reflexivity. Qed.

(** A quoted second location with a blank is a valid entry, but [check_is_multi] steps over
    its opening quote, takes the closing one as an opening one and reads behind the end of
    the entry. *)
Lemma quoted_location_overrun :
  check_is_multi ([], str "srv:/a " ++ quote (str "srv2:/b c")) tt [] = None /\
  entry_locations 30 ([], quote (str "srv2:/b c")) (str "srv:/a") (Sun (MC 1 [None] [[]] ∅) ∅ [] [] []) []
  = Some (Some (str "srv:/a srv2:/b c"), Sun (MC 1 [None] [[]] ∅) ∅ [] [] [], []).
Proof. split; vm_compute; reflexivity. Qed.

(** With [append_options] off and options that are empty, the options are a null pointer,
    which is used. *)
Lemma empty_options_null :
  let s := Sun (MC 1 [None] [[]] ∅) ∅ [] [] [] in
  let ap := SunPoint (str "/mnt") (Some (str "file")) 0 false in
  let ctxt := Ctxt (Some (str "rw")) None [] true in
  parse_mount None None ap ctxt false (fun _ => 0) (fun _ => 0) (str "k") (Some (str "- srv:/p")) s [] = None /\
  parse_mount None None ap ctxt true (fun _ => 0) (fun _ => 0) (str "k") (Some (str "- srv:/p")) s [] <> None.
Proof. split; vm_compute; [reflexivity|discriminate]. Qed.

(** The macros of a map do not reach a submount whose only option is its type. *)
Lemma macros_not_passed :
  let ap := SunPoint (str "/mnt") (Some (str "file")) 0 false in
  let ctxt := Ctxt None (Some (str "-DA=1")) [] true in
  let calls options := option_map (fun r => m_options <$> x_calls (snd (fst r)))
    (sun_mount ap ctxt (fun _ => 0) (str "/mnt") (str "k") (Some (str "auto.sub")) (Some options) (Sun (MC 1 [None] [[]] ∅) ∅ [] [] []) []) in
  calls (str "fstype=autofs") = Some [Some []] /\
  calls (str "fstype=autofs,ro") = Some [Some (str "ro,-DA=1")].
Proof. split; vm_compute; reflexivity. Qed.
