(* ===== verification/FileRead.v ===== *)
(** * Reading a map file (modules/lookup_file.c: read_one)

    The reader of map files is an automaton that is given one character after the other,
    with a look at the next one at the end of a line. *)

From S2P Require Import Prelude CString Cache Trees Offsets.
Open Scope Z_scope.

Definition KEY_MAX_LEN : Z := 255.

(** ** Streams *)

(** An open file: the characters to come, whether the end is an error of the device, and
    the indicators of the stream. *)
Record file := File { f_text : list ascii; f_bad : bool; f_eof : bool; f_err : bool }.

Definition getc (f : file) : option ascii * file :=
  match f_text f with
  | c :: t => (Some c, File t (f_bad f) (f_eof f) (f_err f))
  | [] => (None, if f_bad f then File [] true (f_eof f) true else File [] false true (f_err f))
  end.

(** [ungetc] clears the end of file; it does nothing with [EOF]. *)
Definition ungetc (c : option ascii) (f : file) : file :=
  match c with
  | Some c => File (c :: f_text f) (f_bad f) false (f_err f)
  | None => f
  end.

(** ** The automaton *)

Inductive LOOKUP_STATE := st_begin | st_compare | st_star | st_badent | st_entspc | st_getent.
Inductive FOUND_STATE := got_nothing | got_star | got_real | got_plus.
Inductive ESCAPES := esc_none | esc_char | esc_val | esc_all.

#[export] Instance LOOKUP_STATE_eq : EqDecision LOOKUP_STATE.
Proof. solve_decision. Defined.
#[export] Instance FOUND_STATE_eq : EqDecision FOUND_STATE.
Proof. solve_decision. Defined.
#[export] Instance ESCAPES_eq : EqDecision ESCAPES.
Proof. solve_decision. Defined.

(** The variables of the function: [r_key] and [r_ent] are what was written to the buffers,
    so that [key_len] is the length of the former. *)
Record reader := Reader {
  r_state : LOOKUP_STATE;
  r_getting : FOUND_STATE;
  r_gotten : FOUND_STATE;
  r_escape : ESCAPES;
  r_key : list ascii;
  r_p : bool;
  r_ent : list ascii;
  r_len : Z
}.

Definition reader0 : reader := Reader st_begin got_nothing got_nothing esc_none [] false [] 0.

Definition to_state s r := Reader s (r_getting r) (r_gotten r) (r_escape r) (r_key r) (r_p r) (r_ent r) (r_len r).
Definition to_getting g r := Reader (r_state r) g (r_gotten r) (r_escape r) (r_key r) (r_p r) (r_ent r) (r_len r).
Definition to_gotten g r := Reader (r_state r) (r_getting r) g (r_escape r) (r_key r) (r_p r) (r_ent r) (r_len r).
Definition to_escape e r := Reader (r_state r) (r_getting r) (r_gotten r) e (r_key r) (r_p r) (r_ent r) (r_len r).
Definition add_key k r := Reader (r_state r) (r_getting r) (r_gotten r) (r_escape r) (r_key r ++ k) (r_p r) (r_ent r) (r_len r).
Definition new_ent e n r := Reader (r_state r) (r_getting r) (r_gotten r) (r_escape r) (r_key r) true e n.
Definition add_ent c r := Reader (r_state r) (r_getting r) (r_gotten r) (r_escape r) (r_key r) (r_p r) (r_ent r ++ [c]) (r_len r + 1).

(** The label [next]: everything but the state is reset. *)
Definition restart r := Reader (r_state r) got_nothing got_nothing esc_none [] false [] 0.

(** What a round ends with: the next round, the labels [got_it] and [next], or a write
    behind one of the buffers. *)
Inductive round := Next (r : reader) | GotIt (r : reader) | Drop (r : reader) | OverKey | OverEnt.

(** A round that has written to the buffers. *)
Definition fits (r : reader) (next : reader -> round) : round :=
  if KEY_MAX_LEN + 1 <? strlen (r_key r) then OverKey
  else if MAPENT_MAX_LEN + 1 <? strlen (r_ent r) then OverEnt
  else next r.

(** The first [switch]: [None] for a line that is continued. *)
Definition escape_step (e : ESCAPES) (ch : ascii) (f : file) : option ESCAPES * file :=
  match e with
  | esc_none =>
      if ch =a BACKSLASH then
        let '(nch, f) := getc f in
        if bool_decide (nch = Some NEWLINE) then (None, f) else (Some esc_char, ungetc nch f)
      else (Some (if ch =a QUOTE then esc_all else esc_none), f)
  | esc_char => (Some esc_val, f)
  | esc_val => (Some esc_none, f)
  | esc_all => (Some (if ch =a QUOTE then esc_none else esc_all), f)
  end.

Definition begin_step (r : reader) (ch : ascii) : round :=
  match r_escape r with
  | esc_none =>
      if isspace ch then Next r
      else if ch =a "#" then Next (to_state st_badent r)
      else if ch =a "*" then fits (add_key [ch] (to_state st_star r)) Next
      else
        let r := if ch =a "+" then to_gotten got_plus r else r in
        fits (add_key [ch] (to_state st_compare r)) Next
  | esc_all => fits (add_key [ch] (to_state st_compare r)) Next
  | esc_char => Next r
  | esc_val => Next (to_state st_badent r)
  end.

Definition compare_step (r : reader) (ch : ascii) : round :=
  if ch =a NEWLINE then
    let r := to_state st_begin r in
    if bool_decide (r_gotten r = got_plus) then GotIt r
    else if bool_decide (r_escape r = esc_all) then Drop r
    else if negb (bool_decide (r_escape r = esc_val)) then GotIt r
    else Next r
  else if isspace ch && bool_decide (r_escape r = esc_none) then
    let r := to_state st_entspc (to_getting got_real r) in
    if bool_decide (r_gotten r = got_plus) then GotIt r else Next r
  else if bool_decide (r_escape r = esc_char) then Next r
  else if strlen (r_key r) =? KEY_MAX_LEN then Next (to_gotten got_nothing (to_state st_badent r))
  else fits (add_key (if bool_decide (r_escape r = esc_val) then [BACKSLASH; ch] else [ch]) r) Next.

(** [gotten < got_star]. *)
Definition star_step (r : reader) (ch : ascii) : round :=
  if ch =a NEWLINE then Next (to_state st_begin r)
  else if isspace ch && bool_decide (r_gotten r = got_nothing) && bool_decide (r_escape r = esc_none) then
    Next (to_state st_entspc (to_getting got_star r))
  else if negb (bool_decide (r_escape r = esc_char)) then Next (to_state st_badent r)
  else Next r.

Definition is_found (r : reader) : bool := bool_decide (r_gotten r = got_real) || bool_decide (r_gotten r = r_getting r).

(** The next line belongs to this one when it begins with a blank. *)
Definition blank_next (f : file) : bool * file :=
  let '(nch, f) := getc f in
  (match nch with Some c => isblank c | None => false end, ungetc nch f).

Definition badent_step (r : reader) (ch : ascii) (f : file) : round * file :=
  if ch =a NEWLINE then
    let '(more, f) := blank_next f in
    if more then (Next r, f)
    else
      let r := to_state st_begin r in
      (if is_found r then GotIt r else Drop r, f)
  else (Next (if isblank ch then r else to_gotten got_nothing r), f).

Definition entspc_step (r : reader) (ch : ascii) : round :=
  if ch =a NEWLINE then Next (to_state st_begin r)
  else
    match r_escape r with
    | esc_none =>
        if isspace ch then Next r
        else fits (to_gotten (r_getting r) (to_state st_getent (new_ent [ch] 1 r))) Next
    | esc_char => Next r
    | e =>
        if uchar ch <=? 32 then Next (to_state st_badent (to_getting got_nothing r))
        else
          let ent := if bool_decide (e = esc_val) then [BACKSLASH; ch] else [ch] in
          fits (to_gotten (r_getting r) (to_state st_getent (new_ent ent (r_len r + strlen ent) r))) Next
    end.

Definition getent_step (r : reader) (ch : ascii) (f : file) : round * file :=
  if ch =a NEWLINE then
    if bool_decide (r_escape r = esc_all) then (Drop (to_state st_begin r), f)
    else
      let '(more, f) := blank_next f in
      if more then (Next (to_state st_badent r), f)
      else
        let r := to_state st_begin r in
        (if is_found r then GotIt r else Next r, f)
  else if r_len r <? MAPENT_MAX_LEN then
    let r := if r_p r then add_ent ch r else r in
    let '(nch, f) := getc f in
    (fits r (fun r => if bool_decide (nch = None) && is_found r then GotIt r else Next r), ungetc nch f)
  else (Next (to_state st_badent r), f).

Definition state_step (r : reader) (ch : ascii) (f : file) : round * file :=
  match r_state r with
  | st_begin => (begin_step r ch, f)
  | st_compare => (compare_step r ch, f)
  | st_star => (star_step r ch, f)
  | st_badent => badent_step r ch f
  | st_entspc => (entspc_step r ch, f)
  | st_getent => getent_step r ch f
  end.

(** A line of the map with the lengths that are returned, the end of the file, or a write
    behind a buffer. *)
Inductive line := Line (key ent : list ascii) (k_len m_len : Z) | NoLine | Overrun (ent : bool).

(** Each round consumes a character, so that the length of the text bounds the rounds. *)
Fixpoint read_rounds (fuel : nat) (r : reader) (f : file) : option (line * file) :=
  match fuel with
  | O => None
  | S fuel =>
      match getc f with
      | (None, f) => Some (NoLine, f)
      | (Some ch, f) =>
          match escape_step (r_escape r) ch f with
          | (None, f) => read_rounds fuel r f
          | (Some e, f) =>
              match state_step (to_escape e r) ch f with
              | (Next r, f) => read_rounds fuel r f
              | (GotIt r, f) =>
                  if bool_decide (r_gotten r = got_nothing) then read_rounds fuel (restart r) f
                  else Some (Line (r_key r) (r_ent r) (strlen (r_key r)) (r_len r), f)
              | (Drop r, f) => read_rounds fuel (restart r) f
              | (OverKey, f) => Some (Overrun false, f)
              | (OverEnt, f) => Some (Overrun true, f)
              end
          end
      end
  end.

Definition read_one (f : file) : option (line * file) := read_rounds (S (length (f_text f))) reader0 f.
