(* ===== verification/FileLookup.v ===== *)
(** * Lookups in map files (modules/lookup_file.c)

    The sources and their caches are those of the master map. What the rest of the daemon
    does when a map includes another one, the mounts of the parser and the files are
    arguments. *)

From S2P Require Import Prelude CString Memory Args Cache Trees Offsets CatPath Lexer Macros AmdExpand MapType MatchKey Replicated MountNfs Nsswitch Master FileRead.
Open Scope Z_scope.

Definition CHE_MISSING : Z := 0x8.
Definition CHE_COMPLETED : Z := 0x10.
Definition NSS_STATUS_COMPLETED : Z := NSS_STATUS_MAX.
Definition MAX_INCLUDE_DEPTH : Z := 16.

(** [struct lookup_context]; the parse module is an argument where it is used. *)
Record lookup_context := LookupContext { mapname : cstring; opts_argc : nat; opts_argv : vector; last_read : Z }.

(** What is used of the mount point; [fp_entry] is its entry of the master map. *)
Record file_point := FilePoint { fp_type : Z; fp_flags : Z; fp_pref : option cstring; fp_negative_timeout : Z; fp_entry : positive }.

Definition add_wild_of (ap : file_point) : bool := (fp_type ap =? LKP_INDIRECT) && (Z.land (fp_flags ap) MOUNT_FLAG_REMOUNT =? 0).

(** The GNU version of [basename]. *)
Definition basename (path : cstring) : cstring :=
  match strrchr path "/"%char with Some s => tail s | None => path end.

(** The strings in the buffers. A key that fills its buffer has no NUL behind it. *)
Definition key_string (key : list ascii) : option cstring :=
  if (KEY_MAX_LEN <? strlen key) && negb (bool_decide (NUL ∈ key)) then None else Some (before key NUL).

Definition ent_string (ent : list ascii) : cstring := before ent NUL.

(** An operation of the cache of a source. *)
Definition on_source {A} (source : positive) (c : CM A) : MM A :=
  s ← load (HH := src_heap) source;
  mc ← from_option_M (s_mc s);
  with_mc mc c.

Definition is_amd (s : map_source) : bool := negb (Z.land (s_flags s) MAP_FLAG_FORMAT_AMD =? 0).

(** [read_one] on the file [f]; a write behind a buffer leaves the model. *)
Definition read_entry (f : file) : MM (option (list ascii * list ascii) * file) :=
  r ← from_option_M (read_one f);
  match r with
  | (Line key ent _ _, f) => mret (Some (key, ent), f)
  | (NoLine, f) => mret (None, f)
  | (Overrun _, _) => stuck
  end.

Definition sanitize_key (key : list ascii) (type : Z) : MM (option cstring) :=
  if negb (path_type_ok (before key NUL) type) then mret None
  else
    ok ← malloc;
    from_option_M (sanitize_path key (length key) 0 ok).

(** ** The module *)

(** The context of a map: [readable] is the test of [access], [parse] whether the parse
    module could be opened or given its new options. *)
Definition file_init (readable : cstring -> bool) (parse : bool) (argv : list cstring) : MM (option lookup_context) :=
  match argv with
  | [] => mret None
  | name :: opts =>
      if negb (hd_char name =a "/") then mret None
      else if negb (readable name) then mret None
      else
        v ← copy_argv (length opts) (argvec (Some <$> opts));
        match v with
        | None => mret None
        | Some v => if parse then mret (Some (LookupContext name (length opts) v 0)) else free_argv (length opts) v;; mret None
        end
  end.

Definition lookup_init (readable : cstring -> bool) (parse : bool) (argv : list cstring) : MM (option lookup_context) :=
  ok ← malloc;
  if negb ok then mret None else file_init readable parse argv.

(** The context is replaced when there is a new one. *)
Definition lookup_reinit (readable : cstring -> bool) (parse : bool) (argv : list cstring) (ctxt : lookup_context) : MM (Z * lookup_context) :=
  ok ← malloc;
  if negb ok then mret (1, ctxt) else
  new ← file_init readable parse argv;
  match new with
  | None => mret (1, ctxt)
  | Some new => free_argv (opts_argc ctxt) (opts_argv ctxt);; mret (0, new)
  end.

Definition lookup_done (close : Z) (ctxt : lookup_context) : MM Z :=
  free_argv (opts_argc ctxt) (opts_argv ctxt);; mret close.

(** ** Included maps *)

Definition same_base (path1 path2 : cstring) : MM bool :=
  ok ← malloc;
  if negb ok then mret false else
  ok ← malloc;
  if negb ok then mret false else mret (streq (basename path1) (basename path2)).

Definition check_master_self_include (name : cstring) (ctxt : lookup_context) : MM bool :=
  if hd_char name =a "/" then mret (streq name (mapname ctxt)) else same_base (mapname ctxt) name.

(** [key] has a plus in front. *)
Definition check_self_include (key : cstring) (ctxt : lookup_context) : MM bool :=
  if hd_char (tail key) =a "/" then mret (streq (tail key) (mapname ctxt)) else same_base (tail key) (mapname ctxt).

Definition map_info (buf : cstring) : MM (option map_type_info) :=
  ok ← malloc;
  if negb ok then mret None else
  ok ← malloc;
  if negb ok then mret None else from_option_M (parse_map_type_info buf).

Definition prepare_plus_include (source : positive) (age : Z) (key : cstring) (inc : bool) (ctxt : lookup_context) : MM (option positive) :=
  ok ← malloc;
  if negb ok then mret None else
  info ← map_info (tail key);
  match info with
  | None => mret None
  | Some info =>
      tmp_argv ← copy_argv 1 (argvec [i_map info]);
      match tmp_argv with
      | None => mret None
      | Some tmp_argv =>
          tmp_opts ← copy_argv (opts_argc ctxt) (opts_argv ctxt);
          match tmp_opts with
          | None => free_argv 1 tmp_argv;; mret None
          | Some tmp_opts =>
              argv ← append_argv 1 tmp_argv (opts_argc ctxt) tmp_opts;
              match argv with
              | None => mret None
              | Some argv =>
                  let argc := (1 + opts_argc ctxt)%nat in
                  new ← master_find_source_instance source (i_type info) (i_format info) (Some (argc, argv));
                  new ← match new with
                        | Some a => update (HH := src_heap) a (fun s => set_s_stale true (set_s_age age s));; mret (Some a)
                        | None => master_add_source_instance source (i_type info) (i_format info) age argc argv
                        end;
                  free_argv argc argv;;
                  match new with
                  | None => mret None
                  | Some a =>
                      s ← load (HH := src_heap) source;
                      update (HH := src_heap) a (fun n => set_s_depth (s_depth s + 1) (s_recurse n || inc) n);;
                      mret (Some a)
                  end
              end
          end
      end
  end.

(** ** The master map *)

Section ReadMaster.
Context (fs : cstring -> file + bool) (ctxt : lookup_context).

(** [nss_read_master name recurse depth] is [lookup_nss_read_master], and [parse_entry]
    the parser of a line of the master map. *)
Context (nss_read_master : cstring -> bool -> Z -> MM Z) (parse_entry : cstring -> MM unit).

Fixpoint master_loop (fuel : nat) (depth : Z) (f : file) : MM Z :=
  match fuel with
  | O => stuck
  | S fuel =>
      '(entry, f) ← read_entry f;
      match entry with
      | None => if f_eof f || f_err f then mret NSS_STATUS_SUCCESS else master_loop fuel depth f
      | Some (path, ent) =>
          path ← from_option_M (key_string path);
          done ← (if hd_char path =a "+" then
                    inc ← check_master_self_include (tail path) ctxt;
                    status ← nss_read_master (tail path) inc (depth + 1);
                    (if status =? NSS_STATUS_UNAVAIL then modify (set_read_fail true) else mret ());;
                    mret true
                  else
                    ok ← malloc;
                    if negb ok then mret false
                    else parse_entry (path ++ str " " ++ ent_string ent);; mret true);
          if negb done then mret NSS_STATUS_UNKNOWN
          else if f_eof f then mret NSS_STATUS_SUCCESS else master_loop fuel depth f
      end
  end.

Definition lookup_read_master (recurse : bool) (depth : Z) : MM Z :=
  if recurse then mret NSS_STATUS_TRYAGAIN
  else if MAX_INCLUDE_DEPTH <? depth then mret NSS_STATUS_UNKNOWN
  else
    match fs (mapname ctxt) with
    | inr enoent => mret (if (enoent : bool) then NSS_STATUS_NOTFOUND else NSS_STATUS_UNKNOWN)
    | inl f => master_loop (S (length (f_text f))) depth f
    end.

End ReadMaster.

(** ** A map *)

Section Map.
Context (fs : cstring -> file + bool) (now : Z) (ap : file_point) (source : positive).

(** The key of a line as it is entered: [None] when the line is passed over. *)
Definition line_key (amd : bool) (key : list ascii) : MM (option cstring) := sanitize_key key (if amd then 0 else fp_type ap).

Section Read.
Context (age : Z) (ctxt : lookup_context) (nss_read_map : positive -> MM Z).

(** A line of the map: whether the end of the file is looked for behind it. *)
Definition read_line (key ent : list ascii) : MM bool :=
  name ← from_option_M (key_string key);
  if hd_char name =a "+" then
    inc ← check_self_include name ctxt;
    inc_source ← prepare_plus_include source age name inc ctxt;
    match inc_source with
    | None => mret false
    | Some a => _ ← nss_read_map a; mret true
    end
  else
    s ← load (HH := src_heap) source;
    if is_amd s && streq name (str "/defaults") then
      _ ← on_source source (cache_update source name (Some (ent_string ent)) age); mret false
    else
      s_key ← line_key (is_amd s) key;
      match s_key with
      | None => mret false
      | Some s_key => _ ← on_source source (cache_update source s_key (Some (ent_string ent)) age); mret true
      end.

Fixpoint read_map_loop (fuel : nat) (f : file) : MM unit :=
  match fuel with
  | O => stuck
  | S fuel =>
      '(entry, f) ← read_entry f;
      match entry with
      | None => if f_eof f || f_err f then mret () else read_map_loop fuel f
      | Some (key, ent) =>
          look ← read_line key ent;
          if look && f_eof f then mret () else read_map_loop fuel f
      end
  end.

(** The status, and the time of the last read. *)
Definition lookup_read_map : MM (Z * Z) :=
  s ← load (HH := src_heap) source;
  if s_recurse s then mret (NSS_STATUS_TRYAGAIN, last_read ctxt)
  else if MAX_INCLUDE_DEPTH <? s_depth s then mret (NSS_STATUS_UNKNOWN, last_read ctxt)
  else
    match fs (mapname ctxt) with
    | inr enoent => mret (if (enoent : bool) then NSS_STATUS_NOTFOUND else NSS_STATUS_UNKNOWN, last_read ctxt)
    | inl f =>
        read_map_loop (S (length (f_text f))) f;;
        update (HH := src_heap) source (set_s_age age);;
        mret (NSS_STATUS_SUCCESS, now)
    end.

End Read.

(** ** Lookups *)

(** The directories above a key against an entry that ends in a wildcard. An entry that
    is the directory makes the code read behind its NUL. *)
Fixpoint match_wild (fuel : nat) (map_key lkp_key mapent : cstring) : MM Z :=
  match cut_last_slash lkp_key with
  | None => mret CHE_FAIL
  | Some prefix =>
      match fuel with
      | O => stuck
      | S fuel =>
          let len := length prefix in
          if strneq map_key prefix len && bool_decide (length map_key = len) then stuck
          else if strneq map_key prefix len && (hd_char (drop (len + 1) map_key) =a "*") then
            on_source source (cache_update source map_key (Some mapent) now)
          else match_wild fuel map_key prefix mapent
      end
  end.

Definition match_key (map_key key mapent : cstring) : MM Z :=
  if streq map_key key then on_source source (cache_update source key (Some mapent) now)
  else
    s ← load (HH := src_heap) source;
    if negb (is_amd s) then mret CHE_FAIL
    else
      ok ← malloc;
      if negb ok then mret CHE_FAIL
      else if strlen key + 2 <? strlen map_key then mret CHE_FAIL
      else match_wild (length key) map_key key mapent.

Context (ctxt : lookup_context) (nss_mount : positive -> cstring -> MM Z).

(** A line in a lookup of [key]: the result, or whether the end is looked for. *)
Definition lookup_line (key : cstring) (mkey ent : list ascii) : MM (Z + bool) :=
  name ← from_option_M (key_string mkey);
  if hd_char name =a "+" then
    inc ← check_self_include name ctxt;
    inc_source ← prepare_plus_include source now name inc ctxt;
    match inc_source with
    | None => mret (inr false)
    | Some a =>
        status ← nss_mount a key;
        mret (if status =? 0 then inr true else inl CHE_COMPLETED)
    end
  else
    s ← load (HH := src_heap) source;
    if is_amd s && streq name (str "/defaults") then
      _ ← on_source source (cache_update source name (Some (ent_string ent)) now); mret (inr false)
    else
      s_key ← line_key (is_amd s) mkey;
      match s_key with
      | None => mret (inr false)
      | Some s_key =>
          if negb (is_amd s) && negb (strlen key =? strlen s_key) then mret (inr false)
          else
            ret ← match_key s_key key (ent_string ent);
            mret (if ret =? CHE_FAIL then inr false else inl ret)
      end.

Fixpoint file_lookup_loop (fuel : nat) (key : cstring) (f : file) : MM Z :=
  match fuel with
  | O => stuck
  | S fuel =>
      '(entry, f) ← read_entry f;
      r ← match entry with
          | None => mret (inr true)
          | Some (mkey, ent) => lookup_line key mkey ent
          end;
      match r with
      | inl ret => mret ret
      | inr look => if look && (f_eof f || f_err f) then mret CHE_MISSING else file_lookup_loop fuel key f
      end
  end.

Definition lookup_one (key : cstring) : MM Z :=
  match fs (mapname ctxt) with
  | inr _ => mret CHE_FAIL
  | inl f => file_lookup_loop (S (length (f_text f))) key f
  end.

Fixpoint wild_lines (fuel : nat) (f : file) : MM Z :=
  match fuel with
  | O => stuck
  | S fuel =>
      '(entry, f) ← read_entry f;
      match entry with
      | Some (mkey, ent) =>
          if bool_decide (mkey = STAR) then on_source source (cache_update source STAR (Some (ent_string ent)) now)
          else wild_lines fuel f
      | None => if f_eof f || f_err f then mret CHE_MISSING else wild_lines fuel f
      end
  end.

Definition lookup_wild : MM Z :=
  match fs (mapname ctxt) with
  | inr _ => mret CHE_FAIL
  | inl f => wild_lines (S (length (f_text f))) f
  end.

Definition has_bits (ret bits : Z) : bool := negb (Z.land ret bits =? 0).

(** An entry of this source that is not in the map any more loses its contents. *)
Definition forget_entry (key : cstring) (ret : Z) (amd : bool) : CM unit :=
  exists_ ← (if amd then match_cached_key true (add_wild_of ap) now source key else cache_lookup_distinct (Some key));
  match exists_ with
  | None => mret ()
  | Some a =>
      e ← deref a;
      if bool_decide (me_source e = source) && has_bits ret CHE_MISSING then
        match me_mapent e with
        | Some _ => store a (fun e => set_status (set_mapent e None) 0)
        | None => mret ()
        end
      else mret ()
  end.

Definition forget_wild (wild : Z) : CM unit :=
  we ← cache_lookup_distinct (Some STAR);
  match we with
  | None => mret ()
  | Some a =>
      e ← deref a;
      if bool_decide (me_source e = source) && has_bits wild CHE_MISSING then _ ← cache_delete STAR; mret () else mret ()
  end.

Definition check_map_indirect (key : cstring) : MM Z :=
  ret ← lookup_one key;
  if ret =? CHE_COMPLETED then mret NSS_STATUS_COMPLETED
  else if ret =? CHE_FAIL then mret NSS_STATUS_NOTFOUND
  else
    s ← load (HH := src_heap) source;
    on_source source (forget_entry key ret (is_amd s));;
    if negb (ret =? CHE_MISSING) then mret NSS_STATUS_SUCCESS
    else
      wild ← lookup_wild;
      on_source source (forget_wild wild);;
      mret (if has_bits wild (Z.lor CHE_OK CHE_UPDATED) then NSS_STATUS_SUCCESS else NSS_STATUS_NOTFOUND).

(** [mtime] is the time of the last change of the file, when there is one. *)
Definition map_update_needed (mtime : option Z) : MM Z :=
  match mtime with
  | None => mret (-1)
  | Some t =>
      if t <=? last_read ctxt then
        s ← load (HH := src_heap) source;
        let multi := match s_type s with Some t => streq t (str "multi") | None => true end in
        mret (if bool_decide (s_instance s = None) && negb multi then 0 else 1)
      else update (HH := src_heap) source (set_s_stale true);; mret 1
  end.

(** [lookup_source_mapent]: the cache and the entry in it. *)
Fixpoint source_mapent (fuel : nat) (map : ptr) (key : cstring) (distinct : bool) : MM (option (positive * addr)) :=
  match map with
  | None => mret None
  | Some a =>
      match fuel with
      | O => stuck
      | S fuel =>
          s ← load (HH := src_heap) a;
          mc ← from_option_M (s_mc s);
          me ← with_mc mc (if distinct then cache_lookup_distinct (Some key) else cache_lookup (Some key));
          match me with
          | Some me => mret (Some (mc, me))
          | None => source_mapent fuel (s_next s) key distinct
          end
      end
  end.

Definition lookup_source_mapent (key : cstring) (distinct : bool) : MM (option (positive * addr)) :=
  e ← load (HH := ent_heap) (fp_entry ap);
  fuel ← src_fuel;
  source_mapent fuel (ent_maps e) key distinct.

(** The key with the prefix of the mount point; [None] without memory. *)
Definition prefixed (key : cstring) : MM (option cstring) :=
  ok ← malloc;
  mret (if (ok : bool) then Some (default [] (fp_pref ap) ++ key) else None).

(** The key that is looked up in the file. *)
Definition file_key (key : cstring) : MM (option cstring) :=
  root ← on_source source (
    me ← cache_lookup_distinct (Some key);
    match me with
    | None => mret None
    | Some a =>
        e ← deref a;
        match me_mm_root e with
        | Some r => re ← deref r; mret (Some (me_key re))
        | None => mret None
        end
    end);
  match root with
  | Some k => ok ← malloc; mret (if (ok : bool) then Some k else None)
  | None => prefixed key
  end.

(** [expand] is the key of an amd map with its variables replaced. *)
Context (mtime : option Z) (expand : cstring -> MM cstring) (parse_mount : cstring -> cstring -> MM Z).

(** The entry in the cache: whether there is one, and what it says. *)
Definition cached_entry (lkp_key : cstring) : MM (bool * option cstring) :=
  s ← load (HH := src_heap) source;
  on_source source (
    me ← match_cached_key (is_amd s) (add_wild_of ap) now source lkp_key;
    match me with
    | None => mret (false, None)
    | Some a =>
        e ← deref a;
        mret (true, if bool_decide (me_source e = source) || (hd_char (me_key e) =a "/") then me_mapent e else None)
    end).

(** The entry is mounted; a failure is remembered. *)
Definition mount_cached (key : cstring) : MM Z :=
  lkp_key ← prefixed key;
  match lkp_key with
  | None => mret NSS_STATUS_UNKNOWN
  | Some lkp_key =>
      r ← cached_entry lkp_key;
      match r with
      | (false, _) => mret NSS_STATUS_NOTFOUND
      | (true, None) => mret NSS_STATUS_TRYAGAIN
      | (true, Some mapent) =>
          if MAPENT_MAX_LEN <? strlen mapent then stuck
          else
            ret ← parse_mount key mapent;
            if ret =? 0 then mret NSS_STATUS_SUCCESS
            else
              (if Z.land (fp_flags ap) MOUNT_FLAG_REMOUNT =? 0 then
                 on_source source (cache_update_negative now source key (fp_negative_timeout ap))
               else mret ());;
              mret NSS_STATUS_TRYAGAIN
      end
  end.

(** The file is read when it can have changed: the status when there is nothing to mount. *)
Definition update_from_file (key : cstring) : MM (option Z) :=
  if (fp_type ap =? LKP_INDIRECT) && negb (hd_char key =a "/") then
    ret ← map_update_needed mtime;
    if ret <=? 0 then mret None
    else
      lkp_key ← file_key key;
      match lkp_key with
      | None => mret (Some NSS_STATUS_UNKNOWN)
      | Some lkp_key =>
          status ← check_map_indirect lkp_key;
          mret (if status =? 0 then None
                else if status =? NSS_STATUS_COMPLETED then Some NSS_STATUS_SUCCESS else Some NSS_STATUS_NOTFOUND)
      end
  else mret None.

Definition lookup_mount (name : cstring) : MM Z :=
  s ← load (HH := src_heap) source;
  if s_recurse s then mret NSS_STATUS_UNAVAIL
  else if MAX_INCLUDE_DEPTH <? s_depth s then mret NSS_STATUS_SUCCESS
  else
    key ← (if is_amd s then expand name else mret name);
    if KEY_MAX_LEN <? strlen key then mret NSS_STATUS_NOTFOUND
    else
      me ← lookup_source_mapent key true;
      neg ← match me with
            | None => mret CHE_OK
            | Some (mc, a) => with_mc mc (cache_lookup_negative now (mret ()) a key)
            end;
      if neg =? CHE_UNAVAIL then mret NSS_STATUS_NOTFOUND
      else
        r ← update_from_file key;
        match r with
        | Some status => mret status
        | None => mount_cached key
        end.

End Map.
