(* ===== verification/FileProps.v ===== *)
(** * What the reader of map files returns *)

From S2P Require Import Prelude CString Cache Trees Offsets FileRead.
Open Scope Z_scope.

(** ** The rounds end, and entries fit their buffer *)

(** The entry is only written from the state [st_entspc] on, where it was found. *)
Record reader_ok (r : reader) : Prop := {
  ok_len : r_len r = strlen (r_ent r);
  ok_max : strlen (r_ent r) <= MAPENT_MAX_LEN;
  ok_empty : r_state r ∈ [st_begin; st_compare; st_star; st_entspc] -> r_ent r = [];
  ok_found : r_state r = st_getent -> r_gotten r = r_getting r
}.

Definition round_ok (x : round) : Prop :=
  match x with
  | Next r => reader_ok r
  | GotIt r => r_len r = strlen (r_ent r) /\ strlen (r_ent r) <= MAPENT_MAX_LEN
  | Drop _ | OverKey => True
  | OverEnt => False
  end.

Lemma restart_ok r : reader_ok (restart r).
Proof. by constructor. Qed.

Lemma fits_ok r next : strlen (r_ent r) <= MAPENT_MAX_LEN -> round_ok (next r) -> round_ok (fits r next).
Proof.
  intros Hm Hn. unfold fits. destruct (_ <? strlen (r_key r)); [done|].
  destruct (Z.ltb_spec (MAPENT_MAX_LEN + 1) (strlen (r_ent r))); [lia|done].
Qed.

Ltac reader_case r H :=
  destruct r as [st gt gn es key p ent len]; destruct H as [Hl Hm He Hf]; cbn in *.

Lemma begin_step_ok r ch : reader_ok r -> r_state r = st_begin -> round_ok (begin_step r ch).
Proof.
  intros H E. reader_case r H. subst st. rewrite He in * by set_solver. subst len. unfold begin_step. cbn [r_escape].
  repeat case_match; try apply fits_ok; cbn; try done; constructor; cbn; done.
Qed.

Lemma compare_step_ok r ch : reader_ok r -> r_state r = st_compare -> round_ok (compare_step r ch).
Proof.
  intros H E. reader_case r H. subst st. rewrite He in * by set_solver. subst len. unfold compare_step. cbn.
  repeat case_match; try apply fits_ok; cbn; try done; constructor; cbn; done.
Qed.

Lemma star_step_ok r ch : reader_ok r -> r_state r = st_star -> round_ok (star_step r ch).
Proof.
  intros H E. reader_case r H. subst st. rewrite He in * by set_solver. subst len. unfold star_step. cbn.
  repeat case_match; cbn; try done; constructor; cbn; done.
Qed.

Lemma badent_step_ok r ch f : reader_ok r -> r_state r = st_badent -> round_ok (badent_step r ch f).1.
Proof.
  intros H E. reader_case r H. subst st. unfold badent_step. destruct (blank_next f) as [more f'].
  repeat case_match; cbn; try done; constructor; cbn; try done; set_solver.
Qed.

Lemma entspc_step_ok r ch : reader_ok r -> r_state r = st_entspc -> round_ok (entspc_step r ch).
Proof.
  intros H E. reader_case r H. subst st. rewrite He in * by set_solver. subst len. unfold entspc_step. cbn.
  repeat case_match; try apply fits_ok; cbn; unfold strlen; cbn; try done; constructor; cbn; try done; set_solver.
Qed.

Lemma getent_step_ok r ch f : reader_ok r -> r_state r = st_getent -> round_ok (getent_step r ch f).1.
Proof.
  intros H E. reader_case r H. subst st. specialize (Hf eq_refl). subst gn len. unfold getent_step, is_found. cbn. destruct (blank_next f) as [more f'].
  rewrite !(bool_decide_true (gt = gt)) by done. rewrite !orb_true_r. cbn.
  destruct (ch =a NEWLINE); [repeat case_match; cbn; try done; constructor; cbn; try done; set_solver|].
  destruct (Z.ltb_spec (strlen ent) MAPENT_MAX_LEN); [|constructor; cbn; try done; set_solver].
  destruct (getc f) as [nch f'']. cbn [fst]. assert (forall c, strlen (ent ++ [c]) = strlen ent + 1) as Hs.
  { intros c. unfold strlen. rewrite length_app. cbn. lia. }
  destruct p; apply fits_ok; cbn; rewrite ?Hs; try lia; rewrite !(bool_decide_true (gt = gt)), orb_true_r, andb_true_r by done;
    case_bool_decide; cbn; rewrite ?Hs; try lia; constructor; cbn; rewrite ?Hs; try lia; try done; set_solver.
Qed.

Lemma state_step_ok r ch f : reader_ok r -> round_ok (state_step r ch f).1.
Proof.
  intros H. unfold state_step. destruct (r_state r) eqn:E; cbn [fst];
    eauto using begin_step_ok, compare_step_ok, star_step_ok, badent_step_ok, entspc_step_ok, getent_step_ok.
Qed.

(** The lookahead gives the character back. *)
Lemma unread f nch f' : getc f = (nch, f') -> f_text (ungetc nch f') = f_text f.
Proof. unfold getc. destruct (f_text f) eqn:E; intros [= <- <-]; cbn; [by destruct (f_bad f)|done]. Qed.

Lemma blank_next_text f : f_text (blank_next f).2 = f_text f.
Proof. unfold blank_next. destruct (getc f) as [nch f'] eqn:E. cbn. by apply unread. Qed.

Lemma escape_step_text e ch f : (length (f_text (escape_step e ch f).2) <= length (f_text f))%nat.
Proof.
  unfold escape_step. destruct e; cbn; try lia. destruct (ch =a BACKSLASH); [|cbn; lia]. destruct (getc f) as [nch f'] eqn:E.
  case_bool_decide; cbn; [|by rewrite (unread _ _ _ E)]. unfold getc in E. destruct (f_text f); injection E as <- <-; [by destruct (f_bad f)|cbn; lia].
Qed.

Lemma state_step_text r ch f : f_text (state_step r ch f).2 = f_text f.
Proof.
  unfold state_step, badent_step, getent_step. pose proof (blank_next_text f) as Hb. destruct (blank_next f) as [more f'].
  destruct (getc f) as [nch f''] eqn:E. apply unread in E. cbn in Hb. by repeat case_match.
Qed.

(** What a line of a file is. *)
Definition line_ok (f f' : file) (l : line) : Prop :=
  match l with
  | Line k e k_len m_len => k_len = strlen k /\ m_len = strlen e /\ m_len <= MAPENT_MAX_LEN /\ (length (f_text f') < length (f_text f))%nat
  | NoLine => f_text f' = [] /\ f_eof f' || f_err f' = true
  | Overrun ent => ent = false
  end.

Lemma read_rounds_total fuel : forall r f, reader_ok r -> (length (f_text f) < fuel)%nat ->
  exists l f', read_rounds fuel r f = Some (l, f') /\ line_ok f f' l.
Proof.
  induction fuel as [|fuel IH]; intros r f Hr Hf; [lia|]. cbn [read_rounds].
  destruct (getc f) as [[ch|] f1] eqn:Eg; unfold getc in Eg; destruct (f_text f) as [|c t] eqn:Et; try done.
  2: { injection Eg as <-. do 2 eexists. split; [done|]. cbn. destruct (f_bad f); cbn; by rewrite ?orb_true_r. }
  injection Eg as -> <-. set (f1 := File t _ _ _). pose proof (escape_step_text (r_escape r) ch f1) as He.
  assert (forall r' f2, reader_ok r' -> (length (f_text f2) <= length t)%nat ->
    exists l f', read_rounds fuel r' f2 = Some (l, f') /\ line_ok f f' l) as Hcont.
  { intros r' f2 Hr' Hf2. cbn in Hf. destruct (IH r' f2 Hr' ltac:(lia)) as (l & f' & Hl & Hok). exists l, f'. split; [done|].
    destruct l; try done. cbn in Hok |- *. rewrite Et. cbn. destruct Hok as (-> & -> & ? & ?). split_and!; [done..|lia]. }
  destruct (escape_step (r_escape r) ch f1) as [[e|] f2]; cbn [snd] in He; [|by apply Hcont].
  assert (reader_ok (to_escape e r)) as Hr2 by (by destruct Hr). pose proof (state_step_ok (to_escape e r) ch f2 Hr2) as Hs.
  pose proof (state_step_text (to_escape e r) ch f2) as Ht. destruct (state_step (to_escape e r) ch f2) as [[r'|r'|r'| |] f3]; cbn in Hs, Ht.
  - apply Hcont; [done|]. rewrite Ht. exact He.
  - case_bool_decide; [apply Hcont; [apply restart_ok|rewrite Ht; exact He]|].
    do 2 eexists. split; [done|]. cbn. rewrite Et, Ht. destruct Hs as [-> ?]. cbn. cbn in He. split_and!; [done..|lia].
  - apply Hcont; [apply restart_ok|]. rewrite Ht. exact He.
  - by do 2 eexists.
  - done.
Qed.

(** C20. Reading a line of a map file ends for every contents of the file and is
    well behaved but for the buffer of the key: either a line is returned, with the
    lengths of key and entry, an entry of at most [MAPENT_MAX_LEN] characters and a file
    that has become shorter, or the end of the file or an error is reached and
    indicated; the buffer of the entry is never left. *)
Theorem read_one_total f : exists l f', read_one f = Some (l, f') /\ line_ok f f' l.
Proof. apply read_rounds_total; [by constructor|lia]. Qed.

(** * Map files are read back from their lines *)

(** ** The lines of a map file *)

Inductive item :=
| Entry (key sep ent : cstring)
| Include (name : cstring)
| Comment (text : cstring)
| Empty.

Definition text_of (i : item) : list ascii :=
  match i with
  | Entry key sep ent => key ++ sep ++ ent ++ [NEWLINE]
  | Include name => "+"%char :: name ++ [NEWLINE]
  | Comment text => "#"%char :: text ++ [NEWLINE]
  | Empty => [NEWLINE]
  end.

Definition file_text (l : list item) : list ascii := l ≫= text_of.

(** The key and the entry of a line. *)
Definition line_of (i : item) : option (cstring * cstring) :=
  match i with
  | Entry key _ ent => Some (key, ent)
  | Include name => Some ("+"%char :: name, [])
  | _ => None
  end.

(** A character of a key that stands for itself. *)
Definition key_plain (c : ascii) : Prop := isspace c = false /\ c <> BACKSLASH /\ c <> QUOTE.

#[export] Instance key_plain_dec c : Decision (key_plain c).
Proof. unfold key_plain. apply _. Defined.

(** White space between the key and the entry. *)
Definition sep_char (c : ascii) : Prop := isspace c = true /\ c <> NEWLINE.

#[export] Instance sep_char_dec c : Decision (sep_char c).
Proof. unfold sep_char. apply _. Defined.

(** Escapes and quotes in an entry are kept; where they end. *)
Definition esc_next (e : ESCAPES) (c : ascii) : ESCAPES :=
  match e with
  | esc_none => if c =a BACKSLASH then esc_char else if c =a QUOTE then esc_all else esc_none
  | esc_char => esc_val
  | esc_val => esc_none
  | esc_all => if c =a QUOTE then esc_none else esc_all
  end.

Definition balanced (e : ESCAPES) (s : cstring) : Prop := foldl esc_next e s ∈ [esc_none; esc_val].

#[export] Instance balanced_dec e s : Decision (balanced e s).
Proof. unfold balanced. apply _. Defined.

(** An entry does not begin with white space, or with a backslash in front of it. *)
Definition starts_entry (ent : cstring) : Prop :=
  match ent with
  | [] => False
  | c :: s => isspace c = false /\ (c = BACKSLASH -> exists c2 s2, s = c2 :: s2 /\ 32 < uchar c2)
  end.

Definition item_ok (i : item) : Prop :=
  match i with
  | Entry key sep ent =>
      (key = str "*" \/ Forall key_plain key /\ key <> [] /\ hd_char key ∉ ["#"; "*"; "+"]%char /\ strlen key <= KEY_MAX_LEN) /\
      sep <> [] /\ Forall sep_char sep /\
      starts_entry ent /\ NEWLINE ∉ ent /\ balanced esc_none ent /\ strlen ent <= MAPENT_MAX_LEN
  | Include name => Forall key_plain name /\ strlen name < KEY_MAX_LEN
  | Comment text => NEWLINE ∉ text /\ BACKSLASH ∉ text
  | Empty => True
  end.

(** ** Rounds of the reader *)

Lemma fits_small r next :
  strlen (r_key r) <= KEY_MAX_LEN + 1 -> strlen (r_ent r) <= MAPENT_MAX_LEN + 1 -> fits r next = next r.
Proof.
  intros Hk He. unfold fits. destruct (Z.ltb_spec (KEY_MAX_LEN + 1) (strlen (r_key r))); [lia|].
  destruct (Z.ltb_spec (MAPENT_MAX_LEN + 1) (strlen (r_ent r))); [lia|done].
Qed.

Section Rounds.
Context (bad err : bool).
Abbreviation stream t := (File t bad false err).

(** [n] characters are consumed. *)
Definition steps (r : reader) (s : list ascii) (r' : reader) (t : list ascii) : Prop :=
  forall fuel, read_rounds (length s + fuel) r (stream (s ++ t)) = read_rounds fuel r' (stream t).

Lemma steps_nil r t : steps r [] r t.
Proof. done. Qed.

Lemma steps_app r1 s1 r2 s2 r3 t : steps r1 s1 r2 (s2 ++ t) -> steps r2 s2 r3 t -> steps r1 (s1 ++ s2) r3 t.
Proof. intros H1 H2 fuel. rewrite length_app, <- Nat.add_assoc, <- app_assoc, H1. apply H2. Qed.

Lemma getc_cons c t : getc (stream (c :: t)) = (Some c, stream t).
Proof. done. Qed.

(** One character that is not a backslash before a newline. *)
Lemma step_one r c r' t :
  (r_escape r = esc_none -> c = BACKSLASH -> exists c2 t2, t = c2 :: t2 /\ c2 <> NEWLINE) ->
  state_step (to_escape (esc_next (r_escape r) c) r) c (stream t) = (Next r', stream t) ->
  steps r [c] r' t.
Proof.
  intros Hb Hs fuel. cbn [length app Nat.add read_rounds]. rewrite getc_cons.
  assert (escape_step (r_escape r) c (stream t) = (Some (esc_next (r_escape r) c), stream t)) as ->; [|by rewrite Hs].
  destruct (r_escape r); cbn; try done. destruct (c =a BACKSLASH) eqn:E; [|done]. apply bool_decide_eq_true in E.
  destruct (Hb eq_refl E) as (c2 & t2 & -> & Hn). cbn. rewrite bool_decide_false by congruence. done.
Qed.

Lemma plain_next c : key_plain c -> esc_next esc_none c = esc_none.
Proof. intros (_ & H1 & H2). cbn. by rewrite !bool_decide_false. Qed.

Definition in_key (g : FOUND_STATE) (key : list ascii) : reader := Reader st_compare got_nothing g esc_none key false [] 0.

Lemma newline_space : isspace NEWLINE = true.
Proof. done. Qed.

Lemma steps_key g s key t :
  Forall key_plain s -> strlen (key ++ s) <= KEY_MAX_LEN -> steps (in_key g key) s (in_key g (key ++ s)) t.
Proof.
  intros Hs. revert key. induction Hs as [|c s Hc Hs IH]; intros key Hl; [rewrite app_nil_r; apply steps_nil|].
  change (c :: s) with ([c] ++ s) in Hl |- *. rewrite app_assoc in Hl |- *. apply (steps_app _ _ (in_key g (key ++ [c]))); [|by apply IH].
  apply step_one; [intros _ ->; by destruct Hc as (_ & ? & _)|]. cbn [in_key r_escape]. rewrite plain_next by done.
  unfold state_step, compare_step, in_key. cbn. destruct Hc as (Hsp & Hb & Hq).
  rewrite bool_decide_false by (intros ->; done). rewrite Hsp. cbn.
  unfold strlen in *. rewrite !length_app in Hl. cbn in Hl.
  destruct (Z.eqb_spec (Z.of_nat (length key)) KEY_MAX_LEN) as [E|_]; [lia|].
  change (bool_decide (esc_none = esc_val)) with false. rewrite fits_small; [done|unfold KEY_MAX_LEN in *; cbn; unfold strlen; rewrite length_app; cbn; lia|done].
Qed.

(** The first character of a key. *)
Lemma step_first c t :
  key_plain c -> c ∉ ["#"; "*"; "+"]%char -> steps reader0 [c] (in_key got_nothing [c]) t.
Proof.
  intros Hc Hn. apply step_one; [intros _ ->; by destruct Hc as (_ & ? & _)|]. cbn [reader0 r_escape]. rewrite plain_next by done.
  unfold state_step, begin_step. cbn. destruct Hc as (-> & _). rewrite !bool_decide_false by set_solver. done.
Qed.

Lemma steps_whole_key key t :
  Forall key_plain key -> key <> [] -> hd_char key ∉ ["#"; "*"; "+"]%char -> strlen key <= KEY_MAX_LEN ->
  steps reader0 key (in_key got_nothing key) t.
Proof.
  intros Hk Hne Hh Hl. destruct key as [|c key]; [done|]. apply Forall_cons in Hk as [Hc Hk]. cbn in Hh.
  change (c :: key) with ([c] ++ key). apply (steps_app _ _ (in_key got_nothing [c])); [by apply step_first|by apply steps_key].
Qed.

(** Before the entry, for a key and for the wildcard. *)
Definition in_space (g : FOUND_STATE) (key : list ascii) : reader := Reader st_entspc g got_nothing esc_none key false [] 0.

Lemma sep_next c : sep_char c -> esc_next esc_none c = esc_none.
Proof. intros (H & _). cbn. rewrite !bool_decide_false; [done|by intros ->..]. Qed.

Lemma sep_not_escape c : sep_char c -> c <> BACKSLASH.
Proof. by intros (H & _) ->. Qed.

Lemma steps_spaces g key s t : Forall sep_char s -> steps (in_space g key) s (in_space g key) t.
Proof.
  induction 1 as [|c s Hc Hs IH]; [apply steps_nil|]. change (c :: s) with ([c] ++ s). apply (steps_app _ _ (in_space g key)); [|done].
  apply step_one; [intros _ E; by apply sep_not_escape in Hc|]. cbn [in_space r_escape]. rewrite sep_next by done.
  unfold state_step, entspc_step. cbn. destruct Hc as (-> & Hn). by rewrite bool_decide_false.
Qed.

Lemma steps_sep key s t :
  Forall sep_char s -> s <> [] -> steps (in_key got_nothing key) s (in_space got_real key) t.
Proof.
  intros Hs Hne. destruct s as [|c s]; [done|]. apply Forall_cons in Hs as [Hc Hs].
  change (c :: s) with ([c] ++ s). apply (steps_app _ _ (in_space got_real key)); [|by apply steps_spaces].
  apply step_one; [intros _ E; by apply sep_not_escape in Hc|]. cbn [in_key r_escape]. rewrite sep_next by done.
  unfold state_step, compare_step. cbn. destruct Hc as (-> & Hn). by rewrite bool_decide_false.
Qed.

Lemma steps_star s t :
  Forall sep_char s -> s <> [] -> steps reader0 (str "*" ++ s) (in_space got_star (str "*")) t.
Proof.
  intros Hs Hne. destruct s as [|c s]; [done|]. apply Forall_cons in Hs as [Hc Hs].
  apply (steps_app _ _ (Reader st_star got_nothing got_nothing esc_none (str "*") false [] 0)).
  { apply (step_one reader0 "*"%char); [done|]. done. }
  change (c :: s) with ([c] ++ s). apply (steps_app _ _ (in_space got_star (str "*"))); [|by apply steps_spaces].
  apply step_one; [intros _ E; by apply sep_not_escape in Hc|]. cbn [r_escape]. rewrite sep_next by done.
  unfold state_step, star_step. cbn. destruct Hc as (-> & Hn). by rewrite bool_decide_false.
Qed.

(** In an entry. *)
Definition in_ent (g : FOUND_STATE) (e : ESCAPES) (key ent : list ascii) : reader := Reader st_getent g g e key true ent (strlen ent).

Lemma strlen_snoc s (c : ascii) : strlen (s ++ [c]) = strlen s + 1.
Proof. unfold strlen. rewrite length_app. cbn. lia. Qed.

(** A backslash at the end of the text is not balanced. *)
Lemma balanced_next e c s : balanced e (c :: s) -> balanced (esc_next e c) s.
Proof. done. Qed.

Lemma backslash_follows c s : c = BACKSLASH -> NEWLINE ∉ s -> balanced esc_none (c :: s) -> exists c2 s2, s = c2 :: s2 /\ c2 <> NEWLINE.
Proof.
  intros -> Hn Hb. destruct s as [|c2 s2]; [unfold balanced in Hb; cbn in Hb; set_solver|]. exists c2, s2. set_solver.
Qed.

Lemma steps_ent g key t : forall s e ent,
  NEWLINE ∉ s -> balanced e s -> strlen key <= KEY_MAX_LEN -> strlen (ent ++ s) <= MAPENT_MAX_LEN ->
  steps (in_ent g e key ent) s (in_ent g (foldl esc_next e s) key (ent ++ s)) (NEWLINE :: t).
Proof.
  induction s as [|c s IH]; intros e ent Hn Hb Hk He; [rewrite app_nil_r; apply steps_nil|].
  cbn [foldl]. change (c :: s) with ([c] ++ s) in He |- *. rewrite app_assoc in He |- *.
  apply (steps_app _ _ (in_ent g (esc_next e c) key (ent ++ [c]))); [|apply IH; [set_solver|done..]].
  apply step_one.
  - cbn [in_ent r_escape]. intros -> E. destruct (backslash_follows c s E ltac:(set_solver) Hb) as (c2 & s2 & -> & Hc2). cbn. eauto.
  - cbn [in_ent r_escape]. unfold state_step, getent_step, in_ent. cbn [r_state to_escape r_len r_p r_escape r_gotten].
    rewrite bool_decide_false by set_solver.
    assert (strlen ent + 1 <= MAPENT_MAX_LEN) as Hm.
    { rewrite <- (strlen_snoc ent c). unfold strlen in *. rewrite !length_app in *. cbn in *. lia. }
    destruct (Z.ltb_spec (strlen ent) MAPENT_MAX_LEN); [|lia].
    rewrite strlen_snoc. destruct s as [|c2 s]; cbn [app getc f_text]; rewrite fits_small; cbn; rewrite ?strlen_snoc; (done || lia).
Qed.

(** The beginning of an entry. *)
Lemma steps_start g key ent t :
  starts_entry ent -> NEWLINE ∉ ent -> balanced esc_none ent -> strlen key <= KEY_MAX_LEN ->
  exists s1 s2, ent = s1 ++ s2 /\ s1 <> [] /\ steps (in_space g key) s1 (in_ent g (foldl esc_next esc_none s1) key s1) (s2 ++ NEWLINE :: t).
Proof.
  intros Hst Hn Hb Hk. destruct ent as [|c s]; [done|]. destruct Hst as [Hsp Hesc].
  destruct (decide (c = BACKSLASH)) as [->|Hnb].
  - destruct (Hesc eq_refl) as (c2 & s2 & -> & H32). exists [BACKSLASH; c2], s2. split; [done|]. split; [done|].
    apply (steps_app _ [BACKSLASH] (Reader st_entspc g got_nothing esc_char key false [] 0) [c2]).
    + apply step_one; [intros _ _; exists c2, (s2 ++ NEWLINE :: t); split; [done|set_solver]|]. done.
    + apply step_one; [done|]. cbn. unfold state_step, entspc_step. cbn.
      rewrite bool_decide_false by set_solver. destruct (Z.leb_spec (uchar c2) 32); [lia|].
      change (bool_decide (esc_val = esc_val)) with true. rewrite fits_small; [done|cbn; lia|done].
  - exists [c], s. split; [done|]. split; [done|]. apply step_one; [done|]. cbn [in_space r_escape].
    assert (c <> NEWLINE) as Hcn by set_solver.
    unfold state_step, entspc_step, esc_next. cbn [to_escape r_state r_escape]. rewrite (bool_decide_false (c = BACKSLASH)), (bool_decide_false (c = NEWLINE)) by done.
    cbn [foldl]. unfold esc_next. rewrite (bool_decide_false (c = BACKSLASH)) by done.
    destruct (decide (c = QUOTE)) as [->|Hq].
    + rewrite (bool_decide_true (QUOTE = QUOTE)) by done. cbn. change (bool_decide (esc_all = esc_val)) with false.
      rewrite fits_small; [done|cbn; lia|done].
    + rewrite (bool_decide_false (c = QUOTE)) by done. rewrite Hsp. rewrite fits_small; [done|cbn; lia|done].
Qed.

(** The stream behind the end of a line. *)
Definition line_end (t : list ascii) : file := (blank_next (stream t)).2.

Definition no_blank (t : list ascii) : Prop := isblank (hd_char t) = false.

Lemma blank_next_end t : no_blank t -> blank_next (stream t) = (false, line_end t).
Proof. intros H. unfold line_end. destruct t as [|c t]; [cbn; by destruct bad|]. cbn in H |- *. by rewrite H. Qed.

Lemma line_end_cons c t : line_end (c :: t) = stream (c :: t).
Proof. done. Qed.

(** The newline behind an entry. *)
Lemma end_ent fuel g key ent e t :
  e ∈ [esc_none; esc_val] -> g <> got_nothing -> no_blank t ->
  read_rounds (S fuel) (in_ent g e key ent) (stream (NEWLINE :: t)) = Some (Line key ent (strlen key) (strlen ent), line_end t).
Proof.
  intros He Hg Ht. cbn [read_rounds]. rewrite getc_cons. cbn [in_ent r_escape].
  assert (escape_step e NEWLINE (stream t) = (Some esc_none, stream t)) as ->.
  { destruct e; [done|exfalso; set_solver|done|exfalso; set_solver]. }
  unfold state_step, getent_step. cbn [to_escape in_ent r_state]. rewrite bool_decide_true by done.
  change (bool_decide (_ = esc_all)) with false. cbv iota. rewrite blank_next_end by done. unfold is_found. cbn.
  rewrite (bool_decide_true (g = g)), orb_true_r by done. cbn. by rewrite bool_decide_false.
Qed.

(** The whole of a line with an entry. *)
Lemma read_entry_line fuel key sep ent t :
  item_ok (Entry key sep ent) -> no_blank t -> (length (text_of (Entry key sep ent)) <= fuel)%nat ->
  read_rounds fuel reader0 (stream (text_of (Entry key sep ent) ++ t)) = Some (Line key ent (strlen key) (strlen ent), line_end t).
Proof.
  intros (Hkey & Hne & Hsep & Hst & Hn & Hb & Hm) Ht Hf. cbn [text_of] in *.
  assert (strlen key <= KEY_MAX_LEN) as Hk by (by destruct Hkey as [->|(_ & _ & _ & ?)]).
  assert (exists g, g <> got_nothing /\ steps reader0 (key ++ sep) (in_space g key) (ent ++ NEWLINE :: t)) as (g & Hg & H1).
  { destruct Hkey as [->|(Hp & Hkn & Hh & _)]; [exists got_star; split; [done|by apply steps_star]|].
    exists got_real. split; [done|]. eapply steps_app; [by apply steps_whole_key|by apply steps_sep]. }
  destruct (steps_start g key ent t Hst Hn Hb Hk) as (s1 & s2 & -> & Hs1 & H2).
  assert (steps reader0 (key ++ sep ++ s1 ++ s2) (in_ent g (foldl esc_next esc_none (s1 ++ s2)) key (s1 ++ s2)) (NEWLINE :: t)) as H.
  { rewrite app_assoc. eapply steps_app; [rewrite <- app_assoc in H1 |- *; exact H1|]. eapply steps_app; [exact H2|].
    rewrite foldl_app. apply steps_ent; [set_solver| |done|done]. unfold balanced in *. by rewrite <- foldl_app. }
  assert (exists n, fuel = (length (key ++ sep ++ s1 ++ s2) + S n)%nat) as [n ->].
  { exists (fuel - length (key ++ sep ++ s1 ++ s2) - 1)%nat. rewrite !length_app in *. cbn in Hf. lia. }
  replace ((key ++ sep ++ (s1 ++ s2) ++ [NEWLINE]) ++ t) with ((key ++ sep ++ s1 ++ s2) ++ NEWLINE :: t) by (by rewrite <- !app_assoc).
  rewrite H. by apply end_ent.
Qed.

(** Included maps. *)
Lemma read_include fuel name t :
  item_ok (Include name) -> (length (text_of (Include name)) <= fuel)%nat ->
  read_rounds fuel reader0 (stream (text_of (Include name) ++ t))
  = Some (Line ("+"%char :: name) [] (strlen ("+"%char :: name)) 0, stream t).
Proof.
  intros [Hp Hl] Hf. cbn [text_of] in *. set (key := "+"%char :: name) in *.
  assert (steps reader0 key (in_key got_plus key) (NEWLINE :: t)) as H.
  { apply (steps_app _ ["+"%char] (in_key got_plus ["+"%char]) name); [by apply step_one|].
    apply steps_key; [done|]. unfold strlen in *. cbn. lia. }
  assert (exists n, fuel = (length key + S n)%nat) as [n ->].
  { exists (fuel - length key - 1)%nat. cbn in *. rewrite length_app in Hf. cbn in Hf. lia. }
  change ("+"%char :: name ++ [NEWLINE]) with (key ++ [NEWLINE]). rewrite <- app_assoc. by rewrite H.
Qed.

(** Comments. *)
Definition in_comment (e : ESCAPES) : reader := Reader st_badent got_nothing got_nothing e [] false [] 0.

Lemma steps_comment t : forall s e,
  e ∈ [esc_none; esc_all] -> NEWLINE ∉ s -> BACKSLASH ∉ s ->
  foldl esc_next e s ∈ [esc_none; esc_all] /\ steps (in_comment e) s (in_comment (foldl esc_next e s)) t.
Proof.
  induction s as [|c s IH]; intros e He Hn Hb; [split; [done|apply steps_nil]|]. cbn [foldl].
  assert (esc_next e c ∈ [esc_none; esc_all]) as He'.
  { assert (c <> BACKSLASH) as Hc by set_solver. clear -He Hc. destruct e; cbn.
    - rewrite (bool_decide_false (c = BACKSLASH)) by done. case_bool_decide; set_solver.
    - exfalso. clear -He. set_solver.
    - exfalso. clear -He. set_solver.
    - case_bool_decide; set_solver. }
  destruct (IH (esc_next e c) He' ltac:(set_solver) ltac:(set_solver)) as [H1 H2]. split; [done|].
  change (c :: s) with ([c] ++ s). eapply steps_app; [|exact H2]. apply step_one; [intros _ ->; set_solver|].
  unfold state_step, badent_step, in_comment. cbn. rewrite bool_decide_false by set_solver. by destruct (isblank c).
Qed.

Lemma line_end_again n r t : read_rounds (S n) r (line_end t) = read_rounds (S n) r (stream t).
Proof. destruct t as [|c t]; [|done]. cbn. unfold line_end. cbn. by destruct bad. Qed.

(** Lines that are passed over. *)
Lemma read_skip fuel i t :
  item_ok i -> line_of i = None -> no_blank t -> (length (text_of i) < fuel)%nat ->
  read_rounds fuel reader0 (stream (text_of i ++ t)) = read_rounds (fuel - length (text_of i)) reader0 (stream t).
Proof.
  intros Hi Hl Ht Hf. destruct i as [| |s|]; try done; cbn [text_of] in *.
  - destruct Hi as [Hn Hb]. destruct (steps_comment (NEWLINE :: t) s esc_none ltac:(set_solver) Hn Hb) as [He Hs].
    assert (steps reader0 ("#"%char :: s) (in_comment (foldl esc_next esc_none s)) (NEWLINE :: t)) as H.
    { apply (steps_app _ ["#"%char] (in_comment esc_none) s); [by apply step_one|exact Hs]. }
    replace ("#"%char :: s ++ [NEWLINE]) with (("#"%char :: s) ++ [NEWLINE]) in Hf |- * by done. rewrite length_app in Hf |- *.
    set (s' := "#"%char :: s) in *. cbn [length] in *. assert (exists n, fuel = (length s' + S (S n))%nat) as [n ->].
    { exists (fuel - length s' - 2)%nat. lia. }
    replace (length s' + S (S n) - (length s' + 1))%nat with (S n) by lia. rewrite <- app_assoc, H. cbn [app].
    set (e := foldl esc_next esc_none s) in *. remember (S n) as k eqn:Ek. cbn [read_rounds]. rewrite getc_cons. cbn [in_comment r_escape].
    assert (escape_step e NEWLINE (stream t) = (Some e, stream t)) as -> by (destruct e; [done|exfalso; set_solver|exfalso; set_solver|done]).
    unfold state_step, badent_step. cbn [to_escape in_comment r_state]. rewrite bool_decide_true by done. rewrite blank_next_end by done.
    cbn. subst k. apply line_end_again.
  - destruct fuel as [|fuel]; [cbn in Hf; lia|]. cbn [length app read_rounds]. rewrite getc_cons. cbn. by rewrite Nat.sub_0_r.
Qed.
End Rounds.

(** The first line that counts, and the lines behind it. *)
Fixpoint next_item (l : list item) : option (cstring * cstring * bool * list item) :=
  match l with
  | [] => None
  | i :: l =>
      match line_of i with
      | Some (key, ent) => Some (key, ent, match i with Include _ => false | _ => true end, l)
      | None => next_item l
      end
  end.

Lemma space_blank c : isspace c = false -> isblank c = false.
Proof.
  unfold isspace, isblank. intros [-> H]%orb_false_iff. apply bool_decide_eq_false. intros E. rewrite E in H. done.
Qed.

Lemma no_blank_text l : Forall item_ok l -> no_blank (file_text l).
Proof.
  intros [|i l' Hi _]; [done|]. unfold file_text. rewrite bind_cons. destruct i as [key sep ent| | |]; try done.
  destruct Hi as ([->|(Hp & Hne & _)] & _); [done|]. destruct key as [|c key]; [done|]. apply Forall_cons in Hp as [(Hc & _) _].
  unfold no_blank. cbn. by apply space_blank.
Qed.

(** [read_one] on the text of lines. *)
Lemma read_rounds_items bad err l : forall fuel, Forall item_ok l -> (length (file_text l) < fuel)%nat ->
  read_rounds fuel reader0 (File (file_text l) bad false err)
  = match next_item l with
    | None => Some (NoLine, line_end bad err [])
    | Some (key, ent, ahead, l') =>
        Some (Line key ent (strlen key) (strlen ent), if ahead then line_end bad err (file_text l') else File (file_text l') bad false err)
    end.
Proof.
  induction l as [|i l IH]; intros fuel Hl Hf.
  { destruct fuel; [cbn in Hf; lia|]. cbn. by destruct bad. }
  pose proof Hl as [Hi Hl']%Forall_cons. pose proof (no_blank_text l Hl') as Hb.
  assert (file_text (i :: l) = text_of i ++ file_text l) as E by done. rewrite E, length_app in Hf. rewrite E. cbn [next_item].
  destruct i as [key sep ent|name|s|]; cbn [line_of].
  - by rewrite read_entry_line by (done || lia).
  - by rewrite read_include by (done || lia).
  - rewrite read_skip by (done || lia). apply IH; [done|lia].
  - rewrite read_skip by (done || lia). apply IH; [done|lia].
Qed.

Lemma read_one_items bad err l : Forall item_ok l ->
  read_one (File (file_text l) bad false err)
  = match next_item l with
    | None => Some (NoLine, line_end bad err [])
    | Some (key, ent, ahead, l') =>
        Some (Line key ent (strlen key) (strlen ent), if ahead then line_end bad err (file_text l') else File (file_text l') bad false err)
    end.
Proof. intros Hl. apply read_rounds_items; [done|]. cbn. lia. Qed.

(** ** Particular files *)

(** The lines of a file that are read one after the other: the keys and entries, and
    whether a buffer was left. *)
Fixpoint read_all (fuel : nat) (f : file) : list (cstring * cstring) * bool :=
  match fuel with
  | O => ([], false)
  | S fuel =>
      match read_one f with
      | Some (Line key ent _ _, f) => let '(l, over) := read_all fuel f in ((key, ent) :: l, over)
      | Some (Overrun _, _) => ([], true)
      | _ => ([], false)
      end
  end.

Definition lines_file (l : list string) : file := File (l ≫= fun s => str s ++ [NEWLINE]) false false false.

(** A key with a blank behind it and no entry is put in front of the key of the next
    line, and so is a wildcard alone on its line. *)
Lemma lines_are_joined :
  read_all 3 (lines_file ["foo "; "bar srv:/b"]) = ([(str "foobar", str "srv:/b")], false) /\
  read_all 3 (lines_file ["*"; "bar srv:/b"]) = ([(str "*bar", str "srv:/b")], false).
Proof. split; vm_compute; reflexivity. Qed.

(** Of two escaped blanks in a row the second one ends the key. *)
Lemma second_escape_lost :
  read_all 3 (lines_file ["a\ \ b srv:/b"]) = ([(str "a\ \", str "b srv:/b")], false).
Proof. vm_compute. reflexivity. Qed.

(** An escape at the end of a long key steps over the test for the length of the key, and
    the characters behind it are written behind the buffer; with one character the buffer
    has no NUL left. *)
Lemma key_buffer_overrun :
  read_all 3 (File (replicate 254 "a"%char ++ str "\bc srv:/b" ++ [NEWLINE]) false false false) = ([], true) /\
  read_all 3 (File (replicate 254 "a"%char ++ str "\b srv:/b" ++ [NEWLINE]) false false false)
  = ([(replicate 254 "a"%char ++ str "\b", str "srv:/b")], false).
Proof. split; vm_compute; reflexivity. Qed.

(** The last line is lost without a newline when it includes a map, or when its entry is
    a single character. *)
Lemma last_line_lost :
  read_all 3 (File (str "+auto.local") false false false) = ([], false) /\
  read_all 3 (File (str "a b") false false false) = ([], false) /\
  read_all 3 (File (str "a bc") false false false) = ([(str "a", str "bc")], false).
Proof. split_and!; vm_compute; reflexivity. Qed.
