(* ===== verification/FileMap.v ===== *)
(** * A map file and the cache of its source *)

From S2P Require Import Prelude CString Memory Args Cache CacheInv Trees Offsets CatPath Lexer LexerProps Macros AmdExpand MapType MatchKey Replicated MountNfs Nsswitch Master MemOk CacheProps CacheMap FileRead FileLookup FileProps.
Open Scope Z_scope.

(** ** The keys of an indirect map *)

(** A key that is entered as it is. *)
Definition indirect_key (key : cstring) : Prop := Forall plain key /\ "/"%char ∉ key.

Lemma collapse_no_slash s : forall seen, "/"%char ∉ s -> collapse seen s = s.
Proof.
  induction s as [|c s IH]; intros seen Hs; [done|]. cbn. rewrite bool_decide_false by set_solver. by rewrite IH by set_solver.
Qed.

Lemma plain_no_nul s : Forall plain s -> NUL ∉ s.
Proof. intros H Hin. rewrite Forall_forall in H. destruct (H _ Hin) as (_ & _ & H32). by vm_compute in H32. Qed.

Lemma before_absent s c : c ∉ s -> before s c = s.
Proof.
  induction s as [|d s IH]; intros H; [done|]. cbn. rewrite decide_False by set_solver. by rewrite IH by set_solver.
Qed.

Lemma sanitize_indirect key s : indirect_key key -> sanitize_key key LKP_INDIRECT s [] = Some (Some key, s, []).
Proof.
  intros [Hp Hs]. unfold sanitize_key. rewrite before_absent by (by apply plain_no_nul).
  assert (path_type_ok key LKP_INDIRECT = true) as ->.
  { unfold path_type_ok. cbn. rewrite (proj2 (strchr_None _ _)); [done|].
    destruct (hd_char key =a QUOTE); [|done]. destruct key; [done|]. cbn. set_solver. }
  cbn [negb]. rewrite (bind_some malloc _ s [] true s []) by done. unfold sanitize_path. cbn.
  rewrite sanitize_loop_plain by done. rewrite collapse_no_slash by done. done.
Qed.

(** ** The cache of a source *)

(** The source at [source] with its cache. *)
Definition at_source (s : dstate) (source : positive) (src : map_source) (a : positive) (mc : mapent_cache) : Prop :=
  d_src s !! source = Some src /\ s_mc src = Some a /\ d_mc s !! a = Some mc.

Definition with_cache (s : dstate) (a : positive) (mc : mapent_cache) : dstate := set_caches (<[a := mc]> (d_mc s)) s.

Lemma at_with_cache s source src a mc mc' : at_source s source src a mc -> at_source (with_cache s a mc') source src a mc'.
Proof. intros (H1 & H2 & H3). split_and!; [done..|]. cbn. by rewrite lookup_insert_eq. Qed.

Lemma with_cache_twice s a mc mc' : with_cache (with_cache s a mc) a mc' = with_cache s a mc'.
Proof. unfold with_cache. cbn. by rewrite insert_insert_eq. Qed.

Lemma with_cache_same s source src a mc : at_source s source src a mc -> with_cache s a mc = s.
Proof. intros (_ & _ & H). unfold with_cache. rewrite insert_id by done. by destruct s. Qed.

Lemma on_source_run {A} (c : CM A) s source src a mc m x mc' m' :
  at_source s source src a mc -> c mc m = Some (x, mc', m') -> on_source source c s m = Some (x, with_cache s a mc', m').
Proof.
  intros (H1 & H2 & H3) Hc. unfold on_source. rewrite (bind_load (HH := src_heap) _ _ _ _ src) by done.
  rewrite H2, bind_from_some. unfold with_mc. by rewrite H3, Hc.
Qed.

(** An update through the interface of the cache. *)
Lemma update_source s source src a mc t key ent age :
  at_source s source src a mc -> represents source mc t -> relative key ->
  exists r mc', on_source source (cache_update source key ent age) s [] = Some (r, with_cache s a mc', []) /\
    table_op true (Update key ent age) t = (Code r, snd (table_op true (Update key ent age) t)) /\
    represents source mc' (snd (table_op true (Update key ent age) t)).
Proof.
  intros Hat HR Hrel. destruct (implements (Update key ent age) mc t [] HR Hrel) as (ok & mc' & m' & Hrun & HR' & Hm).
  destruct (Hm eq_refl) as [-> ->]. cbn [cache_op] in Hrun. unfold mbind, M_bind in Hrun.
  destruct (cache_update source key ent age mc []) as [[[r mc1] m1]|] eqn:E; [|done].
  assert (mc1 = mc' /\ m1 = [] /\ Code r = (table_op true (Update key ent age) t).1) as (-> & -> & Hr) by (by injection Hrun).
  exists r, mc'. split; [by apply (on_source_run _ _ _ src a mc)|]. split; [|done]. rewrite Hr. by destruct (table_op _ _ _).
Qed.

(** ** Reading a map *)

(** The lines of an indirect map without included maps. *)
Definition map_item (i : item) : Prop :=
  item_ok i /\
  match i with
  | Entry key _ ent => indirect_key key /\ NUL ∉ ent
  | Include _ => False
  | _ => True
  end.

Definition lines_of (l : list item) : list (cstring * cstring) := omap line_of l.

Lemma map_items_ok l : Forall map_item l -> Forall item_ok l.
Proof. intros H. eapply Forall_impl; [exact H|]. by intros i []. Qed.

Lemma next_item_lines l :
  Forall map_item l ->
  match next_item l with
  | None => lines_of l = []
  | Some (key, ent, ahead, l') => ahead = true /\ lines_of l = (key, ent) :: lines_of l' /\ Forall map_item l' /\ (length l' < length l)%nat /\
      exists sep, map_item (Entry key sep ent)
  end.
Proof.
  induction 1 as [|i l Hi Hl IH]; [done|]. cbn [next_item]. destruct i as [key sep ent|name|s|]; cbn [line_of].
  - split_and!; [done..|cbn; lia|by exists sep].
  - by destruct Hi.
  - unfold lines_of in *. cbn. destruct (next_item l) as [[[[key ent] ahead] l']|]; [|done]. destruct IH as (? & ? & ? & ? & ?). split_and!; [done..|lia|done].
  - unfold lines_of in *. cbn. destruct (next_item l) as [[[[key ent] ahead] l']|]; [|done]. destruct IH as (? & ? & ? & ? & ?). split_and!; [done..|lia|done].
Qed.

(** What is known of the key of a line. *)
Lemma map_item_key key sep ent :
  map_item (Entry key sep ent) ->
  key_string key = Some key /\ (hd_char key =a "+") = false /\ indirect_key key /\ ent_string ent = ent /\ relative key.
Proof.
  intros [Hi [Hk Hn]]. destruct Hi as (Hkey & _). pose proof Hk as [Hp Hs]. pose proof (plain_no_nul key Hp) as Hz.
  assert (strlen key <= KEY_MAX_LEN) as Hl by (by destruct Hkey as [->|(_ & _ & _ & ?)]).
  split_and!; [|by destruct Hkey as [->|(_ & _ & Hh & _)]; [|apply bool_decide_eq_false; set_solver]|done|by apply before_absent|].
  - unfold key_string. destruct (Z.ltb_spec KEY_MAX_LEN (strlen key)); [lia|]. cbn. by rewrite before_absent.
  - apply bool_decide_eq_false. intros E. apply Hs. destruct key as [|c key]; [done|]. cbn in E. subst c. set_solver.
Qed.

(** The next line of a map. *)
Lemma read_entry_items l s m :
  Forall map_item l ->
  read_entry (File (file_text l) false false false) s m
  = match next_item l with
    | None => Some ((None, line_end false false []), s, m)
    | Some (key, ent, _, l') => Some ((Some (key, ent), line_end false false (file_text l')), s, m)
    end.
Proof.
  intros Hl. unfold read_entry. rewrite (read_one_items false false l (map_items_ok l Hl)). pose proof (next_item_lines l Hl) as H.
  destruct (next_item l) as [[[[key ent] ahead] l']|]; [|done]. by destruct H as (-> & _).
Qed.

Lemma file_text_nil l : Forall item_ok l -> file_text l = [] -> l = [].
Proof.
  intros [|i l' Hi _]; [done|]. unfold file_text. rewrite bind_cons. intros [H _]%app_nil.
  destruct i as [key sep ent| | |]; try done. cbn in H. apply app_nil in H as [_ [_ [_ H]%app_nil]%app_nil]. done.
Qed.

Section Read.
Context (fs : cstring -> file + bool) (now : Z) (ap : file_point) (source : positive) (age : Z) (ctxt : lookup_context) (nss : positive -> MM Z).
Context (src : map_source) (a : positive).
Context (Hind : fp_type ap = LKP_INDIRECT) (Hsun : is_amd src = false).

Lemma read_line_entry s mc t key sep ent :
  at_source s source src a mc -> represents source mc t -> map_item (Entry key sep ent) ->
  exists mc', read_line ap source age ctxt nss key ent s [] = Some (true, with_cache s a mc', []) /\
    represents source mc' (snd (table_op true (Update key (Some ent) age) t)).
Proof.
  intros Hat HR Hi. destruct (map_item_key key sep ent Hi) as (Hks & Hplus & Hik & He & Hrel).
  destruct (update_source s source src a mc t key (Some ent) age Hat HR Hrel) as (r & mc' & Hup & _ & HR').
  exists mc'. split; [|done]. unfold read_line. rewrite Hks, bind_from_some, Hplus. destruct Hat as (H1 & _).
  rewrite (bind_load (HH := src_heap) _ _ _ _ src) by done. rewrite Hsun. cbn [andb]. unfold line_key. rewrite Hind.
  rewrite (bind_some _ _ _ _ _ _ _ (sanitize_indirect key s Hik)). rewrite He. rewrite (bind_some _ _ _ _ _ _ _ Hup). done.
Qed.

Lemma read_map_loop_items n : forall l fuel s mc t,
  (length l <= n)%nat -> (length l < fuel)%nat -> Forall map_item l -> at_source s source src a mc -> represents source mc t ->
  exists mc', read_map_loop ap source age ctxt nss fuel (File (file_text l) false false false) s [] = Some ((), with_cache s a mc', []) /\
    represents source mc' (snd (table_all [] (read_map age (lines_of l)) t)).
Proof.
  induction n as [|n IH]; intros l fuel s mc t Hn Hf Hl Hat HR; destruct fuel as [|fuel]; try lia; cbn [read_map_loop].
  all: pose proof (read_entry_items l s [] Hl) as Hone; pose proof (next_item_lines l Hl) as Hnext;
    destruct (next_item l) as [[[[key ent] ahead] l']|]; rewrite (bind_some _ _ _ _ _ _ _ Hone).
  1: { destruct Hnext as (_ & _ & _ & ? & _). lia. }
  1,3: exists mc; rewrite Hnext, (with_cache_same s source src a mc) by done; split; [done|exact HR].
  destruct Hnext as (_ & -> & Hl' & Hlen & sep & Hi).
  destruct (read_line_entry s mc t key sep ent Hat HR Hi) as (mc1 & Hrun & HR1). rewrite (bind_some _ _ _ _ _ _ _ Hrun).
  pose proof (at_with_cache s source src a mc mc1 Hat) as Hat1.
  cbn [read_map fmap list_fmap table_all head tail default fst snd].
  destruct (table_op true (Update key (Some ent) age) t) as [r t1]. cbn [snd] in HR1. fold (read_map age (lines_of l')).
  destruct (file_text l') as [|c text] eqn:Et.
  - apply file_text_nil in Et as ->; [|by apply map_items_ok]. exists mc1. by split.
  - rewrite line_end_cons, andb_false_r, <- Et.
    destruct (IH l' fuel _ mc1 t1 ltac:(lia) ltac:(lia) Hl' Hat1 HR1) as (mc2 & Hrun2 & HR2).
    exists mc2. rewrite Hrun2, with_cache_twice. split; [done|]. by destruct (table_all [] _ t1).
Qed.
End Read.

Lemma items_fuel l : Forall item_ok l -> (length l <= length (file_text l))%nat.
Proof.
  induction 1 as [|i l Hi Hl IH]; [cbn; lia|]. unfold file_text in *. rewrite bind_cons, length_app. cbn [length].
  assert (1 <= length (text_of i))%nat; [|lia]. destruct i; cbn [text_of length]; rewrite ?length_app; cbn [length]; try lia.
Qed.

(** C8. What a map file says is in the cache after the file has been read: for an indirect
    map given as the text of its lines, with comments, empty lines and entries whose
    quotes and escapes are balanced, [lookup_read_map] succeeds, and the cache has for
    every key the entry of the first of its lines with the time of the reading, and for
    every other key what it had before; the source has the new age. *)
Theorem lookup_read_map_lines fs now ap source age ctxt nss src a s mc t l :
  fp_type ap = LKP_INDIRECT -> is_amd src = false -> s_recurse src = false -> s_depth src <= MAX_INCLUDE_DEPTH ->
  at_source s source src a mc -> represents source mc t -> (forall key e seen, t !! key = Some (e, seen) -> seen <> age) ->
  fs (mapname ctxt) = inl (File (file_text l) false false false) -> Forall map_item l ->
  exists mc', lookup_read_map fs now ap source age ctxt nss s []
      = Some ((NSS_STATUS_SUCCESS, now), set_src (<[source := set_s_age age src]> (d_src s)) (with_cache s a mc'), []) /\
    forall key, cache_op source (Find key) mc' []
      = Some (Found (match first_line (lines_of l) key with Some e => Some (Some e, age) | None => t !! key end), mc', []).
Proof.
  intros Hind Hsun Hrec Hdepth Hat HR Hage Hfs Hl. pose proof Hat as (Hsrc & _).
  destruct (read_map_loop_items ap source age ctxt nss src a Hind Hsun (length l) l (S (length (file_text l))) s mc t)
    as (mc' & Hrun & HR'); [done|pose proof (items_fuel l (map_items_ok l Hl)); lia|done..|].
  exists mc'. split.
  - unfold lookup_read_map. rewrite (bind_load (HH := src_heap) _ _ _ _ src) by done. rewrite Hrec.
    destruct (Z.ltb_spec MAX_INCLUDE_DEPTH (s_depth src)); [lia|]. rewrite Hfs. cbn [f_text].
    rewrite (bind_some _ _ _ _ _ _ _ Hrun). rewrite (bind_update (HH := src_heap) _ _ _ _ src) by done. done.
  - intros key. destruct HR' as (cs & W & Hrep & _). cbn [cache_op].
    rewrite (reads_bind _ _ _ _ _ (lookup_distinct_reads mc' cs W key)), (contents_head source mc' _ cs Hrep).
    rewrite table_read_map. unfold after_read. specialize (Hage key).
    destruct (t !! key) as [[e seen]|]; [|done]. by rewrite (proj2 (Z.eqb_neq _ _)) by eauto.
Qed.

(** A map with a comment, a line and a wildcard, and a source for it. *)
Definition sample_items : list item := [Comment (str " home"); Entry (str "a") (str " ") (str "-ro srv:/a"); Empty; Entry (str "*") (str " ") (str "srv:/&")].
Definition sample_source : map_source := MapSource 1 0 (Some (str "file")) None None 0 0 0 (Some 1%positive) false true 0 [] None None 0 false.
Definition sample_cache : mapent_cache := MC 8 (replicate 8 None) (replicate 8 []) ∅.
Definition sample_state : dstate :=
  DS {[1%positive := sample_source]} {[1%positive := sample_cache]} {[1%positive := MasterEnt (str "/home") 0 (Some 1%positive) None]} ∅ [] [] None false false [].
Definition sample_point : file_point := FilePoint LKP_INDIRECT 0 None 60 1%positive.
Definition sample_context : lookup_context := LookupContext (str "/etc/auto.home") 0 [] 0.
Definition sample_fs (name : cstring) : file + bool := inl (File (file_text sample_items) false false false).

Lemma sample_items_ok : Forall map_item sample_items.
Proof.
  assert (forall key ent, Forall key_plain key /\ key <> [] /\ hd_char key ∉ ["#"; "*"; "+"]%char /\ strlen key <= KEY_MAX_LEN \/ key = str "*" ->
    (isspace (hd_char ent) = false /\ hd_char ent <> BACKSLASH /\ ent <> []) /\ NEWLINE ∉ ent /\ balanced esc_none ent /\ strlen ent <= MAPENT_MAX_LEN ->
    (Forall plain key /\ "/"%char ∉ key) /\ NUL ∉ ent -> map_item (Entry key (str " ") ent)) as Hitem.
  { intros key ent Hk ((H1 & H2 & H3) & H4) Hp. split; [|done]. split; [by destruct Hk; [right|left]|].
    split; [done|]. split; [by repeat constructor|]. split; [|done]. destruct ent as [|c s]; [done|]. by split; [|intros ->]. }
  apply Forall_cons. split; [by split; [split; apply (bool_decide_unpack _)|]|].
  apply Forall_cons. split; [apply Hitem; [left; apply (bool_decide_unpack _); vm_compute; exact I|apply (bool_decide_unpack _); vm_compute; exact I|apply (bool_decide_unpack _); vm_compute; exact I]|].
  apply Forall_cons. split; [done|].
  apply Forall_cons. split; [apply Hitem; [by right|apply (bool_decide_unpack _); vm_compute; exact I|apply (bool_decide_unpack _); vm_compute; exact I]|].
  apply Forall_nil_2.
Qed.

Lemma sample_represents : represents 1%positive sample_cache ∅.
Proof. apply (cache_init_represents 1 8 [] sample_cache []); [lia|reflexivity]. Qed.

Lemma lookup_read_map_lines_witness :
  exists mc', lookup_read_map sample_fs 100 sample_point 1%positive 7 sample_context (fun _ => mret 0) sample_state []
      = Some ((NSS_STATUS_SUCCESS, 100), set_src (<[1%positive := set_s_age 7 sample_source]> (d_src sample_state)) (with_cache sample_state 1%positive mc'), []) /\
    cache_op 1%positive (Find (str "a")) mc' [] = Some (Found (Some (Some (str "-ro srv:/a"), 7)), mc', []).
Proof.
  pose proof (lookup_read_map_lines sample_fs 100 sample_point 1%positive 7 sample_context (fun _ => mret 0) sample_source 1%positive
    sample_state sample_cache ∅ sample_items) as H.
  destruct H as (mc' & Hrun & Hfind).
  1-4: done.
  - split; [reflexivity|split; reflexivity].
  - apply sample_represents.
  - intros key e seen E. by rewrite lookup_empty in E.
  - reflexivity.
  - apply sample_items_ok.
  - exists mc'. split; [exact Hrun|]. apply (Hfind (str "a")).
Defined.
