(* ===== verification/FileFind.v ===== *)
(** * Lookups in a map file *)

From S2P Require Import Prelude CString Memory Args Cache CacheInv CacheOps Trees Offsets CatPath Lexer LexerProps Macros AmdExpand MapType MatchKey Replicated MountNfs Nsswitch Master MemOk CacheProps CacheUpdate CacheMap FileRead FileLookup FileProps FileMap CacheNegative.
Open Scope Z_scope.

(** ** The lines of a key *)

(** An update with contents never fails when there is memory. *)
Lemma update_code key e age t :
  exists r, (table_op true (Update key (Some e) age) t).1 = Code r /\ (r = CHE_OK \/ r = CHE_UPDATED).
Proof. cbn. repeat case_match; cbn; eauto. Qed.

Section Find.
Context (fs : cstring -> file + bool) (now : Z) (ap : file_point) (source : positive) (ctxt : lookup_context) (nss : positive -> cstring -> MM Z).
Context (src : map_source) (a : positive).
Context (Hind : fp_type ap = LKP_INDIRECT) (Hsun : is_amd src = false).

(** A line of another key is passed over. *)
Lemma lookup_line_other s mc key mkey sep ent :
  at_source s source src a mc -> map_item (Entry mkey sep ent) -> mkey <> key ->
  lookup_line now ap source ctxt nss key mkey ent s [] = Some (inr false, s, []).
Proof.
  intros (Hsrc & _) Hi Hne. destruct (map_item_key mkey sep ent Hi) as (Hks & Hplus & Hik & He & _).
  unfold lookup_line. rewrite Hks, bind_from_some, Hplus. rewrite (bind_load (HH := src_heap) _ _ _ _ src) by done.
  rewrite Hsun. cbn [andb negb]. unfold line_key. rewrite Hind. rewrite (bind_some _ _ _ _ _ _ _ (sanitize_indirect mkey s Hik)).
  destruct (strlen key =? strlen mkey); [|done]. cbn [negb]. unfold match_key. unfold streq. rewrite bool_decide_false by done.
  assert ((s ← load (HH := src_heap) source; if negb (is_amd s) then mret CHE_FAIL else
    ok ← malloc; if negb ok then mret CHE_FAIL else if strlen key + 2 <? strlen mkey then mret CHE_FAIL
      else match_wild now source (length key) mkey key (ent_string ent)) s [] = Some (CHE_FAIL, s, [])) as H.
  { rewrite (bind_load (HH := src_heap) _ _ _ _ src) by done. by rewrite Hsun. }
  by rewrite (bind_some _ _ _ _ _ _ _ H).
Qed.

(** The line of the key updates the cache. *)
Lemma lookup_line_found s mc t key sep ent :
  at_source s source src a mc -> represents source mc t -> map_item (Entry key sep ent) ->
  exists r mc', lookup_line now ap source ctxt nss key key ent s [] = Some (inl r, with_cache s a mc', []) /\
    (r = CHE_OK \/ r = CHE_UPDATED) /\ represents source mc' (snd (table_op true (Update key (Some ent) now) t)).
Proof.
  intros Hat HR Hi. pose proof Hat as (Hsrc & _). destruct (map_item_key key sep ent Hi) as (Hks & Hplus & Hik & He & Hrel).
  destruct (update_source s source src a mc t key (Some ent) now Hat HR Hrel) as (r & mc' & Hup & Hcode & HR').
  destruct (update_code key ent now t) as (r' & Hr' & Hor). rewrite Hcode in Hr'. cbn in Hr'. injection Hr' as <-.
  exists r, mc'. split; [|done]. unfold lookup_line. rewrite Hks, bind_from_some, Hplus.
  rewrite (bind_load (HH := src_heap) _ _ _ _ src) by done. rewrite Hsun. cbn [andb negb]. unfold line_key. rewrite Hind.
  rewrite (bind_some _ _ _ _ _ _ _ (sanitize_indirect key s Hik)). rewrite Z.eqb_refl. cbn [negb].
  unfold match_key. unfold streq. rewrite bool_decide_true by done. rewrite He. rewrite (bind_some _ _ _ _ _ _ _ Hup).
  by destruct Hor as [-> | ->].
Qed.

(** The search for a key in the lines. *)
Lemma file_lookup_loop_items n : forall l fuel s mc t key,
  (length l <= n)%nat -> (length l < fuel)%nat -> Forall map_item l -> at_source s source src a mc -> represents source mc t ->
  match first_line (lines_of l) key with
  | None => file_lookup_loop now ap source ctxt nss fuel key (File (file_text l) false false false) s [] = Some (CHE_MISSING, s, [])
  | Some e => exists r mc', file_lookup_loop now ap source ctxt nss fuel key (File (file_text l) false false false) s [] = Some (r, with_cache s a mc', []) /\
      (r = CHE_OK \/ r = CHE_UPDATED) /\ represents source mc' (snd (table_op true (Update key (Some e) now) t))
  end.
Proof.
  induction n as [|n IH]; intros l fuel s mc t key Hn Hf Hl Hat HR; destruct fuel as [|fuel]; try lia; cbn [file_lookup_loop].
  all: pose proof (read_entry_items l s [] Hl) as Hone; pose proof (next_item_lines l Hl) as Hnext;
    destruct (next_item l) as [[[[mkey ent] ahead] l']|].
  1: { destruct Hnext as (_ & _ & _ & ? & _). lia. }
  1,3: rewrite Hnext; cbn [first_line]; rewrite (bind_some _ _ _ _ _ _ _ Hone); done.
  destruct Hnext as (_ & -> & Hl' & Hlen & sep & Hi). cbn [first_line]. case_bool_decide as Hk.
  - subst mkey. destruct (lookup_line_found s mc t key sep ent Hat HR Hi) as (r & mc' & Hrun & Hor & HR').
    exists r, mc'. rewrite (bind_some _ _ _ _ _ _ _ Hone). rewrite (bind_some _ _ _ _ _ _ _ Hrun). done.
  - rewrite (bind_some _ _ _ _ _ _ _ Hone). rewrite (bind_some _ _ _ _ _ _ _ (lookup_line_other s mc key mkey sep ent Hat Hi Hk)).
    cbn [andb].
    destruct (file_text l') as [|c text] eqn:Et; [|].
    + apply file_text_nil in Et as ->; [|by apply map_items_ok]. cbn. destruct fuel; [lia|]. done.
    + rewrite line_end_cons, <- Et. apply (IH l' fuel s mc t key); [lia|lia|done..].
Qed.

(** The search for the wildcard. *)
Lemma wild_lines_items n : forall l fuel s mc t,
  (length l <= n)%nat -> (length l < fuel)%nat -> Forall map_item l -> at_source s source src a mc -> represents source mc t ->
  match first_line (lines_of l) STAR with
  | None => wild_lines now source fuel (File (file_text l) false false false) s [] = Some (CHE_MISSING, s, [])
  | Some e => exists r mc', wild_lines now source fuel (File (file_text l) false false false) s [] = Some (r, with_cache s a mc', []) /\
      (r = CHE_OK \/ r = CHE_UPDATED) /\ represents source mc' (snd (table_op true (Update STAR (Some e) now) t))
  end.
Proof.
  induction n as [|n IH]; intros l fuel s mc t Hn Hf Hl Hat HR; destruct fuel as [|fuel]; try lia; cbn [wild_lines].
  all: pose proof (read_entry_items l s [] Hl) as Hone; pose proof (next_item_lines l Hl) as Hnext;
    destruct (next_item l) as [[[[mkey ent] ahead] l']|].
  1: { destruct Hnext as (_ & _ & _ & ? & _). lia. }
  1,3: rewrite Hnext; cbn [first_line]; rewrite (bind_some _ _ _ _ _ _ _ Hone); done.
  destruct Hnext as (_ & -> & Hl' & Hlen & sep & Hi). cbn [first_line]. destruct (map_item_key mkey sep ent Hi) as (_ & _ & _ & He & Hrel).
  case_bool_decide as Hk.
  - subst mkey. destruct (update_source s source src a mc t STAR (Some ent) now Hat HR Hrel) as (r & mc' & Hup & Hcode & HR').
    destruct (update_code STAR ent now t) as (r' & Hr' & Hor). rewrite Hcode in Hr'. cbn in Hr'. injection Hr' as <-.
    exists r, mc'. rewrite (bind_some _ _ _ _ _ _ _ Hone). rewrite bool_decide_true by done. rewrite He. done.
  - rewrite (bind_some _ _ _ _ _ _ _ Hone). rewrite bool_decide_false by done.
    destruct (file_text l') as [|c text] eqn:Et; [|].
    + apply file_text_nil in Et as ->; [|by apply map_items_ok]. cbn. destruct fuel; [lia|]. done.
    + rewrite line_end_cons, <- Et. apply (IH l' fuel s mc t); [lia|lia|done..].
Qed.
End Find.

(** ** The map and the cache *)

(** A key without a line keeps no contents. *)
Definition forget (key : cstring) (t : gmap cstring (option cstring * Z)) : gmap cstring (option cstring * Z) :=
  match t !! key with
  | Some (Some _, seen) => <[key := (None, seen)]> t
  | _ => t
  end.

(** What a lookup in the file does to the table of the cache: the status, and the new table. *)
Definition table_lookup (lines : list (cstring * cstring)) (key : cstring) (now : Z) (t : gmap cstring (option cstring * Z)) :
    Z * gmap cstring (option cstring * Z) :=
  match first_line lines key with
  | Some e => (NSS_STATUS_SUCCESS, snd (table_op true (Update key (Some e) now) t))
  | None =>
      match first_line lines STAR with
      | Some w => (NSS_STATUS_SUCCESS, snd (table_op true (Update STAR (Some w) now) (forget key t)))
      | None => (NSS_STATUS_NOTFOUND, delete STAR (forget key t))
      end
  end.

Section Tables.
Context (now : Z) (ap : file_point) (source : positive).

Lemma forget_entry_run mc t key ret :
  represents source mc t ->
  exists mc', forget_entry now ap source key ret false mc [] = Some ((), mc', []) /\
    represents source mc' (if has_bits ret CHE_MISSING then forget key t else t).
Proof.
  intros HR. pose proof HR as (cs & W & Hrep & Hrel). unfold forget_entry, forget.
  rewrite (reads_bind _ _ _ _ _ (lookup_distinct_reads mc cs W key)). pose proof (Hrep key) as Hk.
  destruct (t !! key) as [[o seen]|] eqn:Et; cbn in Hk; [|exists mc; rewrite Hk; split; [done|by destruct (has_bits _ _)]].
  destruct Hk as (a & me & Ha & Hme & Hx & Hsrc & Hmm). rewrite Ha. cbn [head]. mread. rewrite bool_decide_true by done. cbn [andb].
  injection Hx as <- <-. destruct (has_bits ret CHE_MISSING); [|by exists mc]. destruct (me_mapent me) as [e|] eqn:Ee; [|by exists mc].
  eexists. split; [unfold store; rewrite Hme; reflexivity|].
  by eapply (represents_store source mc t cs W Hrep Hrel); eauto.
Qed.

Lemma forget_wild_run mc t wild :
  represents source mc t ->
  exists mc', forget_wild source wild mc [] = Some ((), mc', []) /\
    represents source mc' (if has_bits wild CHE_MISSING then delete STAR t else t).
Proof.
  intros HR. pose proof HR as (cs & W & Hrep & Hrel). unfold forget_wild.
  rewrite (reads_bind _ _ _ _ _ (lookup_distinct_reads mc cs W STAR)). pose proof (Hrep STAR) as Hk.
  destruct (t !! STAR) as [x|] eqn:Et; unfold rep_entry in Hk.
  2: { rewrite Hk. cbn [head]. exists mc. split; [done|]. rewrite delete_id by done. by destruct (has_bits _ _). }
  destruct Hk as (a & me & Ha & Hme & Hx & Hsrc & Hmm). rewrite Ha. cbn [head]. mread. rewrite bool_decide_true by done. cbn [andb].
  destruct (has_bits wild CHE_MISSING); [|by exists mc].
  destruct (delete_key source mc t STAR [] HR) as (mc' & Hrun & HR'). exists mc'. by rewrite (bind_some _ _ _ _ _ _ _ Hrun).
Qed.
End Tables.

Lemma check_map_indirect_run fs now ap source ctxt nss src a s mc t l key :
  fp_type ap = LKP_INDIRECT -> is_amd src = false -> at_source s source src a mc -> represents source mc t ->
  fs (mapname ctxt) = inl (File (file_text l) false false false) -> Forall map_item l ->
  exists mc', check_map_indirect fs now ap source ctxt nss key s []
      = Some (fst (table_lookup (lines_of l) key now t), with_cache s a mc', []) /\
    represents source mc' (snd (table_lookup (lines_of l) key now t)).
Proof.
  intros Hind Hsun Hat HR Hfs Hl. pose proof Hat as (Hsrc & _).
  assert (length l < S (length (file_text l)))%nat as Hf by (pose proof (items_fuel l (map_items_ok l Hl)); lia).
  pose proof (file_lookup_loop_items now ap source ctxt nss src a Hind Hsun (length l) l (S (length (file_text l))) s mc t key ltac:(lia) Hf Hl Hat HR) as Hone.
  unfold check_map_indirect, lookup_one, table_lookup. rewrite Hfs. cbn [f_text].
  destruct (first_line (lines_of l) key) as [e|].
  - destruct Hone as (r & mc1 & Hrun & Hor & HR1). rewrite (bind_some _ _ _ _ _ _ _ Hrun).
    pose proof (at_with_cache s source src a mc mc1 Hat) as Hat1.
    destruct (forget_entry_run now ap source mc1 _ key r HR1) as (mc2 & Hfor & HR2).
    assert (has_bits r CHE_MISSING = false /\ (r =? CHE_COMPLETED) = false /\ (r =? CHE_FAIL) = false /\ (r =? CHE_MISSING) = false)
      as (Hb & -> & -> & Hm) by (by destruct Hor as [-> | ->]).
    rewrite Hb in HR2. rewrite (bind_load (HH := src_heap) _ _ _ _ src) by done. rewrite Hsun.
    rewrite (bind_some _ _ _ _ _ _ _ (on_source_run _ _ source src a mc1 [] _ _ _ Hat1 Hfor)). rewrite Hm. cbn [negb].
    exists mc2. rewrite with_cache_twice. by split.
  - rewrite (bind_some _ _ _ _ _ _ _ Hone). cbn [CHE_MISSING CHE_COMPLETED CHE_FAIL]. change (CHE_MISSING =? CHE_COMPLETED) with false.
    change (CHE_MISSING =? CHE_FAIL) with false. cbv iota. rewrite (bind_load (HH := src_heap) _ _ _ _ src) by done. rewrite Hsun.
    destruct (forget_entry_run now ap source mc t key CHE_MISSING HR) as (mc1 & Hfor & HR1). change (has_bits CHE_MISSING CHE_MISSING) with true in HR1. cbv iota in HR1.
    rewrite (bind_some _ _ _ _ _ _ _ (on_source_run _ _ source src a mc [] _ _ _ Hat Hfor)). change (negb (CHE_MISSING =? CHE_MISSING)) with false. cbv iota.
    pose proof (at_with_cache s source src a mc mc1 Hat) as Hat1.
    pose proof (wild_lines_items now source src a (length l) l (S (length (file_text l))) _ mc1 _ ltac:(lia) Hf Hl Hat1 HR1) as Hw.
    unfold lookup_wild. rewrite Hfs. cbn [f_text]. destruct (first_line (lines_of l) STAR) as [w|].
    + destruct Hw as (r & mc2 & Hrun & Hor & HR2). rewrite (bind_some _ _ _ _ _ _ _ Hrun).
      rewrite with_cache_twice in Hrun |- *. pose proof (at_with_cache s source src a mc mc2 Hat) as Hat2.
      destruct (forget_wild_run source mc2 _ r HR2) as (mc3 & Hfw & HR3).
      rewrite (bind_some _ _ _ _ _ _ _ (on_source_run _ _ source src a mc2 [] _ _ _ Hat2 Hfw)). exists mc3. rewrite with_cache_twice.
      assert (has_bits r CHE_MISSING = false /\ has_bits r (Z.lor CHE_OK CHE_UPDATED) = true) as [Hb ->] by (by destruct Hor as [-> | ->]).
      rewrite Hb in HR3. by split.
    + rewrite (bind_some _ _ _ _ _ _ _ Hw). destruct (forget_wild_run source mc1 _ CHE_MISSING HR1) as (mc3 & Hfw & HR3).
      rewrite (bind_some _ _ _ _ _ _ _ (on_source_run _ _ source src a mc1 [] _ _ _ Hat1 Hfw)). exists mc3. rewrite with_cache_twice. by split.
Qed.

(** C19. A lookup in an indirect map refines an operation on the table of the cache: a key
    with a line in the file gets the entry of its first line; without one the entry of
    the key loses its contents, and the wildcard line of the file is entered, or the
    wildcard of the cache is deleted when the file has none. The lookup succeeds exactly
    when the file has a line for the key or a wildcard. *)
Theorem check_map_indirect_refines fs now ap source ctxt nss src a s mc t l key :
  fp_type ap = LKP_INDIRECT -> is_amd src = false -> at_source s source src a mc -> represents source mc t ->
  fs (mapname ctxt) = inl (File (file_text l) false false false) -> Forall map_item l ->
  exists mc', check_map_indirect fs now ap source ctxt nss key s []
      = Some (fst (table_lookup (lines_of l) key now t), with_cache s a mc', []) /\
    represents source mc' (snd (table_lookup (lines_of l) key now t)).
Proof. intros. by eapply check_map_indirect_run. Qed.

Lemma check_map_indirect_refines_witness :
  exists mc', check_map_indirect sample_fs 100 sample_point 1%positive sample_context (fun _ _ => mret 0) (str "b") sample_state []
      = Some (NSS_STATUS_SUCCESS, with_cache sample_state 1%positive mc', []) /\
    represents 1%positive mc' {[STAR := (Some (str "srv:/&"), 100)]}.
Proof.
  pose proof (check_map_indirect_refines sample_fs 100 sample_point 1%positive sample_context (fun _ _ => mret 0) sample_source 1%positive
    sample_state sample_cache ∅ sample_items (str "b")) as H.
  destruct H as (mc' & Hrun & HR).
  1-2: done.
  - split; [reflexivity|split; reflexivity].
  - apply sample_represents.
  - reflexivity.
  - apply sample_items_ok.
  - exists mc'. split; [exact Hrun|exact HR].
Defined.

(** * Mounts of keys of a map file *)

Section Cached.
Context (now : Z) (ap : file_point) (source : positive) (src : map_source) (a : positive).
Context (Hsun : is_amd src = false).

(** What the cache has for a key is used. *)
Lemma cached_entry_key s mc t key e seen :
  at_source s source src a mc -> represents source mc t -> t !! key = Some (Some e, seen) -> hd_char key <> "*"%char ->
  cached_entry now ap source key s [] = Some ((true, Some e), s, []).
Proof.
  intros Hat HR Ht Hstar. pose proof Hat as (Hsrc & _). pose proof HR as (cs & W & Hrep & _).
  specialize (Hrep key). rewrite Ht in Hrep. destruct Hrep as (b & me & Hb & Hme & Hx & Hms & Hmm). injection Hx as Hent Hage.
  assert (me_key me = key) as Hkey.
  { assert (b ∈ entries mc cs key) as Hin by (rewrite Hb; set_solver). apply elem_of_entries in Hin as [_ (me' & Hme' & Hk')].
    rewrite Hme in Hme'. by injection Hme' as <-. }
  unfold cached_entry. rewrite (bind_load (HH := src_heap) _ _ _ _ src) by done. rewrite Hsun.
  rewrite <- (with_cache_same s source src a mc Hat) at 2. apply (on_source_run _ _ source src a mc); [done|].
  assert (match_cached_key false (add_wild_of ap) now source key mc [] = Some (Some b, mc, [])) as Hm.
  { unfold match_cached_key. cbn [negb]. rewrite (reads_bind _ _ _ _ _ (cache_lookup_reads mc cs key W)).
    unfold lookup_spec. rewrite Hb. cbn [head].
    rewrite (bind_some _ _ mc [] (Some b) mc []).
    - mread. rewrite Hkey, bool_decide_false by done. by rewrite andb_false_r.
    - mread. rewrite Hent, bool_decide_false by done. by rewrite bool_decide_true. }
  rewrite (bind_some _ _ _ _ _ _ _ Hm). mread. rewrite bool_decide_true by done. by rewrite Hent.
Qed.

(** Without an entry of the key the wildcard is used. *)
Lemma cached_entry_wild s mc t key w seen :
  at_source s source src a mc -> represents source mc t -> t !! key = None -> t !! STAR = Some (Some w, seen) -> relative key ->
  exists mc', cached_entry now ap source key s [] = Some ((true, Some w), with_cache s a mc', []).
Proof.
  intros Hat HR Hk Hs Hrel. pose proof Hat as (Hsrc & _). pose proof HR as (cs & W & Hrep & Hr).
  pose proof (Hrep key) as Hke. rewrite Hk in Hke. pose proof (Hrep STAR) as Hst. rewrite Hs in Hst.
  destruct Hst as (b & me & Hb & Hme & Hx & Hms & Hmm). injection Hx as Hent Hage.
  assert (b ∈ concat cs /\ me_key me = STAR) as [Hbc Hkey].
  { assert (b ∈ entries mc cs STAR) as Hin by (rewrite Hb; set_solver). apply elem_of_entries in Hin as [? (me' & Hme' & Hk')].
    rewrite Hme in Hme'. by injection Hme' as <-. }
  assert (lookup_spec mc cs key = Some b) as Hspec.
  { unfold lookup_spec. rewrite Hke. cbn [head]. destruct (ffind (mc_heap mc) primary (concat cs)) as [f|] eqn:E.
    - apply ffind_Some in E as [Hf _]. destruct (rep_cell source mc t cs W Hrep f Hf) as (mf & x & Hmf & Ht & _).
      unfold sat. rewrite Hmf, (Hr (me_key mf)) by eauto. by rewrite Hb.
    - assert (b ∈ entries mc cs STAR) as Hin by (rewrite Hb; set_solver).
      pose proof (rep_searchable source mc t cs W Hrep _ _ Hin) as Hse. rewrite ffind_None in E. unfold searchable in Hse. by rewrite E in Hse. }
  assert (exists mc', match_cached_key false (add_wild_of ap) now source key mc [] = Some (Some b, mc', []) /\ mc_heap mc' !! b = Some me) as (mc' & Hm & Hme').
  { unfold match_cached_key. cbn [negb]. setoid_rewrite (reads_bind _ _ _ _ _ (cache_lookup_reads mc cs key W)). rewrite Hspec.
    setoid_rewrite (bind_some _ _ mc [] (Some b) mc []); [|mread; rewrite Hent, bool_decide_false by done; by rewrite bool_decide_true].
    setoid_rewrite (reads_bind _ _ _ _ _ (deref_reads _ _ _ Hme)). rewrite Hkey. change (hd_char STAR =a "*") with true. rewrite andb_true_r.
    destruct (add_wild_of ap); [|by exists mc].
    destruct (cache_add_new_run mc cs source key (me_mapent me) now [] W Hke) as (r & mc' & m' & Hrun & Hok & Hres).
    destruct (Hok eq_refl) as [-> ->]. destruct Hres as [[? _]|(_ & b' & cs' & _ & _ & _ & _ & Hframe)]; [done|].
    exists mc'. split; [|by rewrite Hframe].
    assert (cache_update source key (me_mapent me) now mc [] = Some (CHE_UPDATED, mc', [])) as Hup; [|by rewrite (bind_some _ _ _ _ _ _ _ Hup)].
    rewrite (cache_update_run mc cs) by (try done; intros k c _ Hc; by eapply rep_searchable).
    rewrite Hke. cbn [ffind]. unfold update_add. by rewrite (bind_some _ _ _ _ _ _ _ Hrun). }
  exists mc'. unfold cached_entry. rewrite (bind_load (HH := src_heap) _ _ _ _ src) by done. rewrite Hsun.
  apply (on_source_run _ _ source src a mc); [done|]. rewrite (bind_some _ _ _ _ _ _ _ Hm).
  rewrite (reads_bind _ _ _ _ _ (deref_reads _ _ _ Hme')). rewrite bool_decide_true by done. by rewrite Hent.
Qed.
End Cached.

(** The entry of a key or of the wildcard. *)
Definition entry_of (lines : list (cstring * cstring)) (key : cstring) : option cstring :=
  match first_line lines key with Some e => Some e | None => first_line lines STAR end.

Lemma first_line_short l key e : Forall map_item l -> first_line (lines_of l) key = Some e -> strlen e <= MAPENT_MAX_LEN.
Proof.
  induction 1 as [|i l Hi Hl IH]; [done|]. unfold lines_of in *. destruct i as [k sep ent|name|c|]; cbn; [|by destruct Hi|done..].
  case_bool_decide; [|done]. intros [= <-]. by destruct Hi as [(_ & _ & _ & _ & _ & _ & ?) _].
Qed.

Lemma update_lookup (key e : cstring) (now : Z) (t : gmap cstring (option cstring * Z)) :
  (forall o seen, t !! key = Some (o, seen) -> seen <> now) ->
  (table_op true (Update key (Some e) now) t).2 !! key = Some (Some e, now) /\
  forall k, k <> key -> (table_op true (Update key (Some e) now) t).2 !! k = t !! k.
Proof.
  intros Hage. cbn. destruct (t !! key) as [[old seen]|] eqn:E.
  - rewrite (proj2 (Z.eqb_neq seen now)) by eauto. case_bool_decide; cbn; (split; [by rewrite lookup_insert_eq|intros; by rewrite lookup_insert_ne]).
  - cbn. split; [by rewrite lookup_insert_eq|intros; by rewrite lookup_insert_ne].
Qed.

(** An operation that leaves the cache as it is. *)
Lemma with_mc_same {A} s source src a mc (c : CM A) x :
  at_source s source src a mc -> c mc [] = Some (x, mc, []) -> with_mc a c s [] = Some (x, s, []).
Proof.
  intros Hat Hx. pose proof Hat as (_ & _ & Hc). unfold with_mc. rewrite Hc, Hx. by rewrite (with_cache_same s source src a mc Hat : set_caches _ s = s).
Qed.

(** The entry of a key in the cache of the one source. *)
Lemma source_mapent_one ap ent source src a s mc cs key :
  at_source s source src a mc -> wf mc cs -> d_ent s !! fp_entry ap = Some ent -> ent_maps ent = Some source -> s_next src = None ->
  lookup_source_mapent ap key true s [] = Some ((fun b => (a, b)) <$> head (entries mc cs key), s, []).
Proof.
  intros Hat W He Hmaps Hnext. pose proof Hat as (Hsrc & Hmc & Hc).
  unfold lookup_source_mapent. rewrite (bind_load (HH := ent_heap) _ _ _ _ ent) by done. unfold src_fuel. rewrite (bind_heap_fuel (HH := src_heap)).
  rewrite Hmaps. destruct (size (heap (HasHeap := src_heap) s)) as [|n] eqn:Es.
  { apply map_size_empty_inv in Es. cbn in Es. by rewrite Es in Hsrc. }
  cbn [source_mapent]. rewrite (bind_load (HH := src_heap) _ _ _ _ src) by done. rewrite Hmc, bind_from_some.
  rewrite (bind_some _ _ _ _ _ _ _ (with_mc_same s source src a mc _ _ Hat (lookup_distinct_reads mc cs W key []))).
  destruct (head (entries mc cs key)); [done|]. rewrite Hnext. by destruct n.
Qed.

(** The key that is looked up in the file is the key itself. *)
Lemma file_key_same ap source src a s mc t key :
  at_source s source src a mc -> represents source mc t -> fp_pref ap = None -> file_key ap source key s [] = Some (Some key, s, []).
Proof.
  intros Hat HR Hpref. pose proof HR as (cs & W & Hrep & _). specialize (Hrep key). unfold file_key.
  assert (on_source source (me ← cache_lookup_distinct (Some key);
    match me with
    | None => mret None
    | Some b => e ← deref b; match me_mm_root e with Some r => re ← deref r; mret (Some (me_key re)) | None => mret None end
    end) s [] = Some (None, s, [])) as H.
  { rewrite <- (with_cache_same s source src a mc Hat) at 2. apply (on_source_run _ _ source src a mc); [done|].
    rewrite (reads_bind _ _ _ _ _ (lookup_distinct_reads mc cs W key)).
    destruct (t !! key) as [x|]; cbn in Hrep; [|by rewrite Hrep]. destruct Hrep as (b & me & -> & Hme & _ & _ & Hmm & _). cbn [head]. mread. by rewrite Hmm. }
  rewrite (bind_some _ _ _ _ _ _ _ H). unfold prefixed. rewrite Hpref. done.
Qed.

Section Mount.
Context (fs : cstring -> file + bool) (now : Z) (ap : file_point) (source : positive) (ctxt : lookup_context) (nss : positive -> cstring -> MM Z).
Context (mtime : option Z) (expand : cstring -> MM cstring) (parse_mount : cstring -> cstring -> MM Z).
Context (src : map_source) (a : positive) (ent : master_mapent).

(** The mount of an entry, and what is done after it. *)
Definition mount_result (key e : cstring) : MM Z :=
  ret ← parse_mount key e;
  if ret =? 0 then mret NSS_STATUS_SUCCESS
  else
    (if Z.land (fp_flags ap) MOUNT_FLAG_REMOUNT =? 0 then on_source source (cache_update_negative now source key (fp_negative_timeout ap)) else mret ());;
    mret NSS_STATUS_TRYAGAIN.

(** No failure of the key is remembered. *)
Lemma no_negative s mc t key :
  at_source s source src a mc -> represents source mc t -> d_ent s !! fp_entry ap = Some ent -> ent_maps ent = Some source -> s_next src = None ->
  (forall b me, mc_heap mc !! b = Some me -> me_status me < now) -> (forall seen, t !! key <> Some (None, seen)) ->
  exists me, lookup_source_mapent ap key true s [] = Some (me, s, []) /\
    match me with
    | None => mret CHE_OK
    | Some (mc, b) => with_mc mc (cache_lookup_negative now (mret ()) b key)
    end s [] = Some (CHE_OK, s, []).
Proof.
  intros Hat HR He Hmaps Hnext Hstat Hsome. pose proof HR as (cs & W & Hrep & _). specialize (Hrep key).
  pose proof (source_mapent_one ap ent source src a s mc cs key Hat W He Hmaps Hnext) as Hl.
  eexists. split; [exact Hl|]. destruct (t !! key) as [[o seen]|] eqn:Et; cbn in Hrep; [|by rewrite Hrep].
  destruct Hrep as (b & me & -> & Hme & Hx & _). cbn. apply (with_mc_same s source src a mc); [done|]. unfold cache_lookup_negative. mread.
  specialize (Hstat b me Hme). destruct (Z.leb_spec now (me_status me)); [lia|]. injection Hx as Ho _. rewrite Ho. destruct o; [done|]. by destruct (Hsome seen).
Qed.

(** What [mount_cached] does with the contents of the cache. *)
Lemma mount_cached_run s s' key e :
  fp_pref ap = None -> strlen e <= MAPENT_MAX_LEN -> cached_entry now ap source key s [] = Some ((true, Some e), s', []) ->
  mount_cached now ap source parse_mount key s [] = mount_result key e s' [].
Proof.
  intros Hpref He Hc. unfold mount_cached.
  rewrite (bind_some _ _ s [] (Some key) s []) by (unfold prefixed; by rewrite Hpref).
  rewrite (bind_some _ _ _ _ _ _ _ Hc). destruct (Z.ltb_spec MAPENT_MAX_LEN (strlen e)); [lia|]. done.
Qed.

End Mount.

