(* ===== verification/Lookup.v ===== *)
(** * The maps of a mount point (daemon/lookup.c)

    The sources of the maps of a mount point are asked one after the other, those without
    a type through the name service switch. The lookup modules, the files and the mount
    table of the kernel are arguments; directories that are made or removed are part of
    the results. The functions run without steps of other threads in between. *)

From S2P Require Import Prelude CString Hash Memory Args Cache StateQueue Lexer MountNfs MntTable Nsswitch Master FileRead FileLookup.
Open Scope Z_scope.

(** ** What is used of the rest of the program *)

(** The mount point: [lp_root] is the path of the root of its mount tree, [lp_ap] its
    address. *)
Record lookup_point := LookupPoint {
  lp_file : file_point;
  lp_ap : positive;
  lp_path : cstring;
  lp_root : cstring;
  lp_state : states;
  lp_dev : Z;
  lp_positive_timeout : Z
}.

Abbreviation lp_type ap := (fp_type (lp_file ap)).
Abbreviation lp_flags ap := (fp_flags (lp_file ap)).
Abbreviation lp_pref ap := (fp_pref (lp_file ap)).
Abbreviation lp_entry ap := (fp_entry (lp_file ap)).
Abbreviation lp_negative_timeout ap := (fp_negative_timeout (lp_file ap)).

(** [struct lookup_mod] for the source it belongs to. [lo_busy] says that the lock of the
    module is held by a caller. *)
Record lookup_ops := LookupOps {
  lo_open : positive -> MM Z;
  lo_reinit : positive -> MM Z;
  lo_busy : positive -> bool;
  lo_read_map : positive -> Z -> MM Z;
  lo_mount : positive -> cstring -> MM Z
}.

(** What [stat] says of a file: regular, and executable for its owner. [h_search] is
    [conf_amd_get_search_path], and [h_nss] what [nsswitch_parse] finds, when it can be
    read. [h_amd] are the amd mounts with their type and options. *)
Record lookup_env := LookupEnv {
  h_map_dir : cstring;
  h_stat : cstring -> option (bool * bool);
  h_search : cstring -> option cstring;
  h_nss : option (list nss_source);
  h_amd : cstring -> option (cstring * option cstring);
  h_now : Z
}.

Definition set_s_type (t : option cstring) (s : map_source) : map_source :=
  MapSource (s_ref s) (s_flags s) t (s_format s) (s_name s) (s_exp_timeout s) (s_age s) (s_line s) (s_mc s)
    (s_stale s) (s_lookup s) (s_argc s) (s_argv s) (s_instance s) (s_next s) (s_depth s) (s_recurse s).
Definition set_s_argv (v : vector) (s : map_source) : map_source :=
  MapSource (s_ref s) (s_flags s) (s_type s) (s_format s) (s_name s) (s_exp_timeout s) (s_age s) (s_line s) (s_mc s)
    (s_stale s) (s_lookup s) (s_argc s) v (s_instance s) (s_next s) (s_depth s) (s_recurse s).
Definition set_dev_ino (dev ino : Z) (me : mapent) : mapent :=
  Mapent (me_next me) (me_source me) (me_mm_root me) (me_mm_parent me) (me_key me) (me_len me)
    (me_mapent me) (me_stack me) (me_age me) (me_status me) (me_flags me) (me_ioctlfd me) dev ino.

(** [map->argv[0]]. *)
Definition argv0 (s : map_source) : MM (option cstring) :=
  match s_argv s with
  | Ptr a :: _ => mret (Some a)
  | Null :: _ => mret None
  | _ => stuck
  end.

(** [map->argv[0]] where it is dereferenced. *)
Definition map_name (s : map_source) : MM cstring := a ← argv0 s; from_option_M a.

(** The parts of a search path, as [strtok_r] finds them. *)
Fixpoint path_tokens (s tok : cstring) : list cstring :=
  let emit := match tok with [] => [] | _ => [tok] end in
  match s with
  | [] => emit
  | c :: s => if c =a ":" then emit ++ path_tokens s [] else path_tokens s (tok ++ [c])
  end.

Section Lookup.
Context (h : lookup_env) (ops : lookup_ops).

(** ** Reading the master map *)

(** [open_master] and [mod_read_master] are the lookup module of a type, for the map of
    the name. *)
Section ReadMaster.
Context (open_master mod_read_master : cstring -> cstring -> MM Z) (master_set : bool) (depth : Z).

Definition do_read_master (type name : cstring) : MM Z :=
  status ← open_master type name;
  if negb (status =? NSS_STATUS_SUCCESS) then mret status else mod_read_master type name.

Definition read_master_map (type name : cstring) : MM Z :=
  if negb (strcaseeq type (str "files")) then do_read_master type name
  else if bool_decide (is_Some (strchr name "/"%char)) then mret NSS_STATUS_NOTFOUND
  else
    ok ← malloc;
    if negb ok then mret NSS_STATUS_UNKNOWN
    else do_read_master type (h_map_dir h ++ str "/" ++ name).

(** [name] begins with [type], and a comma or a colon follows. *)
Definition old_type (name type : cstring) : bool :=
  strneq name type (length type) &&
  let c := hd_char (drop (length type) name) in (c =a ",") || (c =a ":").

(** The test for a name of the old style; the fourth character of a name is read even
    when the name is shorter. *)
Definition old_style (name : cstring) : MM bool :=
  if old_type name (str "file") || old_type name (str "yp") || old_type name (str "nis") || old_type name (str "nisplus") ||
     old_type name (str "ldap") || old_type name (str "ldaps") || strneq name (str "sss") 3
  then mret true
  else if (length name <? 3)%nat then stuck
  else
    let c := hd_char (drop 3 name) in
    if (c =a ",") || (c =a ":") then mret true else mret (old_type name (str "dir")).

(** A source of the name service switch that can have a master map. *)
Definition master_source (source : cstring) : bool :=
  strneq source (str "files") 5 || strneq source (str "nis") 3 || strneq source (str "nisplus") 7 ||
  strneq source (str "ldap") 4 || strneq source (str "sss") 3.

Definition mark_unavail (result : Z) : MM unit :=
  if result =? NSS_STATUS_UNAVAIL then modify (set_read_fail true) else mret ().

(** [strchr (name, '.')] is replaced with an underscore. *)
Fixpoint dot_to_underscore (name : cstring) : option cstring :=
  match name with
  | [] => None
  | c :: name => if c =a "." then Some ("_"%char :: name) else cons c <$> dot_to_underscore name
  end.

(** A source of the switch: the result, and the name, which is changed when a map has
    been found under the other name. *)
Definition read_master_source (source name : cstring) : MM (Z * cstring) :=
  result ← read_master_map source name;
  if negb (result =? NSS_STATUS_SUCCESS) && (depth =? 0) && negb master_set then
    match dot_to_underscore name with
    | None => mret (result, name)
    | Some other =>
        result ← read_master_map source other;
        mret (result, if result =? NSS_STATUS_SUCCESS then other else name)
    end
  else mret (result, name).

(** The result and the name after the sources. *)
Fixpoint master_sources (l : list nss_source) (result : Z) (name : cstring) : MM (Z * cstring) :=
  match l with
  | [] => mret (result, name)
  | this :: l =>
      if negb (master_source (s_source this)) then master_sources l result name
      else
        '(result, name) ← read_master_source (s_source this) name;
        if (result =? NSS_STATUS_TRYAGAIN) || (result =? NSS_STATUS_UNKNOWN) || (result =? NSS_STATUS_NOTFOUND)
        then master_sources l NSS_STATUS_SUCCESS name
        else
          mark_unavail result;;
          status ← from_option_M (check_nss_result this result);
          if 0 <=? status then mret (result, name) else master_sources l result name
  end.

Definition lookup_nss_read_master (name : cstring) : MM (Z * cstring) :=
  if hd_char name =a "/" then
    result ← do_read_master (if hd_char (tail name) =a "/" then str "ldap" else str "file") name;
    mark_unavail result;; mret (result, name)
  else
    old ← (if bool_decide (is_Some (strchr name ":"%char)) then old_style name else mret false);
    if (old : bool) then
      let source := before name ":"%char in
      if (10 <=? length source)%nat then stuck
      else
        result ← do_read_master source (if strneq name (str "ldap") 4 then name else drop (S (length source)) name);
        mark_unavail result;; mret (result, name)
    else
      match h_nss h with
      | None => mret (NSS_STATUS_UNAVAIL, name)
      | Some l => master_sources l NSS_STATUS_SUCCESS name
      end.

End ReadMaster.

(** ** Finding the file of a map *)

(** The first directory of the search path that has the map. *)
Fixpoint search_dirs (toks : list cstring) (mname : cstring) : MM (option cstring) :=
  match toks with
  | [] => mret None
  | tok :: toks =>
      ok ← malloc;
      if negb ok then mret None
      else
        let this := tok ++ str "/" ++ mname in
        match h_stat h this with Some _ => mret (Some this) | None => search_dirs toks mname end
  end.

Definition find_map_path (ap : lookup_point) (map : positive) : MM (option cstring) :=
  s ← load (HH := src_heap) map;
  mname ← map_name s;
  ok ← malloc;
  if hd_char mname =a "/" then mret (if (ok : bool) then Some mname else None)
  else
    let search_path := if (ok : bool) then Some (h_map_dir h) else None in
    let search_path := if is_amd s then match h_search h (lp_root ap) with Some p => Some p | None => search_path end else search_path in
    match search_path with
    | None => mret None
    | Some p => search_dirs (path_tokens p []) mname
    end.

(** ** Reading a map *)

(** The module of the source is opened, or given its arguments again. *)
Definition ready_module (map : positive) : MM Z :=
  s ← load (HH := src_heap) map;
  if lo_busy ops map then mret (if s_lookup s then NSS_STATUS_SUCCESS else NSS_STATUS_UNAVAIL)
  else if negb (s_lookup s) then
    status ← lo_open ops map;
    if negb (status =? NSS_STATUS_SUCCESS) then mret status
    else update (HH := src_heap) map (set_s_lookup true);; mret NSS_STATUS_SUCCESS
  else lo_reinit ops map.

Definition do_read_map (ap : lookup_point) (map : positive) (age : Z) : MM Z :=
  s ← load (HH := src_heap) map;
  if negb (s_stale s) then mret NSS_STATUS_SUCCESS
  else
    status ← ready_module map;
    if negb (status =? NSS_STATUS_SUCCESS) then mret status
    else
      status ← lo_read_map ops map age;
      (if negb (status =? NSS_STATUS_SUCCESS) then update (HH := src_heap) map (set_s_stale false) else mret ());;
      mret (if (status =? NSS_STATUS_UNKNOWN) || ((lp_type ap =? LKP_INDIRECT) && (status =? NSS_STATUS_UNAVAIL))
            then NSS_STATUS_SUCCESS else status).

(** The file of a map in a file, and the type of its module; the status when there is
    none. *)
Definition file_type (ap : lookup_point) (map : positive) : MM (Z + cstring * cstring) :=
  s ← load (HH := src_heap) map;
  if (s_argc s <? 1)%nat then mret (inl NSS_STATUS_UNKNOWN)
  else
    path ← find_map_path ap map;
    match path with
    | None => mret (inl NSS_STATUS_UNKNOWN)
    | Some path =>
        match h_stat h path with
        | None => mret (inl NSS_STATUS_NOTFOUND)
        | Some (regular, exec) =>
            mret (if negb regular then inl NSS_STATUS_NOTFOUND
                  else inr (path, if (exec : bool) then str "program" else str "file"))
        end
    end.

(** A new instance has the depth of its map. *)
Definition inherit (map instance : positive) : MM unit :=
  s ← load (HH := src_heap) map;
  update (HH := src_heap) instance (set_s_depth (s_depth s) (s_recurse s)).

(** The instance for a map in the file [path]; the status [fail] when it cannot be added. *)
Definition file_instance (map : positive) (path type : cstring) (age fail : Z) : MM (Z + positive) :=
  s ← load (HH := src_heap) map;
  instance ← master_find_source_instance map (Some type) (s_format s) None;
  match instance with
  | Some i => mret (inr i)
  | None =>
      argv ← copy_argv (s_argc s) (s_argv s);
      match argv with
      | None => mret (inl NSS_STATUS_UNKNOWN)
      | Some argv =>
          let argv := <[0%nat := Ptr path]> argv in
          instance ← master_add_source_instance map (Some type) (s_format s) age (s_argc s) argv;
          free_argv (s_argc s) argv;;
          match instance with
          | None => mret (inl fail)
          | Some i => inherit map i;; mret (inr i)
          end
      end
  end.

(** The instance for a source of the switch. *)
Definition switch_instance (map : positive) (type : cstring) (age : Z) : MM ptr :=
  s ← load (HH := src_heap) map;
  instance ← master_find_source_instance map (Some type) (s_format s) None;
  match instance with
  | Some i => mret (Some i)
  | None =>
      instance ← master_add_source_instance map (Some type) (s_format s) age (s_argc s) (s_argv s);
      match instance with
      | None => mret None
      | Some i => inherit map i;; mret (Some i)
      end
  end.

(** The instance is as stale as its map, and is read. *)
Definition read_instance (ap : lookup_point) (map instance : positive) (age : Z) : MM Z :=
  s ← load (HH := src_heap) map;
  update (HH := src_heap) instance (set_s_stale (s_stale s));;
  do_read_map ap instance age.

Definition read_file_source_instance (ap : lookup_point) (map : positive) (age : Z) : MM Z :=
  f ← file_type ap map;
  match f with
  | inl status => mret status
  | inr (path, type) =>
      i ← file_instance map path type age NSS_STATUS_UNAVAIL;
      match i with
      | inl status => mret status
      | inr i => read_instance ap map i age
      end
  end.

Definition read_source_instance (ap : lookup_point) (map : positive) (type : cstring) (age : Z) : MM Z :=
  i ← switch_instance map type age;
  match i with
  | None => mret NSS_STATUS_UNAVAIL
  | Some i => read_instance ap map i age
  end.

(** The path of a file map is put in place of its name: false when it is not found. *)
Definition locate_map (ap : lookup_point) (map : positive) : MM bool :=
  path ← find_map_path ap map;
  s ← load (HH := src_heap) map;
  match path with
  | None => mret false
  | Some path =>
      if (1 <=? s_argc s)%nat then
        update (HH := src_heap) map (fun s => set_s_argv (<[0%nat := Ptr path]> (s_argv s)) s);; mret true
      else mret false
  end.

(** A source whose type is known: the map is found, then [go] reads it or looks a name up
    in it. [amd] is what is done first for a key of an amd map. *)
Definition typed_source (ap : lookup_point) (map : positive) (amd : option (MM Z)) (go : MM Z) : MM Z :=
  s ← load (HH := src_heap) map;
  type ← from_option_M (s_type s);
  name ← argv0 s;
  match name with
  | None => if streq type (str "hosts") then go else mret NSS_STATUS_UNKNOWN
  | Some name =>
      match amd with
      | Some c => c
      | None =>
          if negb (strneq type (str "file") 4) || (hd_char name =a "/") then go
          else
            ok ← locate_map ap map;
            if (ok : bool) then go else mret NSS_STATUS_UNKNOWN
      end
  end.

Definition lookup_map_read_map (ap : lookup_point) (map : positive) (age : Z) : MM Z :=
  typed_source ap map None (do_read_map ap map age).

Definition read_map_source (this : nss_source) (ap : lookup_point) (map : positive) (age : Z) : MM Z :=
  if negb (strcaseeq (s_source this) (str "files")) then read_source_instance ap map (s_source this) age
  else
    s ← load (HH := src_heap) map;
    name ← map_name s;
    if bool_decide (is_Some (strchr name "/"%char)) then mret NSS_STATUS_NOTFOUND
    else read_file_source_instance ap map age.

(** The sources of the switch for a map: whether the walk over the maps ends, the result
    and whether a map has been read. *)
Fixpoint read_switch (ap : lookup_point) (map : positive) (age : Z) (l : list nss_source) (result : Z) (one : bool) : MM (bool * Z * bool) :=
  match l with
  | [] => mret (false, result, one)
  | this :: l =>
      s ← load (HH := src_heap) map;
      if is_amd s && streq (s_source this) (str "sss") then read_switch ap map age l result one
      else
        result ← read_map_source this ap map age;
        if result =? NSS_STATUS_UNKNOWN then read_switch ap map age l result one
        else
          (if result =? NSS_STATUS_UNAVAIL then update (HH := src_heap) map (set_s_stale false) else mret ());;
          let one := one || (result =? NSS_STATUS_SUCCESS) in
          let result := if result =? NSS_STATUS_SUCCESS then NSS_STATUS_TRYAGAIN else result in
          status ← from_option_M (check_nss_result this result);
          if 0 <=? status then mret (true, result, one) else read_switch ap map age l NSS_STATUS_SUCCESS one
  end.

(** A source that is read: as above. *)
Definition read_one_source (ap : lookup_point) (map : positive) (age : Z) (result : Z) (one : bool) : MM (bool * Z * bool) :=
  s ← load (HH := src_heap) map;
  match s_type s with
  | Some _ => result ← lookup_map_read_map ap map age; mret (false, result, one)
  | None =>
      name ← match s_argv s with [] => mret [] | _ => map_name s end;
      if hd_char name =a "/" then
        if hd_char (tail name) =a "/" then
          ok ← malloc;
          if negb ok then mret (false, result, one)
          else
            update (HH := src_heap) map (set_s_type (Some (str "ldap")));;
            result ← do_read_map ap map age; mret (false, result, one)
        else result ← read_file_source_instance ap map age; mret (false, result, one)
      else
        match h_nss h with
        | None => mret (true, 1, one)
        | Some l => read_switch ap map age l result one
        end
  end.

(** The sources from [map] on that are stale and still in the master map. *)
Fixpoint read_sources (fuel : nat) (ap : lookup_point) (map : ptr) (age : Z) (result : Z) (one : bool) : MM (Z * bool) :=
  match map with
  | None => mret (result, one)
  | Some a =>
      match fuel with
      | O => stuck
      | S fuel =>
          s ← load (HH := src_heap) a;
          e ← load (HH := ent_heap) (lp_entry ap);
          if negb (s_stale s) || (s_age s <? ent_age e) then read_sources fuel ap (s_next s) age result one
          else
            '(stop, result, one) ← read_one_source ap a age result one;
            if (stop : bool) then mret (result, one)
            else s ← load (HH := src_heap) a; read_sources fuel ap (s_next s) age result one
      end
  end.

(** The first source: the one that is given, or that of the entry. *)
Definition first_source (ap : lookup_point) (source : ptr) : MM ptr :=
  match source with
  | Some _ => mret source
  | None => e ← load (HH := ent_heap) (lp_entry ap); mret (ent_maps e)
  end.

Definition lookup_nss_read_map (ap : lookup_point) (source : ptr) (age : Z) : MM Z :=
  map ← first_source ap source;
  fuel ← src_fuel;
  '(result, one) ← read_sources fuel ap map age 0 false;
  mret (if (result =? 0) || one then 1 else 0).

(** ** Directories of a browsable map *)

Definition make_browse_path (root key : cstring) (prefix : option cstring) : MM (option cstring) :=
  let k_start := match prefix with
                 | None => Some key
                 | Some p => if (strlen key <? strlen p) || negb (strneq key p (length p)) then None else Some (drop (length p) key)
                 end in
  match k_start with
  | None => mret None
  | Some k_start =>
      if bool_decide (is_Some (strchr k_start "/"%char)) then mret None
      else if KEY_MAX_LEN <? strlen root + strlen k_start then mret None
      else
        ok ← malloc;
        let path := root ++ str "/" ++ k_start in
        if negb ok then mret None
        else if strlen root + strlen key + 2 <? strlen path + 1 then stuck else mret (Some path)
  end.

(** The entries that get a directory; [mkdir] is [mkdir_path] and [dir] the device and
    inode of a directory. The result is the directories that were asked for. *)
Section Ghost.
Context (ap : lookup_point) (mkdir : cstring -> bool) (dir : cstring -> option (Z * Z)).

Definition browsable (me : mapent) : bool :=
  match me_mapent me with
  | None => false
  | Some ent => bool_decide (strchr (me_key me) "*"%char = None) && negb (hd_char (me_key me) =a "/") && negb (starts_with_null_opt ent)
  end.

Definition ghost_entry (mc : positive) (me : addr) : MM (list cstring) :=
  e ← with_mc mc (deref me);
  if negb (browsable e) then mret []
  else
    fullpath ← make_browse_path (lp_path ap) (me_key e) (lp_pref ap);
    match fullpath with
    | None => mret []
    | Some path =>
        (if mkdir path then
           match dir path with Some (dev, ino) => with_mc mc (store me (set_dev_ino dev ino)) | None => mret () end
         else mret ());;
        mret [path]
    end.

Fixpoint ghost_entries (fuel : nat) (mc : positive) (me : option addr) : MM (list cstring) :=
  match me with
  | None => mret []
  | Some a =>
      match fuel with
      | O => stuck
      | S fuel =>
          l ← ghost_entry mc a;
          next ← with_mc mc (cache_enumerate (Some a));
          rest ← ghost_entries fuel mc next;
          mret (l ++ rest)
      end
  end.

Fixpoint ghost_sources (fuel : nat) (map : ptr) : MM (list cstring) :=
  match map with
  | None => mret []
  | Some a =>
      match fuel with
      | O => stuck
      | S fuel =>
          s ← load (HH := src_heap) a;
          e ← load (HH := ent_heap) (lp_entry ap);
          if s_age s <? ent_age e then ghost_sources fuel (s_next s)
          else
            mc ← from_option_M (s_mc s);
            n ← with_mc mc chain_fuel;
            me ← with_mc mc (cache_enumerate None);
            l ← ghost_entries n mc me;
            rest ← ghost_sources fuel (s_next s);
            mret (l ++ rest)
      end
  end.

Definition LKP_FAIL : Z := 1.

Definition lookup_ghost : MM (Z * list cstring) :=
  if streq (lp_path ap) (str "/-") then mret (Z.lor LKP_FAIL LKP_DIRECT, [])
  else if Z.land (lp_flags ap) MOUNT_FLAG_GHOST =? 0 then mret (LKP_INDIRECT, [])
  else
    e ← load (HH := ent_heap) (lp_entry ap);
    fuel ← src_fuel;
    l ← ghost_sources fuel (ent_maps e);
    mret (LKP_INDIRECT, l).

End Ghost.

(** ** Lookups *)

Definition do_lookup_mount (map : positive) (name : cstring) : MM Z :=
  s ← load (HH := src_heap) map;
  status ← (if s_lookup s then mret NSS_STATUS_SUCCESS
            else
              status ← lo_open ops map;
              if status =? NSS_STATUS_SUCCESS then update (HH := src_heap) map (set_s_lookup true);; mret status
              else mret status);
  if negb (status =? NSS_STATUS_SUCCESS) then mret status else lo_mount ops map name.

(** The instances from [next] on, until one has the instance of the hosts map. *)
Fixpoint hosts_instance (fuel : nat) (next : ptr) (args : option (nat * vector)) : MM ptr :=
  match next with
  | None => mret None
  | Some a =>
      match fuel with
      | O => stuck
      | S fuel =>
          instance ← master_find_source_instance a (Some (str "hosts")) (Some (str "sun")) args;
          match instance with
          | Some i => mret (Some i)
          | None => s ← load (HH := src_heap) a; hosts_instance fuel (s_next s) args
          end
      end
  end.

(** The key of the root of the multi-mount that [name] is an offset of. *)
Definition mm_root_key (name : cstring) : CM (option cstring) :=
  me ← cache_lookup_distinct (Some name);
  match me with
  | None => mret None
  | Some a =>
      e ← deref a;
      match me_mm_root e with
      | None => mret None
      | Some r => re ← deref r; mret (Some (me_key re))
      end
  end.

Definition lookup_amd_instance (ap : lookup_point) (map : positive) (name : cstring) : MM Z :=
  root ← on_source map (mm_root_key name);
  match root with
  | None => mret NSS_STATUS_UNKNOWN
  | Some key =>
      ok ← malloc;
      if negb ok then mret NSS_STATUS_UNKNOWN
      else
        match h_amd h (lp_path ap ++ str "/" ++ key) with
        | None => mret NSS_STATUS_UNKNOWN
        | Some (type, amd_opts) =>
            if negb (streq type (str "host")) then mret NSS_STATUS_UNKNOWN
            else
              let args := match amd_opts with Some ((_ :: _) as o) => Some (1%nat, [Ptr o; Null]) | _ => None end in
              instance ← master_find_source_instance map (Some (str "hosts")) (Some (str "sun")) args;
              s ← load (HH := src_heap) map;
              fuel ← src_fuel;
              instance ← match instance with Some _ => mret instance | None => hosts_instance fuel (s_instance s) args end;
              match instance with
              | None => mret NSS_STATUS_UNKNOWN
              | Some i => do_lookup_mount i name
              end
        end
  end.

(** A key of an amd map that begins with a slash is an offset. *)
Definition amd_offset (map : positive) (name : cstring) : MM bool :=
  s ← load (HH := src_heap) map; mret ((hd_char name =a "/") && is_amd s).

Definition lookup_name_file_source_instance (ap : lookup_point) (map : positive) (name : cstring) : MM Z :=
  amd ← amd_offset map name;
  if (amd : bool) then lookup_amd_instance ap map name
  else
    f ← file_type ap map;
    match f with
    | inl status => mret status
    | inr (path, type) =>
        i ← file_instance map path type (h_now h) NSS_STATUS_NOTFOUND;
        match i with
        | inl status => mret status
        | inr i => do_lookup_mount i name
        end
    end.

Definition lookup_name_source_instance (ap : lookup_point) (map : positive) (type name : cstring) : MM Z :=
  amd ← amd_offset map name;
  if (amd : bool) then lookup_amd_instance ap map name
  else
    i ← switch_instance map type (h_now h);
    match i with
    | None => mret NSS_STATUS_NOTFOUND
    | Some i => do_lookup_mount i name
    end.

Definition do_name_lookup_mount (ap : lookup_point) (map : positive) (name : cstring) : MM Z :=
  amd ← amd_offset map name;
  typed_source ap map (if (amd : bool) then Some (lookup_amd_instance ap map name) else None) (do_lookup_mount map name).

Definition lookup_map_name (this : nss_source) (ap : lookup_point) (map : positive) (name : cstring) : MM Z :=
  if negb (strcaseeq (s_source this) (str "files")) then lookup_name_source_instance ap map (s_source this) name
  else
    s ← load (HH := src_heap) map;
    mname ← map_name s;
    if bool_decide (is_Some (strchr mname "/"%char)) then mret NSS_STATUS_NOTFOUND
    else lookup_name_file_source_instance ap map name.

Definition lookup_get_map_source (entry : positive) : MM ptr :=
  e ← load (HH := ent_heap) entry;
  map ← from_option_M (ent_maps e);
  s ← load (HH := src_heap) map;
  match s_type s with
  | Some _ => mret (Some map)
  | None =>
      name ← map_name s;
      if negb (hd_char name =a "/") || (hd_char (tail name) =a "/") then mret (Some map)
      else
        match h_stat h name with
        | None => mret None
        | Some (regular, exec) =>
            if negb regular then mret None
            else master_find_source_instance map (Some (if (exec : bool) then str "program" else str "file")) (s_format s) None
        end
  end.

(** The entry of a key that has not been found. *)
Definition remember_missing (ap : lookup_point) (map : positive) (name : cstring) : CM unit :=
  me ← cache_lookup_distinct (Some name);
  rv ← match me with
       | Some a => cache_push_mapent a None
       | None => cache_update map name None (h_now h)
       end;
  if rv =? CHE_FAIL then mret ()
  else
    me ← cache_lookup_distinct (Some name);
    match me with
    | None => mret ()
    | Some a => store a (fun e => set_status e (h_now h + lp_negative_timeout ap))
    end.

Definition update_negative_cache (ap : lookup_point) (source : ptr) (name : cstring) : MM unit :=
  included ← match source with
             | None => mret false
             | Some a => s ← load (HH := src_heap) a; mret (negb (s_depth s =? 0))
             end;
  if (included : bool) || streq name STAR then mret ()
  else
    me ← lookup_source_mapent (lp_file ap) name true;
    match me with
    | Some _ => mret ()
    | None =>
        map ← match source with Some _ => mret source | None => lookup_get_map_source (lp_entry ap) end;
        match map with
        | None => mret ()
        | Some map => on_source map (remember_missing ap map name)
        end
    end.

(** The sources of the switch for a map: whether the walk over the maps ends, and the
    result. *)
Fixpoint mount_switch (ap : lookup_point) (map : positive) (name : cstring) (l : list nss_source) (result : Z) : MM (bool * Z) :=
  match l with
  | [] => mret (false, result)
  | this :: l =>
      s ← load (HH := src_heap) map;
      if is_amd s && streq (s_source this) (str "sss") then mount_switch ap map name l NSS_STATUS_UNAVAIL
      else
        result ← lookup_map_name this ap map name;
        if result =? NSS_STATUS_UNKNOWN then mount_switch ap map name l result
        else
          status ← from_option_M (check_nss_result this result);
          if 0 <=? status then mret (true, result) else mount_switch ap map name l result
  end.

(** A source that is asked: as above. *)
Definition mount_one_source (ap : lookup_point) (map : positive) (name : cstring) (result : Z) : MM (bool * Z) :=
  s ← load (HH := src_heap) map;
  match s_type s with
  | Some _ => result ← do_name_lookup_mount ap map name; mret (result =? NSS_STATUS_SUCCESS, result)
  | None =>
      mname ← map_name s;
      if hd_char mname =a "/" then
        if hd_char (tail mname) =a "/" then
          ok ← malloc;
          if negb ok then mret (false, result)
          else
            update (HH := src_heap) map (set_s_type (Some (str "ldap")));;
            result ← do_lookup_mount map name; mret (result =? NSS_STATUS_SUCCESS, result)
        else result ← lookup_name_file_source_instance ap map name; mret (result =? NSS_STATUS_SUCCESS, result)
      else
        match h_nss h with
        | None => mret (true, 1)
        | Some l => mount_switch ap map name l result
        end
  end.

Fixpoint mount_sources (fuel : nat) (ap : lookup_point) (map : ptr) (name : cstring) (result : Z) : MM Z :=
  match map with
  | None => mret result
  | Some a =>
      match fuel with
      | O => stuck
      | S fuel =>
          s ← load (HH := src_heap) a;
          e ← load (HH := ent_heap) (lp_entry ap);
          if s_age s <? ent_age e then mount_sources fuel ap (s_next s) name result
          else
            '(stop, result) ← mount_one_source ap a name result;
            if (stop : bool) then mret result
            else s ← load (HH := src_heap) a; mount_sources fuel ap (s_next s) name result
      end
  end.

Definition lookup_nss_mount (ap : lookup_point) (source : ptr) (name : cstring) : MM Z :=
  map ← first_source ap source;
  fuel ← src_fuel;
  result ← mount_sources fuel ap map name NSS_STATUS_UNKNOWN;
  (if bool_decide (lp_state ap = ST_INIT) then mret () else send_map_update_request (lp_ap ap) (lp_entry ap));;
  (if (result =? NSS_STATUS_NOTFOUND) || (result =? NSS_STATUS_UNAVAIL) then update_negative_cache ap source name else mret ());;
  mret (if result =? 0 then 1 else 0).

End Lookup.

(** ** Closing the modules *)

(** The modules of the instances, of the instances of these, and of the source. *)
Fixpoint lookup_close_lookup_instances (fuel : nat) (map : positive) : MM unit :=
  match fuel with
  | O => stuck
  | S fuel =>
      s ← load (HH := src_heap) map;
      (fix go (n : nat) (p : ptr) : MM unit :=
         match p with
         | None => mret ()
         | Some a =>
             match n with
             | O => stuck
             | S n => lookup_close_lookup_instances fuel a;; i ← load (HH := src_heap) a; go n (s_next i)
             end
         end) fuel (s_instance s);;
      s ← load (HH := src_heap) map;
      if s_lookup s then update (HH := src_heap) map (set_s_lookup false) else mret ()
  end.

Fixpoint close_sources (fuel : nat) (map : ptr) : MM unit :=
  match map with
  | None => mret ()
  | Some a =>
      match fuel with
      | O => stuck
      | S n =>
          depth ← src_fuel;
          lookup_close_lookup_instances (S depth) a;;
          s ← load (HH := src_heap) a; close_sources n (s_next s)
      end
  end.

Definition lookup_close_lookup (ap : lookup_point) : MM unit :=
  e ← load (HH := ent_heap) (lp_entry ap);
  fuel ← src_fuel;
  close_sources fuel (ent_maps e).

(** ** Pruning *)

Definition make_fullpath (ap : lookup_point) (key : cstring) : MM (option cstring) :=
  if negb (hd_char key =a "/") then make_browse_path (lp_path ap) key (lp_pref ap)
  else if KEY_MAX_LEN <? strlen key + 1 then mret None
  else ok ← malloc; mret (if (ok : bool) then Some key else None).

(** The first source that has been read since the entry was updated and has the key: its
    cache, and the entry. *)
Fixpoint valid_mapent (fuel : nat) (age : Z) (map : ptr) (key : cstring) (distinct : bool) : MM (option (positive * addr)) :=
  match map with
  | None => mret None
  | Some a =>
      match fuel with
      | O => stuck
      | S fuel =>
          s ← load (HH := src_heap) a;
          if s_age s <? age then valid_mapent fuel age (s_next s) key distinct
          else
            mc ← from_option_M (s_mc s);
            me ← with_mc mc (if distinct then cache_lookup_distinct (Some key) else cache_lookup (Some key));
            match me with
            | Some me => mret (Some (mc, me))
            | None => valid_mapent fuel age (s_next s) key distinct
            end
      end
  end.

Definition lookup_source_valid_mapent (ap : lookup_point) (key : cstring) (distinct : bool) : MM (option (positive * addr)) :=
  e ← load (HH := ent_heap) (lp_entry ap);
  fuel ← src_fuel;
  valid_mapent fuel (ent_age e) (ent_maps e) key distinct.

Section Prune.
Context (ap : lookup_point) (mounted_real mounted_autofs : cstring -> bool).

(** An entry of an indirect map that is not pruned whatever its age. *)
Definition prune_keeps (a : addr) (me : mapent) (age : Z) : bool :=
  (lp_type ap =? LKP_INDIRECT) &&
  ((hd_char (me_key me) =a "/") || IS_MM_ROOT a me ||
   ((Z.land (lp_flags ap) (Z.lor MOUNT_FLAG_GHOST MOUNT_FLAG_AMD_CACHE_ALL) =? 0) &&
    (age - (me_age me + lp_positive_timeout ap) <? 0))).

(** The key is valid elsewhere. An entry of this cache has been removed from the map and
    becomes negative. *)
Definition valid_elsewhere (mc : positive) (key : cstring) : MM bool :=
  valid ← lookup_source_valid_mapent ap key true;
  match valid with
  | None => mret false
  | Some (c, a) =>
      if bool_decide (c = mc) then with_mc c (store a (fun e => set_mapent e None));; mret false
      else mret true
  end.

(** The entries of the key are deleted; the directory that is removed. *)
Definition prune_key (mc : positive) (key path : cstring) (valid : bool) : MM (list (cstring * Z)) :=
  this ← with_mc mc (cache_lookup_distinct (Some key));
  match this with
  | None => mret []
  | Some a =>
      if valid then _ ← with_mc mc (cache_delete key); mret []
      else if mounted_autofs path then mret []
      else
        e ← with_mc mc (deref a);
        let devid := if lp_type ap =? LKP_DIRECT then me_dev e else lp_dev ap in
        status ← (if me_ioctlfd e =? -1 then with_mc mc (cache_delete key) else mret CHE_FAIL);
        mret (if negb (status =? CHE_FAIL) &&
                 (negb (lp_type ap =? LKP_INDIRECT) || negb (Z.land (lp_flags ap) MOUNT_FLAG_GHOST =? 0))
              then [(path, devid)] else [])
  end.

(** One entry: the next one, and the directories that are removed. *)
Definition prune_entry (mc : positive) (age : Z) (me : addr) : MM (option addr * list (cstring * Z)) :=
  e ← with_mc mc (deref me);
  let skip := next ← with_mc mc (cache_enumerate (Some me)); mret (next, []) in
  if age <=? me_age e then
    wild ← match me_mapent e with
           | Some _ => mret true
           | None => w ← with_mc mc (cache_lookup (Some STAR)); mret (bool_decide (is_Some w))
           end;
    (if (wild : bool) then with_mc mc (store me (fun e => set_status e 0)) else mret ());;
    skip
  else if prune_keeps me e age then skip
  else
    ok ← malloc;
    if negb ok || bool_decide (is_Some (strchr (me_key e) "*"%char)) then skip
    else
      let key := me_key e in
      path ← make_fullpath ap key;
      match path with
      | None => skip
      | Some path =>
          valid ← valid_elsewhere mc key;
          if negb valid && mounted_real path then skip
          else
            next ← with_mc mc (cache_enumerate (Some me));
            next_key ← match next with
                       | None => mret None
                       | Some n => ne ← with_mc mc (deref n); ok ← malloc; mret (if (ok : bool) then Some (me_key ne) else None)
                       end;
            l ← prune_key mc key path valid;
            next ← match next_key with
                   | None => mret next
                   | Some k => with_mc mc (cache_lookup_distinct (Some k))
                   end;
            mret (next, l)
      end.

Fixpoint prune_entries (fuel : nat) (mc : positive) (age : Z) (me : option addr) : MM (list (cstring * Z)) :=
  match me with
  | None => mret []
  | Some a =>
      match fuel with
      | O => stuck
      | S fuel =>
          '(next, l) ← prune_entry mc age a;
          rest ← prune_entries fuel mc age next;
          mret (l ++ rest)
      end
  end.

(** The number of entries bounds the rounds: each one goes forward in the table. *)
Definition lookup_prune_one_cache (mc : positive) (age : Z) : MM (list (cstring * Z)) :=
  fuel ← with_mc mc chain_fuel;
  me ← with_mc mc (cache_enumerate None);
  prune_entries fuel mc age me.

Fixpoint prune_sources (fuel : nat) (age : Z) (map : ptr) : MM (list (cstring * Z)) :=
  match map with
  | None => mret []
  | Some a =>
      match fuel with
      | O => stuck
      | S n =>
          s ← load (HH := src_heap) a;
          depth ← src_fuel;
          stale ← (if s_stale s then mret true else check_stale_instances (S depth) a);
          if negb stale then prune_sources n age (s_next s)
          else
            mc ← from_option_M (s_mc s);
            l ← lookup_prune_one_cache mc age;
            clear_stale_instances (S depth) a;;
            update (HH := src_heap) a (set_s_stale false);;
            rest ← prune_sources n age (s_next s);
            mret (l ++ rest)
      end
  end.

Definition lookup_prune_cache (age : Z) : MM (list (cstring * Z)) :=
  e ← load (HH := ent_heap) (lp_entry ap);
  fuel ← src_fuel;
  prune_sources fuel age (ent_maps e).

(** The descriptor of the first entry of the key is closed: whether there is an entry,
    and the descriptor. *)
Fixpoint close_ioctlfd (fuel : nat) (map : ptr) (key : cstring) : MM (Z * option Z) :=
  match map with
  | None => mret (0, None)
  | Some a =>
      match fuel with
      | O => stuck
      | S fuel =>
          s ← load (HH := src_heap) a;
          mc ← from_option_M (s_mc s);
          me ← with_mc mc (cache_lookup_distinct (Some key));
          match me with
          | None => close_ioctlfd fuel (s_next s) key
          | Some me =>
              e ← with_mc mc (deref me);
              if me_ioctlfd e =? -1 then mret (1, None)
              else with_mc mc (store me (fun e => set_ioctlfd e (-1)));; mret (1, Some (me_ioctlfd e))
          end
      end
  end.

Definition lookup_source_close_ioctlfd (key : cstring) : MM (Z * option Z) :=
  e ← load (HH := ent_heap) (lp_entry ap);
  fuel ← src_fuel;
  close_ioctlfd fuel (ent_maps e) key.

End Prune.
