(* ===== verification/LookupProps.v ===== *)
(** * The paths of browsable maps, and the pruning of a cache *)

From S2P Require Import Prelude CString Hash Memory Args Cache CacheInv CacheOps CacheProps CacheUpdate CacheNegative CacheMap StateQueue Lexer MountNfs MntTable Nsswitch Master FileRead FileLookup FileProps FileMap Lookup.
Open Scope Z_scope.

(** ** The paths of keys *)

(** The key without the prefix of the mount point. *)
Definition key_rest (key : cstring) (prefix : option cstring) : option cstring :=
  match prefix with
  | None => Some key
  | Some p => if bool_decide (p `prefix_of` key) then Some (drop (length p) key) else None
  end.

(** The directory of a key below [root]. *)
Definition browse_path (root key : cstring) (prefix : option cstring) : option cstring :=
  match key_rest key prefix with
  | Some rest => if bool_decide ("/"%char ∈ rest) || (KEY_MAX_LEN <? strlen root + strlen rest) then None else Some (root ++ str "/" ++ rest)
  | None => None
  end.

Lemma prefix_strneq (key p : cstring) :
  (strlen key <? strlen p) || negb (strneq key p (length p)) = negb (bool_decide (p `prefix_of` key)).
Proof.
  unfold strneq, strlen. rewrite (take_ge p) by done. destruct (decide (p `prefix_of` key)) as [[k ->]|H].
  - rewrite take_app_length, !bool_decide_true by (done || by exists k). rewrite length_app.
    destruct (Z.ltb_spec (Z.of_nat (length p + length k)) (Z.of_nat (length p))); [lia|done].
  - rewrite !bool_decide_false; [by rewrite orb_true_r|done|]. intros E. destruct H. exists (drop (length p) key).
    by rewrite <- E at 1; rewrite take_drop.
Qed.

Lemma strchr_found s c : bool_decide (is_Some (strchr s c)) = bool_decide (c ∈ s).
Proof.
  apply bool_decide_ext. rewrite <- not_eq_None_Some, strchr_None. split; [apply dec_stable|auto].
Qed.

(** The path is written into the memory that was allocated for it, whatever the
    allocator does. *)
Lemma make_browse_path_run root key prefix s m :
  exists ok m', make_browse_path root key prefix s m = Some (if (ok : bool) then browse_path root key prefix else None, s, m') /\
    (m = [] -> ok = true /\ m' = []).
Proof.
  unfold make_browse_path, browse_path, key_rest.
  assert (match prefix with
    | None => Some key
    | Some p => if (strlen key <? strlen p) || negb (strneq key p (length p)) then None else Some (drop (length p) key)
    end = match prefix with
    | None => Some key
    | Some p => if bool_decide (p `prefix_of` key) then Some (drop (length p) key) else None
    end) as ->.
  { destruct prefix as [p|]; [|done]. rewrite prefix_strneq. by case_bool_decide. }
  destruct (match prefix with None => _ | Some p => _ end) as [rest|] eqn:E; [|by exists true, m].
  assert (strlen rest <= strlen key) as Hlen.
  { destruct prefix as [p|]; [|by injection E as ->]. case_bool_decide; [|done]. injection E as <-.
    unfold strlen. rewrite length_drop. lia. }
  rewrite strchr_found. case_bool_decide; [by exists true, m|]. cbn [orb].
  destruct (KEY_MAX_LEN <? strlen root + strlen rest); [by exists true, m|].
  match goal with |- context [(malloc ≫= ?k) s m] => destruct (bind_malloc k s m) as (b & m' & Hb & Hm) end.
  rewrite Hb. exists b, m'. split; [|done]. destruct b; [|done]. cbn [negb].
  destruct (Z.ltb_spec (strlen root + strlen key + 2) (strlen (root ++ str "/" ++ rest) + 1)) as [Hlt|]; [|done].
  unfold strlen in *. rewrite !length_app in Hlt. cbn in Hlt. lia.
Qed.

(** [make_browse_path] never writes behind the memory of the path; with memory it returns
    a path exactly for the keys that have the prefix of the mount point, no slash behind
    it and fit the limit of keys, and this path ends in the rest of the key. *)
Theorem make_browse_path_spec root key prefix s m :
  exists r m', make_browse_path root key prefix s m = Some (r, s, m') /\
    (m = [] -> forall path, r = Some path <-> exists rest, path = root ++ str "/" ++ rest /\
       key = default [] prefix ++ rest /\ "/"%char ∉ rest /\ strlen root + strlen rest <= KEY_MAX_LEN).
Proof.
  destruct (make_browse_path_run root key prefix s m) as (ok & m' & Hrun & Hm). do 2 eexists. split; [exact Hrun|].
  intros E path. destruct (Hm E) as [-> _]. unfold browse_path.
  assert (forall rest, key_rest key prefix = Some rest <-> key = default [] prefix ++ rest) as Hrest.
  { intros rest. unfold key_rest. destruct prefix as [p|]; cbn; [|split; congruence]. case_bool_decide as Hp.
    - destruct Hp as [k ->]. rewrite drop_app_length. split; [by intros [= ->]|]. by intros ?%app_inv_head; subst.
    - split; [done|]. intros ->. destruct Hp. by exists rest. }
  split.
  - destruct (key_rest key prefix) as [rest|] eqn:Ek; [|done]. destruct (_ || _) eqn:Eb; [done|]. intros [= <-].
    boolify. exists rest. split_and!; [done|by apply Hrest|done|lia].
  - intros (rest & -> & Hk & Hs & Hl). apply Hrest in Hk. rewrite Hk. rewrite bool_decide_false by done.
    destruct (Z.ltb_spec KEY_MAX_LEN (strlen root + strlen rest)); [lia|done].
Qed.

(** ** Caches in the order of their entries *)

(** The entries of the buckets of other keys do not have the key. *)
Lemma others_insert mc cs key b :
  wf mc cs -> cs !! key_index mc key = Some b ->
  concat (<[key_index mc key := others (mc_heap mc) key b]> cs) = others (mc_heap mc) key (concat cs).
Proof.
  intros W Hb. rewrite <- (take_drop_middle cs (key_index mc key) b) at 2 by done.
  rewrite insert_take_drop by (by eapply lookup_lt_Some). rewrite !concat_app. cbn [concat]. unfold others. rewrite !filter_app.
  assert (forall css, (forall i d, css !! i = Some d -> exists j, cs !! j = Some d /\ j <> key_index mc key) ->
    filter (fun a => sat (mc_heap mc) (has_key key) a = false) (concat css) = concat css) as Hoth.
  { intros css Hcss. apply filter_all. intros a (d & [i Hd]%list_elem_of_lookup & Ha)%elem_of_concat.
    destruct (Hcss i d Hd) as (j & Hj & Hne). destruct (sat (mc_heap mc) (has_key key) a) eqn:E; [|done].
    destruct Hne. by eapply (wf_key_bucket_unique mc cs W). }
  rewrite (Hoth (take (key_index mc key) cs)), (Hoth (drop (S (key_index mc key)) cs)); [done|..].
  - intros i d Hd. rewrite lookup_drop in Hd. eexists. split; [exact Hd|lia].
  - intros i d Hd. exists i. apply lookup_take_Some in Hd as [Hd Hi]. split; [done|lia].
Qed.

Lemma cache_delete_view mc cs key m :
  wf mc cs -> (forall a, a ∈ entries mc cs key -> sat (mc_heap mc) in_mm a = false) ->
  exists mc' cs', cache_delete key mc m = Some (CHE_OK, mc', m) /\ wf mc' cs' /\
    concat cs' = others (mc_heap mc) key (concat cs) /\
    kept_payload (mc_heap mc) (mc_heap mc') (fun b => b ∈ concat cs').
Proof.
  intros W Hmm. destruct (wf_key_bucket _ _ W key) as (p & b & _ & Hb & _).
  destruct (delete_bucket mc cs key b m W Hb) as (mc' & Hrun & W' & _ & Hkp & _).
  { intros a Ha Hs. apply Hmm. rewrite (entries_bucket _ _ W key b Hb). by apply list_elem_of_filter. }
  do 2 eexists. split_and!; [exact Hrun|exact W'|by apply others_insert|].
  rewrite (others_insert _ _ _ _ W Hb). intros a [Hs Ha]%list_elem_of_filter. apply Hkp.
  destruct (decide (a ∈ b)); [right|by left]. by apply list_elem_of_filter.
Qed.

(** The cache of a source, with its entries in their order. *)
Record ordered (ms : addr) (mc : mapent_cache) (cs : list (list addr)) (t : table) : Prop := Ordered {
  ord_wf : wf mc cs;
  ord_rep : forall key, rep_entry ms mc cs key (t !! key);
  ord_rel : forall key, is_Some (t !! key) -> relative key
}.

Lemma ordered_represents ms mc cs t : ordered ms mc cs t -> represents ms mc t.
Proof. intros [W Hrep Hrel]. by exists cs. Qed.

Section Ordered.
Context (ms : addr) (mc : mapent_cache) (cs : list (list addr)) (t : table) (O : ordered ms mc cs t).

Lemma ord_primary a : a ∈ concat cs -> sat (mc_heap mc) primary a = true.
Proof using O.
  intros Ha. destruct (rep_cell ms mc t cs (ord_wf _ _ _ _ O) (ord_rep _ _ _ _ O) a Ha) as (me & x & Hme & _ & Hmm).
  unfold sat, primary, IS_MM. by rewrite Hme, Hmm.
Qed.

Lemma ffind_primary l : (forall a, a ∈ l -> a ∈ concat cs) -> ffind (mc_heap mc) primary l = head l.
Proof using O. intros H. destruct l as [|a l]; [done|]. cbn. by rewrite ord_primary by set_solver. Qed.

Lemma enumerate_first : reads (cache_enumerate None) mc (head (concat cs)).
Proof using O. intros m. cbn. rewrite (lookup_first_reads mc cs (ord_wf _ _ _ _ O)). by rewrite ffind_primary. Qed.

Lemma enumerate_next X a Y : concat cs = X ++ a :: Y -> reads (cache_enumerate (Some a)) mc (head Y).
Proof using O.
  intros HX m. destruct (concat_split _ _ _ _ HX) as (i & l1 & l2 & Hi & HY). unfold cache_enumerate.
  rewrite (lookup_next_reads mc cs i l1 a l2 (ord_wf _ _ _ _ O) Hi), <- HY. by rewrite ffind_primary by (intros b Hb; rewrite HX; set_solver).
Qed.

(** An entry is the only one of its key. *)
Lemma ord_entry a : a ∈ concat cs ->
  exists me x, mc_heap mc !! a = Some me /\ t !! me_key me = Some x /\ entries mc cs (me_key me) = [a] /\ holds ms x me.
Proof using O.
  intros Ha. destruct (rep_cell ms mc t cs (ord_wf _ _ _ _ O) (ord_rep _ _ _ _ O) a Ha) as (me & x & Hme & Hx & _).
  pose proof (ord_rep _ _ _ _ O (me_key me)) as He. rewrite Hx in He. destruct He as (b & mb & Hb & Hmb & Hh).
  assert (a ∈ entries mc cs (me_key me)) as Hin by (apply elem_of_entries; eauto).
  rewrite Hb in Hin. apply list_elem_of_singleton in Hin as <-. exists me, x. split_and!; [done..|]. by simplify_eq.
Qed.

(** A change of an entry in place. *)
Lemma ordered_store a me me' x :
  a ∈ concat cs -> mc_heap mc !! a = Some me -> me_next me' = me_next me -> me_key me' = me_key me ->
  holds ms x me' -> ordered ms (with_heap (<[a := me']> (mc_heap mc)) mc) cs (<[me_key me := x]> t).
Proof using O.
  intros Ha Hme Hn Hk Hx. destruct (ord_entry a Ha) as (me0 & x0 & Hme0 & Hx0 & He & _). simplify_eq.
  split; [by apply (wf_update mc cs a me); [apply O|..]| |].
  - intros key. destruct (decide (key = me_key me)) as [->|Hne].
    + rewrite lookup_insert_eq. exists a, me'. rewrite (entries_update _ _ _ me), He by done.
      cbn. by rewrite lookup_insert_eq.
    + rewrite lookup_insert_ne by done. apply (rep_entry_keep ms mc cs); [apply O|by eapply entries_update|].
      intros b [_ (mb & Hmb & <-)]%elem_of_entries. cbn. rewrite lookup_insert_ne; [done|]. intros ->. congruence.
  - intros key. rewrite lookup_insert_is_Some. intros [<-|[_ ?]]; apply (ord_rel _ _ _ _ O); eauto.
Qed.

Lemma others_single X a Y me : concat cs = X ++ a :: Y -> mc_heap mc !! a = Some me -> others (mc_heap mc) (me_key me) (concat cs) = X ++ Y.
Proof using O.
  intros HX Hme. pose proof (wf_nodup _ _ (ord_wf _ _ _ _ O)) as Hnd. rewrite HX in Hnd. apply NoDup_app in Hnd as (_ & Hd & [HaY _]%NoDup_cons).
  destruct (ord_entry a) as (me0 & x & Hme0 & _ & He & _); [rewrite HX; set_solver|]. simplify_eq.
  assert (forall b, b ∈ concat cs -> b <> a -> sat (mc_heap mc) (has_key (me_key me)) b = false) as Hb.
  { intros b Hb Hne. destruct (sat (mc_heap mc) (has_key (me_key me)) b) eqn:E; [|done].
    assert (b ∈ entries mc cs (me_key me)) as Hin by (by apply list_elem_of_filter). rewrite He in Hin. set_solver. }
  rewrite HX. unfold others. rewrite filter_app, filter_cons_False.
  - f_equal; apply filter_all; intros b Hin; apply Hb; try (rewrite HX; set_solver); set_solver.
  - unfold sat, has_key. by rewrite Hme, streq_refl.
Qed.

(** An entry is deleted. *)
Lemma ordered_delete X a Y me m :
  concat cs = X ++ a :: Y -> mc_heap mc !! a = Some me ->
  exists mc' cs', cache_delete (me_key me) mc m = Some (CHE_OK, mc', m) /\ ordered ms mc' cs' (delete (me_key me) t) /\ concat cs' = X ++ Y /\
    kept_payload (mc_heap mc) (mc_heap mc') (fun b => b ∈ X ++ Y).
Proof using O.
  intros HX Hme. destruct (cache_delete_view mc cs (me_key me) m (ord_wf _ _ _ _ O)) as (mc' & cs' & Hrun & W' & Hcs & Hkp).
  { intros b [Hb _]%elem_of_entries. destruct (ord_entry b Hb) as (mb & x & Hmb & _ & _ & _ & _ & Hmm & _). by eapply not_in_mm. }
  rewrite (others_single X a Y me HX Hme) in Hcs. rewrite Hcs in Hkp. exists mc', cs'. split_and!; [done| |done|done].
  assert (forall b mb, b ∈ X ++ Y -> mc_heap mc' !! b = Some mb -> exists mb', mc_heap mc !! b = Some mb' /\ payload mb = payload mb') as Hpay.
  { intros b mb Hb Hmb. specialize (Hkp b Hb). rewrite Hmb in Hkp. destruct (mc_heap mc !! b) as [mb'|]; [|done]. exists mb'. split; [done|]. cbn in Hkp. congruence. }
  split; [done| |].
  - intros key. destruct (decide (key = me_key me)) as [->|Hne].
    + rewrite lookup_delete_eq. cbn. apply filter_none. rewrite Hcs. intros b Hb. destruct (sat _ _ b) eqn:E; [|done].
      apply sat_key in E as (mb & Hmb & Hk). destruct (Hpay b mb Hb Hmb) as (mb' & Hmb' & Hp). apply payload_fields in Hp as [Hk' _].
      assert (b ∈ others (mc_heap mc) (me_key me) (concat cs)) as [Hs _]%list_elem_of_filter by (by rewrite (others_single X a Y me)).
      unfold sat, has_key in Hs. rewrite Hmb', <- Hk', Hk, streq_refl in Hs. done.
    + rewrite lookup_delete_ne by done. apply (rep_entry_keep ms mc cs); [apply O| |].
      * unfold entries. rewrite Hcs, <- (others_single X a Y me HX Hme). unfold others. rewrite list_filter_filter. apply filter_ext_in.
        intros b Hb. assert (b ∈ X ++ Y -> sat (mc_heap mc') (has_key key) b = sat (mc_heap mc) (has_key key) b) as Hs.
        { intros Hin. apply sat_payload; [by apply Hkp|done]. }
        destruct (decide (b = a)) as [->|Hba]; [|rewrite Hs by (rewrite HX in Hb; set_solver)].
        -- unfold sat, has_key. rewrite Hme, streq_refl. rewrite (proj2 (streq_false _ _)) by done. split; [by intros []|done].
        -- split; [by intros []|]. intros Hsat. split; [done|]. apply sat_key in Hsat as (mb & Hmb & Hk).
           unfold sat, has_key. rewrite Hmb, Hk. apply streq_false. done.
      * intros b Hb. apply Hkp. apply elem_of_entries in Hb as [Hb (mb & Hmb & Hk)]. rewrite HX in Hb.
        apply elem_of_app in Hb as [?|[->|?]%elem_of_cons]; [set_solver|congruence|set_solver].
  - intros key. rewrite lookup_delete_is_Some. intros [_ ?]. by apply O.
Qed.

End Ordered.
