(* ===== verification/LookupPrune.v ===== *)
(** * Pruning the cache of a source after its map has been read *)

From S2P Require Import Prelude CString Hash Memory Args Cache CacheInv CacheOps CacheProps CacheUpdate CacheNegative CacheMap StateQueue Lexer MountNfs MntTable Nsswitch Master FileRead FileLookup FileProps FileMap Lookup LookupProps.
Open Scope Z_scope.

(** ** Operations of a cache *)

Lemma with_mc_run {A} (f : CM A) s c mc m x mc' m' :
  d_mc s !! c = Some mc -> f mc m = Some (x, mc', m') -> with_mc c f s m = Some (x, with_cache s c mc', m').
Proof. intros H Hf. unfold with_mc. by rewrite H, Hf. Qed.

Lemma with_mc_reads {A} (f : CM A) s c mc x : d_mc s !! c = Some mc -> reads f mc x -> reads (with_mc c f) s x.
Proof.
  intros H Hf m. unfold with_mc. rewrite H, Hf. rewrite insert_id by done. by destruct s.
Qed.

Lemma with_cache_at s c mc : d_mc (with_cache s c mc) !! c = Some mc.
Proof. cbn. by rewrite lookup_insert_eq. Qed.

Section Prune.
Context (ap : lookup_point) (real autofs : cstring -> bool) (source c : positive) (src : map_source) (ent : master_mapent) (age : Z).
Context (Htype : lp_type ap = LKP_INDIRECT) (Hmaps : ent_maps ent = Some source) (Hnext : s_next src = None).

(** The mount point has the one source, and this cache. *)
Definition pruned_state (s : dstate) (mc : mapent_cache) : Prop :=
  at_source s source src c mc /\ d_ent s !! lp_entry ap = Some ent.

Lemma pruned_with s mc mc' : pruned_state s mc -> pruned_state (with_cache s c mc') mc'.
Proof. intros [H He]. split; [by eapply at_with_cache|done]. Qed.

(** ** What is pruned *)

(** The directory of an entry that is gone from the map; [None] when the entry is left as
    it is. *)
Definition stale_path (key : cstring) (seen : Z) : option cstring :=
  if age <=? seen then None
  else if (Z.land (lp_flags ap) (Z.lor MOUNT_FLAG_GHOST MOUNT_FLAG_AMD_CACHE_ALL) =? 0) && (age - (seen + lp_positive_timeout ap) <? 0) then None
  else if bool_decide ("*"%char ∈ key) then None
  else browse_path (lp_path ap) key (lp_pref ap).

(** The source has been read since the master map was. *)
Definition source_valid : bool := ent_age ent <=? s_age src.

(** An entry that is mounted stays, without its contents. *)
Definition prune_result (key : cstring) (x : option cstring * Z) : option (option cstring * Z) :=
  match stale_path key (snd x) with
  | None => Some x
  | Some path => if real path || autofs path then Some (if source_valid then None else fst x, snd x) else None
  end.

Definition removed_dirs (key : cstring) (x : option cstring * Z) : list (cstring * Z) :=
  match stale_path key (snd x), prune_result key x with
  | Some path, None => if Z.land (lp_flags ap) MOUNT_FLAG_GHOST =? 0 then [] else [(path, lp_dev ap)]
  | _, _ => []
  end.

(** ** One entry *)

Section Entry.
Context (s : dstate) (mc : mapent_cache) (cs : list (list addr)) (t : table) (X : list addr) (a : addr) (Y : list addr) (me : mapent) (x : option cstring * Z).
Context (Hs : pruned_state s mc) (O : ordered source mc cs t) (HX : concat cs = X ++ a :: Y).
Context (Hme : mc_heap mc !! a = Some me) (Hx : t !! me_key me = Some x) (He : entries mc cs (me_key me) = [a]) (Hh : holds source x me).

Lemma entry_in : a ∈ concat cs.
Proof using HX. rewrite HX. apply elem_of_app. right. constructor. Qed.

(** The next entry, in a cache in which the entry has been changed in place. *)
Lemma next_after s' mc' t' m :
  pruned_state s' mc' -> ordered source mc' cs t' ->
  (next ← with_mc c (cache_enumerate (Some a)); mret (next, @nil (cstring * Z))) s' m = Some ((head Y, []), s', m).
Proof using HX.
  intros [(_ & _ & Hc) _] O'. by rewrite (reads_bind _ _ _ _ _ (with_mc_reads _ _ _ _ _ Hc (enumerate_next _ _ _ _ O' _ _ _ HX))).
Qed.

Lemma store_entry me' x' :
  me_next me' = me_next me -> me_key me' = me_key me -> holds source x' me' ->
  exists mc', store a (fun _ => me') mc [] = Some ((), mc', []) /\ ordered source mc' cs (<[me_key me := x']> t) /\
    mc_heap mc' = <[a := me']> (mc_heap mc).
Proof using HX Hme O.
  intros H1 H2 H3. eexists. split; [unfold store; by rewrite Hme|]. split; [|done].
  by apply (ordered_store source mc cs t O a me); [apply entry_in|..].
Qed.

(** The source is asked for a valid entry, and has this one. *)
Lemma valid_here :
  lookup_source_valid_mapent ap (me_key me) true s [] = Some (if source_valid then Some (c, a) else None, s, []).
Proof using Hs O He Hmaps Hnext.
  destruct Hs as [(Hsrc & Hmc & Hc) Hent]. unfold lookup_source_valid_mapent.
  rewrite (bind_load (HH := ent_heap) _ _ _ _ ent) by done. unfold src_fuel. rewrite bind_heap_fuel, Hmaps.
  assert (exists n, size (d_src s) = S n) as [n Hn].
  { destruct (size (d_src s)) as [|n] eqn:E; [|eauto]. apply map_size_empty_iff in E. by rewrite E, lookup_empty in Hsrc. }
  change (heap s) with (d_src s). rewrite Hn. cbn [valid_mapent]. rewrite (bind_load (HH := src_heap) _ _ _ _ src) by done.
  unfold source_valid. rewrite Z.leb_antisym. destruct (s_age src <? ent_age ent); cbn [negb].
  - rewrite Hnext. by destruct n.
  - rewrite Hmc, bind_from_some. rewrite (reads_bind _ _ _ _ _ (with_mc_reads _ _ _ _ _ Hc (lookup_distinct_reads _ _ (ord_wf _ _ _ _ O) _))).
    by rewrite He.
Qed.

(** The entry of a key that is pruned is negative, when its source is valid. *)
Definition forgotten : mapent := if source_valid then set_mapent me None else me.

Lemma valid_elsewhere_run :
  exists mc', valid_elsewhere ap c (me_key me) s [] = Some (false, with_cache s c mc', []) /\
    ordered source mc' cs (<[me_key me := (if source_valid then None else fst x, snd x)]> t) /\
    mc_heap mc' = <[a := forgotten]> (mc_heap mc).
Proof using Hs O He Hmaps Hnext HX Hme Hx Hh.
  unfold valid_elsewhere, forgotten. rewrite (bind_some _ _ _ _ _ _ _ valid_here). pose proof Hs as [Hat Hent]. pose proof Hat as (_ & _ & Hc).
  destruct source_valid.
  - rewrite bool_decide_true by done.
    destruct (store_entry (set_mapent me None) (None, snd x)) as (mc' & Hst & O' & Hheap); try done.
    { by destruct Hh as (<- & ?). }
    exists mc'. split_and!; [|done..]. unfold store in Hst. rewrite Hme in Hst.
    rewrite (bind_some _ _ _ _ _ _ _ (with_mc_run (store a (fun e => set_mapent e None)) _ _ _ _ () mc' [] Hc ltac:(unfold store; by rewrite Hme))).
    done.
  - exists mc. split_and!; [by rewrite (with_cache_same _ _ _ _ _ Hat)| |by rewrite insert_id].
    destruct x. cbn. by rewrite insert_id.
Qed.

(** The entry is deleted, unless an autofs file system is mounted there. *)
Lemma prune_key_run path :
  exists mc' cs' X', prune_key ap autofs c (me_key me) path false s []
      = Some (if autofs path || (Z.land (lp_flags ap) MOUNT_FLAG_GHOST =? 0) then [] else [(path, lp_dev ap)], with_cache s c mc', []) /\
    ordered source mc' cs' (if autofs path then t else delete (me_key me) t) /\ concat cs' = X' ++ Y /\
    kept_payload (mc_heap mc) (mc_heap mc') (fun b => b ∈ Y).
Proof using Hs O He HX Hme Htype Hh.
  destruct Hs as [Hat Hent]. pose proof Hat as (_ & _ & Hc). unfold prune_key.
  rewrite (reads_bind _ _ _ _ _ (with_mc_reads _ _ _ _ _ Hc (lookup_distinct_reads _ _ (ord_wf _ _ _ _ O) _))), He. cbn [head hd_error].
  destruct (autofs path) eqn:Ea; cbn [orb].
  - exists mc, cs, (X ++ [a]). rewrite (with_cache_same _ _ _ _ _ Hat), <- app_assoc. by split_and!.
  - rewrite (reads_bind _ _ _ _ _ (with_mc_reads _ _ _ _ _ Hc (deref_reads _ _ _ Hme))).
    destruct Hh as (_ & _ & _ & ->). change (-1 =? -1) with true. cbn [negb].
    destruct (ordered_delete source mc cs t O X a Y me [] HX Hme) as (mc' & cs' & Hrun & O' & Hcs & Hkp).
    rewrite (bind_some _ _ _ _ _ _ _ (with_mc_run _ _ _ _ _ _ _ _ Hc Hrun)). rewrite Htype.
    exists mc', cs', X. split_and!; [|done|done|].
    + change (CHE_OK =? CHE_FAIL) with false. change (LKP_INDIRECT =? LKP_INDIRECT) with true. cbn [negb andb orb].
      by destruct (Z.land _ _ =? 0).
    + intros b Hb. apply Hkp. apply elem_of_app. by right.
Qed.

Lemma wild_reads : exists b, reads
  (match me_mapent me with
   | Some _ => mret true
   | None => w ← with_mc c (cache_lookup (Some STAR)); mret (bool_decide (is_Some w))
   end) s b.
Proof using Hs O.
  destruct Hs as [(_ & _ & Hc) _]. destruct (me_mapent me); [by exists true|]. eexists. intros m.
  rewrite (reads_bind _ _ _ _ _ (with_mc_reads _ _ _ _ _ Hc (cache_lookup_reads _ _ _ (ord_wf _ _ _ _ O)))). reflexivity.
Qed.

(** An entry of the map stays; its failures are forgotten. *)
Lemma prune_valid (age_ok : (age <=? snd x) = true) :
  exists mc', prune_entry ap real autofs c age a s [] = Some ((head Y, []), with_cache s c mc', []) /\
    ordered source mc' cs t /\ kept_payload (mc_heap mc) (mc_heap mc') (fun b => b ∈ Y).
Proof using Hs O HX Hme Hx Hh He.
  pose proof Hs as [Hat Hent]. pose proof Hat as (_ & _ & Hc). unfold prune_entry.
  rewrite (reads_bind _ _ _ _ _ (with_mc_reads _ _ _ _ _ Hc (deref_reads _ _ _ Hme))).
  assert (me_age me = snd x) as -> by (by destruct Hh as (<- & _)). rewrite age_ok.
  destruct wild_reads as [w Hw]. rewrite (reads_bind _ _ _ _ _ Hw). destruct w.
  - destruct (store_entry (set_status me 0) x) as (mc' & Hst & O' & Hheap); try done.
    exists mc'. rewrite insert_id in O' by done. split_and!; [|done|].
    + assert (store a (fun e => set_status e 0) mc [] = Some ((), mc', [])) as Hst'.
      { unfold store in Hst |- *. by rewrite Hme in Hst |- *. }
      rewrite (bind_some _ _ _ _ _ _ _ (with_mc_run _ _ _ _ _ _ _ _ Hc Hst')).
      apply (next_after _ mc' t); [by eapply pruned_with|done].
    + intros b Hb. rewrite Hheap, lookup_insert_ne; [done|]. intros ->.
      pose proof (wf_nodup _ _ (ord_wf _ _ _ _ O)) as Hnd. rewrite HX in Hnd. by apply NoDup_app in Hnd as (_ & _ & [? _]%NoDup_cons).
  - exists mc. rewrite (with_cache_same _ _ _ _ _ Hat). split_and!; [|done|done]. by apply (next_after _ mc t).
Qed.

Lemma entry_relative : (hd_char (me_key me) =a "/") = false.
Proof using O Hx. apply (ord_rel _ _ _ _ O). by rewrite Hx. Qed.

Lemma full_path s' : make_fullpath ap (me_key me) s' [] = Some (browse_path (lp_path ap) (me_key me) (lp_pref ap), s', []).
Proof using O Hx.
  unfold make_fullpath. rewrite entry_relative. cbn [negb].
  destruct (make_browse_path_run (lp_path ap) (me_key me) (lp_pref ap) s' []) as (ok & m' & Hrun & Hm).
  destruct (Hm eq_refl) as [-> ->]. exact Hrun.
Qed.

(** What is done with an entry that is older than the map. *)
Lemma prune_old_unfold :
  (age <=? snd x) = false ->
  prune_entry ap real autofs c age a s [] =
    match stale_path (me_key me) (snd x) with
    | None => (next ← with_mc c (cache_enumerate (Some a)); mret (next, [])) s []
    | Some path =>
        (valid ← valid_elsewhere ap c (me_key me);
         if negb valid && real path then next ← with_mc c (cache_enumerate (Some a)); mret (next, [])
         else
           next ← with_mc c (cache_enumerate (Some a));
           next_key ← match next with
                      | None => mret None
                      | Some n => ne ← with_mc c (deref n); ok ← malloc; mret (if (ok : bool) then Some (me_key ne) else None)
                      end;
           l ← prune_key ap autofs c (me_key me) path valid;
           next ← match next_key with
                  | None => mret next
                  | Some k => with_mc c (cache_lookup_distinct (Some k))
                  end;
           mret (next, l)) s []
    end.
Proof using Hs O Hme Hx Hh Htype.
  intros Hage. destruct Hs as [Hat Hent]. pose proof Hat as (_ & _ & Hc). unfold prune_entry.
  rewrite (reads_bind _ _ _ _ _ (with_mc_reads _ _ _ _ _ Hc (deref_reads _ _ _ Hme))).
  destruct Hh as (Hval & _ & Hmm & _). assert (me_age me = snd x) as Hseen by (by rewrite <- Hval). rewrite Hseen, Hage.
  unfold stale_path. rewrite Hage. unfold prune_keeps. rewrite Htype, entry_relative, Hseen.
  unfold IS_MM_ROOT. rewrite Hmm. rewrite bool_decide_false by done. change (LKP_INDIRECT =? LKP_INDIRECT) with true. cbn [andb orb].
  destruct (_ && _); [done|].
  rewrite (bind_some malloc _ s [] true s []) by done. cbn [negb orb]. rewrite strchr_found.
  destruct (bool_decide ("*"%char ∈ me_key me)); [done|].
  rewrite (bind_some _ _ _ _ _ _ _ (full_path s)). by destruct (browse_path _ _ _).
Qed.

End Entry.

(** The entry behind this one is found again by its key. *)
Lemma find_next mc Y s' mc' cs' t' X' :
  pruned_state s' mc' -> ordered source mc' cs' t' -> concat cs' = X' ++ Y -> kept_payload (mc_heap mc) (mc_heap mc') (fun b => b ∈ Y) ->
  forall b mb, head Y = Some b -> mc_heap mc !! b = Some mb -> reads (with_mc c (cache_lookup_distinct (Some (me_key mb)))) s' (head Y).
Proof using.
  intros [(_ & _ & Hc) _] O' HX' Hkp b mb Hb Hmb. assert (b ∈ Y) as HbY by (destruct Y; [done|]; injection Hb as ->; constructor).
  destruct (ord_entry source mc' cs' t' O' b) as (mb' & y & Hmb' & _ & He' & _); [rewrite HX'; apply elem_of_app; by right|].
  destruct (kept_payload_lookup _ _ _ b mb Hkp HbY Hmb) as (mb2 & Hmb2 & Hp). assert (mb2 = mb') as -> by congruence.
  apply payload_fields in Hp as [Hk _]. rewrite <- Hk.
  apply (with_mc_reads _ _ _ mc'); [done|]. intros m. rewrite (lookup_distinct_reads _ _ (ord_wf _ _ _ _ O') (me_key mb') m), He'. by rewrite Hb.
Qed.

Lemma kept_insert mc mc' a me X Y cs t : ordered source mc cs t -> concat cs = X ++ a :: Y -> mc_heap mc' = <[a := me]> (mc_heap mc) ->
  kept_payload (mc_heap mc) (mc_heap mc') (fun b => b ∈ Y).
Proof using.
  intros O HX Hheap b Hb. rewrite Hheap, lookup_insert_ne; [done|]. intros ->.
  pose proof (wf_nodup _ _ (ord_wf _ _ _ _ O)) as Hnd. rewrite HX in Hnd. by apply NoDup_app in Hnd as (_ & _ & [? _]%NoDup_cons).
Qed.

Lemma kept_payload_trans (h1 h2 h3 : gmap addr mapent) P : kept_payload h1 h2 P -> kept_payload h2 h3 P -> kept_payload h1 h3 P.
Proof using. intros H1 H2 b Hb. by rewrite H2, H1. Qed.

(** One step of the loop: the table has what is left of the entry. *)
Definition prune_at (key : cstring) (t : table) : table := partial_alter (fun o => o ≫= prune_result key) key t.

Lemma prune_at_keep key t x : t !! key = Some x -> prune_result key x = Some x -> prune_at key t = t.
Proof using. intros Hx Hr. apply map_eq. intros k. unfold prune_at.
  destruct (decide (k = key)) as [->|]; [by rewrite lookup_partial_alter_eq, Hx|by rewrite lookup_partial_alter_ne]. Qed.

(** An entry that is gone from the map and not mounted: [mc1] is the cache in which it
    has lost its contents. *)
Lemma prune_gone s mc1 cs t1 X a Y me1 path :
  pruned_state s mc1 -> ordered source mc1 cs t1 -> concat cs = X ++ a :: Y -> mc_heap mc1 !! a = Some me1 ->
  exists mc' cs' X',
    (next ← with_mc c (cache_enumerate (Some a));
     next_key ← match next with
                | None => mret None
                | Some n => ne ← with_mc c (deref n); ok ← malloc; mret (if (ok : bool) then Some (me_key ne) else None)
                end;
     l ← prune_key ap autofs c (me_key me1) path false;
     next ← match next_key with
            | None => mret next
            | Some k => with_mc c (cache_lookup_distinct (Some k))
            end;
     mret (next, l)) s []
    = Some ((head Y, if autofs path || (Z.land (lp_flags ap) MOUNT_FLAG_GHOST =? 0) then [] else [(path, lp_dev ap)]), with_cache s c mc', []) /\
    ordered source mc' cs' (if autofs path then t1 else delete (me_key me1) t1) /\ concat cs' = X' ++ Y /\
    kept_payload (mc_heap mc1) (mc_heap mc') (fun b => b ∈ Y).
Proof using Htype.
  intros Hs1 O1 HX Hme1. pose proof (enumerate_next _ _ _ _ O1 X a Y HX) as Hn. pose proof Hs1 as [(_ & _ & Hc1) _].
  destruct (ord_entry _ _ _ _ O1 a) as (me2 & x2 & Hme2 & Hx2 & He2 & Hh2); [rewrite HX; apply elem_of_app; right; constructor|].
  assert (me2 = me1) as -> by congruence. clear Hme2.
  destruct (prune_key_run s mc1 cs _ X a Y me1 x2 Hs1 O1 HX Hme1 He2 Hh2 path) as (mc2 & cs2 & X2 & Hrun & O2 & HX2 & Hkp2).
  exists mc2, cs2, X2. split; [|done]. rewrite (reads_bind _ _ _ _ _ (with_mc_reads _ _ _ _ _ Hc1 Hn)).
  pose proof (find_next mc1 Y (with_cache s c mc2) mc2 cs2 _ X2 (pruned_with _ _ _ Hs1) O2 HX2 Hkp2) as Hfind.
  destruct Y as [|b Y']; cbn [head hd_error].
  - by rewrite bind_ret_l, (bind_some _ _ _ _ _ _ _ Hrun), bind_ret_l.
  - destruct (ord_entry _ _ _ _ O1 b) as (mb & xb & Hmb & _); [rewrite HX; apply elem_of_app; right; by do 2 constructor|].
    rewrite <- (bind_bind (with_mc c (deref b))). rewrite (reads_bind _ _ _ _ _ (with_mc_reads _ _ _ _ _ Hc1 (deref_reads _ _ _ Hmb))).
    rewrite <- (bind_bind malloc). rewrite (bind_some malloc _ _ [] true _ []) by done. rewrite bind_ret_l.
    by rewrite (bind_some _ _ _ _ _ _ _ Hrun), (reads_bind _ _ _ _ _ (Hfind b mb eq_refl Hmb)).
Qed.

Lemma prune_entry_step s mc cs t X a Y me :
  pruned_state s mc -> ordered source mc cs t -> concat cs = X ++ a :: Y -> mc_heap mc !! a = Some me ->
  exists mc' cs' X', prune_entry ap real autofs c age a s []
      = Some ((head Y, from_option (removed_dirs (me_key me)) [] (t !! me_key me)), with_cache s c mc', []) /\
    ordered source mc' cs' (prune_at (me_key me) t) /\ concat cs' = X' ++ Y /\
    kept_payload (mc_heap mc) (mc_heap mc') (fun b => b ∈ Y).
Proof using Htype Hmaps Hnext.
  intros Hs O HX Hme. destruct (ord_entry source mc cs t O a) as (me0 & x & Hme0 & Hx & He & Hh).
  { rewrite HX. apply elem_of_app. right. constructor. }
  assert (me0 = me) as -> by congruence. clear Hme0. rewrite Hx. cbn [from_option].
  assert (stale_path (me_key me) (snd x) = None -> prune_result (me_key me) x = Some x /\ removed_dirs (me_key me) x = []) as Hkeep.
  { intros E. unfold removed_dirs, prune_result. by rewrite E. }
  destruct (age <=? snd x) eqn:Hage.
  - assert (stale_path (me_key me) (snd x) = None) as E by (unfold stale_path; by rewrite Hage).
    destruct (Hkeep E) as [Hr ->]. rewrite (prune_at_keep _ _ x) by done.
    destruct (prune_valid s mc cs t X a Y me x) as (mc' & Hrun & O' & Hkp); try done.
    exists mc', cs, (X ++ [a]). split_and!; [done..|by rewrite <- app_assoc|done].
  - rewrite (prune_old_unfold s mc cs t a me x) by done.
    destruct (stale_path (me_key me) (snd x)) as [path|] eqn:E.
    2: { destruct (Hkeep eq_refl) as [Hr ->]. rewrite (prune_at_keep _ _ x) by done.
      exists mc, cs, (X ++ [a]). rewrite (with_cache_same s source src c mc) by apply Hs.
      split_and!; [by eapply (next_after cs X a Y)|done|by rewrite <- app_assoc|done]. }
    destruct (valid_elsewhere_run s mc cs t X a Y me x) as (mc1 & Hv & O1 & Hheap); try done.
    rewrite (bind_some _ _ _ _ _ _ _ Hv). cbn [negb andb]. pose proof (pruned_with s mc mc1 Hs) as Hs1.
    pose proof (kept_insert _ _ _ _ _ _ _ _ O HX Hheap) as Hkp1.
    unfold removed_dirs, prune_at, prune_result. rewrite E. destruct (real path) eqn:Er; cbn [orb].
    { exists mc1, cs, (X ++ [a]). split_and!; [by eapply (next_after cs X a Y)| |by rewrite <- app_assoc|done].
      erewrite (partial_alter_ext _ (fun _ => Some _)); [exact O1|]. intros ? <-. rewrite Hx. cbn. by rewrite E, Er. }
    set (me1 := forgotten me). assert (mc_heap mc1 !! a = Some me1) as Hme1 by (rewrite Hheap; apply lookup_insert_eq).
    assert (me_key me1 = me_key me) as Hk1 by (unfold me1, forgotten; by destruct source_valid).
    destruct (prune_gone (with_cache s c mc1) mc1 cs _ X a Y me1 path Hs1 O1 HX Hme1) as (mc2 & cs2 & X2 & Hrun & O2 & HX2 & Hkp2).
    rewrite Hk1, with_cache_twice in Hrun. exists mc2, cs2, X2. split_and!; [| |done|by eapply kept_payload_trans].
    + rewrite Hrun. by destruct (autofs path), (Z.land (lp_flags ap) MOUNT_FLAG_GHOST =? 0).
    + rewrite Hk1 in O2. destruct (autofs path) eqn:Ea.
      * erewrite (partial_alter_ext _ (fun _ => Some _)); [exact O2|]. intros ? <-. rewrite Hx. cbn. by rewrite E, Er, Ea.
      * rewrite delete_insert_eq in O2. erewrite (partial_alter_ext _ (fun _ => None)); [exact O2|]. intros ? <-. rewrite Hx. cbn. by rewrite E, Er, Ea.
Qed.

(** ** The whole cache *)

Definition has_keys (h : gmap addr mapent) (Y : list addr) (ks : list cstring) : Prop :=
  Forall2 (fun b k => exists me, h !! b = Some me /\ me_key me = k) Y ks.

Lemma has_keys_kept h h' Y ks : has_keys h Y ks -> kept_payload h h' (fun b => b ∈ Y) -> has_keys h' Y ks.
Proof using.
  induction 1 as [|b k Y ks (me & Hme & <-) H IH]; intros Hk; constructor.
  - destruct (kept_payload_lookup _ _ _ b me Hk) as (me' & Hme' & Hp); [constructor|done|]. apply payload_fields in Hp as [? _]. eauto.
  - apply IH. intros b' Hb'. apply Hk. by constructor.
Qed.

Definition prune_all (ks : list cstring) (t : table) : table := foldl (fun t k => prune_at k t) t ks.

Definition dirs_of (t : table) (key : cstring) : list (cstring * Z) := from_option (removed_dirs key) [] (t !! key).

Lemma prune_at_other key k t : k <> key -> prune_at key t !! k = t !! k.
Proof using. intros. unfold prune_at. by rewrite lookup_partial_alter_ne. Qed.

Lemma prune_all_lookup ks : forall t k, NoDup ks -> prune_all ks t !! k = if bool_decide (k ∈ ks) then t !! k ≫= prune_result k else t !! k.
Proof using.
  induction ks as [|key ks IH]; intros t k Hnd; [done|]. apply NoDup_cons in Hnd as [Hkey Hnd].
  change (prune_all (key :: ks) t) with (prune_all ks (prune_at key t)). rewrite IH by done.
  destruct (decide (k = key)) as [->|Hne].
  - rewrite bool_decide_false by done. rewrite bool_decide_true by constructor. unfold prune_at. by rewrite lookup_partial_alter_eq.
  - rewrite prune_at_other by done. erewrite bool_decide_ext; [done|]. rewrite elem_of_cons. tauto.
Qed.

Lemma prune_entries_run Y : forall s mc cs t X ks fuel,
  pruned_state s mc -> ordered source mc cs t -> concat cs = X ++ Y -> has_keys (mc_heap mc) Y ks -> NoDup ks -> (length Y <= fuel)%nat ->
  exists mc' cs', prune_entries ap real autofs fuel c age (head Y) s [] = Some (ks ≫= dirs_of t, with_cache s c mc', []) /\
    ordered source mc' cs' (prune_all ks t).
Proof using Htype Hmaps Hnext.
  induction Y as [|a Y IH]; intros s mc cs t X ks fuel Hs O HX Hks Hnd Hf.
  { apply Forall2_nil_inv_l in Hks as ->. exists mc, cs. rewrite (with_cache_same s source src c mc) by apply Hs. by destruct fuel. }
  destruct fuel as [|fuel]; [cbn in Hf; lia|]. destruct ks as [|k ks]; [by apply Forall2_nil_inv_r in Hks|].
  apply Forall2_cons in Hks as [(me & Hme & <-) Hks]. apply NoDup_cons in Hnd as [Hk Hnd].
  destruct (prune_entry_step s mc cs t X a Y me Hs O HX Hme) as (mc1 & cs1 & X1 & Hrun & O1 & HX1 & Hkp).
  destruct (IH (with_cache s c mc1) mc1 cs1 _ X1 ks fuel (pruned_with _ _ _ Hs) O1 HX1 (has_keys_kept _ _ _ _ Hks Hkp) Hnd) as (mc' & cs' & Hrest & O').
  { cbn in Hf. lia. }
  exists mc', cs'. split; [|done]. cbn [head hd_error prune_entries]. rewrite (bind_some _ _ _ _ _ _ _ Hrun).
  cbn beta iota. rewrite (bind_some _ _ _ _ _ _ _ Hrest), with_cache_twice. unfold mret, M_ret. do 3 f_equal.
  rewrite bind_cons. f_equal. apply Forall_bind_ext, Forall_forall. intros k Hin. unfold dirs_of. rewrite prune_at_other; [done|]. by intros ->.
Qed.

(** The keys of all entries. *)
Lemma all_keys mc cs t :
  ordered source mc cs t -> exists ks, has_keys (mc_heap mc) (concat cs) ks /\ NoDup ks /\ forall k, k ∈ ks <-> is_Some (t !! k).
Proof using.
  intros O. assert (forall l, (forall b, b ∈ l -> b ∈ concat cs) -> NoDup l -> exists ks, has_keys (mc_heap mc) l ks /\ NoDup ks /\
    forall k, k ∈ ks <-> exists b me, b ∈ l /\ mc_heap mc !! b = Some me /\ me_key me = k) as Hl.
  { induction l as [|b l IH]; intros Hin Hnd.
    { exists []. split; [constructor|]. split; [constructor|]. intros k. split; [by intros ?%not_elem_of_nil|]. by intros (b & me & ?%not_elem_of_nil & _). }
    apply NoDup_cons in Hnd as [Hb Hnd]. destruct IH as (ks & Hks & Hnk & Hk); [intros b' Hb'; apply Hin; by constructor|done|].
    destruct (ord_entry source mc cs t O b) as (me & x & Hme & _ & He & _); [apply Hin; constructor|].
    exists (me_key me :: ks). split; [constructor; eauto|]. split.
    - apply NoDup_cons. split; [|done]. intros (b' & me' & Hb' & Hme' & Hkey)%Hk.
      assert (b' ∈ entries mc cs (me_key me)) as Hb2 by (apply elem_of_entries; split; [apply Hin; by constructor|eauto]).
      rewrite He in Hb2. apply list_elem_of_singleton in Hb2 as ->. done.
    - intros k. rewrite elem_of_cons, Hk. split.
      + intros [->|(b' & me' & Hb' & ?)]; [exists b, me; split; [constructor|done]|]. exists b', me'. split; [by constructor|done].
      + intros (b' & me' & [->|Hb']%elem_of_cons & Hme' & <-); [left; congruence|]. right. eauto. }
  destruct (Hl (concat cs)) as (ks & Hks & Hnd & Hk); [done|apply (ord_wf _ _ _ _ O)|]. exists ks. split_and!; [done..|].
  intros k. rewrite Hk. split.
  - intros (b & me & Hb & Hme & <-). destruct (ord_entry source mc cs t O b Hb) as (me' & x & Hme' & Hx & _). assert (me' = me) as -> by congruence. by rewrite Hx.
  - intros [x Hx]. pose proof (ord_rep _ _ _ _ O k) as He. rewrite Hx in He. destruct He as (b & me & He & Hme & _).
    assert (b ∈ entries mc cs k) as [Hb (me' & Hme' & Hkey)]%elem_of_entries by (rewrite He; constructor). eauto.
Qed.

Lemma prune_one_cache_run s mc t :
  pruned_state s mc -> represents source mc t ->
  exists mc' l, lookup_prune_one_cache ap real autofs c age s [] = Some (l, with_cache s c mc', []) /\
    represents source mc' (map_imap prune_result t) /\
    (forall d, d ∈ l <-> exists key x, t !! key = Some x /\ d ∈ removed_dirs key x).
Proof using Htype Hmaps Hnext.
  intros Hs (cs & W & Hrep & Hrel). assert (ordered source mc cs t) as O by done. pose proof Hs as [(_ & _ & Hc) _].
  destruct (all_keys mc cs t O) as (ks & Hks & Hnd & Hk).
  destruct (prune_entries_run (concat cs) s mc cs t [] ks (S (size (mc_heap mc))) Hs O eq_refl Hks Hnd) as (mc' & cs' & Hrun & O').
  { pose proof (view_length mc cs W). lia. }
  exists mc', (ks ≫= dirs_of t). split_and!.
  - unfold lookup_prune_one_cache. rewrite (reads_bind _ _ _ _ _ (with_mc_reads _ _ _ _ _ Hc (fuel_reads mc))).
    by rewrite (reads_bind _ _ _ _ _ (with_mc_reads _ _ _ _ _ Hc (enumerate_first _ _ _ _ O))).
  - apply (ordered_represents _ _ cs'). assert (map_imap prune_result t = prune_all ks t) as ->; [|done].
    apply map_eq. intros k. rewrite prune_all_lookup, map_lookup_imap by done. case_bool_decide as Hin; [done|].
    rewrite Hk in Hin. destruct (t !! k); [|done]. destruct Hin. eauto.
  - intros d. rewrite list_elem_of_bind. unfold dirs_of. split.
    + intros (k & Hd & Hin). destruct (t !! k) as [x|] eqn:E; [eauto|by apply not_elem_of_nil in Hd].
    + intros (k & x & Hx & Hd). exists k. rewrite Hx. split; [done|]. apply Hk. eauto.
Qed.

End Prune.
