(* ===== verification/LookupClaims.v ===== *)
(** * What the lookups of a mount point guarantee

    A map that is read and pruned has the entries of its file; a key that was not found
    is not looked for again for a time; the sources are asked in their order. *)

From S2P Require Import Prelude CString Hash Memory Args Cache CacheInv CacheOps CacheProps CacheUpdate CacheNegative CacheMap StateQueue Trees Offsets CatPath Lexer Macros AmdExpand MapType MatchKey Replicated MountNfs MntTable Nsswitch Master FileRead FileLookup FileProps FileMap FileFind Lookup LookupProps LookupPrune.
Open Scope Z_scope.

(** ** Pruning *)

Lemma one_source_fuel s source src : d_src s !! source = Some src -> exists n, size (d_src s) = S n.
Proof.
  intros H. destruct (size (d_src s)) as [|n] eqn:E; [|eauto]. apply map_size_empty_iff in E. by rewrite E, lookup_empty in H.
Qed.

(** The state after the source has been pruned. *)
Definition pruned (s : dstate) (source : positive) (src : map_source) (c : positive) (mc : mapent_cache) : dstate :=
  set_src (<[source := set_s_stale false src]> (d_src s)) (with_cache s c mc).

Lemma prune_cache_one ap real autofs source c src ent age s mc t :
  lp_type ap = LKP_INDIRECT -> ent_maps ent = Some source -> s_next src = None -> s_instance src = None -> s_stale src = true ->
  pruned_state ap source c src ent s mc -> represents source mc t ->
  exists mc' l, lookup_prune_cache ap real autofs age s [] = Some (l, pruned s source src c mc', []) /\
    represents source mc' (map_imap (prune_result ap real autofs src ent age) t) /\
    (forall d, d ∈ l <-> exists key x, t !! key = Some x /\ d ∈ removed_dirs ap real autofs src ent age key x).
Proof.
  intros Htype Hmaps Hnext Hinst Hstale Hs HR.
  destruct (prune_one_cache_run ap real autofs source c src ent age Htype Hmaps Hnext s mc t Hs HR) as (mc' & l & Hrun & HR' & Hl).
  exists mc', l. split; [|done]. destruct Hs as [(Hsrc & Hmc & Hc) Hent]. unfold lookup_prune_cache.
  rewrite (bind_load (HH := ent_heap) _ _ _ _ ent) by done. unfold src_fuel. rewrite bind_heap_fuel, Hmaps. change (heap s) with (d_src s).
  destruct (one_source_fuel s source src Hsrc) as [n Hn]. rewrite Hn. cbn [prune_sources].
  rewrite (bind_load (HH := src_heap) _ _ _ _ src) by done. unfold src_fuel. rewrite bind_heap_fuel, Hstale, bind_ret_l. cbn [negb].
  rewrite Hmc, bind_from_some, (bind_some _ _ _ _ _ _ _ Hrun).
  assert (clear_stale_instances (S (size (d_src s))) source (with_cache s c mc') [] = Some ((), with_cache s c mc', [])) as Hclear.
  { cbn [clear_stale_instances]. rewrite (bind_load (HH := src_heap) _ _ _ _ src) by done. rewrite Hinst. by destruct (size (d_src s)). }
  change (heap s) with (d_src s). rewrite (bind_some _ _ _ _ _ _ _ Hclear). rewrite (bind_update (HH := src_heap) _ _ _ _ src) by done.
  rewrite Hnext. assert (forall s', prune_sources ap real autofs n age None s' [] = Some ([], s', [])) as Hend by (by destruct n).
  rewrite (bind_some _ _ _ _ _ _ _ (Hend _)). unfold mret, M_ret. by rewrite app_nil_r.
Qed.

(** C15. Pruning refines a function on the entries of the map: for an indirect map with one
    source, [lookup_prune_cache] returns, and the cache has exactly the entries that have
    been seen by the last read of the map, those whose time has not run out, those with a
    wildcard, and those whose directory is mounted, which lose their contents; the
    directories that are removed are those of the entries that are dropped, and the source
    is up to date. *)
Theorem lookup_prune_cache_refines ap real autofs source c src ent age s mc t :
  lp_type ap = LKP_INDIRECT -> ent_maps ent = Some source -> s_next src = None -> s_instance src = None -> s_stale src = true ->
  pruned_state ap source c src ent s mc -> represents source mc t ->
  exists mc' l, lookup_prune_cache ap real autofs age s [] = Some (l, pruned s source src c mc', []) /\
    represents source mc' (map_imap (prune_result ap real autofs src ent age) t) /\
    (forall d, d ∈ l <-> exists key x, t !! key = Some x /\ d ∈ removed_dirs ap real autofs src ent age key x).
Proof. apply prune_cache_one. Qed.

(** ** Reading and pruning *)

(** C6. A browsable map is as its file after it has been read again: [lookup_read_map]
    followed by [lookup_prune_cache] leaves, for every key without a wildcard whose
    directory is not mounted, the entry of its first line in the file, and no entry for a
    key that has no line. *)
Theorem read_and_prune fs now ap source c ctxt nss src ent age real autofs s mc t l :
  lp_type ap = LKP_INDIRECT -> Z.land (lp_flags ap) MOUNT_FLAG_GHOST <> 0 -> is_amd src = false -> s_recurse src = false ->
  s_depth src <= MAX_INCLUDE_DEPTH -> ent_maps ent = Some source -> s_next src = None -> s_instance src = None -> s_stale src = true ->
  pruned_state ap source c src ent s mc -> represents source mc t -> (forall key e seen, t !! key = Some (e, seen) -> seen < age) ->
  fs (mapname ctxt) = inl (File (file_text l) false false false) -> Forall map_item l ->
  exists s1 dirs s2 mc2, lookup_read_map fs now (lp_file ap) source age ctxt nss s [] = Some ((NSS_STATUS_SUCCESS, now), s1, []) /\
    lookup_prune_cache ap real autofs age s1 [] = Some (dirs, s2, []) /\ d_mc s2 !! c = Some mc2 /\
    forall key path, "*"%char ∉ key -> browse_path (lp_path ap) key (lp_pref ap) = Some path -> real path = false -> autofs path = false ->
      cache_op source (Find key) mc2 [] = Some (Found ((fun e => (Some e, age)) <$> first_line (lines_of l) key), mc2, []).
Proof.
  intros Hind Hghost Hsun Hrec Hdepth Hmaps Hnext Hinst Hstale Hs HR Hage Hfs Hl. pose proof Hs as [Hat Hent]. pose proof Hat as (Hsrc & Hmc & Hc).
  destruct (read_map_loop_items (lp_file ap) source age ctxt nss src c Hind Hsun (length l) l (S (length (file_text l))) s mc t)
    as (mc1 & Hrun & HR1); [done|pose proof (items_fuel l (map_items_ok l Hl)); lia|done..|].
  set (src1 := set_s_age age src). set (s1 := set_src (<[source := src1]> (d_src s)) (with_cache s c mc1)).
  destruct (prune_cache_one ap real autofs source c src1 ent age s1 mc1 (snd (table_all [] (read_map age (lines_of l)) t)))
    as (mc2 & dirs & Hprune & HR2 & _); [done..| |done|].
  { split; [|done]. split_and!; [cbn; by rewrite lookup_insert_eq|done|]. cbn. by rewrite lookup_insert_eq. }
  exists s1, dirs. do 2 eexists. split_and!; [|exact Hprune|apply lookup_insert_eq|].
  - unfold lookup_read_map. rewrite (bind_load (HH := src_heap) _ _ _ _ src) by done. rewrite Hrec.
    destruct (Z.ltb_spec MAX_INCLUDE_DEPTH (s_depth src)); [lia|]. rewrite Hfs. cbn [f_text].
    rewrite (bind_some _ _ _ _ _ _ _ Hrun). by rewrite (bind_update (HH := src_heap) _ _ _ _ src) by done.
  - intros key path Hstar Hpath Hreal Hautofs. destruct HR2 as (cs & W & Hrep & _). cbn [cache_op].
    rewrite (reads_bind _ _ _ _ _ (lookup_distinct_reads mc2 cs W key)), (contents_head source mc2 _ cs Hrep). do 4 f_equal.
    rewrite map_lookup_imap, table_read_map. unfold after_read.
    assert ((Z.land (lp_flags ap) (Z.lor MOUNT_FLAG_GHOST MOUNT_FLAG_AMD_CACHE_ALL) =? 0) = false) as Hflag.
    { apply Z.eqb_neq. rewrite Z.land_lor_distr_r. rewrite Z.lor_eq_0_iff. tauto. }
    destruct (t !! key) as [[e seen]|] eqn:Et; [pose proof (Hage _ _ _ Et); destruct (Z.eqb_spec seen age); [lia|]|];
      destruct (first_line (lines_of l) key) as [e'|]; cbn [mbind option_bind fmap option_fmap option_map]; try done.
    1,3: unfold prune_result, stale_path; cbn [snd]; by rewrite Z.leb_refl.
    unfold prune_result, stale_path. cbn [snd]. destruct (Z.leb_spec age seen); [lia|].
    rewrite Hflag, bool_decide_false, Hpath by done. cbn [andb]. by rewrite Hreal, Hautofs.
Qed.

(** ** The sources in their order *)

Section Mount.
Context (h : lookup_env) (ops : lookup_ops) (ap : lookup_point) (ent : master_mapent) (name : cstring).

(** A source with a module that is open, whose map does not have to be searched for. *)
Definition ready_source (src : map_source) : Prop :=
  s_lookup src = true /\ (hd_char name = "/"%char -> is_amd src = false) /\
  exists type, s_type src = Some type /\
    match s_argv src with
    | Ptr n :: _ => strneq type (str "file") 4 = false \/ hd_char n = "/"%char
    | Null :: _ => type = str "hosts"
    | _ => False
    end.

(** What the module of the source answers; the state stays as it is. *)
Definition answers (s : dstate) (a : positive) (r : Z) : Prop := lo_mount ops a name s [] = Some (r, s, []).

Lemma ask_source s a src result r :
  d_src s !! a = Some src -> ready_source src -> answers s a r ->
  mount_one_source h ops ap a name result s [] = Some ((r =? NSS_STATUS_SUCCESS, r), s, []).
Proof.
  intros Ha (Hopen & Hamd & type & Htype & Hargv) Hr. unfold mount_one_source.
  rewrite (bind_load (HH := src_heap) _ _ _ _ src) by done. rewrite Htype.
  assert (do_lookup_mount ops a name s [] = Some (r, s, [])) as Hdo.
  { unfold do_lookup_mount. rewrite (bind_load (HH := src_heap) _ _ _ _ src) by done. by rewrite Hopen, bind_ret_l. }
  assert (amd_offset a name s [] = Some (false, s, [])) as Hoff.
  { unfold amd_offset. rewrite (bind_load (HH := src_heap) _ _ _ _ src) by done. unfold mret, M_ret. do 3 f_equal.
    case_bool_decide; [by rewrite Hamd|done]. }
  assert (do_name_lookup_mount h ops ap a name s [] = Some (r, s, [])) as Hname; [|by rewrite (bind_some _ _ _ _ _ _ _ Hname)].
  unfold do_name_lookup_mount. rewrite (bind_some _ _ _ _ _ _ _ Hoff). unfold typed_source.
  rewrite (bind_load (HH := src_heap) _ _ _ _ src) by done. rewrite Htype, bind_from_some. unfold argv0.
  destruct (s_argv src) as [|[| |n] l]; try done; rewrite bind_ret_l.
  - by rewrite Hargv.
  - destruct Hargv as [-> | ->]; cbn [negb orb]; [done|]. rewrite bool_decide_true, orb_true_r by done. done.
Qed.

(** The sources of the entry: those that are too old, or that do not have the key, are
    passed over. *)
Lemma mount_sources_pass s l1 : forall q p result fuel,
  d_ent s !! lp_entry ap = Some ent -> lseg (d_src s) p l1 q -> (length l1 <= fuel)%nat ->
  (forall a src, a ∈ l1 -> d_src s !! a = Some src ->
     s_age src < ent_age ent \/ ready_source src /\ exists r, r <> NSS_STATUS_SUCCESS /\ answers s a r) ->
  exists result', mount_sources h ops fuel ap p name result s [] = mount_sources h ops (fuel - length l1) ap q name result' s [].
Proof.
  induction l1 as [|a l1 IH]; intros q p result fuel He Hp Hf Hl; cbn in Hp.
  { subst q. exists result. by rewrite Nat.sub_0_r. }
  destruct Hp as [-> (src & Ha & Hp)]. destruct fuel as [|fuel]; [cbn in Hf; lia|]. cbn [length Nat.sub mount_sources].
  rewrite (bind_load (HH := src_heap) _ _ _ _ src), (bind_load (HH := ent_heap) _ _ _ _ ent) by done.
  assert (forall result, exists result', mount_sources h ops fuel ap (s_next src) name result s []
    = mount_sources h ops (fuel - length l1) ap q name result' s []) as Hrest.
  { intros r. apply IH; [done|done|cbn in Hf; lia|]. intros b sb Hb. apply Hl. by constructor. }
  destruct (Hl a src) as [Hold|(Hready & r & Hr & Hans)]; [constructor|done|..].
  { destruct (Z.ltb_spec (s_age src) (ent_age ent)); [apply Hrest|lia]. }
  destruct (s_age src <? ent_age ent); [apply Hrest|].
  rewrite (bind_some _ _ _ _ _ _ _ (ask_source s a src result r Ha Hready Hans)). cbn beta iota.
  rewrite (proj2 (Z.eqb_neq r NSS_STATUS_SUCCESS)) by done. rewrite (bind_load (HH := src_heap) _ _ _ _ src) by done. apply Hrest.
Qed.

(** Sources that are up to date need no update. *)
Lemma no_update_request s l : forall p fuel,
  lseg (d_src s) p l None -> (length l <= fuel)%nat ->
  (forall a src, a ∈ l -> d_src s !! a = Some src -> s_stale src = false /\ s_instance src = None) ->
  need_update fuel p s [] = Some (false, s, []).
Proof using.
  induction l as [|a l IH]; intros p fuel Hp Hf Hl; cbn in Hp; [subst p; by destruct fuel|].
  destruct Hp as [-> (src & Ha & Hp)]. destruct fuel as [|fuel]; [cbn in Hf; lia|]. cbn [need_update].
  destruct (Hl a src) as [Hstale Hinst]; [constructor|done|]. unfold src_fuel. rewrite bind_heap_fuel.
  assert (forall n, check_stale_instances (S n) a s [] = Some (false, s, [])) as Hcheck.
  { intros n. cbn [check_stale_instances]. rewrite (bind_load (HH := src_heap) _ _ _ _ src) by done. rewrite Hinst. by destruct n. }
  rewrite (bind_some _ _ _ _ _ _ _ (Hcheck _)), bind_ret_l. rewrite (bind_load (HH := src_heap) _ _ _ _ src) by done.
  rewrite Hstale. apply IH; [done|cbn in Hf; lia|]. intros b sb Hb. apply Hl. by constructor.
Qed.

Lemma update_request s l :
  d_ent s !! lp_entry ap = Some ent -> Memory.chain (d_src s) (ent_maps ent) l ->
  (forall a src, a ∈ l -> d_src s !! a = Some src -> s_stale src = false /\ s_instance src = None) ->
  (if bool_decide (lp_state ap = ST_INIT) then mret () else send_map_update_request (lp_ap ap) (lp_entry ap)) s [] = Some ((), s, []).
Proof.
  intros He Hl Hq. case_bool_decide; [done|]. unfold send_map_update_request. rewrite (bind_load (HH := ent_heap) _ _ _ _ ent) by done.
  unfold src_fuel. rewrite bind_heap_fuel. change (heap s) with (d_src s).
  by rewrite (bind_some _ _ _ _ _ _ _ (no_update_request s l _ _ Hl (Memory.chain_length _ _ _ Hl) Hq)).
Qed.


End Mount.

(** ** Keys that are not found *)

(** The entry for a key that the map does not have. *)
Lemma remember_missing_run h ap source mc t key :
  represents source mc t -> t !! key = None -> relative key ->
  exists mc' cs b me, remember_missing h ap source key mc [] = Some ((), mc', []) /\ wf mc' cs /\ head (entries mc' cs key) = Some b /\
    mc_heap mc' !! b = Some me /\ me_status me = h_now h + lp_negative_timeout ap.
Proof.
  intros HR Ht Hrel. unfold remember_missing. pose proof HR as (cs0 & W0 & Hrep0 & _).
  rewrite (reads_bind _ _ _ _ _ (lookup_distinct_reads mc cs0 W0 key)). pose proof (Hrep0 key) as Hnone. rewrite Ht in Hnone. cbn in Hnone. rewrite Hnone.
  cbn [head hd_error]. destruct (update_missing source mc t key None (h_now h) [] HR Ht Hrel) as (ok & mc1 & m1 & Hrun & (cs & W & Hrep & _) & Hm).
  destruct (Hm eq_refl) as [-> ->]. rewrite (bind_some _ _ _ _ _ _ _ Hrun). change (CHE_UPDATED =? CHE_FAIL) with false. cbn iota.
  rewrite (reads_bind _ _ _ _ _ (lookup_distinct_reads mc1 cs W key)). pose proof (Hrep key) as Hb. rewrite lookup_insert_eq in Hb.
  destruct Hb as (b & me & Hb & Hme & _). rewrite Hb. cbn [head hd_error].
  exists (with_heap (<[b := set_status me (h_now h + lp_negative_timeout ap)]> (mc_heap mc1)) mc1), cs, b, (set_status me (h_now h + lp_negative_timeout ap)).
  split_and!; [unfold store; by rewrite Hme|by apply (wf_update mc1 cs b me)| |by apply lookup_insert_eq|done].
  by rewrite (entries_update _ _ _ me), Hb.
Qed.

Lemma update_negative_run h ap ent source c src s mc mc' t key :
  at_source s source src c mc -> represents source mc t -> t !! key = None -> key <> STAR ->
  d_ent s !! lp_entry ap = Some ent -> ent_maps ent = Some source -> s_next src = None -> ready_source key src ->
  remember_missing h ap source key mc [] = Some ((), mc', []) ->
  update_negative_cache h ap None key s [] = Some ((), with_cache s c mc', []).
Proof.
  intros Hat (cs & W & Hrep & _) Ht Hstar He Hmaps Hnext Hready Hrem. pose proof Hat as (Hsrc & _).
  unfold update_negative_cache. rewrite bind_ret_l. cbn [orb]. rewrite (proj2 (streq_false key STAR) Hstar).
  rewrite (bind_some _ _ _ _ _ _ _ (source_mapent_one (lp_file ap) ent source src c s mc cs key Hat W He Hmaps Hnext)).
  specialize (Hrep key). rewrite Ht in Hrep. cbn in Hrep. rewrite Hrep. cbn [head hd_error fmap option_fmap option_map].
  assert (lookup_get_map_source h (lp_entry ap) s [] = Some (Some source, s, [])) as Hget.
  { unfold lookup_get_map_source. rewrite (bind_load (HH := ent_heap) _ _ _ _ ent) by done. rewrite Hmaps, bind_from_some.
    rewrite (bind_load (HH := src_heap) _ _ _ _ src) by done. destruct Hready as (_ & _ & type & Htype & _). by rewrite Htype. }
  rewrite (bind_some _ _ _ _ _ _ _ Hget). by apply (on_source_run _ _ _ src c mc).
Qed.

(** A key whose failure is remembered is refused. *)
Lemma negative_refused ap ent source c src s mc cs key b me fs now ctxt nss mtime expand parse_mount :
  at_source s source src c mc -> wf mc cs -> head (entries mc cs key) = Some b -> mc_heap mc !! b = Some me -> now <= me_status me ->
  d_ent s !! fp_entry ap = Some ent -> ent_maps ent = Some source -> s_next src = None -> s_recurse src = false -> s_depth src <= MAX_INCLUDE_DEPTH ->
  is_amd src = false -> strlen key <= KEY_MAX_LEN ->
  lookup_mount fs now ap source ctxt nss mtime expand parse_mount key s [] = Some (NSS_STATUS_NOTFOUND, s, []).
Proof.
  intros Hat W Hb Hme Hnow He Hmaps Hnext Hrec Hdepth Hsun Hlen. pose proof Hat as (Hsrc & _). unfold lookup_mount.
  rewrite (bind_load (HH := src_heap) _ _ _ _ src) by done. rewrite Hrec. destruct (Z.ltb_spec MAX_INCLUDE_DEPTH (s_depth src)); [lia|].
  rewrite Hsun, bind_ret_l. destruct (Z.ltb_spec KEY_MAX_LEN (strlen key)); [lia|].
  rewrite (bind_some _ _ _ _ _ _ _ (source_mapent_one ap ent source src c _ mc cs key Hat W He Hmaps Hnext)), Hb. cbn [fmap option_fmap option_map].
  assert (cache_lookup_negative now (mret ()) b key mc [] = Some (CHE_UNAVAIL, mc, [])) as Hneg.
  { unfold cache_lookup_negative. mread. by rewrite (proj2 (Z.leb_le _ _)). }
  by rewrite (bind_some _ _ _ _ _ _ _ (with_mc_same _ _ _ _ _ _ _ Hat Hneg)).
Qed.

(** C16. A key that has not been found is not looked for again until the negative timeout
    of the mount point has passed: when the module of the one source does not have the
    key, [lookup_nss_mount] fails and remembers it, and a lookup of the key in the map
    file until that time fails at once, without a look at the file, the parser or the
    included maps, and without another change. *)
Theorem missing_key_remembered h ops ap ent source c src s mc t key :
  at_source s source src c mc -> represents source mc t -> t !! key = None -> relative key -> key <> STAR ->
  d_ent s !! lp_entry ap = Some ent -> ent_maps ent = Some source -> ent_age ent <= s_age src ->
  s_next src = None -> s_instance src = None -> s_stale src = false -> s_recurse src = false -> s_depth src <= MAX_INCLUDE_DEPTH ->
  is_amd src = false -> strlen key <= KEY_MAX_LEN -> ready_source key src -> answers ops key s source NSS_STATUS_NOTFOUND ->
  exists s1, lookup_nss_mount h ops ap None key s [] = Some (0, s1, []) /\
    forall fs now ctxt nss mtime expand parse_mount, now <= h_now h + lp_negative_timeout ap ->
      lookup_mount fs now (lp_file ap) source ctxt nss mtime expand parse_mount key s1 [] = Some (NSS_STATUS_NOTFOUND, s1, []).
Proof.
  intros Hat HR Ht Hrel Hstar He Hmaps Hage Hnext Hinst Hstale Hrec Hdepth Hsun Hlen Hready Hans.
  pose proof Hat as (Hsrc & _). destruct (remember_missing_run h ap source mc t key HR Ht Hrel) as (mc1 & cs & b & me & Hrem & W & Hb & Hme & Hst).
  exists (with_cache s c mc1). assert (Memory.chain (d_src s) (ent_maps ent) [source]) as Hch by (rewrite Hmaps; split; [done|eauto]).
  split.
  - unfold lookup_nss_mount, first_source. rewrite (bind_some _ _ s [] (ent_maps ent) s []) by (by rewrite (bind_load (HH := ent_heap) _ _ _ _ ent) by done).
    unfold src_fuel. rewrite bind_heap_fuel. change (heap s) with (d_src s). destruct (one_source_fuel s source src Hsrc) as [n Hn].
    assert (mount_sources h ops (size (d_src s)) ap (ent_maps ent) key NSS_STATUS_UNKNOWN s [] = Some (NSS_STATUS_NOTFOUND, s, [])) as Hrun.
    { rewrite Hn, Hmaps. cbn [mount_sources]. rewrite (bind_load (HH := src_heap) _ _ _ _ src), (bind_load (HH := ent_heap) _ _ _ _ ent) by done.
      destruct (Z.ltb_spec (s_age src) (ent_age ent)); [lia|].
      rewrite (bind_some _ _ _ _ _ _ _ (ask_source h ops ap key s source src _ _ Hsrc Hready Hans)). cbn beta iota.
      change (NSS_STATUS_NOTFOUND =? NSS_STATUS_SUCCESS) with false. cbn iota. rewrite (bind_load (HH := src_heap) _ _ _ _ src) by done. rewrite Hnext. by destruct n. }
    rewrite (bind_some _ _ _ _ _ _ _ Hrun).
    rewrite (bind_some _ _ _ _ _ _ _ (update_request ap ent s [source] He Hch ltac:(intros x sx ->%list_elem_of_singleton ?; by simplify_eq))).
    change ((NSS_STATUS_NOTFOUND =? NSS_STATUS_NOTFOUND) || (NSS_STATUS_NOTFOUND =? NSS_STATUS_UNAVAIL)) with true. cbn iota.
    by rewrite (bind_some _ _ _ _ _ _ _ (update_negative_run h ap ent source c src s mc mc1 t key Hat HR Ht Hstar He Hmaps Hnext Hready Hrem)).
  - intros fs now ctxt nss mtime expand parse_mount Hnow.
    apply (negative_refused _ ent source c src _ mc1 cs key b me); try done; [by eapply at_with_cache|by rewrite Hst].
Qed.

(** ** Samples *)

Definition two_table : gmap cstring (option cstring * Z) := <[str "k1" := (Some (str "srv:/a"), 10)]> (<[str "k2" := (Some (str "srv:/b"), 10)]> ∅).

Lemma two_keys_represents : represents 1%positive two_keys two_table.
Proof.
  exists [[1%positive; 2%positive]]. split; [apply wf_two_keys|]. split.
  - intros key. unfold two_table. destruct (decide (str "k1" = key)) as [<-|H1].
    { rewrite lookup_insert_eq. by exists 1%positive, (entry (Some 2%positive) "k1" "srv:/a"). }
    rewrite lookup_insert_ne by done. destruct (decide (str "k2" = key)) as [<-|H2].
    { rewrite lookup_insert_eq. by exists 2%positive, (entry None "k2" "srv:/b"). }
    rewrite lookup_insert_ne, lookup_empty by done. cbn [rep_entry]. apply filter_none.
    intros a Ha [me [Hme Hkey]]%sat_key. cbn in Ha. apply elem_of_cons in Ha as [-> | ->%list_elem_of_singleton]; vm_compute in Hme; injection Hme as <-; [by destruct H1|by destruct H2].
  - intros key. unfold two_table. rewrite !lookup_insert_is_Some. intros [<-|[_ [<-|[_ [? ?]]]]]; [done|done|]. by rewrite lookup_empty in *.
Qed.

Definition two_source (stale : bool) : map_source :=
  MapSource 1 0 (Some (str "file")) None None 0 20 0 (Some 1%positive) stale true 1 [Ptr (str "/etc/auto.home"); Null] None None 0 false.
Definition two_ent : master_mapent := MasterEnt (str "/home") 5 (Some 1%positive) None.
Definition two_state (stale : bool) : dstate :=
  DS {[1%positive := two_source stale]} {[1%positive := two_keys]} {[1%positive := two_ent]} ∅ [] [] None false false [].
Definition browse_point : lookup_point := LookupPoint (FilePoint LKP_INDIRECT 1 None 60 1%positive) 1%positive (str "/home") (str "/home") ST_READY 7 0.

Lemma two_pruned_state stale : pruned_state browse_point 1%positive 1%positive (two_source stale) two_ent (two_state stale) two_keys.
Proof. split; [split; [reflexivity|split; reflexivity]|reflexivity]. Qed.

(** The directory of [k2] is mounted. *)
Definition k2_mounted (path : cstring) : bool := streq path (str "/home/k2").

Lemma lookup_prune_cache_refines_witness :
  exists mc' l, lookup_prune_cache browse_point k2_mounted (fun _ => false) 20 (two_state true) [] = Some (l, pruned (two_state true) 1%positive (two_source true) 1%positive mc', []) /\
    represents 1%positive mc' {[str "k2" := (None, 10)]} /\ (str "/home/k1", 7) ∈ l.
Proof.
  pose proof (lookup_prune_cache_refines browse_point k2_mounted (fun _ => false) 1%positive 1%positive (two_source true) two_ent 20 (two_state true) two_keys two_table) as H.
  destruct H as (mc' & l & Hrun & HR & Hl).
  1-5: reflexivity.
  - apply two_pruned_state.
  - apply two_keys_represents.
  - exists mc', l. split; [exact Hrun|]. split.
    + assert (map_imap (prune_result browse_point k2_mounted (fun _ => false) (two_source true) two_ent 20) two_table = {[str "k2" := (None, 10)]}) as E
        by (vm_compute; reflexivity). rewrite E in HR. exact HR.
    + apply Hl. exists (str "k1"), (Some (str "srv:/a"), 10). split; [reflexivity|]. vm_compute. constructor.
Defined.

Definition sample_context2 : lookup_context := LookupContext (str "/etc/auto.home") 0 [] 0.

Lemma read_and_prune_witness :
  exists s1 dirs s2 mc2, lookup_read_map sample_fs 100 (lp_file browse_point) 1%positive 30 sample_context2 (fun _ => mret 0) (two_state true) [] = Some ((NSS_STATUS_SUCCESS, 100), s1, []) /\
    lookup_prune_cache browse_point (fun _ => false) (fun _ => false) 30 s1 [] = Some (dirs, s2, []) /\ d_mc s2 !! 1%positive = Some mc2 /\
    cache_op 1%positive (Find (str "a")) mc2 [] = Some (Found (Some (Some (str "-ro srv:/a"), 30)), mc2, []) /\
    cache_op 1%positive (Find (str "k1")) mc2 [] = Some (Found None, mc2, []).
Proof.
  pose proof (read_and_prune sample_fs 100 browse_point 1%positive 1%positive sample_context2 (fun _ => mret 0) (two_source true) two_ent 30
    (fun _ => false) (fun _ => false) (two_state true) two_keys two_table sample_items) as H.
  destruct H as (s1 & dirs & s2 & mc2 & Hread & Hprune & Hc & Hfind).
  1: reflexivity.
  1: vm_compute; discriminate.
  1-2: reflexivity.
  1: vm_compute; discriminate.
  1-4: reflexivity.
  - apply two_pruned_state.
  - apply two_keys_represents.
  - intros key e seen. unfold two_table. rewrite !lookup_insert_Some. intros [[_ [= _ <-]]|[_ [[_ [= _ <-]]|[_ E]]]]; [lia..|]. by rewrite lookup_empty in E.
  - reflexivity.
  - apply sample_items_ok.
  - exists s1, dirs, s2, mc2. split; [exact Hread|]. split; [exact Hprune|]. split; [exact Hc|]. split.
    + rewrite (Hfind (str "a") (str "/home/a")); [reflexivity|apply (bool_decide_unpack _); vm_compute; exact I|reflexivity..].
    + rewrite (Hfind (str "k1") (str "/home/k1")); [reflexivity|apply (bool_decide_unpack _); vm_compute; exact I|reflexivity..].
Defined.

(** A host, and modules that answer [r]. *)
Definition sample_host : lookup_env := LookupEnv (str "/etc") (fun _ => None) (fun _ => None) None (fun _ => None) 100.
Definition answering (r : positive -> option Z) : lookup_ops :=
  LookupOps (fun _ => mret 0) (fun _ => mret 0) (fun _ => false) (fun _ _ => mret 0) (fun a _ => match r a with Some r => mret r | None => stuck end).

Lemma two_ready key stale : ready_source key (two_source stale).
Proof. split; [reflexivity|]. split; [reflexivity|]. exists (str "file"). split; [reflexivity|]. right. reflexivity. Qed.

(** Two sources, of which the first has the key; the second cannot be asked. *)
Definition first_of_two : map_source := set_s_next (Some 2%positive) (two_source false).
Definition pair_state : dstate :=
  DS (<[1%positive := first_of_two]> {[2%positive := two_source false]}) {[1%positive := two_keys]} {[1%positive := two_ent]} ∅ [] [] None false false [].


Lemma missing_key_remembered_witness :
  exists s1, lookup_nss_mount sample_host (answering (fun _ => Some NSS_STATUS_NOTFOUND)) browse_point None (str "c") (two_state false) [] = Some (0, s1, []) /\
    lookup_mount sample_fs 150 (lp_file browse_point) 1%positive sample_context2 (fun _ _ => mret 0) None (fun k => mret k) (fun _ _ => stuck) (str "c") s1 []
    = Some (NSS_STATUS_NOTFOUND, s1, []).
Proof.
  pose proof (missing_key_remembered sample_host (answering (fun _ => Some NSS_STATUS_NOTFOUND)) browse_point two_ent 1%positive 1%positive (two_source false)
    (two_state false) two_keys two_table (str "c")) as H.
  destruct H as (s1 & Hrun & Hneg).
  - split; [reflexivity|split; reflexivity].
  - apply two_keys_represents.
  - reflexivity.
  - reflexivity.
  - vm_compute. discriminate.
  - reflexivity.
  - reflexivity.
  - vm_compute. discriminate.
  - reflexivity.
  - reflexivity.
  - reflexivity.
  - reflexivity.
  - vm_compute. discriminate.
  - reflexivity.
  - vm_compute. discriminate.
  - apply two_ready.
  - reflexivity.
  - exists s1. split; [exact Hrun|]. apply Hneg. vm_compute. discriminate.
Defined.

(** ** Where entries and buffers are lost *)

(** Two instances of a source share its cache. The entry of the second one is old, that of
    the first one is in its map. *)
Definition instance_entry (n : option addr) (ms : addr) (age : Z) : mapent := set_next (new_mapent ms (str "k1") (Some (str "srv:/a")) age) n.
Definition shared_cache : mapent_cache :=
  one_bucket (Some 1%positive) {[ 1%positive := instance_entry (Some 2%positive) 2 20; 2%positive := instance_entry None 3 10 ]}.
Definition shared_state : dstate :=
  DS {[1%positive := two_source true]} {[1%positive := shared_cache]} {[1%positive := two_ent]} ∅ [] [] None false false [].

(** When a key is gone from the map of one of the instances, the prune drops the valid
    entry of the other instance as well. *)
Lemma prune_drops_valid :
  exists l s', lookup_prune_one_cache browse_point (fun _ => false) (fun _ => false) 1 20 shared_state [] = Some (l, s', []) /\
    with_mc 1 (cache_lookup_distinct (Some (str "k1"))) shared_state [] = Some (Some 1%positive, shared_state, []) /\
    with_mc 1 (cache_lookup_distinct (Some (str "k1"))) s' [] = Some (None, s', []).
Proof. do 2 eexists. split; [vm_compute; reflexivity|]. split; vm_compute; reflexivity. Qed.

(** Any name with a comma behind three characters is taken for the name of a source, whose
    buffer has ten characters; and a name of one character is read behind its end. *)
Lemma master_name_overrun h open read set depth s m :
  lookup_nss_read_master h open read set depth (str "abc,defghijk:auto.master") s m = None /\
  lookup_nss_read_master h open read set depth (str "a:") s m = None.
Proof. split; vm_compute; reflexivity. Qed.
