(* ===== verification/AmdParse.v ===== *)
(** * The parser of amd map entries (modules/parse_amd.c)

    An entry of an amd map has a list of locations with options and selectors. The
    selectors are evaluated, the options of a location are completed with defaults and
    their variables are replaced, and the locations that match are mounted in turn until
    one succeeds. The grammar of the entries, the hosts of the network and the programs
    are arguments; what the calls that mount return are answers of the state, which also
    keeps the calls that have been made. *)

From stdpp Require Import pretty.
From S2P Require Import Prelude CString Hash Memory Args Cache CatPath Lexer Macros AmdExpand Selectors Options MntTable ConfigNames ConfigGet.
Open Scope Z_scope.

(** ** Data *)

Definition SEL_XHOST : Z := 0x100.
Definition SEL_NETGRP : Z := 0x1000.
Definition SEL_NETGRPD : Z := 0x2000.
Definition SEL_IN_NETWORK : Z := 0x4000.
Definition SEL_EXISTS : Z := 0x100000.
Definition SEL_TRUE : Z := 0x800000.
Definition SEL_FALSE : Z := 0x1000000.
Definition SEL_COMP_EQUAL : Z := 1.
Definition SEL_COMP_NOTEQUAL : Z := 2.
Definition SEL_COMP_NOT : Z := 4.
Definition SEL_FLAGS_TYPE_MASK : Z := 0xFF.
Definition SEL_FLAGS_VALUE_MASK : Z := 0xFF00.

Definition AMD_MOUNT_TYPE_NONE : Z := 0x0.
Definition AMD_MOUNT_TYPE_AUTO : Z := 0x1.
Definition AMD_MOUNT_TYPE_NFS : Z := 0x2.
Definition AMD_MOUNT_TYPE_LINK : Z := 0x4.
Definition AMD_MOUNT_TYPE_HOST : Z := 0x8.
Definition AMD_MOUNT_TYPE_NFSL : Z := 0x10.
Definition AMD_MOUNT_TYPE_LINKX : Z := 0x40.
Definition AMD_MOUNT_TYPE_LOFS : Z := 0x80.
Definition AMD_MOUNT_TYPE_EXT : Z := 0x100.
Definition AMD_MOUNT_TYPE_UFS : Z := 0x200.
Definition AMD_MOUNT_TYPE_XFS : Z := 0x400.
Definition AMD_MOUNT_TYPE_CDFS : Z := 0x2000.
Definition AMD_MOUNT_TYPE_PROGRAM : Z := 0x4000.
Definition AMD_MOUNT_TYPE_MASK : Z := 0xffff.
Definition AMD_ENTRY_CUT : Z := 0x10000.
Definition AMD_DEFAULTS_MERGE : Z := 0x1000000.
Definition AMD_DEFAULTS_RESET : Z := 0x2000000.

(** [struct selector]; the value of a comparison and the first argument of a function
    share their memory. *)
Record selector := Selector { sl_sel : sel; sl_compare : Z; sl_arg1 : option cstring; sl_arg2 : option cstring }.

(** The options of a location that are strings. *)
Inductive field := f_path | f_type | f_map_type | f_pref | f_fs | f_rhost | f_rfs | f_dev | f_opts | f_addopts | f_remopts | f_sublink | f_mount | f_umount.

#[export] Instance field_eq_dec : EqDecision field.
Proof. solve_decision. Defined.

(** [struct amd_entry]. *)
Record amd_entry := Amd { en_flags : Z; en_str : field -> option cstring; en_selector : list selector }.

Definition set_str (f : field) (v : option cstring) (e : amd_entry) : amd_entry :=
  Amd (en_flags e) (fun g => if decide (g = f) then v else en_str e g) (en_selector e).
Definition set_flags (n : Z) (e : amd_entry) : amd_entry := Amd n (en_str e) (en_selector e).

Definition no_entry : amd_entry := Amd 0 (fun _ => None) [].

Definition mount_type (e : amd_entry) : Z := Z.land (en_flags e) AMD_MOUNT_TYPE_MASK.

(** What is asked of the mount modules, the kernel, programs, the expire and the hosts
    map. [WaitExpire] is answered with 0 unless the mount point is shutting down,
    [IsMounted] with 0 when nothing is mounted, [Spawn] with the status of the process;
    the others with 0 on success. *)
Inductive request :=
| Mount (root name target : cstring) (type opts : option cstring)
| MountNfs (root name target : cstring) (type opts : option cstring)
| UmountExt (path : cstring)
| Umount (path : cstring)
| Mkdir (path : cstring)
| Rmdir (path : cstring)
| Spawn (prog : cstring) (argv : vector)
| Lstat (path : cstring)
| IsMounted (path : cstring)
| WaitExpire
| HostsInstance (opts : option cstring)
| HostsLookup (host : cstring).

(** The system variables, the cache of the source, the tables of mounts, the answers to
    come (success when there are none) and the calls. *)
Record pstate := PState { p_sys : table; p_mc : mapent_cache; p_mnt : mstate; p_answers : list Z; p_calls : list request }.

Abbreviation PM := (M pstate).

Definition on_sys {A} (c : TM A) : PM A := fun s m =>
  match c (p_sys s) m with
  | Some (x, t, m) => Some (x, PState t (p_mc s) (p_mnt s) (p_answers s) (p_calls s), m)
  | None => None
  end.

Definition on_cache {A} (c : CM A) : PM A := fun s m =>
  match c (p_mc s) m with
  | Some (x, mc, m) => Some (x, PState (p_sys s) mc (p_mnt s) (p_answers s) (p_calls s), m)
  | None => None
  end.

Definition on_mnt {A} (c : M mstate A) : PM A := fun s m =>
  match c (p_mnt s) m with
  | Some (x, t, m) => Some (x, PState (p_sys s) (p_mc s) t (p_answers s) (p_calls s), m)
  | None => None
  end.

Definition call (r : request) : PM Z := fun s m =>
  Some (default 0 (head (p_answers s)), PState (p_sys s) (p_mc s) (p_mnt s) (tail (p_answers s)) (p_calls s ++ [r]), m).

(** What is used of the mount point. *)
Record amd_point := AmdPoint { am_addr : positive; am_path : cstring; am_pref : option cstring }.

(** The rest of the world: [v_norm] is the normalisation of slashes, [v_junk] what
    [merge_options] finds in its buffer, [v_canon] the canonical name of a host, [v_names]
    the names of its addresses, and [v_grammar] is [amd_parse_list], which reads the
    variables. *)
Record amd_env := AmdEnv {
  v_getenv : option (cstring -> option cstring);
  v_norm : bool;
  v_junk : Z;
  v_in_network : cstring -> bool;
  v_proximity : option cstring -> Z;
  v_innetgr : cstring -> cstring -> bool;
  v_canon : cstring -> option cstring;
  v_names : cstring -> option (list (option cstring));
  v_flags : Z;
  v_map_defaults : option cstring;
  v_map_type : option cstring;
  v_hesiod : bool;
  v_grammar : cstring -> table -> option (list amd_entry);
  v_tsv : option thread_stdenv_vars
}.

Definition has (flags bit : Z) : bool := negb (Z.land flags bit =? 0).

Section Amd.
Context (v : amd_env) (ap : amd_point).

Definition findvar (sv : table) (name : cstring) (len : nat) : PM (option substvar) := on_sys (macro_findvar (v_getenv v) sv name len).

(** [expand_selectors]: the expansion, when there is one. *)
Definition expand (sv : table) (s : cstring) : PM (option cstring) :=
  r ← on_sys (expand_selectors (v_getenv v) (v_norm v) sv (Some s));
  mret (if fst r =? 0 then None else snd r).

(** ** The variables of a lookup *)

(** The directories above the key, for an entry with a wildcard. *)
Fixpoint wild_parent (fuel : nat) (key : cstring) : CM (option addr) :=
  match cut_last_slash key with
  | None => mret None
  | Some prefix =>
      match fuel with
      | O => stuck
      | S fuel =>
          me ← cache_partial_match_wild prefix;
          match me with Some a => mret (Some a) | None => wild_parent fuel prefix end
      end
  end.

(** The value of the variable [key]. *)
Definition lookup_key (lkp_key : cstring) : CM (option cstring) :=
  me ← cache_lookup_distinct (Some lkp_key);
  match me with
  | Some a => e ← deref a; mret (Some (me_key e))
  | None =>
      me ← wild_parent (length lkp_key) lkp_key;
      me ← match me with Some a => mret (Some a) | None => cache_lookup_distinct (Some STAR) end;
      mret (match me with Some _ => Some lkp_key | None => None end)
  end.

(** [name] is the name of the source, and [arg] its first argument. *)
Definition add_lookup_vars (key : cstring) (name : option cstring) (arg : cstring) : PM (option table) :=
  if PATH_MAX <? strlen (am_path ap) + 1 + strlen key + 1 then mret None
  else
    let lkp_key := default [] (am_pref ap) ++ key in
    if PATH_MAX + 1 <=? strlen lkp_key then mret None
    else
      let path := if hd_char key =a "/" then key else am_path ap ++ str "/" ++ key in
      list ← macro_addvar [] (str "path") 4 (Some path);
      k ← on_cache (lookup_key lkp_key);
      list ← match k with Some k => macro_addvar list (str "key") 3 (Some k) | None => mret list end;
      list ← match name with
             | Some n => macro_addvar list (str "map") 3 (Some n)
             | None => if negb (hd_char arg =a NUL) then macro_addvar list (str "map") 3 (Some arg) else mret list
             end;
      list ← match v_tsv v with
             | None => mret list
             | Some tsv =>
                 list ← macro_addvar list (str "uid") 3 (Some (str (pretty (tsv_uid tsv))));
                 macro_addvar list (str "gid") 3 (Some (str (pretty (tsv_gid tsv))))
             end;
      list ← macro_addvar list (str "fs") 2 (Some (str "${autodir}/${rhost}${rfs}"));
      list ← macro_addvar list (str "rfs") 3 (Some path);
      mret (match list with [] => None | _ => Some list end).

(** ** Selectors *)

Definition match_my_name (name : cstring) (sv : table) : PM bool :=
  e ← expand sv name;
  ok ← match e with Some _ => mret true | None => malloc end;
  if negb ok then mret false
  else
    let exp_name := default name e in
    host ← findvar sv (str "host") 4;
    match host with
    | None => mret false
    | Some host =>
        if streq (sv_val host) exp_name then mret true
        else
          mret (match v_canon v (sv_val host), v_names v exp_name with
                | Some canon, Some names => bool_decide (Some canon ∈ names)
                | _, _ => false
                end)
    end.

Definition sel_strcmp (var : substvar) (s : selector) (sv : table) : PM bool :=
  value ← from_option_M (sl_arg1 s);
  e ← expand sv value;
  let eq := streq (sv_val var) (default value e) in
  mret ((has (sl_compare s) SEL_COMP_EQUAL && eq) || (has (sl_compare s) SEL_COMP_NOTEQUAL && negb eq)).

(** The result of a function, which can be negated. *)
Definition negate (s : selector) (ret : bool) : bool := if sl_compare s =? SEL_COMP_NOT then negb ret else ret.

Definition sel_lstat (s : selector) (sv : table) : PM bool :=
  arg ← from_option_M (sl_arg1 s);
  e ← expand sv arg;
  res ← call (Lstat (default arg e));
  mret (negate s (res =? 0)).

Definition sel_in_network (s : selector) (sv : table) : PM bool :=
  arg ← from_option_M (sl_arg1 s);
  e ← expand sv arg;
  mret (negate s (v_in_network v (default arg e))).

Definition sel_netgrp (s : selector) (sv : table) : PM bool :=
  host ← match sl_arg2 s with
         | Some arg2 => e ← expand sv arg2; mret (Some (default arg2 e))
         | None =>
             var ← (if sel_id (sl_sel s) =? SEL_NETGRP then findvar sv (str "host") 4 else findvar sv (str "hostd") 5);
             mret (match var with Some x => if bool_decide (sv_val x = []) then None else Some (sv_val x) | None => None end)
         end;
  match host with
  | None => mret false
  | Some host =>
      arg ← from_option_M (sl_arg1 s);
      e ← expand sv arg;
      mret (negate s (v_innetgr v (default arg e) host))
  end.

(** A comparison of numbers. *)
Definition sel_num (var : substvar) (s : selector) : PM bool :=
  value ← from_option_M (sl_arg1 s);
  let '(res, val) := if bool_decide (value = []) then (1, 0) else (atoi (sv_val var), atoi value) in
  mret ((has (sl_compare s) SEL_COMP_EQUAL && (res =? val)) || (has (sl_compare s) SEL_COMP_NOTEQUAL && negb (res =? val))).

(** [eval_selector] of the selector [s]. *)
Definition eval_sel (s : selector) (sv : table) : PM bool :=
  let type := Z.land (sel_flags (sl_sel s)) SEL_FLAGS_TYPE_MASK in
  let id := sel_id (sl_sel s) in
  if type =? SEL_FLAG_MACRO then
    var ← findvar sv (sel_name (sl_sel s)) (length (sel_name (sl_sel s)));
    match var with
    | None => mret false
    | Some var =>
        let value := Z.land (sel_flags (sl_sel s)) SEL_FLAGS_VALUE_MASK in
        if value =? SEL_FLAG_STR then sel_strcmp var s sv
        else if value =? SEL_FLAG_NUM then sel_num var s else mret false
    end
  else if type =? SEL_FLAG_FUNC1 then
    if negb (id =? SEL_TRUE) && negb (id =? SEL_FALSE) && bool_decide (sl_arg1 s = None) then mret false
    else if id =? SEL_TRUE then mret (negate s true)
    else if id =? SEL_FALSE then mret (negate s false)
    else if id =? SEL_XHOST then
      arg ← from_option_M (sl_arg1 s);
      ret ← match_my_name arg sv; mret (negate s ret)
    else if id =? SEL_EXISTS then sel_lstat s sv
    else if id =? SEL_IN_NETWORK then sel_in_network s sv else mret false
  else if type =? SEL_FLAG_FUNC2 then
    if bool_decide (sl_arg1 s = None) then mret false
    else if (id =? SEL_NETGRP) || (id =? SEL_NETGRPD) then sel_netgrp s sv else mret false
  else mret false.

(** The selector that is evaluated is the first one of the entry. *)
Definition eval_selector (this : amd_entry) (sv : table) : PM bool :=
  s ← from_option_M (head (en_selector this));
  eval_sel s sv.

(** The loop goes along the selectors of the entry. *)
Fixpoint selector_loop (l : list selector) (entry : amd_entry) (sv : table) : PM bool :=
  match l with
  | [] => mret true
  | _ :: l => ret ← eval_selector entry sv; if (ret : bool) then selector_loop l entry sv else mret false
  end.

Definition match_selectors (entry : amd_entry) (sv : table) : PM bool := selector_loop (en_selector entry) entry sv.

(** ** Defaults *)

(** [if (s) { tmp = strdup(s); if (tmp) entry->f = tmp; }] *)
Definition copy_str (f : field) (s : option cstring) (e : amd_entry) : PM amd_entry :=
  match s with
  | None => mret e
  | Some s => ok ← malloc; mret (if (ok : bool) then set_str f (Some s) e else e)
  end.

(** An option that is not set is taken from the defaults. *)
Definition default_str (defaults : amd_entry) (f : field) (e : amd_entry) : PM amd_entry :=
  match en_str e f with Some _ => mret e | None => copy_str f (en_str defaults f) e end.

(** Or from the variable [name], of which [len] characters are compared. *)
Definition default_var (sv : table) (defaults : amd_entry) (f : field) (name : cstring) (len : nat) (e : amd_entry) : PM amd_entry :=
  match en_str e f, en_str defaults f with
  | Some _, _ => mret e
  | None, Some d => copy_str f (Some d) e
  | None, None => var ← findvar sv name len; copy_str f (sv_val <$> var) e
  end.

(** [merge_options] of the option and one that is not set. *)
Definition default_opts (defaults : amd_entry) (f : field) (e : amd_entry) : PM amd_entry :=
  match en_str e f, en_str defaults f with
  | None, Some d =>
      r ← from_option_M (merge_options (v_junk v) (Some d) None);
      mret (match r with Some o => set_str f (Some o) e | None => e end)
  | _, _ => mret e
  end.

Definition default_type (defaults : amd_entry) (e : amd_entry) : PM amd_entry :=
  if negb (mount_type e =? AMD_MOUNT_TYPE_NONE) then mret e
  else if negb (mount_type defaults =? AMD_MOUNT_TYPE_NONE) then mret (set_flags (Z.lor (en_flags e) (mount_type defaults)) e)
  else copy_str f_type (Some (str "nfs")) (set_flags AMD_MOUNT_TYPE_NFS e).

Definition update_with_defaults (defaults entry : amd_entry) (sv : table) : PM amd_entry :=
  e ← default_type defaults entry;
  e ← default_str defaults f_type e;
  e ← default_str defaults f_map_type e;
  e ← default_str defaults f_pref e;
  e ← default_var sv defaults f_fs (str "fs") 2 e;
  e ← default_var sv defaults f_rfs (str "rfs") 3 e;
  e ← default_var sv defaults f_rhost (str "host") 4 e;
  e ← default_str defaults f_dev e;
  e ← default_opts defaults f_opts e;
  e ← default_opts defaults f_addopts e;
  e ← default_var sv defaults f_remopts (str "remopts") 7 e;
  default_var sv defaults f_sublink (str "sublink") 2 e.

(** ** Expansion of the options *)

Definition normalize_hostname (host : cstring) (flags : Z) (sv : table) : PM (option cstring) :=
  match (if has flags CONF_NORMALIZE_HOSTNAMES then v_canon v host else Some host) with
  | None => mret None
  | Some name =>
      ok ← malloc;
      if negb ok then mret None
      else if has flags CONF_DOMAIN_STRIP then
        var ← findvar sv (str "hostd") 5;
        mret (Some (match var with
                    | None => name
                    | Some x =>
                        match strchr name "."%char, strchr (sv_val x) "."%char with
                        | Some d1, Some d2 => if streq d1 d2 then before name "."%char else name
                        | _, _ => name
                        end
                    end))
      else mret (Some name)
  end.

Definition nonempty (s : option cstring) : option cstring := match s with Some (c :: l) => Some (c :: l) | _ => None end.

Definition expand_rhost (flags : Z) (e : amd_entry) (sv : table) : PM (amd_entry * table) :=
  match nonempty (en_str e f_rhost) with
  | None => mret (e, sv)
  | Some rhost =>
      ok ← malloc;
      if negb ok then mret (e, sv)
      else
        x ← expand sv rhost;
        let host := default rhost x in
        nn ← normalize_hostname host flags sv;
        let host := default host nn in
        sv ← macro_addvar sv (str "rhost") 5 (Some host);
        mret (set_str f_rhost (Some host) e, sv)
  end.

(** An option is expanded, and is a variable of its own; [blank] says that an empty
    option is expanded as well. *)
Definition expand_str (blank : bool) (f : field) (name : cstring) (len : nat) (e : amd_entry) (sv : table) : PM (amd_entry * table) :=
  match (if blank then en_str e f else nonempty (en_str e f)) with
  | None => mret (e, sv)
  | Some s =>
      x ← expand sv s;
      let s := default s x in
      sv ← macro_addvar sv name len (Some s);
      mret (set_str f (Some s) e, sv)
  end.

(** The programs: without an expansion they are dropped. *)
Definition expand_programs (e : amd_entry) (sv : table) : PM (amd_entry * table) :=
  let umount (e : amd_entry) (sv : table) :=
    match en_str e f_umount with
    | None => mret (e, sv)
    | Some s =>
        x ← expand sv s;
        match x with
        | None => mret (set_str f_umount None e, sv)
        | Some x => sv ← macro_addvar sv (str "umount") 5 (Some x); mret (set_str f_umount (Some x) e, sv)
        end
    end in
  match en_str e f_mount with
  | None => umount e sv
  | Some s =>
      x ← expand sv s;
      match x with
      | None => mret (set_str f_umount None (set_str f_mount None e), sv)
      | Some x => sv ← macro_addvar sv (str "mount") 5 (Some x); umount (set_str f_mount (Some x) e) sv
      end
  end.

Definition expand_entry (e : amd_entry) (flags : Z) (sv : table) : PM (amd_entry * table) :=
  '(e, sv) ← expand_rhost flags e sv;
  '(e, sv) ← expand_str true f_pref (str "pref") 4 e sv;
  '(e, sv) ← expand_str true f_sublink (str "sublink") 7 e sv;
  '(e, sv) ← expand_str false f_rfs (str "rfs") 3 e sv;
  '(e, sv) ← expand_str false f_fs (str "fs") 2 e sv;
  '(e, sv) ← expand_str false f_opts (str "opts") 4 e sv;
  '(e, sv) ← expand_str false f_addopts (str "addopts") 7 e sv;
  '(e, sv) ← expand_str false f_remopts (str "remopts") 7 e sv;
  expand_programs e sv.

Definition expand_option (f : field) (e : amd_entry) (sv : table) : PM amd_entry :=
  match nonempty (en_str e f) with
  | None => mret e
  | Some s => x ← expand sv s; mret (match x with Some x => set_str f (Some x) e | None => e end)
  end.

Definition expand_merge_options (e : amd_entry) (sv : table) : PM amd_entry :=
  e ← expand_option f_opts e sv;
  e ← expand_option f_addopts e sv;
  expand_option f_remopts e sv.

(** The options [f] with the added options; a variable of the same name. *)
Definition add_options (f : field) (name : cstring) (e : amd_entry) (sv : table) : PM (amd_entry * table) :=
  match en_str e f, en_str e f_addopts with
  | Some o, Some a =>
      r ← from_option_M (merge_options (v_junk v) (Some o) (Some a));
      match r with
      | Some r => sv ← macro_addvar sv name (length name) (Some r); mret (set_str f (Some r) e, sv)
      | None => mret (e, sv)
      end
  | None, Some ((_ :: _) as a) =>
      ok ← malloc;
      if negb ok then mret (e, sv)
      else sv ← macro_addvar sv name (length name) (Some a); mret (set_str f (Some a) e, sv)
  | _, _ => mret (e, sv)
  end.

Definition merge_entry_options (e : amd_entry) (sv : table) : PM (amd_entry * table) :=
  match en_str e f_addopts with
  | None => mret (e, sv)
  | Some _ =>
      let same := match en_str e f_opts, en_str e f_remopts with Some o, Some r => streq o r | _, _ => false end in
      if same then
        e ← expand_merge_options e sv;
        '(e, sv) ← add_options f_opts (str "opts") e sv;
        opts ← from_option_M (en_str e f_opts);
        if bool_decide (opts = []) then mret (e, sv)
        else
          ok ← malloc;
          if negb ok then mret (e, sv)
          else sv ← macro_addvar sv (str "remopts") 7 (Some opts); mret (set_str f_remopts (Some opts) e, sv)
      else
        e ← expand_merge_options e sv;
        '(e, sv) ← add_options f_opts (str "opts") e sv;
        e ← expand_merge_options e sv;
        add_options f_remopts (str "remopts") e sv
  end.

Definition dequote_str (blank : bool) (f : field) (e : amd_entry) : PM amd_entry :=
  match (if blank then en_str e f else nonempty (en_str e f)) with
  | None => mret e
  | Some s =>
      ok ← malloc;
      r ← from_option_M (dequote s (length s) ok);
      mret (match r with Some r => set_str f (Some r) e | None => e end)
  end.

Definition dequote_entry (e : amd_entry) : PM amd_entry :=
  e ← dequote_str true f_pref e;
  e ← dequote_str true f_sublink e;
  e ← dequote_str false f_fs e;
  e ← dequote_str false f_rfs e;
  e ← dequote_str false f_opts e;
  e ← dequote_str false f_remopts e;
  dequote_str false f_addopts e.

Definition normalize_sublink (e : amd_entry) : PM amd_entry :=
  fs ← from_option_M (en_str e f_fs);
  if bool_decide (fs = []) then mret e
  else
    match en_str e f_sublink with
    | None => mret e
    | Some sublink =>
        if hd_char sublink =a "/" then mret e
        else ok ← malloc; mret (if (ok : bool) then set_str f_sublink (Some (fs ++ str "/" ++ sublink)) e else e)
    end.

Definition update_prefix (e : amd_entry) (name : cstring) : PM amd_entry :=
  match en_str e f_pref, am_pref ap with
  | None, Some pref => ok ← malloc; mret (if (ok : bool) then set_str f_pref (Some (pref ++ name ++ str "/")) e else e)
  | _, _ => mret e
  end.

(** ** Mounts *)

(** [snprintf] to a buffer of [PATH_MAX] characters; [None] when the text is longer than
    that. *)
Definition target_of (s : cstring) : option cstring :=
  if PATH_MAX <? strlen s then None else Some (take (Z.to_nat (PATH_MAX - 1)) s).

Definition do_auto_mount (name : cstring) (e : amd_entry) : PM Z :=
  fs ← from_option_M (en_str e f_fs);
  let text := match en_str e f_map_type with None => fs | Some t => t ++ str ",amd:" ++ fs end in
  match target_of text with
  | None => mret 0
  | Some target => call (Mount (am_path ap) name target (Some (str "autofs")) (en_str e f_opts))
  end.

Definition do_link_mount (name : cstring) (e : amd_entry) (flags : Z) : PM Z :=
  target ← from_option_M (match en_str e f_sublink with Some s => Some s | None => en_str e f_fs end);
  if PATH_MAX <? strlen target then mret 0
  else
    ret ← (if has flags CONF_AUTOFS_USE_LOFS
           then call (Mount (am_path ap) name target (Some (str "bind")) (nonempty (en_str e f_opts))) else mret 1);
    if ret =? 0 then mret 0
    else
      ret ← call (Mount (am_path ap) name target (Some (str "bind")) (Some (str "symlink")));
      if ret =? 0 then mret 0
      else
        match en_str e f_sublink with
        | None => mret ret
        | Some _ => fs ← from_option_M (en_str e f_fs); _ ← call (UmountExt fs); mret ret
        end.

(** The answer of [lstat] is what it leaves in [errno]. *)
Definition do_linkx_mount (name : cstring) (e : amd_entry) (flags : Z) : PM Z :=
  target ← from_option_M (match en_str e f_sublink with Some s => Some s | None => en_str e f_fs end);
  err ← call (Lstat target);
  if err =? 0 then do_link_mount name e flags else mret err.

(** A mount below the mount point, or outside of it with a link to it. *)
Definition external_mount (mount : cstring -> cstring -> request) (name : cstring) (e : amd_entry) (flags : Z) : PM Z :=
  match en_str e f_fs with
  | None => call (mount (am_path ap) name)
  | Some fs =>
      mounted ← call (IsMounted fs);
      ret ← (if negb (mounted =? 0) then mret None
             else
               ret ← call (mount fs fs);
               if negb (ret =? 0) then mret (Some ret)
               else
                 added ← on_mnt (ext_mount_add fs (en_str e f_umount));
                 if added =? 0 then _ ← call (Umount fs); mret (Some 1) else mret None);
      match ret with
      | Some ret => mret ret
      | None => do_link_mount name e flags
      end
  end.

Definition do_generic_mount (name : cstring) (e : amd_entry) (target : option cstring) (flags : Z) : PM Z :=
  target ← from_option_M target;
  external_mount (fun root n => Mount root n target (en_str e f_type) (nonempty (en_str e f_opts))) name e flags.

Definition do_nfs_mount (name : cstring) (e : amd_entry) (flags : Z) : PM Z :=
  rhost ← from_option_M (en_str e f_rhost);
  rfs ← from_option_M (en_str e f_rfs);
  match target_of (rhost ++ str ":" ++ rfs) with
  | None => mret 1
  | Some target =>
      let opts := nonempty (en_str e f_opts) in
      let opts := if v_proximity v (Some rhost) =? PROXIMITY_OTHER
                  then match nonempty (en_str e f_remopts) with Some r => Some r | None => opts end else opts in
      external_mount (fun root n => MountNfs root n target (en_str e f_type) opts) name e flags
  end.

Definition do_nfsl_mount (name : cstring) (e : amd_entry) (sv : table) (flags : Z) : PM Z :=
  host ← findvar sv (str "host") 4;
  match host with
  | None => do_nfs_mount name e flags
  | Some host =>
      hostd ← findvar sv (str "hostd") 5;
      match hostd with
      | None => do_nfs_mount name e flags
      | Some hostd =>
          if bool_decide (sv_val hostd = []) then do_nfs_mount name e flags
          else
            rhost ← from_option_M (en_str e f_rhost);
            target ← from_option_M (match en_str e f_sublink with Some s => Some s | None => en_str e f_fs end);
            if negb (strcaseeq (sv_val host) rhost) || negb (strcaseeq (sv_val hostd) rhost) then do_nfs_mount name e flags
            else
              err ← call (Lstat target);
              if err =? 0 then do_link_mount name e flags else do_nfs_mount name e flags
      end
  end.

(** The program is run unless its file system is already mounted. The answer of [Mkdir] is
    what it leaves in [errno]. *)
Definition EEXIST : Z := 17.

(** [WIFEXITED(status) && !WEXITSTATUS(status)]. *)
Definition exited_ok (status : Z) : bool := (Z.land status 0x7f =? 0) && (Z.land status 0xff00 =? 0).

Definition run_program (fs : cstring) (e : amd_entry) (prog : cstring) (argv : vector) : PM Z :=
  used ← on_mnt (ext_mount_inuse fs);
  if negb (used =? 0) then _ ← on_mnt (ext_mount_add fs (en_str e f_umount)); mret 0
  else
    rv ← call (Mkdir fs);
    if negb (rv =? 0) && negb (rv =? EEXIST) then mret (-1)
    else
      rv ← call (Spawn prog argv);
      ok ← (if exited_ok rv then
              added ← on_mnt (ext_mount_add fs (en_str e f_umount));
              if negb (added =? 0) then mret true else _ ← call (Umount fs); mret false
            else mret false);
      if (ok : bool) then mret 0
      else
        used ← on_mnt (ext_mount_inuse fs);
        (if used =? 0 then _ ← call (Rmdir fs); mret () else mret ());;
        mret rv.

Definition do_program_mount (e : amd_entry) (name : cstring) : PM Z :=
  mount ← from_option_M (en_str e f_mount);
  ok ← malloc;
  if negb ok then mret 1
  else
    r ← construct_argv mount;
    match r with
    | None => mret 1
    | Some (argc, prog, argv) =>
        fs ← from_option_M (en_str e f_fs);
        rv ← run_program fs e prog argv;
        free_argv argc argv;;
        if negb (rv =? 0) then mret rv
        else
          rv ← do_link_mount name e 0;
          if rv =? 0 then mret 0
          else
            failed ← call (UmountExt fs);
            (if negb (failed =? 0) then
               used ← on_mnt (ext_mount_inuse fs);
               if used =? 0 then _ ← call (Rmdir fs); mret () else mret ()
             else mret ());;
            mret rv
    end.

(** What the table of mounts keeps of the entry; the grammar leaves the options of the
    cache at 0. *)
Definition mnt_entry (e : amd_entry) : PM MntTable.amd_entry :=
  path ← from_option_M (en_str e f_path);
  mret (AmdEntry path (en_str e f_fs) (en_str e f_pref) (en_str e f_type) (en_str e f_opts) 0).

(** The entry, whether it has a record of its own, and whether to go on. *)
Definition host_base (name rhost : cstring) (e : amd_entry) : PM (amd_entry * bool * bool) :=
  if streq name rhost then mret (e, false, true)
  else
    ok ← malloc;
    if negb ok then mret (e, false, false)
    else
      let e := set_str f_path (Some (am_path ap ++ str "/" ++ rhost)) e in
      ent ← mnt_entry e;
      mnt ← on_mnt (mnts_add_amdmount (am_addr ap) ent);
      match mnt with
      | None => mret (e, false, false)
      | Some _ => stop ← call WaitExpire; mret (e, true, stop =? 0)
      end.

(** The instance of the hosts map is found or made, and its module is opened, with
    [HostsInstance]. *)
Definition host_lookup (name rhost : cstring) (e : amd_entry) : PM Z :=
  failed ← call (HostsInstance (nonempty (en_str e f_opts)));
  if negb (failed =? 0) then mret 1
  else
    me ← on_cache (cache_lookup_distinct (Some name));
    (match me with Some a => _ ← on_cache (cache_push_mapent a None); mret () | None => mret () end);;
    ret ← call (HostsLookup rhost);
    if streq name rhost then mret ret
    else
      path ← from_option_M (en_str e f_path);
      _ ← call (Mount (am_path ap) name path (Some (str "bind")) (Some (str "symlink")));
      mret ret.

Definition do_host_mount (name : cstring) (e : amd_entry) : PM (Z * amd_entry) :=
  rhost ← from_option_M (en_str e f_rhost);
  '(e, mnt, ok) ← host_base name rhost e;
  ret ← (if ok : bool then host_lookup name rhost e else mret 1);
  (if negb (ret =? 0) && mnt
   then path ← from_option_M (en_str e f_path); on_mnt (mnts_remove_amdmount path)
   else mret ());;
  mret (ret, e).

(** ** The options that a type of mounts needs *)

Definition validate_auto_options (e : amd_entry) : bool := bool_decide (is_Some (nonempty (en_str e f_fs))).
Definition validate_link_options := validate_auto_options.

(** The entry with its remote file system, when it is valid. *)
Definition validate_nfs_options (e : amd_entry) : PM (option amd_entry) :=
  e ← match en_str e f_rfs with
      | Some [] => mret None
      | Some _ => mret (Some e)
      | None =>
          match en_str e f_fs with
          | Some [] => mret None
          | None => stuck
          | Some fs => ok ← malloc; mret (if (ok : bool) then Some (set_str f_rfs (Some fs) e) else None)
          end
      end;
  mret (match e with
        | Some e => if bool_decide (is_Some (en_str e f_sublink)) && bool_decide (en_str e f_fs = None) then None else Some e
        | None => None
        end).

Definition validate_generic_options (fstype : Z) (e : amd_entry) : bool :=
  bool_decide (is_Some (nonempty (en_str e (if fstype =? AMD_MOUNT_TYPE_LOFS then f_rfs else f_dev)))) &&
  negb (bool_decide (is_Some (en_str e f_sublink)) && bool_decide (en_str e f_fs = None)).

Definition ufs_types : list cstring := [str "ext"; str "ext2"; str "ext3"; str "ext4"; str "xfs"; str "jfs"].

Definition validate_ufs_fstype (e : amd_entry) : PM bool :=
  type ← from_option_M (en_str e f_type); mret (bool_decide (type ∈ ufs_types)).

Definition validate_host_options (e : amd_entry) : bool := bool_decide (is_Some (nonempty (en_str e f_rhost))).

Definition validate_program_options (e : amd_entry) : bool :=
  bool_decide (is_Some (en_str e f_mount)) && bool_decide (is_Some (nonempty (en_str e f_fs))).

(** The result, and the entry, whose path and remote file system can have changed. *)
Definition amd_mount (name : cstring) (e : amd_entry) (sv : table) (flags : Z) : PM (Z * amd_entry) :=
  let fstype := mount_type e in
  let run (ok : bool) (c : PM Z) : PM (Z * amd_entry) := if ok then ret ← c; mret (ret, e) else mret (1, e) in
  if fstype =? AMD_MOUNT_TYPE_AUTO then run (validate_auto_options e) (do_auto_mount name e)
  else if fstype =? AMD_MOUNT_TYPE_LOFS then run (validate_generic_options fstype e) (do_generic_mount name e (en_str e f_rfs) flags)
  else if fstype =? AMD_MOUNT_TYPE_UFS then
    ok ← validate_ufs_fstype e;
    run (ok && validate_generic_options fstype e) (do_generic_mount name e (en_str e f_dev) flags)
  else if (fstype =? AMD_MOUNT_TYPE_EXT) || (fstype =? AMD_MOUNT_TYPE_XFS) || (fstype =? AMD_MOUNT_TYPE_CDFS) then
    run (validate_generic_options fstype e) (do_generic_mount name e (en_str e f_dev) flags)
  else if fstype =? AMD_MOUNT_TYPE_NFS then
    r ← validate_nfs_options e;
    match r with None => mret (1, e) | Some e => ret ← do_nfs_mount name e flags; mret (ret, e) end
  else if fstype =? AMD_MOUNT_TYPE_NFSL then
    r ← validate_nfs_options e;
    match r with
    | None => mret (1, e)
    | Some e => if validate_link_options e then ret ← do_nfsl_mount name e sv flags; mret (ret, e) else mret (1, e)
    end
  else if fstype =? AMD_MOUNT_TYPE_LINK then run (validate_link_options e) (do_link_mount name e flags)
  else if fstype =? AMD_MOUNT_TYPE_LINKX then run (validate_link_options e) (do_linkx_mount name e flags)
  else if fstype =? AMD_MOUNT_TYPE_HOST then if validate_host_options e then do_host_mount name e else mret (1, e)
  else if fstype =? AMD_MOUNT_TYPE_PROGRAM then run (validate_program_options e) (do_program_mount e name)
  else mret (1, e).

(** ** The entry of the defaults *)

Definition copy_nonempty (f : field) (d e : amd_entry) : PM amd_entry := copy_str f (nonempty (en_str d f)) e.

Definition dup_defaults_entry (d : amd_entry) : PM (option amd_entry) :=
  ok ← malloc;
  if negb ok then mret None
  else
    let e := set_flags (en_flags d) no_entry in
    e ← copy_str f_type (en_str d f_type) e;
    e ← copy_str f_map_type (en_str d f_map_type) e;
    e ← copy_str f_pref (en_str d f_pref) e;
    e ← copy_str f_fs (en_str d f_fs) e;
    e ← copy_nonempty f_rfs d e;
    e ← copy_nonempty f_rhost d e;
    e ← copy_nonempty f_dev d e;
    e ← copy_nonempty f_opts d e;
    e ← copy_nonempty f_addopts d e;
    e ← copy_nonempty f_remopts d e;
    mret (Some e).

(** The map type of the parent; [None] when it is not available. *)
Definition inherit_map_type (e : amd_entry) : option amd_entry :=
  match v_map_type v with
  | None => Some e
  | Some t => if negb (v_hesiod v) && streq t (str "hesiod") then None else Some (set_str f_map_type (Some t) e)
  end.

Definition make_default_entry (sv : table) : PM (option amd_entry) :=
  match v_grammar v (str "opts:=rw,defaults") sv with
  | None => mret None
  | Some [] => stuck
  | Some (e :: _) => mret (inherit_map_type e)
  end.

(** The entries with selectors; [entry_default] is the one to merge. No entry has been
    chosen when the defaults are reset, so that the copy dereferences [NULL]. *)
Fixpoint select_loop (l : list amd_entry) (entry_default : option amd_entry) (sv : table) : PM (option amd_entry) :=
  match l with
  | [] => mret entry_default
  | this :: l =>
      if has (en_flags this) AMD_DEFAULTS_MERGE then select_loop l (Some this) sv
      else if has (en_flags this) AMD_DEFAULTS_RESET then
        ok ← malloc;
        if (ok : bool) then stuck else select_loop l entry_default sv
      else if bool_decide (en_selector this = []) then select_loop l entry_default sv
      else
        ret ← match_selectors this sv;
        if (ret : bool) then mret (Some this) else select_loop l entry_default sv
  end.

Definition select_default_entry (l : list amd_entry) (sv : table) : PM (option amd_entry) :=
  if has (v_flags v) CONF_SELECTORS_IN_DEFAULTS then
    e ← select_loop l None sv;
    match e with Some e => mret (Some e) | None => make_default_entry sv end
  else
    match l with
    | [e] => mret (Some e)
    | _ => make_default_entry sv
    end.

Definition get_defaults_entry (defaults : option cstring) (sv : table) : PM (option amd_entry) :=
  match defaults with
  | None => make_default_entry sv
  | Some d =>
      x ← expand sv d;
      match x with
      | None => make_default_entry sv
      | Some x =>
          match v_grammar v x sv with
          | None => make_default_entry sv
          | Some l =>
              e ← select_default_entry l sv;
              match e with
              | None => mret None
              | Some e =>
                  match en_str e f_map_type with
                  | Some _ => mret (Some e)
                  | None => match inherit_map_type e with Some e => mret (Some e) | None => make_default_entry sv end
                  end
              end
          end
      end
  end.

(** The contents of the entry [/defaults] of the map. *)
Definition map_defaults : CM (option (option cstring)) :=
  me ← cache_lookup_distinct (Some (str "/defaults"));
  match me with
  | None => mret None
  | Some a => e ← deref a; mret (Some (me_mapent e))
  end.

(** The entry, and the variables, which are dropped when there is none. *)
Definition setup_defaults (name : cstring) (src_name : option cstring) (arg : cstring) : PM (option (amd_entry * table)) :=
  nsv ← add_lookup_vars name src_name arg;
  match nsv with
  | None => mret None
  | Some nsv =>
      defaults ← match v_map_defaults v with
                 | Some d => mret (Some (Some d))
                 | None =>
                     d ← on_cache map_defaults;
                     match d with
                     | None => mret (Some None)
                     | Some d =>
                         d ← from_option_M d;
                         ok ← malloc; mret (if (ok : bool) then Some (Some d) else None)
                     end
                 end;
      match defaults with
      | None => mret None
      | Some defaults =>
          e ← get_defaults_entry defaults nsv;
          mret ((fun e => (e, nsv)) <$> e)
      end
  end.

(** ** The locations of an entry *)

Definition MNTS_INDIRECT_MOUNTED : Z := Z.lor 0x8 MNTS_MOUNTED.

(** A location that matches: [None] when the mount cannot be recorded, the result of the
    mount otherwise. *)
Definition try_location (name : cstring) (this cur : amd_entry) (sv : table) : PM (option Z * table) :=
  this ← update_with_defaults cur this sv;
  '(this, sv) ← expand_entry this (v_flags v) sv;
  '(this, sv) ← merge_entry_options this sv;
  this ← normalize_sublink this;
  this ← update_prefix this name;
  this ← dequote_entry this;
  ent ← mnt_entry this;
  mnt ← on_mnt (mnts_add_amdmount (am_addr ap) ent);
  match mnt with
  | None => mret (None, sv)
  | Some _ =>
      '(rv, this) ← amd_mount name this sv (v_flags v);
      path ← from_option_M (en_str this f_path);
      (if rv =? 0 then
         if streq path (e_path ent) then mret ()
         else rhost ← from_option_M (en_str this f_rhost); _ ← on_mnt (mnts_add_mount (am_addr ap) rhost MNTS_INDIRECT_MOUNTED); mret ()
       else on_mnt (mnts_remove_amdmount path));;
      mret (Some rv, sv)
  end.

(** The locations in their order; [one] says that one has been tried. *)
Fixpoint locations (name : cstring) (src_name : option cstring) (arg : cstring) (l : list amd_entry) (dflt cur : amd_entry) (sv : table) (one : bool) (rv : Z) : PM Z :=
  match l with
  | [] => mret rv
  | this :: l =>
      if has (en_flags this) AMD_DEFAULTS_MERGE then
        cur ← update_with_defaults dflt this sv;
        locations name src_name arg l dflt cur sv one rv
      else if has (en_flags this) AMD_DEFAULTS_RESET then
        nd ← setup_defaults name src_name arg;
        let '(dflt, sv) := default (dflt, sv) nd in
        new ← dup_defaults_entry dflt;
        locations name src_name arg l dflt (default cur new) sv one rv
      else
        '(cur, sv) ← expand_entry cur (v_flags v) sv;
        if has (en_flags this) AMD_ENTRY_CUT && one then mret rv
        else
          ok ← match_selectors this sv;
          if negb ok then locations name src_name arg l dflt cur sv one rv
          else
            '(r, sv) ← try_location name this cur sv;
            match r with
            | None => mret rv
            | Some rv => if rv =? 0 then mret 0 else locations name src_name arg l dflt cur sv true rv
            end
  end.

(** [parse_mount] of an entry of the source with this name and first argument. *)
Definition amd_parse_mount (src_name : option cstring) (arg name : cstring) (mapent : option cstring) : PM Z :=
  match mapent with
  | None => mret 1
  | Some mapent =>
      d ← setup_defaults name src_name arg;
      match d with
      | None => mret 1
      | Some (dflt, sv) =>
          match v_grammar v mapent sv with
          | None | Some [] => mret 1
          | Some l =>
              cur ← dup_defaults_entry dflt;
              match cur with
              | None => mret 1
              | Some cur => locations name src_name arg l dflt cur sv false 1
              end
          end
      end
  end.

End Amd.

(** ** The module *)

(** Whether the module for NFS is open, and the contexts that use it. *)
Record amd_module := AmdModule { md_nfs : bool; md_ctr : Z }.

(** [open] says whether the module can be opened. *)
Definition amd_parse_init (open : bool) : M amd_module Z :=
  ok ← malloc;
  if negb ok then mret 1
  else
    d ← get_state;
    if md_nfs d || open then modify (fun d => AmdModule true (md_ctr d + 1));; mret 0 else mret 1.

(** [close] is what [close_mount] returns. *)
Definition amd_parse_done (close : Z) : M amd_module Z :=
  modify (fun d => AmdModule (md_nfs d) (md_ctr d - 1));;
  d ← get_state;
  if md_ctr d =? 0 then modify (fun d => AmdModule false (md_ctr d));; mret close else mret 0.
