(* ===== verification/AmdSafe.v ===== *)
(** * Runs of the parser of amd map entries

    The parser records every location that it tries in the table of mounts, and what it
    mounts outside of the mount point in the table of external mounts. Here the calls of
    these tables are put together: whatever the entry and the answers are, the tables stay
    sound, and an entry that cannot be mounted leaves no amd mount behind unless a host
    was mounted by another name. *)

From stdpp Require Import pretty.
From S2P Require Import Prelude CString Hash Memory Args Cache CatPath Lexer Macros AmdExpand Selectors Options MntTable MntProps MntOps MntExt MntClaims MemOk ConfigNames ConfigGet AmdParse.
Open Scope Z_scope.

(** The paths that have an amd mount. *)
Definition amd_at (s : mstate) (path : cstring) : Prop :=
  exists a m, ms_heap s !! a = Some m /\ m_mp m = path /\ on KAmd m = true.

Definition fits (ap : positive) (n : Z) (s : pstate) (held : refs) : Prop :=
  sound n (p_mnt s) held /\ 0 <= n /\ is_Some (ms_aps (p_mnt s) !! ap).

(** From tables that are sound, a run with memory leaves sound tables; the counts grow by
    [k] at most. When [Q] holds of the result and no expire was waited for, there are no
    new amd mounts. *)
Definition safe {A} (ap : positive) (k : Z) (Q : A -> Prop) (c : PM A) : Prop :=
  forall n s held x s' m, fits ap n s held -> n + k < 2 ^ 31 -> c s [] = Some (x, s', m) ->
    m = [] /\ fits ap (n + k) s' held /\ p_calls s `prefix_of` p_calls s' /\
    (Q x -> WaitExpire ∉ p_calls s' -> forall p, amd_at (p_mnt s') p -> amd_at (p_mnt s) p).

Definition any {A} (_ : A) : Prop := True.

Section Rules.
Context (ap : positive).

Lemma fits_le n n' s held : fits ap n s held -> n <= n' -> fits ap n' s held.
Proof.
  intros ([T E U] & ? & ?) ?. split; [|split; [lia|done]].
  split; [by apply (table_inv_le n)|by apply (ext_ok_le n)|done].
Qed.

(** A run that leaves the tables and the calls. *)
Lemma safe_still {A} k (Q : A -> Prop) (c : PM A) :
  0 <= k ->
  (forall s x s' m, c s [] = Some (x, s', m) -> m = [] /\ p_mnt s' = p_mnt s /\ p_calls s' = p_calls s) -> safe ap k Q c.
Proof.
  intros Hk H n s held x s' m Hf Hn E. destruct (H _ _ _ _ E) as (-> & E1 & E2). split; [done|].
  split; [apply (fits_le n); [|lia]|].
  - unfold fits. by rewrite E1.
  - rewrite E1, E2. split; [done|]. auto.
Qed.

Lemma safe_ret {A} k (Q : A -> Prop) x : 0 <= k -> safe ap k Q (mret x).
Proof. intros Hk. apply safe_still; [done|]. by intros s y s' m [= _ <- <-]. Qed.

Lemma safe_malloc k Q : 0 <= k -> safe ap k Q malloc.
Proof. intros Hk. apply safe_still; [done|]. by intros s y s' m [= _ <- <-]. Qed.

Lemma safe_stuck {A} k (Q : A -> Prop) : safe ap k Q stuck.
Proof. by intros n s held x s' m. Qed.

Lemma safe_from_option {A} k (Q : A -> Prop) (o : option A) : 0 <= k -> safe ap k Q (from_option_M o).
Proof. intros Hk. apply safe_still; [done|]. intros s y s' m. destruct o; [|done]. by intros [= _ <- <-]. Qed.

Lemma safe_on_sys {A} k (Q : A -> Prop) (c : TM A) : 0 <= k -> mem_ok c -> safe ap k Q (on_sys c).
Proof.
  intros Hk Hc. apply safe_still; [done|]. intros s y s' m. unfold on_sys.
  destruct (c (p_sys s) []) as [[[z t] m1]|] eqn:E; [|done]. apply Hc in E as ->. by intros [= _ <- <-].
Qed.

Lemma safe_on_cache {A} k (Q : A -> Prop) (c : CM A) : 0 <= k -> mem_ok c -> safe ap k Q (on_cache c).
Proof.
  intros Hk Hc. apply safe_still; [done|]. intros s y s' m. unfold on_cache.
  destruct (c (p_mc s) []) as [[[z t] m1]|] eqn:E; [|done]. apply Hc in E as ->. by intros [= _ <- <-].
Qed.

Lemma safe_call k Q r : 0 <= k -> safe ap k Q (call r).
Proof.
  intros Hk n s held x s' m Hf Hn [= _ <- <-]. split; [done|].
  split; [by apply (fits_le n); [|lia]|]. cbn. split; [by eexists|]. auto.
Qed.

Lemma safe_weaken {A} k k' (Q Q' : A -> Prop) c :
  safe ap k Q c -> k <= k' -> (forall x, Q' x -> Q x) -> safe ap k' Q' c.
Proof.
  intros H Hk HQ n s held x s' m Hf Hn E. destruct (H n s held x s' m Hf ltac:(lia) E) as (-> & H1 & H2 & H3).
  split; [done|]. split; [by apply (fits_le (n + k)); [|lia]|]. split; [done|]. auto.
Qed.

(** [Q1] holds of the first result when [Q] holds of the second. *)
Lemma safe_bind_post {A B} k1 k2 (Q1 : A -> Prop) (Q : B -> Prop) (c : PM A) f :
  0 <= k1 -> 0 <= k2 -> safe ap k1 Q1 c -> (forall x, safe ap k2 Q (f x)) ->
  (forall x s y s' m, f x s [] = Some (y, s', m) -> Q y -> Q1 x) -> safe ap (k1 + k2) Q (c ≫= f).
Proof.
  intros K1 K2 Hc Hf HQ n s held y s' m Hfit Hn. unfold mbind, M_bind.
  destruct (c s []) as [[[x s1] m1]|] eqn:E; [|done]. intros E2.
  destruct (Hc n s held x s1 m1 Hfit ltac:(lia) E) as (-> & F1 & P1 & A1).
  destruct (Hf x (n + k1) s1 held y s' m F1 ltac:(lia) E2) as (-> & F2 & P2 & A2). split; [done|].
  rewrite Z.add_assoc. split; [done|]. split; [by etrans|]. intros Hy Hw p Hp.
  apply A1; [by eapply HQ| |by apply A2]. intros Hin. apply Hw. by eapply elem_of_prefix.
Qed.

Lemma safe_bind {A B} k (Q : B -> Prop) (c : PM A) f :
  0 <= k -> safe ap 0 any c -> (forall x, safe ap k Q (f x)) -> safe ap k Q (c ≫= f).
Proof. intros Hk Hc Hf. apply (safe_bind_post 0 k any Q c f); try done. Qed.
End Rules.

Create HintDb safe.
#[export] Hint Resolve safe_ret safe_malloc safe_stuck safe_from_option safe_call safe_on_sys safe_on_cache : safe.
#[export] Hint Extern 1 (_ <= _) => lia : safe.
#[export] Hint Extern 1 (mem_ok _) => solve [eauto with mem] : safe.

(** One step: a known computation, a case or a bind. *)
Ltac safe :=
  repeat (first
    [ done
    | solve [eauto with safe]
    | match goal with
      | |- safe _ _ _ (match ?x with _ => _ end) => destruct x
      | |- forall _, _ => intros ?
      end
    | apply safe_bind; [lia| |intros ?] ]).

(** ** The parts of the parser *)

Lemma mem_addvar {S} t s len value : mem_ok (S := S) (macro_addvar t s len value).
Proof. unfold macro_addvar, new_substvar. mem. Qed.
#[export] Hint Resolve mem_addvar : mem.

Lemma mem_findvar getenv t s len : mem_ok (macro_findvar getenv t s len).
Proof. unfold macro_findvar. mem. Qed.
#[export] Hint Resolve mem_findvar : mem.

Lemma mem_find_name getenv svc src name : mem_ok (find_name getenv svc src name).
Proof. unfold find_name. cbv zeta. mem. Qed.
#[export] Hint Resolve mem_find_name : mem.

Lemma mem_expand_loop getenv norm svc fuel : forall dst first squote src,
  mem_ok (expand_loop getenv norm svc fuel dst first squote src).
Proof. induction fuel; intros dst first squote [|c src]; cbn [expand_loop]; mem. Qed.
#[export] Hint Resolve mem_expand_loop : mem.

Lemma mem_expand_selectors getenv norm svc s : mem_ok (expand_selectors getenv norm svc s).
Proof. unfold expand_selectors, expandamdent. mem. Qed.
#[export] Hint Resolve mem_expand_selectors : mem.

Lemma mem_partial_match prefix type : mem_ok (__cache_partial_match prefix type).
Proof. unfold __cache_partial_match. mem. Qed.
#[export] Hint Resolve mem_partial_match : mem.

Lemma mem_wild_parent fuel : forall key, mem_ok (wild_parent fuel key).
Proof. induction fuel; intros key; cbn [wild_parent]; unfold cache_partial_match_wild; mem. Qed.
#[export] Hint Resolve mem_wild_parent : mem.

Lemma mem_lookup_key key : mem_ok (lookup_key key).
Proof. unfold lookup_key. mem. Qed.

Lemma mem_push_mapent a ent : mem_ok (cache_push_mapent a ent).
Proof. unfold cache_push_mapent. mem. Qed.

Lemma mem_map_defaults : mem_ok map_defaults.
Proof. unfold map_defaults. mem. Qed.
#[export] Hint Resolve mem_lookup_key mem_push_mapent mem_map_defaults : mem.

Section Parts.
Context (v : amd_env) (ap : amd_point).
Abbreviation safe0 := (safe (am_addr ap) 0 any).

Lemma safe_addvar t s len value : safe0 (macro_addvar t s len value).
Proof. unfold macro_addvar, new_substvar. cbv zeta. safe. Qed.

Lemma safe_findvar sv name len : safe0 (findvar v sv name len).
Proof. unfold findvar. safe. Qed.

Lemma safe_expand sv s : safe0 (expand v sv s).
Proof. unfold expand. safe. Qed.
Hint Resolve safe_addvar safe_findvar safe_expand : safe.

Lemma safe_add_lookup_vars key name arg : safe0 (add_lookup_vars v ap key name arg).
Proof. unfold add_lookup_vars. cbv zeta. safe. Qed.

Lemma safe_eval_selector e sv : safe0 (eval_selector v e sv).
Proof.
  unfold eval_selector, eval_sel, sel_strcmp, sel_num, match_my_name, sel_lstat, sel_in_network, sel_netgrp. cbv zeta. safe.
Qed.
Hint Resolve safe_add_lookup_vars safe_eval_selector : safe.

Lemma safe_match_selectors e sv : safe0 (match_selectors v e sv).
Proof. unfold match_selectors. generalize (en_selector e) at 1. intros l. induction l; cbn [selector_loop]; safe. Qed.

Lemma safe_copy_str f s e : safe0 (copy_str f s e).
Proof. unfold copy_str. safe. Qed.
Hint Resolve safe_match_selectors safe_copy_str : safe.

Lemma safe_default_var sv d f name len e : safe0 (default_var v sv d f name len e).
Proof. unfold default_var. safe. Qed.

Lemma safe_default_str d f e : safe0 (default_str d f e).
Proof. unfold default_str. safe. Qed.

Lemma safe_default_opts d f e : safe0 (default_opts v d f e).
Proof. unfold default_opts. safe. Qed.
Hint Resolve safe_default_var safe_default_str safe_default_opts : safe.

Lemma safe_update_with_defaults d e sv : safe0 (update_with_defaults v d e sv).
Proof. unfold update_with_defaults, default_type. safe. Qed.

Lemma safe_expand_str b f name len e sv : safe0 (expand_str v b f name len e sv).
Proof. unfold expand_str. cbv zeta. safe. Qed.
Hint Resolve safe_update_with_defaults safe_expand_str : safe.

Lemma safe_expand_entry e flags sv : safe0 (expand_entry v e flags sv).
Proof. unfold expand_entry, expand_rhost, expand_programs, normalize_hostname. cbv zeta. safe. Qed.

Lemma safe_expand_option f e sv : safe0 (expand_option v f e sv).
Proof. unfold expand_option. safe. Qed.
Hint Resolve safe_expand_entry safe_expand_option : safe.

Lemma safe_merge_entry_options e sv : safe0 (merge_entry_options v e sv).
Proof. unfold merge_entry_options, add_options, expand_merge_options. cbv zeta. safe. Qed.

Lemma safe_dequote_str b f e : safe0 (dequote_str b f e).
Proof. unfold dequote_str. safe. Qed.
Hint Resolve safe_merge_entry_options safe_dequote_str : safe.

Lemma safe_dequote_entry e : safe0 (dequote_entry e).
Proof. unfold dequote_entry. safe. Qed.

Lemma safe_normalize_sublink e : safe0 (normalize_sublink e).
Proof. unfold normalize_sublink. safe. Qed.

Lemma safe_update_prefix e name : safe0 (update_prefix ap e name).
Proof. unfold update_prefix. safe. Qed.
End Parts.
