(* ===== verification/AmdProps.v ===== *)
(** * The parser of amd map entries: mounts, defaults, and the entry as a whole

    The parts of a run that change the tables of mounts, the defaults of the options, the
    theorem on the entry as a whole, and what the code does not do. *)

From S2P Require Import Prelude CString Hash Memory Args Cache CatPath Lexer Macros MacrosProps AmdExpand Selectors Options MntTable MntProps MntOps MntExt MntClaims MemOk ConfigNames ConfigGet AmdParse AmdSafe.
Open Scope Z_scope.

(** ** Defaults and mounts *)

#[export] Hint Resolve safe_addvar safe_findvar safe_expand safe_add_lookup_vars safe_match_selectors safe_copy_str
  safe_update_with_defaults safe_expand_entry safe_merge_entry_options safe_dequote_entry safe_normalize_sublink
  safe_update_prefix : safe.

Section Mounts.
Context (v : amd_env) (ap : amd_point).
Abbreviation safe0 := (safe (am_addr ap) 0 any).

Lemma safe_dup_defaults_entry d : safe0 (dup_defaults_entry d).
Proof. unfold dup_defaults_entry, copy_nonempty. cbv zeta. safe. Qed.

Lemma safe_make_default_entry sv : safe0 (make_default_entry v sv).
Proof. unfold make_default_entry. safe. Qed.

Lemma safe_select_loop l d sv : safe0 (select_loop v l d sv).
Proof. revert d. induction l; intros d; cbn [select_loop]; safe. Qed.
Hint Resolve safe_dup_defaults_entry safe_make_default_entry safe_select_loop : safe.

Lemma safe_get_defaults_entry d sv : safe0 (get_defaults_entry v d sv).
Proof. unfold get_defaults_entry, select_default_entry. safe. Qed.
Hint Resolve safe_get_defaults_entry : safe.

Lemma safe_setup_defaults name src arg : safe0 (setup_defaults v ap name src arg).
Proof. unfold setup_defaults. safe. Qed.

(** An operation on the table of external mounts. *)
Lemma safe_ext {A} k (c : MM A) :
  0 <= k ->
  (forall n s, ext_ok n s -> 0 <= n -> n + k < 2 ^ 31 ->
     exists x s', c s [] = Some (x, s', []) /\ ext_keeps s s' /\ ext_ok (n + k) s') -> safe (am_addr ap) k any (on_mnt c).
Proof.
  intros Hk Hc n s held x s' m ([T E U] & H0 & Hap) Hn. unfold on_mnt.
  destruct (Hc n (p_mnt s) E H0 Hn) as (y & t & -> & K & E'). intros [= _ <- <-]. split; [done|].
  pose proof K as (K1 & K2 & K3 & K4 & K5). split; [|split; [done|]].
  - split; [|split; [lia|cbn; by rewrite K3]]. split; [|done|cbn; by rewrite K4].
    apply (table_inv_le n); [|lia]. by eapply table_inv_ext_keeps.
  - cbn. intros _ _ p. unfold amd_at. by rewrite K1.
Qed.

Lemma safe_ext_add path um : safe (am_addr ap) 1 any (on_mnt (ext_mount_add path um)).
Proof.
  apply safe_ext; [done|]. intros n s E H0 Hn. destruct (ext_add_run n s path um [] E ltac:(lia)) as (r & s' & al & H1 & K & E' & Hal & _).
  destruct (Hal eq_refl) as [_ ->]. eauto.
Qed.

Lemma safe_ext_inuse path : safe0 (on_mnt (ext_mount_inuse path)).
Proof.
  apply safe_ext; [done|]. intros n s E H0 Hn. rewrite (ext_inuse_run n s path [] E ltac:(lia)).
  exists (ext_count s path), s. rewrite Z.add_0_r. done.
Qed.
Hint Resolve safe_ext_add safe_ext_inuse : safe.

Lemma safe_bind1 {A B} (c : PM A) (f : A -> PM B) :
  safe (am_addr ap) 1 any c -> (forall x, safe0 (f x)) -> safe (am_addr ap) 1 any (c ≫= f).
Proof. intros Hc Hf. by apply (safe_bind_post _ 1 0 any any). Qed.

Lemma safe_one {A} (c : PM A) : safe0 c -> safe (am_addr ap) 1 any c.
Proof. intros H. by eapply safe_weaken. Qed.

Lemma safe_free_cells n : forall a, safe0 (free_cells n a).
Proof. induction n; intros a; cbn [free_cells]; safe. Qed.

Lemma safe_dup_args n : forall a, safe0 (dup_args a n).
Proof. induction n; intros a; cbn [dup_args]; safe. Qed.
Hint Resolve safe_free_cells safe_dup_args : safe.

Lemma safe_argv_loop fuel : forall next argc args, safe0 (argv_loop fuel next argc args).
Proof. induction fuel; intros [|] argc args; cbn [argv_loop]; unfold add_argv, free_argv; safe. Qed.
Hint Resolve safe_argv_loop : safe.

Lemma safe_construct_argv s : safe0 (construct_argv s).
Proof. unfold construct_argv. safe. Qed.
Hint Resolve safe_construct_argv : safe.

Lemma safe_do_auto_mount name e : safe0 (do_auto_mount ap name e).
Proof. unfold do_auto_mount. cbv zeta. safe. Qed.

Lemma safe_do_link_mount name e flags : safe0 (do_link_mount ap name e flags).
Proof. unfold do_link_mount. safe. Qed.
Hint Resolve safe_do_auto_mount safe_do_link_mount : safe.

Lemma safe_do_linkx_mount name e flags : safe0 (do_linkx_mount ap name e flags).
Proof. unfold do_linkx_mount. safe. Qed.

Lemma safe_external_mount mount name e flags : safe (am_addr ap) 1 any (external_mount ap mount name e flags).
Proof.
  unfold external_mount. destruct (en_str e f_fs) as [fs|]; [|safe]. apply safe_bind; [done|safe|intros mounted].
  apply safe_bind1; [|safe]. case_match; [safe|]. apply safe_bind; [done|safe|intros ret].
  case_match; [safe|]. apply safe_bind1; [safe|]. safe.
Qed.
Hint Resolve safe_external_mount : safe.

Lemma safe_do_generic_mount name e target flags : safe (am_addr ap) 1 any (do_generic_mount ap name e target flags).
Proof. unfold do_generic_mount. safe. Qed.

Lemma safe_do_nfs_mount name e flags : safe (am_addr ap) 1 any (do_nfs_mount v ap name e flags).
Proof. unfold do_nfs_mount. cbv zeta. safe. Qed.
Hint Resolve safe_do_generic_mount safe_do_nfs_mount : safe.

Lemma safe_do_nfsl_mount name e sv flags : safe (am_addr ap) 1 any (do_nfsl_mount v ap name e sv flags).
Proof. unfold do_nfsl_mount. safe. Qed.

Lemma safe_run_program fs e prog argv : safe (am_addr ap) 1 any (run_program fs e prog argv).
Proof.
  unfold run_program. apply safe_bind; [done|safe|intros used]. case_match; [apply safe_bind1; safe|].
  apply safe_bind; [done|safe|intros rv]. case_match; [safe|]. apply safe_bind; [done|safe|intros status].
  apply safe_bind1; [|safe]. case_match; [|safe]. apply safe_bind1; safe.
Qed.

Lemma safe_do_program_mount e name : safe (am_addr ap) 1 any (do_program_mount ap e name).
Proof.
  unfold do_program_mount, free_argv. do 2 (apply safe_bind; [done|safe|intros ?]). case_match; [safe|].
  apply safe_bind; [done|safe|intros [[[argc prog] argv]|]]; [|safe]. apply safe_bind; [done|safe|intros fs].
  apply safe_bind1; [apply safe_run_program|]. safe.
Qed.
End Mounts.

(** ** The amd mounts of the table *)

Section Table.
Context (ap : positive).

(** An operation of the tables that keeps the external mounts. *)
Lemma fits_keeps n n' s held t :
  fits ap n s held -> n <= n' -> keeps (p_mnt s) t -> table_inv n' t held ->
  fits ap n' (PState (p_sys s) (p_mc s) t (p_answers s) (p_calls s)) held.
Proof.
  intros ([T E U] & H0 & Hap) Hn (K1 & K2 & K3) T'. split; [|split; [lia|]].
  - split; [done| |cbn; congruence]. apply (ext_ok_le n); [|lia]. eapply ext_ok_keeps; [exact E|exact K2|apply T'].
  - cbn. specialize (K3 ap). destruct Hap as [P HP]. rewrite HP in K3. destruct (ms_aps t !! ap); [by eexists|done].
Qed.

Lemma add_amd_fits n s held ent :
  fits ap n s held -> n + 1 < 2 ^ 31 ->
  exists a s', on_mnt (mnts_add_amdmount ap ent) s [] = Some (Some a, s', []) /\ fits ap (n + 1) s' held /\
    p_calls s' = p_calls s /\ forall p, amd_at (p_mnt s') p -> p = e_path ent \/ amd_at (p_mnt s) p.
Proof.
  intros F Hn. pose proof F as ([T E U] & H0 & [P HP]).
  destruct (add_amdmount_run n (p_mnt s) held ap P ent T ltac:(lia) U HP)
    as (a & t & H1 & K & T' & m & Hm & Hmp & _ & _ & _ & _ & _ & Hother).
  eexists a, _. split; [unfold on_mnt; by rewrite H1|]. split; [by apply (fits_keeps n); [|lia|..]|]. split; [done|].
  intros p (b & mb & Hb & <- & Hon). cbn in Hb. destruct (decide (b = a)) as [->|Hne].
  - left. by simplify_eq.
  - right. rewrite Hother in Hb by done. by exists b, mb.
Qed.

Lemma remove_amd_fits n s held path :
  fits ap n s held -> n < 2 ^ 31 ->
  exists s', on_mnt (mnts_remove_amdmount path) s [] = Some ((), s', []) /\ fits ap n s' held /\
    p_calls s' = p_calls s /\ forall p, amd_at (p_mnt s') p -> p <> path /\ amd_at (p_mnt s) p.
Proof.
  intros F Hn. pose proof F as ([T E U] & H0 & _).
  destruct (remove_amdmount_run n (p_mnt s) held path [] T ltac:(lia) U) as (t & H1 & K & T' & Hother & Hpath).
  eexists. split; [unfold on_mnt; by rewrite H1|]. split; [by apply (fits_keeps n); [|lia|..]|]. split; [done|].
  intros p (b & mb & Hb & <- & Hon). cbn in Hb.
  assert (forall m, ms_heap (p_mnt s) !! b = Some m -> m_mp m <> path) as Hne.
  { intros m Hm Hmp. rewrite (Hpath b m mb) in Hon; done. }
  rewrite Hother in Hb by done. split; [by apply Hne|by exists b, mb].
Qed.

Lemma safe_remove_amd path : safe ap 0 any (on_mnt (mnts_remove_amdmount path)).
Proof.
  intros n s held x s' m F Hn. destruct (remove_amd_fits n s held path F ltac:(lia)) as (t & -> & F' & C & A).
  intros [= _ <- <-]. rewrite Z.add_0_r, C. split; [done|]. split; [done|]. split; [done|]. intros _ _ p Hp. by apply A.
Qed.

Lemma mem_add_mount name flags : mem_ok (mnts_add_mount ap name flags).
Proof.
  assert (forall a, mem_ok (load (HH := mstate_heap) a)) as Hl.
  { intros a s x s' m. unfold load. case_match; [|done]. by intros [= _ _ <-]. }
  assert (forall a f, mem_ok (update (HH := mstate_heap) a f)) as Hu.
  { intros a f s x s' m. unfold update. case_match; [|done]. by intros [= _ _ <-]. }
  assert (forall x, mem_ok (new_obj (HH := mstate_heap) x)) as Hn by (by intros x s y s' m [= _ _ <-]).
  assert (mem_ok (load_ap ap)) as Ha.
  { intros s x s' m. unfold load_ap. case_match; [|done]. by intros [= _ _ <-]. }
  assert (forall mp l, mem_ok (mnts_find mp l)) as Hf by (intros mp l; induction l; cbn [mnts_find]; mem).
  unfold mnts_add_mount, mnts_get_mount, mnts_new_mount, mnts_alloc_mount, mnts_lookup, __mnts_get_mount, hash_add_str,
    mnts_hash_mutex_lock, mnts_hash_mutex_unlock, update_ap. cbv zeta. mem.
Qed.

Lemma safe_add_mount name : safe ap 1 (fun _ => False) (on_mnt (mnts_add_mount ap name MNTS_INDIRECT_MOUNTED)).
Proof.
  intros n s held x s' m F Hn. pose proof F as ([T E U] & H0 & [P HP]). unfold on_mnt.
  destruct (add_mount_run n (p_mnt s) held ap P name MNTS_INDIRECT_MOUNTED [] T ltac:(lia) U HP eq_refl eq_refl)
    as (r & t & al & Hrun & K & T' & _).
  rewrite Hrun. apply mem_add_mount in Hrun as ->. intros [= _ <- <-]. split; [done|].
  split; [apply (fits_keeps n); [done|lia|done|]|by split].
  by destruct r.
Qed.
End Table.
#[export] Hint Resolve safe_remove_amd : safe.

(** ** The entry *)

#[export] Hint Resolve safe_do_auto_mount safe_do_link_mount safe_do_linkx_mount safe_do_generic_mount safe_do_nfs_mount
  safe_do_nfsl_mount safe_do_program_mount : safe.

Section Entry.
Context (v : amd_env) (ap : amd_point).
Abbreviation safe0 := (safe (am_addr ap) 0 any).

Definition record_of (path : cstring) (e : amd_entry) : MntTable.amd_entry :=
  AmdEntry path (en_str e f_fs) (en_str e f_pref) (en_str e f_type) (en_str e f_opts) 0.

Lemma mnt_entry_run e path s m : en_str e f_path = Some path -> mnt_entry e s m = Some (record_of path e, s, m).
Proof using Type. unfold mnt_entry. by intros ->. Qed.

(** The base of a host map that has another name: an expire is waited for. *)
Lemma safe_host_base name rhost e : safe (am_addr ap) 1 any (host_base ap name rhost e).
Proof using Type.
  unfold host_base. case_match; [safe|]. apply safe_bind; [done|safe|intros ok]. case_match; [safe|]. cbv zeta.
  set (e' := set_str f_path _ e). intros n s held x s' m F Hn.
  rewrite (bind_some _ _ _ _ _ _ _ (mnt_entry_run e' _ s [] eq_refl)).
  destruct (add_amd_fits (am_addr ap) n s held (record_of (am_path ap ++ str "/" ++ rhost) e') F ltac:(lia))
    as (a & t & H1 & F1 & C & _).
  rewrite (bind_some _ _ _ _ _ _ _ H1). intros [= _ <- <-]. split; [done|]. split; [exact F1|]. cbn. rewrite C.
  split; [by eexists|]. intros _ []. set_solver.
Qed.

Lemma safe_host_lookup name rhost e : safe0 (host_lookup ap name rhost e).
Proof. unfold host_lookup. safe. Qed.

Lemma safe_do_host_mount name e : safe (am_addr ap) 1 any (do_host_mount ap name e).
Proof.
  unfold do_host_mount. apply safe_bind; [done|safe|intros rhost].
  apply safe_bind1; [apply safe_host_base|intros [[e' mnt] ok]].
  apply safe_bind; [done|destruct ok; [apply safe_host_lookup|safe]|]. safe.
Qed.

Lemma safe_validate_nfs_options e : safe0 (validate_nfs_options e).
Proof using Type. unfold validate_nfs_options. safe. Qed.

Lemma safe_amd_mount name e sv flags : safe (am_addr ap) 1 any (amd_mount v ap name e sv flags).
Proof using Type.
  unfold amd_mount. cbv zeta.
  assert (forall (ok : bool) (c : PM Z), safe (am_addr ap) 1 any c ->
    safe (am_addr ap) 1 any (if ok then ret ← c; mret (ret, e) else mret (1, e))) as Hrun.
  { intros [] c Hc; [apply safe_bind1; [done|]; safe|safe]. }
  assert (forall (c : PM Z) (e : amd_entry), safe (am_addr ap) 1 any c -> safe (am_addr ap) 1 any (ret ← c; mret (ret, e))) as Hret.
  { intros c e' Hc. apply safe_bind1; [done|]. safe. }
  destruct (_ =? AMD_MOUNT_TYPE_AUTO); [apply Hrun, safe_one, safe_do_auto_mount|].
  destruct (_ =? AMD_MOUNT_TYPE_LOFS); [apply Hrun, safe_do_generic_mount|].
  destruct (_ =? AMD_MOUNT_TYPE_UFS).
  { apply safe_bind; [done|unfold validate_ufs_fstype; safe|intros ok]. apply Hrun, safe_do_generic_mount. }
  destruct (_ || _); [apply Hrun, safe_do_generic_mount|].
  destruct (_ =? AMD_MOUNT_TYPE_NFS).
  { apply safe_bind; [done|apply safe_validate_nfs_options|intros [e'|]; [apply Hret, safe_do_nfs_mount|safe]]. }
  destruct (_ =? AMD_MOUNT_TYPE_NFSL).
  { apply safe_bind; [done|apply safe_validate_nfs_options|intros [e'|]; [|safe]].
    destruct (validate_link_options e'); [apply Hret, safe_do_nfsl_mount|safe]. }
  destruct (_ =? AMD_MOUNT_TYPE_LINK); [apply Hrun, safe_one, safe_do_link_mount|].
  destruct (_ =? AMD_MOUNT_TYPE_LINKX); [apply Hrun, safe_one, safe_do_linkx_mount|].
  destruct (_ =? AMD_MOUNT_TYPE_HOST); [destruct (validate_host_options e); [apply safe_do_host_mount|safe]|].
  destruct (_ =? AMD_MOUNT_TYPE_PROGRAM); [apply Hrun, safe_do_program_mount|safe].
Qed.
End Entry.

(** ** The path of an entry *)

Lemma bind_inv {S A B} (c : M S A) (f : A -> M S B) s m y s' m' :
  (c ≫= f) s m = Some (y, s', m') -> exists x s1 m1, c s m = Some (x, s1, m1) /\ f x s1 m1 = Some (y, s', m').
Proof. unfold mbind, M_bind. destruct (c s m) as [[[x s1] m1]|]; [|done]. eauto. Qed.

Lemma safe_prefix {A} ap k (c : PM A) n s held x s' m :
  safe ap k any c -> fits ap n s held -> n + k < 2 ^ 31 -> c s [] = Some (x, s', m) -> p_calls s `prefix_of` p_calls s'.
Proof. intros H F Hn E. apply (H n s held x s' m F Hn E). Qed.

Section Path.
Context (v : amd_env) (ap : amd_point).

Lemma host_base_path n s held name rhost e x s' m :
  fits (am_addr ap) n s held -> n + 1 < 2 ^ 31 -> host_base ap name rhost e s [] = Some (x, s', m) ->
  fst (fst x) = e \/ WaitExpire ∈ p_calls s'.
Proof using Type.
  intros F Hn. unfold host_base. case_match; [intros [= <- _ _]; by left|]. rewrite (bind_some _ _ s [] true s []) by done. cbn [negb]. cbv zeta.
  set (e' := set_str f_path _ e). rewrite (bind_some _ _ _ _ _ _ _ (mnt_entry_run e' _ s [] eq_refl)).
  destruct (add_amd_fits (am_addr ap) n s held (record_of (am_path ap ++ str "/" ++ rhost) e') F Hn) as (a & t & H1 & _).
  rewrite (bind_some _ _ _ _ _ _ _ H1). intros [= <- <- _]. right. cbn. set_solver.
Qed.

(** The path of an entry changes only for a host map of another name. *)
Lemma do_host_mount_path n s held name e x s' m :
  fits (am_addr ap) n s held -> n + 1 < 2 ^ 31 -> do_host_mount ap name e s [] = Some (x, s', m) ->
  WaitExpire ∉ p_calls s' -> snd x = e.
Proof using Type.
  intros F Hn. unfold do_host_mount. destruct (en_str e f_rhost) as [rhost|]; [|done]. rewrite bind_from_some.
  intros ([[e1 mnt] ok] & s1 & m1 & H1 & H2)%bind_inv Hw.
  destruct (safe_host_base ap name rhost e n s held _ _ _ F Hn H1) as (-> & F1 & _ & _).
  apply (host_base_path n s held) in H1 as [H1|H1]; [|destruct Hw|done..].
  - simpl in H1. subst e1. apply bind_inv in H2 as (ret & s2 & m2 & _ & H2).
    apply bind_inv in H2 as ([] & s3 & m3 & _ & H3). by injection H3 as <- _ _.
  - eapply elem_of_prefix; [exact H1|]. refine (safe_prefix _ 0 _ _ _ _ _ _ _ _ F1 _ H2); [|lia].
    apply safe_bind; [done|destruct ok; [apply safe_host_lookup|safe]|]. safe.
Qed.

Lemma validate_nfs_path e s o s' m m' :
  validate_nfs_options e s m = Some (Some o, s', m') -> s' = s /\ en_str o f_path = en_str e f_path.
Proof using Type.
  unfold validate_nfs_options. intros (r & s1 & m1 & H1 & H2)%bind_inv.
  assert (s1 = s /\ forall o, r = Some o -> en_str o f_path = en_str e f_path) as [-> Hr].
  { revert H1. destruct (en_str e f_rfs) as [[|]|]; [by intros [= <- <- _]|by intros [= <- <- _]; split; [|intros ? [= <-]]|].
    destruct (en_str e f_fs) as [[|]|]; [by intros [= <- <- _]| |done]. intros (ok & s2 & m2 & Hm & H)%bind_inv.
    assert (s2 = s) as -> by (by destruct m as [|b m]; injection Hm as _ <- _).
    injection H as <- <- _. split; [done|]. destruct ok; [|done]. by intros ? [= <-]. }
  injection H2 as H2 <- _. split; [done|]. destruct r as [o'|]; [|done]. specialize (Hr o' eq_refl).
  destruct (_ && _); [done|]. by injection H2 as <-.
Qed.

Lemma amd_mount_path n s held name e sv flags x s' m :
  fits (am_addr ap) n s held -> n + 1 < 2 ^ 31 -> amd_mount v ap name e sv flags s [] = Some (x, s', m) ->
  WaitExpire ∉ p_calls s' -> en_str (snd x) f_path = en_str e f_path.
Proof using Type.
  intros F Hn. unfold amd_mount. cbv zeta.
  assert (forall (ok : bool) (c : PM Z) s0 m0, (if ok then ret ← c; mret (ret, e) else mret (1, e)) s0 m0 = Some (x, s', m) ->
    WaitExpire ∉ p_calls s' -> en_str (snd x) f_path = en_str e f_path) as Hrun.
  { intros [] c s0 m0; [|by intros [= <- _ _]]. intros (? & ? & ? & _ & H)%bind_inv. by injection H as <- _ _. }
  assert (forall k : amd_entry -> PM (Z * amd_entry),
    (forall e1 s1 m1, k e1 s1 m1 = Some (x, s', m) -> snd x = e1) ->
    (r ← validate_nfs_options e; match r with None => mret (1, e) | Some e => k e end) s [] = Some (x, s', m) ->
    WaitExpire ∉ p_calls s' -> en_str (snd x) f_path = en_str e f_path) as Hnfs.
  { intros k Hk ([e1|] & s1 & m1 & H1 & H2)%bind_inv _; [|by injection H2 as <- _ _].
    apply validate_nfs_path in H1 as [_ <-]. by rewrite (Hk _ _ _ H2). }
  destruct (_ =? AMD_MOUNT_TYPE_AUTO); [apply Hrun|]. destruct (_ =? AMD_MOUNT_TYPE_LOFS); [apply Hrun|].
  destruct (_ =? AMD_MOUNT_TYPE_UFS); [intros (ok & s1 & m1 & _ & H)%bind_inv; by eapply Hrun|].
  destruct (_ || _); [apply Hrun|]. destruct (_ =? AMD_MOUNT_TYPE_NFS).
  { apply Hnfs. intros e1 s1 m1 (? & ? & ? & _ & H)%bind_inv. by injection H as <- _ _. }
  destruct (_ =? AMD_MOUNT_TYPE_NFSL).
  { apply Hnfs. intros e1 s1 m1. destruct (validate_link_options e1); [|by intros [= <- _ _]].
    intros (? & ? & ? & _ & H)%bind_inv. by injection H as <- _ _. }
  destruct (_ =? AMD_MOUNT_TYPE_LINK); [apply Hrun|]. destruct (_ =? AMD_MOUNT_TYPE_LINKX); [apply Hrun|].
  destruct (_ =? AMD_MOUNT_TYPE_HOST).
  { destruct (validate_host_options e); [|by intros [= <- _ _]]. intros H Hw.
    by rewrite (do_host_mount_path n s held name e x s' m). }
  destruct (_ =? AMD_MOUNT_TYPE_PROGRAM); [apply Hrun|]. by intros [= <- _ _].
Qed.
End Path.

(** ** Locations *)

Section Locations.
Context (v : amd_env) (ap : amd_point).

(** What is done with the entry of a location once it is complete. *)
Definition mount_location (name : cstring) (this : amd_entry) (sv : table) : PM (option Z * table) :=
  ent ← mnt_entry this;
  mnt ← on_mnt (mnts_add_amdmount (am_addr ap) ent);
  match mnt with
  | None => mret (None, sv)
  | Some _ =>
      '(rv, this) ← amd_mount v ap name this sv (v_flags v);
      path ← from_option_M (en_str this f_path);
      (if rv =? 0 then
         if streq path (e_path ent) then mret ()
         else rhost ← from_option_M (en_str this f_rhost); _ ← on_mnt (mnts_add_mount (am_addr ap) rhost MNTS_INDIRECT_MOUNTED); mret ()
       else on_mnt (mnts_remove_amdmount path));;
      mret (Some rv, sv)
  end.

Definition not_mounted (r : option Z * table) : Prop := fst r <> Some 0.

Lemma safe_mount_location name this sv : safe (am_addr ap) 3 not_mounted (mount_location name this sv).
Proof using Type.
  intros n s held x s' m F Hn. unfold mount_location.
  destruct (en_str this f_path) as [path|] eqn:Epath; [|unfold mnt_entry; by rewrite Epath].
  rewrite (bind_some _ _ _ _ _ _ _ (mnt_entry_run this path s [] Epath)).
  destruct (add_amd_fits (am_addr ap) n s held (record_of path this) F ltac:(lia)) as (a & s1 & H1 & F1 & C1 & A1).
  rewrite (bind_some _ _ _ _ _ _ _ H1). intros ([rv e2] & s2 & m2 & H2 & H3)%bind_inv.
  destruct (safe_amd_mount v ap name this sv (v_flags v) (n + 1) s1 held _ _ _ F1 ltac:(lia) H2) as (-> & F2 & C2 & A2).
  destruct (en_str e2 f_path) as [path2|] eqn:Epath2; [|done]. rewrite bind_from_some in H3.
  apply bind_inv in H3 as ([] & s3 & m3 & H3 & H4). injection H4 as <- <- <-. rewrite C1 in C2.
  replace (n + 3) with (n + 1 + 1 + 1) by lia. destruct (Z.eqb_spec rv 0) as [->|Hrv].
  - assert (safe (am_addr ap) 1 (fun _ => False) (if streq path2 (e_path (record_of path this)) then mret () else
      rhost ← from_option_M (en_str e2 f_rhost);
      _ ← on_mnt (mnts_add_mount (am_addr ap) rhost MNTS_INDIRECT_MOUNTED); mret ())) as Hs.
    { case_match; [safe|]. apply safe_bind; [done|safe|intros rhost].
      apply (safe_bind_post _ 1 0 (fun _ => False)); [done|done|apply safe_add_mount|safe|done]. }
    destruct (Hs (n + 1 + 1) s2 held () s3 m3 F2 ltac:(lia) H3) as (-> & F3 & C3 & _).
    split; [done|]. split; [done|]. split; [by etrans|]. intros Hq. by destruct Hq.
  - destruct (remove_amd_fits (am_addr ap) (n + 1 + 1) s2 held path2 F2 ltac:(lia)) as (t & H4 & F3 & C3 & A3).
    rewrite H4 in H3. injection H3 as <- <-. split; [done|]. split; [by apply (fits_le _ (n + 1 + 1)); [|lia]|].
    rewrite C3. split; [done|]. intros _ Hw p Hp. apply A3 in Hp as [Hne Hp]. apply A2 in Hp; [|done|done].
    apply A1 in Hp as [Hp|Hp]; [|done]. destruct Hne. rewrite Hp. cbn.
    pose proof (amd_mount_path v ap (n + 1) s1 held name this sv _ _ _ _ F1 ltac:(lia) H2 Hw) as E. simpl in E. congruence.
Qed.

Lemma safe_try_location name this cur sv : safe (am_addr ap) 3 not_mounted (try_location v ap name this cur sv).
Proof using Type.
  unfold try_location. apply safe_bind; [done|safe|intros e1]. apply safe_bind; [done|safe|intros [e2 sv2]].
  apply safe_bind; [done|safe|intros [e3 sv3]]. do 3 (apply safe_bind; [done|safe|intros ?]).
  apply safe_mount_location.
Qed.

Lemma safe_locations name src arg l : forall dflt cur sv one rv,
  safe (am_addr ap) (3 * Z.of_nat (length l)) (fun rv => rv <> 0) (locations v ap name src arg l dflt cur sv one rv).
Proof using Type.
  induction l as [|this l IH]; intros dflt cur sv one rv; [apply safe_ret; lia|]. cbn [locations].
  assert (forall dflt cur sv one rv, safe (am_addr ap) (3 * Z.of_nat (length (this :: l))) (fun rv => rv <> 0)
    (locations v ap name src arg l dflt cur sv one rv)) as IH'.
  { intros. eapply safe_weaken; [apply IH|simpl; lia|done]. }
  assert (0 <= 3 * Z.of_nat (length (this :: l))) as H0 by lia.
  case_match; [apply safe_bind; [done|safe|intros cur']; apply IH'|].
  case_match.
  { apply safe_bind; [done|apply safe_setup_defaults|intros nd]. destruct (default _ nd) as [dflt' sv'].
    apply safe_bind; [done|apply safe_dup_defaults_entry|intros new]. apply IH'. }
  apply safe_bind; [done|safe|intros [cur' sv']]. case_match; [apply safe_ret; lia|].
  apply safe_bind; [done|safe|intros ok]. destruct ok; cbn [negb]; [|apply IH'].
  replace (3 * Z.of_nat (length (this :: l))) with (3 + 3 * Z.of_nat (length l)) by (simpl; lia).
  eapply safe_bind_post; [done|lia|apply safe_try_location| |].
  - intros [[rv'|] sv'']; [|apply safe_ret; lia]. case_match; [apply safe_ret; lia|apply IH].
  - intros [[rv'|] sv''] s y s' m; [|done]. destruct (Z.eqb_spec rv' 0) as [->|Hne]; [by intros [= <- _ _]|].
    intros _ _ [= ?]. congruence.
Qed.
End Locations.

(** ** Defaults *)

Section Defaults.
Context (v : amd_env) (d : amd_entry) (sv : list substvar) (s : pstate).

(** The value of a variable: of the map, of the system or of the environment. *)
Definition variable (name : cstring) : option cstring :=
  match value_of name sv, value_of name (p_sys s) with
  | Some x, _ => Some (sv_val x)
  | None, Some x => Some (sv_val x)
  | None, None => g ← v_getenv v; g name
  end.

Definition first_of (a b : option cstring) : option cstring := match a with Some x => Some x | None => b end.

(** Where an option that is not set is taken from. *)
Definition default_of (f : field) : option cstring :=
  match f with
  | f_path | f_mount | f_umount => None
  | f_type | f_map_type | f_pref | f_dev => en_str d f
  | f_opts | f_addopts => nonempty (en_str d f)
  | f_fs => first_of (en_str d f) (variable (str "fs"))
  | f_rfs => first_of (en_str d f) (variable (str "rfs"))
  | f_rhost => first_of (en_str d f) (variable (str "host"))
  | f_remopts => first_of (en_str d f) (variable (str "remopts"))
  | f_sublink => first_of (en_str d f) (variable (str "su"))
  end.

Definition type_with (e : amd_entry) : Z :=
  if negb (mount_type e =? AMD_MOUNT_TYPE_NONE) then mount_type e
  else if negb (mount_type d =? AMD_MOUNT_TYPE_NONE) then mount_type d else AMD_MOUNT_TYPE_NFS.

Definition untyped (e : amd_entry) : bool := (mount_type e =? AMD_MOUNT_TYPE_NONE) && (mount_type d =? AMD_MOUNT_TYPE_NONE).

(** An option that is not set is set. *)
Definition set_or (f : field) (o : option cstring) (e : amd_entry) : amd_entry :=
  match en_str e f, o with None, Some x => set_str f (Some x) e | _, _ => e end.

Lemma set_or_str f o e g : en_str (set_or f o e) g = if decide (g = f) then first_of (en_str e f) o else en_str e g.
Proof using Type.
  unfold set_or. destruct (en_str e f) as [x|] eqn:E; [by case_decide; [subst|]|].
  destruct o; [done|]. by case_decide; [subst|].
Qed.

Lemma set_or_flags f o e : en_flags (set_or f o e) = en_flags e.
Proof using Type. unfold set_or. by repeat case_match. Qed.

Lemma copy_str_run f o e : copy_str f o e s [] = Some (match o with Some x => set_str f (Some x) e | None => e end, s, []).
Proof using Type. by destruct o. Qed.

Lemma default_str_run f e : default_str d f e s [] = Some (set_or f (en_str d f) e, s, []).
Proof using Type. unfold default_str, set_or. destruct (en_str e f); [done|]. apply copy_str_run. Qed.

Lemma default_opts_run f e : default_opts v d f e s [] = Some (set_or f (nonempty (en_str d f)) e, s, []).
Proof using Type. unfold default_opts, set_or. destruct (en_str e f); [done|]. by destruct (en_str d f) as [[|c l]|]. Qed.

Lemma findvar_run name len :
  (len <= length name)%nat -> Z.of_nat len < 512 ->
  exists o, findvar v sv name len s [] = Some (o, s, []) /\ sv_val <$> o = variable (take len name).
Proof using Type.
  intros Hlen Hmax. unfold findvar, on_sys, macro_findvar, variable. rewrite (reads_bind _ _ _ _ _ (reads_get (p_sys s))).
  rewrite !sv_find_value by done. destruct s as [sys mc mnt an ca]. cbn [p_sys p_mc p_mnt p_answers p_calls].
  destruct (value_of _ sv) as [x|] eqn:E1; [by exists (Some x)|].
  destruct (value_of _ sys) as [x|]; [by exists (Some x)|].
  destruct (v_getenv v) as [g|]; [|by exists None]. destruct (Z.leb_spec 512 (Z.of_nat len)); [lia|].
  change (Some g ≫= (fun g => g (take len name))) with (g (take len name)). destruct (g (take len name)) as [x|]; [|by exists None].
  exists (Some (SV (take len name) x false)). unfold macro_addvar. rewrite sv_find_value, E1 by done. done.
Qed.

Lemma default_var_run f name len e :
  (len <= length name)%nat -> Z.of_nat len < 512 ->
  default_var v sv d f name len e s [] = Some (set_or f (first_of (en_str d f) (variable (take len name))) e, s, []).
Proof using Type.
  intros H1 H2. unfold default_var, set_or. destruct (en_str e f); [done|]. destruct (en_str d f); [done|]. cbn [first_of].
  destruct (findvar_run name len H1 H2) as (o & Ho & Hv). rewrite (bind_some _ _ _ _ _ _ _ Ho), Hv. apply copy_str_run.
Qed.

(** The entry before its options are completed. *)
Definition typed (e : amd_entry) : amd_entry :=
  if negb (mount_type e =? AMD_MOUNT_TYPE_NONE) then e
  else if negb (mount_type d =? AMD_MOUNT_TYPE_NONE) then set_flags (Z.lor (en_flags e) (mount_type d)) e
  else set_str f_type (Some (str "nfs")) (set_flags AMD_MOUNT_TYPE_NFS e).

Lemma default_type_run e : default_type d e s [] = Some (typed e, s, []).
Proof using Type. unfold default_type, typed. by repeat case_match. Qed.

Lemma mount_type_typed e : mount_type (typed e) = type_with e.
Proof using Type.
  unfold typed, type_with. destruct (Z.eqb_spec (mount_type e) AMD_MOUNT_TYPE_NONE) as [E|]; [|done]. cbn [negb].
  destruct (mount_type d =? AMD_MOUNT_TYPE_NONE); [done|]. cbn [negb].
  unfold mount_type in *. cbn [en_flags set_flags]. rewrite Z.land_lor_distr_l, E, Z.lor_0_l, <- Z.land_assoc. done.
Qed.

Lemma set_or_type f o e : mount_type (set_or f o e) = mount_type e.
Proof using Type. unfold mount_type. by rewrite set_or_flags. Qed.

Lemma typed_str e f : en_str (typed e) f = if decide (f = f_type) then if untyped e then Some (str "nfs") else en_str e f else en_str e f.
Proof using Type.
  unfold typed, untyped. destruct (mount_type e =? _), (mount_type d =? _); cbn; by repeat case_decide.
Qed.

(** C37. An option that the location sets stays as it is. One that it does not set is taken
    from the defaults, and then, for the file systems, the host, the remote options and
    the link, from a variable; the type of the mount follows the defaults and is NFS
    without them. The variable of the link is looked up by two characters of its name. *)
Theorem update_with_defaults_spec e :
  exists e', update_with_defaults v d e sv s [] = Some (e', s, []) /\ mount_type e' = type_with e /\
    forall f, en_str e' f = if untyped e && bool_decide (f = f_type) then Some (str "nfs") else first_of (en_str e f) (default_of f).
Proof using Type.
  eexists. split; [|split].
  - unfold update_with_defaults. rewrite (bind_some _ _ _ _ _ _ _ (default_type_run e)).
    do 3 (rewrite (bind_some _ _ _ _ _ _ _ (default_str_run _ _))).
    rewrite (bind_some _ _ _ _ _ _ _ (default_var_run f_fs (str "fs") 2 _ ltac:(simpl; lia) ltac:(lia))).
    rewrite (bind_some _ _ _ _ _ _ _ (default_var_run f_rfs (str "rfs") 3 _ ltac:(simpl; lia) ltac:(lia))).
    rewrite (bind_some _ _ _ _ _ _ _ (default_var_run f_rhost (str "host") 4 _ ltac:(simpl; lia) ltac:(lia))).
    rewrite (bind_some _ _ _ _ _ _ _ (default_str_run _ _)).
    do 2 (rewrite (bind_some _ _ _ _ _ _ _ (default_opts_run _ _))).
    rewrite (bind_some _ _ _ _ _ _ _ (default_var_run f_remopts (str "remopts") 7 _ ltac:(simpl; lia) ltac:(lia))).
    apply default_var_run; simpl; lia.
  - rewrite !set_or_type. apply mount_type_typed.
  - intros f. destruct f;
      repeat (rewrite set_or_str; first [rewrite decide_True by done | rewrite decide_False by done]);
      rewrite typed_str; first [rewrite decide_True by done | rewrite decide_False by done];
      first [rewrite bool_decide_eq_true_2 by done | rewrite bool_decide_eq_false_2 by done];
      rewrite ?andb_false_r, ?andb_true_r; try done.
    + by destruct (en_str e f_path).
    + by destruct (untyped e).
    + by destruct (en_str e f_mount).
    + by destruct (en_str e f_umount).
Qed.
End Defaults.

(** ** An entry as a whole *)


(** An entry with one location; [ex_defaults] is what the internal defaults give. *)
Definition ex_defaults : amd_entry := set_str f_opts (Some (str "rw,defaults")) no_entry.
Definition ex_env (l : list amd_entry) : amd_env :=
  AmdEnv None true 0 (fun _ => false) (fun _ => 0) (fun _ _ => false) (fun _ => None) (fun _ => None) 0 None None true
    (fun text _ => if streq text (str "opts:=rw,defaults") then Some [ex_defaults] else Some l) None.
Definition ex_point : amd_point := AmdPoint 1 (str "/net") None.
Definition ex_state (answers : list Z) : pstate :=
  PState [] (MC 1 [None] [[]] ∅) (no_mounts (<[1%positive := AP (str "/net") None 0 [] [] []]> ∅)) answers [].
Definition ex_link : amd_entry :=
  set_str f_path (Some (str "/net/x")) (set_str f_fs (Some (str "/tmp")) (set_flags AMD_MOUNT_TYPE_LINK no_entry)).
Definition ex_host : amd_entry :=
  set_str f_path (Some (str "/net/x")) (set_str f_fs (Some (str "/net")) (set_str f_rhost (Some (str "srv")) (set_flags AMD_MOUNT_TYPE_HOST no_entry))).

Lemma ex_sound answers : sound 0 (p_mnt (ex_state answers)) (fun _ => 0).
Proof.
  destruct sound_start as [T E U]. split; [|apply no_mounts_ext|done].
  apply (point_inv 0 (no_mounts ∅) (fun _ => 0)); [done|done|by intros []].
Qed.


(** ** What the code does not do *)

(** The mount of a host map by another name that fails leaves the amd mount that was
    recorded for the location: the path of the entry has changed when it is removed. *)
Theorem failed_host_leaves_mount :
  exists s', amd_parse_mount (ex_env [ex_host]) ex_point None [] (str "x") (Some (str "entry")) (ex_state [0; 1]) [] = Some (1, s', []) /\
    amd_at (p_mnt s') (str "/net/x").
Proof.
  destruct (amd_parse_mount (ex_env [ex_host]) ex_point None [] (str "x") (Some (str "entry")) (ex_state [0; 1]) [])
    as [[[rv s'] m]|] eqn:E; [|vm_compute in E; discriminate].
  vm_compute in E. injection E as <- <- <-. eexists. split; [reflexivity|]. exists 1%positive. eexists. by split.
Qed.

(** The selectors behind the first one of a location are not evaluated. *)
Theorem only_first_selector v flags strs x sel1 sel2 sv s :
  sel_flags sel1 = Z.lor SEL_FLAG_FUNC1 SEL_FLAG_BOOL -> sel_id sel1 = SEL_TRUE ->
  match_selectors v (Amd flags strs [Selector sel1 0 None None; Selector sel2 x None None]) sv s [] = Some (true, s, []).
Proof.
  intros H1 H2. set (e := Amd flags strs _).
  assert (eval_selector v e sv s [] = Some (true, s, [])) as H.
  { unfold eval_selector, e. cbn [en_selector head]. rewrite bind_from_some. unfold eval_sel. cbn [sl_sel]. by rewrite H1, H2. }
  unfold match_selectors, e. cbn [en_selector selector_loop]. fold e. by do 2 rewrite (bind_some _ _ _ _ _ _ _ H).
Qed.

(** A mount of type nfsl is never a link when the name of the host has a domain: the
    remote host would have to be equal to both names. *)
Theorem nfsl_never_links v ap name e sv flags s host hostd :
  findvar v sv (str "host") 4 s [] = Some (Some host, s, []) -> findvar v sv (str "hostd") 5 s [] = Some (Some hostd, s, []) ->
  (forall r, strcaseeq (sv_val host) r = true -> strcaseeq (sv_val hostd) r = false) ->
  is_Some (en_str e f_rhost) -> is_Some (en_str e f_fs) ->
  do_nfsl_mount v ap name e sv flags s [] = do_nfs_mount v ap name e flags s [].
Proof.
  intros H1 H2 Hne [rhost Er] [fs Ef]. unfold do_nfsl_mount. rewrite (bind_some _ _ _ _ _ _ _ H1), (bind_some _ _ _ _ _ _ _ H2).
  case_bool_decide; [done|]. rewrite Er, Ef, bind_from_some.
  assert (forall o : option cstring, exists t, (match o with Some x => Some x | None => Some fs end) = Some t) as Ht by (intros []; eauto).
  destruct (Ht (en_str e f_sublink)) as [t ->]. rewrite bind_from_some.
  destruct (strcaseeq (sv_val host) rhost) eqn:E; [|done]. by rewrite (Hne rhost E).
Qed.

(** A target that is too long is not mounted, and the result is success. *)
Theorem long_target_succeeds ap name e fs s m :
  en_str e f_fs = Some fs -> en_str e f_sublink = None -> PATH_MAX < strlen fs -> do_link_mount ap name e 0 s m = Some (0, s, m).
Proof.
  intros H1 H2 H3. unfold do_link_mount. rewrite H1, H2, bind_from_some. by destruct (Z.ltb_spec PATH_MAX (strlen fs)); [|lia].
Qed.

(** A program that has mounted its file system, which cannot be recorded: it is unmounted,
    and the result is success. *)
Theorem unrecorded_program_succeeds prog argv :
  exists s', run_program (str "/mnt") no_entry prog argv (ex_state []) [false] = Some (0, s', []) /\
    p_calls s' = [Mkdir (str "/mnt"); Spawn prog argv; Umount (str "/mnt"); Rmdir (str "/mnt")].
Proof. eexists. split; vm_compute; reflexivity. Qed.

(** Defaults that are reset, with selectors in the defaults: the copy of no entry. *)
Theorem reset_defaults_null v e l sv s d :
  has (en_flags e) AMD_DEFAULTS_MERGE = false -> has (en_flags e) AMD_DEFAULTS_RESET = true ->
  select_loop v (e :: l) d sv s [] = None.
Proof. intros H1 H2. cbn [select_loop]. by rewrite H1, H2. Qed.

(** ** The module *)

(** With [n] contexts the module for NFS is open when there is one. *)
Definition module_ok (n : Z) (d : amd_module) : Prop := md_ctr d = n /\ md_nfs d = (0 <? n).

Lemma amd_parse_init_module open n d m :
  module_ok n d -> 0 <= n -> exists r d' m', amd_parse_init open d m = Some (r, d', m') /\ module_ok (if r =? 0 then n + 1 else n) d'.
Proof.
  intros [Hc Hn] H0. assert (exists b m1, malloc d m = Some (b, d, m1)) as (b & m1 & Hm) by (destruct m as [|b m]; by eexists _, _).
  unfold amd_parse_init. rewrite (bind_some _ _ _ _ _ _ _ Hm). destruct b; cbn [negb]; [|by exists 1, d, m1].
  rewrite (reads_bind _ _ _ _ _ (reads_get d)). destruct (md_nfs d || open); [|by exists 1, d, m1].
  eexists 0, _, m1. split; [reflexivity|]. split; cbn; [lia|]. symmetry. apply Z.ltb_lt. lia.
Qed.

Lemma amd_parse_done_module close n d m :
  module_ok n d -> 0 < n -> exists r d', amd_parse_done close d m = Some (r, d', m) /\ module_ok (n - 1) d'.
Proof.
  intros [Hc Hn] H0. unfold amd_parse_done. rewrite bind_modify, (reads_bind _ _ _ _ _ (reads_get _)). cbn [md_ctr].
  destruct (Z.eqb_spec (md_ctr d - 1) 0); eexists _, _; (split; [reflexivity|]); split; cbn; try lia.
  rewrite Hn. transitivity true; [by apply Z.ltb_lt|symmetry; apply Z.ltb_lt; lia].
Qed.
